(* ===== verification/_CoqProject ===== *)
-Q . S2P
Prelude.v
Money.v
Accounts.v
Transactions.v
Entries.v
Validation.v
StorageErrors.v
Schema.v
Cache.v
Effects.v
Triples.v
Postgres.v
ServiceErrors.v
Ledger.v
Invariant.v
Updates.v
PostgresSpecs.v
LedgerSpecs.v
Preserve.v
Integrity.v
Handlers.v
HandlerSpecs.v
AuthorizeSpec.v
SettleSpec.v
System.v
Safety.v
Concrete.v
Effect.v
LedgerCorrect.v
HistoryCorrect.v
FundsCorrect.v
Locking.v
Commits.v
Concurrent.v
Deadlock.v
Isolation.v
Interference.v
SafeStatements.v
SafeHandlers.v
Soundness.v
ConcurrentCorrect.v
DomainCorrect.v
Config.v
Recorder.v
Server.v
LoadGen.v
LoadSafe.v
GrpcMetrics.v
Metrics.v
IntegrityCorrect.v
Refinement.v
UnitTests.v
