(* ===== verification/Prelude.v ===== *)
(** * Fides: verification of a double-entry ledger server

    Fides is a gRPC server that keeps a double-entry ledger in PostgreSQL.  A
    client opens accounts, authorizes a transaction (a balanced list of legs, held
    as pending entries), and later captures it (the entries are posted) or voids
    it.  Every account carries materialized posted and pending balances, which the
    handlers update under row locks with an optimistic version check; an
    in-memory cache mirrors them and answers [GetBalance] and the check of
    available funds.  This library models the server's Rust sources and proves
    what makes them correct.

    ** The parts and the files that model them

    - [Prelude] (this file): results, machine integers, string slices, [dedup],
      sums over lists and tables, the tactics and hint databases.
    - Domain ([src/fides-server/src/domain]): [Money], [Accounts],
      [Transactions], [Entries], [Validation].  One definition per constructor or
      method, named [Type_method]; integers are [Z], with checked, saturating and
      wrapping operations written out.  [Validation] also holds the reference
      definitions on unbounded integers.
    - Storage ([src/fides-server/src/storage]): [StorageErrors] (mod.rs),
      [Schema] (the tables and constraints of the migration, and the meaning of
      each SQL statement), [Cache] (cache.rs), [Postgres] (postgres.rs: codes,
      decoding of rows, one program per method).
    - Effects: [Effects] defines programs over the clock, the database (through a
      transaction or the pool), the cache and the counters, and runs them on a
      [world].  The world carries a schedule of failures: any round trip to the
      database may fail with any error, and a failed commit may have been applied.
      [Triples] gives the reasoning rules: [wp] is total correctness (a run
      returns and does not panic), [tx] describes code inside a database
      transaction.
    - Service ([src/fides-server/src/service]): [ServiceErrors] (mod.rs) and
      [Ledger] (ledger.rs: the seven handlers, with the blocks they share as
      definitions of their own).
    - [System]: requests dispatched to handlers, the loading of the cache at the
      start (server.rs), and the histories of requests and restarts, in an
      environment that chooses the clock and the failures ([reachable]).
    - [Concurrent]: requests that interleave.  Each request is a session (the rest
      of its handler and its open database transaction: the rows it has written, and
      its locks); one step of a session is one statement, one access to the cache or
      one commit, and any session that does not wait for a row may take it
      ([conc_step]).  A statement sees the committed rows overlaid with those of its
      own transaction, as under READ COMMITTED, and waits for the row locks it needs
      ([stmt_locks] in [Effects], filled in by [Postgres]).
    - [Integrity] (observability/integrity.rs), [GrpcMetrics]
      (observability/grpc_metrics.rs), [Recorder] and [Metrics]
      (observability/metrics.rs), [Config] (config.rs).
    - [Server]: the health probes (health.rs); connecting, starting and the graceful
      shutdown (server.rs): [serve] builds the process spawn by spawn, with each way to
      fail as an outcome, and the process is a transition system of the two server
      tasks, the two background tasks, the connections that are out of the pool and the
      handle that drains them; the commands of the binary (main.rs) as sequences of
      actions that can fail.
    - [LoadGen]: the load generator (src/fides-load/src/main.rs).  Its setup and its
      workers are programs that call the server and count; the random choices and the
      keys are their inputs, the workers interleave with each other and with the steps
      of the server between a call and its answer, calls and answers can get lost, and
      the server is the class [LedgerServer].  [LoadSafe] makes the interleaving server
      of [Concurrent] an instance of it.
    - [UnitTests]: the [#[test]] functions of the domain, the cache, the
      configuration, the metrics layer and the integrity checker, run on the model.

    ** The proofs

    [Invariant] states the ledger invariant [db_ok] and the agreement of cache and
    table ([mirror]).  [Updates] is the arithmetic of accumulated balance updates;
    [PostgresSpecs] and [LedgerSpecs] specify the storage methods and the blocks of
    the handlers inside a transaction; [Preserve] shows that the three changes a
    request can commit (a new account, a new pending transaction, a settlement)
    keep the invariant; [Handlers] has the rules for whole requests (begin,
    commit, what follows the commit, and the three ways a request can end);
    [HandlerSpecs], [AuthorizeSpec] and [SettleSpec] specify the handlers;
    [Safety] lifts them to histories; [Effect] reads them account by account;
    [Concrete] instantiates the parameters and builds the sample history on which
    the concrete cases evaluate.

    For interleaved requests: [Commits] states the invariant in two parts, what holds
    in every interleaving ([racing_ok]) and what needs settlements of one pending
    transaction not to overlap ([db_ok]; a transaction that is settled may be settled
    again at any time), with the class [LedgerInvariant] of the invariants a
    commit can be shown to keep; [Deadlock] shows that waiting follows a total order
    of the resources and that every step decreases a measure; [Isolation] is what a
    transaction may assume of the others (its locked rows do not change, the tables
    only grow) and how its own rows are committed over theirs; [Interference] is the
    logic of a handler in such an environment, [SafeStatements] and [SafeHandlers] its
    rules for the statements and its proofs for the seven handlers, with what a
    successful answer says of the tables, and [Soundness] shows that what the logic
    proves holds in every reachable configuration.

    The properties:
    - [LedgerCorrect]: the invariant of every reachable world (balanced
      transactions, balances equal to sums of entries, unique keys, consistent
      statuses), agreement of the cache, failed requests change nothing, and the
      exact effect of authorize, capture and void.
    - [HistoryCorrect]: idempotency across arbitrary histories, the append-only
      evolution of the tables, authorize followed by void restores all balances,
      liveness of authorize, capture and void when the database works, the reason
      of every error, absence of panics, finality of settled transactions.
    - [FundsCorrect]: answers of [GetBalance] and [GetEntries], agreement of the
      domain's recomputation, the funds check and what it does not prevent (holds
      raise the available balance, legs are checked one by one, assets can mix),
      restarts, lost commit acknowledgements.
    - [Locking]: accounts are locked in strictly increasing order.
    - [ConcurrentCorrect]: the ledger invariant in every interleaving without two
      overlapping settlements of one pending transaction, what is conserved in every
      interleaving, what successful answers say in every interleaving, absence of
      deadlocks and completion of all requests; and schedules
      that show what interleaving breaks (two captures or a capture and a void of one
      transaction, the cache of a new account, the check of the funds).
    - [DomainCorrect]: exactness of validation and recomputation, amounts, stored
      rows as typed values, what is inserted is read back, reports of duplicate keys.
    - [IntegrityCorrect]: the checks of the tables pass on every reachable ledger, that
      of the cache unless a commit was applied behind a reported failure, and together
      they detect every divergence.
    - [Refinement]: the tables simulate an abstract ledger that has only accounts
      and transactions with phases, and the balances are those it derives.
    - [Config], [GrpcMetrics]: validated configurations, redaction of passwords,
      transparency of the metrics layer and the labels it counts under.  [Recorder]: the
      recorder is installed once.  [Metrics]: every metric the server reports is
      described.
    - [Server]: the order of the graceful shutdown, what its end waits for, what
      starting the server leaves behind, and what the binary does for each command.
    - [LoadGen]: what the counters and the figures of a run say.  [LoadSafe]: the
      generator never has two settlements of a pending transaction under way, so a run
      keeps the ledger invariant, and what it sends.
    - [UnitTests]: all modelled tests pass.

    ** Parameters and bounds

    Code that is not part of the sources is a parameter: [serde_json] and what a
    [JSONB] column keeps ([JsonLib]), what a [VARCHAR(n)] column keeps and the
    texts of PostgreSQL's errors ([PgLib], with the laws [PgLaws]), the builder of
    the [config] crate (an argument of [AppConfig_load]), the Prometheus exporter (an
    argument of [install_recorder]), the operating system's [bind] and [local_addr]
    (of [serve]).
    No definition needs fuel: programs are finite trees and every loop is over a finite
    list; a worker of the load generator loops over the rounds it makes before it sees
    the stop flag.  Floating-point numbers of the report are IEEE 754 doubles
    ([SpecFloat], precision 53, exponent bound 1024).
    Integers are unbounded with their width enforced where the sources or the
    columns enforce it; [request_typed] says that decoded amounts are 64-bit.

    ** What is not modelled

    Sockets, the transport, timers and TLS: tasks end or time out by nondeterministic
    steps.  Durations of requests and of checks, the text of log lines other than the
    configuration summary, the printing of the load generator's report, the parsing of
    command-line arguments, and the generated code of the protocol ([src/fides-proto]);
    the messages are records.  A failed statement ends its request in the sources, so
    the aborted state of a PostgreSQL transaction is not represented.  In the model of
    interleaving a lock that cannot be granted makes its session wait without a timeout,
    and a deadlock, which the proofs exclude, would not be broken by the database; that a
    sequential history is one of the interleavings is not stated as a theorem, and
    neither the agreement of the cache nor the check of the funds is claimed of
    interleaved requests (the schedules of [ConcurrentCorrect] show why).  The stream of
    [GetEntries] is the list of its messages, and a client that disconnects is not
    represented; the histogram of request durations is left out with the durations.  The
    server does not restart during a run of the load generator.  The test
    [metadata_is_accessible] indexes a JSON value, which is the business of [serde_json].
    Integration tests, benchmarks and deployment files are not part of the model. *)

From Stdlib Require Export ZArith Lia.
From stdpp Require Export base tactics sorting gmap strings pretty option.
From stdpp Require Export list.

(** ** Fallible computations: Rust's [Result<A, E>] *)

Inductive result (E A : Type) : Type :=
| Ok (a : A)
| Err (e : E).
Arguments Ok {E A} a.
Arguments Err {E A} e.

#[export] Instance result_ret E : MRet (result E) := fun A a => Ok a.
#[export] Instance result_bind E : MBind (result E) := fun A B f r =>
  match r with Ok a => f a | Err e => Err e end.

(** [Result::map_err] *)
Definition map_err {E F A} (f : E -> F) (r : result E A) : result F A :=
  match r with Ok a => Ok a | Err e => Err (f e) end.

(** [Option::ok_or] *)
Definition ok_or {E A} (e : E) (o : option A) : result E A :=
  match o with Some a => Ok a | None => Err e end.

Definition is_ok {E A} (r : result E A) : bool :=
  match r with Ok _ => true | Err _ => false end.

#[export] Instance result_eq_dec {E A} `{EqDecision E, EqDecision A} :
  EqDecision (result E A).
Proof. solve_decision. Defined.

(** A fallible left fold: a Rust [for] loop whose body uses [?]. *)
Fixpoint try_fold {E S A} (f : S -> A -> result E S) (s : S) (l : list A)
  : result E S :=
  match l with
  | [] => Ok s
  | x :: l => s' ← f s x; try_fold f s' l
  end.

(** A fallible map: a Rust [for] loop that pushes one element per iteration. *)
Fixpoint try_map {E A B} (f : A -> result E B) (l : list A) : result E (list B) :=
  match l with
  | [] => Ok []
  | x :: l => y ← f x; ys ← try_map f l; Ok (y :: ys)
  end.

(** ** Machine integers, kept at their width *)

Local Open Scope Z_scope.

Definition i64_min : Z := -9223372036854775808.
Definition i64_max : Z := 9223372036854775807.
Definition i32_min : Z := -2147483648.
Definition i32_max : Z := 2147483647.

Definition in_i64 (z : Z) : Prop := i64_min <= z <= i64_max.
Definition in_i32 (z : Z) : Prop := i32_min <= z <= i32_max.
#[export] Instance in_i64_dec z : Decision (in_i64 z) := and_dec _ _.
#[export] Instance in_i32_dec z : Decision (in_i32 z) := and_dec _ _.

(** Two's complement wrap-around: plain [+], [-] and unary [-] on [i64] in a
    build without overflow checks. *)
Definition i64_wrap (z : Z) : Z := (z - i64_min) mod 2 ^ 64 + i64_min.

(** [as] casts between integer types. *)
Definition as_u8 (z : Z) : Z := z mod 2 ^ 8.
Definition as_i32 (z : Z) : Z := (z - i32_min) mod 2 ^ 32 + i32_min.

(** [i64::checked_add], [i64::checked_sub] *)
Definition i64_checked_add (a b : Z) : option Z :=
  if decide (in_i64 (a + b)) then Some (a + b) else None.
Definition i64_checked_sub (a b : Z) : option Z :=
  if decide (in_i64 (a - b)) then Some (a - b) else None.

(** [i64::saturating_add], [i64::saturating_sub] *)
Definition i64_clamp (z : Z) : Z := Z.max i64_min (Z.min i64_max z).
Definition i64_saturating_add (a b : Z) : Z := i64_clamp (a + b).
Definition i64_saturating_sub (a b : Z) : Z := i64_clamp (a - b).

(** ** Vectors *)

(** [Vec::dedup]: drop an element equal to the one kept just before it. *)
Fixpoint dedup_from {A} `{EqDecision A} (x : A) (l : list A) : list A :=
  match l with
  | [] => []
  | y :: l => if decide (y = x) then dedup_from x l else y :: dedup_from y l
  end.
Definition dedup {A} `{EqDecision A} (l : list A) : list A :=
  match l with [] => [] | x :: l => x :: dedup_from x l end.

(** ** Strings *)

(** [str::find] with a string pattern: the offset of the first match. *)
Fixpoint str_find (pat s : string) : option nat :=
  if String.prefix pat s then Some O
  else match s with
       | EmptyString => None
       | String _ s => S <$> str_find pat s
       end.
(** The slices [&s[n..]] and [&s[..n]]. *)
Fixpoint str_from (n : nat) (s : string) : string :=
  match n, s with
  | S n, String _ s => str_from n s
  | _, _ => s
  end.
Fixpoint str_to (n : nat) (s : string) : string :=
  match n, s with
  | S n, String c s => String c (str_to n s)
  | _, _ => EmptyString
  end.

(** Sum of a quantity over a vector and over the rows of a table. *)
Definition Zsum {A} (f : A -> Z) (l : list A) : Z :=
  foldr (fun x acc => f x + acc) 0 l.
Definition map_Zsum {K A} `{Countable K} (f : A -> Z) (m : gmap K A) : Z :=
  map_fold (fun _ x acc => f x + acc) 0 m.

(** ** Automation *)

Create HintDb fides discriminated.
Create Rewrite HintDb fides.

(** Case analysis on the scrutinee of a [match] or [if], in the goal or in a
    hypothesis, remembering the equation. *)
Ltac split_match :=
  match goal with
  | |- context [decide ?P] => destruct (decide P)
  | |- context [match ?x with _ => _ end] => destruct x eqn:?
  end.
Ltac split_match_in H :=
  match type of H with
  | context [decide ?P] => destruct (decide P)
  | context [match ?x with _ => _ end] => destruct x eqn:?
  end.
(** Arithmetic on machine integers: unfold the ranges and call [lia]. *)
Ltac int_lia :=
  unfold in_i64, in_i32, i64_min, i64_max, i32_min, i32_max in *; lia.

(** ** Lemmas: results *)

Lemma try_fold_app {E S A} (f : S -> A -> result E S) s l1 l2 :
  try_fold f s (l1 ++ l2) = (s' ← try_fold f s l1; try_fold f s' l2).
Proof.
  revert s. induction l1 as [|x l1 IH]; intros s; simpl; [done|].
  destruct (f s x) as [s'|e]; simpl; [apply IH|done].
Qed.

Lemma try_map_Ok_Forall2 {E A B} (f : A -> result E B) l ys :
  try_map f l = Ok ys <-> Forall2 (fun x y => f x = Ok y) l ys.
Proof.
  revert ys. induction l as [|x l IH]; intros ys; simpl.
  - split; [intros [= <-]; constructor | inversion 1; done].
  - destruct (f x) as [y|e] eqn:Hx; simpl.
    + destruct (try_map f l) as [ys'|e'] eqn:Hl; simpl.
      * split.
        -- intros [= <-]. constructor; [done|]. by apply IH.
        -- inversion 1 as [|??? ys'' Hy Hys]; subst.
           apply IH in Hys. simplify_eq. by rewrite Hx in Hy; simplify_eq.
      * split; [done|]. inversion 1 as [|???? Hy Hys]; subst.
        apply IH in Hys. done.
    + split; [done|]. inversion 1; subst. congruence.
Qed.

(** ** Lemmas: machine integers *)

Lemma i64_wrap_id z : in_i64 z -> i64_wrap z = z.
Proof.
  intros Hz. unfold i64_wrap. rewrite Z.mod_small; [lia|].
  change (2 ^ 64) with 18446744073709551616. int_lia.
Qed.

Lemma i64_wrap_range z : in_i64 (i64_wrap z).
Proof.
  unfold i64_wrap. pose proof (Z.mod_pos_bound (z - i64_min) (2 ^ 64)).
  change (2 ^ 64) with 18446744073709551616 in *. int_lia.
Qed.

Lemma i64_clamp_id z : in_i64 z -> i64_clamp z = z.
Proof. unfold i64_clamp. int_lia. Qed.

Lemma i64_clamp_range z : in_i64 (i64_clamp z).
Proof. unfold i64_clamp. int_lia. Qed.

Lemma as_i32_id z : in_i32 z -> as_i32 z = z.
Proof.
  intros Hz. unfold as_i32. rewrite Z.mod_small; [lia|].
  change (2 ^ 32) with 4294967296. int_lia.
Qed.

Lemma as_u8_id z : 0 <= z < 256 -> as_u8 z = z.
Proof. intros. unfold as_u8. apply Z.mod_small. lia. Qed.

Lemma as_u8_range z : 0 <= as_u8 z < 256.
Proof. unfold as_u8. apply Z.mod_pos_bound. lia. Qed.

Lemma i64_checked_add_Some a b c :
  i64_checked_add a b = Some c <-> c = a + b /\ in_i64 (a + b).
Proof. unfold i64_checked_add. case_decide; intuition congruence. Qed.

Lemma i64_checked_sub_Some a b c :
  i64_checked_sub a b = Some c <-> c = a - b /\ in_i64 (a - b).
Proof. unfold i64_checked_sub. case_decide; intuition congruence. Qed.

#[export] Hint Resolve i64_wrap_range i64_clamp_range : fides.
#[export] Hint Rewrite i64_wrap_id i64_clamp_id as_i32_id using int_lia : fides.

(** ** Lemmas: sums over vectors *)

Section Zsum.
Context {A : Type}.
Implicit Types (f g : A -> Z) (l : list A).

Lemma Zsum_cons f x l : Zsum f (x :: l) = f x + Zsum f l.
Proof. done. Qed.

Lemma Zsum_app f l1 l2 : Zsum f (l1 ++ l2) = Zsum f l1 + Zsum f l2.
Proof. induction l1 as [|x l1 IH]; simpl; [done|]. rewrite IH. lia. Qed.

Lemma Zsum_ext f g l : (forall x, x ∈ l -> f x = g x) -> Zsum f l = Zsum g l.
Proof.
  induction l as [|x l IH]; intros Hfg; simpl; [done|].
  rewrite IH by set_solver. rewrite Hfg by set_solver. done.
Qed.

Lemma Zsum_nonneg f l : (forall x, x ∈ l -> 0 <= f x) -> 0 <= Zsum f l.
Proof.
  induction l as [|x l IH]; intros Hf; simpl; [lia|].
  pose proof (Hf x ltac:(set_solver)).
  pose proof (IH ltac:(set_solver)). lia.
Qed.

Lemma Zsum_le f g l : (forall x, x ∈ l -> f x <= g x) -> Zsum f l <= Zsum g l.
Proof.
  induction l as [|x l IH]; intros Hf; simpl; [lia|].
  pose proof (Hf x ltac:(set_solver)).
  pose proof (IH ltac:(set_solver)). lia.
Qed.

Lemma Zsum_add f g l : Zsum (fun x => f x + g x) l = Zsum f l + Zsum g l.
Proof. induction l as [|x l IH]; simpl; [done|]. rewrite IH. lia. Qed.

Lemma Zsum_opp f l : Zsum (fun x => - f x) l = - Zsum f l.
Proof. induction l as [|x l IH]; simpl; [done|]. rewrite IH. lia. Qed.

Lemma Zsum_zero f l : (forall x, x ∈ l -> f x = 0) -> Zsum f l = 0.
Proof.
  intros Hf. rewrite (Zsum_ext f (fun _ => 0)); [|done].
  clear Hf. induction l; simpl; lia.
Qed.

Lemma Zsum_filter f (P : A -> Prop) `{!forall x, Decision (P x)} l :
  Zsum f (filter P l) = Zsum (fun x => if decide (P x) then f x else 0) l.
Proof.
  induction l as [|x l IH]; simpl; [done|].
  rewrite filter_cons. case_decide; simpl; rewrite IH; lia.
Qed.

#[export] Instance Zsum_perm f : Proper ((≡ₚ) ==> eq) (Zsum f).
Proof. intros l1 l2. induction 1; simpl; lia. Qed.
End Zsum.

Lemma Zsum_fmap {A B} (f : B -> Z) (g : A -> B) l :
  Zsum f (g <$> l) = Zsum (fun x => f (g x)) l.
Proof.
  induction l as [|x l IH]; [done|]. by rewrite fmap_cons, !Zsum_cons, IH.
Qed.

Lemma Zsum_indicator (ts : list Z) (x v : Z) :
  NoDup ts -> x ∈ ts -> Zsum (fun t => if decide (x = t) then v else 0) ts = v.
Proof.
  induction ts as [|t ts IH]; intros Hnd Hx; [set_solver|].
  apply NoDup_cons in Hnd as [Ht Hnd]. rewrite Zsum_cons. case_decide as Heq.
  - subst. rewrite Zsum_zero; [lia|]. intros t' Ht'. rewrite decide_False; [done|].
    by intros ->.
  - rewrite IH by set_solver. lia.
Qed.

#[global] Arguments Zsum : simpl never.
#[global] Arguments map_Zsum : simpl never.

(** ** Lemmas: sums over tables *)

Section map_Zsum.
Context {K A : Type} `{Countable K}.
Implicit Types (f g : A -> Z) (m : gmap K A).

Lemma map_Zsum_empty f : map_Zsum f (∅ : gmap K A) = 0.
Proof. unfold map_Zsum. apply map_fold_empty. Qed.

Lemma map_Zsum_insert f k x m :
  m !! k = None -> map_Zsum f (<[k:=x]> m) = f x + map_Zsum f m.
Proof.
  intros Hk. unfold map_Zsum. rewrite map_fold_insert_L; [done| |done].
  intros; lia.
Qed.

Lemma map_Zsum_to_list f m : map_Zsum f m = Zsum (fun kx => f kx.2) (map_to_list m).
Proof.
  induction m as [|k x m Hk IH] using map_ind.
  - by rewrite map_Zsum_empty, map_to_list_empty.
  - rewrite map_Zsum_insert by done. rewrite map_to_list_insert by done.
    rewrite Zsum_cons. by rewrite IH.
Qed.

Lemma map_Zsum_ext f g m :
  (forall k x, m !! k = Some x -> f x = g x) -> map_Zsum f m = map_Zsum g m.
Proof.
  intros Hfg. rewrite !map_Zsum_to_list. apply Zsum_ext.
  intros [k x] ?%elem_of_map_to_list. simpl. eauto.
Qed.

Lemma map_Zsum_nonneg f m :
  (forall k x, m !! k = Some x -> 0 <= f x) -> 0 <= map_Zsum f m.
Proof.
  intros Hf. rewrite map_Zsum_to_list. apply Zsum_nonneg.
  intros [k x] ?%elem_of_map_to_list. simpl. eauto.
Qed.

Lemma map_Zsum_add f g m :
  map_Zsum (fun x => f x + g x) m = map_Zsum f m + map_Zsum g m.
Proof. rewrite !map_Zsum_to_list. apply Zsum_add. Qed.

Lemma map_Zsum_fmap {B} (f : B -> Z) (g : A -> B) m :
  map_Zsum f (g <$> m) = map_Zsum (fun x => f (g x)) m.
Proof. unfold map_Zsum. by rewrite map_fold_fmap. Qed.

Lemma map_Zsum_zero f m :
  (forall k x, m !! k = Some x -> f x = 0) -> map_Zsum f m = 0.
Proof.
  intros Hf. rewrite map_Zsum_to_list. apply Zsum_zero.
  intros [k x] ?%elem_of_map_to_list. simpl. eauto.
Qed.
End map_Zsum.

(** ** Lemmas: [sort] followed by [dedup] *)

Section dedup.
Context {A : Type} `{EqDecision A}.

Lemma elem_of_dedup_from (x y : A) l :
  y ∈ dedup_from x l -> y ∈ l.
Proof.
  revert x. induction l as [|z l IH]; intros x; simpl; [done|].
  case_decide; set_solver.
Qed.

Lemma elem_of_dedup_from_2 (x y : A) l :
  y ∈ l -> y = x \/ y ∈ dedup_from x l.
Proof.
  revert x. induction l as [|z l IH]; intros x; simpl; [set_solver|].
  rewrite elem_of_cons. intros [->|Hy].
  - case_decide; set_solver.
  - case_decide; subst; [by apply IH|]. destruct (IH z Hy); set_solver.
Qed.

Lemma elem_of_dedup (y : A) l : y ∈ dedup l <-> y ∈ l.
Proof.
  destruct l as [|x l]; simpl; [done|]. rewrite !elem_of_cons. split.
  - intros [?|?%elem_of_dedup_from]; auto.
  - intros [?|[?|?]%(elem_of_dedup_from_2 x)]; auto.
Qed.
End dedup.

Lemma dedup_from_sorted (x : Z) l :
  StronglySorted Z.le (x :: l) -> StronglySorted Z.lt (x :: dedup_from x l).
Proof.
  revert x. induction l as [|y l IH]; intros x Hs; simpl.
  - constructor; constructor.
  - apply StronglySorted_inv in Hs as [Hs Hx].
    apply Forall_cons in Hx as [Hxy Hx].
    case_decide as Heq.
    + subst. apply IH. done.
    + pose proof (IH y Hs) as Hy. constructor; [done|].
      constructor; [lia|]. apply StronglySorted_inv in Hy as [_ Hy].
      eapply Forall_impl; [exact Hy|]. simpl. lia.
Qed.

Lemma dedup_sorted (l : list Z) :
  StronglySorted Z.le l -> StronglySorted Z.lt (dedup l).
Proof. destruct l; simpl; [constructor|apply dedup_from_sorted]. Qed.

Lemma StronglySorted_lt_NoDup (l : list Z) : StronglySorted Z.lt l -> NoDup l.
Proof.
  induction 1 as [|x l Hs IH Hx]; constructor; [|done].
  rewrite Forall_forall in Hx. intros Hin. apply Hx in Hin. lia.
Qed.

(** ** Lemmas: filling a map from a list *)

Lemma foldl_insert_list {A} (l : list (Z * A)) (m : gmap Z A) :
  NoDup l.*1 ->
  foldl (fun m '(k, x) => <[k := x]> m) m l = list_to_map l ∪ m.
Proof.
  revert m. induction l as [|[k x] l IH]; intros m Hnd; simpl.
  - by rewrite (left_id_L ∅ (∪)).
  - apply NoDup_cons in Hnd as [Hk Hnd]. rewrite IH by done.
    rewrite <- insert_union_l, insert_union_r; [done|].
    by apply not_elem_of_list_to_map.
Qed.

Lemma foldl_insert_map_to_list {A} (m : gmap Z A) :
  foldl (fun m '(k, x) => <[k := x]> m) ∅ (map_to_list m) = m.
Proof.
  rewrite foldl_insert_list by apply NoDup_fst_map_to_list.
  by rewrite list_to_map_to_list, (right_id_L ∅ (∪)).
Qed.

Lemma length_filter_zero {A} (f : A -> bool) l :
  length (List.filter f l) = 0%nat <-> forall x, x ∈ l -> f x = false.
Proof.
  induction l as [|x l IH]; simpl; [set_solver|]. destruct (f x) eqn:Hx; simpl.
  - split; [done|]. intros Hall. specialize (Hall x ltac:(set_solver)). congruence.
  - rewrite IH. split; [|set_solver]. intros Hall y [->|Hy]%elem_of_cons; auto.
Qed.

Lemma list_filter_all {A} (P : A -> Prop) `{!forall x, Decision (P x)} (l : list A) :
  (forall x, x ∈ l -> P x) -> filter P l = l.
Proof.
  induction l as [|x l IH]; intros Hp; [done|].
  rewrite filter_cons_True by set_solver. by rewrite IH by set_solver.
Qed.

Lemma list_filter_none {A} (P : A -> Prop) `{!forall x, Decision (P x)} (l : list A) :
  (forall x, x ∈ l -> ~ P x) -> filter P l = [].
Proof.
  induction l as [|x l IH]; intros Hp; [done|].
  rewrite filter_cons_False by set_solver. by rewrite IH by set_solver.
Qed.
