(* ===== verification/Money.v ===== *)
(** * Money: [domain/money.rs]

    The newtype [Amount(i64)] is represented by its payload, a [Z]; a value
    built by [Amount_new] satisfies [Amount_valid]. *)

From S2P Require Import Prelude.
Local Open Scope Z_scope.

Abbreviation Amount := Z (only parsing).

Inductive AmountError :=
| AmountError_Negative (value : Z)
| AmountError_Overflow
| AmountError_Underflow.
#[export] Instance AmountError_eq_dec : EqDecision AmountError.
Proof. solve_decision. Defined.

Definition Amount_new (value : Z) : result AmountError Amount :=
  if decide (value < 0) then Err (AmountError_Negative value) else Ok value.

Definition Amount_from_raw (value : Z) : Amount := value.
Definition Amount_zero : Amount := 0.
Definition Amount_value (self : Amount) : Z := self.

Definition Amount_checked_add (self other : Amount) : result AmountError Amount :=
  ok_or AmountError_Overflow (i64_checked_add self other).

Definition Amount_checked_sub (self other : Amount) : result AmountError Amount :=
  ok_or AmountError_Underflow
    (v ← i64_checked_sub self other; if decide (v >= 0) then Some v else None).

Definition AmountError_message (self : AmountError) : string :=
  match self with
  | AmountError_Negative _ => "amount cannot be negative"
  | AmountError_Overflow => "amount overflow"
  | AmountError_Underflow => "amount underflow (would be negative)"
  end.

Definition AmountError_to_string (self : AmountError) : string :=
  match self with
  | AmountError_Negative v => AmountError_message self +:+ ": " +:+ pretty v
  | _ => AmountError_message self
  end.

(** The invariant of the newtype: a non-negative [i64]. *)
Definition Amount_valid (a : Amount) : Prop := 0 <= a <= i64_max.
#[export] Instance Amount_valid_dec a : Decision (Amount_valid a) := and_dec _ _.

Lemma Amount_new_Ok value a : Amount_new value = Ok a <-> a = value /\ 0 <= value.
Proof. unfold Amount_new. case_decide; split; intros; simplify_eq; naive_solver lia. Qed.

(** On valid amounts the checked operations are exact, and every inexact result
    is an error. *)
Lemma Amount_checked_add_spec a b :
  Amount_valid a -> Amount_valid b ->
  Amount_checked_add a b =
    if decide (a + b <= i64_max) then Ok (a + b) else Err AmountError_Overflow.
Proof.
  intros Ha Hb. unfold Amount_checked_add, i64_checked_add.
  destruct Ha, Hb. repeat case_decide; simpl; (done || int_lia).
Qed.

Lemma Amount_checked_sub_spec a b :
  Amount_valid a -> Amount_valid b ->
  Amount_checked_sub a b =
    if decide (b <= a) then Ok (a - b) else Err AmountError_Underflow.
Proof.
  intros Ha Hb. unfold Amount_checked_sub, i64_checked_sub.
  destruct Ha, Hb. repeat (case_decide; simpl); (done || int_lia).
Qed.
