(* ===== verification/Accounts.v ===== *)
(** * Accounts: [domain/account.rs] *)

From S2P Require Import Prelude.
Local Open Scope Z_scope.

(** [AccountId(i64)], by its payload. *)
Abbreviation AccountId := Z (only parsing).

Inductive AccountType :=
| AccountType_Asset
| AccountType_Liability
| AccountType_Equity
| AccountType_Revenue
| AccountType_Expense.
#[export] Instance AccountType_eq_dec : EqDecision AccountType.
Proof. solve_decision. Defined.

Inductive NormalBalance := NormalBalance_Debit | NormalBalance_Credit.
#[export] Instance NormalBalance_eq_dec : EqDecision NormalBalance.
Proof. solve_decision. Defined.

Record Account := mkAccount {
  Account_id : AccountId;
  Account_account_type : AccountType;
  Account_asset_code : string;
  Account_asset_scale : Z;
  Account_version : Z;
  Account_created_at : Z
}.
#[export] Instance Account_eq_dec : EqDecision Account.
Proof. solve_decision. Defined.

Inductive AccountError :=
| AccountError_InvalidId (id : Z)
| AccountError_EmptyAssetCode
| AccountError_InvalidScale (scale : Z)
| AccountError_InvalidVersion (version : Z)
| AccountError_InvalidTimestamp (timestamp : Z).
#[export] Instance AccountError_eq_dec : EqDecision AccountError.
Proof. solve_decision. Defined.

Definition AccountId_new (id : Z) : result AccountError AccountId :=
  if decide (id <= 0) then Err (AccountError_InvalidId id) else Ok id.
Definition AccountId_from_raw (id : Z) : AccountId := id.
Definition AccountId_value (self : AccountId) : Z := self.

Definition AccountType_normal_balance (self : AccountType) : NormalBalance :=
  match self with
  | AccountType_Asset | AccountType_Expense => NormalBalance_Debit
  | AccountType_Liability | AccountType_Equity | AccountType_Revenue =>
      NormalBalance_Credit
  end.

Definition Account_new (id : AccountId) (account_type : AccountType)
    (asset_code : string) (asset_scale version created_at : Z)
  : result AccountError Account :=
  if decide (asset_code = "") then Err AccountError_EmptyAssetCode
  else if decide (asset_scale > 18) then Err (AccountError_InvalidScale asset_scale)
  else if decide (version < 0) then Err (AccountError_InvalidVersion version)
  else if decide (created_at <= 0) then Err (AccountError_InvalidTimestamp created_at)
  else Ok (mkAccount id account_type asset_code asset_scale version created_at).

Definition Account_normal_balance (self : Account) : NormalBalance :=
  AccountType_normal_balance (Account_account_type self).

Definition AccountError_to_string (self : AccountError) : string :=
  match self with
  | AccountError_InvalidId id => "invalid account id: " +:+ pretty id
  | AccountError_EmptyAssetCode => "asset code cannot be empty"
  | AccountError_InvalidScale s => "invalid scale " +:+ pretty s +:+ ", max is 18"
  | AccountError_InvalidVersion v => "invalid version: " +:+ pretty v
  | AccountError_InvalidTimestamp t => "invalid timestamp: " +:+ pretty t
  end.

(** What a constructed account guarantees, beyond the integer widths. *)
Record Account_valid (a : Account) : Prop := {
  Account_valid_code : Account_asset_code a <> "";
  Account_valid_scale : Account_asset_scale a <= 18;
  Account_valid_version : 0 <= Account_version a;
  Account_valid_created : 0 < Account_created_at a
}.

Lemma AccountId_new_Ok id a : AccountId_new id = Ok a <-> a = id /\ 0 < id.
Proof. unfold AccountId_new. case_decide; split; intros; simplify_eq; naive_solver lia. Qed.

Lemma Account_new_Ok id ty code scale version created a :
  Account_new id ty code scale version created = Ok a <->
  a = mkAccount id ty code scale version created /\ Account_valid a.
Proof.
  unfold Account_new. split.
  - intros. repeat case_decide; simplify_eq. split; [done|]. split; simpl; (done || lia).
  - intros [-> [????]]; simpl in *. repeat case_decide; (done || lia).
Qed.
