(* ===== verification/Transactions.v ===== *)
(** * Transactions: [domain/transaction.rs]

    [serde_json] is not part of the sources: the type of JSON values, the parser
    and what storing a value in a [JSONB] column does are fields of the class
    [JsonLib], an argument of every definition that uses them. *)

From S2P Require Import Prelude.
Local Open Scope Z_scope.

Class JsonLib := {
  JsonValue : Set;
  (** [serde_json::json!({})] *)
  json_empty_object : JsonValue;
  (** [serde_json::from_str], with the error's text *)
  json_from_str : string -> result string JsonValue;
  (** what a [JSONB] column keeps of a value, or the text of its refusal *)
  jsonb_input : JsonValue -> result string JsonValue
}.

Abbreviation TransactionId := Z (only parsing).

Inductive TransactionStatus :=
| TransactionStatus_Pending
| TransactionStatus_Posted
| TransactionStatus_Voided
| TransactionStatus_Failed.
#[export] Instance TransactionStatus_eq_dec : EqDecision TransactionStatus.
Proof. solve_decision. Defined.

Record Transaction `{JsonLib} := mkTransaction {
  Transaction_id : TransactionId;
  Transaction_idempotency_key : string;
  Transaction_status : TransactionStatus;
  Transaction_metadata : JsonValue;
  Transaction_created_at : Z;
  Transaction_posted_at : Z
}.

Inductive TransactionError :=
| TransactionError_InvalidId (id : Z)
| TransactionError_EmptyIdempotencyKey
| TransactionError_InvalidTimestamp (timestamp : Z)
| TransactionError_InvalidPostedAt (status : TransactionStatus) (posted_at : Z).
#[export] Instance TransactionError_eq_dec : EqDecision TransactionError.
Proof. solve_decision. Defined.

Definition TransactionId_new (id : Z) : result TransactionError TransactionId :=
  if decide (id <= 0) then Err (TransactionError_InvalidId id) else Ok id.
Definition TransactionId_from_raw (id : Z) : TransactionId := id.
Definition TransactionId_value (self : TransactionId) : Z := self.

Definition TransactionStatus_is_terminal (self : TransactionStatus) : bool :=
  match self with
  | TransactionStatus_Posted | TransactionStatus_Voided | TransactionStatus_Failed => true
  | TransactionStatus_Pending => false
  end.

Definition Transaction_new `{JsonLib} (id : TransactionId) (idempotency_key : string)
    (status : TransactionStatus) (metadata : JsonValue) (created_at posted_at : Z)
  : result TransactionError Transaction :=
  if decide (idempotency_key = "") then Err TransactionError_EmptyIdempotencyKey
  else if decide (created_at <= 0) then Err (TransactionError_InvalidTimestamp created_at)
  else
    let ok := Ok (mkTransaction _ id idempotency_key status metadata created_at posted_at) in
    match status with
    | TransactionStatus_Posted =>
        if decide (posted_at <= 0)
        then Err (TransactionError_InvalidPostedAt status posted_at) else ok
    | TransactionStatus_Pending | TransactionStatus_Voided | TransactionStatus_Failed =>
        if decide (posted_at <> 0)
        then Err (TransactionError_InvalidPostedAt status posted_at) else ok
    end.

(** The derived [Debug] text of a status. *)
Definition TransactionStatus_debug (self : TransactionStatus) : string :=
  match self with
  | TransactionStatus_Pending => "Pending"
  | TransactionStatus_Posted => "Posted"
  | TransactionStatus_Voided => "Voided"
  | TransactionStatus_Failed => "Failed"
  end.

Definition TransactionError_to_string (self : TransactionError) : string :=
  match self with
  | TransactionError_InvalidId id => "invalid transaction id: " +:+ pretty id
  | TransactionError_EmptyIdempotencyKey => "idempotency key cannot be empty"
  | TransactionError_InvalidTimestamp t => "invalid timestamp: " +:+ pretty t
  | TransactionError_InvalidPostedAt status posted_at =>
      "invalid posted_at " +:+ pretty posted_at +:+ " for status "
        +:+ TransactionStatus_debug status
  end.

(** What a constructed transaction guarantees: [posted_at] is set exactly on the
    posted ones. *)
Record Transaction_valid `{JsonLib} (t : Transaction) : Prop := {
  Transaction_valid_key : Transaction_idempotency_key t <> "";
  Transaction_valid_created : 0 < Transaction_created_at t;
  Transaction_valid_posted :
    if decide (Transaction_status t = TransactionStatus_Posted)
    then 0 < Transaction_posted_at t else Transaction_posted_at t = 0
}.

Lemma TransactionId_new_Ok id t : TransactionId_new id = Ok t <-> t = id /\ 0 < id.
Proof.
  unfold TransactionId_new. case_decide; split; intros; simplify_eq; naive_solver lia.
Qed.

Lemma Transaction_new_Ok `{JsonLib} id key status metadata created posted t :
  Transaction_new id key status metadata created posted = Ok t <->
  t = mkTransaction _ id key status metadata created posted /\ Transaction_valid t.
Proof.
  unfold Transaction_new. split.
  - intros. destruct status; repeat case_decide; simplify_eq;
      (split; [done|]); split; simpl; (done || lia).
  - intros [-> [?? Hp]]; simpl in *.
    destruct status; simpl in *; repeat case_decide; (done || lia).
Qed.
