(* ===== verification/Entries.v ===== *)
(** * Entries: [domain/entry.rs] *)

From S2P Require Import Prelude.
From S2P Require Import Money Accounts Transactions.
Local Open Scope Z_scope.

Abbreviation EntryId := Z (only parsing).

Inductive EntryType := EntryType_Debit | EntryType_Credit.
#[export] Instance EntryType_eq_dec : EqDecision EntryType.
Proof. solve_decision. Defined.

Inductive EntryStatus :=
| EntryStatus_Pending
| EntryStatus_Posted
| EntryStatus_Voided.
#[export] Instance EntryStatus_eq_dec : EqDecision EntryStatus.
Proof. solve_decision. Defined.

Record Entry := mkEntry {
  Entry_id : EntryId;
  Entry_transaction_id : TransactionId;
  Entry_account_id : AccountId;
  Entry_entry_type : EntryType;
  Entry_amount : Amount;
  Entry_status : EntryStatus;
  Entry_created_at : Z
}.
#[export] Instance Entry_eq_dec : EqDecision Entry.
Proof. solve_decision. Defined.

Inductive EntryError :=
| EntryError_InvalidId (id : Z)
| EntryError_InvalidTimestamp (timestamp : Z)
| EntryError_ZeroAmount.
#[export] Instance EntryError_eq_dec : EqDecision EntryError.
Proof. solve_decision. Defined.

Definition EntryId_new (id : Z) : result EntryError EntryId :=
  if decide (id <= 0) then Err (EntryError_InvalidId id) else Ok id.
Definition EntryId_from_raw (id : Z) : EntryId := id.
Definition EntryId_value (self : EntryId) : Z := self.

Definition Entry_new (id : EntryId) (transaction_id : TransactionId)
    (account_id : AccountId) (entry_type : EntryType) (amount : Amount)
    (status : EntryStatus) (created_at : Z) : result EntryError Entry :=
  if decide (Amount_value amount = 0) then Err EntryError_ZeroAmount
  else if decide (created_at <= 0) then Err (EntryError_InvalidTimestamp created_at)
  else Ok (mkEntry id transaction_id account_id entry_type amount status created_at).

Definition EntryError_to_string (self : EntryError) : string :=
  match self with
  | EntryError_InvalidId id => "invalid entry id: " +:+ pretty id
  | EntryError_InvalidTimestamp t => "invalid timestamp: " +:+ pretty t
  | EntryError_ZeroAmount => "entry amount cannot be zero"
  end.

Lemma Entry_new_Ok id txn acc ty amount status created e :
  Entry_new id txn acc ty amount status created = Ok e <->
  e = mkEntry id txn acc ty amount status created /\ amount <> 0 /\ 0 < created.
Proof.
  unfold Entry_new, Amount_value. repeat case_decide;
    split; intros; destruct_and?; simplify_eq; (done || lia || split_and!; done || lia).
Qed.
