(* ===== verification/Validation.v ===== *)
(** * Validation: [domain/validation.rs]

    The balance rules of double-entry bookkeeping: legs of a transfer, the
    balance of a transaction, the balance of an account from its entries and the
    signed effect of one entry. *)

From S2P Require Import Prelude.
From S2P Require Import Money Accounts Transactions Entries.
Local Open Scope Z_scope.

Record TransferLeg := mkTransferLeg {
  TransferLeg_account_id : AccountId;
  TransferLeg_entry_type : EntryType;
  TransferLeg_amount : Amount
}.
#[export] Instance TransferLeg_eq_dec : EqDecision TransferLeg.
Proof. solve_decision. Defined.

Inductive TransferLegError := TransferLegError_ZeroAmount.

Record AccountBalance := mkAccountBalance {
  AccountBalance_posted : Z;
  AccountBalance_pending : Z;
  AccountBalance_available : Z
}.
#[export] Instance AccountBalance_eq_dec : EqDecision AccountBalance.
Proof. solve_decision. Defined.

Inductive ValidationError :=
| ValidationError_InsufficientLegs (count : nat)
| ValidationError_UnbalancedTransaction (total_debits total_credits : Z)
| ValidationError_SumOverflow
| ValidationError_BalanceOverflow.
#[export] Instance ValidationError_eq_dec : EqDecision ValidationError.
Proof. solve_decision. Defined.

Definition TransferLeg_new (account_id : AccountId) (entry_type : EntryType)
    (amount : Amount) : result TransferLegError TransferLeg :=
  if decide (Amount_value amount = 0) then Err TransferLegError_ZeroAmount
  else Ok (mkTransferLeg account_id entry_type amount).

Definition AccountBalance_from_computed (posted pending available : Z)
  : AccountBalance := mkAccountBalance posted pending available.

Definition AccountBalance_has_available (self : AccountBalance) (amount : Amount)
  : bool := bool_decide (AccountBalance_available self >= Amount_value amount).

(** One iteration of the loop over the legs, on [(total_debits, total_credits)]. *)
Definition validate_leg_step (totals : Z * Z) (leg : TransferLeg)
  : result ValidationError (Z * Z) :=
  let '(total_debits, total_credits) := totals in
  match TransferLeg_entry_type leg with
  | EntryType_Debit =>
      total_debits ← ok_or ValidationError_SumOverflow
        (i64_checked_add total_debits (Amount_value (TransferLeg_amount leg)));
      Ok (total_debits, total_credits)
  | EntryType_Credit =>
      total_credits ← ok_or ValidationError_SumOverflow
        (i64_checked_add total_credits (Amount_value (TransferLeg_amount leg)));
      Ok (total_debits, total_credits)
  end.

Definition validate_transaction_balance (legs : list TransferLeg)
  : result ValidationError unit :=
  if decide (length legs < 2)%nat
  then Err (ValidationError_InsufficientLegs (length legs))
  else
    '(total_debits, total_credits) ← try_fold validate_leg_step (0, 0) legs;
    if decide (total_debits <> total_credits)
    then Err (ValidationError_UnbalancedTransaction total_debits total_credits)
    else Ok tt.

(** The four accumulators of [compute_account_balance]. *)
Record balance_sums := mk_sums {
  posted_debits : Z; posted_credits : Z; pending_debits : Z; pending_credits : Z
}.

Definition balance_entry_step (s : balance_sums) (entry : Entry)
  : result ValidationError balance_sums :=
  let amount := Amount_value (Entry_amount entry) in
  let add acc := ok_or ValidationError_SumOverflow (i64_checked_add acc amount) in
  match Entry_status entry, Entry_entry_type entry with
  | EntryStatus_Voided, _ => Ok s
  | EntryStatus_Posted, EntryType_Debit =>
      x ← add (posted_debits s);
      Ok (mk_sums x (posted_credits s) (pending_debits s) (pending_credits s))
  | EntryStatus_Posted, EntryType_Credit =>
      x ← add (posted_credits s);
      Ok (mk_sums (posted_debits s) x (pending_debits s) (pending_credits s))
  | EntryStatus_Pending, EntryType_Debit =>
      x ← add (pending_debits s);
      Ok (mk_sums (posted_debits s) (posted_credits s) x (pending_credits s))
  | EntryStatus_Pending, EntryType_Credit =>
      x ← add (pending_credits s);
      Ok (mk_sums (posted_debits s) (posted_credits s) (pending_debits s) x)
  end.

Definition compute_account_balance (normal_balance : NormalBalance)
    (entries : list Entry) : result ValidationError AccountBalance :=
  s ← try_fold balance_entry_step (mk_sums 0 0 0 0) entries;
  let sub a b := ok_or ValidationError_BalanceOverflow (i64_checked_sub a b) in
  '(posted, pending) ←
    match normal_balance with
    | NormalBalance_Debit =>
        posted ← sub (posted_debits s) (posted_credits s);
        pending ← sub (pending_debits s) (pending_credits s);
        Ok (posted, pending)
    | NormalBalance_Credit =>
        posted ← sub (posted_credits s) (posted_debits s);
        pending ← sub (pending_credits s) (pending_debits s);
        Ok (posted, pending)
    end;
  available ← sub posted pending;
  Ok (AccountBalance_from_computed posted pending available).

Definition compute_balance_delta (normal_balance : NormalBalance)
    (entry_type : EntryType) (amount : Amount) : Z :=
  let raw := Amount_value amount in
  match normal_balance, entry_type with
  | NormalBalance_Debit, EntryType_Debit => raw
  | NormalBalance_Credit, EntryType_Credit => raw
  | NormalBalance_Debit, EntryType_Credit => i64_wrap (- raw)
  | NormalBalance_Credit, EntryType_Debit => i64_wrap (- raw)
  end.

Definition TransferLegError_to_string (self : TransferLegError) : string :=
  match self with
  | TransferLegError_ZeroAmount => "transfer leg amount cannot be zero"
  end.

Definition ValidationError_to_string (self : ValidationError) : string :=
  match self with
  | ValidationError_InsufficientLegs count =>
      "transaction requires at least 2 legs, got " +:+ pretty (Z.of_nat count)
  | ValidationError_UnbalancedTransaction total_debits total_credits =>
      "unbalanced transaction: debits " +:+ pretty total_debits
        +:+ " != credits " +:+ pretty total_credits
  | ValidationError_SumOverflow => "amount sum overflow"
  | ValidationError_BalanceOverflow => "balance computation overflow"
  end.

(** ** Reference definitions: exact sums over unbounded integers *)

(** The part of an amount that lies on a given side. *)
Definition on_side (side ty : EntryType) (amount : Z) : Z :=
  if decide (ty = side) then amount else 0.

Definition leg_on (side : EntryType) (leg : TransferLeg) : Z :=
  on_side side (TransferLeg_entry_type leg) (TransferLeg_amount leg).
Definition legs_total (side : EntryType) (legs : list TransferLeg) : Z :=
  Zsum (leg_on side) legs.

Definition entry_on (status : EntryStatus) (side : EntryType) (e : Entry) : Z :=
  if decide (Entry_status e = status)
  then on_side side (Entry_entry_type e) (Entry_amount e) else 0.
Definition entries_total (status : EntryStatus) (side : EntryType)
    (es : list Entry) : Z := Zsum (entry_on status side) es.

(** The sign an entry has on an account: [+1] on the account's normal side. *)
Definition entry_sign (normal_balance : NormalBalance) (ty : EntryType) : Z :=
  match normal_balance, ty with
  | NormalBalance_Debit, EntryType_Debit
  | NormalBalance_Credit, EntryType_Credit => 1
  | _, _ => -1
  end.

(** The exact balance of an account in one status. *)
Definition signed_balance (nb : NormalBalance) (status : EntryStatus)
    (es : list Entry) : Z :=
  Zsum (fun e => if decide (Entry_status e = status)
                 then entry_sign nb (Entry_entry_type e) * Entry_amount e else 0) es.

Definition valid_leg (leg : TransferLeg) : Prop :=
  0 < TransferLeg_amount leg <= i64_max.
Definition valid_entry_amount (e : Entry) : Prop :=
  0 < Entry_amount e <= i64_max.

(** ** Lemmas *)

Lemma on_side_nonneg side ty a : 0 <= a -> 0 <= on_side side ty a.
Proof. unfold on_side. case_decide; lia. Qed.

Lemma legs_total_nonneg side legs : Forall valid_leg legs -> 0 <= legs_total side legs.
Proof.
  intros Hl. apply Zsum_nonneg. intros leg Hleg. apply on_side_nonneg.
  rewrite Forall_forall in Hl. apply Hl in Hleg. unfold valid_leg in Hleg. lia.
Qed.

Lemma entries_total_nonneg status side es :
  Forall valid_entry_amount es -> 0 <= entries_total status side es.
Proof.
  intros Hl. apply Zsum_nonneg. intros e He. unfold entry_on. case_decide; [|lia].
  apply on_side_nonneg. rewrite Forall_forall in Hl. apply Hl in He.
  unfold valid_entry_amount in He. lia.
Qed.

Lemma legs_total_cons side leg legs :
  legs_total side (leg :: legs) = leg_on side leg + legs_total side legs.
Proof. apply Zsum_cons. Qed.

Lemma entries_total_cons st side e es :
  entries_total st side (e :: es) = entry_on st side e + entries_total st side es.
Proof. apply Zsum_cons. Qed.

(** The loop over the legs computes the exact totals, and reports an overflow
    exactly when one of them does not fit: amounts are positive, so a partial sum
    overflows only if the total does. *)
Lemma validate_leg_fold legs d c :
  Forall valid_leg legs -> 0 <= d <= i64_max -> 0 <= c <= i64_max ->
  try_fold validate_leg_step (d, c) legs =
    if decide (d + legs_total EntryType_Debit legs <= i64_max /\
               c + legs_total EntryType_Credit legs <= i64_max)
    then Ok (d + legs_total EntryType_Debit legs, c + legs_total EntryType_Credit legs)
    else Err ValidationError_SumOverflow.
Proof.
  revert d c. induction legs as [|leg legs IH]; intros d c Hv Hd Hc.
  - unfold legs_total, Zsum; simpl. rewrite !Z.add_0_r. case_decide; [done|lia].
  - apply Forall_cons in Hv as [Hleg Hv].
    pose proof (legs_total_nonneg EntryType_Debit legs Hv) as HD.
    pose proof (legs_total_nonneg EntryType_Credit legs Hv) as HC.
    rewrite !legs_total_cons. unfold leg_on, on_side. destruct leg as [a ty amt].
    unfold valid_leg in Hleg. cbn in *.
    destruct ty; cbn; unfold Amount_value, i64_checked_add;
      (destruct (decide (in_i64 _)) as [Hi|Hi]; cbn;
       [rewrite IH by (done || int_lia)|]); repeat (case_decide; simplify_eq);
      (f_equal; f_equal; lia) || (exfalso; int_lia) || done.
Qed.

(** The reference for [validate_transaction_balance]: every outcome in terms of
    the number of legs and the exact totals. *)
Definition validate_transaction_balance_ref (legs : list TransferLeg)
  : result ValidationError unit :=
  let debits := legs_total EntryType_Debit legs in
  let credits := legs_total EntryType_Credit legs in
  if decide (length legs < 2)%nat then Err (ValidationError_InsufficientLegs (length legs))
  else if decide (debits <= i64_max /\ credits <= i64_max) then
    if decide (debits = credits) then Ok tt
    else Err (ValidationError_UnbalancedTransaction debits credits)
  else Err ValidationError_SumOverflow.

Lemma validate_transaction_balance_eq legs :
  Forall valid_leg legs ->
  validate_transaction_balance legs = validate_transaction_balance_ref legs.
Proof.
  intros Hv. unfold validate_transaction_balance, validate_transaction_balance_ref.
  case_decide; [done|]. rewrite validate_leg_fold by (done || int_lia).
  rewrite !Z.add_0_l. case_decide; simpl; [|done]. repeat case_decide; done.
Qed.

Lemma validate_transaction_balance_Ok legs :
  Forall valid_leg legs -> validate_transaction_balance legs = Ok tt ->
  (2 <= length legs)%nat /\
  legs_total EntryType_Debit legs = legs_total EntryType_Credit legs /\
  legs_total EntryType_Debit legs <= i64_max.
Proof.
  intros Hv. rewrite validate_transaction_balance_eq by done.
  unfold validate_transaction_balance_ref.
  repeat case_decide; intros; simplify_eq; lia.
Qed.

(** The loop over the entries, likewise. *)
Definition sums_of (es : list Entry) : balance_sums :=
  mk_sums (entries_total EntryStatus_Posted EntryType_Debit es)
          (entries_total EntryStatus_Posted EntryType_Credit es)
          (entries_total EntryStatus_Pending EntryType_Debit es)
          (entries_total EntryStatus_Pending EntryType_Credit es).
Definition sums_add (s t : balance_sums) : balance_sums :=
  mk_sums (posted_debits s + posted_debits t) (posted_credits s + posted_credits t)
          (pending_debits s + pending_debits t) (pending_credits s + pending_credits t).
Definition sums_fit (s : balance_sums) : Prop :=
  posted_debits s <= i64_max /\ posted_credits s <= i64_max /\
  pending_debits s <= i64_max /\ pending_credits s <= i64_max.
#[export] Instance sums_fit_dec s : Decision (sums_fit s) := and_dec _ _.
Definition sums_nonneg (s : balance_sums) : Prop :=
  0 <= posted_debits s /\ 0 <= posted_credits s /\
  0 <= pending_debits s /\ 0 <= pending_credits s.

Lemma sums_of_nonneg es : Forall valid_entry_amount es -> sums_nonneg (sums_of es).
Proof. intros. repeat split; apply entries_total_nonneg; done. Qed.

Lemma balance_entry_fold es s :
  Forall valid_entry_amount es -> sums_nonneg s -> sums_fit s ->
  try_fold balance_entry_step s es =
    if decide (sums_fit (sums_add s (sums_of es)))
    then Ok (sums_add s (sums_of es)) else Err ValidationError_SumOverflow.
Proof.
  revert s. induction es as [|e es IH]; intros s Hv Hn Hf.
  - destruct s as [a b c d]. unfold sums_add, sums_of, entries_total, Zsum; cbn in *.
    rewrite !Z.add_0_r. case_decide; done.
  - apply Forall_cons in Hv as [He Hv].
    pose proof (sums_of_nonneg es Hv) as Hn'.
    destruct s as [a b c d], e as [id txn acc ty amt st cr].
    unfold valid_entry_amount in He.
    unfold sums_add, sums_of in *. rewrite !entries_total_cons.
    unfold sums_nonneg, sums_fit, entry_on, on_side in *. cbn in *.
    destruct st, ty; cbn; unfold balance_entry_step, Amount_value, i64_checked_add; cbn;
      try (destruct (decide (in_i64 _)) as [Hi|Hi]; cbn);
      try (rewrite IH by (done || cbn; int_lia)); cbn;
      repeat (case_decide; simplify_eq); (f_equal; f_equal; lia) || (exfalso; int_lia) || done.
Qed.

Lemma signed_balance_eq nb status es :
  signed_balance nb status es =
    match nb with
    | NormalBalance_Debit =>
        entries_total status EntryType_Debit es - entries_total status EntryType_Credit es
    | NormalBalance_Credit =>
        entries_total status EntryType_Credit es - entries_total status EntryType_Debit es
    end.
Proof.
  unfold signed_balance, entries_total, entry_on, on_side, entry_sign.
  induction es as [|e es IH]; [by destruct nb|].
  rewrite !Zsum_cons, IH. clear IH.
  destruct nb, (Entry_entry_type e); repeat (case_decide; simplify_eq); lia.
Qed.

(** The reference for [compute_account_balance]: the two balances never
    overflow once the four sums fit; only [available] can. *)
Definition compute_account_balance_ref (nb : NormalBalance) (es : list Entry)
  : result ValidationError AccountBalance :=
  let posted := signed_balance nb EntryStatus_Posted es in
  let pending := signed_balance nb EntryStatus_Pending es in
  if decide (sums_fit (sums_of es)) then
    if decide (in_i64 (posted - pending))
    then Ok (mkAccountBalance posted pending (posted - pending))
    else Err ValidationError_BalanceOverflow
  else Err ValidationError_SumOverflow.

Lemma i64_checked_sub_nonneg a b :
  0 <= a <= i64_max -> 0 <= b <= i64_max -> i64_checked_sub a b = Some (a - b).
Proof. intros. apply i64_checked_sub_Some. int_lia. Qed.

Lemma compute_account_balance_eq nb es :
  Forall valid_entry_amount es ->
  compute_account_balance nb es = compute_account_balance_ref nb es.
Proof.
  intros Hv. unfold compute_account_balance, compute_account_balance_ref.
  rewrite balance_entry_fold by first [done | repeat split; cbn; int_lia].
  replace (sums_add (mk_sums 0 0 0 0) (sums_of es)) with (sums_of es)
    by (unfold sums_add; cbn; f_equal; lia).
  case_decide as Hf; cbn; [|done].
  pose proof (sums_of_nonneg es Hv) as Hn. destruct Hn as (?&?&?&?), Hf as (?&?&?&?).
  rewrite !signed_balance_eq. cbn in *.
  destruct nb; rewrite !i64_checked_sub_nonneg by done; cbn;
    unfold i64_checked_sub; case_decide; done.
Qed.

(** The reference does not depend on the order of the entries, nor on voided ones. *)
#[export] Instance compute_account_balance_ref_perm nb :
  Proper ((≡ₚ) ==> eq) (compute_account_balance_ref nb).
Proof.
  intros es es' Hp.
  assert (forall st side, entries_total st side es = entries_total st side es') as Ht
    by (intros; unfold entries_total; by rewrite Hp).
  unfold compute_account_balance_ref, sums_of. by rewrite !signed_balance_eq, !Ht.
Qed.

Definition not_voided (e : Entry) : Prop := Entry_status e <> EntryStatus_Voided.
#[export] Instance not_voided_dec e : Decision (not_voided e) := not_dec _.

Lemma entries_total_not_voided st side es :
  st <> EntryStatus_Voided ->
  entries_total st side (filter not_voided es) = entries_total st side es.
Proof.
  intros Hst. unfold entries_total. rewrite Zsum_filter. apply Zsum_ext.
  intros e _. unfold entry_on, not_voided. repeat case_decide; naive_solver.
Qed.

Lemma compute_account_balance_ref_not_voided nb es :
  compute_account_balance_ref nb (filter not_voided es) = compute_account_balance_ref nb es.
Proof.
  unfold compute_account_balance_ref, sums_of.
  by rewrite !signed_balance_eq, !entries_total_not_voided.
Qed.

Lemma compute_balance_delta_eq nb ty amount :
  0 <= amount <= i64_max ->
  compute_balance_delta nb ty amount = entry_sign nb ty * amount.
Proof.
  intros. unfold compute_balance_delta, Amount_value.
  destruct nb, ty; cbn; rewrite ?i64_wrap_id by int_lia; lia.
Qed.

Lemma compute_balance_delta_range nb ty amount :
  0 <= amount <= i64_max -> - i64_max <= compute_balance_delta nb ty amount <= i64_max.
Proof.
  intros. rewrite compute_balance_delta_eq by done. destruct nb, ty; cbn; lia.
Qed.
