(* ===== verification/StorageErrors.v ===== *)
(** * Storage errors: [storage/mod.rs]

    [sqlx::Error] is a type of the database driver.  The sources look at three
    things: whether it is an error reported by the database, whether that is a
    unique violation, and its detail text; otherwise they only print it.  A value
    carries the text it prints as. *)

From S2P Require Import Prelude.
From Stdlib Require Import Ascii.
Local Open Scope Z_scope.

Record PgDatabaseError := mkPgDatabaseError {
  is_unique_violation : bool;
  pg_detail : option string;
  pg_text : string
}.
Inductive SqlxError :=
| SqlxError_Database (db_err : PgDatabaseError)
| SqlxError_Other (text : string).
Definition SqlxError_to_string (e : SqlxError) : string :=
  match e with
  | SqlxError_Database db_err => pg_text db_err
  | SqlxError_Other text => text
  end.

Inductive StorageError :=
| StorageError_Database (e : SqlxError)
| StorageError_DataCorruption (msg : string)
| StorageError_VersionConflict (entity : string) (id expected actual : Z)
| StorageError_DuplicateKey (key : string).

Definition StorageError_to_string (self : StorageError) : string :=
  match self with
  | StorageError_Database e => "database error: " +:+ SqlxError_to_string e
  | StorageError_DataCorruption msg => "data corruption: " +:+ msg
  | StorageError_VersionConflict entity id expected actual =>
      "version conflict on " +:+ entity +:+ " " +:+ pretty id +:+ ": expected "
        +:+ pretty expected +:+ ", got " +:+ pretty actual
  | StorageError_DuplicateKey key => "duplicate idempotency key: " +:+ key
  end.

(** The value between [)=(] and the next [)] of a detail text. *)
Definition detail_key (d : string) : option string :=
  start ← str_find ")=(" d;
  let rest := str_from (start + 3) d in
  end_ ← str_find ")" rest;
  Some (str_to end_ rest).

(** [impl From<sqlx::Error> for StorageError] *)
Definition StorageError_from (e : SqlxError) : StorageError :=
  match e with
  | SqlxError_Database db_err =>
      if is_unique_violation db_err
      then StorageError_DuplicateKey
             (default "unknown" (pg_detail db_err ≫= detail_key))
      else StorageError_Database e
  | SqlxError_Other _ => StorageError_Database e
  end.

(** The detail PostgreSQL reports for a duplicate value in a unique column:
    [Key (column)=(value) already exists.] *)
Definition unique_detail (column value : string) : string :=
  "Key (" +:+ column +:+ ")=(" +:+ value +:+ ") already exists.".

(** ** Lemmas *)

(** A string without a given character. *)
Fixpoint str_lacks (c : Ascii.ascii) (s : string) : Prop :=
  match s with
  | EmptyString => True
  | String d s => d <> c /\ str_lacks c s
  end.
#[export] Instance str_lacks_dec c s : Decision (str_lacks c s).
Proof. induction s; simpl; apply _. Defined.

Lemma string_app_cons c s t : String c s +:+ t = String c (s +:+ t).
Proof. done. Qed.

Lemma str_find_cons_ne c p d s :
  d <> c -> str_find (String c p) (String d s) = S <$> str_find (String c p) s.
Proof. intros Hd. simpl. destruct (Ascii.ascii_dec c d); [congruence|done]. Qed.

Lemma str_find_lacks c s t :
  str_lacks c s -> str_find (String c EmptyString) (s +:+ String c t) = Some (String.length s).
Proof.
  induction s as [|d s IH]; intros Hs; cbn -[str_find].
  - simpl. destruct (Ascii.ascii_dec c c); [by destruct t|congruence].
  - destruct Hs as [Hd Hs]. by rewrite string_app_cons, str_find_cons_ne, IH.
Qed.

Lemma str_to_length s t : str_to (String.length s) (s +:+ t) = s.
Proof. induction s as [|c s IH]; [by destruct t|]. cbn. f_equal. apply IH. Qed.

Lemma str_from_length s t n :
  str_from (String.length s + n) (s +:+ t) = str_from n t.
Proof. induction s as [|c s IH]; [done|]. apply IH. Qed.

(** The first [)=(] after a column name that contains no [)]. *)
Lemma str_find_sep column value :
  str_lacks ")"%char column ->
  str_find ")=(" (column +:+ ")=(" +:+ value) = Some (String.length column).
Proof.
  induction column as [|d s IH]; intros Hs; cbn -[str_find].
  - by destruct value.
  - destruct Hs as [Hd Hs]. by rewrite string_app_cons, str_find_cons_ne, IH.
Qed.

(** What the conversion recovers from the detail text is the duplicate value,
    provided the value contains no closing parenthesis. *)
Lemma detail_key_unique column value :
  str_lacks ")"%char column -> str_lacks ")"%char value ->
  detail_key (unique_detail column value) = Some value.
Proof.
  intros Hc Hv. unfold detail_key, unique_detail.
  assert (forall t, ("Key (" +:+ column) +:+ t = "Key (" +:+ column +:+ t) as Happ
    by done.
  rewrite <- Happ. rewrite str_find_sep by (cbn; repeat split; done).
  cbn -[str_find str_from str_to String.append].
  rewrite str_from_length.
  change (str_from 3 (")=(" +:+ value +:+ ") already exists."))
    with (value +:+ String ")" " already exists.").
  rewrite str_find_lacks by done. cbn -[str_to String.append].
  by rewrite str_to_length.
Qed.
