(* ===== verification/Schema.v ===== *)
(** * Schema: the tables of [migrations/20260203123052_initial_schema.up.sql]
    and the meaning of the SQL statements the sources contain

    A table is a finite map from its primary key to its row; a statement is a
    function on the tables that returns its rows (or the number of rows it
    affected) or the database's error, with the column types, the [CHECK],
    [UNIQUE] and [REFERENCES] constraints of the migration.  The [BIGSERIAL]
    sequences are separate from the tables: taking an id from one is never undone.

    PostgreSQL is not part of the sources.  What a [VARCHAR(n)] column keeps of a
    string is a field of the class [PgLib], and so is the text of an error; any
    other failure of a statement is the business of the fault schedule of
    [Effects.v]. *)

From S2P Require Import Prelude.
From S2P Require Import Transactions StorageErrors.
Local Open Scope Z_scope.

Class PgLib := {
  (** what a [VARCHAR(n)] column keeps of a string, or the text of its refusal *)
  varchar_input : nat -> string -> result string string;
  (** the text of the error for a violated constraint or an out-of-range value *)
  pg_error_text : string -> string
}.

(** ** Rows *)

Record accounts_row := mk_accounts_row {
  a_account_type : Z;
  a_asset_code : string;
  a_asset_scale : Z;
  a_version : Z;
  a_posted_balance : Z;
  a_pending_balance : Z;
  a_created_at : Z
}.

Record transactions_row `{JsonLib} := mk_transactions_row {
  t_idempotency_key : string;
  t_status : Z;
  t_metadata : JsonValue;
  t_created_at : Z;
  t_posted_at : option Z
}.

Record entries_row := mk_entries_row {
  e_transaction_id : Z;
  e_account_id : Z;
  e_entry_type : Z;
  e_amount : Z;
  e_status : Z;
  e_created_at : Z
}.
#[export] Instance entries_row_eq_dec : EqDecision entries_row.
Proof. solve_decision. Defined.

(** The columns [UPDATE] statements assign. *)
Definition set_balances (r : accounts_row) (posted pending version : Z) : accounts_row :=
  mk_accounts_row (a_account_type r) (a_asset_code r) (a_asset_scale r) version
    posted pending (a_created_at r).
Definition set_transaction_status `{JsonLib} (r : transactions_row) (status : Z)
    (posted_at : option Z) : transactions_row :=
  mk_transactions_row _ (t_idempotency_key r) status (t_metadata r) (t_created_at r) posted_at.
Definition set_entry_status (r : entries_row) (status : Z) : entries_row :=
  mk_entries_row (e_transaction_id r) (e_account_id r) (e_entry_type r) (e_amount r)
    status (e_created_at r).

(** ** [CHECK] constraints *)

Definition accounts_check (r : accounts_row) : Prop :=
  1 <= a_account_type r <= 5 /\ 0 <= a_asset_scale r <= 18 /\
  0 <= a_version r /\ 0 < a_created_at r.
#[export] Instance accounts_check_dec r : Decision (accounts_check r) := and_dec _ _.

Definition transactions_check `{JsonLib} (r : transactions_row) : Prop :=
  1 <= t_status r <= 4 /\ 0 < t_created_at r /\
  match t_posted_at r with None => True | Some p => 0 < p end.
#[export] Instance transactions_check_dec `{JsonLib} r : Decision (transactions_check r).
Proof. unfold transactions_check. destruct (t_posted_at r); apply _. Defined.

Definition entries_check (r : entries_row) : Prop :=
  1 <= e_entry_type r <= 2 /\ 0 < e_amount r /\ 1 <= e_status r <= 3 /\
  0 < e_created_at r.
#[export] Instance entries_check_dec r : Decision (entries_check r) := and_dec _ _.

(** ** The database *)

Record database `{JsonLib} := mk_database {
  accounts : gmap Z accounts_row;
  transactions : gmap Z transactions_row;
  entries : gmap Z entries_row
}.
Definition empty_database `{JsonLib} : database := mk_database _ ∅ ∅ ∅.

(** The next value of each [BIGSERIAL] sequence. *)
Record sequences := mk_sequences {
  accounts_id_seq : Z;
  transactions_id_seq : Z;
  entries_id_seq : Z
}.
Definition initial_sequences : sequences := mk_sequences 1 1 1.

Definition pg_error `{PgLib} (what : string) : SqlxError :=
  SqlxError_Database (mkPgDatabaseError false None (pg_error_text what)).

(** A failed statement leaves the tables as they were. *)
Abbreviation stmt_result A := (result SqlxError (A * database)) (only parsing).

Section statements.
Context `{JsonLib, PgLib}.

Definition varchar (n : nat) (s : string) : result SqlxError string :=
  map_err (fun text => SqlxError_Database (mkPgDatabaseError false None text))
    (varchar_input n s).
Definition jsonb (v : JsonValue) : result SqlxError JsonValue :=
  map_err (fun text => SqlxError_Database (mkPgDatabaseError false None text))
    (jsonb_input v).
(** The value of a [BIGINT] or [INTEGER] expression. *)
Definition bigint (z : Z) : result SqlxError Z :=
  if decide (in_i64 z) then Ok z else Err (pg_error "bigint out of range").
Definition integer (z : Z) : result SqlxError Z :=
  if decide (in_i32 z) then Ok z else Err (pg_error "integer out of range").

(** *** Accounts *)

(** [INSERT INTO accounts (account_type, asset_code, asset_scale, created_at)
    VALUES ... RETURNING id], the id being [id]. *)
Definition insert_account (id account_type : Z) (asset_code : string)
    (asset_scale created_at : Z) (db : database) : stmt_result Z :=
  _ ← bigint id;
  code ← varchar 16 asset_code;
  let row := mk_accounts_row account_type code asset_scale 0 0 0 created_at in
  if decide (accounts_check row)
  then Ok (id, mk_database _ (<[id := row]> (accounts db)) (transactions db) (entries db))
  else Err (pg_error "accounts check violation").

(** [SELECT ... FROM accounts WHERE id = $1], with or without [FOR UPDATE]. *)
Definition select_account (id : Z) (db : database) : option (Z * accounts_row) :=
  pair id <$> accounts db !! id.

(** [UPDATE accounts SET version = version + 1 WHERE id = $1 AND version = $2] *)
Definition update_account_version (id version : Z) (db : database) : stmt_result nat :=
  match accounts db !! id with
  | Some r =>
      if decide (a_version r = version) then
        v ← integer (a_version r + 1);
        let r' := set_balances r (a_posted_balance r) (a_pending_balance r) v in
        Ok (1%nat, mk_database _ (<[id := r']> (accounts db)) (transactions db) (entries db))
      else Ok (0%nat, db)
  | None => Ok (0%nat, db)
  end.

(** [UPDATE accounts SET posted_balance = posted_balance + $3, pending_balance =
    pending_balance + $4, version = version + 1 WHERE id = $1 AND version = $2] *)
Definition update_account_balances (id version delta_posted delta_pending : Z)
    (db : database) : stmt_result nat :=
  match accounts db !! id with
  | Some r =>
      if decide (a_version r = version) then
        p ← bigint (a_posted_balance r + delta_posted);
        q ← bigint (a_pending_balance r + delta_pending);
        v ← integer (a_version r + 1);
        let r' := set_balances r p q v in
        Ok (1%nat, mk_database _ (<[id := r']> (accounts db)) (transactions db) (entries db))
      else Ok (0%nat, db)
  | None => Ok (0%nat, db)
  end.

(** [SELECT id, posted_balance, pending_balance FROM accounts]: every row, in the
    order of the table's enumeration. *)
Definition select_balances (db : database) : list (Z * Z * Z) :=
  (fun '(id, r) => (id, a_posted_balance r, a_pending_balance r)) <$> map_to_list (accounts db).

(** *** Transactions *)

Definition find_key (key : string) (db : database) : option (Z * transactions_row) :=
  head (filter (fun '(_, r) => t_idempotency_key r = key) (map_to_list (transactions db))).

(** [INSERT INTO transactions ... RETURNING id] *)
Definition insert_transaction (id : Z) (key : string) (status : Z) (metadata : JsonValue)
    (created_at : Z) (posted_at : option Z) (db : database) : stmt_result Z :=
  _ ← bigint id;
  key ← varchar 64 key;
  metadata ← jsonb metadata;
  let row := mk_transactions_row _ key status metadata created_at posted_at in
  if decide (transactions_check row) then
    match find_key key db with
    | Some _ =>
        Err (SqlxError_Database (mkPgDatabaseError true
               (Some (unique_detail "idempotency_key" key))
               (pg_error_text "duplicate key value violates unique constraint")))
    | None =>
        Ok (id, mk_database _ (accounts db) (<[id := row]> (transactions db)) (entries db))
    end
  else Err (pg_error "transactions check violation").

Definition select_transaction (id : Z) (db : database) : option (Z * transactions_row) :=
  pair id <$> transactions db !! id.

(** [UPDATE transactions SET status = $2, posted_at = $3 WHERE id = $1] *)
Definition update_transaction (id status : Z) (posted_at : option Z) (db : database)
  : stmt_result nat :=
  match transactions db !! id with
  | Some r =>
      let r' := set_transaction_status r status posted_at in
      if decide (transactions_check r')
      then Ok (1%nat, mk_database _ (accounts db) (<[id := r']> (transactions db)) (entries db))
      else Err (pg_error "transactions check violation")
  | None => Ok (0%nat, db)
  end.

(** *** Entries *)

(** [INSERT INTO entries ... RETURNING id] *)
Definition insert_entry (id transaction_id account_id entry_type amount status created_at : Z)
    (db : database) : stmt_result Z :=
  _ ← bigint id;
  let row := mk_entries_row transaction_id account_id entry_type amount status created_at in
  if decide (entries_check row) then
    if decide (is_Some (transactions db !! transaction_id) /\
               is_Some (accounts db !! account_id))
    then Ok (id, mk_database _ (accounts db) (transactions db) (<[id := row]> (entries db)))
    else Err (pg_error "entries foreign key violation")
  else Err (pg_error "entries check violation").

(** [ORDER BY id] *)
Definition id_le (x y : Z * entries_row) : Prop := x.1 <= y.1.
#[export] Instance id_le_dec : RelDecision id_le := fun x y => Z_le_dec x.1 y.1.

(** [SELECT ... FROM entries WHERE transaction_id = $1 ORDER BY id] *)
Definition select_entries_of_transaction (transaction_id : Z) (db : database)
  : list (Z * entries_row) :=
  merge_sort id_le
    (filter (fun '(_, r) => e_transaction_id r = transaction_id) (map_to_list (entries db))).

(** [SELECT ... FROM entries WHERE account_id = $1 ORDER BY id] *)
Definition select_entries_of_account (account_id : Z) (db : database)
  : list (Z * entries_row) :=
  merge_sort id_le
    (filter (fun '(_, r) => e_account_id r = account_id) (map_to_list (entries db))).

(** [UPDATE entries SET status = $2 WHERE transaction_id = $1] *)
Definition update_entries (transaction_id status : Z) (db : database) : stmt_result nat :=
  let upd r := if decide (e_transaction_id r = transaction_id)
               then set_entry_status r status else r in
  let hits := length (filter (fun '(_, r) => e_transaction_id r = transaction_id)
                        (map_to_list (entries db))) in
  if decide (hits = 0%nat \/ 1 <= status <= 3)
  then Ok (hits, mk_database _ (accounts db) (transactions db) (upd <$> entries db))
  else Err (pg_error "entries check violation").

End statements.
