(* ===== verification/Cache.v ===== *)
(** * The balance cache: [storage/cache.rs]

    The [DashMap] is a finite map; each method is one atomic operation on it. *)

From S2P Require Import Prelude.
From S2P Require Import Accounts Validation.
Local Open Scope Z_scope.

Record CachedBalance := mkCachedBalance {
  cached_posted : Z;
  cached_pending : Z
}.
#[export] Instance CachedBalance_eq_dec : EqDecision CachedBalance.
Proof. solve_decision. Defined.

Abbreviation BalanceCache := (gmap Z CachedBalance) (only parsing).

Definition BalanceCache_new : BalanceCache := ∅.
Definition BalanceCache_with_capacity (capacity : nat) : BalanceCache := ∅.

Definition BalanceCache_set (id : AccountId) (posted pending : Z) (self : BalanceCache)
  : BalanceCache := <[id := mkCachedBalance posted pending]> self.

(** The [for] loop over the rows, inserting one after the other. *)
Definition BalanceCache_rehydrate (data : list (AccountId * Z * Z)) (self : BalanceCache)
  : BalanceCache :=
  foldl (fun c '(id, posted, pending) => <[id := mkCachedBalance posted pending]> c)
    self data.

Definition BalanceCache_get (id : AccountId) (self : BalanceCache) : option AccountBalance :=
  (fun entry =>
     let available := i64_saturating_sub (cached_posted entry) (cached_pending entry) in
     AccountBalance_from_computed (cached_posted entry) (cached_pending entry) available)
  <$> self !! id.

Definition BalanceCache_apply_delta (id : AccountId) (delta_posted delta_pending : Z)
    (self : BalanceCache) : BalanceCache :=
  alter (fun b => mkCachedBalance
                    (i64_saturating_add (cached_posted b) delta_posted)
                    (i64_saturating_add (cached_pending b) delta_pending)) id self.

Definition BalanceCache_remove (id : AccountId) (self : BalanceCache) : BalanceCache :=
  delete id self.

Definition BalanceCache_iter (self : BalanceCache) : list (AccountId * Z * Z) :=
  (fun '(id, b) => (id, cached_posted b, cached_pending b)) <$> map_to_list self.

Definition BalanceCache_len (self : BalanceCache) : nat := size self.
Definition BalanceCache_is_empty (self : BalanceCache) : bool :=
  bool_decide (size self = 0)%nat.
