(* ===== verification/Effects.v ===== *)
(** * Effects: what a request does to the world, and how it runs

    A handler of the service is a program [prog] over the effects the sources
    use: the clock, the database through an explicit transaction handle or
    through the pool, the balance cache, the metrics counters.  [run] executes a
    program on a [world].

    The world carries a schedule of faults, one entry per round trip to the
    database: any [BEGIN], statement or [COMMIT] may fail with any error, and a
    [COMMIT] that fails may or may not have been applied by the server.  A
    program that ends without committing drops its transaction handle, which
    rolls the transaction back. *)

From S2P Require Import Prelude.
From S2P Require Import Transactions StorageErrors Schema Cache.
Local Open Scope Z_scope.

(** ** Statements *)

(** What a statement locks until the end of its transaction: the row of an account
    or of a transaction, the entries of a transaction, the index entry of a new
    idempotency key. *)
Inductive row_lock :=
| LockAccount (id : Z)
| LockTransaction (id : Z)
| LockEntries (transaction_id : Z)
| LockKey (key : string).
#[export] Instance row_lock_eq_dec : EqDecision row_lock.
Proof. solve_decision. Defined.

(** A lock needs a row: [FOR UPDATE] or [UPDATE] on a missing row locks nothing. *)
Definition lock_live `{JsonLib} (db : database) (l : row_lock) : Prop :=
  match l with
  | LockAccount a => is_Some (accounts db !! a)
  | LockTransaction t => is_Some (transactions db !! t)
  | LockEntries _ | LockKey _ => True
  end.
#[export] Instance lock_live_dec `{JsonLib} db l : Decision (lock_live db l).
Proof. destruct l; simpl; apply _. Defined.

Record stmt `{JsonLib} (A : Type) := mk_stmt {
  stmt_locks : list row_lock;
  stmt_exec : sequences -> database -> sequences * result SqlxError (A * database)
}.
Arguments mk_stmt {_ A} _ _.
Arguments stmt_locks {_ A} _.
Arguments stmt_exec {_ A} _ _ _.

(** A statement that takes no id from a sequence, and a query. *)
Definition write_stmt `{JsonLib} {A} (locks : list row_lock)
    (f : database -> result SqlxError (A * database)) : stmt A :=
  mk_stmt locks (fun seqs db => (seqs, f db)).
Definition read_stmt `{JsonLib} {A} (locks : list row_lock) (f : database -> A) : stmt A :=
  mk_stmt locks (fun seqs db => (seqs, Ok (f db, db))).

(** ** Programs *)

Inductive eff `{JsonLib} : Set -> Type :=
| Now : eff Z
| Begin : eff (result SqlxError unit)
| Query {A : Set} (q : stmt A) : eff (result SqlxError A)
| Commit : eff (result SqlxError unit)
| PoolQuery {A : Set} (q : stmt A) : eff (result SqlxError A)
| OnCache {A : Set} (op : BalanceCache -> A * BalanceCache) : eff A
| Counter (name : string) (labels : list (string * string)) : eff unit.

(** [Panic] is a failed [unwrap]. *)
Inductive prog `{JsonLib} (A : Type) : Type :=
| Ret (a : A)
| Vis {X : Set} (e : eff X) (k : X -> prog A)
| Panic.
Arguments Ret {_ A} a.
Arguments Vis {_ A X} e k.
Arguments Panic {_ A}.

Fixpoint prog_bind `{JsonLib} {A B} (k : A -> prog B) (p : prog A) : prog B :=
  match p with
  | Ret a => k a
  | Vis e k' => Vis e (fun x => prog_bind k (k' x))
  | Panic => Panic
  end.

(** A program that may return an error: an [async fn] returning [Result]. *)
Definition io `{JsonLib} (E A : Type) : Type := prog (result E A).
#[export] Instance io_ret `{JsonLib} E : MRet (io E) := fun A a => Ret (Ok a).
#[export] Instance io_bind `{JsonLib} E : MBind (io E) := fun A B k p =>
  prog_bind (fun r => match r with Ok a => k a | Err e => Ret (Err e) end) p.

Section combinators.
Context `{JsonLib}.

Definition perform {E A} (e : eff A) : io E A := Vis e (fun a => Ret (Ok a)).
(** [f(..).await.map_err(g)] *)
Definition perform_err {E A} (e : eff (result SqlxError A)) (g : SqlxError -> E) : io E A :=
  Vis e (fun r => Ret (map_err g r)).
Definition lift {E A} (r : result E A) : io E A := Ret r.
Definition throw {E A} (e : E) : io E A := Ret (Err e).
Definition io_map_err {E F A} (g : E -> F) (p : io E A) : io F A :=
  prog_bind (fun r => Ret (map_err g r)) p.
Definition unwrap {E A} (o : option A) : io E A :=
  match o with Some a => Ret (Ok a) | None => Panic end.

(** [for x in l { .. }] with a body that may return early, collecting results. *)
Fixpoint io_map {E A B} (f : A -> io E B) (l : list A) : io E (list B) :=
  match l with
  | [] => mret []
  | x :: l => y ← f x; ys ← io_map f l; mret (y :: ys)
  end.
Fixpoint io_iter {E A} (f : A -> io E unit) (l : list A) : io E unit :=
  match l with
  | [] => mret tt
  | x :: l => f x;; io_iter f l
  end.
Fixpoint io_fold {E S A} (f : S -> A -> io E S) (s : S) (l : list A) : io E S :=
  match l with
  | [] => mret s
  | x :: l => s' ← f s x; io_fold f s' l
  end.
End combinators.

(** ** The world *)

Record fault := mk_fault {
  fault_error : SqlxError;
  (** whether a failed [COMMIT] was nevertheless applied *)
  fault_applied : bool
}.

Record world `{JsonLib} := mk_world {
  w_db : database;             (* the committed tables *)
  w_seqs : sequences;
  w_tx : option database;      (* the open transaction's view *)
  w_locks : list row_lock;     (* rows locked by it, in the order of locking *)
  w_cache : BalanceCache;
  w_counters : list (string * list (string * string));
  w_clock : Z;
  w_faults : list (option fault)
}.

Section running.
Context `{JsonLib}.

(** The outcome of the next round trip. *)
Definition next_fault (w : world) : option fault * world :=
  (mjoin (head (w_faults w)),
   mk_world _ (w_db w) (w_seqs w) (w_tx w) (w_locks w) (w_cache w) (w_counters w)
     (w_clock w) (tail (w_faults w))).

Definition set_tx (tx : option database) (locks : list row_lock) (w : world) : world :=
  mk_world _ (w_db w) (w_seqs w) tx locks (w_cache w) (w_counters w) (w_clock w) (w_faults w).
Definition set_seqs (s : sequences) (w : world) : world :=
  mk_world _ (w_db w) s (w_tx w) (w_locks w) (w_cache w) (w_counters w) (w_clock w) (w_faults w).
Definition set_db (db : database) (w : world) : world :=
  mk_world _ db (w_seqs w) (w_tx w) (w_locks w) (w_cache w) (w_counters w) (w_clock w) (w_faults w).
Definition set_cache (c : BalanceCache) (w : world) : world :=
  mk_world _ (w_db w) (w_seqs w) (w_tx w) (w_locks w) c (w_counters w) (w_clock w) (w_faults w).
Definition add_counter (n : string) (ls : list (string * string)) (w : world) : world :=
  mk_world _ (w_db w) (w_seqs w) (w_tx w) (w_locks w) (w_cache w) ((n, ls) :: w_counters w)
    (w_clock w) (w_faults w).

Definition step_begin (w : world) : result SqlxError unit * world :=
  let '(f, w) := next_fault w in
  match f with
  | Some f => (Err (fault_error f), w)
  | None => (Ok tt, set_tx (Some (w_db w)) [] w)
  end.

Definition step_query {A} (q : stmt A) (w : world) : result SqlxError A * world :=
  let '(f, w) := next_fault w in
  match f, w_tx w with
  | Some f, _ => (Err (fault_error f), w)
  | None, None => (Err (SqlxError_Other "no transaction"), w)
  | None, Some db =>
      let '(seqs, r) := stmt_exec q (w_seqs w) db in
      let w := set_seqs seqs w in
      match r with
      | Ok (a, db') => (Ok a, set_tx (Some db') (w_locks w ++ filter (lock_live db') (stmt_locks q)) w)
      | Err e => (Err e, w)
      end
  end.

Definition step_commit (w : world) : result SqlxError unit * world :=
  let '(f, w) := next_fault w in
  match f, w_tx w with
  | Some f, Some db =>
      (Err (fault_error f), set_tx None [] (if fault_applied f then set_db db w else w))
  | Some f, None => (Err (fault_error f), w)
  | None, Some db => (Ok tt, set_tx None [] (set_db db w))
  | None, None => (Err (SqlxError_Other "no transaction"), w)
  end.

Definition step_pool {A} (q : stmt A) (w : world) : result SqlxError A * world :=
  let '(f, w) := next_fault w in
  match f with
  | Some f => (Err (fault_error f), w)
  | None =>
      let '(seqs, r) := stmt_exec q (w_seqs w) (w_db w) in
      let w := set_seqs seqs w in
      match r with
      | Ok (a, db') => (Ok a, set_db db' w)
      | Err e => (Err e, w)
      end
  end.

Definition step {X} (e : eff X) : world -> X * world :=
  match e in eff X return world -> X * world with
  | Now => fun w => (w_clock w, w)
  | Begin => step_begin
  | Query q => step_query q
  | Commit => step_commit
  | PoolQuery q => step_pool q
  | OnCache op => fun w => let '(a, c) := op (w_cache w) in (a, set_cache c w)
  | Counter n ls => fun w => (tt, add_counter n ls w)
  end.

(** [None] is a panic of the request's task. *)
Fixpoint run {A} (p : prog A) (w : world) : option A * world :=
  match p with
  | Ret a => (Some a, w)
  | Vis e k => let '(x, w') := step e w in run (k x) w'
  | Panic => (None, w)
  end.

(** A request: the handler runs, and the transaction handle is dropped. *)
Definition run_request {A} (p : prog A) (w : world) : option A * world :=
  let '(r, w') := run p w in (r, set_tx None [] w').

(** Total correctness of a program: it returns, without a panic, in a world
    that satisfies the postcondition. *)
Definition wp {A} (p : prog A) (w : world) (Q : A -> world -> Prop) : Prop :=
  match run p w with
  | (Some a, w') => Q a w'
  | (None, _) => False
  end.
End running.
