(* ===== verification/Triples.v ===== *)
(** * Triples: reasoning rules for programs

    [wp] is total correctness (Effects.v): a postcondition proved with it also
    shows that the program returns and does not panic.  [tx] specialises it to
    code that runs inside a database transaction: it describes the transaction's
    view and the sequences, while [frame] states that nothing committed, no cache
    entry and not the clock changes.  In a run without faults an error must
    satisfy the error postcondition. *)

From S2P Require Import Prelude.
From S2P Require Import Transactions StorageErrors Schema Cache Effects.
Local Open Scope Z_scope.

Section wp.
Context `{JsonLib}.

Lemma run_bind {A B} (k : A -> prog B) p w :
  run (prog_bind k p) w =
    match run p w with
    | (Some a, w') => run (k a) w'
    | (None, w') => (None, w')
    end.
Proof.
  revert w. induction p as [a|X e k' IH|]; intros w; simpl; [done| |done].
  destruct (step e w) as [x w']. apply IH.
Qed.

Lemma wp_ret {A} (a : A) w Q : Q a w -> wp (Ret a) w Q.
Proof. done. Qed.

Lemma wp_bind {A B} (k : A -> prog B) p w Q :
  wp p w (fun a w' => wp (k a) w' Q) -> wp (prog_bind k p) w Q.
Proof.
  unfold wp. rewrite run_bind. destruct (run p w) as [[a|] w']; done.
Qed.

Lemma wp_mono {A} (p : prog A) w (Q Q' : A -> world -> Prop) :
  wp p w Q -> (forall a w', Q a w' -> Q' a w') -> wp p w Q'.
Proof. unfold wp. destruct (run p w) as [[a|] w']; auto. Qed.

Lemma wp_io_bind {E A B} (k : A -> io E B) (p : io E A) w Q :
  wp p w (fun r w' => match r with Ok a => wp (k a) w' Q | Err e => Q (Err e) w' end) ->
  wp (x ← p; k x) w Q.
Proof.
  intros Hp. apply wp_bind. eapply wp_mono; [exact Hp|].
  intros [a|e] w' HQ; [done|]. by apply wp_ret.
Qed.

Lemma wp_map_err {E F A} (g : E -> F) (p : io E A) w Q :
  wp p w (fun r w' => Q (map_err g r) w') -> wp (io_map_err g p) w Q.
Proof. intros Hp. apply wp_bind. eapply wp_mono; [exact Hp|]. done. Qed.

Lemma wp_perform {E A} (e : eff A) w (Q : result E A -> world -> Prop) :
  Q (Ok (step e w).1) (step e w).2 -> wp (perform e) w Q.
Proof. unfold wp, perform. simpl. by destruct (step e w). Qed.

Lemma wp_perform_err {E A} (e : eff (result SqlxError A)) (g : SqlxError -> E) w Q :
  Q (map_err g (step e w).1) (step e w).2 -> wp (perform_err e g) w Q.
Proof. unfold wp, perform_err. simpl. by destruct (step e w). Qed.
End wp.

(** ** What a step inside a transaction leaves alone *)

Definition seqs_le (s s' : sequences) : Prop :=
  accounts_id_seq s <= accounts_id_seq s' /\
  transactions_id_seq s <= transactions_id_seq s' /\
  entries_id_seq s <= entries_id_seq s'.
#[export] Instance seqs_le_preorder : PreOrder seqs_le.
Proof.
  split; [by repeat split|]. intros s1 s2 s3 (?&?&?) (?&?&?).
  repeat split; etrans; eassumption.
Qed.

Record frame `{JsonLib} (w w' : world) : Prop := {
  frame_db : w_db w' = w_db w;
  frame_cache : w_cache w' = w_cache w;
  frame_clock : w_clock w' = w_clock w;
  frame_seqs : seqs_le (w_seqs w) (w_seqs w');
  frame_faults : w_faults w' `suffix_of` w_faults w
}.
#[export] Instance frame_preorder `{JsonLib} : PreOrder frame.
Proof.
  split; [by split|]. intros w1 w2 w3 [] []. split; [congruence..| |];
  by etrans.
Qed.

Lemma suffix_tail {A} (l : list A) : tail l `suffix_of` l.
Proof. destruct l as [|x l]; simpl; [done|]. by apply suffix_cons_r. Qed.

Lemma frame_no_faults `{JsonLib} w w' : frame w w' -> w_faults w = [] -> w_faults w' = [].
Proof. intros [_ _ _ _ Hf] Hn. rewrite Hn in Hf. by apply suffix_nil_inv in Hf. Qed.

(** ** Transaction triples *)

Section tx.
Context `{JsonLib}.

(** [tx c p db s R Er]: with the cache [c], from the view [db] and the sequences
    [s], [p] ends with a result, a view and sequences related by [R], or with an
    error, which satisfies [Er] unless the database failed. *)
Definition tx (c : BalanceCache) {E A} (p : io E A) (db : database) (s : sequences)
    (R : A -> database -> sequences -> Prop) (Er : E -> Prop) : Prop :=
  forall w, w_tx w = Some db -> w_seqs w = s -> w_cache w = c ->
  wp p w (fun r w' =>
    frame w w' /\
    match r with
    | Ok a => exists db', w_tx w' = Some db' /\ R a db' (w_seqs w')
    | Err e => w_faults w = [] -> Er e
    end).

Context (c : BalanceCache).

Lemma tx_bind {E A B} (p : io E A) (k : A -> io E B) db s R' R Er :
  tx c p db s R' Er ->
  (forall a db' s', R' a db' s' -> seqs_le s s' -> tx c (k a) db' s' R Er) ->
  tx c (x ← p; k x) db s R Er.
Proof.
  intros Hp Hk w Hw Hs Hc. apply wp_io_bind.
  eapply wp_mono; [by apply Hp|]. intros [a|e] w' [Hf Hr]; simpl.
  - destruct Hr as (db' & Hdb' & HR).
    eapply wp_mono.
    + apply (Hk a db' (w_seqs w')); [done| |done|done|].
      * rewrite <- Hs. apply Hf.
      * rewrite (frame_cache _ _ Hf). done.
    + intros r w'' [Hf' Hr']. split; [by etrans|].
      destruct r as [b|e]; [done|]. intros Hn. apply Hr'. by eapply frame_no_faults.
  - done.
Qed.

Lemma tx_ret {E A} (a : A) db s (R : A -> database -> sequences -> Prop) (Er : E -> Prop) :
  R a db s -> tx c (mret a) db s R Er.
Proof. intros HR w Hw <- _. apply wp_ret. split; [done|]. eauto. Qed.

Lemma tx_throw {E A} (e : E) db s (R : A -> database -> sequences -> Prop) (Er : E -> Prop) :
  Er e -> tx c (throw e) db s R Er.
Proof. intros He w Hw <- _. apply wp_ret. split; [done|]. auto. Qed.

Lemma tx_lift {E A} (r : result E A) db s (R : A -> database -> sequences -> Prop)
    (Er : E -> Prop) :
  match r with Ok a => R a db s | Err e => Er e end -> tx c (lift r) db s R Er.
Proof. destruct r; [apply tx_ret|apply tx_throw]. Qed.

Lemma tx_unwrap {E A} (o : option A) a db s (R : A -> database -> sequences -> Prop)
    (Er : E -> Prop) :
  o = Some a -> R a db s -> tx c (unwrap o) db s R Er.
Proof. intros -> HR. by apply tx_ret. Qed.

Lemma tx_mono {E A} (p : io E A) db s (R R' : A -> database -> sequences -> Prop)
    (Er Er' : E -> Prop) :
  tx c p db s R Er -> (forall a db' s', R a db' s' -> R' a db' s') ->
  (forall e, Er e -> Er' e) -> tx c p db s R' Er'.
Proof.
  intros Hp HR HE w Hw Hs Hc. eapply wp_mono; [by apply Hp|].
  intros [a|e] w' [Hf Hr]; split; naive_solver.
Qed.

Lemma tx_map_err {E F A} (g : E -> F) (p : io E A) db s R (Er : F -> Prop) :
  tx c p db s R (fun e => Er (g e)) -> tx c (io_map_err g p) db s R Er.
Proof.
  intros Hp w Hw Hs Hc. apply wp_map_err. eapply wp_mono; [by apply Hp|].
  intros [a|e] w' [Hf Hr]; done.
Qed.

(** Reading the cache. *)
Lemma tx_on_cache {E} {A : Set} (f : BalanceCache -> A) db s
    (R : A -> database -> sequences -> Prop) (Er : E -> Prop) :
  R (f c) db s -> tx c (perform (OnCache (fun c => (f c, c)))) db s R Er.
Proof.
  intros HR w Hw <- Hc. apply wp_perform. simpl. rewrite Hc.
  split; [by split|]. eauto.
Qed.

Lemma tx_counter {E} n ls db s (R : unit -> database -> sequences -> Prop) (Er : E -> Prop) :
  R tt db s -> tx c (perform (Counter n ls)) db s R Er.
Proof. intros HR w Hw <- Hc. apply wp_perform. simpl. split; [by split|]. eauto. Qed.

(** A statement: its rows in the view, or its error. *)
Lemma tx_perform_query {E} {A : Set} (q : stmt A) (g : SqlxError -> E) db s
    (R : A -> database -> sequences -> Prop) (Er : E -> Prop) :
  seqs_le s (stmt_exec q s db).1 ->
  match (stmt_exec q s db).2 with
  | Ok (a, db') => R a db' (stmt_exec q s db).1
  | Err e => Er (g e)
  end ->
  tx c (perform_err (Query q) g) db s R Er.
Proof.
  intros Hle HR w Hw Hs Hc. apply wp_perform_err. unfold step, step_query.
  destruct (next_fault w) as [f w1] eqn:Hn.
  unfold next_fault in Hn. simplify_eq.
  destruct (mjoin (head (w_faults w))) as [f|] eqn:Hf; simpl.
  - split; [split; simpl; try done; apply suffix_tail|].
    intros Hnil. by rewrite Hnil in Hf.
  - rewrite Hw. destruct (stmt_exec q (w_seqs w) db) as [s' [[a db']|e]] eqn:Hq; simpl.
    + split; [split; simpl; try done; apply suffix_tail|]. exists db'. done.
    + split; [split; simpl; try done; apply suffix_tail|]. done.
Qed.

(** Loops. *)
Lemma tx_io_fold {E St A} (f : St -> A -> io E St) (l : list A) (st : St) db s
    (I : list A -> St -> database -> sequences -> Prop) (Er : E -> Prop) :
  I [] st db s ->
  (forall done x rest st db s, l = done ++ x :: rest -> I done st db s ->
     tx c (f st x) db s (fun st' db' s' => I (done ++ [x]) st' db' s') Er) ->
  tx c (io_fold f st l) db s (fun st' db' s' => I l st' db' s') Er.
Proof.
  intros HI Hstep.
  cut (forall rest done st db s, l = done ++ rest -> I done st db s ->
    tx c (io_fold f st rest) db s (fun st' db' s' => I l st' db' s') Er).
  { intros Hcut. by apply (Hcut l []). }
  clear HI st db s. intros rest. induction rest as [|x rest IH]; intros dn st db s Hl HI.
  - rewrite app_nil_r in Hl. subst. by apply tx_ret.
  - simpl. eapply tx_bind; [by eapply Hstep|].
    intros st' db' s' HI' _. apply (IH (dn ++ [x])); [|done].
    by rewrite <- (assoc_L (++)).
Qed.

Lemma tx_io_iter {E A} (f : A -> io E unit) (l : list A) db s
    (I : list A -> database -> sequences -> Prop) (Er : E -> Prop) :
  I [] db s ->
  (forall done x rest db s, l = done ++ x :: rest -> I done db s ->
     tx c (f x) db s (fun _ db' s' => I (done ++ [x]) db' s') Er) ->
  tx c (io_iter f l) db s (fun _ db' s' => I l db' s') Er.
Proof.
  intros HI Hstep.
  cut (forall rest done db s, l = done ++ rest -> I done db s ->
    tx c (io_iter f rest) db s (fun _ db' s' => I l db' s') Er).
  { intros Hcut. by apply (Hcut l []). }
  clear HI db s. intros rest. induction rest as [|x rest IH]; intros dn db s Hl HI.
  - rewrite app_nil_r in Hl. subst. by apply tx_ret.
  - simpl. eapply tx_bind; [by eapply Hstep|].
    intros [] db' s' HI' _. apply (IH (dn ++ [x])); [|done].
    by rewrite <- (assoc_L (++)).
Qed.

(** A loop that only reads: one result per element. *)
Lemma tx_io_map {E A B} (f : A -> io E B) (l : list A) db s (P : A -> B -> Prop)
    (Er : E -> Prop) :
  (forall x, x ∈ l -> tx c (f x) db s (fun b db' s' => db' = db /\ s' = s /\ P x b) Er) ->
  tx c (io_map f l) db s (fun bs db' s' => db' = db /\ s' = s /\ Forall2 P l bs) Er.
Proof.
  induction l as [|x l IH]; intros Hf; simpl.
  - apply tx_ret. done.
  - eapply tx_bind; [apply Hf; set_solver|]. intros b db' s' (-> & -> & Hb) _.
    eapply tx_bind; [apply IH; set_solver|]. intros bs db' s' (-> & -> & Hbs) _.
    apply tx_ret. split_and!; [done..|]. by constructor.
Qed.
End tx.
