(* ===== verification/Postgres.v ===== *)
(** * PostgreSQL storage: [storage/postgres.rs]

    One definition per method of [PostgresStorage], with the statement each
    sends, the conversions between enumerations and their [SMALLINT] codes, and
    the constructors that rebuild domain values from rows.  The pool and the
    transaction handle are the effects [PoolQuery] and [Query]. *)

From S2P Require Import Prelude.
From S2P Require Import Money Accounts Transactions Entries Validation.
From S2P Require Import StorageErrors Schema Cache Effects.
Local Open Scope Z_scope.

(** ** Enumeration codes *)

Definition account_type_to_i16 (t : AccountType) : Z :=
  match t with
  | AccountType_Asset => 1
  | AccountType_Liability => 2
  | AccountType_Equity => 3
  | AccountType_Revenue => 4
  | AccountType_Expense => 5
  end.

Definition i16_to_account_type (i : Z) : result StorageError AccountType :=
  match i with
  | 1 => Ok AccountType_Asset
  | 2 => Ok AccountType_Liability
  | 3 => Ok AccountType_Equity
  | 4 => Ok AccountType_Revenue
  | 5 => Ok AccountType_Expense
  | _ => Err (StorageError_DataCorruption ("invalid account_type: " +:+ pretty i))
  end.

Definition transaction_status_to_i16 (s : TransactionStatus) : Z :=
  match s with
  | TransactionStatus_Pending => 1
  | TransactionStatus_Posted => 2
  | TransactionStatus_Voided => 3
  | TransactionStatus_Failed => 4
  end.

Definition i16_to_transaction_status (i : Z) : result StorageError TransactionStatus :=
  match i with
  | 1 => Ok TransactionStatus_Pending
  | 2 => Ok TransactionStatus_Posted
  | 3 => Ok TransactionStatus_Voided
  | 4 => Ok TransactionStatus_Failed
  | _ => Err (StorageError_DataCorruption ("invalid transaction_status: " +:+ pretty i))
  end.

Definition entry_type_to_i16 (t : EntryType) : Z :=
  match t with EntryType_Debit => 1 | EntryType_Credit => 2 end.

Definition i16_to_entry_type (i : Z) : result StorageError EntryType :=
  match i with
  | 1 => Ok EntryType_Debit
  | 2 => Ok EntryType_Credit
  | _ => Err (StorageError_DataCorruption ("invalid entry_type: " +:+ pretty i))
  end.

Definition entry_status_to_i16 (s : EntryStatus) : Z :=
  match s with
  | EntryStatus_Pending => 1
  | EntryStatus_Posted => 2
  | EntryStatus_Voided => 3
  end.

Definition i16_to_entry_status (i : Z) : result StorageError EntryStatus :=
  match i with
  | 1 => Ok EntryStatus_Pending
  | 2 => Ok EntryStatus_Posted
  | 3 => Ok EntryStatus_Voided
  | _ => Err (StorageError_DataCorruption ("invalid entry_status: " +:+ pretty i))
  end.

(** ** Rows to domain values *)

Section storage.
Context `{JsonLib, PgLib}.

Definition build_account (id account_type : Z) (asset_code : string)
    (asset_scale version created_at : Z) : result StorageError Account :=
  account_type ← i16_to_account_type account_type;
  map_err (fun e => StorageError_DataCorruption
                      ("invalid account data: " +:+ AccountError_to_string e))
    (Account_new (AccountId_from_raw id) account_type asset_code (as_u8 asset_scale)
       version created_at).

Definition build_transaction (id : Z) (idempotency_key : string) (status : Z)
    (metadata : JsonValue) (created_at : Z) (posted_at : option Z)
  : result StorageError Transaction :=
  status ← i16_to_transaction_status status;
  map_err (fun e => StorageError_DataCorruption
                      ("invalid transaction data: " +:+ TransactionError_to_string e))
    (Transaction_new (TransactionId_from_raw id) idempotency_key status metadata
       created_at (default 0 posted_at)).

Definition build_entry (id transaction_id account_id entry_type amount status created_at : Z)
  : result StorageError Entry :=
  entry_type ← i16_to_entry_type entry_type;
  status ← i16_to_entry_status status;
  map_err (fun e => StorageError_DataCorruption
                      ("invalid entry data: " +:+ EntryError_to_string e))
    (Entry_new (EntryId_from_raw id) (TransactionId_from_raw transaction_id)
       (AccountId_from_raw account_id) entry_type (Amount_from_raw amount) status created_at).

(** The builders applied to a selected row. *)
Definition account_of_row (r : Z * accounts_row) : result StorageError Account :=
  build_account r.1 (a_account_type r.2) (a_asset_code r.2) (a_asset_scale r.2)
    (a_version r.2) (a_created_at r.2).
Definition transaction_of_row (r : Z * transactions_row) : result StorageError Transaction :=
  build_transaction r.1 (t_idempotency_key r.2) (t_status r.2) (t_metadata r.2)
    (t_created_at r.2) (t_posted_at r.2).
Definition entry_of_row (r : Z * entries_row) : result StorageError Entry :=
  build_entry r.1 (e_transaction_id r.2) (e_account_id r.2) (e_entry_type r.2)
    (e_amount r.2) (e_status r.2) (e_created_at r.2).
(** [match row { Some(r) => Ok(Some(build(r)?)), None => Ok(None) }] *)
Definition opt_row {R T} (build : R -> result StorageError T) (row : option R)
  : result StorageError (option T) :=
  match row with
  | Some r => t ← build r; Ok (Some t)
  | None => Ok None
  end.

(** A statement sent through the transaction handle, or through the pool. *)
Definition query {A : Set} (q : stmt A) : io StorageError A :=
  perform_err (Query q) StorageError_from.
Definition pool_query {A : Set} (q : stmt A) : io StorageError A :=
  perform_err (PoolQuery q) StorageError_from.

(** ** Transactions of the database *)

Definition storage_begin : io StorageError unit := perform_err Begin StorageError_from.

(** ** Accounts *)

Definition storage_create_account (account_type : AccountType) (asset_code : string)
    (asset_scale created_at : Z) : io StorageError AccountId :=
  let account_type_i16 := account_type_to_i16 account_type in
  row_id ← query (mk_stmt [] (fun s db =>
    (mk_sequences (accounts_id_seq s + 1) (transactions_id_seq s) (entries_id_seq s),
     insert_account (accounts_id_seq s) account_type_i16 asset_code asset_scale created_at db)));
  mret (AccountId_from_raw row_id).

Definition storage_get_account (id : AccountId) : io StorageError (option Account) :=
  row ← query (read_stmt [] (select_account (AccountId_value id)));
  lift (opt_row account_of_row row).

Definition storage_get_account_for_update (id : AccountId)
  : io StorageError (option Account) :=
  row ← query (read_stmt [LockAccount (AccountId_value id)] (select_account (AccountId_value id)));
  lift (opt_row account_of_row row).

(** The error of an optimistic update that matched no row. *)
Definition version_error (id : AccountId) (expected_version : Z) (during : string)
  : io StorageError unit :=
  current ← query (A := option Z) (read_stmt [] (fun db => a_version <$> accounts db !! AccountId_value id));
  match current with
  | Some v => throw (StorageError_VersionConflict "account" (AccountId_value id)
                       expected_version v)
  | None => throw (StorageError_DataCorruption
                     ("account " +:+ pretty id +:+ " not found during " +:+ during))
  end.

Definition storage_increment_account_version (id : AccountId) (expected_version : Z)
  : io StorageError unit :=
  rows_affected ← query (write_stmt [LockAccount (AccountId_value id)]
    (update_account_version (AccountId_value id) (as_i32 expected_version)));
  if decide (rows_affected = 0%nat)
  then version_error id expected_version "version update"
  else mret tt.

Definition storage_get_account_balance (id : AccountId) : io StorageError (option (Z * Z)) :=
  query (A := option (Z * Z)) (read_stmt [] (fun db =>
    (fun r => (a_posted_balance r, a_pending_balance r)) <$> accounts db !! AccountId_value id)).

Definition storage_update_account_balance (id : AccountId)
    (expected_version delta_posted delta_pending : Z) : io StorageError unit :=
  rows_affected ← query (write_stmt [LockAccount (AccountId_value id)]
    (update_account_balances (AccountId_value id) (as_i32 expected_version)
       delta_posted delta_pending));
  if decide (rows_affected = 0%nat)
  then version_error id expected_version "balance update"
  else mret tt.

Definition storage_load_all_balances : io StorageError (list (AccountId * Z * Z)) :=
  rows ← pool_query (read_stmt [] select_balances);
  mret ((fun '(id, posted, pending) => (AccountId_from_raw id, posted, pending)) <$> rows).

(** ** Ledger transactions *)

(** The index entry of the key as the column keeps it. *)
Definition key_locks (key : string) : list row_lock :=
  match varchar_input 64 key with Ok key' => [LockKey key'] | Err _ => [] end.

Definition storage_create_transaction (idempotency_key : string) (status : TransactionStatus)
    (metadata : JsonValue) (created_at : Z) (posted_at : option Z)
  : io StorageError TransactionId :=
  let status_i16 := transaction_status_to_i16 status in
  row_id ← query (mk_stmt (key_locks idempotency_key) (fun s db =>
    (mk_sequences (accounts_id_seq s) (transactions_id_seq s + 1) (entries_id_seq s),
     insert_transaction (transactions_id_seq s) idempotency_key status_i16 metadata
       created_at posted_at db)));
  mret (TransactionId_from_raw row_id).

Definition storage_get_transaction (id : TransactionId) : io StorageError (option Transaction) :=
  row ← query (read_stmt [] (select_transaction (TransactionId_value id)));
  lift (opt_row transaction_of_row row).

Definition storage_find_transaction_by_key (idempotency_key : string)
  : io StorageError (option Transaction) :=
  row ← query (read_stmt [] (find_key idempotency_key));
  lift (opt_row transaction_of_row row).

Definition storage_update_transaction_status (id : TransactionId)
    (status : TransactionStatus) (posted_at : option Z) : io StorageError unit :=
  let status_i16 := transaction_status_to_i16 status in
  rows_affected ← query (write_stmt [LockTransaction (TransactionId_value id)]
    (update_transaction (TransactionId_value id) status_i16 posted_at));
  if decide (rows_affected = 0%nat)
  then throw (StorageError_DataCorruption
                ("transaction " +:+ pretty id +:+ " not found during status update"))
  else mret tt.

(** ** Entries *)

Definition storage_create_entry (transaction_id : TransactionId) (account_id : AccountId)
    (entry_type : EntryType) (amount : Amount) (status : EntryStatus) (created_at : Z)
  : io StorageError EntryId :=
  let entry_type_i16 := entry_type_to_i16 entry_type in
  let status_i16 := entry_status_to_i16 status in
  row_id ← query (mk_stmt [] (fun s db =>
    (mk_sequences (accounts_id_seq s) (transactions_id_seq s) (entries_id_seq s + 1),
     insert_entry (entries_id_seq s) (TransactionId_value transaction_id)
       (AccountId_value account_id) entry_type_i16 (Amount_value amount) status_i16
       created_at db)));
  mret (EntryId_from_raw row_id).

Definition storage_get_entries_for_transaction (transaction_id : TransactionId)
  : io StorageError (list Entry) :=
  rows ← query (read_stmt [] (select_entries_of_transaction (TransactionId_value transaction_id)));
  lift (try_map entry_of_row rows).

Definition storage_get_entries_for_account (account_id : AccountId)
  : io StorageError (list Entry) :=
  rows ← query (read_stmt [] (select_entries_of_account (AccountId_value account_id)));
  lift (try_map entry_of_row rows).

Definition storage_update_entry_status_by_transaction (transaction_id : TransactionId)
    (status : EntryStatus) : io StorageError nat :=
  let status_i16 := entry_status_to_i16 status in
  query (write_stmt [LockEntries (TransactionId_value transaction_id)]
    (update_entries (TransactionId_value transaction_id) status_i16)).

End storage.

(** ** Round trips of the codes *)

Lemma account_type_roundtrip t : i16_to_account_type (account_type_to_i16 t) = Ok t.
Proof. by destruct t. Qed.
Lemma transaction_status_roundtrip s :
  i16_to_transaction_status (transaction_status_to_i16 s) = Ok s.
Proof. by destruct s. Qed.
Lemma entry_type_roundtrip t : i16_to_entry_type (entry_type_to_i16 t) = Ok t.
Proof. by destruct t. Qed.
Lemma entry_status_roundtrip s : i16_to_entry_status (entry_status_to_i16 s) = Ok s.
Proof. by destruct s. Qed.
#[export] Hint Rewrite account_type_roundtrip transaction_status_roundtrip
  entry_type_roundtrip entry_status_roundtrip : fides.
