(* ===== verification/ServiceErrors.v ===== *)
(** * Service errors: [service/mod.rs] *)

From S2P Require Import Prelude.
From S2P Require Import Money Accounts Transactions Entries Validation StorageErrors.
Local Open Scope Z_scope.

Inductive ServiceError :=
| ServiceError_AccountNotFound (account_id : Z)
| ServiceError_TransactionNotFound (transaction_id : Z)
| ServiceError_InsufficientFunds (account_id available requested : Z)
| ServiceError_InvalidTransactionState (transaction_id : Z) (current : TransactionStatus)
    (attempted : string)
| ServiceError_DuplicateTransaction (idempotency_key : string)
| ServiceError_UnbalancedTransaction (total_debits total_credits : Z)
| ServiceError_InvalidArgument (msg : string)
| ServiceError_VersionConflict (entity : string) (id : Z)
| ServiceError_Internal (msg : string).
#[export] Instance ServiceError_eq_dec : EqDecision ServiceError.
Proof. solve_decision. Defined.

Definition ServiceError_to_string (self : ServiceError) : string :=
  match self with
  | ServiceError_AccountNotFound account_id => "account " +:+ pretty account_id +:+ " not found"
  | ServiceError_TransactionNotFound transaction_id =>
      "transaction " +:+ pretty transaction_id +:+ " not found"
  | ServiceError_InsufficientFunds account_id available requested =>
      "insufficient funds on account " +:+ pretty account_id +:+ ": available "
        +:+ pretty available +:+ ", requested " +:+ pretty requested
  | ServiceError_InvalidTransactionState transaction_id current attempted =>
      "cannot " +:+ attempted +:+ " transaction " +:+ pretty transaction_id
        +:+ ": current state " +:+ TransactionStatus_debug current
  | ServiceError_DuplicateTransaction idempotency_key =>
      "duplicate transaction with key " +:+ idempotency_key
  | ServiceError_UnbalancedTransaction total_debits total_credits =>
      "unbalanced transaction: debits " +:+ pretty total_debits
        +:+ " != credits " +:+ pretty total_credits
  | ServiceError_InvalidArgument msg => "invalid argument: " +:+ msg
  | ServiceError_VersionConflict entity id =>
      "version conflict on " +:+ entity +:+ " " +:+ pretty id +:+ ", retry"
  | ServiceError_Internal msg => "internal error: " +:+ msg
  end.

(** ** [impl From<_> for ServiceError] *)

Definition ServiceError_from_storage (e : StorageError) : ServiceError :=
  match e with
  | StorageError_VersionConflict entity id _ _ => ServiceError_VersionConflict entity id
  | StorageError_DuplicateKey key => ServiceError_DuplicateTransaction key
  | StorageError_DataCorruption msg => ServiceError_Internal msg
  | StorageError_Database e => ServiceError_Internal (SqlxError_to_string e)
  end.

Definition ServiceError_from_validation (e : ValidationError) : ServiceError :=
  match e with
  | ValidationError_InsufficientLegs count =>
      ServiceError_InvalidArgument
        ("transaction requires at least 2 legs, got " +:+ pretty (Z.of_nat count))
  | ValidationError_UnbalancedTransaction total_debits total_credits =>
      ServiceError_UnbalancedTransaction total_debits total_credits
  | ValidationError_SumOverflow | ValidationError_BalanceOverflow =>
      ServiceError_Internal (ValidationError_to_string e)
  end.

Definition ServiceError_from_leg (e : TransferLegError) : ServiceError :=
  ServiceError_InvalidArgument (TransferLegError_to_string e).
Definition ServiceError_from_amount (e : AmountError) : ServiceError :=
  ServiceError_InvalidArgument (AmountError_to_string e).
Definition ServiceError_from_account (e : AccountError) : ServiceError :=
  ServiceError_InvalidArgument (AccountError_to_string e).
Definition ServiceError_from_entry (e : EntryError) : ServiceError :=
  ServiceError_InvalidArgument (EntryError_to_string e).
Definition ServiceError_from_transaction (e : TransactionError) : ServiceError :=
  ServiceError_InvalidArgument (TransactionError_to_string e).

(** ** [impl From<ServiceError> for tonic::Status] *)

(** The status codes of gRPC the sources use, by name. *)
Inductive Code :=
| Code_NotFound | Code_FailedPrecondition | Code_AlreadyExists
| Code_InvalidArgument | Code_Aborted | Code_Internal.
#[export] Instance Code_eq_dec : EqDecision Code.
Proof. solve_decision. Defined.

Record Status := mkStatus { Status_code : Code; Status_message : string }.

Definition Status_from (e : ServiceError) : Status :=
  match e with
  | ServiceError_AccountNotFound _ | ServiceError_TransactionNotFound _ =>
      mkStatus Code_NotFound (ServiceError_to_string e)
  | ServiceError_InsufficientFunds _ _ _ =>
      mkStatus Code_FailedPrecondition (ServiceError_to_string e)
  | ServiceError_InvalidTransactionState _ _ _ =>
      mkStatus Code_FailedPrecondition (ServiceError_to_string e)
  | ServiceError_DuplicateTransaction _ =>
      mkStatus Code_AlreadyExists (ServiceError_to_string e)
  | ServiceError_UnbalancedTransaction _ _ | ServiceError_InvalidArgument _ =>
      mkStatus Code_InvalidArgument (ServiceError_to_string e)
  | ServiceError_VersionConflict _ _ => mkStatus Code_Aborted (ServiceError_to_string e)
  | ServiceError_Internal _ => mkStatus Code_Internal "internal error"
  end.
