(* ===== verification/Ledger.v ===== *)
(** * The ledger service: [service/ledger.rs]

    One definition per RPC handler of [LedgerService], with the blocks the
    handlers share as definitions of their own.  A handler returns the response
    message or a [ServiceError]; [grpc] converts the error to the gRPC status
    that the client sees.  Messages are the records of [ledger.proto]. *)

From S2P Require Import Prelude.
From S2P Require Import Money Accounts Transactions Entries Validation.
From S2P Require Import StorageErrors Schema Cache Effects Postgres ServiceErrors.
Local Open Scope Z_scope.

(** ** Messages of [ledger.proto] *)

Record ProtoAccount := mkProtoAccount {
  pa_id : Z; pa_account_type : Z; pa_normal_balance : Z; pa_asset_code : string;
  pa_asset_scale : Z; pa_version : Z; pa_created_at : Z
}.
Record ProtoEntry := mkProtoEntry {
  pe_id : Z; pe_transaction_id : Z; pe_account_id : Z; pe_entry_type : Z;
  pe_amount : Z; pe_status : Z; pe_created_at : Z
}.
Record ProtoTransaction := mkProtoTransaction {
  pt_id : Z; pt_idempotency_key : string; pt_status : Z; pt_created_at : Z; pt_posted_at : Z
}.
Record ProtoBalance := mkProtoBalance { pb_posted : Z; pb_pending : Z; pb_available : Z }.
Record ProtoTransferLeg := mkProtoTransferLeg {
  pl_account_id : Z; pl_entry_type : Z; pl_amount : Z
}.
Record CreateAccountRequest := mkCreateAccountRequest {
  ca_account_type : Z; ca_asset_code : string; ca_asset_scale : Z
}.
Record AuthorizeRequest := mkAuthorizeRequest {
  au_idempotency_key : string; au_legs : list ProtoTransferLeg; au_metadata : string
}.
Record AuthorizeResponse := mkAuthorizeResponse {
  ar_transaction : ProtoTransaction; ar_entries : list ProtoEntry
}.

(** ** Conversions *)

Definition proto_to_account_type (value : Z) : result ServiceError AccountType :=
  match value with
  | 1 => Ok AccountType_Asset
  | 2 => Ok AccountType_Liability
  | 3 => Ok AccountType_Equity
  | 4 => Ok AccountType_Revenue
  | 5 => Ok AccountType_Expense
  | _ => Err (ServiceError_InvalidArgument ("invalid account_type: " +:+ pretty value))
  end.

Definition proto_to_entry_type (value : Z) : result ServiceError EntryType :=
  match value with
  | 1 => Ok EntryType_Debit
  | 2 => Ok EntryType_Credit
  | _ => Err (ServiceError_InvalidArgument ("invalid entry_type: " +:+ pretty value))
  end.

Definition parse_transfer_leg (leg : ProtoTransferLeg) : result ServiceError TransferLeg :=
  account_id ← map_err ServiceError_from_account (AccountId_new (pl_account_id leg));
  entry_type ← proto_to_entry_type (pl_entry_type leg);
  amount ← map_err ServiceError_from_amount (Amount_new (pl_amount leg));
  map_err ServiceError_from_leg (TransferLeg_new account_id entry_type amount).
Definition parse_transfer_legs (proto_legs : list ProtoTransferLeg)
  : result ServiceError (list TransferLeg) := try_map parse_transfer_leg proto_legs.

Definition account_type_to_proto (t : AccountType) : Z :=
  match t with
  | AccountType_Asset => 1
  | AccountType_Liability => 2
  | AccountType_Equity => 3
  | AccountType_Revenue => 4
  | AccountType_Expense => 5
  end.
Definition normal_balance_to_proto (n : NormalBalance) : Z :=
  match n with NormalBalance_Debit => 1 | NormalBalance_Credit => 2 end.
Definition entry_type_to_proto (t : EntryType) : Z :=
  match t with EntryType_Debit => 1 | EntryType_Credit => 2 end.
Definition entry_status_to_proto (s : EntryStatus) : Z :=
  match s with
  | EntryStatus_Pending => 1
  | EntryStatus_Posted => 2
  | EntryStatus_Voided => 3
  end.
Definition transaction_status_to_proto (s : TransactionStatus) : Z :=
  match s with
  | TransactionStatus_Pending => 1
  | TransactionStatus_Posted => 2
  | TransactionStatus_Voided => 3
  | TransactionStatus_Failed => 4
  end.

Definition account_to_proto (a : Account) : ProtoAccount :=
  mkProtoAccount (AccountId_value (Account_id a))
    (account_type_to_proto (Account_account_type a))
    (normal_balance_to_proto (Account_normal_balance a))
    (Account_asset_code a) (Account_asset_scale a) (Account_version a) (Account_created_at a).

Definition entry_to_proto (e : Entry) : ProtoEntry :=
  mkProtoEntry (EntryId_value (Entry_id e)) (TransactionId_value (Entry_transaction_id e))
    (AccountId_value (Entry_account_id e)) (entry_type_to_proto (Entry_entry_type e))
    (Amount_value (Entry_amount e)) (entry_status_to_proto (Entry_status e))
    (Entry_created_at e).

Definition transaction_to_proto `{JsonLib} (t : Transaction) : ProtoTransaction :=
  mkProtoTransaction (TransactionId_value (Transaction_id t)) (Transaction_idempotency_key t)
    (transaction_status_to_proto (Transaction_status t)) (Transaction_created_at t)
    (Transaction_posted_at t).

(** ** Balance updates: the vector of [(account, posted delta, pending delta)] *)

Abbreviation balance_updates := (list (AccountId * Z * Z)) (only parsing).

(** [if let Some(u) = updates.iter_mut().find(|(id, ..)| *id == account)
    { modify } else { updates.push(fresh) }] *)
Fixpoint upsert (account : AccountId) (modify : Z * Z -> Z * Z) (fresh : Z * Z)
    (updates : balance_updates) : balance_updates :=
  match updates with
  | [] => [(account, fresh.1, fresh.2)]
  | (id, p, q) :: updates =>
      if decide (id = account)
      then let '(p', q') := modify (p, q) in (id, p', q') :: updates
      else (id, p, q) :: upsert account modify fresh updates
  end.

(** A pending entry adds its delta to the pending balance. *)
Definition authorize_update (account : AccountId) (delta : Z) : balance_updates -> balance_updates :=
  upsert account (fun '(p, q) => (p, i64_wrap (q + delta))) (0, delta).
(** A capture moves the delta from pending to posted. *)
Definition capture_update (account : AccountId) (delta : Z) : balance_updates -> balance_updates :=
  upsert account (fun '(p, q) => (i64_wrap (p + delta), i64_wrap (q - delta)))
    (delta, i64_wrap (- delta)).
(** A void removes the delta from pending. *)
Definition void_update (account : AccountId) (delta : Z) : balance_updates -> balance_updates :=
  upsert account (fun '(p, q) => (p, i64_wrap (q - delta))) (0, i64_wrap (- delta)).

(** Whether a leg takes from the account's balance. *)
Definition reduces_balance (nb : NormalBalance) (ty : EntryType) : bool :=
  match nb, ty with
  | NormalBalance_Debit, EntryType_Credit => true
  | NormalBalance_Credit, EntryType_Debit => true
  | _, _ => false
  end.

Section handlers.
Context `{JsonLib, PgLib}.

Definition storage {A} (p : io StorageError A) : io ServiceError A :=
  io_map_err ServiceError_from_storage p.
Definition begin_tx : io ServiceError unit := storage storage_begin.
Definition commit_tx : io ServiceError unit :=
  perform_err Commit (fun e => ServiceError_Internal (SqlxError_to_string e)).
Definition counter (name : string) (labels : list (string * string)) : io ServiceError unit :=
  perform (Counter name labels).
Definition now_millis : io ServiceError Z := perform Now.
Definition cache_get (id : AccountId) : io ServiceError (option AccountBalance) :=
  perform (OnCache (fun c => (BalanceCache_get id c, c))).
Definition cache_set (id : AccountId) (posted pending : Z) : io ServiceError unit :=
  perform (OnCache (fun c => (tt, BalanceCache_set id posted pending c))).
Definition cache_apply_delta (id : AccountId) (dp dq : Z) : io ServiceError unit :=
  perform (OnCache (fun c => (tt, BalanceCache_apply_delta id dp dq c))).

(** [accounts.iter().find(|a| a.id() == id).unwrap()] *)
Definition find_account (id : AccountId) (accts : list Account) : io ServiceError Account :=
  unwrap (head (filter (fun a => Account_id a = id) accts)).

(** ** Shared blocks *)

(** Lock the accounts in the order of their ids, each once. *)
Definition lock_accounts (ids : list AccountId) : io ServiceError (list Account) :=
  let account_ids := dedup (merge_sort Z.le ids) in
  io_map (fun account_id =>
    account ← storage (storage_get_account_for_update account_id);
    lift (ok_or (ServiceError_AccountNotFound (AccountId_value account_id)) account))
    account_ids.

(** Send the accumulated updates, each with the version read under the lock. *)
Definition apply_balance_updates (accts : list Account) (updates : balance_updates)
  : io ServiceError unit :=
  io_iter (fun '(account_id, posted_delta, pending_delta) =>
    account ← find_account account_id accts;
    storage (storage_update_account_balance account_id (Account_version account)
               posted_delta pending_delta)) updates.

(** After the commit, the same deltas go to the cache. *)
Definition update_cache (updates : balance_updates) : io ServiceError unit :=
  io_iter (fun '(account_id, posted_delta, pending_delta) =>
    cache_apply_delta account_id posted_delta pending_delta) updates.

(** The delta an entry has on its account, added to the updates. *)
Definition settle_updates (update : AccountId -> Z -> balance_updates -> balance_updates)
    (accts : list Account) (es : list Entry) : io ServiceError balance_updates :=
  io_fold (fun updates entry =>
    account ← find_account (Entry_account_id entry) accts;
    let delta := compute_balance_delta (Account_normal_balance account)
                   (Entry_entry_type entry) (Entry_amount entry) in
    mret (update (Entry_account_id entry) delta updates)) [] es.

(** ** [CreateAccount] *)

Definition create_account (req : CreateAccountRequest) : io ServiceError ProtoAccount :=
  account_type ← lift (proto_to_account_type (ca_account_type req));
  let asset_code := ca_asset_code req in
  let asset_scale := as_u8 (ca_asset_scale req) in
  if decide (asset_code = "")
  then throw (ServiceError_InvalidArgument "asset_code is required")
  else if decide (asset_scale > 18)
  then throw (ServiceError_InvalidArgument
                ("asset_scale " +:+ pretty asset_scale +:+ " exceeds max 18"))
  else
    now ← now_millis;
    begin_tx;;
    account_id ← storage (storage_create_account account_type asset_code asset_scale now);
    commit_tx;;
    cache_set account_id 0 0;;
    account ← lift (map_err ServiceError_from_account
                      (Account_new account_id account_type asset_code asset_scale 0 now));
    mret (account_to_proto account).

(** ** [GetAccount], [GetBalance] *)

Definition get_account (account_id : Z) : io ServiceError ProtoAccount :=
  account_id ← lift (map_err ServiceError_from_account (AccountId_new account_id));
  begin_tx;;
  account ← storage (storage_get_account account_id);
  account ← lift (ok_or (ServiceError_AccountNotFound (AccountId_value account_id)) account);
  commit_tx;;
  mret (account_to_proto account).

Definition get_balance (account_id : Z) : io ServiceError ProtoBalance :=
  account_id ← lift (map_err ServiceError_from_account (AccountId_new account_id));
  balance ← cache_get account_id;
  balance ← lift (ok_or (ServiceError_AccountNotFound (AccountId_value account_id)) balance);
  mret (mkProtoBalance (AccountBalance_posted balance) (AccountBalance_pending balance)
          (AccountBalance_available balance)).

(** ** [Authorize] *)

Definition parse_metadata (metadata : string) : result ServiceError JsonValue :=
  if decide (metadata = "") then Ok json_empty_object
  else map_err (fun e => ServiceError_InvalidArgument ("invalid metadata json: " +:+ e))
         (json_from_str metadata).

(** The available balance of the cache covers every leg that takes from an
    account, leg by leg. *)
Definition check_available (accts : list Account) (legs : list TransferLeg)
  : io ServiceError unit :=
  io_iter (fun leg =>
    account ← find_account (TransferLeg_account_id leg) accts;
    if reduces_balance (Account_normal_balance account) (TransferLeg_entry_type leg) then
      balance ← cache_get (TransferLeg_account_id leg);
      balance ← lift (ok_or (ServiceError_AccountNotFound
                               (AccountId_value (TransferLeg_account_id leg))) balance);
      if AccountBalance_has_available balance (TransferLeg_amount leg) then mret tt
      else
        counter "fides_insufficient_funds_total" [];;
        throw (ServiceError_InsufficientFunds (AccountId_value (TransferLeg_account_id leg))
                 (AccountBalance_available balance) (Amount_value (TransferLeg_amount leg)))
    else mret tt) legs.

(** One iteration of the loop that creates the entries and accumulates the
    deltas. *)
Definition authorize_leg (transaction_id : TransactionId) (now : Z) (accts : list Account)
    (acc : list Entry * balance_updates) (leg : TransferLeg)
  : io ServiceError (list Entry * balance_updates) :=
  account ← find_account (TransferLeg_account_id leg) accts;
  entry_id ← storage (storage_create_entry transaction_id (TransferLeg_account_id leg)
      (TransferLeg_entry_type leg) (TransferLeg_amount leg) EntryStatus_Pending now);
  entry ← lift (map_err ServiceError_from_entry
      (Entry_new entry_id transaction_id (TransferLeg_account_id leg)
         (TransferLeg_entry_type leg) (TransferLeg_amount leg) EntryStatus_Pending now));
  let delta := compute_balance_delta (Account_normal_balance account)
                 (TransferLeg_entry_type leg) (TransferLeg_amount leg) in
  mret (acc.1 ++ [entry], authorize_update (TransferLeg_account_id leg) delta acc.2).

(** The branch taken when the key is already known. *)
Definition authorize_existing (existing : Transaction) : io ServiceError AuthorizeResponse :=
  es ← storage (storage_get_entries_for_transaction (Transaction_id existing));
  commit_tx;;
  counter "fides_idempotent_hits_total" [("method", "authorize")];;
  mret (mkAuthorizeResponse (transaction_to_proto existing) (entry_to_proto <$> es)).

(** The branch that creates a pending transaction. *)
Definition authorize_new (key : string) (metadata : JsonValue) (legs : list TransferLeg)
    (now : Z) : io ServiceError AuthorizeResponse :=
  accts ← lock_accounts (TransferLeg_account_id <$> legs);
  check_available accts legs;;
  transaction_id ← storage (storage_create_transaction key TransactionStatus_Pending
      metadata now None);
  acc ← io_fold (authorize_leg transaction_id now accts) ([], []) legs;
  apply_balance_updates accts acc.2;;
  commit_tx;;
  update_cache acc.2;;
  counter "fides_transactions_total" [("status", "pending")];;
  transaction ← lift (map_err ServiceError_from_transaction
      (Transaction_new transaction_id key TransactionStatus_Pending metadata now 0));
  mret (mkAuthorizeResponse (transaction_to_proto transaction) (entry_to_proto <$> acc.1)).

Definition authorize (req : AuthorizeRequest) : io ServiceError AuthorizeResponse :=
  if decide (au_idempotency_key req = "")
  then throw (ServiceError_InvalidArgument "idempotency_key is required")
  else
    metadata ← lift (parse_metadata (au_metadata req));
    legs ← lift (parse_transfer_legs (au_legs req));
    lift (map_err ServiceError_from_validation (validate_transaction_balance legs));;
    now ← now_millis;
    begin_tx;;
    existing ← storage (storage_find_transaction_by_key (au_idempotency_key req));
    match existing with
    | Some existing => authorize_existing existing
    | None => authorize_new (au_idempotency_key req) metadata legs now
    end.

(** ** [Capture] *)

Definition capture (transaction_id : Z) : io ServiceError ProtoTransaction :=
  transaction_id ← lift (map_err ServiceError_from_transaction (TransactionId_new transaction_id));
  now ← now_millis;
  begin_tx;;
  transaction ← storage (storage_get_transaction transaction_id);
  transaction ← lift (ok_or (ServiceError_TransactionNotFound
      (TransactionId_value transaction_id)) transaction);
  if decide (Transaction_status transaction = TransactionStatus_Posted) then
    commit_tx;;
    counter "fides_idempotent_hits_total" [("method", "capture")];;
    mret (transaction_to_proto transaction)
  else if decide (Transaction_status transaction <> TransactionStatus_Pending) then
    throw (ServiceError_InvalidTransactionState (TransactionId_value transaction_id)
             (Transaction_status transaction) "capture")
  else
    es ← storage (storage_get_entries_for_transaction transaction_id);
    accts ← lock_accounts (Entry_account_id <$> es);
    updates ← settle_updates capture_update accts es;
    storage (storage_update_transaction_status transaction_id TransactionStatus_Posted (Some now));;
    storage (storage_update_entry_status_by_transaction transaction_id EntryStatus_Posted);;
    apply_balance_updates accts updates;;
    commit_tx;;
    update_cache updates;;
    counter "fides_transactions_total" [("status", "posted")];;
    updated ← lift (map_err ServiceError_from_transaction
      (Transaction_new transaction_id (Transaction_idempotency_key transaction)
         TransactionStatus_Posted (Transaction_metadata transaction)
         (Transaction_created_at transaction) now));
    mret (transaction_to_proto updated).

(** ** [Void] *)

Definition void (transaction_id : Z) : io ServiceError ProtoTransaction :=
  transaction_id ← lift (map_err ServiceError_from_transaction (TransactionId_new transaction_id));
  begin_tx;;
  transaction ← storage (storage_get_transaction transaction_id);
  transaction ← lift (ok_or (ServiceError_TransactionNotFound
      (TransactionId_value transaction_id)) transaction);
  if decide (Transaction_status transaction = TransactionStatus_Voided) then
    commit_tx;;
    counter "fides_idempotent_hits_total" [("method", "void")];;
    mret (transaction_to_proto transaction)
  else if decide (Transaction_status transaction <> TransactionStatus_Pending) then
    throw (ServiceError_InvalidTransactionState (TransactionId_value transaction_id)
             (Transaction_status transaction) "void")
  else
    es ← storage (storage_get_entries_for_transaction transaction_id);
    accts ← lock_accounts (Entry_account_id <$> es);
    updates ← settle_updates void_update accts es;
    storage (storage_update_transaction_status transaction_id TransactionStatus_Voided None);;
    storage (storage_update_entry_status_by_transaction transaction_id EntryStatus_Voided);;
    apply_balance_updates accts updates;;
    commit_tx;;
    update_cache updates;;
    counter "fides_transactions_total" [("status", "voided")];;
    updated ← lift (map_err ServiceError_from_transaction
      (Transaction_new transaction_id (Transaction_idempotency_key transaction)
         TransactionStatus_Voided (Transaction_metadata transaction)
         (Transaction_created_at transaction) 0));
    mret (transaction_to_proto updated).

(** ** [GetEntries]: the messages the stream carries, in order *)

Definition get_entries (account_id : Z) : io ServiceError (list ProtoEntry) :=
  account_id ← lift (map_err ServiceError_from_account (AccountId_new account_id));
  begin_tx;;
  account ← storage (storage_get_account account_id);
  lift (ok_or (ServiceError_AccountNotFound (AccountId_value account_id)) account);;
  es ← storage (storage_get_entries_for_account account_id);
  commit_tx;;
  mret (entry_to_proto <$> es).

(** The error a client sees. *)
Definition grpc {A} (p : io ServiceError A) : io Status A := io_map_err Status_from p.

End handlers.
