(* ===== verification/Invariant.v ===== *)
(** * Invariant: what every committed state of the ledger satisfies

    [db_ok] collects, for the three tables and the sequences:
    - every row satisfies the constraints of the schema and decodes;
    - every entry belongs to an existing account and transaction, and has the
      status of its transaction;
    - every transaction has at least two entries whose debits equal its credits;
    - every account's materialized balances are the signed sums of its posted and
      of its pending entries;
    - no two transactions share an idempotency key. *)

From S2P Require Import Prelude.
From S2P Require Import Money Accounts Transactions Entries Validation.
From S2P Require Import StorageErrors Schema Cache Effects Postgres.
Local Open Scope Z_scope.

(** ** Codes as domain values *)

Definition code_normal (account_type : Z) : NormalBalance :=
  match i16_to_account_type account_type with
  | Ok t => AccountType_normal_balance t
  | Err _ => NormalBalance_Credit
  end.
Definition code_side (entry_type : Z) : EntryType :=
  match i16_to_entry_type entry_type with Ok t => t | Err _ => EntryType_Credit end.
Definition code_entry_status (status : Z) : EntryStatus :=
  match i16_to_entry_status status with Ok s => s | Err _ => EntryStatus_Voided end.

(** The signed effect of an entry on an account of a given type. *)
Definition row_signed (account_type : Z) (e : entries_row) : Z :=
  entry_sign (code_normal account_type) (code_side (e_entry_type e)) * e_amount e.

(** ** Sums over the entries table *)

(** The balance of account [a] in a status, recomputed from the entries. *)
Definition account_sum (status a account_type : Z) (es : gmap Z entries_row) : Z :=
  map_Zsum (fun e => if decide (e_account_id e = a /\ e_status e = status)
                     then row_signed account_type e else 0) es.
(** The debits or the credits of a transaction. *)
Definition txn_total (side : EntryType) (t : Z) (es : gmap Z entries_row) : Z :=
  map_Zsum (fun e => if decide (e_transaction_id e = t)
                     then on_side side (code_side (e_entry_type e)) (e_amount e) else 0) es.
Definition txn_count (t : Z) (es : gmap Z entries_row) : Z :=
  map_Zsum (fun e => if decide (e_transaction_id e = t) then 1 else 0) es.

(** ** Rows *)

Record account_row_ok (r : accounts_row) : Prop := {
  ar_check : accounts_check r;
  ar_code : a_asset_code r <> "";
  ar_posted_range : in_i64 (a_posted_balance r);
  ar_pending_range : in_i64 (a_pending_balance r);
  ar_version_range : in_i32 (a_version r)
}.

Record account_ok (s : sequences) (es : gmap Z entries_row) (id : Z) (r : accounts_row)
  : Prop := {
  ao_row : account_row_ok r;
  ao_id : 0 < id < accounts_id_seq s;
  ao_posted : a_posted_balance r = account_sum 2 id (a_account_type r) es;
  ao_pending : a_pending_balance r = account_sum 1 id (a_account_type r) es
}.

Record transaction_row_ok `{JsonLib} (r : transactions_row) : Prop := {
  tr_check : transactions_check r;
  tr_key : t_idempotency_key r <> "";
  tr_status : 1 <= t_status r <= 3;
  tr_posted : t_status r = 2 <-> is_Some (t_posted_at r)
}.

Record transaction_ok `{JsonLib} (s : sequences) (es : gmap Z entries_row) (id : Z)
    (r : transactions_row) : Prop := {
  to_row : transaction_row_ok r;
  to_id : 0 < id < transactions_id_seq s;
  to_balanced : txn_total EntryType_Debit id es = txn_total EntryType_Credit id es;
  to_fits : txn_total EntryType_Debit id es <= i64_max;
  to_count : 2 <= txn_count id es
}.

Record entry_row_ok (e : entries_row) : Prop := {
  er_check : entries_check e;
  er_amount : e_amount e <= i64_max
}.

Record entry_ok `{JsonLib} (db : database) (s : sequences) (id : Z) (e : entries_row)
  : Prop := {
  eo_row : entry_row_ok e;
  eo_id : 0 < id < entries_id_seq s;
  eo_account : is_Some (accounts db !! e_account_id e);
  eo_transaction : exists r, transactions db !! e_transaction_id e = Some r /\
                             t_status r = e_status e
}.

Record db_ok `{JsonLib} (db : database) (s : sequences) : Prop := {
  ok_accounts : forall id r, accounts db !! id = Some r -> account_ok s (entries db) id r;
  ok_transactions : forall id r, transactions db !! id = Some r ->
    transaction_ok s (entries db) id r;
  ok_entries : forall id e, entries db !! id = Some e -> entry_ok db s id e;
  ok_keys : forall id1 id2 r1 r2, transactions db !! id1 = Some r1 ->
    transactions db !! id2 = Some r2 -> t_idempotency_key r1 = t_idempotency_key r2 ->
    id1 = id2;
  ok_seqs : 0 < accounts_id_seq s /\ 0 < transactions_id_seq s /\ 0 < entries_id_seq s
}.

(** The cache mirrors the balances of the accounts table. *)
Definition mirror (acs : gmap Z accounts_row) : BalanceCache :=
  (fun r => mkCachedBalance (a_posted_balance r) (a_pending_balance r)) <$> acs.

(** ** Domain values of valid rows *)

Definition account_view (id : Z) (r : accounts_row) : Account :=
  mkAccount id
    (match i16_to_account_type (a_account_type r) with Ok t => t | Err _ => AccountType_Asset end)
    (a_asset_code r) (a_asset_scale r) (a_version r) (a_created_at r).
Definition code_txn_status (status : Z) : TransactionStatus :=
  match i16_to_transaction_status status with Ok s => s | Err _ => TransactionStatus_Failed end.
Definition transaction_view `{JsonLib} (id : Z) (r : transactions_row) : Transaction :=
  mkTransaction _ id (t_idempotency_key r) (code_txn_status (t_status r)) (t_metadata r)
    (t_created_at r) (default 0 (t_posted_at r)).
Definition entry_view (r : Z * entries_row) : Entry :=
  mkEntry r.1 (e_transaction_id r.2) (e_account_id r.2) (code_side (e_entry_type r.2))
    (e_amount r.2) (code_entry_status (e_status r.2)) (e_created_at r.2).

(** Case analysis on a code in a small range. *)
Lemma code_cases_5 z : 1 <= z <= 5 -> z = 1 \/ z = 2 \/ z = 3 \/ z = 4 \/ z = 5.
Proof. lia. Qed.
Lemma code_cases_3 z : 1 <= z <= 3 -> z = 1 \/ z = 2 \/ z = 3.
Proof. lia. Qed.
Lemma code_cases_2 z : 1 <= z <= 2 -> z = 1 \/ z = 2.
Proof. lia. Qed.

Lemma account_of_row_ok id r :
  account_row_ok r -> account_of_row (id, r) = Ok (account_view id r).
Proof.
  intros [(Hty & Hsc & Hv & Hcr) Hcode _ _ _].
  unfold account_of_row, build_account, account_view. cbn.
  rewrite (as_u8_id (a_asset_scale r)) by lia.
  apply code_cases_5 in Hty.
  destruct Hty as [->|[->|[->|[->| ->]]]]; cbn; unfold Account_new, AccountId_from_raw;
    repeat case_decide; (done || lia).
Qed.

Lemma account_view_normal id r :
  account_row_ok r ->
  Account_normal_balance (account_view id r) = code_normal (a_account_type r).
Proof.
  intros [(Hty & _) _ _ _ _]. unfold Account_normal_balance, account_view, code_normal. cbn.
  apply code_cases_5 in Hty. by destruct Hty as [->|[->|[->|[->| ->]]]].
Qed.

Lemma transaction_of_row_ok `{JsonLib} id r :
  transaction_row_ok r -> transaction_of_row (id, r) = Ok (transaction_view id r).
Proof.
  intros [(_ & Hcr & Hp) Hkey Hst Hpost].
  unfold transaction_of_row, build_transaction, transaction_view, code_txn_status. cbn.
  apply code_cases_3 in Hst.
  destruct Hst as [Hst|[Hst|Hst]]; rewrite Hst in *; cbn;
    unfold Transaction_new, TransactionId_from_raw; destruct (t_posted_at r) as [p|]; cbn;
    repeat case_decide; try done; try lia; exfalso;
    first [destruct Hpost as [_ Hpost]; specialize (Hpost ltac:(eauto)); lia
          |destruct Hpost as [Hpost _]; destruct (Hpost eq_refl); done].
Qed.

Lemma entry_of_row_ok r : entry_row_ok r.2 -> entry_of_row r = Ok (entry_view r).
Proof.
  intros [(Hty & Ham & Hst & Hcr) _].
  unfold entry_of_row, build_entry, entry_view, code_side, code_entry_status. cbn.
  apply code_cases_2 in Hty. apply code_cases_3 in Hst.
  destruct Hty as [-> | ->], Hst as [-> |[-> | ->]]; cbn; unfold Entry_new, Amount_value,
    EntryId_from_raw, TransactionId_from_raw, AccountId_from_raw, Amount_from_raw;
    repeat case_decide; (done || lia).
Qed.

Lemma try_map_entry_of_row rows :
  (forall r, r ∈ rows -> entry_row_ok r.2) ->
  try_map entry_of_row rows = Ok (entry_view <$> rows).
Proof.
  induction rows as [|r rows IH]; intros Hr; [done|]. simpl.
  rewrite entry_of_row_ok by set_solver. simpl. rewrite IH by set_solver. done.
Qed.
