(* ===== verification/Updates.v ===== *)
(** * Updates: the arithmetic of balance updates

    What the accumulated vector of deltas contains, what the updates do to the
    accounts table and to the cache, and what appending rows does to sums over
    the entries table. *)

From S2P Require Import Prelude.
From S2P Require Import Money Accounts Transactions Entries Validation.
From S2P Require Import StorageErrors Schema Cache Effects Postgres ServiceErrors Ledger.
From S2P Require Import Invariant.
Local Open Scope Z_scope.

(** ** Accumulating deltas *)

(** The total delta of an account in a list of [(account, delta)]. *)
Definition delta_of (items : list (Z * Z)) (a : Z) : Z :=
  Zsum (fun x => if decide (x.1 = a) then x.2 else 0) items.
Definition small (z : Z) : Prop := - i64_max <= z <= i64_max.

Lemma delta_of_app items items' a :
  delta_of (items ++ items') a = delta_of items a + delta_of items' a.
Proof. apply Zsum_app. Qed.

Lemma delta_of_notin items a : a ∉ items.*1 -> delta_of items a = 0.
Proof.
  intros Ha. apply Zsum_zero. intros [b d] Hin. case_decide; [|done].
  simpl in *. subst. exfalso. apply Ha. apply list_elem_of_fmap. by exists (a, d).
Qed.

(** The shape of the vector after some items: each account once, with the
    coefficients [cp] and [cq] times its total delta. *)
Record updates_of (cp cq : Z) (items : list (Z * Z)) (u : list (Z * Z * Z)) : Prop := {
  uo_nodup : NoDup (fst <$> (fst <$> u));
  uo_values : forall a p q, (a, p, q) ∈ u ->
    p = cp * delta_of items a /\ q = cq * delta_of items a;
  uo_ids : forall a, a ∈ (fst <$> (fst <$> u)) <-> a ∈ items.*1
}.

Lemma updates_of_nil cp cq : updates_of cp cq [] [].
Proof. split; simpl; [constructor|set_solver|done]. Qed.

Section upsert.
Context (modify : Z -> Z * Z -> Z * Z) (fresh : Z -> Z * Z) (cp cq : Z).
Hypothesis modify_spec : forall S d, small S -> small d -> small (S + d) ->
  modify d (cp * S, cq * S) = (cp * (S + d), cq * (S + d)).
Hypothesis fresh_spec : forall d, small d -> fresh d = (cp * d, cq * d).

Lemma upsert_notin a m f u :
  a ∉ (fst <$> (fst <$> u)) -> upsert a m f u = u ++ [(a, f.1, f.2)].
Proof.
  induction u as [|[[b p] q] u IH]; intros Ha; simpl; [done|].
  case_decide; [set_solver|]. rewrite IH by set_solver. done.
Qed.

Lemma upsert_in a m f u1 p q u2 :
  a ∉ (fst <$> (fst <$> u1)) ->
  upsert a m f (u1 ++ (a, p, q) :: u2) = u1 ++ (a, (m (p, q)).1, (m (p, q)).2) :: u2.
Proof.
  induction u1 as [|[[b p'] q'] u1 IH]; intros Ha; simpl.
  - rewrite decide_True by done. by destruct (m (p, q)).
  - rewrite decide_False by set_solver. by rewrite IH by set_solver.
Qed.

Lemma delta_of_snoc items a d b :
  delta_of (items ++ [(a, d)]) b = delta_of items b + if decide (a = b) then d else 0.
Proof. rewrite delta_of_app. unfold delta_of at 2, Zsum; simpl. case_decide; lia. Qed.

Lemma update_id_elem a p q (u : list (Z * Z * Z)) :
  (a, p, q) ∈ u -> a ∈ (fst <$> (fst <$> u)).
Proof.
  intros Hin. apply list_elem_of_fmap. exists (a, p). split; [done|].
  apply list_elem_of_fmap. by exists (a, p, q).
Qed.

Lemma update_id_split a (u : list (Z * Z * Z)) :
  a ∈ (fst <$> (fst <$> u)) -> exists u1 p q u2, u = u1 ++ (a, p, q) :: u2.
Proof.
  intros Ha. apply list_elem_of_fmap in Ha as [[a' p] [-> Ha]].
  apply list_elem_of_fmap in Ha as [[[a'' p'] q] [Heq Ha]]. simpl in *. simplify_eq.
  apply list_elem_of_split in Ha as (u1 & u2 & ->). eauto.
Qed.

(** The account is already in the vector. *)
Lemma updates_of_modify items a d u1 p q u2 :
  updates_of cp cq items (u1 ++ (a, p, q) :: u2) ->
  small d -> small (delta_of items a) -> small (delta_of items a + d) ->
  updates_of cp cq (items ++ [(a, d)])
    (upsert a (modify d) (fresh d) (u1 ++ (a, p, q) :: u2)).
Proof.
  intros [Hnd Hv Hids] Hd HS HSd. rewrite !fmap_app, !fmap_cons in Hnd. simpl in Hnd.
  apply NoDup_app in Hnd as (Hnd1 & Hnd2 & [Hn3 Hnd3]%NoDup_cons).
  assert (a ∉ (fst <$> (fst <$> u1))) as Hn1.
  { intros Hin. apply (Hnd2 a Hin). set_solver. }
  rewrite upsert_in by done. destruct (Hv a p q ltac:(set_solver)) as [-> ->].
  rewrite modify_spec by done. split; simpl.
  - rewrite !fmap_app, !fmap_cons. simpl. apply NoDup_app. split_and!; [done|done|].
    by constructor.
  - intros b p q Hin. rewrite delta_of_snoc.
    apply elem_of_app in Hin as [Hin|[Hin|Hin]%elem_of_cons].
    + rewrite decide_False; [rewrite Z.add_0_r; apply Hv; set_solver|].
      intros <-. by apply Hn1, (update_id_elem a p q).
    + simplify_eq. by rewrite decide_True.
    + rewrite decide_False; [rewrite Z.add_0_r; apply Hv; set_solver|].
      intros <-. by apply Hn3, (update_id_elem a p q).
  - intros b. specialize (Hids b). rewrite !fmap_app, !fmap_cons in *. simpl in *.
    set_solver.
Qed.

(** The account is new. *)
Lemma updates_of_fresh items a d u :
  updates_of cp cq items u -> a ∉ (fst <$> (fst <$> u)) -> small d ->
  updates_of cp cq (items ++ [(a, d)]) (upsert a (modify d) (fresh d) u).
Proof.
  intros [Hnd Hv Hids] Ha Hd. rewrite upsert_notin, fresh_spec by done. simpl.
  assert (delta_of items a = 0) as H0 by (apply delta_of_notin; by rewrite <- Hids).
  split; simpl.
  - rewrite !fmap_app. simpl. apply NoDup_app. split_and!; [done| |apply NoDup_singleton].
    set_solver.
  - intros b p q Hin. rewrite delta_of_snoc.
    apply elem_of_app in Hin as [Hin|Hin%list_elem_of_singleton].
    + rewrite decide_False; [rewrite Z.add_0_r; by apply Hv|].
      intros <-. by apply Ha, (update_id_elem a p q).
    + simplify_eq. rewrite decide_True by done. by rewrite H0.
  - intros b. specialize (Hids b). rewrite !fmap_app in *. simpl in *. set_solver.
Qed.

Lemma updates_of_step items a d u :
  updates_of cp cq items u ->
  small d -> small (delta_of items a) -> small (delta_of items a + d) ->
  updates_of cp cq (items ++ [(a, d)]) (upsert a (modify d) (fresh d) u).
Proof.
  intros Hu Hd HS HSd. destruct (decide (a ∈ (fst <$> (fst <$> u)))) as [Ha|Ha].
  - apply update_id_split in Ha as (u1 & p & q & u2 & ->). by apply updates_of_modify.
  - by apply updates_of_fresh.
Qed.
End upsert.

Lemma authorize_update_step items a d u :
  updates_of 0 1 items u ->
  small d -> small (delta_of items a) -> small (delta_of items a + d) ->
  updates_of 0 1 (items ++ [(a, d)]) (authorize_update a d u).
Proof.
  apply (updates_of_step (fun d '(p, q) => (p, i64_wrap (q + d))) (fun d => (0, d))).
  - intros S e ???. rewrite i64_wrap_id by (unfold small in *; int_lia). f_equal; lia.
  - intros. f_equal; lia.
Qed.

Lemma capture_update_step items a d u :
  updates_of 1 (-1) items u ->
  small d -> small (delta_of items a) -> small (delta_of items a + d) ->
  updates_of 1 (-1) (items ++ [(a, d)]) (capture_update a d u).
Proof.
  apply (updates_of_step (fun d '(p, q) => (i64_wrap (p + d), i64_wrap (q - d)))
           (fun d => (d, i64_wrap (- d)))).
  - intros S e ???. rewrite !i64_wrap_id by (unfold small in *; int_lia). f_equal; lia.
  - intros. rewrite i64_wrap_id by (unfold small in *; int_lia). f_equal; lia.
Qed.

Lemma void_update_step items a d u :
  updates_of 0 (-1) items u ->
  small d -> small (delta_of items a) -> small (delta_of items a + d) ->
  updates_of 0 (-1) (items ++ [(a, d)]) (void_update a d u).
Proof.
  apply (updates_of_step (fun d '(p, q) => (p, i64_wrap (q - d)))
           (fun d => (0, i64_wrap (- d)))).
  - intros S e ???. rewrite i64_wrap_id by (unfold small in *; int_lia). f_equal; lia.
  - intros. rewrite i64_wrap_id by (unfold small in *; int_lia). f_equal; lia.
Qed.

(** ** Applying updates to the accounts table *)

(** The row after one update. *)
Definition bump (dp dq : Z) (r : accounts_row) : accounts_row :=
  set_balances r (a_posted_balance r + dp) (a_pending_balance r + dq) (a_version r + 1).

Definition apply_updates (u : list (Z * Z * Z)) (acs : gmap Z accounts_row)
  : gmap Z accounts_row :=
  foldl (fun acs '(a, dp, dq) => alter (bump dp dq) a acs) acs u.

Lemma apply_updates_app u u' acs :
  apply_updates (u ++ u') acs = apply_updates u' (apply_updates u acs).
Proof. apply foldl_app. Qed.

Lemma apply_updates_notin u acs a :
  a ∉ (fst <$> (fst <$> u)) -> apply_updates u acs !! a = acs !! a.
Proof.
  revert acs. induction u as [|[[b p] q] u IH]; intros acs Ha; simpl; [done|].
  rewrite IH by set_solver. apply lookup_alter_ne. set_solver.
Qed.

Lemma apply_updates_in u acs a p q :
  NoDup (fst <$> (fst <$> u)) -> (a, p, q) ∈ u ->
  apply_updates u acs !! a = bump p q <$> acs !! a.
Proof.
  revert acs. induction u as [|[[b p'] q'] u IH]; intros acs Hnd Hin; simpl; [set_solver|].
  apply NoDup_cons in Hnd as [Hb Hnd]. apply elem_of_cons in Hin as [Heq|Hin].
  - simplify_eq. rewrite apply_updates_notin by done. apply lookup_alter_eq.
  - rewrite IH by done. rewrite lookup_alter_ne; [done|].
    intros ->. by apply Hb, (update_id_elem a p q).
Qed.

(** The table after the updates of a list of items: every account moved by the
    coefficients times its total delta; the version of a touched one is
    incremented. *)
Definition touch (cp cq : Z) (items : list (Z * Z)) (a : Z) (r : accounts_row)
  : accounts_row :=
  if decide (a ∈ items.*1)
  then bump (cp * delta_of items a) (cq * delta_of items a) r else r.

Lemma apply_updates_lookup cp cq items u acs a :
  updates_of cp cq items u ->
  apply_updates u acs !! a = touch cp cq items a <$> acs !! a.
Proof.
  intros [Hnd Hv Hids]. unfold touch. case_decide as Ha.
  - apply Hids, update_id_split in Ha as (u1 & p & q & u2 & ->).
    rewrite (apply_updates_in _ _ _ p q) by (done || set_solver).
    by destruct (Hv a p q ltac:(set_solver)) as [-> ->].
  - rewrite apply_updates_notin by (by rewrite Hids).
    by destruct (acs !! a).
Qed.

Lemma touch_account_type cp cq items a r :
  a_account_type (touch cp cq items a r) = a_account_type r.
Proof. unfold touch. by case_decide. Qed.

Lemma touch_posted cp cq items a r :
  a_posted_balance (touch cp cq items a r) = a_posted_balance r + cp * delta_of items a.
Proof.
  unfold touch. case_decide; [done|]. rewrite delta_of_notin by done. lia.
Qed.

Lemma touch_pending cp cq items a r :
  a_pending_balance (touch cp cq items a r) = a_pending_balance r + cq * delta_of items a.
Proof.
  unfold touch. case_decide; [done|]. rewrite delta_of_notin by done. lia.
Qed.

(** ** Applying updates to the cache *)

Definition apply_cache (u : list (Z * Z * Z)) (c : BalanceCache) : BalanceCache :=
  foldl (fun c '(a, dp, dq) => BalanceCache_apply_delta a dp dq c) c u.

(** As long as the balances fit, saturation never happens and the cache follows
    the table. *)
Lemma apply_cache_mirror u acs :
  NoDup (fst <$> (fst <$> u)) ->
  (forall a p q r, (a, p, q) ∈ u -> acs !! a = Some r ->
     in_i64 (a_posted_balance r + p) /\ in_i64 (a_pending_balance r + q)) ->
  apply_cache u (mirror acs) = mirror (apply_updates u acs).
Proof.
  revert acs. induction u as [|[[a p] q] u IH]; intros acs Hnd Hin; [done|].
  apply NoDup_cons in Hnd as [Ha Hnd].
  change (apply_cache u (BalanceCache_apply_delta a p q (mirror acs)) =
          mirror (apply_updates u (alter (bump p q) a acs))).
  replace (BalanceCache_apply_delta a p q (mirror acs))
    with (mirror (alter (bump p q) a acs)).
  - apply IH; [done|]. intros b p' q' r Hb Hr. simpl in *.
    rewrite lookup_alter_ne in Hr; [apply (Hin b); [set_solver|done]|].
    intros ->. by apply Ha, (update_id_elem b p' q').
  - unfold BalanceCache_apply_delta, mirror. apply map_eq. intros b.
    destruct (decide (a = b)) as [->|Hne].
    + rewrite lookup_fmap, !lookup_alter_eq, lookup_fmap.
      destruct (acs !! b) as [r|] eqn:Hr; [|done]. simpl.
      destruct (Hin b p q r ltac:(set_solver) Hr).
      unfold i64_saturating_add. by rewrite !i64_clamp_id.
    + rewrite lookup_fmap, !lookup_alter_ne, lookup_fmap by done. done.
Qed.

(** ** Appending rows to the entries table *)

(** The rows get consecutive ids. *)
Fixpoint append_rows (id : Z) (rows : list entries_row) (es : gmap Z entries_row)
  : gmap Z entries_row :=
  match rows with
  | [] => es
  | r :: rows => append_rows (id + 1) rows (<[id := r]> es)
  end.

Definition fresh_from (id : Z) {A} (m : gmap Z A) : Prop :=
  forall k x, m !! k = Some x -> k < id.

Lemma append_rows_app id rows rows' es :
  append_rows id (rows ++ rows') es =
    append_rows (id + Z.of_nat (length rows)) rows' (append_rows id rows es).
Proof.
  revert id es. induction rows as [|r rows IH]; intros id es; simpl.
  - by rewrite Z.add_0_r.
  - rewrite IH. f_equal. lia.
Qed.

Lemma append_rows_sum f id rows es :
  fresh_from id es ->
  map_Zsum f (append_rows id rows es) = map_Zsum f es + Zsum f rows.
Proof.
  revert id es. induction rows as [|r rows IH]; intros id es Hf; simpl.
  - unfold Zsum. simpl. lia.
  - rewrite IH.
    + rewrite Zsum_cons, map_Zsum_insert; [lia|].
      destruct (es !! id) as [x|] eqn:Hx; [|done]. apply Hf in Hx. lia.
    + intros k x. destruct (decide (id = k)) as [->|]; [lia|].
      rewrite lookup_insert_ne by done. intros Hx. apply Hf in Hx. lia.
Qed.

Lemma append_rows_lookup id rows es k x :
  append_rows id rows es !! k = Some x ->
  es !! k = Some x \/ (id <= k < id + Z.of_nat (length rows) /\ x ∈ rows).
Proof.
  revert id es. induction rows as [|r rows IH]; intros id es Hx; simpl in *; [by left|].
  apply IH in Hx as [Hx|[Hk Hx]].
  - destruct (decide (id = k)) as [->|Hne].
    + rewrite lookup_insert_eq in Hx. simplify_eq. right. split; [lia|set_solver].
    + rewrite lookup_insert_ne in Hx by done. by left.
  - right. split; [lia|set_solver].
Qed.

Lemma append_rows_old id rows es k x :
  fresh_from id es -> es !! k = Some x -> append_rows id rows es !! k = Some x.
Proof.
  revert id es. induction rows as [|r rows IH]; intros id es Hf Hx; simpl; [done|].
  pose proof (Hf _ _ Hx) as Hk. apply IH.
  - intros j y. destruct (decide (id = j)) as [->|]; [lia|].
    rewrite lookup_insert_ne by done. intros Hy. apply Hf in Hy. lia.
  - rewrite lookup_insert_ne by lia. done.
Qed.
