(* ===== verification/PostgresSpecs.v ===== *)
(** * Specifications of the storage methods

    One triple per method of [PostgresStorage] that runs in a transaction, from
    any view of the tables whose rows are valid. *)

From S2P Require Import Prelude.
From S2P Require Import Money Accounts Transactions Entries Validation.
From S2P Require Import StorageErrors Schema Cache Effects Triples Postgres.
From S2P Require Import ServiceErrors Ledger Invariant Updates.
Local Open Scope Z_scope.

Definition set_accounts `{JsonLib} (acs : gmap Z accounts_row) (db : database) : database :=
  mk_database _ acs (transactions db) (entries db).
Definition set_transactions `{JsonLib} (ts : gmap Z transactions_row) (db : database)
  : database := mk_database _ (accounts db) ts (entries db).
Definition set_entries `{JsonLib} (es : gmap Z entries_row) (db : database) : database :=
  mk_database _ (accounts db) (transactions db) es.

#[export] Instance id_le_total : Total id_le.
Proof. intros x y. unfold id_le. lia. Qed.
#[export] Instance id_le_trans : Transitive id_le.
Proof. intros x y z. unfold id_le. lia. Qed.

Section specs.
Context `{JsonLib, PgLib}.
Context (c : BalanceCache).
Implicit Types (db : database) (s : sequences).

Lemma tx_query {A : Set} (q : stmt A) db s (R : A -> database -> sequences -> Prop)
    (Er : StorageError -> Prop) :
  seqs_le s (stmt_exec q s db).1 ->
  match (stmt_exec q s db).2 with
  | Ok (a, db') => R a db' (stmt_exec q s db).1
  | Err e => Er (StorageError_from e)
  end ->
  tx c (query q) db s R Er.
Proof. apply tx_perform_query. Qed.

(** A query returns what it selects. *)
Lemma tx_read {A : Set} locks (f : database -> A) db s (R : A -> database -> sequences -> Prop)
    (Er : StorageError -> Prop) :
  R (f db) db s -> tx c (query (read_stmt locks f)) db s R Er.
Proof. intros HR. by apply tx_query. Qed.

(** Reading only. *)
Definition reads {A} (v : A) db s : A -> database -> sequences -> Prop :=
  fun a db' s' => a = v /\ db' = db /\ s' = s.

Lemma tx_reads_bind {E A B} (p : io E A) (k : A -> io E B) v db s R (Er : E -> Prop) :
  tx c p db s (reads v db s) Er -> tx c (k v) db s R Er -> tx c (x ← p; k x) db s R Er.
Proof. intros Hp Hk. eapply tx_bind; [exact Hp|]. by intros ??? (-> & -> & ->) _. Qed.

Lemma tx_ok_bind {E A B} (r : result E A) (k : A -> io E B) v db s R (Er : E -> Prop) :
  r = Ok v -> tx c (k v) db s R Er -> tx c (x ← lift r; k x) db s R Er.
Proof. intros ->. apply tx_reads_bind. by apply tx_lift. Qed.

Lemma tx_read_bind {A : Set} {B} locks (f : database -> A) (k : A -> io StorageError B) db s R
    (Er : StorageError -> Prop) :
  tx c (k (f db)) db s R Er -> tx c (x ← query (read_stmt locks f); k x) db s R Er.
Proof.
  apply tx_reads_bind. by apply tx_read.
Qed.

Lemma tx_get_account_for_update id db s :
  (forall r, accounts db !! id = Some r -> account_row_ok r) ->
  tx c (storage_get_account_for_update id) db s
    (reads (account_view id <$> accounts db !! id) db s) (fun _ => False).
Proof.
  intros Hok. apply tx_read_bind. apply tx_lift. unfold select_account, AccountId_value.
  destruct (accounts db !! id) as [r|]; simpl; [|done].
  rewrite account_of_row_ok by auto. done.
Qed.

Lemma tx_get_account id db s :
  (forall r, accounts db !! id = Some r -> account_row_ok r) ->
  tx c (storage_get_account id) db s
    (reads (account_view id <$> accounts db !! id) db s) (fun _ => False).
Proof.
  intros Hok. apply tx_read_bind. apply tx_lift. unfold select_account, AccountId_value.
  destruct (accounts db !! id) as [r|]; simpl; [|done].
  rewrite account_of_row_ok by auto. done.
Qed.

Lemma tx_get_transaction id db s :
  (forall r, transactions db !! id = Some r -> transaction_row_ok r) ->
  tx c (storage_get_transaction id) db s
    (reads (transaction_view id <$> transactions db !! id) db s) (fun _ => False).
Proof.
  intros Hok. apply tx_read_bind. apply tx_lift.
  unfold select_transaction, TransactionId_value.
  destruct (transactions db !! id) as [r|]; simpl; [|done].
  rewrite transaction_of_row_ok by auto. done.
Qed.

(** [find_key] finds a transaction with the key, if there is one. *)
Lemma find_key_Some key db id r :
  find_key key db = Some (id, r) -> transactions db !! id = Some r /\ t_idempotency_key r = key.
Proof.
  unfold find_key. intros Hh. apply head_Some_elem_of in Hh.
  apply list_elem_of_filter in Hh as [Hk Hin]. apply elem_of_map_to_list in Hin. done.
Qed.

Lemma find_key_None key db :
  find_key key db = None <->
  forall id r, transactions db !! id = Some r -> t_idempotency_key r <> key.
Proof.
  unfold find_key. rewrite head_None. split.
  - intros Hnil id r Hr Hk.
    assert ((id, r) ∈ filter (fun '(_, r) => t_idempotency_key r = key)
              (map_to_list (transactions db))) as Hin.
    { apply list_elem_of_filter. split; [done|]. by apply elem_of_map_to_list. }
    rewrite Hnil in Hin. set_solver.
  - intros Hno. destruct (filter _ _) as [|[id r] l] eqn:Hl; [done|].
    assert ((id, r) ∈ filter (fun '(_, r) => t_idempotency_key r = key)
              (map_to_list (transactions db))) as Hin by (rewrite Hl; set_solver).
    apply list_elem_of_filter in Hin as [Hk Hin]. apply elem_of_map_to_list in Hin.
    by apply Hno in Hin.
Qed.

Lemma tx_find_transaction_by_key key db s :
  (forall id r, transactions db !! id = Some r -> transaction_row_ok r) ->
  tx c (storage_find_transaction_by_key key) db s
    (reads ((fun '(id, r) => transaction_view id r) <$> find_key key db) db s) (fun _ => False).
Proof.
  intros Hok. apply tx_read_bind. apply tx_lift.
  destruct (find_key key db) as [[id r]|] eqn:Hf; simpl; [|done].
  apply find_key_Some in Hf as [Hr _].
  rewrite transaction_of_row_ok by eauto. done.
Qed.

(** The entries of a transaction, by id. *)
Definition entries_of (t : Z) db : list (Z * entries_row) := select_entries_of_transaction t db.

Lemma elem_of_entries_of t db k e :
  (k, e) ∈ entries_of t db <-> entries db !! k = Some e /\ e_transaction_id e = t.
Proof.
  unfold entries_of, select_entries_of_transaction.
  rewrite (merge_sort_Permutation id_le). rewrite list_elem_of_filter, elem_of_map_to_list.
  tauto.
Qed.

Lemma tx_get_entries_for_transaction t db s :
  (forall k e, entries db !! k = Some e -> entry_row_ok e) ->
  tx c (storage_get_entries_for_transaction t) db s
    (reads (entry_view <$> entries_of t db) db s) (fun _ => False).
Proof.
  intros Hok. apply tx_read_bind. apply tx_lift. fold (entries_of t db).
  rewrite try_map_entry_of_row; [done|].
  intros [k e] [He _]%elem_of_entries_of. simpl. eauto.
Qed.

Lemma tx_get_entries_for_account a db s :
  (forall k e, entries db !! k = Some e -> entry_row_ok e) ->
  tx c (storage_get_entries_for_account a) db s
    (reads (entry_view <$> select_entries_of_account a db) db s) (fun _ => False).
Proof.
  intros Hok. apply tx_read_bind. apply tx_lift.
  rewrite try_map_entry_of_row; [done|].
  intros [k e]. unfold select_entries_of_account.
  rewrite (merge_sort_Permutation id_le), list_elem_of_filter, elem_of_map_to_list.
  intros [_ He]. simpl. eauto.
Qed.

(** ** Writes *)

Lemma tx_create_account ty code scale now db s :
  tx c (storage_create_account ty code scale now) db s
    (fun id db' s' => exists code',
       id = accounts_id_seq s /\
       varchar_input 16 code = Ok code' /\ 0 <= scale <= 18 /\ 0 < now /\ in_i64 id /\
       db' = set_accounts (<[id := mk_accounts_row (account_type_to_i16 ty) code' scale
                                     0 0 0 now]> (accounts db)) db /\
       s' = mk_sequences (accounts_id_seq s + 1) (transactions_id_seq s) (entries_id_seq s))
    (fun _ => ~ (in_i64 (accounts_id_seq s) /\ is_ok (varchar_input 16 code) = true /\
                 0 <= scale <= 18 /\ 0 < now)).
Proof.
  eapply tx_bind with (R' := fun id db' s' => exists code',
       id = accounts_id_seq s /\
       varchar_input 16 code = Ok code' /\ 0 <= scale <= 18 /\ 0 < now /\ in_i64 id /\
       db' = set_accounts (<[id := mk_accounts_row (account_type_to_i16 ty) code' scale
                                     0 0 0 now]> (accounts db)) db /\
       s' = mk_sequences (accounts_id_seq s + 1) (transactions_id_seq s) (entries_id_seq s)).
  - apply tx_query; [repeat split; simpl; lia|]. simpl.
    unfold insert_account, bigint, varchar.
    destruct (decide (in_i64 (accounts_id_seq s))) as [Hr|Hr]; simpl; [|tauto].
    destruct (varchar_input 16 code) as [code'|e]; simpl; [|naive_solver].
    unfold accounts_check at 1. simpl.
    destruct (decide _) as [(?&?&?&?)|Hn]; simpl.
    + exists code'. done.
    + intros (_ & _ & ? & ?). apply Hn. split_and!; try done; destruct ty; simpl; lia.
  - intros id db' s' HR _. by apply tx_ret.
Qed.

Lemma tx_create_transaction key st md now posted db s :
  tx c (storage_create_transaction key st md now posted) db s
    (fun id db' s' => exists key' md',
       id = transactions_id_seq s /\
       varchar_input 64 key = Ok key' /\ jsonb_input md = Ok md' /\
       find_key key' db = None /\ in_i64 id /\
       transactions_check (mk_transactions_row _ key' (transaction_status_to_i16 st) md' now posted) /\
       db' = set_transactions (<[id := mk_transactions_row _ key' (transaction_status_to_i16 st)
                                     md' now posted]> (transactions db)) db /\
       s' = mk_sequences (accounts_id_seq s) (transactions_id_seq s + 1) (entries_id_seq s))
    (fun _ => ~ (in_i64 (transactions_id_seq s) /\ is_ok (jsonb_input md) = true /\ 0 < now /\
                 match posted with None => True | Some p => 0 < p end /\
                 exists key', varchar_input 64 key = Ok key' /\ find_key key' db = None)).
Proof.
  eapply tx_bind with (R' := fun id db' s' => exists key' md',
       id = transactions_id_seq s /\
       varchar_input 64 key = Ok key' /\ jsonb_input md = Ok md' /\
       find_key key' db = None /\ in_i64 id /\
       transactions_check (mk_transactions_row _ key' (transaction_status_to_i16 st) md' now posted) /\
       db' = set_transactions (<[id := mk_transactions_row _ key' (transaction_status_to_i16 st)
                                     md' now posted]> (transactions db)) db /\
       s' = mk_sequences (accounts_id_seq s) (transactions_id_seq s + 1) (entries_id_seq s)).
  - apply tx_query; [repeat split; simpl; lia|]. simpl.
    unfold insert_transaction, bigint, varchar, jsonb.
    destruct (decide (in_i64 (transactions_id_seq s))) as [Hr|Hr]; simpl; [|tauto].
    destruct (varchar_input 64 key) as [key'|e]; simpl; [|naive_solver].
    destruct (jsonb_input md) as [md'|e]; simpl; [|naive_solver].
    destruct (decide _) as [Hc|Hn]; simpl.
    + destruct (find_key key' db) as [x|] eqn:Hf; simpl; [naive_solver|].
      by exists key', md'.
    + intros (_ & _ & ? & ? & _). apply Hn. unfold transactions_check; simpl.
      split_and!; [destruct st; simpl; lia..|done|done].
  - intros id db' s' HR _. by apply tx_ret.
Qed.

Lemma tx_update_transaction_status id st posted r db s :
  transactions db !! id = Some r ->
  tx c (storage_update_transaction_status id st posted) db s
    (fun _ db' s' => s' = s /\
       transactions_check (set_transaction_status r (transaction_status_to_i16 st) posted) /\
       db' = set_transactions (<[id := set_transaction_status r (transaction_status_to_i16 st)
                                         posted]> (transactions db)) db)
    (fun _ => ~ transactions_check (set_transaction_status r (transaction_status_to_i16 st) posted)).
Proof.
  intros Hr. eapply tx_bind with (R' := fun n db' s' => n = 1%nat /\ s' = s /\
       transactions_check (set_transaction_status r (transaction_status_to_i16 st) posted) /\
       db' = set_transactions (<[id := set_transaction_status r (transaction_status_to_i16 st)
                                         posted]> (transactions db)) db).
  - apply tx_query; [done|]. simpl. unfold update_transaction, TransactionId_value.
    rewrite Hr. simpl. destruct (decide _); simpl; done.
  - intros n db' s' (-> & -> & ? & ->) _. by apply tx_ret.
Qed.

Definition leg_row (t : Z) (status now : Z) (leg : TransferLeg) : entries_row :=
  mk_entries_row t (TransferLeg_account_id leg) (entry_type_to_i16 (TransferLeg_entry_type leg))
    (TransferLeg_amount leg) status now.

Lemma tx_create_entry t leg st now db s :
  tx c (storage_create_entry t (TransferLeg_account_id leg) (TransferLeg_entry_type leg)
          (TransferLeg_amount leg) st now) db s
    (fun id db' s' => id = entries_id_seq s /\
       entries_check (leg_row t (entry_status_to_i16 st) now leg) /\
       db' = set_entries (<[id := leg_row t (entry_status_to_i16 st) now leg]> (entries db)) db /\
       s' = mk_sequences (accounts_id_seq s) (transactions_id_seq s) (entries_id_seq s + 1))
    (fun _ => ~ (in_i64 (entries_id_seq s) /\
                 entries_check (leg_row t (entry_status_to_i16 st) now leg) /\
                 is_Some (transactions db !! t) /\
                 is_Some (accounts db !! TransferLeg_account_id leg))).
Proof.
  eapply tx_bind with (R' := fun id db' s' => id = entries_id_seq s /\
       entries_check (leg_row t (entry_status_to_i16 st) now leg) /\
       db' = set_entries (<[id := leg_row t (entry_status_to_i16 st) now leg]> (entries db)) db /\
       s' = mk_sequences (accounts_id_seq s) (transactions_id_seq s) (entries_id_seq s + 1)).
  - apply tx_query; [repeat split; simpl; lia|]. simpl.
    unfold insert_entry, bigint, TransactionId_value, AccountId_value, Amount_value.
    fold (leg_row t (entry_status_to_i16 st) now leg).
    destruct (decide (in_i64 (entries_id_seq s))) as [Hr|Hr]; simpl; [|tauto].
    destruct (decide _) as [Hc|Hn]; simpl; [|tauto].
    destruct (decide _) as [[??]|Hn]; simpl; [done|tauto].
  - intros id db' s' HR _. by apply tx_ret.
Qed.

Definition settle_entries (t status : Z) (es : gmap Z entries_row) : gmap Z entries_row :=
  (fun e => if decide (e_transaction_id e = t) then set_entry_status e status else e) <$> es.

Lemma tx_update_entry_status t st db s :
  tx c (storage_update_entry_status_by_transaction t st) db s
    (fun _ db' s' => s' = s /\
       db' = set_entries (settle_entries t (entry_status_to_i16 st) (entries db)) db)
    (fun _ => False).
Proof.
  apply tx_query; [done|]. simpl. unfold update_entries, TransactionId_value.
  rewrite decide_True by (right; destruct st; simpl; lia). done.
Qed.

Lemma tx_update_account_balance id version dp dq r db s :
  accounts db !! id = Some r -> a_version r = version -> in_i32 version ->
  tx c (storage_update_account_balance id version dp dq) db s
    (fun _ db' s' => s' = s /\
       db' = set_accounts (alter (bump dp dq) id (accounts db)) db /\
       in_i64 (a_posted_balance r + dp) /\ in_i64 (a_pending_balance r + dq) /\
       in_i32 (version + 1))
    (fun _ => ~ (in_i64 (a_posted_balance r + dp) /\ in_i64 (a_pending_balance r + dq) /\
                 in_i32 (version + 1))).
Proof.
  intros Hr Hv Hi. eapply tx_bind with (R' := fun n db' s' => n = 1%nat /\ s' = s /\
       db' = set_accounts (alter (bump dp dq) id (accounts db)) db /\
       in_i64 (a_posted_balance r + dp) /\ in_i64 (a_pending_balance r + dq) /\
       in_i32 (version + 1)).
  - apply tx_query; [done|]. simpl. unfold update_account_balances, AccountId_value.
    rewrite Hr. rewrite (as_i32_id version) by done. rewrite decide_True by done.
    unfold bigint, integer. rewrite Hv.
    destruct (decide (in_i64 (_ + dp))) as [H1|H1]; simpl; [|tauto].
    destruct (decide (in_i64 (_ + dq))) as [H2|H2]; simpl; [|tauto].
    destruct (decide (in_i32 (_ + 1))) as [H3|H3]; simpl; [|tauto].
    split_and!; try done. unfold set_accounts. f_equal.
    apply map_eq. intros k. destruct (decide (id = k)) as [->|Hne].
    + rewrite lookup_insert_eq, lookup_alter_eq, Hr. simpl. f_equal. unfold bump.
      by rewrite Hv.
    + by rewrite lookup_insert_ne, lookup_alter_ne.
  - intros n db' s' (-> & HR) _. by apply tx_ret.
Qed.

End specs.
