(* ===== verification/LedgerSpecs.v ===== *)
(** * Specifications of the blocks the handlers share *)

From S2P Require Import Prelude.
From S2P Require Import Money Accounts Transactions Entries Validation.
From S2P Require Import StorageErrors Schema Cache Effects Triples Postgres.
From S2P Require Import ServiceErrors Ledger Invariant Updates PostgresSpecs.
Local Open Scope Z_scope.

(** ** Items: the account and the signed delta of an entry row *)

Definition item_of (acs : gmap Z accounts_row) (e : entries_row) : Z * Z :=
  (e_account_id e,
   match acs !! e_account_id e with
   | Some r => row_signed (a_account_type r) e
   | None => 0
   end).

(** The debits or the credits of a list of rows. *)
Definition rows_total (side : EntryType) (rows : list entries_row) : Z :=
  Zsum (fun e => on_side side (code_side (e_entry_type e)) (e_amount e)) rows.

Lemma delta_of_items (acs : gmap Z accounts_row) rows a r :
  acs !! a = Some r ->
  delta_of (item_of acs <$> rows) a =
    Zsum (fun e => if decide (e_account_id e = a) then row_signed (a_account_type r) e else 0) rows.
Proof.
  intros Hr. unfold delta_of. rewrite Zsum_fmap. apply Zsum_ext. intros e _.
  unfold item_of. simpl. case_decide as Ha; [|done]. by rewrite Ha, Hr.
Qed.

(** The delta of an account is at most the total of one side, in absolute value. *)
Lemma delta_of_bounds (acs : gmap Z accounts_row) rows a :
  (forall e, e ∈ rows -> 0 <= e_amount e) ->
  - Z.max (rows_total EntryType_Debit rows) (rows_total EntryType_Credit rows)
    <= delta_of (item_of acs <$> rows) a
    <= Z.max (rows_total EntryType_Debit rows) (rows_total EntryType_Credit rows).
Proof.
  intros Hpos. destruct (acs !! a) as [r|] eqn:Hr.
  - rewrite (delta_of_items _ _ _ r) by done.
    set (ty := a_account_type r).
    assert (match code_normal ty with
            | NormalBalance_Debit => - rows_total EntryType_Credit rows
            | NormalBalance_Credit => - rows_total EntryType_Debit rows end
            <= Zsum (fun e => if decide (e_account_id e = a) then row_signed ty e else 0) rows
            <= match code_normal ty with
               | NormalBalance_Debit => rows_total EntryType_Debit rows
               | NormalBalance_Credit => rows_total EntryType_Credit rows end) as Hb.
    { clear Hr. induction rows as [|e rows IH].
      - unfold rows_total, Zsum. simpl. destruct (code_normal ty); lia.
      - unfold rows_total in *. rewrite !Zsum_cons.
        pose proof (Hpos e ltac:(set_solver)).
        specialize (IH ltac:(set_solver)). unfold row_signed, entry_sign, on_side in *.
        destruct (code_normal ty), (code_side (e_entry_type e)); simpl in *;
          repeat (case_decide; simplify_eq); lia. }
    destruct (code_normal ty); lia.
  - assert (delta_of (item_of acs <$> rows) a = 0) as ->.
    { unfold delta_of. rewrite Zsum_fmap. apply Zsum_zero. intros e _.
      unfold item_of. simpl. case_decide as Ha; [|done]. by rewrite Ha, Hr. }
    assert (0 <= rows_total EntryType_Debit rows); [|lia].
    apply Zsum_nonneg. intros e He. apply on_side_nonneg. auto.
Qed.

Lemma rows_total_nonneg side rows :
  (forall e, e ∈ rows -> 0 <= e_amount e) -> 0 <= rows_total side rows.
Proof. intros Hp. apply Zsum_nonneg. intros e He. apply on_side_nonneg. auto. Qed.

(** A list of rows none of whose partial deltas overflows. *)
Definition rows_fit (rows : list entries_row) : Prop :=
  (forall e, e ∈ rows -> 0 < e_amount e <= i64_max) /\
  rows_total EntryType_Debit rows <= i64_max /\ rows_total EntryType_Credit rows <= i64_max.

Lemma rows_fit_prefix rows1 rows2 : rows_fit (rows1 ++ rows2) -> rows_fit rows1.
Proof.
  intros (Hp & Hd & Hc). unfold rows_total in *. rewrite Zsum_app in Hd, Hc.
  assert (forall side, 0 <= rows_total side rows2) as Hn.
  { intros side. apply rows_total_nonneg. intros e He.
    pose proof (Hp e ltac:(set_solver)). lia. }
  pose proof (Hn EntryType_Debit). pose proof (Hn EntryType_Credit).
  unfold rows_fit, rows_total in *. split_and!; [set_solver|lia|lia].
Qed.

Lemma rows_fit_small acs rows a : rows_fit rows -> small (delta_of (item_of acs <$> rows) a).
Proof.
  intros (Hp & Hd & Hc).
  pose proof (delta_of_bounds acs rows a) as Hb. unfold small.
  assert (forall e, e ∈ rows -> 0 <= e_amount e) as Hp'.
  { intros e He. pose proof (Hp e He). lia. }
  specialize (Hb Hp'). lia.
Qed.

Lemma row_signed_small ty e : 0 < e_amount e <= i64_max -> small (row_signed ty e).
Proof.
  intros. unfold small, row_signed, entry_sign.
  destruct (code_normal ty), (code_side (e_entry_type e)); lia.
Qed.

(** One more row, for any of the three kinds of update. *)
Lemma updates_of_row (upd : Z -> Z -> list (Z * Z * Z) -> list (Z * Z * Z)) cp cq acs
    rows e rest u r :
  (forall items a d u, updates_of cp cq items u -> small d -> small (delta_of items a) ->
     small (delta_of items a + d) -> updates_of cp cq (items ++ [(a, d)]) (upd a d u)) ->
  rows_fit (rows ++ e :: rest) -> acs !! e_account_id e = Some r ->
  updates_of cp cq (item_of acs <$> rows) u ->
  updates_of cp cq (item_of acs <$> (rows ++ [e]))
    (upd (e_account_id e) (row_signed (a_account_type r) e) u).
Proof.
  intros Hstep Hfit Hr Hu. rewrite fmap_app. simpl.
  assert (item_of acs e = (e_account_id e, row_signed (a_account_type r) e)) as ->
    by (unfold item_of; by rewrite Hr).
  assert (rows_fit (rows ++ [e])) as Hfit'.
  { apply (rows_fit_prefix _ rest). by rewrite <- (assoc_L (++)). }
  apply Hstep; [done| | |].
  - apply row_signed_small. apply Hfit. set_solver.
  - apply rows_fit_small. by apply rows_fit_prefix in Hfit'.
  - pose proof (rows_fit_small acs _ (e_account_id e) Hfit') as Hs.
    rewrite fmap_app, delta_of_app in Hs. unfold delta_of at 2 in Hs.
    simpl in Hs. unfold item_of at 2 in Hs. rewrite Hr in Hs.
    unfold Zsum at 1 in Hs. simpl in Hs. rewrite decide_True in Hs by done.
    rewrite Z.add_0_r in Hs. done.
Qed.

(** ** Locked accounts *)

(** The vector [accounts] holds the row of every account that matters, as read
    under its lock. *)
Definition locked `{JsonLib} (acs : gmap Z accounts_row) (accts : list Account)
    (a : Z) : Prop :=
  exists r, acs !! a = Some r /\ account_row_ok r /\
            head (filter (fun x => Account_id x = a) accts) = Some (account_view a r).

Lemma account_view_id a r : Account_id (account_view a r) = a.
Proof. done. Qed.

Lemma head_filter_views (acs : gmap Z accounts_row) ids accts a :
  Forall2 (fun id x => exists r, acs !! id = Some r /\ x = account_view id r) ids accts ->
  a ∈ ids ->
  exists r, acs !! a = Some r /\
            head (filter (fun x => Account_id x = a) accts) = Some (account_view a r).
Proof.
  induction 1 as [|id x ids accts (r & Hr & ->) _ IH]; intros Ha; [set_solver|].
  rewrite filter_cons, account_view_id. case_decide as Heq.
  - subst. exists r. done.
  - apply IH. set_solver.
Qed.

Section blocks.
Context `{JsonLib, PgLib}.
Context (c : BalanceCache).
Implicit Types (db : database) (s : sequences).

Lemma tx_storage {A} (p : io StorageError A) db s R (Er : ServiceError -> Prop) :
  tx c p db s R (fun e => Er (ServiceError_from_storage e)) -> tx c (storage p) db s R Er.
Proof. apply tx_map_err. Qed.

(** Every account is locked once, in the order of the ids, or the first missing
    one is reported. *)
Lemma tx_lock_accounts ids db s :
  (forall id r, accounts db !! id = Some r -> account_row_ok r) ->
  tx c (lock_accounts ids) db s
    (fun accts db' s' => db' = db /\ s' = s /\
       forall a, a ∈ ids -> locked (accounts db) accts a)
    (fun e => exists a, a ∈ ids /\ accounts db !! a = None /\
                        e = ServiceError_AccountNotFound a).
Proof.
  intros Hok. eapply tx_mono; [eapply (tx_io_map c _ _ _ _
    (fun id x => exists r, accounts db !! id = Some r /\ x = account_view id r)
    (fun e => exists a, a ∈ ids /\ accounts db !! a = None /\
                        e = ServiceError_AccountNotFound a))|..]; [|simpl|done].
  - intros a Ha. rewrite elem_of_dedup, (merge_sort_Permutation Z.le) in Ha.
    eapply tx_bind.
    + apply tx_storage. eapply tx_mono; [apply tx_get_account_for_update; eauto|done|done].
    + intros o db' s' (-> & -> & ->) _. apply tx_lift.
      destruct (accounts db !! a) as [r|] eqn:Hr; simpl; [|by exists a].
      split_and!; [done..|]. by exists r.
  - intros accts db' s' (-> & -> & Hf). split_and!; [done..|].
    intros a Ha. destruct (head_filter_views (accounts db)
      (dedup (merge_sort Z.le ids)) accts a) as (r & Hr & Hh).
    + done.
    + by rewrite elem_of_dedup, (merge_sort_Permutation Z.le).
    + exists r. eauto.
Qed.

Lemma tx_find_account a accts (acs : gmap Z accounts_row) db s (R : Account -> database -> sequences -> Prop) Er :
  locked acs accts a ->
  (forall r, acs !! a = Some r -> account_row_ok r -> R (account_view a r) db s) ->
  tx c (find_account a accts) db s R Er.
Proof.
  intros (r & Hr & Hok & Hh) HR. eapply tx_unwrap; [exact Hh|]. auto.
Qed.

(** The versions read under the locks still match, so an update fails only when
    a balance or the version leaves its range. *)
Definition update_fits (acs : gmap Z accounts_row) (x : Z * Z * Z) : Prop :=
  forall r, acs !! x.1.1 = Some r ->
    in_i64 (a_posted_balance r + x.1.2) /\ in_i64 (a_pending_balance r + x.2) /\
    in_i32 (a_version r + 1).

Lemma tx_apply_balance_updates accts u acs0 db s :
  NoDup (fst <$> (fst <$> u)) ->
  (forall a, a ∈ (fst <$> (fst <$> u)) -> locked acs0 accts a) ->
  accounts db = acs0 ->
  tx c (apply_balance_updates accts u) db s
    (fun _ db' s' => s' = s /\ db' = set_accounts (apply_updates u acs0) db /\
                     Forall (update_fits acs0) u)
    (fun _ => ~ Forall (update_fits acs0) u).
Proof.
  intros Hnd Hl Hdb.
  eapply tx_mono; [eapply (tx_io_iter c _ _ _ _ (fun dn db' s' => s' = s /\
      db' = set_accounts (apply_updates dn acs0) db /\ Forall (update_fits acs0) dn)
      (fun _ => ~ Forall (update_fits acs0) u))|..]; [| |done|done].
  - split_and!; [done| |constructor]. subst. by destruct db.
  - intros dn [[a p] q] rest db' s' Hu (-> & -> & Hfits).
    assert (a ∈ (fst <$> (fst <$> u))) as Ha
      by (rewrite Hu, !fmap_app, !fmap_cons; set_solver).
    eapply tx_bind; [eapply (tx_find_account a accts acs0 _ _
      (fun x db' s' => db' = set_accounts (apply_updates dn acs0) db /\ s' = s /\
         exists r, acs0 !! a = Some r /\ account_row_ok r /\ x = account_view a r)); eauto 10|].
    intros x db' s' (-> & -> & r & Hr & Hok & ->) _.
    assert (apply_updates dn acs0 !! a = Some r) as Hr'.
    { rewrite apply_updates_notin; [done|]. intros Hin. subst u.
      rewrite !fmap_app, !fmap_cons in Hnd. simpl in Hnd.
      apply NoDup_app in Hnd as (_ & Hdis & _). apply (Hdis a Hin). set_solver. }
    assert (update_fits acs0 (a, p, q) <-> in_i64 (a_posted_balance r + p) /\
      in_i64 (a_pending_balance r + q) /\ in_i32 (a_version r + 1)) as Hfit.
    { unfold update_fits. simpl. split; [auto|]. intros Hx r' Hr''. by simplify_eq. }
    apply tx_storage. eapply tx_mono.
    + eapply (tx_update_account_balance c a _ p q r); [exact Hr'|done|apply Hok].
    + simpl. intros [] db' s' (-> & -> & Hfit').
      split_and!; [done| |].
      * rewrite apply_updates_app. done.
      * apply Forall_app. split; [done|]. constructor; [|constructor].
        by apply Hfit.
    + simpl. intros _ Hn Hall. apply Hn. rewrite Hu in Hall.
      apply Forall_app in Hall as [_ Hall]. apply Forall_cons in Hall as [Hall _].
      by apply Hall.
Qed.

(** Accumulating the deltas of the entries of a transaction. *)
Lemma tx_settle_updates upd cp cq accts rows db s :
  (forall items a d u, updates_of cp cq items u -> small d -> small (delta_of items a) ->
     small (delta_of items a + d) -> updates_of cp cq (items ++ [(a, d)]) (upd a d u)) ->
  rows_fit (snd <$> rows) ->
  (forall r, r ∈ rows -> locked (accounts db) accts (e_account_id r.2)) ->
  tx c (settle_updates upd accts (entry_view <$> rows)) db s
    (fun u db' s' => db' = db /\ s' = s /\
       updates_of cp cq (item_of (accounts db) <$> (snd <$> rows)) u)
    (fun _ => False).
Proof.
  intros Hstep Hfit Hl.
  eapply tx_mono; [eapply (tx_io_fold c _ _ _ _ _ (fun dn u db' s' =>
    exists rs, rs `prefix_of` rows /\ dn = entry_view <$> rs /\ db' = db /\ s' = s /\
      updates_of cp cq (item_of (accounts db) <$> (snd <$> rs)) u) (fun _ => False))|..];
    [| |simpl|done].
  - exists []. split_and!; try done; [apply prefix_nil|apply updates_of_nil].
  - intros dn x rest u db' s' Heq (rs & [tl Hrs] & -> & -> & -> & Hu).
    subst rows. rewrite fmap_app in Heq.
    apply (inj (app (entry_view <$> rs))) in Heq.
    destruct tl as [|e tl]; [done|]. simpl in Heq. simplify_eq.
    destruct (Hl e ltac:(set_solver)) as (r & Hr & Hok & Hh).
    eapply tx_bind; [eapply (tx_find_account _ _ _ _ _
      (fun x db' s' => db' = db /\ s' = s /\ x = account_view (e_account_id e.2) r));
      [by exists r|]; intros r' Hr' _; simpl in Hr'; by simplify_eq|].
    intros x db' s' (-> & -> & ->) _. apply tx_ret.
    exists (rs ++ [e]). split_and!; [|by rewrite fmap_app|done|done|].
    + exists tl. by rewrite <- (assoc_L (++)).
    + rewrite account_view_normal by done. rewrite (fmap_app snd). simpl.
      rewrite !(fmap_app snd) in Hfit. simpl in Hfit.
      rewrite compute_balance_delta_eq by
        (pose proof (proj1 Hfit e.2 ltac:(set_solver)); lia).
      by apply (updates_of_row upd cp cq (accounts db) (snd <$> rs) e.2 (snd <$> tl) u r).
  - intros u db' s' (rs & [tl Hrs] & Heq & -> & -> & Hu).
    assert (tl = []) as ->.
    { apply (f_equal length) in Hrs, Heq. rewrite length_app in Hrs.
      rewrite !length_fmap in Heq. destruct tl; [done|]. simpl in *. lia. }
    rewrite app_nil_r in Hrs. by subst.
Qed.

(** A leg that takes from an account passes when the cached available balance
    covers it. *)
Definition leg_covered (acs : gmap Z accounts_row) (leg : TransferLeg) : Prop :=
  forall r, acs !! TransferLeg_account_id leg = Some r ->
    reduces_balance (code_normal (a_account_type r)) (TransferLeg_entry_type leg) = true ->
    exists b, BalanceCache_get (TransferLeg_account_id leg) c = Some b /\
              AccountBalance_available b >= TransferLeg_amount leg.

#[export] Instance leg_covered_dec acs leg : Decision (leg_covered acs leg).
Proof.
  unfold leg_covered. destruct (acs !! _) as [r|]; [|left; abstract naive_solver].
  destruct (reduces_balance (code_normal (a_account_type r)) (TransferLeg_entry_type leg))
    eqn:Hred; [|left; abstract (intros ? [= <-]; congruence)].
  destruct (BalanceCache_get (TransferLeg_account_id leg) c) as [b|];
    [|right; abstract (intros Hc; by destruct (Hc r) as (b & ? & ?))].
  destruct (decide (AccountBalance_available b >= TransferLeg_amount leg));
    [left; abstract eauto|right; abstract (intros Hc; destruct (Hc r) as (x & ? & ?);
      simplify_eq; done)].
Defined.

(** The error of the first leg that does not pass. *)
Definition uncovered_error (leg : TransferLeg) (e : ServiceError) : Prop :=
  match BalanceCache_get (TransferLeg_account_id leg) c with
  | None => e = ServiceError_AccountNotFound (TransferLeg_account_id leg)
  | Some b => AccountBalance_available b < TransferLeg_amount leg /\
      e = ServiceError_InsufficientFunds (TransferLeg_account_id leg)
            (AccountBalance_available b) (TransferLeg_amount leg)
  end.

Lemma tx_check_available accts legs db s :
  (forall leg, leg ∈ legs -> locked (accounts db) accts (TransferLeg_account_id leg)) ->
  tx c (check_available accts legs) db s
    (fun _ db' s' => db' = db /\ s' = s /\ Forall (leg_covered (accounts db)) legs)
    (fun e => exists leg, leg ∈ legs /\ ~ leg_covered (accounts db) leg /\ uncovered_error leg e).
Proof.
  intros Hl. eapply tx_mono; [eapply (tx_io_iter c _ _ _ _ (fun dn db' s' => db' = db /\
    s' = s /\ Forall (leg_covered (accounts db)) dn) (fun e => exists leg, leg ∈ legs /\
      ~ leg_covered (accounts db) leg /\ uncovered_error leg e))|..]; [done| |done|done].
  intros dn leg rest db' s' Heq (-> & -> & Hdn).
  destruct (Hl leg ltac:(set_solver)) as (r & Hr & Hok & Hh).
  eapply tx_bind; [eapply (tx_find_account _ _ _ _ _
    (fun x db' s' => db' = db /\ s' = s /\
       x = account_view (TransferLeg_account_id leg) r));
    [by exists r|]; intros r' Hr' _; by simplify_eq|].
  intros x db' s' (-> & -> & ->) _. rewrite account_view_normal by done.
  destruct (reduces_balance _ _) eqn:Hred.
  - eapply tx_bind; [apply (tx_on_cache c (BalanceCache_get (TransferLeg_account_id leg))
      db s (reads (BalanceCache_get (TransferLeg_account_id leg) c) db s)); done|].
    intros o db' s' (-> & -> & ->) _.
    destruct (BalanceCache_get (TransferLeg_account_id leg) c) as [b|] eqn:Hb.
    + eapply tx_bind; [apply (tx_lift _ _ _ _ (reads b db s)); done|].
      intros b' db' s' (-> & -> & ->) _.
      unfold AccountBalance_has_available, Amount_value.
      case_bool_decide as Hav.
      * apply tx_ret. split_and!; [done..|]. apply Forall_app. split; [done|].
        constructor; [|constructor]. intros r' Hr' _. by exists b.
      * eapply tx_bind; [apply (tx_counter c _ _ _ _ (reads tt db s)); done|].
        intros [] db' s' (_ & -> & ->) _. apply tx_throw.
        exists leg. split_and!; [set_solver| |].
        -- intros Hc. destruct (Hc r Hr Hred) as (b' & Hb' & ?). simplify_eq. lia.
        -- unfold uncovered_error. rewrite Hb. split; [lia|done].
    + eapply tx_bind; [apply (tx_lift _ _ _ _ (fun _ _ _ => False))|done]. simpl.
      exists leg. split_and!; [set_solver| |].
      * intros Hc. destruct (Hc r Hr Hred) as (b' & Hb' & ?). simplify_eq.
      * unfold uncovered_error. by rewrite Hb.
  - apply tx_ret. split_and!; [done..|]. apply Forall_app. split; [done|].
    constructor; [|constructor]. intros r' Hr' Hred'. simplify_eq. congruence.
Qed.

(** Rows with the consecutive ids they are inserted under. *)
Fixpoint number_rows (id : Z) (rows : list entries_row) : list (Z * entries_row) :=
  match rows with
  | [] => []
  | r :: rows => (id, r) :: number_rows (id + 1) rows
  end.

Lemma number_rows_app id rows rows' :
  number_rows id (rows ++ rows') =
    number_rows id rows ++ number_rows (id + Z.of_nat (length rows)) rows'.
Proof.
  revert id. induction rows as [|r rows IH]; intros id; simpl.
  - by rewrite Z.add_0_r.
  - rewrite IH. do 3 f_equal. lia.
Qed.

Definition pending_rows (t now : Z) (legs : list TransferLeg) : list entries_row :=
  leg_row t 1 now <$> legs.

Lemma code_side_entry_type ty : code_side (entry_type_to_i16 ty) = ty.
Proof. by destruct ty. Qed.

(** The state of the loop that creates the entries, after the legs [dn]. *)
Definition legs_inserted t now db s (dn : list TransferLeg)
    (acc : list Entry * list (Z * Z * Z)) db' s' : Prop :=
  acc.1 = entry_view <$> number_rows (entries_id_seq s) (pending_rows t now dn) /\
  updates_of 0 1 (item_of (accounts db) <$> pending_rows t now dn) acc.2 /\
  Forall entries_check (pending_rows t now dn) /\
  db' = set_entries (append_rows (entries_id_seq s) (pending_rows t now dn) (entries db)) db /\
  s' = mk_sequences (accounts_id_seq s) (transactions_id_seq s)
         (entries_id_seq s + Z.of_nat (length dn)).

Lemma leg_row_entry id t now leg :
  entries_check (leg_row t 1 now leg) ->
  Entry_new id t (TransferLeg_account_id leg) (TransferLeg_entry_type leg)
    (TransferLeg_amount leg) EntryStatus_Pending now = Ok (entry_view (id, leg_row t 1 now leg)).
Proof.
  intros (_ & Ha & _ & Hcr). simpl in *. unfold Entry_new, Amount_value.
  rewrite !decide_False by lia. unfold entry_view. simpl. by rewrite code_side_entry_type.
Qed.

Lemma legs_inserted_snoc t now db s dn leg rest r es u :
  rows_fit (pending_rows t now (dn ++ leg :: rest)) ->
  accounts db !! TransferLeg_account_id leg = Some r -> account_row_ok r ->
  entries_check (leg_row t 1 now leg) ->
  es = entry_view <$> number_rows (entries_id_seq s) (pending_rows t now dn) ->
  updates_of 0 1 (item_of (accounts db) <$> pending_rows t now dn) u ->
  Forall entries_check (pending_rows t now dn) ->
  let id := entries_id_seq s + Z.of_nat (length dn) in
  legs_inserted t now db s (dn ++ [leg])
    (es ++ [entry_view (id, leg_row t 1 now leg)],
     authorize_update (TransferLeg_account_id leg)
       (compute_balance_delta (Account_normal_balance (account_view (TransferLeg_account_id leg) r))
          (TransferLeg_entry_type leg) (TransferLeg_amount leg)) u)
    (set_entries (<[id := leg_row t 1 now leg]>
       (append_rows (entries_id_seq s) (pending_rows t now dn) (entries db))) db)
    (mk_sequences (accounts_id_seq s) (transactions_id_seq s) (id + 1)).
Proof.
  intros Hfit Hr Hok Hc -> Hu Hck id. unfold pending_rows in *. rewrite fmap_app, fmap_cons in Hfit.
  assert (0 < TransferLeg_amount leg <= i64_max) as Hamt.
  { apply (proj1 Hfit (leg_row t 1 now leg)). set_solver. }
  unfold legs_inserted, pending_rows. rewrite fmap_app. simpl. split_and!.
  - rewrite number_rows_app, fmap_app. simpl. by rewrite length_fmap.
  - rewrite account_view_normal by done. rewrite compute_balance_delta_eq by lia.
    pose proof (updates_of_row authorize_update 0 1 (accounts db) (leg_row t 1 now <$> dn)
      (leg_row t 1 now leg) (leg_row t 1 now <$> rest) u r authorize_update_step Hfit Hr Hu)
      as Hu'.
    unfold row_signed in Hu'. simpl in Hu'. by rewrite code_side_entry_type in Hu'.
  - apply Forall_app. split; [done|]. by constructor.
  - rewrite append_rows_app. by rewrite length_fmap.
  - f_equal. unfold id. rewrite length_app. simpl. lia.
Qed.

(** Creating the entries of a pending transaction. *)
Lemma tx_authorize_legs t now accts legs db s :
  0 < entries_id_seq s -> is_Some (transactions db !! t) ->
  rows_fit (pending_rows t now legs) ->
  (forall leg, leg ∈ legs -> locked (accounts db) accts (TransferLeg_account_id leg)) ->
  tx c (io_fold (authorize_leg t now accts) ([], []) legs) db s
    (legs_inserted t now db s legs)
    (fun _ => ~ (0 < now /\ entries_id_seq s + Z.of_nat (length legs) <= i64_max)).
Proof.
  intros Hseq Ht Hfit Hl. apply tx_io_fold with (I := legs_inserted t now db s).
  - unfold legs_inserted. simpl. rewrite Z.add_0_r.
    split_and!; [done|apply updates_of_nil|constructor|by destruct db|by destruct s].
  - intros dn leg rest [es u] db' s' Heq (Hes & Hu & Hck & -> & ->). simpl in Hes, Hu.
    destruct (Hl leg ltac:(set_solver)) as (r & Hr & Hok & Hh).
    eapply tx_reads_bind; [eapply tx_find_account; [by exists r|];
      intros r' Hr' _; split_and!; [|done..]; by simplify_eq|].
    eapply tx_bind; [apply tx_storage; eapply tx_mono; [apply tx_create_entry| |]|].
    { intros id db' s' HR. exact HR. }
    { simpl. intros e Hn [Hnow Hroom]. apply Hn. subst legs.
      assert (0 < TransferLeg_amount leg <= i64_max) as Hamt.
      { apply (proj1 Hfit (leg_row t 1 now leg)). unfold pending_rows.
        rewrite fmap_app, fmap_cons. set_solver. }
      rewrite length_app in Hroom. simpl in Hroom. split_and!; [int_lia| |done|by exists r].
      unfold entries_check. simpl. destruct (TransferLeg_entry_type leg); simpl; lia. }
    intros id db' s' (-> & Hc & -> & ->) _.
    eapply tx_ok_bind; [simpl; by rewrite leg_row_entry|]. apply tx_ret.
    subst legs. by apply (legs_inserted_snoc t now db s dn leg rest r es u).
Qed.
End blocks.
