(* ===== verification/Preserve.v ===== *)
(** * Preserve: the committed changes keep the invariant

    The three changes a request can commit (a new account, a new pending
    transaction with its entries, the settlement of a pending transaction) as
    functions on the tables, and the proof that each keeps [db_ok]. *)

From S2P Require Import Prelude.
From S2P Require Import Money Accounts Transactions Entries Validation.
From S2P Require Import StorageErrors Schema Cache Effects Triples Postgres.
From S2P Require Import ServiceErrors Ledger Invariant Updates PostgresSpecs LedgerSpecs.
Local Open Scope Z_scope.

(** ** The committed changes *)

Section changes.
Context `{JsonLib}.

Definition add_account (id : Z) (r : accounts_row) (db : database) : database :=
  set_accounts (<[id := r]> (accounts db)) db.

Definition add_transaction (t : Z) (tr : transactions_row) (eid : Z)
    (rows : list entries_row) (u : list (Z * Z * Z)) (db : database) : database :=
  mk_database _ (apply_updates u (accounts db)) (<[t := tr]> (transactions db))
    (append_rows eid rows (entries db)).

Definition settle (t : Z) (tr : transactions_row) (status : Z) (u : list (Z * Z * Z))
    (db : database) : database :=
  mk_database _ (apply_updates u (accounts db)) (<[t := tr]> (transactions db))
    (settle_entries t status (entries db)).

(** ** Consequences of the invariant *)

Context (db : database) (s : sequences).
Hypothesis Hok : db_ok db s.

Lemma db_ok_account_row id r : accounts db !! id = Some r -> account_row_ok r.
Proof. intros Hr. apply (ok_accounts _ _ Hok _ _ Hr). Qed.
Lemma db_ok_transaction_row id r : transactions db !! id = Some r -> transaction_row_ok r.
Proof. intros Hr. apply (ok_transactions _ _ Hok _ _ Hr). Qed.
Lemma db_ok_entry_row id e : entries db !! id = Some e -> entry_row_ok e.
Proof. intros Hr. apply (ok_entries _ _ Hok _ _ Hr). Qed.

Lemma db_ok_fresh_account : accounts db !! accounts_id_seq s = None.
Proof.
  destruct (accounts db !! accounts_id_seq s) as [r|] eqn:Hr; [|done].
  pose proof (ao_id _ _ _ _ (ok_accounts _ _ Hok _ _ Hr)). lia.
Qed.
Lemma db_ok_fresh_transaction : transactions db !! transactions_id_seq s = None.
Proof.
  destruct (transactions db !! transactions_id_seq s) as [r|] eqn:Hr; [|done].
  pose proof (to_id _ _ _ _ (ok_transactions _ _ Hok _ _ Hr)). lia.
Qed.
Lemma db_ok_fresh_entries : fresh_from (entries_id_seq s) (entries db).
Proof. intros k e He. pose proof (eo_id _ _ _ _ (ok_entries _ _ Hok _ _ He)). lia. Qed.

(** The invariant survives ids taken by requests that did not commit. *)
Lemma db_ok_seqs s' : seqs_le s s' -> db_ok db s'.
Proof.
  intros (Ha & Ht & He). destruct Hok as [H1 H2 H3 H4 H5]. split; [| | |done|lia].
  - intros id r Hr. destruct (H1 _ _ Hr). split; try done. lia.
  - intros id r Hr. destruct (H2 _ _ Hr). split; try done. lia.
  - intros id e Hr. destruct (H3 _ _ Hr). split; try done. lia.
Qed.

(** Sums over the entries of a transaction. *)
Lemma Zsum_entries_of (f : entries_row -> Z) t :
  Zsum f (snd <$> entries_of t db) =
    map_Zsum (fun e => if decide (e_transaction_id e = t) then f e else 0) (entries db).
Proof.
  unfold entries_of, select_entries_of_transaction.
  rewrite Zsum_fmap, (merge_sort_Permutation id_le), Zsum_filter, map_Zsum_to_list.
  apply Zsum_ext. by intros [k e] _.
Qed.

Lemma rows_total_entries_of side t :
  rows_total side (snd <$> entries_of t db) = txn_total side t (entries db).
Proof. apply Zsum_entries_of. Qed.

(** The entries of a committed transaction accumulate without overflow. *)
Lemma entries_of_fit t r :
  transactions db !! t = Some r -> rows_fit (snd <$> entries_of t db).
Proof.
  intros Hr. destruct (ok_transactions _ _ Hok _ _ Hr) as [_ _ Hbal Hfits _].
  split; [|rewrite !rows_total_entries_of; lia].
  intros e He. apply list_elem_of_fmap in He as [[k e'] [-> He]].
  apply elem_of_entries_of in He as [He _].
  destruct (db_ok_entry_row _ _ He) as [(_ & ? & _) ?]. simpl. lia.
Qed.
End changes.

(** ** Preservation *)

Section preserve.
Context `{JsonLib}.
Implicit Types (db : database) (s : sequences).

Lemma account_sum_zero status a ty (es : gmap Z entries_row) :
  (forall k e, es !! k = Some e -> e_account_id e <> a) -> account_sum status a ty es = 0.
Proof.
  intros Hn. apply map_Zsum_zero. intros k e He. rewrite decide_False; [done|].
  intros [Ha _]. by eapply Hn.
Qed.

Lemma db_ok_add_account db s r :
  db_ok db s -> account_row_ok r -> a_posted_balance r = 0 -> a_pending_balance r = 0 ->
  db_ok (add_account (accounts_id_seq s) r db)
    (mk_sequences (accounts_id_seq s + 1) (transactions_id_seq s) (entries_id_seq s)).
Proof.
  intros Hok Hr Hp Hq. pose proof (db_ok_fresh_account _ _ Hok) as Hfresh.
  pose proof (ok_seqs _ _ Hok) as (Hs1 & Hs2 & Hs3).
  assert (forall st, account_sum st (accounts_id_seq s) (a_account_type r) (entries db) = 0)
    as Hzero.
  { intros st. apply account_sum_zero. intros k e He Heq.
    destruct (eo_account _ _ _ _ (ok_entries _ _ Hok _ _ He)) as [r' Hr'].
    rewrite Heq in Hr'. congruence. }
  split; simpl.
  - intros id r' Hr'. destruct (decide (accounts_id_seq s = id)) as [<-|Hne].
    + rewrite lookup_insert_eq in Hr'. simplify_eq.
      split; simpl; [done|lia|by rewrite Hzero|by rewrite Hzero].
    + rewrite lookup_insert_ne in Hr' by done.
      destruct (ok_accounts _ _ Hok _ _ Hr'). split; simpl; try done. lia.
  - intros id t Ht. by destruct (ok_transactions _ _ Hok _ _ Ht).
  - intros id e He. destruct (ok_entries _ _ Hok _ _ He). split; simpl; try done.
    by apply lookup_insert_is_Some'; right.
  - apply Hok.
  - lia.
Qed.

(** An account whose balances move with the sums of its entries stays valid. *)
Lemma account_ok_touch cp cq items u s s' (es es' : gmap Z entries_row)
    (acs : gmap Z accounts_row) a r :
  updates_of cp cq items u -> Forall (update_fits acs) u ->
  accounts_id_seq s = accounts_id_seq s' ->
  apply_updates u acs !! a = Some r ->
  (forall r, acs !! a = Some r -> account_ok s es a r) ->
  (forall r, acs !! a = Some r ->
     account_sum 2 a (a_account_type r) es' =
       account_sum 2 a (a_account_type r) es + cp * delta_of items a /\
     account_sum 1 a (a_account_type r) es' =
       account_sum 1 a (a_account_type r) es + cq * delta_of items a) ->
  account_ok s' es' a r.
Proof.
  intros Hu Hfit Hseq Hr Hold Hsum.
  rewrite (apply_updates_lookup cp cq items) in Hr by done.
  destruct (acs !! a) as [r0|] eqn:Hr0; [|done]. simpl in Hr. simplify_eq.
  destruct (Hsum r0 eq_refl) as [H2 H1].
  destruct (Hold r0 eq_refl) as [[Hck Hcode Hp Hq Hv] Hid Hpost Hpend].
  split; [|lia| |].
  - unfold touch. case_decide as Ha; [|by split].
    apply (uo_ids _ _ _ _ Hu), update_id_split in Ha as (u1 & p & q & u2 & Heq).
    assert ((a, p, q) ∈ u) as Ha by (subst; set_solver).
    destruct (uo_values _ _ _ _ Hu _ _ _ Ha) as [-> ->].
    rewrite Forall_forall in Hfit.
    destruct (Hfit _ Ha r0 Hr0) as (? & ? & ?). simpl in *.
    split; simpl; try done. unfold accounts_check in *. simpl. lia.
  - rewrite touch_posted, touch_account_type. lia.
  - rewrite touch_pending, touch_account_type. lia.
Qed.

Lemma account_sum_append st a ty id rows (es : gmap Z entries_row) :
  fresh_from id es ->
  account_sum st a ty (append_rows id rows es) =
    account_sum st a ty es +
    Zsum (fun e => if decide (e_account_id e = a /\ e_status e = st)
                   then row_signed ty e else 0) rows.
Proof. apply append_rows_sum. Qed.

Lemma apply_updates_is_Some u acs a : is_Some (acs !! a) -> is_Some (apply_updates u acs !! a).
Proof.
  revert acs. induction u as [|[[b p] q] u IH]; intros acs Ha; simpl; [done|].
  apply IH. destruct (decide (b = a)) as [->|].
  - rewrite lookup_alter_eq. by apply fmap_is_Some.
  - by rewrite lookup_alter_ne.
Qed.

(** *** A new pending transaction *)

(** What [authorize] has checked about the rows it inserts. *)
Record new_rows db (t : Z) (rows : list entries_row) : Prop := {
  nr_rows : Forall entry_row_ok rows;
  nr_txn : forall e, e ∈ rows -> e_transaction_id e = t;
  nr_status : forall e, e ∈ rows -> e_status e = 1;
  nr_accounts : forall e, e ∈ rows -> is_Some (accounts db !! e_account_id e);
  nr_balanced : rows_total EntryType_Debit rows = rows_total EntryType_Credit rows;
  nr_fits : rows_total EntryType_Debit rows <= i64_max;
  nr_count : 2 <= Z.of_nat (length rows)
}.

Lemma Zsum_one {A} (l : list A) : Zsum (fun _ => 1) l = Z.of_nat (length l).
Proof. induction l as [|x l IH]; [done|]. rewrite Zsum_cons, IH. simpl. lia. Qed.

(** Sums over the entries of one transaction, after rows of transaction [t] are
    appended. *)
Lemma txn_sum_append (f : entries_row -> Z) t t' id rows (es : gmap Z entries_row) :
  fresh_from id es -> (forall e, e ∈ rows -> e_transaction_id e = t) ->
  map_Zsum (fun e => if decide (e_transaction_id e = t') then f e else 0)
    (append_rows id rows es) =
  map_Zsum (fun e => if decide (e_transaction_id e = t') then f e else 0) es +
    if decide (t = t') then Zsum f rows else 0.
Proof.
  intros Hf Ht. rewrite append_rows_sum by done. f_equal. case_decide as Heq.
  - apply Zsum_ext. intros e He. rewrite decide_True; [done|]. by rewrite Ht.
  - apply Zsum_zero. intros e He. rewrite decide_False; [done|]. by rewrite Ht.
Qed.

Lemma txn_sum_none (f : entries_row -> Z) t db s :
  db_ok db s -> transactions db !! t = None ->
  map_Zsum (fun e => if decide (e_transaction_id e = t) then f e else 0) (entries db) = 0.
Proof.
  intros Hok Ht. apply map_Zsum_zero. intros k e He. rewrite decide_False; [done|].
  intros Heq. destruct (eo_transaction _ _ _ _ (ok_entries _ _ Hok _ _ He)) as (r & Hr & _).
  rewrite Heq in Hr. congruence.
Qed.

Lemma transaction_ok_append s s' t rows r db id :
  db_ok db s -> new_rows db (transactions_id_seq s) rows ->
  transactions_id_seq s' = transactions_id_seq s + 1 ->
  transaction_row_ok r -> t = transactions_id_seq s \/ transactions db !! t = Some r ->
  id = entries_id_seq s ->
  transaction_ok s' (append_rows id rows (entries db)) t r.
Proof.
  intros Hok Hnr Hs' Hrow Ht ->. pose proof (db_ok_fresh_entries _ _ Hok) as Hf.
  pose proof (ok_seqs _ _ Hok) as (_ & Hs & _).
  assert (forall f, map_Zsum (fun e => if decide (e_transaction_id e = t) then f e else 0)
     (append_rows (entries_id_seq s) rows (entries db)) =
     map_Zsum (fun e => if decide (e_transaction_id e = t) then f e else 0) (entries db) +
      (if decide (transactions_id_seq s = t) then Zsum f rows else 0)) as Hsum.
  { intros f. apply txn_sum_append; [done|]. apply Hnr. }
  destruct Ht as [->|Hr].
  - pose proof (db_ok_fresh_transaction _ _ Hok) as Hfresh.
    split; [done|lia|..]; unfold txn_total, txn_count;
      rewrite !Hsum, !decide_True, !(txn_sum_none _ _ _ _ Hok Hfresh) by done.
    + apply Hnr.
    + apply Hnr.
    + rewrite Zsum_one. apply Hnr.
  - destruct (ok_transactions _ _ Hok _ _ Hr) as [_ Hid Hbal Hfits Hcnt].
    split; [done|lia|..]; unfold txn_total, txn_count in *;
      rewrite !Hsum, !decide_False by lia; lia.
Qed.

Lemma db_ok_add_transaction db s tr rows u :
  db_ok db s -> new_rows db (transactions_id_seq s) rows ->
  transaction_row_ok tr -> t_status tr = 1 -> find_key (t_idempotency_key tr) db = None ->
  updates_of 0 1 (item_of (accounts db) <$> rows) u ->
  Forall (update_fits (accounts db)) u ->
  db_ok (add_transaction (transactions_id_seq s) tr (entries_id_seq s) rows u db)
    (mk_sequences (accounts_id_seq s) (transactions_id_seq s + 1)
       (entries_id_seq s + Z.of_nat (length rows))).
Proof.
  intros Hok Hnr Htr Hst Hkey Hu Hfit.
  pose proof (db_ok_fresh_entries _ _ Hok) as Hf.
  pose proof (db_ok_fresh_transaction _ _ Hok) as Hft.
  pose proof (ok_seqs _ _ Hok) as (Hs1 & Hs2 & Hs3).
  rewrite find_key_None in Hkey.
  split; simpl.
  - intros a r Hr. eapply (account_ok_touch 0 1 _ u s); [exact Hu|exact Hfit|done|exact Hr| |].
    { apply Hok. }
    intros r0 Hr0. rewrite !account_sum_append by done.
    rewrite (delta_of_items _ _ _ r0) by done. split.
    + rewrite (Zsum_zero _ rows); [lia|]. intros e He.
      rewrite decide_False; [done|]. rewrite (nr_status _ _ _ Hnr e He). lia.
    + rewrite Z.mul_1_l. f_equal. apply Zsum_ext. intros e He.
      rewrite (nr_status _ _ _ Hnr e He). apply decide_ext. tauto.
  - intros t r Hr. eapply (transaction_ok_append s); try done.
    + destruct (decide (transactions_id_seq s = t)) as [<-|Hne].
      * rewrite lookup_insert_eq in Hr. by simplify_eq.
      * rewrite lookup_insert_ne in Hr by done. by eapply db_ok_transaction_row.
    + destruct (decide (transactions_id_seq s = t)) as [<-|Hne]; [by left|].
      rewrite lookup_insert_ne in Hr by done. by right.
  - intros k e He. apply append_rows_lookup in He as [He|[Hk He]].
    + destruct (ok_entries _ _ Hok _ _ He) as [Hrow Hid Ha (r & Hr & Hrs)].
      split; simpl; [done|lia|by apply apply_updates_is_Some|].
      exists r. rewrite lookup_insert_ne by congruence. done.
    + destruct Hnr as [Hrows Htxn Hstat Hacc _ _ _]. rewrite Forall_forall in Hrows.
      split; simpl; [auto|lia|by apply apply_updates_is_Some; auto|].
      exists tr. rewrite (Htxn e He), lookup_insert_eq. split; [done|].
      rewrite (Hstat e He). done.
  - intros t1 t2 r1 r2. rewrite !lookup_insert_Some.
    intros [[<- <-]|[Hn1 Hr1]] [[<- <-]|[Hn2 Hr2]] Heq; try done.
    + by apply Hkey in Hr2.
    + by apply Hkey in Hr1.
    + by eapply Hok.
  - lia.
Qed.

(** *** Settling a pending transaction *)

Lemma settle_entries_lookup t st (es : gmap Z entries_row) k e' :
  settle_entries t st es !! k = Some e' ->
  exists e, es !! k = Some e /\
    e' = (if decide (e_transaction_id e = t) then set_entry_status e st else e).
Proof. unfold settle_entries. rewrite lookup_fmap_Some. naive_solver. Qed.

(** Settling does not change the totals of any transaction. *)
Lemma txn_sum_settle (f : entries_row -> Z) t t' st (es : gmap Z entries_row) :
  (forall e, f (set_entry_status e st) = f e) ->
  map_Zsum (fun e => if decide (e_transaction_id e = t') then f e else 0)
    (settle_entries t st es) =
  map_Zsum (fun e => if decide (e_transaction_id e = t') then f e else 0) es.
Proof.
  intros Hf. unfold settle_entries. rewrite map_Zsum_fmap. apply map_Zsum_ext.
  intros k e _. destruct (decide (e_transaction_id e = t)); [|done]. simpl. by rewrite Hf.
Qed.

Lemma delta_of_entries_of db t a r :
  accounts db !! a = Some r ->
  delta_of (item_of (accounts db) <$> (snd <$> entries_of t db)) a =
    map_Zsum (fun e => if decide (e_transaction_id e = t) then
       if decide (e_account_id e = a) then row_signed (a_account_type r) e else 0 else 0)
      (entries db).
Proof. intros Hr. rewrite (delta_of_items _ _ _ r) by done. apply Zsum_entries_of. Qed.

(** The pending balance loses the entries of the transaction, the posted one
    gains them when they are posted. *)
Lemma account_sum_settle db s t tr st a r :
  db_ok db s -> transactions db !! t = Some tr -> t_status tr = 1 -> st = 2 \/ st = 3 ->
  accounts db !! a = Some r ->
  let d := delta_of (item_of (accounts db) <$> (snd <$> entries_of t db)) a in
  let ty := a_account_type r in
  account_sum 2 a ty (settle_entries t st (entries db)) =
    account_sum 2 a ty (entries db) + (if decide (st = 2) then 1 else 0) * d /\
  account_sum 1 a ty (settle_entries t st (entries db)) =
    account_sum 1 a ty (entries db) + (-1) * d.
Proof.
  intros Hok Ht Hst1 Hst Hr d ty. subst d ty. rewrite (delta_of_entries_of _ _ _ r) by done.
  set (g := fun e => if decide (e_transaction_id e = t) then
       if decide (e_account_id e = a) then row_signed (a_account_type r) e else 0 else 0).
  assert (forall z, z * map_Zsum g (entries db) = map_Zsum (fun e => z * g e) (entries db))
    as Hmul.
  { intros z. rewrite !map_Zsum_to_list. induction (map_to_list (entries db)) as [|x l IH];
      [unfold Zsum; simpl; lia|]. rewrite !Zsum_cons. lia. }
  rewrite !Hmul. unfold account_sum, settle_entries. rewrite !map_Zsum_fmap, <- !map_Zsum_add.
  split; apply map_Zsum_ext; intros k e He; unfold g;
    destruct (decide (e_transaction_id e = t)) as [Het|Het]; try lia;
    (assert (e_status e = 1) as Hes
       by (destruct (eo_transaction _ _ _ _ (ok_entries _ _ Hok _ _ He)) as (r' & Hr' & Hs');
           rewrite Het in Hr'; simplify_eq; lia));
    simpl; rewrite Hes; change (row_signed (a_account_type r) (set_entry_status e st))
      with (row_signed (a_account_type r) e); destruct Hst as [-> | ->]; repeat case_decide; destruct_and?; try lia; tauto.
Qed.

Lemma db_ok_settle db s t tr tr' st cp u :
  db_ok db s -> transactions db !! t = Some tr -> t_status tr = 1 -> st = 2 \/ st = 3 ->
  cp = (if decide (st = 2) then 1 else 0) ->
  transaction_row_ok tr' -> t_status tr' = st ->
  t_idempotency_key tr' = t_idempotency_key tr ->
  updates_of cp (-1) (item_of (accounts db) <$> (snd <$> entries_of t db)) u ->
  Forall (update_fits (accounts db)) u ->
  db_ok (settle t tr' st u db) s.
Proof.
  intros Hok Ht Hst1 Hst Hcp Htr' Hst' Hkey Hu Hfit.
  split; simpl.
  - intros a r Hr. eapply (account_ok_touch cp (-1) _ u s); [exact Hu|exact Hfit|done|exact Hr| |].
    { apply Hok. }
    intros r0 Hr0. subst cp. by apply (account_sum_settle db s t tr).
  - intros t' r Hr.
    assert (exists r0, transactions db !! t' = Some r0) as [r0 Hr0].
    { destruct (decide (t = t')) as [<-|]; [by eauto|].
      rewrite lookup_insert_ne in Hr by done. eauto. }
    assert (transaction_row_ok r) as Hrow.
    { destruct (decide (t = t')) as [<-|].
      - rewrite lookup_insert_eq in Hr. by simplify_eq.
      - rewrite lookup_insert_ne in Hr by done. by eapply db_ok_transaction_row. }
    destruct (ok_transactions _ _ Hok _ _ Hr0) as [_ Hid Hbal Hfits Hcnt].
    unfold txn_total, txn_count in *.
    split; unfold txn_total, txn_count; [done|done|..]; rewrite !txn_sum_settle by done; done.
  - intros k e' He'. apply settle_entries_lookup in He' as (e & He & ->).
    destruct (ok_entries _ _ Hok _ _ He) as [[Hck Ham] Hid Ha (r & Hr & Hrs)].
    destruct (decide (e_transaction_id e = t)) as [Het|Het].
    + split; simpl; [|done|by apply apply_updates_is_Some|].
      * split; [|done]. unfold entries_check in *. simpl. lia.
      * exists tr'. rewrite Het, lookup_insert_eq. done.
    + split; simpl; [done|done|by apply apply_updates_is_Some|].
      exists r. by rewrite lookup_insert_ne.
  - intros t1 t2 r1 r2. rewrite !lookup_insert_Some.
    intros [[<- <-]|[Hn1 Hr1]] [[<- <-]|[Hn2 Hr2]] Heq; try done;
      (eapply (ok_keys _ _ Hok); [done|done|]); congruence.
  - apply Hok.
Qed.

(** The cache that follows the committed updates is the mirror of the table. *)
Lemma apply_cache_updates cp cq items u (acs : gmap Z accounts_row) :
  updates_of cp cq items u -> Forall (update_fits acs) u ->
  apply_cache u (mirror acs) = mirror (apply_updates u acs).
Proof.
  intros Hu Hfit. apply apply_cache_mirror; [apply Hu|].
  intros a p q r Hin Hr. rewrite Forall_forall in Hfit.
  by destruct (Hfit _ Hin r Hr) as (? & ? & _).
Qed.

Lemma mirror_add_account id r db :
  a_posted_balance r = 0 -> a_pending_balance r = 0 ->
  BalanceCache_set id 0 0 (mirror (accounts db)) = mirror (accounts (add_account id r db)).
Proof.
  intros Hp Hq. unfold BalanceCache_set, mirror, add_account. simpl.
  rewrite fmap_insert, Hp, Hq. done.
Qed.
End preserve.
