(* ===== verification/Integrity.v ===== *)
(** * Integrity checker: [observability/integrity.rs]

    The three checks as programs that query the pool and read the cache.  Each
    returns the value its gauge is set to, or [None] when its query failed and
    the gauge is left alone. *)

From S2P Require Import Prelude.
From S2P Require Import Money Accounts Transactions Entries Validation.
From S2P Require Import StorageErrors Schema Cache Effects Triples Postgres.
From S2P Require Import ServiceErrors Ledger Invariant Updates PostgresSpecs LedgerSpecs.
From S2P Require Import Preserve.
Local Open Scope Z_scope.

Definition is_debit_normal (account_type : Z) : bool :=
  match account_type with 1 | 5 => true | _ => false end.

(** [COALESCE(SUM(CASE WHEN p THEN amount ELSE 0 END), 0)] over the entries. *)
Definition sum_case (p : entries_row -> bool) (es : gmap Z entries_row) : Z :=
  map_Zsum (fun e => if p e then e_amount e else 0) es.

Section checks.
Context `{JsonLib, PgLib}.

(** A failed query is an error, and the checks stop there. *)
Definition pool_result {A} (f : database -> result SqlxError A) : stmt A :=
  mk_stmt [] (fun seqs db => (seqs, a ← f db; Ok (a, db))).

(** ** Check 1: total debits and credits of the entries that are not voided *)

Definition select_global (db : database) : result SqlxError (Z * Z) :=
  d ← bigint (sum_case (fun e => bool_decide (e_status e <> 3 /\ e_entry_type e = 1)) (entries db));
  c ← bigint (sum_case (fun e => bool_decide (e_status e <> 3 /\ e_entry_type e = 2)) (entries db));
  Ok (d, c).

Definition check_global_balance : prog (option bool) :=
  Vis (PoolQuery (pool_result select_global)) (fun result =>
    match result with
    | Ok (total_debits, total_credits) => Ret (Some (bool_decide (total_debits = total_credits)))
    | Err _ => Ret None
    end).

(** ** Check 2: materialized balances against the entries *)

Record account_sums := mk_account_sums {
  as_id : Z; as_account_type : Z; as_mat_posted : Z; as_mat_pending : Z;
  as_posted_debits : Z; as_posted_credits : Z;
  as_pending_debits : Z; as_pending_credits : Z
}.

(** [FROM accounts a LEFT JOIN entries e ON e.account_id = a.id AND e.status != 3
    GROUP BY a.id ..]: one row per account. *)
Definition joined_sum (id status entry_type : Z) (db : database) : result SqlxError Z :=
  bigint (sum_case (fun e => bool_decide (e_account_id e = id /\ e_status e <> 3 /\
                               e_status e = status /\ e_entry_type e = entry_type)) (entries db)).
Definition select_account_sums (db : database) : result SqlxError (list account_sums) :=
  try_map (fun '(id, r) =>
    pd ← joined_sum id 2 1 db;
    pc ← joined_sum id 2 2 db;
    qd ← joined_sum id 1 1 db;
    qc ← joined_sum id 1 2 db;
    Ok (mk_account_sums id (a_account_type r) (a_posted_balance r) (a_pending_balance r)
          pd pc qd qc)) (map_to_list (accounts db)).

(** One iteration of the loop: whether the row is a mismatch. *)
Definition account_mismatch (r : account_sums) : bool :=
  let debit_normal := is_debit_normal (as_account_type r) in
  let expected_posted :=
    if debit_normal then i64_wrap (as_posted_debits r - as_posted_credits r)
    else i64_wrap (as_posted_credits r - as_posted_debits r) in
  let expected_pending :=
    if debit_normal then i64_wrap (as_pending_debits r - as_pending_credits r)
    else i64_wrap (as_pending_credits r - as_pending_debits r) in
  negb (as_mat_posted r =? expected_posted) || negb (as_mat_pending r =? expected_pending).

Definition check_account_balances : prog (option nat) :=
  Vis (PoolQuery (pool_result select_account_sums)) (fun result =>
    match result with
    | Ok rows => Ret (Some (length (List.filter account_mismatch rows)))
    | Err _ => Ret None
    end).

(** ** Check 3: the cache against the database *)

(** [cache_map]: the entries of the cache, collected into a map. *)
Definition collect_cache (es : list (Z * Z * Z)) : gmap Z (Z * Z) :=
  foldl (fun m '(id, posted, pending) => <[id := (posted, pending)]> m) ∅ es.

Definition cache_row_mismatch (cache_map : gmap Z (Z * Z)) (row : Z * Z * Z) : bool :=
  let '(id, db_posted, db_pending) := row in
  match cache_map !! id with
  | Some (cache_posted, cache_pending) =>
      negb (db_posted =? cache_posted) || negb (db_pending =? cache_pending)
  | None => true
  end.

Definition check_cache_consistency : prog (option nat) :=
  Vis (PoolQuery (read_stmt [] select_balances)) (fun result =>
    match result with
    | Ok db_rows =>
        Vis (OnCache (fun c => (BalanceCache_iter c, c))) (fun cache_entries =>
        let cache_map := collect_cache cache_entries in
        let mismatches := length (List.filter (cache_row_mismatch cache_map) db_rows) in
        Vis (OnCache (fun c => (BalanceCache_iter c, c))) (fun cache_entries =>
        let missing := length (List.filter (fun x => negb (bool_decide
                          (x.1.1 ∈ (fst <$> (fst <$> db_rows))))) cache_entries) in
        Ret (Some (mismatches + missing)%nat)))
    | Err _ => Ret None
    end).

(** The three checks in their order. *)
Definition run_all_checks : prog (option bool * option nat * option nat) :=
  prog_bind (fun g => prog_bind (fun a => prog_bind (fun c => Ret (g, a, c))
    check_cache_consistency) check_account_balances) check_global_balance.
End checks.

(** ** Lemmas *)

(** The raw classification agrees with the domain's, for every stored code. *)
Lemma is_debit_normal_code ty :
  is_debit_normal (account_type_to_i16 ty) =
    bool_decide (AccountType_normal_balance ty = NormalBalance_Debit).
Proof. by destruct ty. Qed.

Lemma is_debit_normal_normal code :
  1 <= code <= 5 ->
  is_debit_normal code = bool_decide (code_normal code = NormalBalance_Debit).
Proof. intros [->|[->|[->|[->| ->]]]]%code_cases_5; done. Qed.

Lemma sum_case_nonneg p es :
  (forall k e, es !! k = Some e -> 0 <= e_amount e) -> 0 <= sum_case p es.
Proof. intros Hp. apply map_Zsum_nonneg. intros k e He. destruct (p e); [eauto|lia]. Qed.

(** The signed sum of an account is the difference of its two columns. *)
Lemma account_sum_columns st a ty es :
  st <> 3 -> (forall k e, es !! k = Some e -> entry_row_ok e) ->
  let col et := sum_case (fun e => bool_decide (e_account_id e = a /\ e_status e <> 3 /\
                                     e_status e = st /\ e_entry_type e = et)) es in
  account_sum st a ty es =
    match code_normal ty with
    | NormalBalance_Debit => col 1 - col 2
    | NormalBalance_Credit => col 2 - col 1
    end.
Proof.
  intros Hst Hok col. subst col. unfold account_sum, sum_case.
  rewrite !map_Zsum_to_list. assert (forall x, x ∈ map_to_list es -> entry_row_ok x.2) as Hx.
  { intros [k e] ?%elem_of_map_to_list. eauto. }
  clear Hok. induction (map_to_list es) as [|[k e] l IH].
  - by destruct (code_normal ty).
  - rewrite !Zsum_cons. specialize (IH ltac:(set_solver)).
    destruct (Hx (k, e) ltac:(set_solver)) as [(Hty & _) _]. simpl in *.
    unfold row_signed, entry_sign, code_side in *.
    apply code_cases_2 in Hty. destruct Hty as [Hty|Hty]; rewrite !Hty;
      destruct (code_normal ty); simpl; repeat case_bool_decide; repeat case_decide;
      destruct_and?; simplify_eq; try lia; try tauto.
Qed.
