(* ===== verification/Handlers.v ===== *)
(** * Handlers: what one request does

    [wp] specifications of the RPC handlers over a whole request, with the
    database failing at any round trip.  A request that succeeds has committed
    the change its postcondition describes; one that fails has changed neither
    the tables nor the cache, unless the database applied the commit and its
    acknowledgement was lost. *)

From S2P Require Import Prelude.
From S2P Require Import Money Accounts Transactions Entries Validation.
From S2P Require Import StorageErrors Schema Cache Effects Triples Postgres.
From S2P Require Import ServiceErrors Ledger Invariant Updates PostgresSpecs LedgerSpecs.
From S2P Require Import Preserve.
Local Open Scope Z_scope.

(** What the sources rely on of a [VARCHAR(n)] column: a value that fits is kept
    or refused, never changed, and a value is never emptied. *)
Class PgLaws `{PgLib} : Prop := {
  varchar_fits n s s' : varchar_input n s = Ok s' -> (String.length s <= n)%nat -> s' = s;
  varchar_nonempty n s s' : (0 < n)%nat -> varchar_input n s = Ok s' -> s <> "" -> s' <> ""
}.

Section rules.
Context `{JsonLib, PgLib}.

(** Some commit of the schedule is applied although it reports a failure. *)
Definition lossy (w : world) : Prop :=
  exists f, Some f ∈ w_faults w /\ fault_applied f = true.

Lemma lossy_suffix w w' : w_faults w' `suffix_of` w_faults w -> lossy w' -> lossy w.
Proof.
  intros [l Hl] (f & Hf & Ha). exists f. rewrite Hl. split; [set_solver|done].
Qed.

(** The end of a request, seen from its start. *)
Definition outcome {A} (w : world)
    (Post : A -> database -> BalanceCache -> sequences -> Prop) (Er : ServiceError -> Prop)
    (r : result ServiceError A) (w' : world) : Prop :=
  w_clock w' = w_clock w /\ seqs_le (w_seqs w) (w_seqs w') /\
  match r with
  | Ok a => Post a (w_db w') (w_cache w') (w_seqs w')
  | Err e =>
      w_cache w' = w_cache w /\
      ((w_db w' = w_db w /\ (w_faults w = [] -> Er e)) \/
       (lossy w /\ exists a c', Post a (w_db w') c' (w_seqs w')))
  end.

(** A handler, from a world without an open transaction. *)
Definition handles {A} (p : io ServiceError A) (w : world)
    (Post : A -> database -> BalanceCache -> sequences -> Prop) (Er : ServiceError -> Prop)
  : Prop := wp p w (outcome w Post Er).

(** The rest of a handler, inside its transaction. *)
Definition txh (c : BalanceCache) (db0 : database) {A} (p : io ServiceError A)
    (db : database) (s : sequences)
    (Post : A -> database -> BalanceCache -> sequences -> Prop) (Er : ServiceError -> Prop)
  : Prop :=
  forall w, w_tx w = Some db -> w_seqs w = s -> w_cache w = c -> w_db w = db0 ->
  wp p w (outcome w Post Er).

(** The rest of a handler, after its commit: it only touches the cache and the
    counters, and returns. *)
Definition fin {A} (c : BalanceCache) (p : io ServiceError A) (a : A) (c' : BalanceCache)
  : Prop :=
  forall w, w_cache w = c ->
  wp p w (fun r w' => r = Ok a /\ w_cache w' = c' /\ w_db w' = w_db w /\
                      w_seqs w' = w_seqs w /\ w_clock w' = w_clock w).

Context {A : Type}.
Implicit Types (Post : A -> database -> BalanceCache -> sequences -> Prop)
  (Er : ServiceError -> Prop).

Lemma handles_lift {B} (r : result ServiceError B) (k : B -> io ServiceError A) w Post Er :
  (forall e, r = Err e -> Er e) -> (forall b, r = Ok b -> handles (k b) w Post Er) ->
  handles (x ← lift r; k x) w Post Er.
Proof.
  intros He Hk. apply wp_io_bind, wp_ret. destruct r as [b|e]; [by apply Hk|].
  split_and!; [done..|]. left. auto.
Qed.

Lemma handles_throw e w Post Er : Er e -> handles (throw e) w Post Er.
Proof. intros He. apply wp_ret. split_and!; [done..|]. left. auto. Qed.

Lemma handles_now (k : Z -> io ServiceError A) w Post Er :
  handles (k (w_clock w)) w Post Er -> handles (x ← now_millis; k x) w Post Er.
Proof. intros Hk. by apply wp_io_bind, wp_perform. Qed.

Lemma handles_begin (k : io ServiceError A) w Post Er :
  txh (w_cache w) (w_db w) k (w_db w) (w_seqs w) Post Er -> handles (begin_tx;; k) w Post Er.
Proof.
  intros Hk. apply wp_io_bind. apply wp_map_err, wp_perform_err.
  unfold step, step_begin, next_fault.
  destruct (mjoin (head (w_faults w))) as [f|] eqn:Hf; simpl.
  - split_and!; [done..|]. left. split; [done|]. intros Hn. by rewrite Hn in Hf.
  - eapply wp_mono; [by apply Hk|]. simpl. intros r w' (Hcl & Hs & Hr). simpl in *.
    split_and!; [done..|]. destruct r as [a|e]; [done|].
    destruct Hr as [Hc [[Hdb Hn]|[Hn Hp]]]; split; try done; [left|right].
    + split; [done|]. intros Hnil. apply Hn. by rewrite Hnil.
    + split; [|done]. eapply lossy_suffix; [|exact Hn]. apply suffix_tail.
Qed.

Lemma txh_bind {B} c db0 (p : io ServiceError B) (k : B -> io ServiceError A) db s R
    Er' Post Er :
  tx c p db s R Er' -> (forall e, Er' e -> Er e) ->
  (forall b db' s', R b db' s' -> seqs_le s s' -> txh c db0 (k b) db' s' Post Er) ->
  txh c db0 (x ← p; k x) db s Post Er.
Proof.
  intros Hp HE Hk w Hw Hs Hc Hdb. apply wp_io_bind.
  eapply wp_mono; [by apply Hp|]. intros [b|e] w' [Hf Hr]; simpl.
  - destruct Hr as (db' & Hdb' & HR). destruct Hf as [Hfd Hfc Hfcl Hfs Hff].
    eapply wp_mono.
    + apply (Hk b db' (w_seqs w')); try done; [by rewrite <- Hs| |]; congruence.
    + intros r w'' (Hcl & Hs' & Hr). split_and!; [congruence|by etrans|].
      destruct r as [a|e]; [done|]. rewrite Hfd, Hfc in Hr.
      destruct Hr as [Hcc [[Hd Hn]|[Hn Hp']]]; split; try done; [left|right].
      * split; [done|]. intros Hnil. apply Hn. rewrite Hnil in Hff.
        by apply suffix_nil_inv in Hff.
      * split; [|done]. by eapply lossy_suffix.
  - destruct Hf as [Hfd Hfc Hfcl Hfs Hff]. split_and!; [done..|]. left. auto.
Qed.

Lemma txh_throw c db0 e db s Post Er : Er e -> txh c db0 (throw e) db s Post Er.
Proof. intros He w _ _ _ _. apply wp_ret. split_and!; [done..|]. left. auto. Qed.

Lemma txh_reads_bind {B} c db0 (p : io ServiceError B) (k : B -> io ServiceError A) v db s
    Er' Post Er :
  tx c p db s (reads v db s) Er' -> (forall e, Er' e -> Er e) ->
  txh c db0 (k v) db s Post Er -> txh c db0 (x ← p; k x) db s Post Er.
Proof.
  intros Hp HE Hk. eapply txh_bind; [exact Hp|done|]. by intros ??? (-> & -> & ->) _.
Qed.

(** A storage method. *)
Lemma txh_storage {B} c db0 (p : io StorageError B) (k : B -> io ServiceError A) db s R
    (Er0 : StorageError -> Prop) Post Er :
  tx c p db s R Er0 -> (forall e, Er0 e -> Er (ServiceError_from_storage e)) ->
  (forall b db' s', R b db' s' -> seqs_le s s' -> txh c db0 (k b) db' s' Post Er) ->
  txh c db0 (x ← storage p; k x) db s Post Er.
Proof.
  intros Hp HE. apply (txh_bind _ _ _ _ _ _ _ Er); [|done].
  apply tx_storage. eapply tx_mono; eauto.
Qed.

Lemma txh_storage_read {B} c db0 (p : io StorageError B) (k : B -> io ServiceError A) v db s
    Post Er :
  tx c p db s (reads v db s) (fun _ => False) -> txh c db0 (k v) db s Post Er ->
  txh c db0 (x ← storage p; k x) db s Post Er.
Proof.
  intros Hp Hk. eapply txh_storage; [exact Hp|done|]. by intros ??? (-> & -> & ->) _.
Qed.

Lemma txh_lift_bind {B} c db0 (r : result ServiceError B) (k : B -> io ServiceError A) db s
    Post Er :
  (forall e, r = Err e -> Er e) -> (forall b, r = Ok b -> txh c db0 (k b) db s Post Er) ->
  txh c db0 (x ← lift r; k x) db s Post Er.
Proof.
  intros He Hk. destruct r as [b|e].
  - eapply (txh_reads_bind _ _ _ _ b); [|done|auto]. by apply tx_lift.
  - intros w _ _ _ _. apply wp_io_bind, wp_ret. split_and!; [done..|]. left. auto.
Qed.

(** The commit: the change becomes permanent, or the database failed. *)
Lemma txh_commit c db0 (k : io ServiceError A) db s a c' Post Er :
  fin c k a c' -> Post a db c' s -> txh c db0 (commit_tx;; k) db s Post Er.
Proof.
  intros Hk HP w Hw Hs Hc Hdb. apply wp_io_bind, wp_perform_err.
  unfold step, step_commit, next_fault. simpl. rewrite Hw.
  destruct (mjoin (head (w_faults w))) as [f|] eqn:Hf; simpl.
  - assert (w_faults w <> []) as Hn by (intros Hn; by rewrite Hn in Hf).
    destruct (fault_applied f) eqn:Happ; simpl; (split_and!; [done..|]).
    + right. split; [|exists a, c'; by rewrite Hs]. exists f. split; [|done].
      destruct (w_faults w) as [|o l]; [done|]. simpl in Hf. subst. set_solver.
    + left. done.
  - eapply wp_mono; [by apply Hk|]. simpl. intros r w' (-> & Hc' & Hdb' & Hs' & Hcl).
    simpl in *. split_and!; [done|by rewrite Hs'|]. by rewrite Hdb', Hc', Hs', Hs.
Qed.

Lemma handles_mono (p : io ServiceError A) w Post Post' Er Er' :
  handles p w Post Er -> (forall a db c s, Post a db c s -> Post' a db c s) ->
  (forall e, Er e -> Er' e) -> handles p w Post' Er'.
Proof.
  intros Hp HP HE. eapply wp_mono; [exact Hp|]. intros r w' (? & ? & Hr).
  split_and!; [done..|]. destruct r as [a|e]; [by apply HP|].
  destruct Hr as [? [[? ?]|[? (a & c' & ?)]]]; split; [done|left; auto|done|right; eauto].
Qed.

Lemma txh_mono c db0 (p : io ServiceError A) db s Post Post' Er Er' :
  txh c db0 p db s Post Er -> (forall a db c s, Post a db c s -> Post' a db c s) ->
  (forall e, Er e -> Er' e) -> txh c db0 p db s Post' Er'.
Proof. intros Hp HP HE w ????. eapply handles_mono; [by apply Hp|done|done]. Qed.

(** *** After the commit *)

Lemma fin_ret c a : fin (A := A) c (mret a) a c.
Proof. intros w Hc. apply wp_ret. done. Qed.

Lemma fin_bind {B} c (p : io ServiceError B) (k : B -> io ServiceError A) b c1 a c2 :
  fin c p b c1 -> fin c1 (k b) a c2 -> fin c (x ← p; k x) a c2.
Proof.
  intros Hp Hk w Hc. apply wp_io_bind. eapply wp_mono; [by apply Hp|].
  intros r w' (-> & Hc' & Hdb & Hs & Hcl). eapply wp_mono; [by apply Hk|].
  intros r w'' (-> & ? & ? & ? & ?). split_and!; congruence.
Qed.
End rules.

Lemma fin_counter `{JsonLib, PgLib} c n ls : fin c (counter n ls) tt c.
Proof. intros w Hc. apply wp_perform. done. Qed.

Lemma fin_lift `{JsonLib, PgLib} {A} c (r : result ServiceError A) a :
  r = Ok a -> fin c (lift r) a c.
Proof. intros -> w Hc. by apply wp_ret. Qed.

Lemma fin_cache_set `{JsonLib, PgLib} c id p q :
  fin c (cache_set id p q) tt (BalanceCache_set id p q c).
Proof. intros w Hc. apply wp_perform. simpl. by rewrite Hc. Qed.

Lemma fin_update_cache `{JsonLib, PgLib} c u :
  fin c (update_cache u) tt (apply_cache u c).
Proof.
  revert c. induction u as [|[[a p] q] u IH]; intros c; [apply fin_ret|].
  eapply fin_bind; [|apply IH]. intros w Hc. apply wp_perform. simpl. by rewrite Hc.
Qed.
