(* ===== verification/HandlerSpecs.v ===== *)
(** * Specifications of the RPC handlers

    For each handler of [service/ledger.rs]: what it commits and answers when it
    succeeds, and, when the database does not fail, which error it returns and
    when. *)

From S2P Require Import Prelude.
From S2P Require Import Money Accounts Transactions Entries Validation.
From S2P Require Import StorageErrors Schema Cache Effects Triples Postgres.
From S2P Require Import ServiceErrors Ledger Invariant Updates PostgresSpecs LedgerSpecs.
From S2P Require Import Preserve Handlers.
Local Open Scope Z_scope.

(** ** Updates that fit *)

(** Moving every account of [items] by the coefficients times its delta stays
    within the columns. *)
Definition balances_fit (cp cq : Z) (items : list (Z * Z)) (acs : gmap Z accounts_row)
  : Prop :=
  forall a r, a ∈ items.*1 -> acs !! a = Some r ->
    in_i64 (a_posted_balance r + cp * delta_of items a) /\
    in_i64 (a_pending_balance r + cq * delta_of items a) /\
    in_i32 (a_version r + 1).

Lemma balances_fit_updates cp cq items u acs :
  updates_of cp cq items u -> Forall (update_fits acs) u <-> balances_fit cp cq items acs.
Proof.
  intros [Hnd Hv Hids]. rewrite Forall_forall. split.
  - intros Hf a r Ha Hr. apply Hids, update_id_split in Ha as (u1 & p & q & u2 & ->).
    destruct (Hv a p q ltac:(set_solver)) as [<- <-].
    by apply (Hf (a, p, q) ltac:(set_solver)).
  - intros Hf [[a p] q] Hin r Hr. simpl in *.
    destruct (Hv _ _ _ Hin) as [-> ->]. apply Hf; [|done].
    by eapply Hids, update_id_elem.
Qed.

Definition fits_at (cp cq : Z) (items : list (Z * Z)) (acs : gmap Z accounts_row) (a : Z)
  : Prop :=
  match acs !! a with
  | Some r => in_i64 (a_posted_balance r + cp * delta_of items a) /\
              in_i64 (a_pending_balance r + cq * delta_of items a) /\ in_i32 (a_version r + 1)
  | None => True
  end.
#[export] Instance fits_at_dec cp cq items acs a : Decision (fits_at cp cq items acs a).
Proof. unfold fits_at. destruct (acs !! a); apply _. Defined.

Lemma balances_fit_Forall cp cq items acs :
  balances_fit cp cq items acs <-> Forall (fits_at cp cq items acs) items.*1.
Proof.
  rewrite Forall_forall. unfold balances_fit, fits_at. split.
  - intros Hf a Ha. destruct (acs !! a) as [r|] eqn:Hr; [by apply Hf|done].
  - intros Hf a r Ha Hr. specialize (Hf a Ha). by rewrite Hr in Hf.
Qed.

#[export] Instance balances_fit_dec cp cq items acs : Decision (balances_fit cp cq items acs).
Proof.
  destruct (decide (Forall (fits_at cp cq items acs) items.*1));
    [left|right]; by rewrite balances_fit_Forall.
Defined.

(** The rows a settlement or an authorization moves balances by. *)
Definition items `{JsonLib} (db : database) (rows : list entries_row) : list (Z * Z) :=
  item_of (accounts db) <$> rows.
Definition txn_rows `{JsonLib} (t : Z) (db : database) : list entries_row :=
  snd <$> entries_of t db.

Section specs.
Context `{JsonLib, PgLib}.

(** ** [CreateAccount] *)

Definition account_row (ty : AccountType) (code : string) (scale now : Z) : accounts_row :=
  mk_accounts_row (account_type_to_i16 ty) code scale 0 0 0 now.

Definition create_account_post (req : CreateAccountRequest) (w : world)
    (pa : ProtoAccount) (db' : database) (c' : BalanceCache) (s' : sequences) : Prop :=
  let s := w_seqs w in let scale := as_u8 (ca_asset_scale req) in
  exists ty code',
    proto_to_account_type (ca_account_type req) = Ok ty /\
    ca_asset_code req <> "" /\ scale <= 18 /\ 0 < w_clock w /\
    varchar_input 16 (ca_asset_code req) = Ok code' /\
    db' = add_account (accounts_id_seq s) (account_row ty code' scale (w_clock w)) (w_db w) /\
    c' = BalanceCache_set (accounts_id_seq s) 0 0 (w_cache w) /\
    s' = mk_sequences (accounts_id_seq s + 1) (transactions_id_seq s) (entries_id_seq s) /\
    pa = account_to_proto (mkAccount (accounts_id_seq s) ty (ca_asset_code req) scale 0
                             (w_clock w)).

Definition create_account_error (req : CreateAccountRequest) (w : world) (e : ServiceError)
  : Prop :=
  match proto_to_account_type (ca_account_type req) with
  | Err e' => e = e'
  | Ok _ =>
      (ca_asset_code req = "" /\ e = ServiceError_InvalidArgument "asset_code is required") \/
      (as_u8 (ca_asset_scale req) > 18 /\
       e = ServiceError_InvalidArgument
             ("asset_scale " +:+ pretty (as_u8 (ca_asset_scale req)) +:+ " exceeds max 18")) \/
      ~ (in_i64 (accounts_id_seq (w_seqs w)) /\ 0 < w_clock w /\
         is_ok (varchar_input 16 (ca_asset_code req)) = true)
  end.

Lemma create_account_spec req w :
  handles (create_account req) w (create_account_post req w) (create_account_error req w).
Proof.
  unfold create_account_error. apply handles_lift.
  { intros e He. by rewrite He. }
  intros ty Hty. rewrite Hty.
  destruct (decide (ca_asset_code req = "")) as [Hc|Hc]; [apply handles_throw; auto|].
  destruct (decide (as_u8 (ca_asset_scale req) > 18)) as [Hsc|Hsc];
    [apply handles_throw; auto|].
  pose proof (as_u8_range (ca_asset_scale req)).
  apply handles_now, handles_begin.
  eapply txh_storage; [apply tx_create_account|..]; cbv beta.
  { intros e Hn. right. right. contradict Hn. destruct_and!. split_and!; done || lia. }
  intros id db' s' (code' & -> & Hcode & Hs & Hnow & Hid & -> & ->) _.
  eapply txh_commit.
  - eapply fin_bind; [apply fin_cache_set|]. eapply fin_bind; [apply fin_lift|apply fin_ret].
    assert (Account_new (accounts_id_seq (w_seqs w)) ty (ca_asset_code req)
      (as_u8 (ca_asset_scale req)) 0 (w_clock w) = Ok (mkAccount (accounts_id_seq (w_seqs w))
        ty (ca_asset_code req) (as_u8 (ca_asset_scale req)) 0 (w_clock w))) as ->; [|done].
    apply Account_new_Ok. split; [done|]. split; simpl; done || lia.
  - exists ty, code'. split_and!; done || lia.
Qed.

(** ** Reads *)

Lemma get_account_spec id w :
  db_ok (w_db w) (w_seqs w) ->
  handles (get_account id) w
    (fun pa db' c' s' => db' = w_db w /\ c' = w_cache w /\ s' = w_seqs w /\
       exists r, accounts (w_db w) !! id = Some r /\ pa = account_to_proto (account_view id r))
    (fun e => (id <= 0 /\ e = ServiceError_InvalidArgument
                 (AccountError_to_string (AccountError_InvalidId id))) \/
              (accounts (w_db w) !! id = None /\ e = ServiceError_AccountNotFound id)).
Proof.
  intros Hok. apply handles_lift.
  { unfold AccountId_new. case_decide; [|done]. intros e [= <-]. left. split; [lia|done]. }
  intros a Ha. unfold map_err in Ha. destruct (AccountId_new id) as [a'|] eqn:Hid; [|done].
  simplify_eq. apply AccountId_new_Ok in Hid as [-> Hpos].
  apply handles_begin.
  eapply txh_storage_read; [apply tx_get_account|].
  { intros. by eapply db_ok_account_row. }
  apply txh_lift_bind.
  { destruct (accounts (w_db w) !! id) as [r|] eqn:Hr; [done|]. intros e [= <-]. by right. }
  intros x Hx. destruct (accounts (w_db w) !! id) as [r|] eqn:Hr; [|done].
  simpl in Hx. simplify_eq.
  eapply txh_commit; [apply fin_ret|]. eauto 10.
Qed.

Lemma get_balance_spec id w :
  handles (get_balance id) w
    (fun pb db' c' s' => db' = w_db w /\ c' = w_cache w /\ s' = w_seqs w /\
       exists b, BalanceCache_get id (w_cache w) = Some b /\
         pb = mkProtoBalance (AccountBalance_posted b) (AccountBalance_pending b)
                (AccountBalance_available b))
    (fun e => (id <= 0 /\ e = ServiceError_InvalidArgument
                 (AccountError_to_string (AccountError_InvalidId id))) \/
              (BalanceCache_get id (w_cache w) = None /\ e = ServiceError_AccountNotFound id)).
Proof.
  apply handles_lift.
  { unfold AccountId_new. case_decide; [|done]. intros e [= <-]. left. split; [lia|done]. }
  intros a Ha. destruct (AccountId_new id) as [a'|] eqn:Hid; [|done]. simpl in Ha.
  simplify_eq. apply AccountId_new_Ok in Hid as [-> Hpos].
  apply wp_io_bind, wp_perform. simpl. fold (handles (A := ProtoBalance)).
  assert (set_cache (w_cache w) w = w) as -> by by destruct w.
  apply handles_lift.
  { destruct (BalanceCache_get id (w_cache w)); [done|]. intros e [= <-]. by right. }
  intros b Hb. destruct (BalanceCache_get id (w_cache w)) as [b'|]; [|done].
  simpl in Hb. simplify_eq. apply wp_ret. split_and!; [done..|]. simpl. eauto 10.
Qed.

Lemma get_entries_spec id w :
  db_ok (w_db w) (w_seqs w) ->
  handles (get_entries id) w
    (fun es db' c' s' => db' = w_db w /\ c' = w_cache w /\ s' = w_seqs w /\
       is_Some (accounts (w_db w) !! id) /\
       es = entry_to_proto <$> (entry_view <$> select_entries_of_account id (w_db w)))
    (fun e => (id <= 0 /\ e = ServiceError_InvalidArgument
                 (AccountError_to_string (AccountError_InvalidId id))) \/
              (accounts (w_db w) !! id = None /\ e = ServiceError_AccountNotFound id)).
Proof.
  intros Hok. apply handles_lift.
  { unfold AccountId_new. case_decide; [|done]. intros e [= <-]. left. split; [lia|done]. }
  intros a Ha. destruct (AccountId_new id) as [a'|] eqn:Hid; [|done]. simpl in Ha.
  simplify_eq. apply AccountId_new_Ok in Hid as [-> Hpos].
  apply handles_begin.
  eapply txh_storage_read; [apply tx_get_account|].
  { intros. by eapply db_ok_account_row. }
  apply txh_lift_bind.
  { destruct (accounts (w_db w) !! id) as [r|] eqn:Hr; [done|]. intros e [= <-]. by right. }
  intros x Hx. destruct (accounts (w_db w) !! id) as [r|] eqn:Hr; [|done].
  eapply txh_storage_read; [apply tx_get_entries_for_account|].
  { intros. by eapply db_ok_entry_row. }
  eapply txh_commit; [apply fin_ret|]. eauto 10.
Qed.
End specs.
