(* ===== verification/AuthorizeSpec.v ===== *)
(** * Specification of [authorize] *)

From S2P Require Import Prelude.
From S2P Require Import Money Accounts Transactions Entries Validation.
From S2P Require Import StorageErrors Schema Cache Effects Triples Postgres.
From S2P Require Import ServiceErrors Ledger Invariant Updates PostgresSpecs LedgerSpecs.
From S2P Require Import Preserve Handlers HandlerSpecs.
Local Open Scope Z_scope.

(** The amounts of a decoded message are [i64]. *)
Definition request_typed (req : AuthorizeRequest) : Prop :=
  Forall (fun leg => in_i64 (pl_amount leg)) (au_legs req).

Lemma parse_transfer_leg_Ok pl leg :
  parse_transfer_leg pl = Ok leg ->
  TransferLeg_account_id leg = pl_account_id pl /\ 0 < pl_account_id pl /\
  TransferLeg_amount leg = pl_amount pl /\ 0 < pl_amount pl /\
  proto_to_entry_type (pl_entry_type pl) = Ok (TransferLeg_entry_type leg).
Proof.
  unfold parse_transfer_leg, AccountId_new, Amount_new, TransferLeg_new, Amount_value.
  destruct (decide (_ <= 0)); simpl; [done|].
  destruct (proto_to_entry_type _) as [ty|]; simpl; [|done].
  destruct (decide (_ < 0)); simpl; [done|]. destruct (decide (_ = 0)); simpl; [done|].
  intros [= <-]. simpl. split_and!; done || lia.
Qed.

Lemma parse_transfer_legs_valid req legs :
  request_typed req -> parse_transfer_legs (au_legs req) = Ok legs -> Forall valid_leg legs.
Proof.
  intros Ht Hp. apply try_map_Ok_Forall2 in Hp. unfold request_typed in Ht.
  induction Hp as [|pl leg pls legs Hpl _ IH]; [done|].
  apply Forall_cons in Ht as [Hpl' Ht]. constructor; [|by apply IH].
  apply parse_transfer_leg_Ok in Hpl as (_ & _ & Ha & Hpos & _).
  unfold valid_leg. rewrite Ha. int_lia.
Qed.

Lemma rows_total_pending side t now legs :
  rows_total side (pending_rows t now legs) = legs_total side legs.
Proof.
  unfold rows_total, pending_rows, legs_total. rewrite Zsum_fmap. apply Zsum_ext.
  intros leg _. unfold leg_on. simpl. by rewrite code_side_entry_type.
Qed.

Lemma pending_rows_fit t now legs :
  Forall valid_leg legs -> validate_transaction_balance legs = Ok tt ->
  rows_fit (pending_rows t now legs).
Proof.
  intros Hv Hb. destruct (validate_transaction_balance_Ok _ Hv Hb) as (_ & Heq & Hle).
  split; [|rewrite !rows_total_pending; lia].
  intros e He. apply list_elem_of_fmap in He as (leg & -> & Hleg).
  rewrite Forall_forall in Hv. by apply Hv.
Qed.

Lemma new_rows_pending `{JsonLib} (db : database) t now legs :
  Forall valid_leg legs -> validate_transaction_balance legs = Ok tt -> 
  Forall entries_check (pending_rows t now legs) ->
  (forall leg, leg ∈ legs -> is_Some (accounts db !! TransferLeg_account_id leg)) ->
  new_rows db t (pending_rows t now legs).
Proof.
  intros Hv Hb Hck Hacc.
  destruct (validate_transaction_balance_Ok _ Hv Hb) as (Hlen & Heq & Hle).
  rewrite Forall_forall in Hv. rewrite Forall_forall in Hck.
  assert (forall e, e ∈ pending_rows t now legs -> exists leg, leg ∈ legs /\ e = leg_row t 1 now leg)
    as Hin.
  { intros e He. apply list_elem_of_fmap in He as (leg & -> & Hleg). eauto. }
  split; try (intros e (leg & Hleg & ->)%Hin; simpl; by auto).
  - apply Forall_forall. intros e He. split; [auto|].
    destruct (Hin e He) as (leg & Hleg & ->). apply Hv in Hleg.
    unfold valid_leg in Hleg. simpl. lia.
  - by rewrite !rows_total_pending.
  - by rewrite rows_total_pending.
  - unfold pending_rows. rewrite length_fmap. lia.
Qed.

Section authorize.
Context `{JsonLib, PgLib}.

(** ** Answers *)

Definition pending_transaction_row (key : string) (md : JsonValue) (now : Z)
  : transactions_row := mk_transactions_row _ key 1 md now None.

(** A new pending transaction. *)
Definition authorize_new_post (key : string) (md : JsonValue) (legs : list TransferLeg)
    (w : world) (resp : AuthorizeResponse) (db' : database) (c' : BalanceCache)
    (s' : sequences) : Prop :=
  let s := w_seqs w in let db := w_db w in let now := w_clock w in
  let t := transactions_id_seq s in
  let rows := pending_rows t now legs in
  exists key' md' u,
    varchar_input 64 key = Ok key' /\ jsonb_input md = Ok md' /\
    find_key key' db = None /\ 0 < now /\
    new_rows db t rows /\ Forall (leg_covered (w_cache w) (accounts db)) legs /\
    updates_of 0 1 (items db rows) u /\ Forall (update_fits (accounts db)) u /\
    db' = add_transaction t (pending_transaction_row key' md' now) (entries_id_seq s) rows u db /\
    c' = apply_cache u (w_cache w) /\
    s' = mk_sequences (accounts_id_seq s) (t + 1) (entries_id_seq s + Z.of_nat (length rows)) /\
    resp = mkAuthorizeResponse
      (transaction_to_proto (mkTransaction _ t key TransactionStatus_Pending md now 0))
      (entry_to_proto <$> (entry_view <$> number_rows (entries_id_seq s) rows)).

(** The transaction already recorded under the key. *)
Definition authorize_existing_post (t : Z) (tr : transactions_row) (w : world)
    (resp : AuthorizeResponse) (db' : database) (c' : BalanceCache) (s' : sequences) : Prop :=
  db' = w_db w /\ c' = w_cache w /\ s' = w_seqs w /\
  resp = mkAuthorizeResponse (transaction_to_proto (transaction_view t tr))
           (entry_to_proto <$> (entry_view <$> entries_of t (w_db w))).

(** The request passed every check that does not need the database. *)
Definition authorize_parsed (req : AuthorizeRequest) (md : JsonValue)
    (legs : list TransferLeg) : Prop :=
  au_idempotency_key req <> "" /\ parse_metadata (au_metadata req) = Ok md /\
  parse_transfer_legs (au_legs req) = Ok legs /\ validate_transaction_balance legs = Ok tt.

Definition authorize_post (req : AuthorizeRequest) (w : world)
    (resp : AuthorizeResponse) (db' : database) (c' : BalanceCache) (s' : sequences) : Prop :=
  exists md legs, authorize_parsed req md legs /\
    match find_key (au_idempotency_key req) (w_db w) with
    | Some (t, tr) => authorize_existing_post t tr w resp db' c' s'
    | None => authorize_new_post (au_idempotency_key req) md legs w resp db' c' s'
    end.

(** ** Errors *)

(** What the database needs to accept the new transaction. *)
Definition authorize_accepted (key : string) (md : JsonValue) (legs : list TransferLeg)
    (w : world) : Prop :=
  let s := w_seqs w in
  let rows := pending_rows (transactions_id_seq s) (w_clock w) legs in
  in_i64 (transactions_id_seq s) /\ is_ok (jsonb_input md) = true /\ 0 < w_clock w /\
  entries_id_seq s + Z.of_nat (length legs) <= i64_max /\
  (exists key', varchar_input 64 key = Ok key' /\ find_key key' (w_db w) = None) /\
  balances_fit 0 1 (items (w_db w) rows) (accounts (w_db w)).

Definition authorize_new_error (key : string) (md : JsonValue) (legs : list TransferLeg)
    (w : world) (e : ServiceError) : Prop :=
  (exists leg, leg ∈ legs /\ accounts (w_db w) !! TransferLeg_account_id leg = None /\
     e = ServiceError_AccountNotFound (TransferLeg_account_id leg)) \/
  (exists leg, leg ∈ legs /\ ~ leg_covered (w_cache w) (accounts (w_db w)) leg /\
     uncovered_error (w_cache w) leg e) \/
  ~ authorize_accepted key md legs w.

Definition authorize_error (req : AuthorizeRequest) (w : world) (e : ServiceError) : Prop :=
  (au_idempotency_key req = "" /\
     e = ServiceError_InvalidArgument "idempotency_key is required") \/
  parse_metadata (au_metadata req) = Err e \/
  parse_transfer_legs (au_legs req) = Err e \/
  (exists legs ve, parse_transfer_legs (au_legs req) = Ok legs /\
     validate_transaction_balance legs = Err ve /\ e = ServiceError_from_validation ve) \/
  (exists md legs, authorize_parsed req md legs /\
     find_key (au_idempotency_key req) (w_db w) = None /\
     authorize_new_error (au_idempotency_key req) md legs w e).

Lemma authorize_existing_spec t tr w Er :
  db_ok (w_db w) (w_seqs w) ->
  txh (w_cache w) (w_db w) (authorize_existing (transaction_view t tr)) (w_db w) (w_seqs w)
    (authorize_existing_post t tr w) Er.
Proof.
  intros Hok. eapply txh_storage_read; [apply tx_get_entries_for_transaction|].
  { intros. by eapply db_ok_entry_row. }
  eapply txh_commit; [eapply fin_bind; [apply fin_counter|apply fin_ret]|]. done.
Qed.

Lemma pending_rows_ids (db : database) t now legs a :
  a ∈ (items db (pending_rows t now legs)).*1 <-> a ∈ TransferLeg_account_id <$> legs.
Proof.
  unfold items, pending_rows. rewrite <- !list_fmap_compose.
  rewrite !list_elem_of_fmap. done.
Qed.

Lemma authorize_new_spec key md legs w :
  db_ok (w_db w) (w_seqs w) -> key <> "" -> Forall valid_leg legs ->
  validate_transaction_balance legs = Ok tt ->
  txh (w_cache w) (w_db w) (authorize_new key md legs (w_clock w)) (w_db w) (w_seqs w)
    (authorize_new_post key md legs w) (authorize_new_error key md legs w).
Proof.
  intros Hok Hkey Hv Hbal.
  pose proof (ok_seqs _ _ Hok) as (_ & Hst & Hse).
  eapply txh_bind; [apply tx_lock_accounts; intros; by eapply db_ok_account_row|..].
  { intros e (a & Ha & Hn & ->). left. apply list_elem_of_fmap in Ha as (leg & -> & Hleg).
    eauto. }
  intros accts db' s' (-> & -> & Hl) _.
  assert (forall leg, leg ∈ legs ->
    locked (accounts (w_db w)) accts (TransferLeg_account_id leg)) as Hl'.
  { intros leg Hleg. apply Hl. apply list_elem_of_fmap. eauto. }
  eapply txh_bind; [by apply tx_check_available|right; by left|].
  intros [] db' s' (-> & -> & Hcov) _.
  eapply txh_storage; [apply tx_create_transaction|..].
  { intros e Hn. right. right. contradict Hn. destruct Hn as (? & ? & ? & ? & ? & ?). tauto. }
  intros t db' s' (key' & md' & -> & Hk & Hmd & Hfk & Hid & Hck & -> & ->) _.
  assert (0 < w_clock w) as Hnow by apply Hck.
  eapply txh_bind; [apply tx_authorize_legs|..].
  { done. }
  { simpl. rewrite lookup_insert_eq. eauto. }
  { by apply pending_rows_fit. }
  { done. }
  { intros e Hn. right. right. intros Ha. apply Hn. by destruct Ha as (_ & _ & ? & ? & _). }
  intros [es u] db' s' (Hes & Hu & Hrows & -> & ->) _. simpl in Hes, Hu.
  eapply txh_bind; [eapply (tx_apply_balance_updates _ accts u (accounts (w_db w)))|..].
  { apply Hu. }
  { intros a Ha. apply (uo_ids _ _ _ _ Hu) in Ha. apply Hl.
    by apply (pending_rows_ids (w_db w)) in Ha. }
  { done. }
  { intros e Hn. right. right. intros Ha. apply Hn. destruct Ha as (? & ? & ? & ? & ? & ?).
    by apply (balances_fit_updates _ _ _ _ _ Hu). }
  intros [] db' s' (-> & -> & Hfit) _.
  eapply txh_commit.
  - eapply fin_bind; [apply fin_update_cache|]. eapply fin_bind; [apply fin_counter|].
    eapply fin_bind; [apply fin_lift|apply fin_ret].
    assert (Transaction_new (transactions_id_seq (w_seqs w)) key TransactionStatus_Pending md
      (w_clock w) 0 = Ok (mkTransaction _ (transactions_id_seq (w_seqs w)) key
        TransactionStatus_Pending md (w_clock w) 0)) as ->; [|done].
    apply Transaction_new_Ok. split; [done|]. split; done || simpl; lia.
  - exists key', md', u. simpl in Hes. subst es. split_and!; try done.
    + apply new_rows_pending; try done. intros leg Hleg.
      destruct (Hl' leg Hleg) as (r & -> & _). eauto.
    + simpl. f_equal. unfold pending_rows. by rewrite length_fmap.
Qed.

Lemma authorize_spec req w :
  db_ok (w_db w) (w_seqs w) -> request_typed req ->
  handles (authorize req) w (authorize_post req w) (authorize_error req w).
Proof.
  intros Hok Htyped. unfold authorize.
  destruct (decide (au_idempotency_key req = "")) as [Hk|Hk].
  { apply handles_throw. by left. }
  apply handles_lift; [by right; left|]. intros md Hmd.
  apply handles_lift; [by right; right; left|]. intros legs Hlegs.
  apply handles_lift.
  { intros e He. do 3 right. left.
    destruct (validate_transaction_balance legs) as [[]|ve] eqn:Hve; [done|].
    exists legs, ve. simpl in He. by simplify_eq. }
  intros [] Hbal. destruct (validate_transaction_balance legs) as [[]|] eqn:Hve; [|done].
  assert (authorize_parsed req md legs) as Hparsed by done.
  apply handles_now, handles_begin.
  eapply txh_storage_read; [apply tx_find_transaction_by_key|].
  { intros. by eapply db_ok_transaction_row. }
  destruct (find_key (au_idempotency_key req) (w_db w)) as [[t tr]|] eqn:Hf.
  - eapply txh_mono; [by apply authorize_existing_spec| |intros e He; exact He].
    intros resp db' c' s' Hpost. exists md, legs. by rewrite Hf.
  - eapply txh_mono; [apply authorize_new_spec; try done|..].
    + by eapply parse_transfer_legs_valid.
    + intros resp db' c' s' Hpost. exists md, legs. by rewrite Hf.
    + intros e He. do 4 right. by exists md, legs.
Qed.
End authorize.
