(* ===== verification/SettleSpec.v ===== *)
(** * Specification of [capture] and [void] *)

From S2P Require Import Prelude.
From S2P Require Import Money Accounts Transactions Entries Validation.
From S2P Require Import StorageErrors Schema Cache Effects Triples Postgres.
From S2P Require Import ServiceErrors Ledger Invariant Updates PostgresSpecs LedgerSpecs.
From S2P Require Import Preserve Handlers HandlerSpecs.
Local Open Scope Z_scope.

Section settle.
Context `{JsonLib, PgLib}.

(** What the branch of a pending transaction commits: [tr'] is the settled row
    of the transaction, [cp] is 1 if its entries are posted and 0 if voided. *)
Definition settle_post (t : Z) (tr' : transactions_row) (cp : Z) (w : world)
    (resp : ProtoTransaction) (db' : database) (c' : BalanceCache) (s' : sequences) : Prop :=
  let db := w_db w in
  exists u,
    transactions_check tr' /\
    updates_of cp (-1) (items db (txn_rows t db)) u /\ Forall (update_fits (accounts db)) u /\
    db' = settle t tr' (t_status tr') u db /\ c' = apply_cache u (w_cache w) /\
    s' = w_seqs w /\ resp = transaction_to_proto (transaction_view t tr').

Definition settle_accepted (t : Z) (tr' : transactions_row) (cp : Z) (w : world) : Prop :=
  transactions_check tr' /\
  balances_fit cp (-1) (items (w_db w) (txn_rows t (w_db w))) (accounts (w_db w)).

(** The branch, for either outcome. *)
Definition settle_branch (upd : AccountId -> Z -> list (Z * Z * Z) -> list (Z * Z * Z))
    (t : Z) (txn : Transaction) (status : TransactionStatus) (estatus : EntryStatus)
    (posted : option Z) (posted_at : Z) (label : string)
  : io ServiceError ProtoTransaction :=
  es ← storage (storage_get_entries_for_transaction t);
  accts ← lock_accounts (Entry_account_id <$> es);
  updates ← settle_updates upd accts es;
  storage (storage_update_transaction_status t status posted);;
  storage (storage_update_entry_status_by_transaction t estatus);;
  apply_balance_updates accts updates;;
  commit_tx;;
  update_cache updates;;
  counter "fides_transactions_total" [("status", label)];;
  updated ← lift (map_err ServiceError_from_transaction
    (Transaction_new t (Transaction_idempotency_key txn) status (Transaction_metadata txn)
       (Transaction_created_at txn) posted_at));
  mret (transaction_to_proto updated).

Lemma tx_settle_entries_ids (db : database) t a :
  a ∈ (items db (txn_rows t db)).*1 <->
  a ∈ Entry_account_id <$> (entry_view <$> entries_of t db).
Proof.
  unfold items, txn_rows. rewrite <- !list_fmap_compose, !list_elem_of_fmap. done.
Qed.

Lemma settle_branch_spec upd cp t tr status estatus posted posted_at label w
    (Er : ServiceError -> Prop) :
  let tr' := set_transaction_status tr (transaction_status_to_i16 status) posted in
  (forall items a d u, updates_of cp (-1) items u -> small d -> small (delta_of items a) ->
     small (delta_of items a + d) ->
     updates_of cp (-1) (items ++ [(a, d)]) (upd a d u)) ->
  db_ok (w_db w) (w_seqs w) -> transactions (w_db w) !! t = Some tr ->
  entry_status_to_i16 estatus = transaction_status_to_i16 status ->
  posted_at = default 0 posted ->
  match status with TransactionStatus_Posted => is_Some posted | _ => posted = None end ->
  (forall e, ~ settle_accepted t tr' cp w -> Er e) ->
  txh (w_cache w) (w_db w)
    (settle_branch upd t (transaction_view t tr) status estatus posted posted_at label)
    (w_db w) (w_seqs w) (settle_post t tr' cp w) Er.
Proof.
  intros tr' Hstep Hok Htr Hes Hpa Hpo HEr.
  pose proof (db_ok_transaction_row _ _ Hok _ _ Htr) as [(_ & Hcr & _) Hkey _ _].
  eapply txh_storage_read; [apply tx_get_entries_for_transaction|].
  { intros. by eapply db_ok_entry_row. }
  eapply txh_bind; [apply tx_lock_accounts; intros; by eapply db_ok_account_row|..].
  { intros e (a & Ha & Hn & ->). exfalso. apply list_elem_of_fmap in Ha as (x & -> & Hx).
    apply list_elem_of_fmap in Hx as ([k e] & -> & [He _]%elem_of_entries_of).
    destruct (eo_account _ _ _ _ (ok_entries _ _ Hok _ _ He)) as [r Hr].
    simpl in Hn. congruence. }
  intros accts db' s' (-> & -> & Hl) _.
  eapply txh_bind; [apply (tx_settle_updates _ upd cp (-1)); [done| |]|done|].
  { by apply (entries_of_fit _ _ Hok t tr). }
  { intros r Hr. apply Hl. rewrite <- list_fmap_compose. apply list_elem_of_fmap. by exists r. }
  intros u db' s' (-> & -> & Hu) _.
  eapply txh_storage; [by apply tx_update_transaction_status|..].
  { intros e Hn. apply HEr. intros [Hck _]. by apply Hn. }
  intros [] db' s' (-> & Hck & ->) _.
  eapply txh_storage; [apply tx_update_entry_status|done|].
  intros n db' s' (-> & ->) _.
  eapply txh_bind; [eapply (tx_apply_balance_updates _ accts u (accounts (w_db w)))|..].
  { apply Hu. }
  { intros a Ha. apply (uo_ids _ _ _ _ Hu) in Ha. apply Hl.
    by apply (tx_settle_entries_ids (w_db w)) in Ha. }
  { done. }
  { intros e Hn. apply HEr. intros [_ Hfit]. apply Hn.
    by apply (balances_fit_updates _ _ _ _ _ Hu). }
  intros [] db' s' (-> & -> & Hfit) _.
  assert (Transaction_new t (t_idempotency_key tr) status (t_metadata tr) (t_created_at tr)
    posted_at = Ok (transaction_view t tr')) as Hnew.
  { apply Transaction_new_Ok. subst tr' posted_at. unfold transaction_view. simpl.
    unfold code_txn_status. rewrite transaction_status_roundtrip. split; [done|].
    split; simpl; [done|done|]. destruct Hck as (_ & _ & Hp). simpl in Hp.
    destruct status; case_decide; try done; try (by subst posted).
    by destruct Hpo as [p ->]. }
  eapply txh_commit.
  - eapply fin_bind; [apply fin_update_cache|]. eapply fin_bind; [apply fin_counter|].
    eapply fin_bind; [apply fin_lift|apply fin_ret].
    simpl. by rewrite Hnew.
  - exists u. split_and!; try done. unfold settle, tr'. simpl. by rewrite Hes.
Qed.

(** ** [Capture] *)

Definition captured_row (now : Z) (tr : transactions_row) : transactions_row :=
  set_transaction_status tr 2 (Some now).
Definition voided_row (tr : transactions_row) : transactions_row :=
  set_transaction_status tr 3 None.

(** A request on a transaction: answered from the row when it already has the
    wanted status [done], settled when it is pending. *)
Definition settle_request_post (t : Z) (st : Z) (tr' : transactions_row -> transactions_row)
    (cp : Z) (w : world)
    (resp : ProtoTransaction) (db' : database) (c' : BalanceCache) (s' : sequences) : Prop :=
  exists tr, transactions (w_db w) !! t = Some tr /\
    ((t_status tr = st /\ db' = w_db w /\ c' = w_cache w /\ s' = w_seqs w /\
      resp = transaction_to_proto (transaction_view t tr)) \/
     (t_status tr = 1 /\ settle_post t (tr' tr) cp w resp db' c' s')).

Definition settle_request_error (t : Z) (st : Z) (tr' : transactions_row -> transactions_row)
    (cp : Z) (attempted : string) (w : world) (e : ServiceError) : Prop :=
  (t <= 0 /\ e = ServiceError_InvalidArgument
     (TransactionError_to_string (TransactionError_InvalidId t))) \/
  (transactions (w_db w) !! t = None /\ e = ServiceError_TransactionNotFound t) \/
  (exists tr, transactions (w_db w) !! t = Some tr /\ t_status tr <> 1 /\ t_status tr <> st /\
     e = ServiceError_InvalidTransactionState t (code_txn_status (t_status tr)) attempted) \/
  (exists tr, transactions (w_db w) !! t = Some tr /\ t_status tr = 1 /\
     ~ settle_accepted t (tr' tr) cp w).

Definition capture_post (t : Z) (w : world) :=
  settle_request_post t 2 (captured_row (w_clock w)) 1 w.
Definition capture_error (t : Z) (w : world) :=
  settle_request_error t 2 (captured_row (w_clock w)) 1 "capture" w.
Definition void_post (t : Z) (w : world) := settle_request_post t 3 voided_row 0 w.
Definition void_error (t : Z) (w : world) := settle_request_error t 3 voided_row 0 "void" w.

(** The status of a valid row. *)
Lemma code_txn_status_cases st :
  1 <= st <= 3 ->
  (st = 1 /\ code_txn_status st = TransactionStatus_Pending) \/
  (st = 2 /\ code_txn_status st = TransactionStatus_Posted) \/
  (st = 3 /\ code_txn_status st = TransactionStatus_Voided).
Proof. intros [->|[->| ->]]%code_cases_3; auto. Qed.

Lemma transaction_view_status t tr :
  Transaction_status (transaction_view t tr) = code_txn_status (t_status tr).
Proof. done. Qed.

Lemma settle_request_id t (e : ServiceError) :
  map_err ServiceError_from_transaction (TransactionId_new t) = Err e ->
  t <= 0 /\ e = ServiceError_InvalidArgument
    (TransactionError_to_string (TransactionError_InvalidId t)).
Proof. unfold TransactionId_new. case_decide; [|done]. intros [= <-]. split; [lia|done]. Qed.

Lemma settle_request_id_Ok t t' :
  map_err ServiceError_from_transaction (TransactionId_new t) = Ok t' -> t' = t.
Proof.
  destruct (TransactionId_new t) as [x|] eqn:Hx; [|done]. intros [= <-].
  by apply TransactionId_new_Ok in Hx as [-> _].
Qed.

Lemma capture_spec t w :
  db_ok (w_db w) (w_seqs w) -> handles (capture t) w (capture_post t w) (capture_error t w).
Proof.
  intros Hok. apply handles_lift; [intros e He; left; by apply settle_request_id|].
  intros t' ->%settle_request_id_Ok. apply handles_now, handles_begin.
  eapply txh_storage_read; [apply tx_get_transaction|].
  { intros. by eapply db_ok_transaction_row. }
  apply txh_lift_bind.
  { destruct (transactions (w_db w) !! t) eqn:Ht; [done|]. intros e [= <-]. right. by left. }
  intros x Hx. destruct (transactions (w_db w) !! t) as [tr|] eqn:Htr; [|done].
  simpl in Hx. simplify_eq.
  destruct (code_txn_status_cases (t_status tr)) as [[Hst Hc]|[[Hst Hc]|[Hst Hc]]];
    [apply (db_ok_transaction_row _ _ Hok _ _ Htr)| | |];
    rewrite !transaction_view_status, Hc; repeat (case_decide; try done).
  - eapply txh_mono; [eapply (settle_branch_spec capture_update 1 t tr TransactionStatus_Posted
      EntryStatus_Posted (Some (w_clock w)) (w_clock w) "posted" w (capture_error t w));
      try done|intros resp db' c' s' Hp|done].
    + apply capture_update_step.
    + intros e Hn. right. right. right. by exists tr.
    + exists tr. auto.
  - eapply txh_commit; [eapply fin_bind; [apply fin_counter|apply fin_ret]|].
    exists tr. auto 10.
  - apply txh_throw. right. right. left. exists tr. rewrite Hc. split_and!; done || lia.
Qed.

Lemma void_spec t w :
  db_ok (w_db w) (w_seqs w) -> handles (void t) w (void_post t w) (void_error t w).
Proof.
  intros Hok. apply handles_lift; [intros e He; left; by apply settle_request_id|].
  intros t' ->%settle_request_id_Ok. apply handles_begin.
  eapply txh_storage_read; [apply tx_get_transaction|].
  { intros. by eapply db_ok_transaction_row. }
  apply txh_lift_bind.
  { destruct (transactions (w_db w) !! t) eqn:Ht; [done|]. intros e [= <-]. right. by left. }
  intros x Hx. destruct (transactions (w_db w) !! t) as [tr|] eqn:Htr; [|done].
  simpl in Hx. simplify_eq.
  destruct (code_txn_status_cases (t_status tr)) as [[Hst Hc]|[[Hst Hc]|[Hst Hc]]];
    [apply (db_ok_transaction_row _ _ Hok _ _ Htr)| | |];
    rewrite !transaction_view_status, Hc; repeat (case_decide; try done).
  - eapply txh_mono; [eapply (settle_branch_spec void_update 0 t tr TransactionStatus_Voided
      EntryStatus_Voided None 0 "voided" w (void_error t w));
      try done|intros resp db' c' s' Hp|done].
    + apply void_update_step.
    + intros e Hn. right. right. right. by exists tr.
    + exists tr. auto.
  - apply txh_throw. right. right. left. exists tr. rewrite Hc. split_and!; done || lia.
  - eapply txh_commit; [eapply fin_bind; [apply fin_counter|apply fin_ret]|].
    exists tr. auto 10.
Qed.
End settle.
