(* ===== verification/System.v ===== *)
(** * System: the server over its lifetime

    Requests dispatched to their handlers one after the other, in an environment
    that chooses the clock and the failures of the database, with restarts that
    rebuild the cache ([serve] of [server.rs]).  [reachable] is the set of worlds
    a server can be in between two requests. *)

From S2P Require Import Prelude.
From S2P Require Import Money Accounts Transactions Entries Validation.
From S2P Require Import StorageErrors Schema Cache Effects Triples Postgres.
From S2P Require Import ServiceErrors Ledger Invariant Updates PostgresSpecs LedgerSpecs.
From S2P Require Import Preserve Handlers HandlerSpecs AuthorizeSpec SettleSpec.
Local Open Scope Z_scope.

(** ** Requests and responses *)

Inductive request :=
| CreateAccount (req : CreateAccountRequest)
| GetAccount (account_id : Z)
| GetBalance (account_id : Z)
| Authorize (req : AuthorizeRequest)
| Capture (transaction_id : Z)
| Void (transaction_id : Z)
| GetEntries (account_id : Z).

Inductive response :=
| AccountResponse (a : ProtoAccount)
| BalanceResponse (b : ProtoBalance)
| AuthorizedResponse (r : AuthorizeResponse)
| TransactionResponse (t : ProtoTransaction)
| EntriesResponse (es : list ProtoEntry).

Definition request_valid (req : request) : Prop :=
  match req with Authorize req => request_typed req | _ => True end.

Section system.
Context `{JsonLib, PgLib}.

(** The [LedgerService] trait: one method per request. *)
Definition handle (req : request) : io ServiceError response :=
  match req with
  | CreateAccount req => x ← create_account req; mret (AccountResponse x)
  | GetAccount id => x ← get_account id; mret (AccountResponse x)
  | GetBalance id => x ← get_balance id; mret (BalanceResponse x)
  | Authorize req => x ← authorize req; mret (AuthorizedResponse x)
  | Capture id => x ← capture id; mret (TransactionResponse x)
  | Void id => x ← void id; mret (TransactionResponse x)
  | GetEntries id => x ← get_entries id; mret (EntriesResponse x)
  end.

(** Start of the server: a new cache, filled from the database. *)
Definition serve_start : io StorageError unit :=
  perform (OnCache (fun _ => (tt, BalanceCache_new)));;
  balances ← storage_load_all_balances;
  perform (OnCache (fun c => (tt, BalanceCache_rehydrate balances c))).

(** ** Histories *)

(** The world a request or a restart finds: the environment has chosen the time
    and the failures to come. *)
Definition at_time (now : Z) (faults : list (option fault)) (w : world) : world :=
  mk_world _ (w_db w) (w_seqs w) None [] (w_cache w) (w_counters w) now faults.

Inductive sys_step (env : list (option fault) -> Prop) : world -> world -> Prop :=
| sys_request req now faults w :
    request_valid req -> env faults ->
    sys_step env w (run_request (handle req) (at_time now faults w)).2
| sys_restart now faults w w' :
    env faults -> run_request serve_start (at_time now faults w) = (Some (Ok tt), w') ->
    sys_step env w w'.

(** An empty database right after the migration. *)
Definition initial_world : world :=
  mk_world _ empty_database initial_sequences None [] BalanceCache_new [] 0 [].

Definition any_faults (faults : list (option fault)) : Prop := True.
(** No commit is applied behind a reported failure. *)
Definition no_lost_commit (faults : list (option fault)) : Prop :=
  Forall (fun f => match f with Some f => fault_applied f = false | None => True end) faults.

Definition reachable_in (env : list (option fault) -> Prop) (w : world) : Prop :=
  rtc (sys_step env) initial_world w.
Definition reachable : world -> Prop := reachable_in any_faults.

(** ** What a request commits *)

Definition request_post (req : request) (w : world) (r : response) (db' : database)
    (c' : BalanceCache) (s' : sequences) : Prop :=
  match req with
  | CreateAccount req => exists x, r = AccountResponse x /\ create_account_post req w x db' c' s'
  | Authorize req => exists x, r = AuthorizedResponse x /\ authorize_post req w x db' c' s'
  | Capture t => exists x, r = TransactionResponse x /\ capture_post t w x db' c' s'
  | Void t => exists x, r = TransactionResponse x /\ void_post t w x db' c' s'
  | GetAccount _ | GetBalance _ | GetEntries _ =>
      db' = w_db w /\ c' = w_cache w /\ s' = w_seqs w
  end.

Definition read_error (id : Z) (missing : Prop) (e : ServiceError) : Prop :=
  (id <= 0 /\ e = ServiceError_InvalidArgument
     (AccountError_to_string (AccountError_InvalidId id))) \/
  (missing /\ e = ServiceError_AccountNotFound id).

Definition request_error (req : request) (w : world) (e : ServiceError) : Prop :=
  match req with
  | CreateAccount req => create_account_error req w e
  | Authorize req => authorize_error req w e
  | Capture t => capture_error t w e
  | Void t => void_error t w e
  | GetAccount id | GetEntries id => read_error id (accounts (w_db w) !! id = None) e
  | GetBalance id => read_error id (BalanceCache_get id (w_cache w) = None) e
  end.

Lemma handles_ret {A B} (p : io ServiceError A) (f : A -> B) w Post Er :
  handles p w Post Er ->
  handles (x ← p; mret (f x)) w (fun r db c s => exists a, r = f a /\ Post a db c s) Er.
Proof.
  intros Hp. apply wp_io_bind. eapply wp_mono; [exact Hp|].
  intros [a|e] w' (Hc & Hs & Hr); simpl.
  - apply wp_ret. split_and!; eauto.
  - split; [done|]. split; [done|]. simpl in *.
    destruct Hr as [Hcc [?|(? & a & c' & ?)]]; split; eauto 10.
Qed.

Lemma handle_spec req w :
  db_ok (w_db w) (w_seqs w) -> request_valid req ->
  handles (handle req) w (request_post req w) (request_error req w).
Proof.
  intros Hok Hv. destruct req as [req|id|id|req|t|t|id].
  1: apply handles_ret, create_account_spec.
  3: by apply handles_ret, authorize_spec.
  3: by apply handles_ret, capture_spec.
  3: by apply handles_ret, void_spec.
  all: eapply handles_mono; [apply handles_ret| |];
    [by (apply get_account_spec || apply get_balance_spec || apply get_entries_spec)
    |by intros r db' c' s' (x & -> & ? & ? & ? & _)|done].
Qed.

(** Every request returns: no handler panics. *)
Lemma request_returns req w :
  db_ok (w_db w) (w_seqs w) -> request_valid req -> w_tx w = None ->
  exists r w', run_request (handle req) w = (Some r, w') /\ w_tx w' = None /\
    outcome w (request_post req w) (request_error req w) r w'.
Proof.
  intros Hok Hv Htx. pose proof (handle_spec req w Hok Hv) as Hh.
  unfold handles, wp in Hh. unfold run_request.
  destruct (run (handle req) w) as [[r|] w']; [|done].
  exists r, (set_tx None [] w'). split_and!; [done..|]. exact Hh.
Qed.
End system.
