(* ===== verification/Safety.v ===== *)
(** * Safety: invariants of every history

    What each committed change keeps, and by induction over the history: the
    ledger invariant, the agreement of the cache with the tables, and the
    append-only evolution of accounts, transactions and entries. *)

From S2P Require Import Prelude.
From S2P Require Import Money Accounts Transactions Entries Validation.
From S2P Require Import StorageErrors Schema Cache Effects Triples Postgres.
From S2P Require Import ServiceErrors Ledger Invariant Updates PostgresSpecs LedgerSpecs.
From S2P Require Import Preserve Handlers HandlerSpecs AuthorizeSpec SettleSpec System.
Local Open Scope Z_scope.

(** ** Evolution of the tables *)

(** From one committed state to a later one: accounts and transactions are never
    removed or redefined, a transaction leaves [Pending] at most once, and entries
    are only added, with their transaction. *)
Record evolves `{JsonLib} (db db' : database) : Prop := {
  ev_accounts a r : accounts db !! a = Some r ->
    exists r', accounts db' !! a = Some r' /\
      a_account_type r' = a_account_type r /\ a_asset_code r' = a_asset_code r /\
      a_asset_scale r' = a_asset_scale r /\ a_created_at r' = a_created_at r /\
      a_version r <= a_version r';
  ev_transactions t tr : transactions db !! t = Some tr ->
    exists tr', transactions db' !! t = Some tr' /\
      t_idempotency_key tr' = t_idempotency_key tr /\ t_metadata tr' = t_metadata tr /\
      t_created_at tr' = t_created_at tr /\ (tr' = tr \/ t_status tr = 1);
  ev_entries k e : entries db !! k = Some e ->
    exists st, entries db' !! k = Some (set_entry_status e st) /\
      (st = e_status e \/ e_status e = 1);
  ev_new_entries k e : entries db' !! k = Some e -> entries db !! k = None ->
    transactions db !! e_transaction_id e = None
}.

Lemma set_entry_status_id e : set_entry_status e (e_status e) = e.
Proof. by destruct e. Qed.

#[export] Instance evolves_preorder `{JsonLib} : PreOrder evolves.
Proof.
  split.
  - intros db. split.
    + intros a r Hr. exists r. split_and!; done || lia.
    + intros t tr Ht. exists tr. auto 10.
    + intros k e He. exists (e_status e). rewrite set_entry_status_id. auto.
    + congruence.
  - intros db1 db2 db3 [A1 T1 E1 N1] [A2 T2 E2 N2]. split.
    + intros a r Hr. destruct (A1 a r Hr) as (r2 & Hr2 & ? & ? & ? & ? & ?).
      destruct (A2 a r2 Hr2) as (r3 & Hr3 & ? & ? & ? & ? & ?).
      exists r3. split_and!; congruence || lia.
    + intros t tr Ht. destruct (T1 t tr Ht) as (tr2 & Ht2 & ? & ? & ? & Hs).
      destruct (T2 t tr2 Ht2) as (tr3 & Ht3 & ? & ? & ? & Hs').
      exists tr3. split_and!; try congruence.
      destruct Hs as [-> |]; [|by right]. done.
    + intros k e He. destruct (E1 k e He) as (st & He2 & Hs).
      destruct (E2 k _ He2) as (st' & He3 & Hs'). exists st'. split; [done|].
      simpl in Hs'. destruct Hs as [-> |]; [done|by right].
    + intros k e He3 He1. destruct (entries db2 !! k) as [e2|] eqn:He2.
      * destruct (E2 k e2 He2) as (st & He3' & _). rewrite He3' in He3. simplify_eq.
        by apply (N1 k e2).
      * pose proof (N2 k e He3 He2) as Hn.
        destruct (transactions db1 !! e_transaction_id e) as [tr|] eqn:Ht; [|done].
        destruct (T1 _ _ Ht) as (tr2 & Ht2 & _). congruence.
Qed.

Section safety.
Context `{JsonLib, PgLib} {Hlaws : PgLaws}.
Implicit Types (db : database) (s : sequences) (w : world).

(** ** The three changes evolve the tables *)

Lemma evolves_accounts cp cq its u (acs : gmap Z accounts_row) a r :
  updates_of cp cq its u -> acs !! a = Some r ->
  exists r', apply_updates u acs !! a = Some r' /\
    a_account_type r' = a_account_type r /\ a_asset_code r' = a_asset_code r /\
    a_asset_scale r' = a_asset_scale r /\ a_created_at r' = a_created_at r /\
    a_version r <= a_version r'.
Proof.
  intros Hu Hr. exists (touch cp cq its a r).
  rewrite (apply_updates_lookup cp cq its) by done. rewrite Hr. split; [done|].
  unfold touch. case_decide; simpl; split_and!; done || lia.
Qed.

Lemma evolves_add_account db s r :
  db_ok db s -> evolves db (add_account (accounts_id_seq s) r db).
Proof.
  intros Hok. pose proof (db_ok_fresh_account _ _ Hok) as Hf. split; simpl.
  - intros a r' Hr. exists r'. rewrite lookup_insert_ne by congruence.
    split_and!; done || lia.
  - intros t tr Ht. exists tr. auto 10.
  - intros k e He. exists (e_status e). rewrite set_entry_status_id. auto.
  - congruence.
Qed.

Lemma evolves_add_transaction db s tr rows u its :
  db_ok db s -> updates_of 0 1 its u ->
  (forall e, e ∈ rows -> e_transaction_id e = transactions_id_seq s) ->
  evolves db (add_transaction (transactions_id_seq s) tr (entries_id_seq s) rows u db).
Proof.
  intros Hok Hu Hrows. pose proof (db_ok_fresh_transaction _ _ Hok) as Hf.
  pose proof (db_ok_fresh_entries _ _ Hok) as Hfe. split; simpl.
  - intros a r Hr. by eapply evolves_accounts.
  - intros t tr' Ht. exists tr'. rewrite lookup_insert_ne by congruence. auto 10.
  - intros k e He. exists (e_status e). rewrite set_entry_status_id.
    split; [by apply append_rows_old|by left].
  - intros k e He Hn. apply append_rows_lookup in He as [He|[_ He]]; [congruence|].
    by rewrite Hrows.
Qed.

Lemma evolves_settle db s t tr tr' st u cp its :
  db_ok db s -> updates_of cp (-1) its u -> transactions db !! t = Some tr ->
  t_status tr = 1 -> t_idempotency_key tr' = t_idempotency_key tr ->
  t_metadata tr' = t_metadata tr -> t_created_at tr' = t_created_at tr ->
  evolves db (settle t tr' st u db).
Proof.
  intros Hok Hu Ht Hst Hk Hm Hc. split; simpl.
  - intros a r Hr. by eapply evolves_accounts.
  - intros t' tr0 Ht0. destruct (decide (t = t')) as [<-|].
    + simplify_eq. exists tr'. rewrite lookup_insert_eq. auto 10.
    + exists tr0. rewrite lookup_insert_ne by done. auto 10.
  - intros k e He. unfold settle_entries. rewrite lookup_fmap, He. simpl.
    destruct (eo_transaction _ _ _ _ (ok_entries _ _ Hok _ _ He)) as (tr0 & Ht0 & Hs).
    case_decide as Het.
    + exists st. rewrite Het in Ht0. simplify_eq. split; [done|]. right. lia.
    + exists (e_status e). rewrite set_entry_status_id. auto.
  - intros k e He Hn. apply settle_entries_lookup in He as (e0 & He & _). congruence.
Qed.

(** ** Every committed change keeps the invariant *)

Lemma create_account_post_ok req w x db' c' s' :
  db_ok (w_db w) (w_seqs w) -> create_account_post req w x db' c' s' -> db_ok db' s'.
Proof.
  intros Hok (ty & code' & _ & Hc & Hsc & Hnow & Hv & -> & _ & -> & _).
  apply db_ok_add_account; try done.
  pose proof (as_u8_range (ca_asset_scale req)).
  split; simpl; try (unfold in_i64, in_i32; int_lia).
  - unfold accounts_check. simpl. destruct ty; simpl; lia.
  - eapply varchar_nonempty; [|done|done]. lia.
Qed.

Lemma pending_transaction_row_ok key md now :
  key <> "" -> 0 < now -> transaction_row_ok (pending_transaction_row key md now).
Proof.
  intros Hk Hn. split; simpl; [|done|lia|split; [lia|by intros []]].
  unfold transactions_check. simpl. lia.
Qed.

Lemma authorize_post_ok req w x db' c' s' :
  db_ok (w_db w) (w_seqs w) -> authorize_post req w x db' c' s' -> db_ok db' s'.
Proof.
  intros Hok (md & legs & (Hk & _) & Hpost).
  destruct (find_key _ _) as [[t tr]|].
  - by destruct Hpost as (-> & _ & -> & _).
  - destruct Hpost as (key' & md' & u & Hkey & Hmd & Hf & Hnow & Hnr & _ & Hu & Hfit
      & -> & _ & -> & _).
    apply db_ok_add_transaction; try done. apply pending_transaction_row_ok; [|done].
    eapply varchar_nonempty; [|done|done]. lia.
Qed.

Lemma settle_request_post_ok t st tr' cp w x db' c' s' :
  db_ok (w_db w) (w_seqs w) -> st = 2 \/ st = 3 -> cp = (if decide (st = 2) then 1 else 0) ->
  (forall tr, transactions (w_db w) !! t = Some tr -> transactions_check (tr' tr) ->
     transaction_row_ok (tr' tr) /\ t_status (tr' tr) = st /\
     t_idempotency_key (tr' tr) = t_idempotency_key tr) ->
  settle_request_post t st tr' cp w x db' c' s' -> db_ok db' s'.
Proof.
  intros Hok Hst Hcp Htr (tr & Ht & [(_ & -> & _ & -> & _)|(Hp & u & Hck & Hu & Hfit & ->
    & _ & -> & _)]); [done|].
  destruct (Htr tr Ht Hck) as (Hrow & Hs & Hk). rewrite Hs.
  by eapply db_ok_settle.
Qed.

Lemma capture_post_ok t w x db' c' s' :
  db_ok (w_db w) (w_seqs w) -> capture_post t w x db' c' s' -> db_ok db' s'.
Proof.
  intros Hok. apply settle_request_post_ok; [done|by left|done|].
  intros tr Ht Hck. destruct (db_ok_transaction_row _ _ Hok _ _ Ht) as [_ Hk _ _].
  split_and!; [|done..]. split; simpl; [done|done|lia|]. split; [eauto|done].
Qed.

Lemma void_post_ok t w x db' c' s' :
  db_ok (w_db w) (w_seqs w) -> void_post t w x db' c' s' -> db_ok db' s'.
Proof.
  intros Hok. apply settle_request_post_ok; [done|by right|done|].
  intros tr Ht Hck. destruct (db_ok_transaction_row _ _ Hok _ _ Ht) as [_ Hk _ _].
  split_and!; [|done..]. split; simpl; [done|done|lia|]. split; [lia|by intros []].
Qed.

Lemma request_post_ok req w r db' c' s' :
  db_ok (w_db w) (w_seqs w) -> request_post req w r db' c' s' -> db_ok db' s'.
Proof.
  intros Hok. destruct req; simpl; try (by intros (-> & _ & ->));
    intros (x & _ & Hp); eauto using create_account_post_ok, authorize_post_ok,
      capture_post_ok, void_post_ok.
Qed.

(** Every committed change evolves the tables. *)
Lemma request_post_evolves req w r db' c' s' :
  db_ok (w_db w) (w_seqs w) -> request_post req w r db' c' s' -> evolves (w_db w) db'.
Proof.
  intros Hok. destruct req as [req| | |req|t|t|]; simpl; try (by intros (-> & _)).
  - intros (x & _ & ty & code' & _ & _ & _ & _ & _ & -> & _). by apply evolves_add_account.
  - intros (x & _ & md & legs & _ & Hp). destruct (find_key _ _) as [[t tr]|].
    + by destruct Hp as (-> & _).
    + destruct Hp as (key' & md' & u & _ & _ & _ & _ & Hnr & _ & Hu & _ & -> & _).
      eapply evolves_add_transaction; [done|done|]. apply Hnr.
  - intros (x & _ & tr & Ht & [(_ & -> & _)|(Hp & u & _ & Hu & _ & -> & _)]); [done|].
    by eapply evolves_settle.
  - intros (x & _ & tr & Ht & [(_ & -> & _)|(Hp & u & _ & Hu & _ & -> & _)]); [done|].
    by eapply evolves_settle.
Qed.

(** A cache that agrees with the tables agrees with them after the request. *)
Lemma request_post_mirror req w r db' c' s' :
  w_cache w = mirror (accounts (w_db w)) -> request_post req w r db' c' s' ->
  c' = mirror (accounts db').
Proof.
  intros Hc. destruct req as [req| | |req|t|t|]; simpl; try (by intros (-> & -> & _)).
  - intros (x & _ & ty & code' & _ & _ & _ & _ & _ & -> & -> & _). rewrite Hc.
    by apply mirror_add_account.
  - intros (x & _ & md & legs & _ & Hp). destruct (find_key _ _) as [[t tr]|].
    + by destruct Hp as (-> & -> & _).
    + destruct Hp as (key' & md' & u & _ & _ & _ & _ & Hnr & _ & Hu & Hfit & -> & -> & _).
      rewrite Hc. by eapply apply_cache_updates.
  - intros (x & _ & tr & Ht & [(_ & -> & -> & _)|(Hp & u & _ & Hu & Hfit & -> & -> & _)]);
      [done|]. rewrite Hc. by eapply apply_cache_updates.
  - intros (x & _ & tr & Ht & [(_ & -> & -> & _)|(Hp & u & _ & Hu & Hfit & -> & -> & _)]);
      [done|]. rewrite Hc. by eapply apply_cache_updates.
Qed.

(** ** Requests and restarts *)

(** What a request does, whatever its answer. *)
Lemma request_effect req w :
  db_ok (w_db w) (w_seqs w) -> request_valid req -> w_tx w = None ->
  let w' := (run_request (handle req) w).2 in
  db_ok (w_db w') (w_seqs w') /\ evolves (w_db w) (w_db w') /\
  (~ lossy w -> w_cache w = mirror (accounts (w_db w)) ->
   w_cache w' = mirror (accounts (w_db w'))).
Proof.
  intros Hok Hv Htx. destruct (request_returns req w Hok Hv Htx)
    as (r & w' & -> & _ & _ & Hs & Hr). simpl.
  destruct r as [a|e].
  - split_and!; [by eapply request_post_ok|by eapply request_post_evolves|].
    intros _ Hm. by eapply request_post_mirror.
  - destruct Hr as (Hc & [[Hdb _]|[Hl (a & c' & Hp)]]).
    + rewrite Hdb, Hc. split_and!; [by eapply db_ok_seqs|done|done].
    + split_and!; [by eapply request_post_ok|by eapply request_post_evolves|done].
Qed.

Lemma rehydrate_rows (rows : list (Z * accounts_row)) (acs : gmap Z accounts_row) :
  BalanceCache_rehydrate
    ((fun '(id, r) => (id, a_posted_balance r, a_pending_balance r)) <$> rows) (mirror acs) =
  mirror (foldl (fun m '(id, r) => <[id := r]> m) acs rows).
Proof.
  revert acs. induction rows as [|[id r] rows IH]; intros acs; [done|]. simpl.
  rewrite <- IH. unfold BalanceCache_rehydrate. simpl. f_equal.
  unfold mirror. by rewrite fmap_insert.
Qed.

(** Rehydrating an empty cache makes it agree with the table. *)
Lemma rehydrate_select db :
  BalanceCache_rehydrate (select_balances db) BalanceCache_new = mirror (accounts db).
Proof.
  change BalanceCache_new with (mirror ∅). unfold select_balances.
  by rewrite rehydrate_rows, foldl_insert_map_to_list.
Qed.

Lemma serve_start_effect w w' :
  run_request serve_start w = (Some (Ok tt), w') ->
  w_db w' = w_db w /\ w_seqs w' = w_seqs w /\ w_tx w' = None /\
  w_cache w' = mirror (accounts (w_db w)).
Proof.
  unfold run_request, serve_start. simpl. unfold step_pool, next_fault. simpl.
  destruct (mjoin (head (w_faults w))) as [f|]; simpl; [done|].
  intros [= <-]. simpl. split_and!; try done.
  rewrite <- rehydrate_select. f_equal. unfold select_balances.
  rewrite <- list_fmap_compose. apply list_fmap_ext. by intros _ [id r] _.
Qed.

Lemma no_lost_commit_lossy now faults w :
  no_lost_commit faults -> ~ lossy (at_time now faults w).
Proof.
  intros Hn (f & Hf & Ha). unfold no_lost_commit in Hn. rewrite Forall_forall in Hn.
  apply Hn in Hf. congruence.
Qed.

Lemma sys_step_effect env w w' :
  db_ok (w_db w) (w_seqs w) -> sys_step env w w' ->
  db_ok (w_db w') (w_seqs w') /\ evolves (w_db w) (w_db w').
Proof.
  intros Hok Hstep. destruct Hstep as [req now faults w Hv He|now faults w w' He Hr].
  - by destruct (request_effect req (at_time now faults w)) as (? & ? & _).
  - apply serve_start_effect in Hr as (Hdb & Hs & _). simpl in *.
    rewrite Hdb, Hs. done.
Qed.

Lemma initial_db_ok : db_ok (empty_database) initial_sequences.
Proof.
  split; simpl; [intros ?? Hr..|intros ???? Hr|lia]; by rewrite lookup_empty in Hr.
Qed.

Lemma histories_ok env w w' :
  db_ok (w_db w) (w_seqs w) -> rtc (sys_step env) w w' ->
  db_ok (w_db w') (w_seqs w') /\ evolves (w_db w) (w_db w').
Proof.
  intros Hok Hsteps. induction Hsteps as [w|w1 w2 w3 Hstep _ IH]; [done|].
  destruct (sys_step_effect env w1 w2 Hok Hstep) as [Hok2 Hev].
  destruct (IH Hok2) as [Hok3 Hev']. split; [done|]. by etrans.
Qed.

Lemma reachable_ok env w : reachable_in env w -> db_ok (w_db w) (w_seqs w).
Proof. intros Hr. apply (histories_ok env initial_world w); [apply initial_db_ok|done]. Qed.

Lemma reachable_at env now faults w :
  reachable_in env w ->
  db_ok (w_db (at_time now faults w)) (w_seqs (at_time now faults w)).
Proof. intros Hr. simpl. by eapply reachable_ok. Qed.

Lemma reachable_mirror w :
  reachable_in no_lost_commit w -> w_cache w = mirror (accounts (w_db w)).
Proof.
  intros Hr. unfold reachable_in in Hr.
  cut (db_ok (w_db w) (w_seqs w) /\ w_cache w = mirror (accounts (w_db w))); [tauto|].
  revert w Hr. apply (rtc_ind_r (fun w => db_ok (w_db w) (w_seqs w) /\
    w_cache w = mirror (accounts (w_db w)))).
  - split; [apply initial_db_ok|]. done.
  - intros w1 w2 _ Hstep [Hok Hm]. split; [by eapply sys_step_effect|].
    destruct Hstep as [req now faults w1 Hv He|now faults w1 w' He Hst].
    + destruct (request_effect req (at_time now faults w1)) as (_ & _ & Hmm); try done.
      apply Hmm; [by apply no_lost_commit_lossy|done].
    + apply serve_start_effect in Hst as (Hdb & _ & _ & Hc). by rewrite Hdb.
Qed.
End safety.
