(* ===== verification/Concrete.v ===== *)
(** * Concrete: an instance of the parameters, and a sample history

    JSON values are kept as their text and a [VARCHAR(n)] column refuses what is
    longer than [n] bytes; with them every definition of the development
    evaluates.  The sample worlds are the histories that the concrete cases of
    the theorems use. *)

From S2P Require Import Prelude.
From S2P Require Import Money Accounts Transactions Entries Validation.
From S2P Require Import StorageErrors Schema Cache Effects Triples Postgres.
From S2P Require Import ServiceErrors Ledger Invariant Updates PostgresSpecs LedgerSpecs.
From S2P Require Import Preserve Handlers HandlerSpecs AuthorizeSpec SettleSpec System.
Local Open Scope Z_scope.

Definition text_json : JsonLib := {|
  JsonValue := string;
  json_empty_object := "{}";
  json_from_str s := Ok s;
  jsonb_input v := Ok v
|}.
Definition strict_varchar : PgLib := {|
  varchar_input n s := if decide (String.length s <= n)%nat then Ok s
                       else Err "value too long for type character varying";
  pg_error_text s := s
|}.

Module Sample.
#[export] Existing Instance text_json.
#[export] Existing Instance strict_varchar.

#[export] Instance strict_varchar_laws : PgLaws.
Proof.
  split.
  - intros n s s'. simpl. case_decide; [|done]. by intros [= <-] _.
  - intros n s s' _. simpl. case_decide; [|done]. by intros [= <-].
Qed.

(** One request at time [now], the database failing as [faults] says. *)
Definition answer (req : request) (now : Z) (faults : list (option fault)) (w : world)
  : option (result ServiceError response) * world :=
  run_request (handle req) (at_time now faults w).
Definition after (reqs : list request) (w : world) : world :=
  foldl (fun w req => (answer req 1000 [] w).2) w reqs.

Definition asset : request := CreateAccount (mkCreateAccountRequest 1 "USD" 2).
Definition equity : request := CreateAccount (mkCreateAccountRequest 3 "USD" 2).

(** [x] from account [from] (credited) to account [to] (debited). *)
Definition transfer (key : string) (from to x : Z) : AuthorizeRequest :=
  mkAuthorizeRequest key [mkProtoTransferLeg to 1 x; mkProtoTransferLeg from 2 x] "".

(** An asset account and an equity account. *)
Definition two_accounts : world := after [asset; equity] initial_world.
(** The asset account holds 100. *)
Definition funded : world :=
  after [Authorize (transfer "fund" 2 1 100); Capture 1] two_accounts.
(** A pending transaction takes 60 from it. *)
Definition held : world := after [Authorize (transfer "hold" 1 2 60)] funded.

Lemma after_one req w : after [req] w = (run_request (handle req) (at_time 1000 [] w)).2.
Proof. done. Qed.

Lemma after_reachable reqs w env :
  env [] -> Forall request_valid reqs -> rtc (sys_step env) w (after reqs w).
Proof.
  intros He. revert w. induction reqs as [|req reqs IH]; intros w Hv; [done|].
  apply Forall_cons in Hv as [Hv1 Hv]. eapply rtc_l; [|by apply IH].
  by apply (sys_request env req 1000 []).
Qed.

Lemma sample_reachable env : env [] -> reachable_in env held.
Proof.
  intros He. unfold reachable_in, held, funded, two_accounts.
  repeat (etrans; [|apply after_reachable; [done|]]); [done|..];
    repeat constructor; simpl; int_lia.
Qed.

Lemma funded_reachable env : env [] -> reachable_in env funded.
Proof.
  intros He. unfold reachable_in, funded, two_accounts.
  repeat (etrans; [|apply after_reachable; [done|]]); [done|..];
    repeat constructor; simpl; int_lia.
Qed.

(** The posted and the pending balance of an account. *)
Definition balance (a : Z) (w : world) : option (Z * Z) :=
  (fun r => (a_posted_balance r, a_pending_balance r)) <$> accounts (w_db w) !! a.

Example balance_funded : balance 1 funded = Some (100, 0) /\ balance 2 funded = Some (100, 0).
Proof. vm_compute. done. Qed.
Example balance_held : balance 1 held = Some (100, -60) /\ balance 2 held = Some (100, -60).
Proof. vm_compute. done. Qed.
End Sample.
