(* ===== verification/Effect.v ===== *)
(** * Effect: what a successful request changes, account by account

    Reference definitions of the deltas of legs and of transactions, and lemmas
    that read the postconditions of the handlers in terms of them. *)

From S2P Require Import Prelude.
From S2P Require Import Money Accounts Transactions Entries Validation.
From S2P Require Import StorageErrors Schema Cache Effects Triples Postgres.
From S2P Require Import ServiceErrors Ledger Invariant Updates PostgresSpecs LedgerSpecs.
From S2P Require Import Preserve Handlers HandlerSpecs AuthorizeSpec SettleSpec System Safety.
Local Open Scope Z_scope.

(** The signed sum of the legs on an account. *)
Definition legs_delta (account_type a : Z) (legs : list TransferLeg) : Z :=
  Zsum (fun leg => if decide (TransferLeg_account_id leg = a)
                   then entry_sign (code_normal account_type) (TransferLeg_entry_type leg)
                          * TransferLeg_amount leg else 0) legs.

(** The signed sum of the entries of a transaction on an account. *)
Definition txn_delta (t account_type a : Z) (es : gmap Z entries_row) : Z :=
  map_Zsum (fun e => if decide (e_transaction_id e = t) then
     if decide (e_account_id e = a) then row_signed account_type e else 0 else 0) es.

Section effect.
Context `{JsonLib, PgLib} {Hlaws : PgLaws}.
Implicit Types (db : database) (s : sequences) (w : world).

(** Posted and pending balance of an account. *)
Definition balance_of (a : Z) db : option (Z * Z) :=
  (fun r => (a_posted_balance r, a_pending_balance r)) <$> accounts db !! a.

(** Every account moves by [dp] and [dq]; the version of those in [ids] is
    incremented, and nothing else of an account changes. *)
Definition accounts_move (ids : list Z) (dp dq : Z -> accounts_row -> Z) db db' : Prop :=
  forall a, accounts db' !! a =
    (fun r => set_balances r (a_posted_balance r + dp a r) (a_pending_balance r + dq a r)
                (a_version r + if decide (a ∈ ids) then 1 else 0)) <$> accounts db !! a.

Lemma accounts_move_touch cp cq its u db ts es (d : Z -> accounts_row -> Z) :
  updates_of cp cq its u ->
  (forall a r, accounts db !! a = Some r -> delta_of its a = d a r) ->
  accounts_move its.*1 (fun a r => cp * d a r) (fun a r => cq * d a r) db
    (mk_database _ (apply_updates u (accounts db)) ts es).
Proof.
  intros Hu Hd a. simpl. rewrite (apply_updates_lookup cp cq its) by done.
  destruct (accounts db !! a) as [r|] eqn:Hr; [|done]. simpl. f_equal.
  rewrite <- (Hd a r Hr). pose proof (touch_posted cp cq its a r) as Hp.
  pose proof (touch_pending cp cq its a r) as Hq. rewrite <- Hp, <- Hq.
  unfold touch. case_decide; [done|]. rewrite Z.add_0_r. by destruct r.
Qed.

Lemma delta_of_pending db t now legs a r :
  accounts db !! a = Some r ->
  delta_of (items db (pending_rows t now legs)) a = legs_delta (a_account_type r) a legs.
Proof.
  intros Hr. unfold items. rewrite (delta_of_items _ _ _ r) by done.
  unfold pending_rows, legs_delta. rewrite Zsum_fmap. apply Zsum_ext. intros leg _.
  unfold row_signed. simpl. by rewrite code_side_entry_type.
Qed.

Lemma delta_of_txn db t a r :
  accounts db !! a = Some r ->
  delta_of (items db (txn_rows t db)) a = txn_delta t (a_account_type r) a (entries db).
Proof. apply delta_of_entries_of. Qed.

(** The entries that [authorize] appended sum to the legs. *)
Lemma txn_delta_append db s ty a now legs :
  db_ok db s ->
  txn_delta (transactions_id_seq s) ty a
    (append_rows (entries_id_seq s) (pending_rows (transactions_id_seq s) now legs) (entries db))
  = legs_delta ty a legs.
Proof.
  intros Hok. unfold txn_delta. rewrite (txn_sum_append _ (transactions_id_seq s)).
  - rewrite decide_True by done.
    rewrite (txn_sum_none _ _ _ _ Hok) by (by apply db_ok_fresh_transaction).
    unfold pending_rows, legs_delta. rewrite Zsum_fmap. simpl. apply Zsum_ext. intros leg _.
    unfold row_signed. simpl. by rewrite code_side_entry_type.
  - by apply (db_ok_fresh_entries _ s).
  - intros e He. by apply list_elem_of_fmap in He as (leg & -> & _).
Qed.

(** ** Runs *)

(** A fresh key: what a successful [authorize] did. *)
Lemma authorize_run req w resp w' :
  db_ok (w_db w) (w_seqs w) -> request_typed req ->
  find_key (au_idempotency_key req) (w_db w) = None ->
  run_request (authorize req) w = (Some (Ok resp), w') ->
  exists md legs, authorize_parsed req md legs /\
    authorize_new_post (au_idempotency_key req) md legs w resp (w_db w') (w_cache w') (w_seqs w').
Proof.
  intros Hok Ht Hf Hrun. pose proof (authorize_spec req w Hok Ht) as Hh.
  unfold handles, wp, run_request in *.
  destruct (run (authorize req) w) as [[r|] w1]; [|done]. simplify_eq. simpl.
  destruct Hh as (_ & _ & md & legs & Hp & Hpost). rewrite Hf in Hpost. eauto.
Qed.

(** A handler with a specification: what the request did. *)
Lemma handles_run {A} (p : io ServiceError A) w Post Er :
  handles p w Post Er ->
  exists r w', run_request p w = (Some r, w') /\ outcome w Post Er r w'.
Proof.
  intros Hh. unfold handles, wp in Hh. unfold run_request.
  destruct (run p w) as [[r|] w']; [|done]. by exists r, (set_tx None [] w').
Qed.

Lemma handles_run_Ok {A} (p : io ServiceError A) w Post Er a w' :
  handles p w Post Er -> run_request p w = (Some (Ok a), w') ->
  Post a (w_db w') (w_cache w') (w_seqs w').
Proof.
  intros (r & w1 & Hrun & Ho)%handles_run Hrun'. rewrite Hrun in Hrun'. simplify_eq.
  by destruct Ho as (_ & _ & Hp).
Qed.

(** Without faults, a handler whose error condition cannot hold succeeds. *)
Lemma handles_run_complete {A} (p : io ServiceError A) w Post Er :
  handles p w Post Er -> w_faults w = [] -> (forall e, ~ Er e) ->
  exists a w', run_request p w = (Some (Ok a), w') /\
               Post a (w_db w') (w_cache w') (w_seqs w').
Proof.
  intros (r & w' & Hrun & _ & _ & Hr)%handles_run Hn He. destruct r as [a|e]; [eauto|].
  destruct Hr as [_ [[_ HE]|[(f & Hf & _) _]]].
  - by destruct (He e (HE Hn)).
  - rewrite Hn in Hf. set_solver.
Qed.

(** Without faults, a handler that cannot succeed fails and changes nothing. *)
Lemma handles_run_refused {A} (p : io ServiceError A) w Post Er :
  handles p w Post Er -> w_faults w = [] ->
  (forall a db c s, ~ Post a db c s) ->
  exists e w', run_request p w = (Some (Err e), w') /\ Er e /\
               w_db w' = w_db w /\ w_cache w' = w_cache w.
Proof.
  intros (r & w' & Hrun & _ & _ & Hr)%handles_run Hn Hp. destruct r as [a|e].
  - by destruct (Hp _ _ _ _ Hr).
  - destruct Hr as [Hc [[Hdb HE]|[_ (a & c' & Hr)]]]; [eauto 10|].
    by destruct (Hp _ _ _ _ Hr).
Qed.
End effect.
