(* ===== verification/LedgerCorrect.v ===== *)
(** * LedgerCorrect: the properties of the ledger service

    Each property is stated about the handlers run from a reachable world, with
    a concrete case that evaluates on the sample history. *)

From S2P Require Import Prelude.
From S2P Require Import Money Accounts Transactions Entries Validation.
From S2P Require Import StorageErrors Schema Cache Effects Triples Postgres.
From S2P Require Import ServiceErrors Ledger Invariant Updates PostgresSpecs LedgerSpecs.
From S2P Require Import Preserve Handlers HandlerSpecs AuthorizeSpec SettleSpec System Safety.
From S2P Require Import Concrete Effect.
Local Open Scope Z_scope.

Section ledger.
Context `{JsonLib, PgLib} {Hlaws : PgLaws}.
Implicit Types (db : database) (s : sequences) (w : world).

Lemma items_ids db rows : (items db rows).*1 = e_account_id <$> rows.
Proof. unfold items. rewrite <- list_fmap_compose. by apply list_fmap_ext. Qed.

Lemma pending_ids t now legs :
  e_account_id <$> pending_rows t now legs = TransferLeg_account_id <$> legs.
Proof. unfold pending_rows. rewrite <- list_fmap_compose. by apply list_fmap_ext. Qed.

(** The changes a successful request has made, in terms of deltas. *)
Lemma authorize_new_post_move key md legs w resp db' c' s' :
  authorize_new_post key md legs w resp db' c' s' ->
  accounts_move (TransferLeg_account_id <$> legs) (fun _ _ => 0)
    (fun a r => legs_delta (a_account_type r) a legs) (w_db w) db'.
Proof.
  intros (key' & md' & u & _ & _ & _ & _ & _ & _ & Hu & _ & -> & _).
  pose proof (accounts_move_touch 0 1 _ u (w_db w)
    (transactions (add_transaction (transactions_id_seq (w_seqs w))
       (pending_transaction_row key' md' (w_clock w)) (entries_id_seq (w_seqs w))
       (pending_rows (transactions_id_seq (w_seqs w)) (w_clock w) legs) u (w_db w)))
    (append_rows (entries_id_seq (w_seqs w))
       (pending_rows (transactions_id_seq (w_seqs w)) (w_clock w) legs) (entries (w_db w)))
    (fun a r => legs_delta (a_account_type r) a legs) Hu) as Hm.
  rewrite items_ids, pending_ids in Hm.
  intros a. rewrite (Hm (fun a r => delta_of_pending _ _ _ _ a r)).
  destruct (accounts (w_db w) !! a); [|done]. simpl. by rewrite Z.mul_1_l.
Qed.

Lemma settle_post_move t tr' cp w resp db' c' s' :
  settle_post t tr' cp w resp db' c' s' ->
  accounts_move (e_account_id <$> txn_rows t (w_db w))
    (fun a r => cp * txn_delta t (a_account_type r) a (entries (w_db w)))
    (fun a r => - txn_delta t (a_account_type r) a (entries (w_db w))) (w_db w) db'.
Proof.
  intros (u & _ & Hu & _ & -> & _).
  pose proof (accounts_move_touch cp (-1) _ u (w_db w)
    (<[t := tr']> (transactions (w_db w))) (settle_entries t (t_status tr') (entries (w_db w)))
    (fun a r => txn_delta t (a_account_type r) a (entries (w_db w))) Hu) as Hm.
  rewrite items_ids in Hm. intros a. rewrite (Hm (fun a r => delta_of_txn _ _ a r)).
  destruct (accounts (w_db w) !! a); [|done]. simpl. by do 2 f_equal.
Qed.

(** ** Properties *)

(** C1.  In every world the server can reach, under any schedule of database
    failures, lost commit acknowledgements and restarts, the ledger invariant
    holds: every row satisfies the schema, entries refer to existing accounts and
    transactions and share their transaction's status, every transaction has two
    or more entries with equal debits and credits, idempotency keys are unique,
    and each account's posted and pending balances are exactly the signed sums of
    its posted and pending entries. *)
Theorem ledger_invariant w : reachable w -> db_ok (w_db w) (w_seqs w).
Proof. apply reachable_ok. Qed.

(** C2.  As long as no commit is applied behind a reported failure, the balance
    cache holds, between requests, exactly the posted and pending balances of the
    accounts table: saturating arithmetic never saturates and no update is
    missed, whatever other failures and restarts happen. *)
Theorem cache_agrees w :
  reachable_in no_lost_commit w -> w_cache w = mirror (accounts (w_db w)).
Proof. apply reachable_mirror. Qed.

(** C3.  A request that is answered with an error has changed neither the tables
    nor the cache, whatever the database failures, unless a commit was applied
    behind a reported failure. *)
Theorem failed_request_changes_nothing w req now faults e w' :
  reachable w -> request_valid req -> no_lost_commit faults ->
  run_request (handle req) (at_time now faults w) = (Some (Err e), w') ->
  w_db w' = w_db w /\ w_cache w' = w_cache w.
Proof.
  intros Hr Hv Hn Hrun. destruct (request_returns req (at_time now faults w))
    as (r & w1 & Hrun' & _ & _ & _ & Ho); [by eapply reachable_at|done|done|].
  rewrite Hrun' in Hrun. simplify_eq. destruct Ho as [Hc [[Hdb _]|[Hl _]]]; [done|].
  by apply no_lost_commit_lossy in Hl.
Qed.

(** C4.  A successful authorization under a new idempotency key records one
    pending transaction and one pending entry per leg, moves the pending balance
    of every account by the signed sum of its legs, leaves every posted balance
    alone, and increments the version of exactly the accounts of the legs; the
    response names the new transaction as pending. *)
Theorem authorize_effect w req now faults resp w' :
  reachable w -> request_typed req -> find_key (au_idempotency_key req) (w_db w) = None ->
  run_request (authorize req) (at_time now faults w) = (Some (Ok resp), w') ->
  let t := transactions_id_seq (w_seqs w) in
  exists md legs key' md',
    authorize_parsed req md legs /\
    transactions (w_db w') = <[t := pending_transaction_row key' md' now]> (transactions (w_db w)) /\
    entries (w_db w') = append_rows (entries_id_seq (w_seqs w)) (pending_rows t now legs)
                          (entries (w_db w)) /\
    accounts_move (TransferLeg_account_id <$> legs) (fun _ _ => 0)
      (fun a r => legs_delta (a_account_type r) a legs) (w_db w) (w_db w') /\
    ar_transaction resp = mkProtoTransaction t (au_idempotency_key req)
      (transaction_status_to_proto TransactionStatus_Pending) now 0.
Proof.
  intros Hr Ht Hf Hrun t.
  destruct (authorize_run req (at_time now faults w) resp w') as (md & legs & Hp & Hpost);
    [by eapply reachable_at|done..|].
  pose proof (authorize_new_post_move _ _ _ _ _ _ _ _ Hpost) as Hm.
  destruct Hpost as (key' & md' & u & _ & _ & _ & _ & _ & _ & _ & _ & Hdb & _ & _ & ->).
  exists md, legs, key', md'. rewrite Hdb at 1 2. done.
Qed.

(** C5.  A successful capture of a pending transaction marks it and its entries
    posted at the time of the request, moves the signed sum of its entries from
    the pending to the posted balance of every account, and answers with the
    settled transaction. *)
Theorem capture_effect w t tr now faults resp w' :
  reachable w -> transactions (w_db w) !! t = Some tr -> t_status tr = 1 ->
  run_request (capture t) (at_time now faults w) = (Some (Ok resp), w') ->
  transactions (w_db w') = <[t := captured_row now tr]> (transactions (w_db w)) /\
  entries (w_db w') = settle_entries t 2 (entries (w_db w)) /\
  accounts_move (e_account_id <$> txn_rows t (w_db w))
    (fun a r => txn_delta t (a_account_type r) a (entries (w_db w)))
    (fun a r => - txn_delta t (a_account_type r) a (entries (w_db w))) (w_db w) (w_db w') /\
  resp = transaction_to_proto (transaction_view t (captured_row now tr)).
Proof.
  intros Hr Ht Hs Hrun. pose proof (capture_spec t (at_time now faults w)) as Hh.
  eapply handles_run_Ok in Hrun; [|apply Hh; by eapply reachable_at].
  destruct Hrun as (tr0 & Ht0 & [[Hs0 _]|[_ Hpost]]); simpl in Ht0; simplify_eq; [lia|].
  pose proof (settle_post_move _ _ _ _ _ _ _ _ Hpost) as Hm. simpl in Hm.
  destruct Hpost as (u & _ & _ & _ & Hdb & _ & _ & ->). simpl in Hdb.
  rewrite Hdb at 1 2. split_and!; try done. intros a. rewrite (Hm a).
  destruct (accounts (w_db w) !! a) as [r|]; [|done]. simpl. by rewrite Z.mul_1_l.
Qed.

(** C6.  A successful void of a pending transaction marks it and its entries
    voided, removes the signed sum of its entries from the pending balance of
    every account and leaves every posted balance alone. *)
Theorem void_effect w t tr now faults resp w' :
  reachable w -> transactions (w_db w) !! t = Some tr -> t_status tr = 1 ->
  run_request (void t) (at_time now faults w) = (Some (Ok resp), w') ->
  transactions (w_db w') = <[t := voided_row tr]> (transactions (w_db w)) /\
  entries (w_db w') = settle_entries t 3 (entries (w_db w)) /\
  accounts_move (e_account_id <$> txn_rows t (w_db w)) (fun _ _ => 0)
    (fun a r => - txn_delta t (a_account_type r) a (entries (w_db w))) (w_db w) (w_db w') /\
  resp = transaction_to_proto (transaction_view t (voided_row tr)).
Proof.
  intros Hr Ht Hs Hrun. pose proof (void_spec t (at_time now faults w)) as Hh.
  eapply handles_run_Ok in Hrun; [|apply Hh; by eapply reachable_at].
  destruct Hrun as (tr0 & Ht0 & [[Hs0 _]|[_ Hpost]]); simpl in Ht0; simplify_eq; [lia|].
  pose proof (settle_post_move _ _ _ _ _ _ _ _ Hpost) as Hm. simpl in Hm.
  destruct Hpost as (u & _ & _ & _ & Hdb & _ & _ & ->). simpl in Hdb.
  rewrite Hdb at 1 2. done.
Qed.
End ledger.

(** ** Concrete cases *)

Import Sample.

(** The answer to a request on a sample world, and the world after it. *)
Definition reply {A} (p : io ServiceError A) (w : world) : option (result ServiceError A) :=
  (run_request p (at_time 1000 [] w)).1.
Definition next {A} (p : io ServiceError A) (w : world) : world :=
  (run_request p (at_time 1000 [] w)).2.

Lemma run_reply {A} (p : io ServiceError A) w r :
  reply p w = Some r -> run_request p (at_time 1000 [] w) = (Some r, next p w).
Proof. unfold reply, next. by destruct (run_request _ _) as [[x|] w']; intros [= ->]. Qed.

Lemma ledger_invariant_witness : db_ok (w_db held) (w_seqs held).
Proof. apply ledger_invariant. by apply sample_reachable. Defined.

Lemma cache_agrees_witness : w_cache held = mirror (accounts (w_db held)).
Proof. apply cache_agrees. apply sample_reachable. constructor. Defined.

Definition overdraw : request := Authorize (transfer "big" 1 2 1000).
Lemma failed_request_changes_nothing_witness :
  reply (handle overdraw) held = Some (Err (ServiceError_InsufficientFunds 2 160 1000)) /\
  w_db (next (handle overdraw) held) = w_db held.
Proof.
  split; [vm_compute; reflexivity|].
  eapply (failed_request_changes_nothing held overdraw 1000 []);
    [by apply sample_reachable|repeat constructor; simpl; int_lia|constructor|].
  apply run_reply. vm_compute. reflexivity.
Defined.

Definition hold : AuthorizeRequest := transfer "hold" 1 2 60.
Definition hold_response : AuthorizeResponse :=
  mkAuthorizeResponse (mkProtoTransaction 2 "hold" 1 1000 0)
    [mkProtoEntry 3 2 2 1 60 1 1000; mkProtoEntry 4 2 1 2 60 1 1000].
Lemma authorize_effect_witness :
  exists legs, parse_transfer_legs (au_legs hold) = Ok legs /\
    accounts_move (TransferLeg_account_id <$> legs) (fun _ _ => 0)
      (fun a r => legs_delta (a_account_type r) a legs) (w_db funded)
      (w_db (next (authorize hold) funded)).
Proof.
  destruct (authorize_effect funded hold 1000 [] hold_response (next (authorize hold) funded))
    as (md & legs & _ & _ & (_ & _ & Hl & _) & _ & _ & Hm & _).
  - by apply funded_reachable.
  - repeat constructor; simpl; int_lia.
  - vm_compute. reflexivity.
  - apply run_reply. vm_compute. reflexivity.
  - by exists legs.
Defined.

Definition pending_2 : transactions_row :=
  mk_transactions_row _ "hold" 1 ("{}" : @JsonValue text_json) 1000 None.
Lemma capture_effect_witness :
  transactions (w_db (next (capture 2) held)) =
    <[2 := captured_row 1000 pending_2]> (transactions (w_db held)).
Proof.
  eapply (capture_effect held 2 pending_2 1000 []);
    [by apply sample_reachable|vm_compute; reflexivity|vm_compute; reflexivity|].
  apply (run_reply _ _ (Ok (mkProtoTransaction 2 "hold" 2 1000 1000))).
  vm_compute. reflexivity.
Defined.

Lemma void_effect_witness :
  transactions (w_db (next (void 2) held)) =
    <[2 := voided_row pending_2]> (transactions (w_db held)).
Proof.
  eapply (void_effect held 2 pending_2 1000 []);
    [by apply sample_reachable|vm_compute; reflexivity|vm_compute; reflexivity|].
  apply (run_reply _ _ (Ok (mkProtoTransaction 2 "hold" 3 1000 0))).
  vm_compute. reflexivity.
Defined.
