(* ===== verification/HistoryCorrect.v ===== *)
(** * HistoryCorrect: properties of sequences of requests

    Idempotency, the state machine of a transaction, round trips, and what
    guarantees that a request is answered, and answered with success. *)

From S2P Require Import Prelude.
From S2P Require Import Money Accounts Transactions Entries Validation.
From S2P Require Import StorageErrors Schema Cache Effects Triples Postgres.
From S2P Require Import ServiceErrors Ledger Invariant Updates PostgresSpecs LedgerSpecs.
From S2P Require Import Preserve Handlers HandlerSpecs AuthorizeSpec SettleSpec System Safety.
From S2P Require Import Concrete Effect LedgerCorrect.
Local Open Scope Z_scope.

Section history.
Context `{JsonLib, PgLib} {Hlaws : PgLaws}.
Implicit Types (db : database) (s : sequences) (w : world).

(** A recorded key is found again, under the same transaction, in every later
    state. *)
Lemma find_key_evolves db s db' s' key t tr :
  db_ok db s -> db_ok db' s' -> evolves db db' -> find_key key db = Some (t, tr) ->
  exists tr', find_key key db' = Some (t, tr').
Proof.
  intros Hok Hok' Hev [Ht Hk]%find_key_Some.
  destruct (ev_transactions _ _ Hev _ _ Ht) as (tr' & Ht' & Hk' & _).
  destruct (find_key key db') as [[t2 tr2]|] eqn:Hf.
  - apply find_key_Some in Hf as [Ht2 Hk2].
    assert (t2 = t) as -> by (eapply (ok_keys _ _ Hok'); [done|done|congruence]).
    by exists tr2.
  - rewrite find_key_None in Hf. by destruct (Hf _ _ Ht'); congruence.
Qed.

(** After a successful authorization the key is recorded under the answered
    transaction. *)
Lemma authorize_records_key req w resp w' :
  db_ok (w_db w) (w_seqs w) -> request_typed req ->
  (String.length (au_idempotency_key req) <= 64)%nat ->
  run_request (authorize req) w = (Some (Ok resp), w') ->
  db_ok (w_db w') (w_seqs w') /\
  exists tr, find_key (au_idempotency_key req) (w_db w') = Some (pt_id (ar_transaction resp), tr).
Proof.
  intros Hok Htyped Hlen Hrun.
  pose proof (handles_run_Ok _ _ _ _ _ _ (authorize_spec req w Hok Htyped) Hrun) as Hp.
  split; [by eapply authorize_post_ok|].
  pose proof (authorize_post_ok _ _ _ _ _ _ Hok Hp) as Hok'.
  destruct Hp as (md & legs & _ & Hp).
  destruct (find_key _ (w_db w)) as [[t tr]|] eqn:Hf.
  - destruct Hp as (Hdb & _ & _ & ->). exists tr. by rewrite Hdb.
  - destruct Hp as (key' & md' & u & Hk & _ & _ & _ & _ & _ & _ & _ & Hdb & _ & _ & ->).
    simpl. apply varchar_fits in Hk; [|done]. subst key'.
    set (t := transactions_id_seq (w_seqs w)) in *.
    set (tr := pending_transaction_row (au_idempotency_key req) md' (w_clock w)) in *.
    assert (transactions (w_db w') !! t = Some tr) as Ht
      by (rewrite Hdb; apply lookup_insert_eq).
    destruct (find_key (au_idempotency_key req) (w_db w')) as [[t2 tr2]|] eqn:Hf2.
    + apply find_key_Some in Hf2 as [Ht2 Hk2].
      assert (t2 = t) as -> by (eapply (ok_keys _ _ Hok'); [done|done|by rewrite Hk2]).
      by exists tr2.
    + rewrite find_key_None in Hf2. by destruct (Hf2 _ _ Ht).
Qed.

(** A request on a transaction that already has the wanted status. *)
Lemma settle_repeated p t st f cp att tr w :
  handles p w (settle_request_post t st f cp w) (settle_request_error t st f cp att w) ->
  w_faults w = [] -> transactions (w_db w) !! t = Some tr -> 0 < t ->
  t_status tr = st -> st <> 1 ->
  exists w', run_request p w = (Some (Ok (transaction_to_proto (transaction_view t tr))), w') /\
    w_db w' = w_db w /\ w_cache w' = w_cache w.
Proof.
  intros Hp Hn Htr Ht Hs Hst.
  apply handles_run_complete in Hp as (a & w' & Hrun & tr0 & Ht0 & Hp); [|done|].
  - simplify_eq. destruct Hp as [(_ & ? & ? & _ & ->)|[? _]]; [by exists w'|lia].
  - intros e [[? _]|[[? _]|[(tr' & Ht' & ? & ? & _)|(tr' & Ht' & ? & _)]]];
      simplify_eq; congruence || lia.
Qed.

(** A request on a transaction settled the other way. *)
Lemma settle_refused p t st f cp att tr w :
  handles p w (settle_request_post t st f cp w) (settle_request_error t st f cp att w) ->
  w_faults w = [] -> transactions (w_db w) !! t = Some tr -> 0 < t ->
  t_status tr <> st -> t_status tr <> 1 ->
  exists w', run_request p w = (Some (Err (ServiceError_InvalidTransactionState t
      (code_txn_status (t_status tr)) att)), w') /\
    w_db w' = w_db w /\ w_cache w' = w_cache w.
Proof.
  intros Hp Hn Htr Ht Hs Hst.
  apply handles_run_refused in Hp as (e & w' & Hrun & He & Hdb & Hc); [|done|].
  - exists w'. destruct He as [[? _]|[[? _]|[(tr' & Ht' & _ & _ & ->)|(tr' & Ht' & ? & _)]]];
      simplify_eq; congruence || lia || done.
  - intros ? ? ? ? (tr0 & Ht0 & [[? _]|[? _]]); simplify_eq; lia.
Qed.

(** ** Properties *)

(** C12.  Idempotency of [Authorize]: once an authorization under a key of at most
    64 bytes has succeeded, any later well-formed authorization under the same
    key, after any history of other requests, failures and restarts, whatever its
    legs, is answered with the same transaction and changes neither the tables
    nor the cache (the database being available for that request). *)
Theorem authorize_idempotent w req now faults resp w1 w2 req2 now2 md2 legs2 :
  reachable w -> request_typed req -> request_typed req2 ->
  (String.length (au_idempotency_key req) <= 64)%nat ->
  run_request (authorize req) (at_time now faults w) = (Some (Ok resp), w1) ->
  rtc (sys_step any_faults) w1 w2 ->
  au_idempotency_key req2 = au_idempotency_key req -> authorize_parsed req2 md2 legs2 ->
  exists resp2 w3,
    run_request (authorize req2) (at_time now2 [] w2) = (Some (Ok resp2), w3) /\
    pt_id (ar_transaction resp2) = pt_id (ar_transaction resp) /\
    w_db w3 = w_db w2 /\ w_cache w3 = w_cache w2.
Proof.
  intros Hr Ht Ht2 Hlen Hrun Hsteps Hkey Hparsed.
  destruct (authorize_records_key req (at_time now faults w) resp w1) as (Hok1 & tr & Hf);
    [by eapply reachable_at|done..|].
  destruct (histories_ok _ _ _ Hok1 Hsteps) as [Hok2 Hev].
  destruct (find_key_evolves _ _ _ _ _ _ _ Hok1 Hok2 Hev Hf) as [tr2 Hf2].
  rewrite <- Hkey in Hf2.
  destruct (handles_run_complete _ _ _ _ (authorize_spec req2 (at_time now2 [] w2) Hok2 Ht2))
    as (resp2 & w3 & Hrun2 & Hp); [done| |].
  - destruct Hparsed as (Hk & Hm & Hl & Hb).
    intros e [[? _]|[He|[He|[(l & ve & He & Hve & _)|(m & l & _ & Hn & _)]]]]; try congruence.
    simpl in Hn. congruence.
  - exists resp2, w3. split; [done|]. destruct Hp as (m & l & _ & Hp).
    simpl in Hp. rewrite Hf2 in Hp. by destruct Hp as (-> & -> & _ & ->).
Qed.

(** C13.  The ledger is append-only: along any history, accounts keep their type,
    asset and creation time and their versions only grow, a transaction keeps its
    key, metadata and creation time and its row never changes once it has left the
    pending status, an entry keeps everything but its status, which changes only
    while it is pending, and no entry is ever added to an existing transaction. *)
Theorem history_append_only w w' :
  reachable w -> rtc (sys_step any_faults) w w' -> evolves (w_db w) (w_db w').
Proof. intros Hr%reachable_ok Hs. by apply (histories_ok any_faults w w'). Qed.

(** C19.  Voiding what was just authorized restores every balance: after a
    successful authorization under a new key and a successful void of its
    transaction, every account has the posted and pending balance it had
    before. *)
Theorem authorize_void_restores w req now faults resp w1 now2 faults2 resp2 w2 :
  reachable w -> request_typed req -> find_key (au_idempotency_key req) (w_db w) = None ->
  run_request (authorize req) (at_time now faults w) = (Some (Ok resp), w1) ->
  run_request (void (pt_id (ar_transaction resp))) (at_time now2 faults2 w1)
    = (Some (Ok resp2), w2) ->
  forall a, balance_of a (w_db w2) = balance_of a (w_db w).
Proof.
  intros Hr Ht Hf Hrun1 Hrun2 a.
  pose proof (reachable_at _ now faults w Hr) as Hok.
  destruct (authorize_run req (at_time now faults w) resp w1) as (md & legs & Hp & Hpost);
    [done..|].
  pose proof (authorize_new_post_move _ _ _ _ _ _ _ _ Hpost a) as Hm1. simpl in Hm1.
  assert (db_ok (w_db w1) (w_seqs w1)) as Hok1.
  { apply (authorize_post_ok req (at_time now faults w) resp _ (w_cache w1)); [done|].
    exists md, legs. simpl. by rewrite Hf. }
  destruct Hpost as (key' & md' & u & _ & _ & _ & _ & _ & _ & _ & _ & Hdb & _ & _ & ->).
  simpl in Hrun2, Hdb. set (t := transactions_id_seq (w_seqs w)) in *.
  eapply handles_run_Ok in Hrun2; [|by apply void_spec].
  destruct Hrun2 as (tr & Htr & [[Hs _]|[Hs Hpost]]).
  { simpl in Htr. rewrite Hdb in Htr. simpl in Htr. rewrite lookup_insert_eq in Htr.
    by simplify_eq. }
  pose proof (settle_post_move _ _ _ _ _ _ _ _ Hpost a) as Hm2. simpl in Hm2.
  unfold balance_of. rewrite Hm2, Hm1. destruct (accounts (w_db w) !! a) as [r|]; [|done].
  simpl. do 2 f_equal; [lia|]. rewrite Hdb. simpl.
  rewrite (txn_delta_append (w_db w) (w_seqs w)) by done. lia.
Qed.

(** C14.  Without a database failure an authorization under a new key succeeds
    whenever the request parses and balances, its accounts exist, the cached
    available balance covers every leg that takes from its account, and the
    database accepts the rows (ids, balances and versions fit their columns). *)
Theorem authorize_completes w req now md legs :
  reachable w -> request_typed req -> authorize_parsed req md legs ->
  find_key (au_idempotency_key req) (w_db w) = None ->
  (forall leg, leg ∈ legs -> is_Some (accounts (w_db w) !! TransferLeg_account_id leg)) ->
  Forall (leg_covered (w_cache w) (accounts (w_db w))) legs ->
  authorize_accepted (au_idempotency_key req) md legs (at_time now [] w) ->
  exists resp w', run_request (authorize req) (at_time now [] w) = (Some (Ok resp), w').
Proof.
  intros Hr Ht Hp Hf Hacc Hcov Hok.
  destruct (handles_run_complete _ _ _ _ (authorize_spec req (at_time now [] w)
    (reachable_at _ _ _ _ Hr) Ht)) as (resp & w' & Hrun & _); [done| |eauto].
  destruct Hp as (Hk & Hm & Hl & Hb). rewrite Forall_forall in Hcov.
  intros e [[? _]|[He|[He|[(l & ve & He & Hve & _)|(m & l & Hp' & _ & He)]]]]; try congruence.
  destruct Hp' as (_ & Hm' & Hl' & _). rewrite Hl in Hl'. rewrite Hm in Hm'. simplify_eq.
  destruct He as [(leg & Hleg & Hn & _)|[(leg & Hleg & Hn & _)|Hn]].
  - destruct (Hacc leg Hleg) as [x Hx]. simpl in Hn. congruence.
  - by apply Hn, Hcov.
  - done.
Qed.

(** C15.  Without a database failure a pending transaction can always be settled:
    a capture at a positive time, or a void, succeeds as soon as the resulting
    balances and versions fit their columns. *)
Theorem settle_completes w t tr now :
  reachable w -> transactions (w_db w) !! t = Some tr -> t_status tr = 1 -> 0 < now ->
  let its := items (w_db w) (txn_rows t (w_db w)) in
  (balances_fit 1 (-1) its (accounts (w_db w)) ->
   exists resp w', run_request (capture t) (at_time now [] w) = (Some (Ok resp), w')) /\
  (balances_fit 0 (-1) its (accounts (w_db w)) ->
   exists resp w', run_request (void t) (at_time now [] w) = (Some (Ok resp), w')).
Proof.
  intros Hr Htr Hs Hnow its. pose proof (reachable_at _ now [] w Hr) as Hok.
  destruct (ok_transactions _ _ Hok _ _ Htr) as [[(_ & Hcr & _) _ _ _] Hid _ _ _].
  split; intros Hfit.
  - destruct (handles_run_complete _ _ _ _ (capture_spec t _ Hok))
      as (resp & w' & Hrun & _); [done| |eauto].
    intros e [[? _]|[[Hn _]|[(tr' & Ht' & Hs' & _)|(tr' & Ht' & _ & Hn)]]]; simpl in *;
      simplify_eq; try lia; try congruence.
    apply Hn. split; [|done]. unfold transactions_check. simpl. lia.
  - destruct (handles_run_complete _ _ _ _ (void_spec t _ Hok))
      as (resp & w' & Hrun & _); [done| |eauto].
    intros e [[? _]|[[Hn _]|[(tr' & Ht' & Hs' & _)|(tr' & Ht' & _ & Hn)]]]; simpl in *;
      simplify_eq; try lia; try congruence.
    apply Hn. split; [|done]. unfold transactions_check. simpl. lia.
Qed.

(** C16.  When the database does not fail, every error answer has the reason the
    specification of its request names: an invalid argument, an account or a
    transaction that does not exist, a leg the available balance does not cover, a
    transaction in the wrong state, or values the database cannot hold. *)
Theorem errors_are_justified w req now e w' :
  reachable w -> request_valid req ->
  run_request (handle req) (at_time now [] w) = (Some (Err e), w') ->
  request_error req (at_time now [] w) e.
Proof.
  intros Hr Hv Hrun. destruct (request_returns req (at_time now [] w))
    as (r & w1 & Hrun' & _ & _ & _ & Ho); [by eapply reachable_at|done|done|].
  rewrite Hrun' in Hrun. simplify_eq.
  destruct Ho as [_ [[_ He]|[(f & Hf & _) _]]]; [auto|]. simpl in Hf. set_solver.
Qed.

(** C17.  Every request is answered: no handler panics, whatever the request, the
    clock and the failures of the database. *)
Theorem requests_are_answered w req now faults :
  reachable w -> request_valid req ->
  exists r, (run_request (handle req) (at_time now faults w)).1 = Some r.
Proof.
  intros Hr Hv. destruct (request_returns req (at_time now faults w))
    as (r & w' & -> & _); [by eapply reachable_at|done|done|]. by exists r.
Qed.

(** C18.  A settled transaction is final: capturing a posted transaction, or
    voiding a voided one, answers with the row and changes nothing; voiding a
    posted transaction, or capturing a voided one, is refused with the current
    state, and changes nothing. *)
Theorem settled_is_final w t tr now :
  reachable w -> transactions (w_db w) !! t = Some tr ->
  (t_status tr = 2 ->
    (exists w', run_request (capture t) (at_time now [] w) =
        (Some (Ok (transaction_to_proto (transaction_view t tr))), w') /\
        w_db w' = w_db w /\ w_cache w' = w_cache w) /\
    (exists w', run_request (void t) (at_time now [] w) =
        (Some (Err (ServiceError_InvalidTransactionState t TransactionStatus_Posted "void")), w')
        /\ w_db w' = w_db w /\ w_cache w' = w_cache w)) /\
  (t_status tr = 3 ->
    (exists w', run_request (void t) (at_time now [] w) =
        (Some (Ok (transaction_to_proto (transaction_view t tr))), w') /\
        w_db w' = w_db w /\ w_cache w' = w_cache w) /\
    (exists w', run_request (capture t) (at_time now [] w) =
        (Some (Err (ServiceError_InvalidTransactionState t TransactionStatus_Voided "capture")), w')
        /\ w_db w' = w_db w /\ w_cache w' = w_cache w)).
Proof.
  intros Hr Htr. pose proof (reachable_at _ now [] w Hr) as Hok.
  destruct (ok_transactions _ _ Hok _ _ Htr) as [_ Hid _ _ _].
  pose proof (capture_spec t _ Hok) as Hc. pose proof (void_spec t _ Hok) as Hv.
  split; intros Hs; split.
  - apply (settle_repeated _ _ _ _ _ _ tr _ Hc); done || lia.
  - pose proof (settle_refused _ _ _ _ _ _ tr _ Hv) as Hx. rewrite Hs in Hx.
    apply Hx; done || lia.
  - apply (settle_repeated _ _ _ _ _ _ tr _ Hv); done || lia.
  - pose proof (settle_refused _ _ _ _ _ _ tr _ Hc) as Hx. rewrite Hs in Hx.
    apply Hx; done || lia.
Qed.
End history.

(** ** Concrete cases *)

Import Sample.

Abbreviation after_hold := (next (authorize hold) funded) (only parsing).
Definition rehold : AuthorizeRequest := transfer "hold" 2 1 5.
Definition rehold_legs : list TransferLeg :=
  [mkTransferLeg 1 EntryType_Debit 5; mkTransferLeg 2 EntryType_Credit 5].

Lemma authorize_idempotent_witness :
  exists resp2 w3,
    run_request (authorize rehold) (at_time 2000 [] (after [Capture 2] after_hold))
      = (Some (Ok resp2), w3) /\
    pt_id (ar_transaction resp2) = 2 /\
    w_db w3 = w_db (after [Capture 2] after_hold) /\
    w_cache w3 = w_cache (after [Capture 2] after_hold).
Proof.
  eapply (authorize_idempotent funded hold 1000 [] hold_response after_hold
    (after [Capture 2] after_hold) rehold 2000 ("{}" : @JsonValue text_json) rehold_legs).
  - by apply funded_reachable.
  - repeat constructor; simpl; int_lia.
  - repeat constructor; simpl; int_lia.
  - vm_compute. lia.
  - apply (run_reply (authorize hold) funded). vm_compute. reflexivity.
  - apply after_reachable; [done|]. repeat constructor.
  - done.
  - split_and!; [done|vm_compute; reflexivity..].
Defined.

Lemma history_append_only_witness : evolves (w_db funded) (w_db held).
Proof.
  apply history_append_only; [by apply funded_reachable|].
  apply after_reachable; [done|]. repeat constructor; simpl; int_lia.
Defined.

Lemma authorize_void_restores_witness :
  balance_of 1 (w_db (next (void 2) after_hold)) = balance_of 1 (w_db funded).
Proof.
  eapply (authorize_void_restores funded hold 1000 [] hold_response after_hold 1000 []
    (mkProtoTransaction 2 "hold" 3 1000 0)).
  - by apply funded_reachable.
  - repeat constructor; simpl; int_lia.
  - vm_compute. reflexivity.
  - apply (run_reply (authorize hold) funded). vm_compute. reflexivity.
  - apply (run_reply (void 2) after_hold). vm_compute. reflexivity.
Defined.

Definition hold_legs : list TransferLeg :=
  [mkTransferLeg 2 EntryType_Debit 60; mkTransferLeg 1 EntryType_Credit 60].
Lemma authorize_completes_witness :
  exists resp w', run_request (authorize hold) (at_time 1000 [] funded) = (Some (Ok resp), w').
Proof.
  eapply (authorize_completes funded hold 1000 ("{}" : @JsonValue text_json) hold_legs).
  - by apply funded_reachable.
  - repeat constructor; simpl; int_lia.
  - split_and!; [done|vm_compute; reflexivity..].
  - vm_compute. reflexivity.
  - intros leg Hleg. apply elem_of_cons in Hleg as [->|Hleg%list_elem_of_singleton];
      [|subst leg]; apply (bool_decide_unpack _); vm_compute; reflexivity.
  - apply (bool_decide_unpack _). vm_compute. reflexivity.
  - split_and!; try (apply (bool_decide_unpack _); vm_compute; reflexivity).
    exists "hold". vm_compute. done.
Defined.

Lemma settle_completes_witness :
  exists resp w', run_request (capture 2) (at_time 1000 [] held) = (Some (Ok resp), w').
Proof.
  destruct (settle_completes held 2 pending_2 1000) as [Hc _].
  - by apply sample_reachable.
  - vm_compute. reflexivity.
  - reflexivity.
  - lia.
  - apply Hc. apply (bool_decide_unpack _). vm_compute. reflexivity.
Defined.

Lemma errors_are_justified_witness :
  request_error overdraw (at_time 1000 [] held) (ServiceError_InsufficientFunds 2 160 1000).
Proof.
  eapply (errors_are_justified held overdraw 1000 _ (next (handle overdraw) held)).
  - by apply sample_reachable.
  - repeat constructor; simpl; int_lia.
  - apply run_reply. vm_compute. reflexivity.
Defined.

(** Even when the second round trip to the database fails. *)
Lemma requests_are_answered_witness :
  exists r, (run_request (handle (Capture 2)) (at_time 1000
    [None; Some (mk_fault (SqlxError_Other "closed") true)] held)).1 = Some r.
Proof. apply requests_are_answered; [by apply sample_reachable|done]. Defined.

Definition posted_1 : transactions_row :=
  mk_transactions_row _ "fund" 2 ("{}" : @JsonValue text_json) 1000 (Some 1000).
Lemma settled_is_final_witness :
  exists w', run_request (void 1) (at_time 1000 [] held) =
    (Some (Err (ServiceError_InvalidTransactionState 1 TransactionStatus_Posted "void")), w')
    /\ w_db w' = w_db held /\ w_cache w' = w_cache held.
Proof.
  destruct (settled_is_final held 1 posted_1 1000) as [Hp _].
  - by apply sample_reachable.
  - vm_compute. reflexivity.
  - apply Hp. reflexivity.
Defined.
