(* ===== verification/FundsCorrect.v ===== *)
(** * FundsCorrect: balances that clients see, and the check of available funds *)

From S2P Require Import Prelude.
From S2P Require Import Money Accounts Transactions Entries Validation.
From S2P Require Import StorageErrors Schema Cache Effects Triples Postgres.
From S2P Require Import ServiceErrors Ledger Invariant Updates PostgresSpecs LedgerSpecs.
From S2P Require Import Preserve Handlers HandlerSpecs AuthorizeSpec SettleSpec System Safety.
From S2P Require Import Concrete Effect LedgerCorrect.
Local Open Scope Z_scope.

Section funds.
Context `{JsonLib, PgLib} {Hlaws : PgLaws}.
Implicit Types (db : database) (s : sequences) (w : world).

(** The available balance the service computes for a row. *)
Definition available_of (r : accounts_row) : Z :=
  i64_clamp (a_posted_balance r - a_pending_balance r).

Lemma mirror_get (acs : gmap Z accounts_row) a :
  BalanceCache_get a (mirror acs) =
    (fun r => mkAccountBalance (a_posted_balance r) (a_pending_balance r) (available_of r))
      <$> acs !! a.
Proof. unfold BalanceCache_get, mirror. rewrite lookup_fmap. by destruct (acs !! a). Qed.

(** The entries of an account, as the domain sees them, sum to its balances. *)
Lemma signed_balance_account db s a ty st :
  db_ok db s -> st = EntryStatus_Posted \/ st = EntryStatus_Pending ->
  signed_balance (code_normal ty) st (entry_view <$> select_entries_of_account a db) =
    account_sum (entry_status_to_i16 st) a ty (entries db).
Proof.
  intros Hok Hst. unfold signed_balance, select_entries_of_account, account_sum.
  rewrite Zsum_fmap, (merge_sort_Permutation id_le), Zsum_filter, map_Zsum_to_list.
  apply Zsum_ext. intros [k e] He%elem_of_map_to_list. simpl.
  destruct (db_ok_entry_row _ _ Hok _ _ He) as [(_ & _ & Hes & _) _].
  unfold code_entry_status, row_signed. apply code_cases_3 in Hes.
  destruct Hst as [-> | ->], Hes as [Hes|[Hes|Hes]]; rewrite !Hes; simpl;
    repeat (case_decide; destruct_and?; simplify_eq); try done; tauto.
Qed.

(** ** Properties *)

(** C29.  Between requests, and unless a commit was applied behind a reported failure,
    [GetBalance] answers with the materialized balances of the account and with
    posted minus pending, clamped to 64 bits, as available balance; it does not
    depend on the database being up. *)
Theorem get_balance_answers w a r now faults :
  reachable_in no_lost_commit w -> accounts (w_db w) !! a = Some r ->
  (run_request (get_balance a) (at_time now faults w)).1 =
    Some (Ok (mkProtoBalance (a_posted_balance r) (a_pending_balance r) (available_of r))).
Proof.
  intros Hr Ha. pose proof (reachable_mirror w Hr) as Hm.
  destruct (ok_accounts _ _ (reachable_ok _ _ Hr) _ _ Ha) as [_ [Hid _] _ _].
  unfold run_request, get_balance. simpl. unfold AccountId_new.
  rewrite decide_False by lia. simpl. rewrite Hm, mirror_get, Ha. done.
Qed.

(** C22.  The balances the domain recomputes from the entries of an account
    ([compute_account_balance]) are the materialized ones, whenever the
    recomputation does not overflow. *)
Theorem recomputed_balance_agrees w a r b :
  reachable w -> accounts (w_db w) !! a = Some r ->
  compute_account_balance (Account_normal_balance (account_view a r))
    (entry_view <$> select_entries_of_account a (w_db w)) = Ok b ->
  b = mkAccountBalance (a_posted_balance r) (a_pending_balance r)
        (a_posted_balance r - a_pending_balance r).
Proof.
  intros Hr Ha. pose proof (reachable_ok _ _ Hr) as Hok.
  destruct (ok_accounts _ _ Hok _ _ Ha) as [Hrow _ Hp Hq].
  rewrite account_view_normal by done. rewrite compute_account_balance_eq.
  - unfold compute_account_balance_ref. rewrite !(signed_balance_account _ _ _ _ _ Hok) by auto.
    simpl. rewrite <- Hp, <- Hq. do 2 (case_decide; [|done]). by intros [= <-].
  - apply Forall_forall. intros e He. apply list_elem_of_fmap in He as ([k e'] & -> & He).
    unfold select_entries_of_account in He.
    rewrite (merge_sort_Permutation id_le), list_elem_of_filter, elem_of_map_to_list in He.
    destruct He as [_ He]. destruct (db_ok_entry_row _ _ Hok _ _ He) as [(_ & ? & _) ?].
    unfold valid_entry_amount. simpl. lia.
Qed.

(** C23.  Funds are checked before a hold: for requests one at a time, and unless a
    commit was applied behind a reported failure, when an authorization under a new
    key succeeds, the available balance of the account (posted minus pending, from
    the tables) covered every leg that takes from it. *)
Theorem authorized_legs_were_covered w req now faults resp w' md legs leg r :
  reachable_in no_lost_commit w -> request_typed req ->
  find_key (au_idempotency_key req) (w_db w) = None ->
  run_request (authorize req) (at_time now faults w) = (Some (Ok resp), w') ->
  authorize_parsed req md legs -> leg ∈ legs ->
  accounts (w_db w) !! TransferLeg_account_id leg = Some r ->
  reduces_balance (code_normal (a_account_type r)) (TransferLeg_entry_type leg) = true ->
  TransferLeg_amount leg <= available_of r.
Proof.
  intros Hr Ht Hf Hrun (_ & _ & Hl & _) Hleg Ha Hred.
  destruct (authorize_run req (at_time now faults w) resp w') as (md' & legs' & Hp & Hpost);
    [by eapply reachable_at|done..|].
  destruct Hp as (_ & _ & Hl' & _). rewrite Hl in Hl'. simplify_eq.
  destruct Hpost as (key' & md2 & u & _ & _ & _ & _ & _ & Hcov & _).
  rewrite Forall_forall in Hcov. destruct (Hcov leg Hleg r Ha Hred) as (b & Hb & Hge).
  simpl in Hb. rewrite (reachable_mirror w Hr), mirror_get, Ha in Hb. simpl in Hb.
  simplify_eq. simpl in Hge. lia.
Qed.

(** What a hold does to the available balance: a successful authorization
    under a new key changes the posted minus pending balance of every account by
    minus the signed sum of its legs.  A hold that takes from an account (whose
    sum is negative) therefore raises its available balance by the amount held. *)
Theorem hold_moves_available w req now faults resp w' md legs a r r' :
  reachable w -> request_typed req -> find_key (au_idempotency_key req) (w_db w) = None ->
  run_request (authorize req) (at_time now faults w) = (Some (Ok resp), w') ->
  authorize_parsed req md legs ->
  accounts (w_db w) !! a = Some r -> accounts (w_db w') !! a = Some r' ->
  a_posted_balance r' - a_pending_balance r' =
    a_posted_balance r - a_pending_balance r - legs_delta (a_account_type r) a legs.
Proof.
  intros Hr Ht Hf Hrun (_ & _ & Hl & _) Ha Ha'.
  destruct (authorize_run req (at_time now faults w) resp w') as (md' & legs' & Hp & Hpost);
    [by eapply reachable_at|done..|].
  destruct Hp as (_ & _ & Hl' & _). rewrite Hl in Hl'. simplify_eq.
  pose proof (authorize_new_post_move _ _ _ _ _ _ _ _ Hpost a) as Hm. simpl in Hm.
  rewrite Ha, Ha' in Hm. simpl in Hm. simplify_eq. simpl. lia.
Qed.

(** After a restart the cache agrees with the tables, whatever was lost
    before it. *)
Theorem restart_restores_cache w now faults w' :
  run_request serve_start (at_time now faults w) = (Some (Ok tt), w') ->
  w_cache w' = mirror (accounts (w_db w')) /\ w_db w' = w_db w.
Proof. intros (Hdb & _ & _ & Hc)%serve_start_effect. rewrite Hdb. done. Qed.

(** C30.  [GetEntries] streams exactly the entries of the account, each once, in
    increasing order of their ids, and changes nothing. *)
Theorem get_entries_answers w a now :
  reachable w -> is_Some (accounts (w_db w) !! a) ->
  exists rows w', run_request (get_entries a) (at_time now [] w) =
      (Some (Ok (entry_to_proto <$> (entry_view <$> rows))), w') /\
    StronglySorted Z.lt rows.*1 /\
    (forall k e, (k, e) ∈ rows <-> entries (w_db w) !! k = Some e /\ e_account_id e = a) /\
    w_db w' = w_db w /\ w_cache w' = w_cache w.
Proof.
  intros Hr [r Ha]. pose proof (reachable_at _ now [] w Hr) as Hok.
  destruct (ok_accounts _ _ Hok _ _ Ha) as [_ [Hid _] _ _].
  destruct (handles_run_complete _ _ _ _ (get_entries_spec a _ Hok))
    as (es & w' & Hrun & Hdb & Hc & _ & _ & ->); [done| |].
  { intros e [[? _]|[Hn _]]; [lia|]. simpl in Hn. congruence. }
  exists (select_entries_of_account a (w_db w)), w'.
  assert (forall k e, (k, e) ∈ select_entries_of_account a (w_db w) <->
    entries (w_db w) !! k = Some e /\ e_account_id e = a) as Hin.
  { intros k e. unfold select_entries_of_account.
    rewrite (merge_sort_Permutation id_le), list_elem_of_filter, elem_of_map_to_list. tauto. }
  split_and!; try done.
  assert (NoDup (select_entries_of_account a (w_db w)).*1) as Hnd.
  { unfold select_entries_of_account. rewrite (merge_sort_Permutation id_le).
    eapply sublist_NoDup; [apply (NoDup_fst_map_to_list (entries (w_db w)))|].
    apply fmap_sublist, sublist_filter. }
  assert (StronglySorted id_le (select_entries_of_account a (w_db w))) as Hs
    by (apply Sorted_StronglySorted; [apply _|apply (Sorted_merge_sort id_le)]).
  clear -Hnd Hs. induction Hs as [|[k e] l Hs IH Hx]; simpl in *; constructor.
  - apply NoDup_cons in Hnd as [_ Hnd]. by apply IH.
  - apply NoDup_cons in Hnd as [Hk _]. apply Forall_fmap. rewrite Forall_forall in Hx.
    apply Forall_forall. intros [k' e'] Hin. specialize (Hx _ Hin). unfold id_le in Hx.
    simpl in *. assert (k <> k'); [|lia]. intros ->. apply Hk.
    apply list_elem_of_fmap. by exists (k', e').
Qed.

(** The asset scale is reduced to eight bits before it is validated: a
    request with a scale 256 larger is served in the same way, so that 258 is
    accepted as 2. *)
Theorem asset_scale_truncated ty code scale :
  create_account (mkCreateAccountRequest ty code (scale + 256)) =
  create_account (mkCreateAccountRequest ty code scale).
Proof.
  unfold create_account. simpl. assert (as_u8 (scale + 256) = as_u8 scale) as ->; [|done].
  unfold as_u8. change (2 ^ 8) with 256. rewrite <- (Z.mul_1_l 256) at 1.
  apply Z_mod_plus_full.
Qed.
End funds.

(** ** Concrete cases *)

Import Sample.

Definition row_1 : accounts_row := mk_accounts_row 1 "USD" 2 3 100 (-60) 1000.

Lemma get_balance_answers_witness :
  (run_request (get_balance 1) (at_time 5000 [Some (mk_fault (SqlxError_Other "down") false)]
    held)).1 = Some (Ok (mkProtoBalance 100 (-60) 160)).
Proof.
  apply (get_balance_answers held 1 row_1).
  - apply sample_reachable. constructor.
  - vm_compute. reflexivity.
Defined.

Lemma get_entries_answers_witness :
  exists rows w', run_request (get_entries 1) (at_time 5000 [] held) =
      (Some (Ok (entry_to_proto <$> (entry_view <$> rows))), w') /\
    StronglySorted Z.lt rows.*1 /\
    (forall k e, (k, e) ∈ rows <-> entries (w_db held) !! k = Some e /\ e_account_id e = 1) /\
    w_db w' = w_db held /\ w_cache w' = w_cache held.
Proof.
  apply (get_entries_answers held 1 5000); [by apply sample_reachable|].
  apply (bool_decide_unpack _). vm_compute. reflexivity.
Defined.

Lemma recomputed_balance_agrees_witness :
  compute_account_balance NormalBalance_Debit
    (entry_view <$> select_entries_of_account 1 (w_db held)) = Ok (mkAccountBalance 100 (-60) 160)
  /\ mkAccountBalance 100 (-60) 160 = mkAccountBalance 100 (-60) (100 - -60).
Proof.
  split; [vm_compute; reflexivity|].
  eapply (recomputed_balance_agrees held 1 row_1).
  - by apply sample_reachable.
  - vm_compute. reflexivity.
  - vm_compute. reflexivity.
Defined.

Definition funded_1 : accounts_row := mk_accounts_row 1 "USD" 2 2 100 0 1000.
Definition held_legs : list TransferLeg :=
  [mkTransferLeg 2 EntryType_Debit 60; mkTransferLeg 1 EntryType_Credit 60].
Lemma authorized_legs_were_covered_witness : 60 <= available_of funded_1.
Proof.
  apply (authorized_legs_were_covered funded hold 1000 [] hold_response
    (next (authorize hold) funded) ("{}" : @JsonValue text_json) held_legs
    (mkTransferLeg 1 EntryType_Credit 60) funded_1).
  - apply funded_reachable. constructor.
  - repeat constructor; simpl; int_lia.
  - vm_compute. reflexivity.
  - apply run_reply. vm_compute. reflexivity.
  - split_and!; [done|vm_compute; reflexivity..].
  - unfold held_legs. set_solver.
  - vm_compute. reflexivity.
  - reflexivity.
Defined.

(** Holding 60 of the 100 raises the available balance to 160. *)
Definition held_1 : accounts_row := mk_accounts_row 1 "USD" 2 3 100 (-60) 1000.
Lemma hold_moves_available_witness :
  a_posted_balance held_1 - a_pending_balance held_1 = 100 - 0 - legs_delta 1 1 held_legs
  /\ legs_delta 1 1 held_legs = -60.
Proof.
  split; [|vm_compute; reflexivity].
  apply (hold_moves_available funded hold 1000 [] hold_response
    (next (authorize hold) funded) ("{}" : @JsonValue text_json) held_legs 1 funded_1 held_1).
  - by apply funded_reachable.
  - repeat constructor; simpl; int_lia.
  - vm_compute. reflexivity.
  - apply run_reply. vm_compute. reflexivity.
  - split_and!; [done|vm_compute; reflexivity..].
  - vm_compute. reflexivity.
  - vm_compute. reflexivity.
Defined.

(** A commit that is applied although it reports a failure. *)
Definition lost_ack : list (option fault) :=
  [None; None; None; None; None; None; None; None; None;
   Some (mk_fault (SqlxError_Other "connection reset") true)].
Definition lost : world := (answer (Authorize hold) 1000 lost_ack funded).2.

Lemma restart_restores_cache_witness :
  balance 1 lost = Some (100, -60) /\ w_cache lost !! 1 = Some (mkCachedBalance 100 0) /\
  w_cache (run_request serve_start (at_time 2000 [] lost)).2 =
    mirror (accounts (w_db (run_request serve_start (at_time 2000 [] lost)).2)).
Proof.
  split; [vm_compute; reflexivity|]. split; [vm_compute; reflexivity|].
  eapply (restart_restores_cache lost 2000 []). vm_compute. reflexivity.
Defined.

(** ** Histories the checks of the service allow *)

(** An account funded with 100, and an expense account to pay. *)
Definition expense : request := CreateAccount (mkCreateAccountRequest 5 "USD" 2).
Definition payer : world :=
  after [asset; equity; expense; Authorize (transfer "fund" 2 1 100); Capture 1] initial_world.
Definition two_holds : world :=
  after [Authorize (transfer "first" 1 3 100); Authorize (transfer "second" 1 3 200);
         Capture 2; Capture 3] payer.

Lemma payer_start env : env [] -> reachable_in env payer.
Proof. intros He. apply after_reachable; [done|]. repeat constructor; simpl; int_lia. Qed.

Lemma payer_reachable reqs env :
  env [] -> Forall request_valid reqs -> reachable_in env (after reqs payer).
Proof.
  intros He Hv. unfold reachable_in. etrans; [by apply payer_start|].
  by apply after_reachable.
Qed.

(** Holds do not reserve funds: an account that was only ever funded with
    100 can have a hold of 100, then a hold of 200, and both captured, without any
    failure; its posted balance is then -200. *)
Theorem holds_can_overdraw :
  exists w, reachable_in no_lost_commit w /\ balance 1 w = Some (-200, 0).
Proof.
  exists two_holds. split; [|vm_compute; reflexivity].
  apply payer_reachable; repeat constructor; simpl; int_lia.
Qed.

(** The same account debited by two legs of one request. *)
Definition split_payment : AuthorizeRequest :=
  mkAuthorizeRequest "split" [mkProtoTransferLeg 1 2 100; mkProtoTransferLeg 1 2 100;
                              mkProtoTransferLeg 3 1 200] "".

(** The available balance is compared with each leg on its own: one request
    with two legs of 100 each takes 200 from an account that holds 100. *)
Theorem legs_are_checked_separately :
  exists w, reachable_in no_lost_commit w /\ balance 1 w = Some (-100, 0) /\
    exists w0, reachable_in no_lost_commit w0 /\ balance 1 w0 = Some (100, 0) /\
      w = after [Authorize split_payment; Capture 2] w0.
Proof.
  exists (after [Authorize split_payment; Capture 2] payer). split_and!.
  - apply payer_reachable; repeat constructor; simpl; int_lia.
  - vm_compute. reflexivity.
  - exists payer. split_and!; [|vm_compute; reflexivity|reflexivity].
    apply payer_start. constructor.
Qed.

Definition euro : request := CreateAccount (mkCreateAccountRequest 1 "EUR" 2).

(** The asset of an account plays no part in a transaction: a transfer
    between a dollar account and a euro account is accepted and posted. *)
Theorem assets_can_mix :
  exists w r1 r4, reachable_in no_lost_commit w /\
    accounts (w_db w) !! 1 = Some r1 /\ a_asset_code r1 = "USD" /\ a_posted_balance r1 = 60 /\
    accounts (w_db w) !! 4 = Some r4 /\ a_asset_code r4 = "EUR" /\ a_posted_balance r4 = 40.
Proof.
  exists (after [euro; Authorize (transfer "fx" 1 4 40); Capture 2] payer).
  do 2 eexists. split; [apply payer_reachable; repeat constructor; simpl; int_lia|].
  vm_compute. done.
Qed.

(** A commit whose acknowledgement is lost leaves the cache behind: the
    request is answered with an error, yet its transaction is committed and the
    cached balance differs from the table's. *)
Theorem lost_commit_leaves_cache_stale :
  exists w e, reachable w /\
    (answer (Authorize hold) 1000 lost_ack funded).1 = Some (Err e) /\
    w = (answer (Authorize hold) 1000 lost_ack funded).2 /\
    is_Some (find_key "hold" (w_db w)) /\ w_cache w <> mirror (accounts (w_db w)).
Proof.
  exists lost. eexists. split_and!.
  - eapply rtc_r; [by apply (funded_reachable any_faults)|].
    unfold lost, answer. apply (sys_request _ (Authorize hold) 1000 lost_ack); [|done].
    repeat constructor; simpl; int_lia.
  - vm_compute. reflexivity.
  - unfold lost. reflexivity.
  - apply (bool_decide_unpack _). vm_compute. reflexivity.
  - intros Hm. apply (f_equal (fun c => bool_decide (c !! 1 = Some (mkCachedBalance 100 0)))) in Hm.
    vm_compute in Hm. discriminate.
Qed.
