(* ===== verification/Locking.v ===== *)
(** * Locking: the order in which a request locks accounts *)

From S2P Require Import Prelude.
From S2P Require Import Money Accounts Transactions Entries Validation.
From S2P Require Import StorageErrors Schema Cache Effects Triples Postgres.
From S2P Require Import ServiceErrors Ledger Invariant Updates PostgresSpecs LedgerSpecs.
From S2P Require Import Preserve Handlers HandlerSpecs AuthorizeSpec SettleSpec System.
From S2P Require Import Concrete.
Local Open Scope Z_scope.

(** The order of locking: strictly increasing ids, each id of the request once. *)
Definition lock_order (ids : list Z) : list Z := dedup (merge_sort Z.le ids).

Lemma lock_order_sorted ids : StronglySorted Z.lt (lock_order ids).
Proof.
  apply dedup_sorted. apply Sorted_StronglySorted; [intros ? ? ?; apply Z.le_trans|].
  apply (Sorted_merge_sort Z.le).
Qed.

Lemma lock_order_elem ids a : a ∈ lock_order ids <-> a ∈ ids.
Proof. unfold lock_order. by rewrite elem_of_dedup, (merge_sort_Permutation Z.le). Qed.

Section locking.
Context `{JsonLib, PgLib}.
Implicit Types (db : database) (w : world).

Lemma live_account db a :
  filter (lock_live db) [LockAccount a] =
    match accounts db !! a with Some _ => [LockAccount a] | None => [] end.
Proof.
  destruct (accounts db !! a) as [r|] eqn:Hr.
  - rewrite filter_cons_True; [done|]. simpl. rewrite Hr. eauto.
  - rewrite filter_cons_False; [done|]. simpl. rewrite Hr. by intros [??].
Qed.

(** One round: the row is locked, or nothing is. *)
Lemma lock_one a db w :
  w_tx w = Some db ->
  exists r w', run (account ← storage (storage_get_account_for_update a);
      lift (ok_or (ServiceError_AccountNotFound (AccountId_value a)) account)) w = (Some r, w') /\
    (w_locks w' = w_locks w ++ [LockAccount a] /\ w_tx w' = Some db \/
     w_locks w' = w_locks w /\ is_ok r = false).
Proof.
  intros Htx. unfold storage, storage_get_account_for_update, query, perform_err.
  simpl. unfold step_query, next_fault. simpl. rewrite Htx.
  destruct (mjoin (head (w_faults w))) as [f|]; simpl; [do 2 eexists; split; [done|]; by right|].
  rewrite live_account. unfold select_account, AccountId_value.
  destruct (accounts db !! a) as [r|]; simpl.
  - destruct (account_of_row (a, r)); simpl; do 2 eexists; (split; [done|]; by left).
  - do 2 eexists. split; [done|]. right. by rewrite app_nil_r.
Qed.

Lemma lock_list l db w :
  w_tx w = Some db ->
  exists r w' pre, run (io_map (fun account_id =>
      account ← storage (storage_get_account_for_update account_id);
      lift (ok_or (ServiceError_AccountNotFound (AccountId_value account_id)) account)) l) w
      = (Some r, w') /\
    pre `prefix_of` l /\ w_locks w' = w_locks w ++ (LockAccount <$> pre) /\
    (is_ok r = true -> pre = l).
Proof.
  revert w. induction l as [|a l IH]; intros w Htx.
  - exists (Ok []), w, []. by rewrite app_nil_r.
  - cbn [io_map].
    destruct (lock_one a db w Htx) as (r & w1 & Hrun & Hcase).
    unfold mbind at 1, io_bind at 1. rewrite run_bind, Hrun.
    destruct r as [x|e].
    + destruct Hcase as [[Hl1 Htx1]|[_ Hbad]]; [|done].
      destruct (IH w1 Htx1) as (r & w2 & pre & Hrun2 & Hpre & Hl2 & Hall).
      unfold mbind at 1, io_bind at 1. rewrite run_bind, Hrun2.
      destruct r as [xs|e]; simpl; do 2 eexists; exists (a :: pre);
        (split_and!; [done|by apply prefix_cons|
           by rewrite Hl2, Hl1, <- (assoc_L (++))|]).
      * intros _. by rewrite Hall.
      * done.
    + simpl. do 2 eexists.
      destruct Hcase as [[Hl1 _]|[Hl1 _]].
      * exists [a]. split_and!; [done|by apply prefix_cons, prefix_nil|done|done].
      * exists []. split_and!; [done|apply prefix_nil|by rewrite app_nil_r|done].
Qed.

(** C40.  Deadlock avoidance: whatever the legs or entries of a request, and
    wherever the database fails, the accounts are locked one by one in strictly
    increasing order of their ids, none twice and none that is not of the request;
    if the locking succeeds every account of the request is locked. *)
Theorem accounts_locked_in_order ids db w :
  w_tx w = Some db ->
  exists r w' pre, run (lock_accounts ids) w = (Some r, w') /\
    w_locks w' = w_locks w ++ (LockAccount <$> pre) /\
    StronglySorted Z.lt pre /\ (forall a, a ∈ pre -> a ∈ ids) /\
    (is_ok r = true -> forall a, a ∈ ids -> a ∈ pre).
Proof.
  intros Htx. destruct (lock_list (lock_order ids) db w Htx)
    as (r & w' & pre & Hrun & [suf Hpre] & Hl & Hall).
  exists r, w', pre. pose proof (lock_order_sorted ids) as Hs.
  rewrite Hpre in Hs. split_and!; [exact Hrun|done|by eapply StronglySorted_app_1_l| |].
  - intros a Ha. apply lock_order_elem. rewrite Hpre. set_solver.
  - intros Hr a Ha. rewrite (Hall Hr). by apply lock_order_elem.
Qed.
End locking.

(** ** Concrete case *)

Import Sample.

Definition in_transaction : world := set_tx (Some (w_db held)) [] held.
Lemma accounts_locked_in_order_witness :
  exists r w' pre, run (lock_accounts [2; 1; 2]) in_transaction = (Some r, w') /\
    w_locks w' = [] ++ (LockAccount <$> pre) /\
    StronglySorted Z.lt pre /\ (forall a, a ∈ pre -> a ∈ [2; 1; 2]) /\
    (is_ok r = true -> forall a, a ∈ [2; 1; 2] -> a ∈ pre).
Proof. apply (accounts_locked_in_order [2; 1; 2] (w_db held) in_transaction). reflexivity. Defined.
