(* ===== verification/Commits.v ===== *)
(** * Commits: the changes that concurrent requests commit

    When requests interleave, the ids a request takes from the sequences are not
    consecutive, and a settlement may be applied to a transaction that another
    request has settled in the meantime.  This file restates the committed changes
    of [Preserve.v] for that setting and separates the ledger invariant [db_ok] into
    - [core_ok]: the rows, their references, balanced transactions, unique keys;
    - [sums_ok]: every balance is the signed sum of the account's entries.
    [core_ok] and the conservation law [conserved] (the balances of debit-normal and
    of credit-normal accounts add up to the same) survive every change; [sums_ok]
    survives a settlement only when the transaction is still pending. *)

From S2P Require Import Prelude.
From S2P Require Import Money Accounts Transactions Entries Validation.
From S2P Require Import StorageErrors Schema Cache Effects Triples Postgres.
From S2P Require Import ServiceErrors Ledger Invariant Updates PostgresSpecs LedgerSpecs.
From S2P Require Import Preserve.
Local Open Scope Z_scope.

(** ** Sums over tables *)

Lemma map_Zsum_union {A} (f : A -> Z) (m1 m2 : gmap Z A) :
  m1 ##ₘ m2 -> map_Zsum f (m1 ∪ m2) = map_Zsum f m1 + map_Zsum f m2.
Proof.
  induction m1 as [|k x m1 Hk IH] using map_ind; intros Hd.
  - by rewrite (left_id_L ∅ (∪)), map_Zsum_empty.
  - apply map_disjoint_insert_l in Hd as [Hk2 Hd].
    rewrite <- insert_union_l, !map_Zsum_insert, IH; [lia|done..|].
    by apply lookup_union_None.
Qed.

Lemma map_Zsum_alter {A} (f : A -> Z) (g : A -> A) (m : gmap Z A) k x :
  m !! k = Some x -> map_Zsum f (alter g k m) = map_Zsum f m + (f (g x) - f x).
Proof.
  intros Hk. rewrite <- (insert_delete_id m k x) by done.
  rewrite alter_insert_eq, !map_Zsum_insert by apply lookup_delete_eq. lia.
Qed.

Lemma map_Zsum_values {A} (f : A -> Z) (m : gmap Z A) :
  map_Zsum f m = Zsum f (map_to_list m).*2.
Proof. by rewrite Zsum_fmap, map_Zsum_to_list. Qed.

(** Regrouping deltas by account. *)
Lemma Zsum_delta_of (g : Z -> Z) items ids :
  NoDup ids -> (forall x, x ∈ items -> x.1 ∈ ids) ->
  Zsum (fun a => g a * delta_of items a) ids = Zsum (fun x => g x.1 * x.2) items.
Proof.
  intros Hnd Hin. induction items as [|[a d] items IH].
  - apply Zsum_zero. intros a _. unfold delta_of, Zsum. simpl. lia.
  - rewrite Zsum_cons, <- IH by set_solver. simpl.
    rewrite <- (Zsum_indicator ids a (g a * d)), <- Zsum_add; [|done|set_solver].
    apply Zsum_ext. intros b _. unfold delta_of. rewrite Zsum_cons. simpl.
    case_decide; subst; lia.
Qed.

(** ** The invariant in two parts *)

Record core_ok `{JsonLib} (db : database) (s : sequences) : Prop := {
  ck_accounts : forall id r, accounts db !! id = Some r ->
    account_row_ok r /\ 0 < id < accounts_id_seq s;
  ck_transactions : forall id r, transactions db !! id = Some r ->
    transaction_ok s (entries db) id r;
  ck_entries : forall id e, entries db !! id = Some e -> entry_ok db s id e;
  ck_keys : forall id1 id2 r1 r2, transactions db !! id1 = Some r1 ->
    transactions db !! id2 = Some r2 -> t_idempotency_key r1 = t_idempotency_key r2 ->
    id1 = id2;
  ck_seqs : 0 < accounts_id_seq s /\ 0 < transactions_id_seq s /\ 0 < entries_id_seq s
}.

Definition sums_ok `{JsonLib} (db : database) : Prop :=
  forall id r, accounts db !! id = Some r ->
    a_posted_balance r = account_sum 2 id (a_account_type r) (entries db) /\
    a_pending_balance r = account_sum 1 id (a_account_type r) (entries db).

Lemma db_ok_parts `{JsonLib} (db : database) s : db_ok db s <-> core_ok db s /\ sums_ok db.
Proof.
  split.
  - intros [Ha Ht He Hk Hs]. split; [split|]; try done.
    + intros id r Hr. destruct (Ha id r Hr). done.
    + intros id r Hr. destruct (Ha id r Hr). done.
  - intros [[Ha Ht He Hk Hs] Hsum]. split; try done. intros id r Hr.
    destruct (Ha id r Hr), (Hsum id r Hr). by split.
Qed.

(** The balances on the debit side and on the credit side add up to the same. *)
Definition normal_sign (account_type : Z) : Z :=
  match code_normal account_type with NormalBalance_Debit => 1 | NormalBalance_Credit => -1 end.
Definition ledger_total (f : accounts_row -> Z) (acs : gmap Z accounts_row) : Z :=
  map_Zsum (fun r => normal_sign (a_account_type r) * f r) acs.
Definition conserved `{JsonLib} (db : database) : Prop :=
  ledger_total a_posted_balance (accounts db) = 0 /\
  ledger_total a_pending_balance (accounts db) = 0.

(** ** The changes *)

Section changes.
Context `{JsonLib}.
Implicit Types (db : database) (s : sequences).

(** A new pending transaction, its entries under any free ids. *)
Definition post_transaction (t : Z) (tr : transactions_row) (new : gmap Z entries_row)
    (u : list (Z * Z * Z)) (db : database) : database :=
  mk_database _ (apply_updates u (accounts db)) (<[t := tr]> (transactions db))
    (new ∪ entries db).

(** The rows of a map. *)
Definition rows_of (new : gmap Z entries_row) : list entries_row := (map_to_list new).*2.

Lemma rows_of_elem new e : e ∈ rows_of new <-> exists k, new !! k = Some e.
Proof.
  unfold rows_of. rewrite list_elem_of_fmap. split.
  - intros ([k e'] & -> & Hin). apply elem_of_map_to_list in Hin. eauto.
  - intros [k Hk]. exists (k, e). by rewrite elem_of_map_to_list.
Qed.

Lemma update_row_ok u (acs : gmap Z accounts_row) cp cq items a r :
  updates_of cp cq items u -> Forall (update_fits acs) u ->
  (forall r, acs !! a = Some r -> account_row_ok r) ->
  apply_updates u acs !! a = Some r -> account_row_ok r.
Proof.
  intros Hu Hfit Hold Hr. rewrite (apply_updates_lookup cp cq items) in Hr by done.
  destruct (acs !! a) as [r0|] eqn:Hr0; [|done]. simplify_eq/=.
  destruct (Hold r0 eq_refl) as [Hck Hcode Hp Hq Hv].
  unfold touch. case_decide as Ha; [|by split].
  apply (uo_ids _ _ _ _ Hu), update_id_split in Ha as (u1 & p & q & u2 & Heq).
  assert ((a, p, q) ∈ u) as Ha by (subst; set_solver).
  destruct (uo_values _ _ _ _ Hu _ _ _ Ha) as [-> ->]. rewrite Forall_forall in Hfit.
  destruct (Hfit _ Ha r0 Hr0) as (? & ? & ?). simpl in *.
  split; simpl; try done. unfold accounts_check in *. simpl. lia.
Qed.

Lemma core_account_rows db s u cp cq items a r :
  core_ok db s -> updates_of cp cq items u -> Forall (update_fits (accounts db)) u ->
  apply_updates u (accounts db) !! a = Some r -> account_row_ok r /\ 0 < a < accounts_id_seq s.
Proof.
  intros Hok Hu Hfit Hr. split.
  - eapply update_row_ok; [done|done| |done]. intros r0 Hr0. by apply Hok in Hr0 as [? _].
  - rewrite (apply_updates_lookup cp cq items) in Hr by done.
    destruct (accounts db !! a) as [r0|] eqn:Hr0; [|done]. by apply Hok in Hr0 as [_ ?].
Qed.

Lemma core_seqs db s s' : core_ok db s -> seqs_le s s' -> core_ok db s'.
Proof.
  intros [H1 H2 H3 H4 H5] (Ha & Ht & He). split; [| | |done|lia].
  - intros id r Hr. destruct (H1 _ _ Hr). split; [done|lia].
  - intros id r Hr. destruct (H2 _ _ Hr). split; try done. lia.
  - intros id e Hr. destruct (H3 _ _ Hr). split; try done. lia.
Qed.

Lemma core_add_account db s id r :
  core_ok db s -> account_row_ok r -> accounts db !! id = None -> 0 < id < accounts_id_seq s ->
  core_ok (add_account id r db) s.
Proof.
  intros Hok Hr Hid Hs. split; simpl; [| | |apply Hok|apply Hok].
  - intros a r'. rewrite lookup_insert_Some. intros [[<- <-]|[_ Hr']]; [done|by apply Hok].
  - apply Hok.
  - intros k e He. destruct (ck_entries _ _ Hok _ _ He). split; simpl; try done.
    apply lookup_insert_is_Some'. by right.
Qed.

(** *** A new pending transaction *)

Record fresh_txn db s (t : Z) (tr : transactions_row) (new : gmap Z entries_row) : Prop := {
  ft_txn : transactions db !! t = None /\ 0 < t < transactions_id_seq s;
  ft_entries : forall k e, new !! k = Some e ->
    entries db !! k = None /\ 0 < k < entries_id_seq s;
  ft_rows : new_rows db t (rows_of new);
  ft_row : transaction_row_ok tr;
  ft_pending : t_status tr = 1;
  ft_key : find_key (t_idempotency_key tr) db = None
}.

Lemma fresh_disjoint db s t tr new : fresh_txn db s t tr new -> new ##ₘ entries db.
Proof.
  intros Hf. apply map_disjoint_spec. intros k e e' He He'.
  apply (ft_entries _ _ _ _ _ Hf) in He as [He _]. congruence.
Qed.

Lemma core_txn_sum_none (f : entries_row -> Z) t db s :
  core_ok db s -> transactions db !! t = None ->
  map_Zsum (fun e => if decide (e_transaction_id e = t) then f e else 0) (entries db) = 0.
Proof.
  intros Hok Ht. apply map_Zsum_zero. intros k e He. rewrite decide_False; [done|].
  intros Heq. destruct (eo_transaction _ _ _ _ (ck_entries _ _ Hok _ _ He)) as (r & Hr & _).
  rewrite Heq in Hr. congruence.
Qed.

(** Sums over the entries of one transaction, after the new rows. *)
Lemma txn_sum_new (f : entries_row -> Z) db s t tr new t' :
  fresh_txn db s t tr new ->
  map_Zsum (fun e => if decide (e_transaction_id e = t') then f e else 0) (new ∪ entries db) =
  map_Zsum (fun e => if decide (e_transaction_id e = t') then f e else 0) (entries db) +
    if decide (t = t') then Zsum f (rows_of new) else 0.
Proof.
  intros Hf. rewrite map_Zsum_union by (by eapply fresh_disjoint).
  rewrite Z.add_comm. f_equal. rewrite map_Zsum_values. fold (rows_of new).
  pose proof (nr_txn _ _ _ (ft_rows _ _ _ _ _ Hf)) as Htx. case_decide as Heq.
  - apply Zsum_ext. intros e He. rewrite decide_True; [done|]. by rewrite Htx.
  - apply Zsum_zero. intros e He. rewrite decide_False; [done|]. by rewrite Htx.
Qed.

Lemma core_post_transaction db s t tr new u cp cq items :
  core_ok db s -> fresh_txn db s t tr new -> updates_of cp cq items u ->
  Forall (update_fits (accounts db)) u -> core_ok (post_transaction t tr new u db) s.
Proof.
  intros Hok Hf Hu Hfit. pose proof Hf as [[Hft Hts] Hfe Hnr Htr Hst Hkey].
  rewrite find_key_None in Hkey. split; simpl.
  - intros a r Hr. by eapply core_account_rows.
  - intros t' r. rewrite lookup_insert_Some. intros [[<- <-]|[Hne Hr]].
    + split; [done|done|..]; unfold txn_total, txn_count;
        rewrite !(txn_sum_new _ db s t tr new), !decide_True,
          !(core_txn_sum_none _ _ _ _ Hok Hft) by done.
      * apply Hnr.
      * apply Hnr.
      * rewrite Zsum_one. apply Hnr.
    + destruct (ck_transactions _ _ Hok _ _ Hr) as [Hrow Hid Hbal Hfits Hcnt].
      split; [done|done|..]; unfold txn_total, txn_count in *;
        rewrite !(txn_sum_new _ db s t tr new), !decide_False by done; lia.
  - intros k e. rewrite lookup_union_Some by (by eapply fresh_disjoint). intros [He|He].
    + destruct (Hfe _ _ He) as [_ Hk]. destruct Hnr as [Hrows Htxn Hstat Hacc _ _ _].
      rewrite Forall_forall in Hrows.
      assert (e ∈ rows_of new) as Hin by (apply rows_of_elem; eauto).
      split; simpl; [auto|done|by apply apply_updates_is_Some; auto|].
      exists tr. rewrite (Htxn e Hin), lookup_insert_eq, (Hstat e Hin). done.
    + destruct (ck_entries _ _ Hok _ _ He) as [Hrow Hid Ha (r & Hr & Hrs)].
      split; simpl; [done|done|by apply apply_updates_is_Some|].
      exists r. rewrite lookup_insert_ne by congruence. done.
  - intros t1 t2 r1 r2. rewrite !lookup_insert_Some.
    intros [[<- <-]|[Hn1 Hr1]] [[<- <-]|[Hn2 Hr2]] Heq; try done.
    + by apply Hkey in Hr2.
    + by apply Hkey in Hr1.
    + by eapply Hok.
  - apply Hok.
Qed.

(** Balances that follow the sums of the entries. *)
Lemma sums_touch cp cq items u (es es' : gmap Z entries_row) (acs : gmap Z accounts_row) a r :
  updates_of cp cq items u -> apply_updates u acs !! a = Some r ->
  (forall r, acs !! a = Some r ->
     a_posted_balance r = account_sum 2 a (a_account_type r) es /\
     a_pending_balance r = account_sum 1 a (a_account_type r) es) ->
  (forall r, acs !! a = Some r ->
     account_sum 2 a (a_account_type r) es' =
       account_sum 2 a (a_account_type r) es + cp * delta_of items a /\
     account_sum 1 a (a_account_type r) es' =
       account_sum 1 a (a_account_type r) es + cq * delta_of items a) ->
  a_posted_balance r = account_sum 2 a (a_account_type r) es' /\
  a_pending_balance r = account_sum 1 a (a_account_type r) es'.
Proof.
  intros Hu Hr Hold Hsum. rewrite (apply_updates_lookup cp cq items) in Hr by done.
  destruct (acs !! a) as [r0|]; [|done]. simplify_eq/=.
  destruct (Hold r0 eq_refl), (Hsum r0 eq_refl).
  rewrite touch_posted, touch_pending, touch_account_type. lia.
Qed.

Lemma sums_post_transaction db s t tr new u :
  sums_ok db -> fresh_txn db s t tr new ->
  updates_of 0 1 (item_of (accounts db) <$> rows_of new) u ->
  sums_ok (post_transaction t tr new u db).
Proof.
  intros Hok Hf Hu a r Hr. pose proof (nr_status _ _ _ (ft_rows _ _ _ _ _ Hf)) as Hstat.
  eapply sums_touch; [exact Hu|exact Hr|by apply Hok|].
  intros r0 Hr0. simpl. unfold account_sum.
  rewrite !map_Zsum_union by (by eapply fresh_disjoint).
  rewrite !(map_Zsum_values _ new). fold (rows_of new).
  rewrite (delta_of_items _ _ _ r0) by done. split.
  - rewrite (Zsum_zero _ (rows_of new)); [lia|]. intros e He.
    rewrite decide_False; [done|]. rewrite (Hstat e He). lia.
  - rewrite Z.mul_1_l, Z.add_comm. f_equal. apply Zsum_ext. intros e He.
    rewrite (Hstat e He). apply decide_ext. tauto.
Qed.

(** *** Settlements *)

Lemma core_settle db s t tr tr' st u cp cq items :
  core_ok db s -> transactions db !! t = Some tr -> 1 <= st <= 3 ->
  transaction_row_ok tr' -> t_status tr' = st ->
  t_idempotency_key tr' = t_idempotency_key tr ->
  updates_of cp cq items u -> Forall (update_fits (accounts db)) u ->
  core_ok (settle t tr' st u db) s.
Proof.
  intros Hok Ht Hst Htr' Hst' Hkey Hu Hfit. split; simpl.
  - intros a r Hr. by eapply core_account_rows.
  - intros t' r Hr.
    assert (exists r0, transactions db !! t' = Some r0 /\ transaction_row_ok r)
      as (r0 & Hr0 & Hrow).
    { apply lookup_insert_Some in Hr as [[<- <-]|[_ Hr]]; [eauto|].
      exists r. split; [done|]. by destruct (ck_transactions _ _ Hok _ _ Hr). }
    destruct (ck_transactions _ _ Hok _ _ Hr0) as [_ Hid Hbal Hfits Hcnt].
    unfold txn_total, txn_count in *.
    split; unfold txn_total, txn_count; [done|done|..]; rewrite !txn_sum_settle by done; done.
  - intros k e' He'. apply settle_entries_lookup in He' as (e & He & ->).
    destruct (ck_entries _ _ Hok _ _ He) as [[Hck Ham] Hid Ha (r & Hr & Hrs)].
    destruct (decide (e_transaction_id e = t)) as [Het|Het].
    + split; simpl; [|done|by apply apply_updates_is_Some|].
      * split; [|done]. unfold entries_check in *. simpl. lia.
      * exists tr'. rewrite Het, lookup_insert_eq. done.
    + split; simpl; [done|done|by apply apply_updates_is_Some|].
      exists r. by rewrite lookup_insert_ne.
  - intros t1 t2 r1 r2. rewrite !lookup_insert_Some.
    intros [[<- <-]|[Hn1 Hr1]] [[<- <-]|[Hn2 Hr2]] Heq; try done;
      (eapply (ck_keys _ _ Hok); [done|done|]); congruence.
  - apply Hok.
Qed.
End changes.

(** ** Conservation *)

Definition sign_at (acs : gmap Z accounts_row) (a : Z) : Z :=
  match acs !! a with Some r => normal_sign (a_account_type r) | None => 0 end.

Lemma ledger_total_apply (f : accounts_row -> Z) (pick : Z -> Z -> Z) u acs :
  (forall dp dq r, f (bump dp dq r) = f r + pick dp dq) ->
  (forall x, x ∈ u -> is_Some (acs !! x.1.1)) ->
  ledger_total f (apply_updates u acs) =
    ledger_total f acs + Zsum (fun x => sign_at acs x.1.1 * pick x.1.2 x.2) u.
Proof.
  intros Hf. revert acs. induction u as [|[[a dp] dq] u IH]; intros acs Hin.
  - unfold Zsum. simpl. lia.
  - rewrite Zsum_cons. simpl. destruct (Hin (a, dp, dq) ltac:(set_solver)) as [r Hr].
    change (apply_updates ((a, dp, dq) :: u) acs)
      with (apply_updates u (alter (bump dp dq) a acs)).
    assert (forall b, sign_at (alter (bump dp dq) a acs) b = sign_at acs b) as Hsign.
    { intros b. unfold sign_at. destruct (decide (a = b)) as [->|Hne].
      - rewrite lookup_alter_eq. by destruct (acs !! b).
      - by rewrite lookup_alter_ne. }
    rewrite IH.
    + unfold ledger_total. rewrite (map_Zsum_alter _ _ _ _ r) by done.
      simpl. rewrite Hf. unfold sign_at at 2. simpl in Hr. rewrite Hr.
      rewrite (Zsum_ext _ (fun x => sign_at acs x.1.1 * pick x.1.2 x.2) u); [lia|].
      intros x _. by rewrite Hsign.
    + intros x Hx. rewrite lookup_alter_is_Some. apply Hin. set_solver.
Qed.

Lemma Zsum_scale {A} c (f : A -> Z) l : Zsum (fun x => c * f x) l = c * Zsum f l.
Proof. induction l as [|x l IH]; [unfold Zsum; simpl; lia|]. rewrite !Zsum_cons, IH. lia. Qed.

(** The signed deltas of balanced rows cancel out. *)
Lemma signed_rows acs rows :
  (forall e, e ∈ rows -> is_Some (acs !! e_account_id e)) ->
  Zsum (fun x => sign_at acs x.1 * x.2) (item_of acs <$> rows) =
    rows_total EntryType_Debit rows - rows_total EntryType_Credit rows.
Proof.
  intros Hin. rewrite Zsum_fmap. unfold rows_total.
  induction rows as [|e rows IH]; [unfold Zsum; simpl; lia|].
  rewrite !Zsum_cons, IH by set_solver.
  destruct (Hin e ltac:(set_solver)) as [r Hr]. unfold item_of, sign_at. simpl. rewrite Hr.
  unfold normal_sign, row_signed, entry_sign, on_side.
  destruct (code_normal (a_account_type r)), (code_side (e_entry_type e)); simpl; lia.
Qed.

Lemma ledger_total_updates (f : accounts_row -> Z) (pick : Z -> Z -> Z) cp cq c u acs rows :
  (forall dp dq r, f (bump dp dq r) = f r + pick dp dq) ->
  (forall d, pick (cp * d) (cq * d) = c * d) ->
  updates_of cp cq (item_of acs <$> rows) u ->
  (forall e, e ∈ rows -> is_Some (acs !! e_account_id e)) ->
  rows_total EntryType_Debit rows = rows_total EntryType_Credit rows ->
  ledger_total f (apply_updates u acs) = ledger_total f acs.
Proof.
  intros Hf Hc Hu Hin Hbal. set (items := item_of acs <$> rows) in *.
  assert (forall a, a ∈ items.*1 -> is_Some (acs !! a)) as Hids.
  { intros a Ha. subst items. rewrite <- list_fmap_compose in Ha.
    apply list_elem_of_fmap in Ha as (e & -> & He). by apply Hin. }
  rewrite (ledger_total_apply f pick); [|done|].
  - rewrite (Zsum_ext _ (fun x => c * (sign_at acs x.1.1 * delta_of items x.1.1)) u).
    + rewrite Zsum_scale, <- (Zsum_fmap (fun a => sign_at acs a * delta_of items a) (fun x => x.1.1)).
      replace ((fun x : Z * Z * Z => x.1.1) <$> u) with (fst <$> (fst <$> u))
        by (by rewrite <- list_fmap_compose).
      rewrite Zsum_delta_of; [|apply Hu|].
      * subst items. rewrite signed_rows, Hbal by done. lia.
      * intros x Hx. apply (uo_ids _ _ _ _ Hu). apply list_elem_of_fmap. eauto.
    + intros [[a p] q] Hx. destruct (uo_values _ _ _ _ Hu _ _ _ Hx) as [-> ->].
      simpl. rewrite Hc. lia.
  - intros [[a p] q] Hx. apply Hids, (uo_ids _ _ _ _ Hu). by eapply update_id_elem.
Qed.

Section conserve.
Context `{JsonLib}.
Implicit Types (db : database) (s : sequences).

Lemma conserved_updates db db' cp cq u rows :
  conserved db -> accounts db' = apply_updates u (accounts db) ->
  updates_of cp cq (item_of (accounts db) <$> rows) u ->
  (forall e, e ∈ rows -> is_Some (accounts db !! e_account_id e)) ->
  rows_total EntryType_Debit rows = rows_total EntryType_Credit rows -> conserved db'.
Proof.
  intros [Hp Hq] Ha Hu Hin Hbal. unfold conserved. rewrite Ha. split.
  - rewrite (ledger_total_updates _ (fun dp _ => dp) cp cq cp u (accounts db) rows); done.
  - rewrite (ledger_total_updates _ (fun _ dq => dq) cp cq cq u (accounts db) rows); done.
Qed.

Lemma conserved_add_account db id r :
  conserved db -> accounts db !! id = None ->
  a_posted_balance r = 0 -> a_pending_balance r = 0 -> conserved (add_account id r db).
Proof.
  intros [Hp Hq] Hid Hr1 Hr2. unfold conserved, ledger_total in *. simpl.
  rewrite !map_Zsum_insert by done. rewrite Hr1, Hr2. lia.
Qed.

(** Every entry of a transaction refers to an account. *)
Lemma core_entries_accounts db s t e :
  core_ok db s -> e ∈ (snd <$> entries_of t db) -> is_Some (accounts db !! e_account_id e).
Proof.
  intros Hok He. apply list_elem_of_fmap in He as ([k e'] & -> & [Hk _]%elem_of_entries_of).
  by destruct (ck_entries _ _ Hok _ _ Hk).
Qed.

Lemma core_entries_balanced db s t tr :
  core_ok db s -> transactions db !! t = Some tr ->
  rows_total EntryType_Debit (snd <$> entries_of t db) =
  rows_total EntryType_Credit (snd <$> entries_of t db).
Proof.
  intros Hok Ht. rewrite !rows_total_entries_of. by destruct (ck_transactions _ _ Hok _ _ Ht).
Qed.
End conserve.

(** ** Invariants of the committed tables

    What the interleaving needs of an invariant: every committed change keeps it.
    With [exclusive], a settlement finds its transaction pending. *)

Class LedgerInvariant `{JsonLib} (J : database -> sequences -> Prop) (exclusive : bool)
  : Prop := {
  inv_core db s : J db s -> core_ok db s;
  inv_seqs db s s' : J db s -> seqs_le s s' -> J db s';
  inv_add_account db s id r :
    J db s -> account_row_ok r -> accounts db !! id = None -> 0 < id < accounts_id_seq s ->
    a_posted_balance r = 0 -> a_pending_balance r = 0 -> J (add_account id r db) s;
  inv_post_transaction db s t tr new u :
    J db s -> fresh_txn db s t tr new ->
    updates_of 0 1 (item_of (accounts db) <$> rows_of new) u ->
    Forall (update_fits (accounts db)) u -> J (post_transaction t tr new u db) s;
  inv_settle db s t tr tr' st cp u :
    J db s -> transactions db !! t = Some tr -> (exclusive = true -> t_status tr = 1) ->
    st = 2 \/ st = 3 -> cp = (if decide (st = 2) then 1 else 0) ->
    transaction_row_ok tr' -> t_status tr' = st ->
    t_idempotency_key tr' = t_idempotency_key tr ->
    updates_of cp (-1) (item_of (accounts db) <$> (snd <$> entries_of t db)) u ->
    Forall (update_fits (accounts db)) u -> J (settle t tr' st u db) s
}.

(** The invariant that survives every interleaving. *)
Definition racing_ok `{JsonLib} (db : database) (s : sequences) : Prop :=
  core_ok db s /\ conserved db.

#[export] Instance racing_invariant `{JsonLib} : LedgerInvariant racing_ok false.
Proof.
  split.
  - by intros db s [? _].
  - intros db s s' [? ?] ?. split; [by eapply core_seqs|done].
  - intros db s id r [? ?] ? ? ? ? ?.
    split; [by apply core_add_account|by apply conserved_add_account].
  - intros db s t tr new u [Hok Hc] Hf Hu Hfit. split; [by eapply core_post_transaction|].
    destruct (ft_rows _ _ _ _ _ Hf) as [_ _ _ Hacc Hbal _ _].
    eapply conserved_updates; [exact Hc|done|exact Hu|exact Hacc|exact Hbal].
  - intros db s t tr tr' st cp u [Hok Hc] Ht _ Hst Hcp Hrow Hst' Hkey Hu Hfit.
    split; [eapply core_settle; try done; lia|].
    eapply conserved_updates; [exact Hc|done|exact Hu| |by eapply core_entries_balanced].
    intros e He. by eapply core_entries_accounts.
Qed.

(** The full invariant, when settlements of a transaction do not overlap. *)
#[export] Instance exclusive_invariant `{JsonLib} : LedgerInvariant db_ok true.
Proof.
  split.
  - by intros db s [? _]%db_ok_parts.
  - intros db s s' ? ?. by eapply db_ok_seqs.
  - intros db s id r Hok Hr Hid Hs Hp Hq. apply db_ok_parts in Hok as Hparts.
    destruct Hparts as [Hcore Hsum]. apply db_ok_parts.
    split; [by apply core_add_account|]. intros a r'. simpl. rewrite lookup_insert_Some.
    intros [[<- <-]|[_ Hr']]; [|by apply Hsum].
    rewrite Hp, Hq, !account_sum_zero; [done|..];
      intros k e He Heq; destruct (eo_account _ _ _ _ (ck_entries _ _ Hcore _ _ He)) as [x Hx];
      rewrite Heq in Hx; congruence.
  - intros db s t tr new u [Hok Hs]%db_ok_parts Hf Hu Hfit. apply db_ok_parts.
    split; [by eapply core_post_transaction|by eapply sums_post_transaction].
  - intros db s t tr tr' st cp u Hok Ht Hpend Hst Hcp Hrow Hst' Hkey Hu Hfit.
    by eapply db_ok_settle; [done|done|apply Hpend|..].
Qed.

