(* ===== verification/Concurrent.v ===== *)
(** * Concurrent: interleaved requests

    The server answers requests concurrently: each request is a task of its own
    with its own database transaction, and tasks interleave at every effect.  The
    transactions run at the isolation level the sources leave in force, PostgreSQL's
    default [READ COMMITTED]: a statement sees the committed tables with the
    transaction's own changes on top ([view]), and a statement that locks or writes a
    row waits for the transaction that holds the row ([blocked]).

    An open transaction keeps the rows it has locked or inserted ([x_own]) and its
    locks.  A commit makes its view the committed tables; an end without a commit
    drops it.  The tables, the sequences, the cache and the counters are shared
    ([store]).  One step of a task is the step of [Effects.v] in the world made of
    the store and of the task's transaction, so both semantics agree by
    construction on what an effect does. *)

From S2P Require Import Prelude.
From S2P Require Import Money Accounts Transactions Entries Validation.
From S2P Require Import StorageErrors Schema Cache Effects Triples Postgres.
From S2P Require Import ServiceErrors Ledger Invariant Updates PostgresSpecs LedgerSpecs.
From S2P Require Import Preserve Handlers HandlerSpecs AuthorizeSpec SettleSpec System.
Local Open Scope Z_scope.

(** ** Transactions and what they see *)

Section model.
Context `{JsonLib, PgLib}.

Record txn := mk_txn {
  x_own : database;           (* rows locked or inserted, as the transaction has them *)
  x_locks : list row_lock
}.

Definition overlay (own db : database) : database :=
  mk_database _ (accounts own ∪ accounts db) (transactions own ∪ transactions db)
    (entries own ∪ entries db).
Definition view (x : txn) (db : database) : database := overlay (x_own x) db.

(** The rows of a view that belong to the transaction: those it has locked and
    those that are not committed. *)
Definition own_rows (locks : list row_lock) (db v : database) : database :=
  mk_database _
    (filter (fun x => LockAccount x.1 ∈ locks \/ accounts db !! x.1 = None) (accounts v))
    (filter (fun x => LockTransaction x.1 ∈ locks \/ transactions db !! x.1 = None)
       (transactions v))
    (filter (fun x => LockEntries (e_transaction_id x.2) ∈ locks \/ entries db !! x.1 = None)
       (entries v)).

(** ** Tasks *)

Record store := mk_store {
  st_db : database;
  st_seqs : sequences;
  st_cache : BalanceCache;
  st_counters : list (string * list (string * string))
}.

(** The world a task acts on, and what its step leaves. *)
Definition to_world (σ : store) (x : option txn) (now : Z) (f : option fault) : world :=
  mk_world _ (st_db σ) (st_seqs σ) ((fun x => view x (st_db σ)) <$> x)
    (from_option x_locks [] x) (st_cache σ) (st_counters σ) now [f].
Definition store_of (w : world) : store :=
  mk_store (w_db w) (w_seqs w) (w_cache w) (w_counters w).
Definition txn_of (w : world) : option txn :=
  (fun v => mk_txn (own_rows (w_locks w) (w_db w) v) (w_locks w)) <$> w_tx w.

Record session := mk_session {
  ss_req : request;
  ss_prog : prog (result ServiceError response);
  ss_txn : option txn
}.
Definition start (req : request) : session := mk_session req (handle req) None.
Definition ss_locks (s : session) : list row_lock := from_option x_locks [] (ss_txn s).

(** One effect of a task; the environment chooses the time and the failure. *)
Definition advance (now : Z) (f : option fault) (σ : store) (s : session)
  : option (store * session) :=
  match ss_prog s with
  | Vis e k =>
      let '(x, w) := step e (to_world σ (ss_txn s) now f) in
      Some (store_of w, mk_session (ss_req s) (k x) (txn_of w))
  | _ => None
  end.

Definition eff_locks {X} (e : eff X) : list row_lock :=
  match e with Query q => stmt_locks q | _ => [] end.
(** The locks the next effect of a task takes. *)
Definition wants (s : session) : list row_lock :=
  match ss_prog s with Vis e _ => eff_locks e | _ => [] end.

Definition finished (s : session) : bool :=
  match ss_prog s with Vis _ _ => false | _ => true end.

(** ** Configurations *)

(** The tasks in the order of their arrival; one that has ended keeps its answer. *)
Record config := mk_config { c_store : store; c_sessions : list session }.

(** The task waits for a lock of another transaction. *)
Definition blocked (i : nat) (c : config) (s : session) : Prop :=
  exists l j s', l ∈ wants s /\ j <> i /\ c_sessions c !! j = Some s' /\ l ∈ ss_locks s'.

(** The end of a task drops its transaction handle, which rolls back.  With
    [healthy] the database answers; otherwise any round trip may fail, also one that
    waits. *)
Inductive task_step (healthy : bool) : config -> config -> Prop :=
| task_run i now f c s σ s' :
    c_sessions c !! i = Some s -> (healthy = true -> f = None) ->
    (f = None -> ~ blocked i c s) -> advance now f (c_store c) s = Some (σ, s') ->
    task_step healthy c (mk_config σ (<[i := s']> (c_sessions c)))
| task_drop i c s :
    c_sessions c !! i = Some s -> finished s = true -> is_Some (ss_txn s) ->
    task_step healthy c (mk_config (c_store c)
      (<[i := mk_session (ss_req s) (ss_prog s) None]> (c_sessions c))).

(** The transaction a request settles. *)
Definition settles (req : request) : option Z :=
  match req with Capture t | Void t => Some t | _ => None end.
(** The transaction has been settled. *)
Definition txn_settled (t : Z) (db : database) : Prop :=
  exists r, transactions db !! t = Some r /\ t_status r <> 1.
(** The transaction is recorded under the key; the column keeps 64 characters. *)
Definition txn_keyed (key : string) (t : Z) (db : database) : Prop :=
  exists r, transactions db !! t = Some r /\
    ((String.length key <= 64)%nat -> t_idempotency_key r = key).
(** The transaction that [req] settles has been settled before, or no running task
    settles it. *)
Definition no_overlap (req : request) (c : config) : Prop :=
  forall t, settles req = Some t -> txn_settled t (st_db (c_store c)) \/
    forall s, s ∈ c_sessions c -> settles (ss_req s) = Some t ->
      finished s = true /\ ss_txn s = None.

(** The server: requests arrive, tasks run, and the process may be killed and
    started again at any point.  With [exclusive], clients do not send two
    settlements of the same pending transaction at the same time. *)
Inductive conc_step (exclusive : bool) : config -> config -> Prop :=
| conc_arrive req c :
    request_valid req -> (exclusive = true -> no_overlap req c) ->
    conc_step exclusive c (mk_config (c_store c) (c_sessions c ++ [start req]))
| conc_task c c' : task_step false c c' -> conc_step exclusive c c'
| conc_restart now c w' :
    run_request serve_start (to_world (c_store c) None now None) = (Some (Ok tt), w') ->
    conc_step exclusive c (mk_config (store_of w') []).

Definition initial_config : config := mk_config (store_of initial_world) [].
Definition conc_reachable (exclusive : bool) (c : config) : Prop :=
  rtc (conc_step exclusive) initial_config c.

(** ** A scheduler that can be run *)

Definition blockedb (i : nat) (c : config) (s : session) : bool :=
  existsb (fun '(j, s') => negb (Nat.eqb j i) &&
    existsb (fun l => bool_decide (l ∈ ss_locks s')) (wants s))
    (imap pair (c_sessions c)).

Lemma blockedb_spec i c s : blockedb i c s = true <-> blocked i c s.
Proof.
  unfold blockedb. rewrite existsb_exists. split.
  - intros ([j s'] & Hin & Hb). apply list_elem_of_In in Hin.
    apply elem_of_lookup_imap in Hin as (? & ? & [= <- <-] & Hj).
    apply andb_true_iff in Hb as [Hne Hb]. apply negb_true_iff, Nat.eqb_neq in Hne.
    apply existsb_exists in Hb as (l & Hl & Hls). apply list_elem_of_In in Hl.
    apply bool_decide_eq_true in Hls. by exists l, j, s'.
  - intros (l & j & s' & Hl & Hj & Hs & Hls). exists (j, s'). split.
    + apply list_elem_of_In, elem_of_lookup_imap. eauto.
    + apply andb_true_iff. split; [apply negb_true_iff; by apply Nat.eqb_neq|].
      apply existsb_exists. exists l. split; [by apply list_elem_of_In|].
      by apply bool_decide_eq_true.
Qed.

(** One turn of task [i], without a failure: the configuration stays as it is
    when the task waits or has ended. *)
Definition turn (now : Z) (c : config) (i : nat) : config :=
  match c_sessions c !! i with
  | Some s =>
      if blockedb i c s then c
      else match advance now None (c_store c) s with
           | Some (σ, s') => mk_config σ (<[i := s']> (c_sessions c))
           | None => c
           end
  | None => c
  end.
Definition turns (now : Z) (sched : list nat) (c : config) : config := foldl (turn now) c sched.
Definition arrive (req : request) (c : config) : config :=
  mk_config (c_store c) (c_sessions c ++ [start req]).
(** What a task that has ended answered. *)
Definition answer_of (i : nat) (c : config) : option (result ServiceError response) :=
  match c_sessions c !! i with
  | Some s => match ss_prog s with Ret r => Some r | _ => None end
  | None => None
  end.

Lemma task_step_any healthy c c' : task_step healthy c c' -> task_step false c c'.
Proof.
  intros [i now f c0 s σ s' Hs _ Hb Ha|i c0 s Hs Hf Hx]; [|by eapply task_drop].
  eapply task_run; [exact Hs|discriminate|exact Hb|exact Ha].
Qed.
Lemma turn_step now c i : rtc (task_step true) c (turn now c i).
Proof.
  unfold turn. destruct (c_sessions c !! i) as [s|] eqn:Hs; [|done].
  destruct (blockedb i c s) eqn:Hb; [done|].
  destruct (advance now None (c_store c) s) as [[σ s']|] eqn:Ha; [|done].
  apply rtc_once. eapply task_run; [done|done| |done]. intros _ Hbl. apply blockedb_spec in Hbl. congruence.
Qed.
Lemma turns_steps now sched c : rtc (task_step true) c (turns now sched c).
Proof.
  revert c. induction sched as [|i sched IH]; intros c; [done|].
  etrans; [apply turn_step|apply IH].
Qed.
Lemma task_steps_conc healthy exclusive c c' :
  rtc (task_step healthy) c c' -> rtc (conc_step exclusive) c c'.
Proof.
  apply rtc_congruence with (f := id). intros c1 c2 Hs.
  by eapply conc_task, task_step_any.
Qed.
Lemma arrive_step req c : request_valid req -> conc_step false c (arrive req c).
Proof. intros Hv. by apply conc_arrive. Qed.
End model.
