(* ===== verification/Deadlock.v ===== *)
(** * Deadlock: concurrent requests never wait for each other in a circle

    Every handler takes its locks in one order: accounts by increasing id, then the
    key of a new transaction, or the row of the transaction it settles and then the
    entries of that transaction ([lock_lt]).  A request that waits therefore waits
    for one that is further in the order, so some request can always go on; and as
    every request is a finite program, all of them come to an end. *)

From S2P Require Import Prelude.
From S2P Require Import Money Accounts Transactions Entries Validation.
From S2P Require Import StorageErrors Schema Cache Effects Triples Postgres.
From S2P Require Import ServiceErrors Ledger Invariant Updates PostgresSpecs LedgerSpecs.
From S2P Require Import Preserve Handlers HandlerSpecs AuthorizeSpec SettleSpec System.
From S2P Require Import Concrete Locking Concurrent.
Local Open Scope Z_scope.

(** ** The order of the locks *)

Definition lock_rank (l : row_lock) : Z * Z :=
  match l with
  | LockAccount a => (0, a)
  | LockKey _ => (1, 0)
  | LockTransaction t => (2, t)
  | LockEntries t => (3, t)
  end.
Definition lock_lt (l l' : row_lock) : Prop :=
  (lock_rank l).1 < (lock_rank l').1 \/
  ((lock_rank l).1 = (lock_rank l').1 /\ (lock_rank l).2 < (lock_rank l').2).

#[export] Instance lock_lt_trans : Transitive lock_lt.
Proof. intros x y z. unfold lock_lt. lia. Qed.
#[export] Instance lock_lt_irrefl : Irreflexive lock_lt.
Proof. intros x. unfold complement, lock_lt. lia. Qed.

Section discipline.
Context `{JsonLib, PgLib}.

(** ** Programs that lock in order *)

(** Rows do not disappear. *)
Definition stmt_grows {A : Set} (q : stmt A) : Prop :=
  forall s v s' a v' l, stmt_exec q s v = (s', Ok (a, v')) -> lock_live v l -> lock_live v' l.

(** What a transaction holds after an effect with a given response. *)
Definition lock_after {X} (e : eff X) : list row_lock -> X -> list row_lock -> Prop :=
  match e in eff X return list row_lock -> X -> list row_lock -> Prop with
  | Query q => fun held x held' =>
      match x with
      | Ok a => exists s v s' v', Forall (lock_live v) held /\
          stmt_exec q s v = (s', Ok (a, v')) /\
          held' = held ++ filter (lock_live v') (stmt_locks q)
      | Err _ => held' = held
      end
  | Begin => fun held x held' => held' = (if is_ok x then [] else held)
  | Commit => fun _ _ held' => held' = []
  | _ => fun held _ held' => held' = held
  end.
Definition eff_grows {X} (e : eff X) : Prop :=
  match e with Query q => stmt_grows q | _ => True end.

(** Whatever the database answers, every lock is either held already or above all
    that are held. *)
Fixpoint ordered {A} (held : list row_lock) (p : prog A) (Q : A -> list row_lock -> Prop)
  : Prop :=
  match p with
  | Ret a => Q a held
  | Panic => True
  | Vis e k =>
      (forall l, l ∈ eff_locks e -> l ∈ held \/ forall h, h ∈ held -> lock_lt h l) /\
      eff_grows e /\
      forall x held', lock_after e held x held' -> ordered held' (k x) Q
  end.

Lemma ordered_bind {A B} held (p : prog A) (k : A -> prog B) Q :
  ordered held p (fun a held' => ordered held' (k a) Q) -> ordered held (prog_bind k p) Q.
Proof.
  revert held. induction p as [a|X e k' IH|]; intros held; simpl; [done| |done].
  intros (Hl & Hg & Hk). split_and!; [done..|]. intros x held' Ha. by apply IH, Hk.
Qed.

Lemma ordered_mono {A} held (p : prog A) (Q Q' : A -> list row_lock -> Prop) :
  ordered held p Q -> (forall a h, Q a h -> Q' a h) -> ordered held p Q'.
Proof.
  intros Hp HQ. revert held Hp. induction p as [a|X e k' IH|]; intros held; simpl; [auto| |done].
  intros (Hl & Hg & Hk). split_and!; [done..|]. intros x held' Ha. by apply IH, Hk.
Qed.

(** Programs that return early on an error. *)
Definition io_ordered {E A} (held : list row_lock) (p : io E A)
    (R : A -> list row_lock -> Prop) : Prop :=
  ordered held p (fun r held' => match r with Ok a => R a held' | Err _ => True end).

Lemma io_ordered_bind {E A B} held (p : io E A) (k : A -> io E B) R :
  io_ordered held p (fun a held' => io_ordered held' (k a) R) ->
  io_ordered held (x ← p; k x) R.
Proof.
  intros Hp. apply ordered_bind. eapply ordered_mono; [exact Hp|].
  by intros [a|e] h.
Qed.

Lemma io_ordered_mono {E A} held (p : io E A) (R R' : A -> list row_lock -> Prop) :
  io_ordered held p R -> (forall a h, R a h -> R' a h) -> io_ordered held p R'.
Proof. intros Hp HR. eapply ordered_mono; [exact Hp|]. intros [a|e] h; simpl; auto. Qed.

Lemma io_ordered_map_err {E F A} (g : E -> F) held (p : io E A) R :
  io_ordered held p R -> io_ordered held (io_map_err g p) R.
Proof.
  intros Hp. apply ordered_bind. eapply ordered_mono; [exact Hp|]. by intros [a|e] h.
Qed.

Lemma io_ordered_ret {E A} held (a : A) (R : A -> list row_lock -> Prop) :
  R a held -> io_ordered (E := E) held (mret a) R.
Proof. done. Qed.

Lemma io_ordered_lift {E A} held (r : result E A) (R : A -> list row_lock -> Prop) :
  (forall a, r = Ok a -> R a held) -> io_ordered held (lift r) R.
Proof. intros HR. destruct r; simpl; [by apply HR|done]. Qed.

Lemma io_ordered_throw {E A} held (e : E) (R : A -> list row_lock -> Prop) :
  io_ordered held (throw e) R.
Proof. done. Qed.

Lemma io_ordered_unwrap {E A} held (o : option A) (R : A -> list row_lock -> Prop) :
  (forall a, o = Some a -> R a held) -> io_ordered (E := E) held (unwrap o) R.
Proof. intros HR. destruct o; simpl; [by apply HR|done]. Qed.

(** ** Statements *)

(** A statement on the tables keeps the rows that are there. *)
Definition keeps_rows {A} (f : database -> result SqlxError (A * database)) : Prop :=
  forall v a v' l, f v = Ok (a, v') -> lock_live v l -> lock_live v' l.

Ltac solve_keeps_rows :=
  intros v a v' l Hq Hl; simpl in Hq;
  repeat (split_match_in Hq; simplify_eq/=; try done);
  destruct l; simpl in *; try done; apply lookup_insert_is_Some'; by right.

Lemma keeps_insert_account n ty code sc cr : keeps_rows (insert_account n ty code sc cr).
Proof. unfold insert_account, bigint, varchar, mbind, result_bind, map_err. solve_keeps_rows. Qed.
Lemma keeps_insert_transaction n key st md cr po :
  keeps_rows (insert_transaction n key st md cr po).
Proof.
  unfold insert_transaction, bigint, varchar, jsonb, mbind, result_bind, map_err.
  solve_keeps_rows.
Qed.
Lemma keeps_insert_entry n t ac ty am st cr : keeps_rows (insert_entry n t ac ty am st cr).
Proof. unfold insert_entry, bigint, mbind, result_bind. solve_keeps_rows. Qed.
Lemma keeps_update_balances ac ver dp dq : keeps_rows (update_account_balances ac ver dp dq).
Proof.
  unfold update_account_balances, bigint, integer, mbind, result_bind. solve_keeps_rows.
Qed.
Lemma keeps_update_transaction t st po : keeps_rows (update_transaction t st po).
Proof. unfold update_transaction. solve_keeps_rows. Qed.
Lemma keeps_update_entries t st : keeps_rows (update_entries t st).
Proof. unfold update_entries. solve_keeps_rows. Qed.

Lemma grows_stmt {A : Set} locks (g : sequences -> sequences)
    (f : sequences -> database -> result SqlxError (A * database)) :
  (forall s, keeps_rows (f s)) -> stmt_grows (mk_stmt locks (fun s db => (g s, f s db))).
Proof. intros Hf s v s' a v' l Hq. simpl in Hq. simplify_eq. by eapply Hf. Qed.
Lemma grows_read {A : Set} locks (f : database -> A) : stmt_grows (read_stmt locks f).
Proof. intros s v s' a v' l Hq. simpl in Hq. by simplify_eq. Qed.
End discipline.
#[export] Hint Resolve grows_read keeps_insert_account keeps_insert_transaction
  keeps_insert_entry keeps_update_balances keeps_update_transaction keeps_update_entries : fides.
#[export] Hint Extern 1 (stmt_grows _) =>
  (apply grows_read || (apply grows_stmt; intros; auto with fides)) : fides.

Section handlers.
Context `{JsonLib, PgLib}.
Implicit Types (held : list row_lock).

Lemma io_ordered_query {A : Set} (q : stmt A) held (R : A -> list row_lock -> Prop) :
  stmt_grows q ->
  (forall l, l ∈ stmt_locks q -> l ∈ held \/ forall h, h ∈ held -> lock_lt h l) ->
  (forall s v s' a v', Forall (lock_live v) held -> stmt_exec q s v = (s', Ok (a, v')) ->
     R a (held ++ filter (lock_live v') (stmt_locks q))) ->
  io_ordered held (query q) R.
Proof.
  intros Hg Hl HR. split_and!; [done..|]. intros [a|e] held'; simpl; [|done].
  intros (s & v & s' & v' & Hv & Hq & ->). by eapply HR.
Qed.

(** ** Programs that take no lock *)

Definition quiet {E A} (p : io E A) : Prop :=
  forall held, io_ordered held p (fun _ held' => held' = held).

Lemma quiet_bind {E A B} (p : io E A) (k : A -> io E B) :
  quiet p -> (forall a, quiet (k a)) -> quiet (x ← p; k x).
Proof.
  intros Hp Hk held. apply io_ordered_bind. eapply io_ordered_mono; [apply Hp|].
  intros a h ->. apply Hk.
Qed.
Lemma io_ordered_quiet {E A} held (p : io E A) (R : A -> list row_lock -> Prop) :
  quiet p -> (forall a, R a held) -> io_ordered held p R.
Proof. intros Hp HR. eapply io_ordered_mono; [apply Hp|]. by intros a h ->. Qed.
(** A program that takes no lock, and then another program. *)
Lemma io_ordered_quiet_bind {E A B} held (p : io E A) (k : A -> io E B) R :
  quiet p -> (forall a, io_ordered held (k a) R) -> io_ordered held (x ← p; k x) R.
Proof. intros Hp Hk. apply io_ordered_bind. by apply io_ordered_quiet. Qed.

Lemma quiet_query {A : Set} (q : stmt A) : stmt_grows q -> stmt_locks q = [] -> quiet (query q).
Proof.
  intros Hg Hl held. apply io_ordered_query; [done|rewrite Hl; set_solver|].
  intros. rewrite Hl. by rewrite app_nil_r.
Qed.
Lemma quiet_lift {E A} (r : result E A) : quiet (lift r).
Proof. intros held. by apply io_ordered_lift. Qed.
Lemma quiet_ret {E A} (a : A) : quiet (E := E) (mret a).
Proof. done. Qed.
Lemma quiet_throw {E A} (e : E) : quiet (A := A) (throw e).
Proof. done. Qed.
Lemma quiet_unwrap {E A} (o : option A) : quiet (E := E) (unwrap o).
Proof. intros held. by apply io_ordered_unwrap. Qed.
Lemma quiet_map_err {E F A} (g : E -> F) (p : io E A) : quiet p -> quiet (io_map_err g p).
Proof. intros Hp held. apply io_ordered_map_err, Hp. Qed.
Lemma quiet_now : quiet now_millis.
Proof. intros held. split_and!; [set_solver|done|]. by intros x h ->. Qed.
Lemma quiet_cache {E} {A : Set} (op : BalanceCache -> A * BalanceCache) :
  quiet (E := E) (perform (OnCache op)).
Proof. intros held. split_and!; [set_solver|done|]. by intros x h ->. Qed.
Lemma quiet_counter n ls : quiet (counter n ls).
Proof. intros held. split_and!; [set_solver|done|]. by intros x h ->. Qed.
Lemma quiet_iter {E A} (f : A -> io E unit) l :
  (forall x, quiet (f x)) -> quiet (io_iter f l).
Proof. intros Hf. induction l; [apply quiet_ret|]. by apply quiet_bind. Qed.
Lemma quiet_fold {E A S} (f : S -> A -> io E S) l st :
  (forall s x, quiet (f s x)) -> quiet (io_fold f st l).
Proof.
  intros Hf. revert st. induction l as [|x l IH]; intros st; [apply quiet_ret|].
  by apply quiet_bind.
Qed.
End handlers.
#[export] Hint Resolve quiet_lift quiet_ret quiet_throw quiet_unwrap quiet_map_err quiet_now
  quiet_cache quiet_counter quiet_iter quiet_fold : fides.
#[export] Hint Extern 2 (quiet (query _)) => (apply quiet_query; [auto with fides|done]) : fides.
#[export] Hint Extern 3 (quiet (mbind _ _)) => (apply quiet_bind; [|intros]) : fides.

Section requests.
Context `{JsonLib, PgLib}.
Implicit Types (held : list row_lock).

Lemma io_ordered_begin {A} held (k : io ServiceError A) R :
  io_ordered [] k R -> io_ordered held (begin_tx;; k) R.
Proof.
  intros Hk. apply io_ordered_bind, io_ordered_map_err. split_and!; [set_solver|done|].
  intros [[]|e] h; simpl; [|done]. by intros ->.
Qed.
Lemma io_ordered_commit {A} held (k : io ServiceError A) R :
  io_ordered [] k R -> io_ordered held (commit_tx;; k) R.
Proof.
  intros Hk. apply io_ordered_bind. split_and!; [set_solver|done|].
  intros [[]|e] h; simpl; [|done]. by intros ->.
Qed.

(** ** Accounts are locked in order *)

Lemma account_of_row_id a r x : account_of_row (a, r) = Ok x -> Account_id x = a.
Proof.
  unfold account_of_row, build_account, Account_new, AccountId_from_raw, mbind, result_bind,
    map_err. simpl. intros Hx. repeat (split_match_in Hx; simplify_eq/=; try done).
Qed.

Lemma ordered_lock_one dn a :
  (forall d, d ∈ dn -> d < a) ->
  io_ordered (LockAccount <$> dn)
    (account ← storage (storage_get_account_for_update a);
     lift (ok_or (ServiceError_AccountNotFound (AccountId_value a)) account))
    (fun x h => h = LockAccount <$> (dn ++ [a]) /\ Account_id x = a).
Proof.
  intros Hlt. apply io_ordered_bind, io_ordered_map_err, io_ordered_bind.
  apply io_ordered_query; [auto with fides| |].
  - intros l ->%list_elem_of_singleton. right.
    intros h (d & -> & Hd)%list_elem_of_fmap. right. simpl. split; [done|]. by apply Hlt.
  - intros s v s' o v' _ Hq. simpl in Hq. simplify_eq.
    cbn [stmt_locks read_stmt]. rewrite live_account.
    apply io_ordered_lift. intros [x|] Hx; apply io_ordered_lift; [|done].
    intros x' [= <-]. unfold select_account, AccountId_value in *.
    destruct (accounts v' !! a) as [r|]; [|done]. simpl in Hx.
    destruct (account_of_row (a, r)) as [y|] eqn:Hy; simplify_eq/=.
    apply account_of_row_id in Hy. by rewrite fmap_app.
Qed.

Lemma ordered_lock_list l dn :
  StronglySorted Z.lt (dn ++ l) ->
  io_ordered (LockAccount <$> dn) (io_map (fun account_id =>
      account ← storage (storage_get_account_for_update account_id);
      lift (ok_or (ServiceError_AccountNotFound (AccountId_value account_id)) account)) l)
    (fun accts h => h = LockAccount <$> (dn ++ l) /\ forall x, x ∈ accts -> Account_id x ∈ l).
Proof.
  revert dn. induction l as [|a l IH]; intros dn Hs; cbn [io_map].
  - apply io_ordered_ret. rewrite app_nil_r. split; [done|set_solver].
  - apply io_ordered_bind. eapply io_ordered_mono; [apply ordered_lock_one|].
    { intros d Hd. apply (StronglySorted_app_1_elem_of Z.lt dn (a :: l) d a Hs); set_solver. }
    intros x h [-> Hx]. apply io_ordered_bind.
    eapply io_ordered_mono; [apply IH; by rewrite <- (assoc_L (++))|].
    intros xs h [-> Hxs]. apply io_ordered_ret. rewrite <- (assoc_L (++)). set_solver.
Qed.

(** Every account returned is locked. *)
Definition all_locked (accts : list Account) held : Prop :=
  forall x, x ∈ accts -> LockAccount (Account_id x) ∈ held.
Definition account_locks held : Prop :=
  forall l, l ∈ held -> exists a, l = LockAccount a.

Lemma ordered_lock_accounts ids :
  io_ordered [] (lock_accounts ids)
    (fun accts held => all_locked accts held /\ account_locks held).
Proof.
  eapply io_ordered_mono; [apply (ordered_lock_list (lock_order ids) [])|].
  - apply lock_order_sorted.
  - intros accts h [-> Hx]. split.
    + intros x Hin%Hx. apply list_elem_of_fmap. eauto.
    + intros l (a & -> & _)%list_elem_of_fmap. eauto.
Qed.

(** The updates touch rows that are locked. *)
Lemma ordered_find_account a accts held R :
  all_locked accts held ->
  (forall x, LockAccount a ∈ held -> Account_id x = a -> R x held) ->
  io_ordered held (find_account a accts) R.
Proof.
  intros Hl HR. apply io_ordered_unwrap. intros x Hx. apply head_Some_elem_of in Hx.
  apply list_elem_of_filter in Hx as [<- Hx]. apply HR; [by apply Hl|done].
Qed.

Lemma filter_live_sub (v : database) l : filter (lock_live v) [l] ⊆ [l].
Proof. intros x Hx. by apply list_elem_of_filter in Hx as [_ ?]. Qed.

Lemma quiet_version_error a ver during : quiet (version_error a ver during).
Proof. unfold version_error. apply quiet_bind; [auto with fides|]. intros [v|]; auto with fides. Qed.

Lemma ordered_update_balance a ver dp dq held :
  LockAccount a ∈ held ->
  io_ordered held (storage_update_account_balance a ver dp dq)
    (fun _ held' => forall l, l ∈ held' <-> l ∈ held).
Proof.
  intros Ha. apply io_ordered_bind. apply io_ordered_query.
  - apply grows_stmt. auto with fides.
  - intros l ->%list_elem_of_singleton. by left.
  - intros s v s' n v' _ _. cbn [stmt_locks write_stmt].
    assert (forall l, l ∈ held ++ filter (lock_live v') [LockAccount a] <-> l ∈ held) as Heq.
    { intros l. pose proof (filter_live_sub v' (LockAccount a)). set_solver. }
    case_decide; [|by apply io_ordered_ret].
    apply io_ordered_quiet; [apply quiet_version_error|done].
Qed.

Lemma ordered_apply_updates accts u held :
  all_locked accts held -> io_ordered held (apply_balance_updates accts u) (fun _ _ => True).
Proof.
  revert held. induction u as [|[[a p] q] u IH]; intros held Hl; [done|].
  apply io_ordered_bind, io_ordered_bind. eapply ordered_find_account; [done|].
  intros x Ha _. apply io_ordered_map_err.
  eapply io_ordered_mono; [by apply ordered_update_balance|].
  intros [] h Heq. apply IH. intros y Hy. by apply Heq, Hl.
Qed.
End requests.

Section handle.
Context `{JsonLib, PgLib}.
Implicit Types (held : list row_lock).

Ltac quiet := repeat first
  [ progress auto with fides
  | apply quiet_query; [apply grows_stmt; auto with fides|done]
  | match goal with |- quiet (if ?b then _ else _) => destruct b end
  | match goal with |- quiet (match ?x with _ => _ end) => destruct x end
  | apply quiet_map_err
  | apply quiet_bind; [|intros ?] ].

Lemma quiet_find_account a accts : quiet (find_account a accts).
Proof. apply quiet_unwrap. Qed.
Lemma quiet_check_available accts legs : quiet (check_available accts legs).
Proof. apply quiet_iter. intros leg. unfold find_account, cache_get. quiet. Qed.
Lemma quiet_create_entry t a ty am st now : quiet (storage_create_entry t a ty am st now).
Proof. unfold storage_create_entry. quiet. Qed.
Lemma quiet_authorize_leg t now accts acc leg : quiet (authorize_leg t now accts acc leg).
Proof.
  unfold authorize_leg, storage, find_account.
  repeat first [apply quiet_create_entry | progress quiet].
Qed.
Lemma quiet_settle_updates upd accts es : quiet (settle_updates upd accts es).
Proof. apply quiet_fold. intros u e. unfold find_account. quiet. Qed.
Lemma quiet_update_cache u : quiet (update_cache u).
Proof. apply quiet_iter. intros [[a p] q]. apply quiet_cache. Qed.

Lemma ordered_create_transaction key st md now po held :
  account_locks held ->
  io_ordered held (storage_create_transaction key st md now po)
    (fun _ held' => forall l, l ∈ held -> l ∈ held').
Proof.
  intros Hacc. apply io_ordered_bind. apply io_ordered_query.
  - apply grows_stmt. auto with fides.
  - intros l Hl. right. intros h (a & ->)%Hacc. cbn [stmt_locks] in Hl.
    unfold key_locks in Hl. destruct (varchar_input 64 key); [|set_solver].
    apply list_elem_of_singleton in Hl as ->. left. simpl. lia.
  - intros. apply io_ordered_ret. set_solver.
Qed.

Lemma ordered_update_transaction t st po held :
  account_locks held ->
  io_ordered held (storage_update_transaction_status t st po)
    (fun _ held' => (forall l, l ∈ held -> l ∈ held') /\
       forall l, l ∈ held' -> lock_lt l (LockEntries t)).
Proof.
  intros Hacc. apply io_ordered_bind. apply io_ordered_query.
  - apply grows_stmt. auto with fides.
  - intros l ->%list_elem_of_singleton. right. intros h (a & ->)%Hacc. left. simpl. lia.
  - intros s v s' n v' _ _. case_decide; [apply io_ordered_throw|]. apply io_ordered_ret.
    cbn [stmt_locks write_stmt]. split; [set_solver|]. intros l [Hl|Hl]%elem_of_app.
    + apply Hacc in Hl as (a & ->). left. simpl. lia.
    + apply filter_live_sub in Hl. apply list_elem_of_singleton in Hl as ->.
      left. simpl. unfold TransactionId_value. lia.
Qed.

Lemma ordered_update_entries t st held :
  (forall l, l ∈ held -> lock_lt l (LockEntries t)) ->
  io_ordered held (storage_update_entry_status_by_transaction t st)
    (fun _ held' => forall l, l ∈ held -> l ∈ held').
Proof.
  intros Hlt. apply io_ordered_query.
  - apply grows_stmt. auto with fides.
  - intros l ->%list_elem_of_singleton. right. apply Hlt.
  - set_solver.
Qed.

Lemma ordered_authorize_new key md legs now :
  io_ordered [] (authorize_new key md legs now) (fun _ _ => True).
Proof.
  apply io_ordered_bind. eapply io_ordered_mono; [apply ordered_lock_accounts|].
  intros accts held [Hall Hacc]. apply io_ordered_quiet_bind; [apply quiet_check_available|].
  intros _. apply io_ordered_bind, io_ordered_map_err.
  eapply io_ordered_mono; [by apply ordered_create_transaction|]. intros t held' Hsub.
  apply io_ordered_quiet_bind; [apply quiet_fold, quiet_authorize_leg|]. intros [es u].
  apply io_ordered_bind. eapply io_ordered_mono; [apply ordered_apply_updates|].
  { intros x Hx. by apply Hsub, Hall. }
  intros _ h _. apply io_ordered_commit. apply io_ordered_quiet; [|done].
  repeat first [apply quiet_update_cache | progress quiet].
Qed.

Lemma ordered_settle_request upd t st est po es
    (k : list (AccountId * Z * Z) -> io ServiceError ProtoTransaction) :
  (forall u, quiet (k u)) ->
  io_ordered [] (accts ← lock_accounts (Entry_account_id <$> es);
    updates ← settle_updates upd accts es;
    storage (storage_update_transaction_status t st po);;
    storage (storage_update_entry_status_by_transaction t est);;
    apply_balance_updates accts updates;;
    commit_tx;; k updates) (fun _ _ => True).
Proof.
  intros Hk. apply io_ordered_bind. eapply io_ordered_mono; [apply ordered_lock_accounts|].
  intros accts held [Hall Hacc]. apply io_ordered_quiet_bind; [apply quiet_settle_updates|].
  intros u. apply io_ordered_bind, io_ordered_map_err.
  eapply io_ordered_mono; [by apply ordered_update_transaction|]. intros [] held1 [Hs1 Hlt].
  apply io_ordered_bind, io_ordered_map_err.
  eapply io_ordered_mono; [by apply ordered_update_entries|]. intros n held2 Hs2.
  apply io_ordered_bind. eapply io_ordered_mono; [apply ordered_apply_updates|].
  { intros x Hx. by apply Hs2, Hs1, Hall. }
  intros [] h _. apply io_ordered_commit. by apply io_ordered_quiet.
Qed.

Lemma quiet_get_entries t : quiet (storage_get_entries_for_transaction t).
Proof. unfold storage_get_entries_for_transaction. quiet. Qed.

Lemma ordered_capture t : io_ordered [] (capture t) (fun _ _ => True).
Proof.
  apply io_ordered_quiet_bind; [quiet|]. intros id.
  apply io_ordered_quiet_bind; [quiet|]. intros now. apply io_ordered_begin.
  apply io_ordered_quiet_bind; [unfold storage, storage_get_transaction; quiet|]. intros o.
  apply io_ordered_quiet_bind; [quiet|]. intros tx.
  case_decide; [apply io_ordered_commit, io_ordered_quiet; [quiet|done]|].
  case_decide; [apply io_ordered_throw|].
  apply io_ordered_quiet_bind; [apply quiet_map_err, quiet_get_entries|]. intros es.
  apply (ordered_settle_request capture_update id TransactionStatus_Posted EntryStatus_Posted).
  intros u. repeat first [apply quiet_update_cache | progress quiet].
Qed.

Lemma ordered_void t : io_ordered [] (void t) (fun _ _ => True).
Proof.
  apply io_ordered_quiet_bind; [quiet|]. intros id. apply io_ordered_begin.
  apply io_ordered_quiet_bind; [unfold storage, storage_get_transaction; quiet|]. intros o.
  apply io_ordered_quiet_bind; [quiet|]. intros tx.
  case_decide; [apply io_ordered_commit, io_ordered_quiet; [quiet|done]|].
  case_decide; [apply io_ordered_throw|].
  apply io_ordered_quiet_bind; [apply quiet_map_err, quiet_get_entries|]. intros es.
  apply (ordered_settle_request void_update id TransactionStatus_Voided EntryStatus_Voided None).
  intros u. repeat first [apply quiet_update_cache | progress quiet].
Qed.

Lemma ordered_authorize req : io_ordered [] (authorize req) (fun _ _ => True).
Proof.
  unfold authorize. case_decide; [apply io_ordered_throw|].
  do 4 (apply io_ordered_quiet_bind; [quiet|]; intros ?). apply io_ordered_begin.
  apply io_ordered_quiet_bind; [unfold storage, storage_find_transaction_by_key; quiet|].
  intros [ex|]; [|apply ordered_authorize_new].
  apply io_ordered_quiet_bind; [apply quiet_map_err, quiet_get_entries|]. intros es.
  apply io_ordered_commit, io_ordered_quiet; [quiet|done].
Qed.

Lemma ordered_create_account req : io_ordered [] (create_account req) (fun _ _ => True).
Proof.
  unfold create_account. apply io_ordered_quiet_bind; [quiet|]. intros ty.
  case_decide; [apply io_ordered_throw|]. case_decide; [apply io_ordered_throw|].
  apply io_ordered_quiet_bind; [quiet|]. intros now. apply io_ordered_begin.
  apply io_ordered_quiet_bind; [unfold storage, storage_create_account; quiet|]. intros id.
  apply io_ordered_commit, io_ordered_quiet; [|done]. unfold cache_set. quiet.
Qed.

(** Every handler locks in order. *)
Lemma ordered_handle req : ordered [] (handle req) (fun _ _ => True).
Proof.
  cut (io_ordered [] (handle req) (fun _ _ => True)).
  { intros Hh. eapply ordered_mono; [exact Hh|done]. }
  destruct req as [req|id|id|req|t|t|id]; apply io_ordered_bind;
    (apply (io_ordered_mono _ _ (fun _ _ => True)); [|by intros a h _; apply io_ordered_ret]).
  - apply ordered_create_account.
  - apply io_ordered_quiet_bind; [quiet|]. intros a. apply io_ordered_begin.
    apply io_ordered_quiet_bind; [unfold storage, storage_get_account; quiet|]. intros o.
    apply io_ordered_quiet_bind; [quiet|]. intros x.
    apply io_ordered_commit, io_ordered_quiet; [quiet|done].
  - apply io_ordered_quiet; [|done]. unfold get_balance, cache_get. quiet.
  - apply ordered_authorize.
  - apply ordered_capture.
  - apply ordered_void.
  - apply io_ordered_quiet_bind; [quiet|]. intros a. apply io_ordered_begin.
    apply io_ordered_quiet_bind; [unfold storage, storage_get_account; quiet|]. intros o.
    apply io_ordered_quiet_bind; [quiet|]. intros x.
    apply io_ordered_quiet_bind; [unfold storage, storage_get_entries_for_account; quiet|].
    intros es. apply io_ordered_commit, io_ordered_quiet; [quiet|done].
Qed.
End handle.

(** ** Configurations *)

Section progress.
Context `{JsonLib, PgLib}.

(** A held lock has its row among the transaction's own. *)
Definition locks_live (x : option txn) : Prop :=
  match x with Some x => Forall (lock_live (x_own x)) (x_locks x) | None => True end.
Definition session_ok (s : session) : Prop :=
  ordered (ss_locks s) (ss_prog s) (fun _ _ => True) /\ locks_live (ss_txn s).

Record config_ok (c : config) : Prop := {
  co_sessions : Forall session_ok (c_sessions c);
  co_disjoint : forall i j s s' l, i <> j -> c_sessions c !! i = Some s ->
    c_sessions c !! j = Some s' -> l ∈ ss_locks s -> l ∉ ss_locks s'
}.

Lemma lock_live_overlay own db l : lock_live own l -> lock_live (overlay own db) l.
Proof. destruct l; simpl; try done; intros Hl; apply lookup_union_is_Some; by left. Qed.

Lemma lock_live_own locks db v l :
  l ∈ locks -> lock_live v l -> lock_live (own_rows locks db v) l.
Proof.
  intros Hin. destruct l; simpl; try done; intros [r Hr]; exists r;
    apply map_lookup_filter_Some; simpl; auto.
Qed.

Definition world_live (w : world) : Prop :=
  match w_tx w with Some v => Forall (lock_live v) (w_locks w) | None => w_locks w = [] end.

Lemma to_world_live σ x now f : locks_live x -> world_live (to_world σ x now f).
Proof.
  destruct x as [x|]; [|done]. intros Hl. unfold world_live. simpl.
  eapply Forall_impl; [exact Hl|]. intros l. apply lock_live_overlay.
Qed.

Lemma txn_of_live w : world_live w -> locks_live (txn_of w).
Proof.
  unfold world_live, txn_of. destruct (w_tx w) as [v|]; [|done]. simpl.
  intros Hl. apply Forall_forall. intros l Hin. apply lock_live_own; [done|].
  by eapply Forall_forall in Hl.
Qed.

Lemma txn_of_locks w : world_live w -> from_option x_locks [] (txn_of w) = w_locks w.
Proof. unfold world_live, txn_of. by destruct (w_tx w). Qed.

(** What one effect does to the locks. *)
Lemma step_locks {X} (e : eff X) w x w' :
  world_live w -> eff_grows e -> step e w = (x, w') ->
  world_live w' /\ lock_after e (w_locks w) x (w_locks w') /\
  forall l, l ∈ w_locks w' -> l ∈ w_locks w \/ (mjoin (head (w_faults w)) = None /\ l ∈ eff_locks e).
Proof.
  intros Hl Hg Hs. destruct e as [| |A q| |A q|A op|n ls]; simpl in Hs.
  - simplify_eq. split_and!; simpl; auto.
  - unfold step_begin, next_fault in Hs.
    destruct (mjoin (head (w_faults w))); simplify_eq/=; split_and!; simpl; auto; try done.
    constructor.
  - unfold step_query, next_fault in Hs. simpl in Hs.
    destruct (mjoin (head (w_faults w))); [by simplify_eq/=; split_and!; simpl; auto|].
    unfold world_live in *. destruct (w_tx w) as [v|] eqn:Hv;
      [|by simplify_eq/=; rewrite ?Hv; split_and!; simpl; auto].
    destruct (stmt_exec q (w_seqs w) v) as [s' [[a v']|er]] eqn:Hq; simplify_eq/=;
      [|split_and!; simpl; auto].
    split_and!.
    + apply Forall_app. split.
      * eapply Forall_impl; [exact Hl|]. intros l. by eapply Hg.
      * apply Forall_forall. by intros l [? _]%list_elem_of_filter.
    + by exists (w_seqs w), v, s', v'.
    + intros l [?|[_ ?]%list_elem_of_filter]%elem_of_app; auto.
  - unfold step_commit, next_fault in Hs. unfold world_live in *. simpl in Hs.
    destruct (mjoin (head (w_faults w))) as [f|], (w_tx w) eqn:Hv; simplify_eq/=;
      try rewrite Hv; split_and!; try done; try set_solver; rewrite ?Hl; auto.
  - unfold step_pool, next_fault in Hs. simpl in Hs.
    destruct (mjoin (head (w_faults w))); [by simplify_eq/=; split_and!; simpl; auto|].
    destruct (stmt_exec q (w_seqs w) (w_db w)) as [s' [[a v']|er]]; 
      simplify_eq/=; split_and!; simpl; auto.
  - destruct (op (w_cache w)) as [a c]. simplify_eq/=. split_and!; simpl; auto.
  - simplify_eq/=. split_and!; simpl; auto.
Qed.

Lemma advance_ok now f σ s σ' s' :
  session_ok s -> advance now f σ s = Some (σ', s') ->
  session_ok s' /\ forall l, l ∈ ss_locks s' -> l ∈ ss_locks s \/ (f = None /\ l ∈ wants s).
Proof.
  intros [Ho Hl]. unfold advance, wants. destruct (ss_prog s) as [|X e k|]; [done| |done].
  simpl in Ho. destruct Ho as (_ & Hg & Hk).
  destruct (step e (to_world σ (ss_txn s) now f)) as [x w] eqn:Hs. intros [= <- <-].
  apply step_locks in Hs as (Hl' & Ha & Hn); [|by apply to_world_live|done].
  unfold session_ok, ss_locks. simpl. rewrite txn_of_locks by done. split_and!.
  - by apply Hk.
  - by apply txn_of_live.
  - intros l Hin. apply Hn in Hin as [?|[Hf ?]]; [by left|right]. simpl in Hf.
    split; [|done]. by destruct f.
Qed.

Lemma task_step_ok healthy c c' : config_ok c -> task_step healthy c c' -> config_ok c'.
Proof.
  intros Hok Ht. revert Hok.
  destruct Ht as [i now f c0 s σ s' Hi _ Hb Ha|i c0 s Hi Hf Hx]; intros [Hs Hd].
  - destruct (advance_ok _ _ _ _ _ _ (Forall_lookup_1 _ _ _ _ Hs Hi) Ha) as [Hok Hn].
    assert (forall j sj l, j <> i -> c_sessions c0 !! j = Some sj -> l ∈ ss_locks s' ->
      l ∉ ss_locks sj) as Hnew.
    { intros j sj l Hne Hj Hl Hlj. apply Hn in Hl as [Hl|[Hfn Hl]].
      - by apply (Hd i j s sj l).
      - apply (Hb Hfn). by exists l, j, sj. }
    split; simpl; [by apply Forall_insert|].
    intros j1 j2 s1 s2 l Hne H1 H2 Hl1 Hl2.
    apply list_lookup_insert_Some in H1 as [(-> & <- & _)|[? H1]], H2 as [(-> & <- & _)|[? H2]]; try done.
    + by apply (Hnew j2 s2 l).
    + by apply (Hnew j1 s1 l).
    + by apply (Hd j1 j2 s1 s2 l).
  - split; simpl.
    + apply Forall_insert; [done|]. split; [|done]. unfold finished in Hf. simpl.
      by destruct (ss_prog s).
    + intros j1 j2 s1 s2 l Hne H1 H2 Hl1 Hl2.
      apply list_lookup_insert_Some in H1 as [(-> & <- & _)|[? H1]], H2 as [(-> & <- & _)|[? H2]]; try done.
      * by apply elem_of_nil in Hl1.
      * by apply elem_of_nil in Hl2.
      * by apply (Hd j1 j2 s1 s2 l).
Qed.

Lemma conc_reachable_ok exclusive c : conc_reachable exclusive c -> config_ok c.
Proof.
  intros Hr. unfold conc_reachable in Hr.
  assert (config_ok initial_config) as Hi0 by (split; [constructor|done]).
  revert Hi0. induction Hr as [c|c1 c2 c3 Hs _ IH]; [done|]. intros Hi0. apply IH.
  destruct Hs as [req c Hv Hno|c c' Ht|now c w' Hw].
  - destruct Hi0 as [Hs Hd]. split; simpl.
    + apply Forall_app. split; [done|]. constructor; [|constructor].
      split; [apply ordered_handle|done].
    + intros i j s s' l Hne Hi Hj Hl Hl'.
      apply lookup_snoc_Some in Hi as [[_ Hi]|[_ <-]], Hj as [[_ Hj]|[_ <-]];
        try (by apply elem_of_nil in Hl); try (by apply elem_of_nil in Hl').
      by apply (Hd i j s s' l).
  - by eapply task_step_ok.
  - split; [constructor|done].
Qed.

(** ** Progress *)

(** In a finite set, a strict order has a maximum. *)
Lemma no_ascent {A} `{EqDecision A} (R : relation A) `{!Transitive R, !Irreflexive R} (L : list A)
    (P : A -> Prop) x :
  (forall y, P y -> y ∈ L) -> (forall y, P y -> exists z, P z /\ R y z) -> ~ P x.
Proof.
  remember (length L) as n eqn:Hn. revert L P x Hn.
  induction n as [|n IH]; intros L P x Hn Hin Hup Hx.
  - apply Hin in Hx. destruct L; [by apply elem_of_nil in Hx|simpl in Hn; lia].
  - pose proof (Hin _ Hx) as Hxl. apply list_elem_of_split in Hxl as (l1 & l2 & ->).
    destruct (Hup x Hx) as (y & Hy & Hxy).
    apply (IH (l1 ++ l2) (fun y => P y /\ R x y) y).
    + rewrite length_app in *. simpl in Hn. lia.
    + intros z [Hz Hxz]. assert (z <> x) by (intros ->; by apply irreflexivity in Hxz).
      apply Hin in Hz. set_solver.
    + intros z [Hz Hxz]. destruct (Hup z Hz) as (u & Hu & Hzu). exists u.
      split_and!; [done|by etrans|done].
    + done.
Qed.

(** A task that can go on: it has ended and still holds its transaction, or it
    runs and does not wait. *)
Definition can_move (i : nat) (c : config) (s : session) : bool :=
  if finished s then match ss_txn s with Some _ => true | None => false end else negb (blockedb i c s).

Lemma can_move_step i c s :
  c_sessions c !! i = Some s -> can_move i c s = true -> exists c', task_step true c c'.
Proof.
  intros Hi. unfold can_move. destruct (finished s) eqn:Hf.
  - destruct (ss_txn s) eqn:Hx; [|done]. intros _. eexists.
    eapply task_drop; [done|done|]. rewrite Hx. eauto.
  - intros Hb. apply negb_true_iff in Hb.
    destruct (advance 0 None (c_store c) s) as [[σ s']|] eqn:Ha.
    + eexists. eapply (task_run true i 0 None); [done|done| |done].
      intros _ Hbl. apply blockedb_spec in Hbl. congruence.
    + exfalso. unfold advance, finished in *. destruct (ss_prog s); try done.
      by destruct (step e _).
Qed.

(** A waiting task waits for one whose own wish is higher. *)
Lemma stuck_done c :
  config_ok c -> (forall i s, c_sessions c !! i = Some s -> can_move i c s = false) ->
  forall i s, c_sessions c !! i = Some s -> finished s = true /\ ss_txn s = None.
Proof.
  intros [Hs Hd] Hstuck i s Hi. pose proof (Hstuck i s Hi) as Hm. unfold can_move in Hm.
  destruct (finished s) eqn:Hf; [by destruct (ss_txn s)|]. exfalso.
  apply negb_false_iff, blockedb_spec in Hm as (l & j & s' & Hl & Hne & Hj & Hls).
  refine (no_ascent lock_lt (mjoin (ss_locks <$> c_sessions c)) (fun l =>
    exists i s j s', c_sessions c !! i = Some s /\ l ∈ wants s /\ j <> i /\
      c_sessions c !! j = Some s' /\ l ∈ ss_locks s') l _ _ _); [| |by exists i, s, j, s'].
  - intros l' (_ & _ & k & s1 & _ & _ & _ & Hk & Hlk). apply list_elem_of_join.
    exists (ss_locks s1). split; [done|]. apply list_elem_of_fmap. exists s1. split; [done|].
    by eapply list_elem_of_lookup_2.
  - intros l' (_ & _ & k & s1 & _ & _ & _ & Hk & Hlk).
    pose proof (Hstuck k s1 Hk) as Hm. unfold can_move in Hm.
    assert (is_Some (ss_txn s1)) as [x Hx].
    { unfold ss_locks in Hlk. destruct (ss_txn s1); [eauto|by apply elem_of_nil in Hlk]. }
    destruct (finished s1) eqn:Hf1; [by rewrite Hx in Hm|].
    apply negb_false_iff, blockedb_spec in Hm as (l2 & j2 & s2 & Hl2 & Hne2 & Hj2 & Hls2).
    exists l2. split; [by exists k, s1, j2, s2|].
    pose proof (Forall_lookup_1 _ _ _ _ Hs Hk) as [Ho _]. unfold wants in Hl2.
    destruct (ss_prog s1) as [|X e kk|]; [set_solver| |set_solver].
    destruct Ho as [Ho _]. destruct (Ho l2 Hl2) as [Hin|Hlt]; [|by apply Hlt].
    exfalso. by apply (Hd k j2 s1 s2 l2).
Qed.

Lemma some_can_move c i s :
  config_ok c -> c_sessions c !! i = Some s -> ~ (finished s = true /\ ss_txn s = None) ->
  exists c', task_step true c c'.
Proof.
  intros Hok Hi Hn.
  destruct (existsb (fun '(j, s) => can_move j c s) (imap pair (c_sessions c))) eqn:He.
  - apply existsb_exists in He as ([j s'] & Hin & Hm). apply list_elem_of_In in Hin.
    apply elem_of_lookup_imap in Hin as (? & ? & [= <- <-] & Hj). by eapply can_move_step.
  - exfalso. apply Hn. eapply stuck_done; [done| |done]. intros j s' Hj.
    destruct (can_move j c s') eqn:Hm; [|done]. exfalso. apply not_true_iff_false in He.
    apply He, existsb_exists. exists (j, s'). split; [|done].
    apply list_elem_of_In, elem_of_lookup_imap. eauto.
Qed.

(** ** Termination *)

(** One session of a list replaced by a smaller one. *)
Inductive list_lower {A} (R : A -> A -> Prop) : list A -> list A -> Prop :=
| list_lower_at i x y l : l !! i = Some x -> R y x -> list_lower R (<[i := y]> l) l.

Lemma list_lower_acc {A} (R : A -> A -> Prop) l : Forall (Acc R) l -> Acc (list_lower R) l.
Proof.
  induction l as [|x l IH]; intros Hl.
  - constructor. intros l' Hlow. inversion Hlow as [i ? ? ? Hi]. by rewrite lookup_nil in Hi.
  - apply Forall_cons in Hl as [Hx Hl]. specialize (IH Hl). clear Hl.
    revert l IH. induction Hx as [x _ IHx]. intros l Hl.
    induction Hl as [l Hl IHl]. constructor. intros l' Hlow.
    inversion Hlow as [[|i] z y ? Hi HR]; simplify_eq/=.
    + apply IHx; [done|]. by constructor.
    + apply IHl. by econstructor.
Qed.

(** A task gets smaller with every step: an effect leaves a part of its program,
    and the end leaves no transaction. *)
Definition rest_of {A} (p' p : prog A) : Prop :=
  match p with Vis _ k => exists x, p' = k x | _ => False end.
Definition smaller (s' s : session) : Prop :=
  rest_of (ss_prog s') (ss_prog s) \/
  (finished s = true /\ is_Some (ss_txn s) /\ ss_prog s' = ss_prog s /\ ss_txn s' = None).

Lemma finished_acc s : finished s = true -> Acc smaller s.
Proof.
  unfold finished. intros Hf. constructor. intros s1 [Hr|(_ & _ & Hp & Hx)].
  - by destruct (ss_prog s).
  - constructor. intros s2 [Hr|(_ & [y Hy] & _)]; [|congruence].
    rewrite Hp in Hr. by destruct (ss_prog s).
Qed.

Lemma smaller_acc s : Acc smaller s.
Proof.
  remember (ss_prog s) as p eqn:Hp. revert s Hp.
  induction p as [a|X e k IH|]; intros s Hp.
  - apply finished_acc. unfold finished. by rewrite <- Hp.
  - constructor. intros s' [Hr|(Hf & _)].
    + rewrite <- Hp in Hr. destruct Hr as [x Hx]. by apply (IH x).
    + unfold finished in Hf. by rewrite <- Hp in Hf.
  - apply finished_acc. unfold finished. by rewrite <- Hp.
Qed.

Lemma task_step_lower healthy c c' :
  task_step healthy c c' -> list_lower smaller (c_sessions c') (c_sessions c).
Proof.
  intros [i now f c0 s σ s' Hi _ _ Ha|i c0 s Hi Hf Hx]; simpl.
  - econstructor; [exact Hi|]. left. unfold advance in Ha.
    destruct (ss_prog s) as [|X e k|] eqn:Hp; [done| |done].
    destruct (step e _) as [x w]. simplify_eq/=. rewrite ?Hp. by exists x.
  - econstructor; [exact Hi|]. right. done.
Qed.

Lemma tasks_terminate healthy c : Acc (flip (task_step healthy)) c.
Proof.
  assert (Acc (list_lower smaller) (c_sessions c)) as Hacc.
  { apply list_lower_acc, Forall_forall. intros s _. apply smaller_acc. }
  remember (c_sessions c) as l eqn:Hl. revert c Hl.
  induction Hacc as [l _ IH]. intros c ->. constructor. intros c' Hs.
  by eapply IH; [apply (task_step_lower healthy)|].
Qed.
End progress.
