(* ===== verification/Isolation.v ===== *)
(** * Isolation: what a transaction can rely on while others commit

    [rely] is what the other requests may do to the committed tables while a
    transaction is open: rows stay, locked rows keep their contents, a transaction keeps
    its key and does not become pending again, its entries change at most their status, and ids and keys that an open
    transaction has taken stay free.  What an open transaction has done so far is a
    [patch]; [in_tx_rely] shows that its view of the tables is the patch applied to
    the committed tables, whatever the others commit in between. *)

From S2P Require Import Prelude.
From S2P Require Import Money Accounts Transactions Entries Validation.
From S2P Require Import StorageErrors Schema Cache Effects Triples Postgres.
From S2P Require Import ServiceErrors Ledger Invariant Updates PostgresSpecs LedgerSpecs.
From S2P Require Import Preserve Handlers HandlerSpecs AuthorizeSpec SettleSpec System.
From S2P Require Import Commits Concurrent.
Local Open Scope Z_scope.

(** ** One table

    [F] changes the table row by row; a transaction keeps the rows of the changed
    table that are held or not committed.  If the others leave the held and the
    uncommitted rows alone, the kept rows on top of the new table are the changed
    new table. *)

Section table.
Context {A : Type} (held : Z -> A -> Prop) `{!forall k y, Decision (held k y)}.
Context (F : Z -> option A -> option A) (m m' v v' : gmap Z A).

Definition kept (m v : gmap Z A) : gmap Z A :=
  filter (fun x => held x.1 x.2 \/ m !! x.1 = None) v.

Hypothesis Hv : forall k, v !! k = F k (m !! k).
Hypothesis Hv' : forall k, v' !! k = F k (m' !! k).
Hypothesis touched : forall k, F k (m !! k) = m !! k \/
  exists y, F k (m !! k) = Some y /\ (held k y \/ m !! k = None).
Hypothesis touched' : forall k, F k (m' !! k) = m' !! k \/
  exists y, F k (m' !! k) = Some y /\ (held k y \/ m' !! k = None).
Hypothesis held_same : forall k y, F k (m !! k) = Some y -> held k y ->
  is_Some (m !! k) -> m' !! k = m !! k.
Hypothesis held_same' : forall k y, F k (m' !! k) = Some y -> held k y ->
  is_Some (m' !! k) -> m' !! k = m !! k.
Hypothesis fresh_same : forall k y, F k (m !! k) = Some y -> m !! k = None -> m' !! k = None.
Hypothesis rows_stay : forall k, is_Some (m !! k) -> is_Some (m' !! k).

Lemma kept_Some k y : kept m v !! k = Some y <->
  F k (m !! k) = Some y /\ (held k y \/ m !! k = None).
Proof. unfold kept. rewrite map_lookup_filter_Some, Hv. done. Qed.

Lemma kept_row k y : kept m v !! k = Some y -> m' !! k = m !! k.
Proof.
  rewrite kept_Some. intros [Hy Hh]. destruct (m !! k) as [z|] eqn:Hm.
  - destruct Hh as [Hh|]; [|done]. rewrite <- Hm in Hy |- *. by eapply held_same; [..|rewrite Hm].
  - rewrite <- Hm in Hy. by apply fresh_same in Hy.
Qed.

(** A row that the change touches in the new table is kept. *)
Lemma kept_back k y : F k (m' !! k) = Some y -> held k y \/ m' !! k = None -> m' !! k = m !! k.
Proof.
  intros Hy Hh. destruct (m' !! k) as [z|] eqn:Hm.
  - destruct Hh as [Hh|]; [|done]. rewrite <- Hm in Hy |- *. by eapply held_same'; [..|rewrite Hm].
  - destruct (m !! k) eqn:Hm2; [|done]. destruct (rows_stay k); [by rewrite Hm2|congruence].
Qed.

Lemma kept_union : kept m v ∪ m' = v'.
Proof.
  apply map_eq. intros k. rewrite Hv'. destruct (kept m v !! k) as [y|] eqn:Hk.
  - rewrite (lookup_union_Some_l _ _ _ _ Hk). rewrite (kept_row _ _ Hk).
    by apply kept_Some in Hk as [-> _].
  - rewrite lookup_union_r by done. destruct (touched' k) as [->|(y & Hy & Hh)]; [done|].
    pose proof (kept_back _ _ Hy Hh) as Heq. exfalso.
    assert (kept m v !! k = Some y); [|congruence]. apply kept_Some. by rewrite <- Heq.
Qed.

Lemma kept_same : kept m' v' = kept m v.
Proof.
  apply map_eq. intros k. apply option_eq. intros y. rewrite kept_Some. unfold kept.
  rewrite map_lookup_filter_Some, Hv'. simpl. split.
  - intros [Hy Hh]. rewrite <- (kept_back _ _ Hy Hh). done.
  - intros Hk. apply kept_Some in Hk as Hk'. apply kept_row in Hk'. by rewrite Hk'.
Qed.
End table.

Section isolation.
Context `{JsonLib, PgLib}.
Implicit Types (db : database) (s : sequences) (x : option txn) (o : option Z).

Definition locks_of x : list row_lock := from_option x_locks [] x.
Definition own_of x : database := from_option x_own empty_database x.

(** The entries of a transaction, and an entry without its status. *)
Definition txn_entries (t : Z) db : gmap Z entries_row :=
  filter (fun ke => e_transaction_id ke.2 = t) (entries db).
Definition strip (e : entries_row) : entries_row := set_entry_status e 0.

(** ** Rely

    [o] is the transaction whose settlement is reserved to the request, if any. *)
Record rely o x db s db' s' : Prop := {
  rl_seqs : seqs_le s s';
  rl_acc a r : accounts db !! a = Some r ->
    exists r', accounts db' !! a = Some r' /\ a_account_type r' = a_account_type r;
  rl_acc_locked a r : LockAccount a ∈ locks_of x -> accounts db !! a = Some r ->
    accounts db' !! a = Some r;
  rl_txn t : is_Some (transactions db !! t) -> is_Some (transactions db' !! t);
  rl_txn_kept t r : transactions db !! t = Some r -> exists r', transactions db' !! t = Some r' /\
    t_idempotency_key r' = t_idempotency_key r /\ (t_status r <> 1 -> t_status r' <> 1);
  rl_txn_locked t r : LockTransaction t ∈ locks_of x \/ o = Some t ->
    transactions db !! t = Some r -> transactions db' !! t = Some r;
  rl_rows k : is_Some (entries db !! k) -> is_Some (entries db' !! k);
  rl_entries t : is_Some (transactions db !! t) ->
    strip <$> txn_entries t db' = strip <$> txn_entries t db;
  rl_entries_locked t : LockEntries t ∈ locks_of x \/ o = Some t ->
    is_Some (transactions db !! t) -> txn_entries t db' = txn_entries t db;
  rl_fresh_accounts a : is_Some (accounts (own_of x) !! a) -> accounts db !! a = None ->
    accounts db' !! a = None;
  rl_fresh_txns t : is_Some (transactions (own_of x) !! t) -> transactions db !! t = None ->
    transactions db' !! t = None;
  rl_fresh_entries k : is_Some (entries (own_of x) !! k) -> entries db !! k = None ->
    entries db' !! k = None;
  rl_keys key : LockKey key ∈ locks_of x -> find_key key db = None -> find_key key db' = None
}.

(** New ids alone disturb nobody. *)
Lemma rely_seqs o x db s s' : seqs_le s s' -> rely o x db s db s'.
Proof. intros Hs. split; eauto. Qed.

Lemma rely_trans o x db s db1 s1 db2 s2 :
  rely o x db s db1 s1 -> rely o x db1 s1 db2 s2 -> rely o x db s db2 s2.
Proof.
  intros A B. split.
  - etrans; [apply A|apply B].
  - intros a r Hr. destruct (rl_acc _ _ _ _ _ _ A _ _ Hr) as (r1 & Hr1 & <-).
    apply (rl_acc _ _ _ _ _ _ B _ _ Hr1).
  - intros a r Hl Hr. eapply B, A; done.
  - intros t Ht. by apply B, A.
  - intros t r Hr. destruct (rl_txn_kept _ _ _ _ _ _ A _ _ Hr) as (r1 & Hr1 & <- & Hs1).
    destruct (rl_txn_kept _ _ _ _ _ _ B _ _ Hr1) as (r2 & Hr2 & <- & Hs2). eauto 10.
  - intros t r Hl Hr. eapply B, A; done.
  - intros k Hk. by apply B, A.
  - intros t Ht. rewrite (rl_entries _ _ _ _ _ _ B), (rl_entries _ _ _ _ _ _ A); [done..|].
    by apply A.
  - intros t Hl Ht. rewrite (rl_entries_locked _ _ _ _ _ _ B),
      (rl_entries_locked _ _ _ _ _ _ A); [done..|]. by apply A.
  - intros a Ho Ha. by apply B, A.
  - intros a Ho Ha. by apply B, A.
  - intros a Ho Ha. by apply B, A.
  - intros key Hl Hk. by apply B, A.
Qed.

(** ** Patches: what a request has done in its transaction *)

Inductive patch :=
| PNone
| PAccount (id : Z) (r : accounts_row)
| PPost (t : Z) (tr : transactions_row) (new : gmap Z entries_row) (u : list (Z * Z * Z))
| PSettle (t st : Z) (posted : option Z) (ents : bool) (u : list (Z * Z * Z)).

Definition apply_patch (p : patch) db : database :=
  match p with
  | PNone => db
  | PAccount id r => add_account id r db
  | PPost t tr new u => post_transaction t tr new u db
  | PSettle t st posted ents u =>
      mk_database _ (apply_updates u (accounts db))
        (alter (fun r => set_transaction_status r st posted) t (transactions db))
        (if ents then settle_entries t st (entries db) else entries db)
  end.

Definition patch_updates (p : patch) : list (Z * Z * Z) :=
  match p with PPost _ _ _ u | PSettle _ _ _ _ u => u | _ => [] end.

(** The locks have their rows, and the patch touches locked or new rows only. *)
Definition locks_in (locks : list row_lock) db : Prop :=
  (forall a, LockAccount a ∈ locks -> is_Some (accounts db !! a)) /\
  (forall t, LockTransaction t ∈ locks -> is_Some (transactions db !! t)) /\
  (forall t, LockEntries t ∈ locks -> is_Some (transactions db !! t)).

Definition patch_held (locks : list row_lock) (p : patch) db s : Prop :=
  (forall y, y ∈ patch_updates p -> LockAccount y.1.1 ∈ locks) /\
  match p with
  | PNone => True
  | PAccount id r => accounts db !! id = None /\ 0 < id < accounts_id_seq s
  | PPost t tr new _ =>
      (transactions db !! t = None /\ 0 < t < transactions_id_seq s) /\
      (forall k e, new !! k = Some e -> entries db !! k = None /\ 0 < k < entries_id_seq s) /\
      (forall k e, new !! k = Some e -> e_transaction_id e = t) /\
      LockKey (t_idempotency_key tr) ∈ locks /\ find_key (t_idempotency_key tr) db = None
  | PSettle t _ _ ents _ =>
      LockTransaction t ∈ locks /\ (ents = true -> LockEntries t ∈ locks)
  end.

Definition tx_of (locks : list row_lock) (p : patch) db : txn :=
  mk_txn (own_rows locks db (apply_patch p db)) locks.

(** The transaction is open, holds [locks] and has done [p]. *)
Definition in_tx (locks : list row_lock) (p : patch) x db s : Prop :=
  x = Some (tx_of locks p db) /\ locks_in locks db /\ patch_held locks p db s.

(** *** The patch, row by row *)

Fixpoint bumps (u : list (Z * Z * Z)) (a : Z) (r : accounts_row) : accounts_row :=
  match u with
  | [] => r
  | (b, p, q) :: u => bumps u a (if decide (b = a) then bump p q r else r)
  end.

Lemma apply_updates_bumps u acs a : apply_updates u acs !! a = bumps u a <$> acs !! a.
Proof.
  revert acs. induction u as [|[[b p] q] u IH]; intros acs; simpl; [by destruct (acs !! a)|].
  rewrite IH. destruct (decide (b = a)) as [->|Hne].
  - rewrite lookup_alter_eq. by destruct (acs !! a).
  - by rewrite lookup_alter_ne.
Qed.

Lemma bumps_notin u a r : (forall y, y ∈ u -> y.1.1 <> a) -> bumps u a r = r.
Proof.
  revert r. induction u as [|[[b p] q] u IH]; intros r Hn; simpl; [done|].
  rewrite decide_False; [apply IH; set_solver|]. apply (Hn (b, p, q)). set_solver.
Qed.

Definition patch_account (p : patch) (a : Z) (row : option accounts_row) : option accounts_row :=
  match p with
  | PAccount id r => if decide (id = a) then Some r else row
  | _ => bumps (patch_updates p) a <$> row
  end.
Definition patch_txn (p : patch) (t' : Z) (row : option transactions_row)
  : option transactions_row :=
  match p with
  | PPost t tr _ _ => if decide (t = t') then Some tr else row
  | PSettle t st posted _ _ =>
      if decide (t = t') then (fun r => set_transaction_status r st posted) <$> row else row
  | _ => row
  end.
Definition patch_entry (p : patch) (k : Z) (row : option entries_row) : option entries_row :=
  match p with
  | PPost _ _ new _ => match new !! k with Some e => Some e | None => row end
  | PSettle t st _ true _ =>
      (fun e => if decide (e_transaction_id e = t) then set_entry_status e st else e) <$> row
  | _ => row
  end.

Lemma patch_account_lookup p db a :
  accounts (apply_patch p db) !! a = patch_account p a (accounts db !! a).
Proof.
  destruct p as [|id r|t tr new u|t st po [] u]; simpl; try apply apply_updates_bumps.
  - by destruct (accounts db !! a).
  - case_decide; subst; [apply lookup_insert_eq|by rewrite lookup_insert_ne].
Qed.
Lemma patch_txn_lookup p db t :
  transactions (apply_patch p db) !! t = patch_txn p t (transactions db !! t).
Proof.
  destruct p as [|id r|t' tr new u|t' st po [] u]; simpl; try done.
  - case_decide; subst; [apply lookup_insert_eq|by rewrite lookup_insert_ne].
  - case_decide; subst; [apply lookup_alter_eq|by rewrite lookup_alter_ne].
  - case_decide; subst; [apply lookup_alter_eq|by rewrite lookup_alter_ne].
Qed.
Lemma patch_entry_lookup p db k :
  entries (apply_patch p db) !! k = patch_entry p k (entries db !! k).
Proof.
  destruct p as [|id r|t' tr new u|t' st po [] u]; simpl; try done.
  - rewrite lookup_union. by destruct (new !! k), (entries db !! k).
  - apply lookup_fmap.
Qed.

(** *** The patch touches what the transaction holds *)

Lemma account_touched locks p db s a :
  locks_in locks db -> patch_held locks p db s ->
  patch_account p a (accounts db !! a) = accounts db !! a \/
  exists y, patch_account p a (accounts db !! a) = Some y /\
            (LockAccount a ∈ locks \/ accounts db !! a = None).
Proof.
  intros (Hla & _) [Hu Hp].
  assert ((bumps (patch_updates p) a <$> accounts db !! a) = accounts db !! a \/
    exists y, (bumps (patch_updates p) a <$> accounts db !! a) = Some y /\
      (LockAccount a ∈ locks \/ accounts db !! a = None)) as Hb.
  { destruct (decide (Exists (fun y => y.1.1 = a) (patch_updates p))) as [Hex|Hn].
    - apply Exists_exists in Hex as (y & Hy & <-). apply Hu in Hy.
      destruct (Hla _ Hy) as [r Hr]. right. rewrite Hr. eauto.
    - left. destruct (accounts db !! a) as [r|]; [|done]. simpl. f_equal.
      apply bumps_notin. intros y Hy Heq. apply Hn, Exists_exists. eauto. }
  destruct p as [|id r|t tr new u|t st po ents u]; try exact Hb.
  simpl in *. case_decide; subst; [|by left]. right. exists r. split; [done|]. right. apply Hp.
Qed.

Lemma txn_touched locks p db s t :
  locks_in locks db -> patch_held locks p db s ->
  patch_txn p t (transactions db !! t) = transactions db !! t \/
  exists y, patch_txn p t (transactions db !! t) = Some y /\
            (LockTransaction t ∈ locks \/ transactions db !! t = None).
Proof.
  intros (_ & Hlt & _) [_ Hp]. destruct p as [|id r|t' tr new u|t' st po ents u]; simpl in *;
    try (by left).
  - case_decide; subst; [|by left]. right. exists tr. split; [done|]. right. apply Hp.
  - case_decide; subst; [|by left]. right. destruct Hp as [Hl _].
    destruct (Hlt _ Hl) as [r ->]. simpl. eauto.
Qed.

Lemma entry_touched locks p db s k :
  patch_held locks p db s ->
  patch_entry p k (entries db !! k) = entries db !! k \/
  exists y, patch_entry p k (entries db !! k) = Some y /\
            (LockEntries (e_transaction_id y) ∈ locks \/ entries db !! k = None).
Proof.
  intros [_ Hp]. destruct p as [|id r|t' tr new u|t' st po [] u]; simpl in *; try (by left).
  - destruct (new !! k) as [e|] eqn:He; [|by left]. right. exists e. split; [done|].
    right. destruct Hp as (_ & Hn & _). by apply (Hn _ _ He).
  - destruct (entries db !! k) as [e|]; [|by left]. simpl. case_decide as Het; [|by left].
    right. eexists. split; [done|]. left. simpl. rewrite Het. by apply Hp.
Qed.

(** The patch keeps the transaction of an entry. *)
Lemma patch_entry_txn p k e y :
  patch_entry p k (Some e) = Some y ->
  (match p with PPost _ _ new _ => new !! k = None | _ => True end) ->
  e_transaction_id y = e_transaction_id e.
Proof.
  destruct p as [|id r|t' tr new u|t' st po [] u]; simpl; intros Hy Hn; simplify_eq; try done.
  - rewrite Hn in Hy. by simplify_eq.
  - by case_decide.
Qed.

(** *** Stability *)

Definition held_account (locks : list row_lock) (a : Z) (_ : accounts_row) : Prop :=
  LockAccount a ∈ locks.
Definition held_txn (locks : list row_lock) (t : Z) (_ : transactions_row) : Prop :=
  LockTransaction t ∈ locks.
Definition held_entry (locks : list row_lock) (_ : Z) (e : entries_row) : Prop :=
  LockEntries (e_transaction_id e) ∈ locks.
#[local] Instance held_account_dec locks a r : Decision (held_account locks a r).
Proof. unfold held_account. apply _. Defined.
#[local] Instance held_txn_dec locks a r : Decision (held_txn locks a r).
Proof. unfold held_txn. apply _. Defined.
#[local] Instance held_entry_dec locks a r : Decision (held_entry locks a r).
Proof. unfold held_entry. apply _. Defined.

Lemma own_rows_kept locks db v :
  own_rows locks db v = mk_database _
    (kept (held_account locks) (accounts db) (accounts v))
    (kept (held_txn locks) (transactions db) (transactions v))
    (kept (held_entry locks) (entries db) (entries v)).
Proof. done. Qed.

Lemma locks_in_rely locks p o db s db' s' :
  locks_in locks db -> rely o (Some (tx_of locks p db)) db s db' s' -> locks_in locks db'.
Proof.
  intros (Ha & Ht & He) Hr. split_and!.
  - intros a Hl. destruct (Ha a Hl) as [r Hr0].
    destruct (rl_acc _ _ _ _ _ _ Hr _ _ Hr0) as (r' & ? & _). eauto.
  - intros t Hl. by apply Hr, Ht.
  - intros t Hl. by apply Hr, He.
Qed.

Lemma patch_held_rely locks p o db s db' s' :
  patch_held locks p db s -> rely o (Some (tx_of locks p db)) db s db' s' ->
  patch_held locks p db' s'.
Proof.
  intros [Hu Hp] Hr. split; [done|]. destruct (rl_seqs _ _ _ _ _ _ Hr) as (Hsa & Hst & Hse).
  destruct p as [|id r|t tr new u|t st po ents u]; [done| | |done].
  - destruct Hp as [Hn Hs]. split; [|lia]. eapply Hr; [|done]. simpl.
    exists r. apply map_lookup_filter_Some. simpl. rewrite lookup_insert_eq. auto.
  - destruct Hp as ((Hn & Hs) & Hne & Htx & Hlk & Hk).
    split_and!; [|lia|lia| |done|done|by apply Hr].
    + eapply Hr; [|done]. exists tr. apply map_lookup_filter_Some. simpl.
      rewrite lookup_insert_eq. auto.
    + intros k e He. destruct (Hne k e He) as [Hnk Hsk]. split; [|lia].
      eapply Hr; [|done]. exists e. apply map_lookup_filter_Some. simpl.
      rewrite lookup_union, He, Hnk. auto.
Qed.

Lemma accounts_stable locks p o db s db' s' :
  locks_in locks db -> patch_held locks p db s ->
  rely o (Some (tx_of locks p db)) db s db' s' ->
  let held := held_account locks in
  kept held (accounts db) (accounts (apply_patch p db)) ∪ accounts db' =
    accounts (apply_patch p db') /\
  kept held (accounts db') (accounts (apply_patch p db')) =
    kept held (accounts db) (accounts (apply_patch p db)).
Proof.
  intros Hl Hp Hr held.
  pose proof (locks_in_rely _ _ _ _ _ _ _ Hl Hr) as Hl'.
  pose proof (patch_held_rely _ _ _ _ _ _ _ Hp Hr) as Hp'.
  assert (forall a r, accounts db !! a = Some r -> LockAccount a ∈ locks ->
    accounts db' !! a = accounts db !! a) as Hsame.
  { intros a r Hr0 Hla. rewrite Hr0. by eapply Hr. }
  assert (forall k y, patch_account p k (accounts db !! k) = Some y -> accounts db !! k = None ->
    accounts db' !! k = None) as Hfresh.
  { intros k y Hy Hn. eapply Hr; [|done]. exists y. apply map_lookup_filter_Some.
    rewrite patch_account_lookup. auto. }
  assert (forall k, is_Some (accounts db !! k) -> is_Some (accounts db' !! k)) as Hstay.
  { intros k [r Hr0]. destruct (rl_acc _ _ _ _ _ _ Hr _ _ Hr0) as (r' & ? & _). eauto. }
  pose proof (fun a => account_touched locks p db s a Hl Hp) as Ht.
  pose proof (fun a => account_touched locks p db' s' a Hl' Hp') as Ht'.
  assert (forall k (y : accounts_row), patch_account p k (accounts db !! k) = Some y ->
    held k y -> is_Some (accounts db !! k) -> accounts db' !! k = accounts db !! k) as Hh.
  { intros k y _ Hk [r Hr0]. by eapply Hsame. }
  assert (forall k (y : accounts_row), patch_account p k (accounts db' !! k) = Some y ->
    held k y -> is_Some (accounts db' !! k) -> accounts db' !! k = accounts db !! k) as Hh'.
  { intros k y _ Hk _. destruct (proj1 Hl k Hk) as [r Hr0]. by eapply Hsame. }
  split.
  - by apply (kept_union held (patch_account p) (accounts db) (accounts db')
      _ _ (patch_account_lookup p db) (patch_account_lookup p db')).
  - by apply (kept_same held (patch_account p) (accounts db) (accounts db')
      _ _ (patch_account_lookup p db) (patch_account_lookup p db')).
Qed.

Lemma txns_stable locks p o db s db' s' :
  locks_in locks db -> patch_held locks p db s ->
  rely o (Some (tx_of locks p db)) db s db' s' ->
  let held := held_txn locks in
  kept held (transactions db) (transactions (apply_patch p db)) ∪ transactions db' =
    transactions (apply_patch p db') /\
  kept held (transactions db') (transactions (apply_patch p db')) =
    kept held (transactions db) (transactions (apply_patch p db)).
Proof.
  intros Hl Hp Hr held.
  pose proof (locks_in_rely _ _ _ _ _ _ _ Hl Hr) as Hl'.
  pose proof (patch_held_rely _ _ _ _ _ _ _ Hp Hr) as Hp'.
  assert (forall t r, transactions db !! t = Some r -> LockTransaction t ∈ locks ->
    transactions db' !! t = transactions db !! t) as Hsame.
  { intros t r Hr0 Hlt. rewrite Hr0. eapply Hr; [by left|done]. }
  assert (forall k y, patch_txn p k (transactions db !! k) = Some y ->
    transactions db !! k = None -> transactions db' !! k = None) as Hfresh.
  { intros k y Hy Hn. eapply Hr; [|done]. exists y. apply map_lookup_filter_Some.
    rewrite patch_txn_lookup. auto. }
  pose proof (rl_txn _ _ _ _ _ _ Hr) as Hstay.
  pose proof (fun a => txn_touched locks p db s a Hl Hp) as Ht.
  pose proof (fun a => txn_touched locks p db' s' a Hl' Hp') as Ht'.
  assert (forall k (y : transactions_row), patch_txn p k (transactions db !! k) = Some y ->
    held k y -> is_Some (transactions db !! k) -> transactions db' !! k = transactions db !! k)
    as Hh.
  { intros k y _ Hk [r Hr0]. by eapply Hsame. }
  assert (forall k (y : transactions_row), patch_txn p k (transactions db' !! k) = Some y ->
    held k y -> is_Some (transactions db' !! k) -> transactions db' !! k = transactions db !! k)
    as Hh'.
  { intros k y _ Hk _. destruct (proj1 (proj2 Hl) k Hk) as [r Hr0]. by eapply Hsame. }
  split.
  - by apply (kept_union held (patch_txn p) (transactions db) (transactions db')
      _ _ (patch_txn_lookup p db) (patch_txn_lookup p db')).
  - by apply (kept_same held (patch_txn p) (transactions db) (transactions db')
      _ _ (patch_txn_lookup p db) (patch_txn_lookup p db')).
Qed.

Lemma txn_entries_lookup t db k e :
  txn_entries t db !! k = Some e <-> entries db !! k = Some e /\ e_transaction_id e = t.
Proof. apply map_lookup_filter_Some. Qed.

(** The rows under an entries lock are the same before and after. *)
Lemma locked_entry o x db s db' s' k e :
  rely o x db s db' s' ->
  LockEntries (e_transaction_id e) ∈ locks_of x \/ o = Some (e_transaction_id e) ->
  is_Some (transactions db !! e_transaction_id e) ->
  entries db !! k = Some e <-> entries db' !! k = Some e.
Proof.
  intros Hr Hl Ht. pose proof (rl_entries_locked _ _ _ _ _ _ Hr _ Hl Ht) as Heq.
  pose proof (txn_entries_lookup (e_transaction_id e) db k e) as H1.
  pose proof (txn_entries_lookup (e_transaction_id e) db' k e) as H2. rewrite Heq in H2.
  tauto.
Qed.

Lemma patch_entry_fresh locks p db s k e :
  patch_held locks p db s -> entries db !! k = Some e ->
  match p with PPost _ _ new _ => new !! k = None | _ => True end.
Proof.
  intros [_ Hp] He. destruct p as [|id r|t tr new u|t st po ents u]; try done.
  destruct (new !! k) as [e'|] eqn:Hn; [|done]. destruct Hp as (_ & Hne & _).
  destruct (Hne _ _ Hn). congruence.
Qed.

Lemma entries_stable locks p o db s db' s' :
  core_ok db s -> locks_in locks db -> patch_held locks p db s ->
  rely o (Some (tx_of locks p db)) db s db' s' ->
  let held := held_entry locks in
  kept held (entries db) (entries (apply_patch p db)) ∪ entries db' =
    entries (apply_patch p db') /\
  kept held (entries db') (entries (apply_patch p db')) =
    kept held (entries db) (entries (apply_patch p db)).
Proof.
  intros Hok Hl Hp Hr held.
  pose proof (patch_held_rely _ _ _ _ _ _ _ Hp Hr) as Hp'.
  assert (forall k y, patch_entry p k (entries db !! k) = Some y ->
    entries db !! k = None -> entries db' !! k = None) as Hfresh.
  { intros k y Hy Hn. eapply Hr; [|done]. exists y. apply map_lookup_filter_Some.
    rewrite patch_entry_lookup. auto. }
  pose proof (rl_rows _ _ _ _ _ _ Hr) as Hstay.
  pose proof (fun k => entry_touched locks p db s k Hp) as Ht.
  pose proof (fun k => entry_touched locks p db' s' k Hp') as Ht'.
  assert (forall k y, patch_entry p k (entries db !! k) = Some y ->
    held k y -> is_Some (entries db !! k) -> entries db' !! k = entries db !! k) as Hh.
  { intros k y Hy Hk [e He]. rewrite He in Hy. unfold held, held_entry in Hk.
    rewrite (patch_entry_txn _ _ _ _ Hy (patch_entry_fresh _ _ _ _ _ _ Hp He)) in Hk.
    rewrite He. apply (proj1 (locked_entry _ _ _ _ _ _ k e Hr (or_introl Hk) (proj2 (proj2 Hl) _ Hk))).
    done. }
  assert (forall k y, patch_entry p k (entries db' !! k) = Some y ->
    held k y -> is_Some (entries db' !! k) -> entries db' !! k = entries db !! k) as Hh'.
  { intros k y Hy Hk [e He]. rewrite He in Hy. unfold held, held_entry in Hk.
    rewrite (patch_entry_txn _ _ _ _ Hy (patch_entry_fresh _ _ _ _ _ _ Hp' He)) in Hk.
    rewrite He. symmetry.
    apply (proj2 (locked_entry _ _ _ _ _ _ k e Hr (or_introl Hk) (proj2 (proj2 Hl) _ Hk))).
    done. }
  split.
  - by apply (kept_union held (patch_entry p) (entries db) (entries db')
      _ _ (patch_entry_lookup p db) (patch_entry_lookup p db')).
  - by apply (kept_same held (patch_entry p) (entries db) (entries db')
      _ _ (patch_entry_lookup p db) (patch_entry_lookup p db')).
Qed.

(** The transaction stays what it was, and sees its patch on the tables as they
    are now. *)
Lemma in_tx_rely locks p o x db s db' s' :
  core_ok db s -> in_tx locks p x db s -> rely o x db s db' s' ->
  in_tx locks p x db' s' /\ view (tx_of locks p db) db' = apply_patch p db' /\
  tx_of locks p db' = tx_of locks p db.
Proof.
  intros Hok (-> & Hl & Hp) Hr.
  destruct (accounts_stable _ _ _ _ _ _ _ Hl Hp Hr) as [Ha1 Ha2].
  destruct (txns_stable _ _ _ _ _ _ _ Hl Hp Hr) as [Ht1 Ht2].
  destruct (entries_stable _ _ _ _ _ _ _ Hok Hl Hp Hr) as [He1 He2].
  assert (tx_of locks p db' = tx_of locks p db) as Heq.
  { unfold tx_of. rewrite !own_rows_kept. simpl in *. by rewrite Ha2, Ht2, He2. }
  split; [split; [|split]|split; [|done]].
  - by rewrite Heq.
  - by eapply locks_in_rely.
  - by eapply patch_held_rely.
  - unfold view, overlay, tx_of. cbn [x_own]. rewrite own_rows_kept. simpl in *.
    rewrite Ha1, Ht1, He1. by destruct (apply_patch p db').
Qed.
End isolation.
