(* ===== verification/Interference.v ===== *)
(** * Interference: a logic for programs that run next to others

    [csafe] is a weakest precondition for a request whose steps interleave with
    commits of other requests: before each of its effects the tables may have changed
    as [rely] allows, and each of its effects must keep the invariant [J] and leave
    every compatible transaction what that one relies on ([guarantee]).  The rules
    follow the program; [cs_commit] is where a request changes the tables. *)

From S2P Require Import Prelude.
From S2P Require Import Money Accounts Transactions Entries Validation.
From S2P Require Import StorageErrors Schema Cache Effects Triples Postgres.
From S2P Require Import ServiceErrors Ledger Invariant Updates PostgresSpecs LedgerSpecs.
From S2P Require Import Preserve Handlers HandlerSpecs AuthorizeSpec SettleSpec System.
From S2P Require Import Commits Concurrent Isolation.
Local Open Scope Z_scope.

Section interference.
Context `{JsonLib, PgLib} (J : database -> sequences -> Prop) (exclusive : bool).
Context {HJ : LedgerInvariant J exclusive}.
Implicit Types (db : database) (s : sequences) (x : option txn) (o : option Z).

(** ** Compatible transactions *)

Record compat o x o2 x2 db : Prop := {
  cp_locks l : l ∈ locks_of x -> l ∉ locks_of x2;
  cp_owner t : o = Some t -> o2 <> Some t;
  cp_mode : is_Some o2 -> exclusive = true;
  cp_accounts a : accounts db !! a = None -> is_Some (accounts (own_of x) !! a) ->
    accounts (own_of x2) !! a = None;
  cp_txns t : transactions db !! t = None -> is_Some (transactions (own_of x) !! t) ->
    transactions (own_of x2) !! t = None;
  cp_entries k : entries db !! k = None -> is_Some (entries (own_of x) !! k) ->
    entries (own_of x2) !! k = None
}.

Definition guarantee o x db s db' s' : Prop :=
  forall o2 x2, compat o x o2 x2 db -> rely o2 x2 db s db' s'.

(** A settlement may be committed once it is complete, by the request it is
    reserved to. *)
Definition patch_complete o (p : patch) : Prop :=
  match p with
  | PSettle t st _ ents _ => (st <> 1 /\ ents = true) /\ (exclusive = true -> o = Some t)
  | _ => True
  end.

Lemma own_account locks p db a :
  accounts db !! a = None -> is_Some (accounts (apply_patch p db) !! a) ->
  is_Some (accounts (own_of (Some (tx_of locks p db))) !! a).
Proof. intros Hn [r Hr]. exists r. apply map_lookup_filter_Some. auto. Qed.
Lemma own_txn locks p db t :
  transactions db !! t = None -> is_Some (transactions (apply_patch p db) !! t) ->
  is_Some (transactions (own_of (Some (tx_of locks p db))) !! t).
Proof. intros Hn [r Hr]. exists r. apply map_lookup_filter_Some. auto. Qed.
Lemma own_entry locks p db k :
  entries db !! k = None -> is_Some (entries (apply_patch p db) !! k) ->
  is_Some (entries (own_of (Some (tx_of locks p db))) !! k).
Proof. intros Hn [r Hr]. exists r. apply map_lookup_filter_Some. auto. Qed.

Lemma bumps_type u a r : a_account_type (bumps u a r) = a_account_type r.
Proof.
  revert r. induction u as [|[[b p] q] u IH]; intros r; simpl; [done|].
  rewrite IH. by case_decide.
Qed.

(** Other transactions lose nothing by the commit of [p]: the accounts. *)
Lemma patch_accounts_rely locks p o db s o2 x2 :
  locks_in locks db -> patch_held locks p db s ->
  compat o (Some (tx_of locks p db)) o2 x2 db ->
  (forall a r, accounts db !! a = Some r -> exists r', accounts (apply_patch p db) !! a = Some r' /\
     a_account_type r' = a_account_type r) /\
  (forall a r, LockAccount a ∈ locks_of x2 -> accounts db !! a = Some r ->
     accounts (apply_patch p db) !! a = Some r) /\
  (forall a, is_Some (accounts (own_of x2) !! a) -> accounts db !! a = None ->
     accounts (apply_patch p db) !! a = None).
Proof.
  intros Hl Hp Hc. split_and!.
  - intros a r Hr. rewrite patch_account_lookup, Hr.
    destruct p as [|id r'|t tr new u|t st po ents u]; simpl; eauto using bumps_type.
    case_decide; subst; eauto. destruct Hp as [_ [Hn _]]. congruence.
  - intros a r Hla Hr. rewrite patch_account_lookup.
    destruct (account_touched locks p db s a Hl Hp) as [->|(y & Hy & [Hlk|Hn])]; [done| |congruence].
    exfalso. by apply (cp_locks _ _ _ _ _ Hc (LockAccount a)).
  - intros a Ho Hn. destruct (accounts (apply_patch p db) !! a) as [r|] eqn:Hr; [|done].
    exfalso. apply (cp_accounts _ _ _ _ _ Hc) in Hn as Hn2.
    + rewrite Hn2 in Ho. by destruct Ho.
    + apply own_account; [done|]. rewrite Hr. eauto.
Qed.

(** The transactions. *)
Lemma patch_txns_rely locks p o db s o2 x2 :
  locks_in locks db -> patch_held locks p db s -> patch_complete o p ->
  compat o (Some (tx_of locks p db)) o2 x2 db ->
  (forall t, is_Some (transactions db !! t) -> is_Some (transactions (apply_patch p db) !! t)) /\
  (forall t r, transactions db !! t = Some r -> exists r',
     transactions (apply_patch p db) !! t = Some r' /\
     t_idempotency_key r' = t_idempotency_key r /\ (t_status r <> 1 -> t_status r' <> 1)) /\
  (forall t r, LockTransaction t ∈ locks_of x2 \/ o2 = Some t -> transactions db !! t = Some r ->
     transactions (apply_patch p db) !! t = Some r) /\
  (forall t, is_Some (transactions (own_of x2) !! t) -> transactions db !! t = None ->
     transactions (apply_patch p db) !! t = None) /\
  (forall key, LockKey key ∈ locks_of x2 -> find_key key db = None ->
     find_key key (apply_patch p db) = None).
Proof.
  intros Hl Hp Hcom Hc. split_and!.
  - intros t [r Hr]. rewrite patch_txn_lookup, Hr.
    destruct p as [|id r'|t' tr new u|t' st po ents u]; simpl; eauto; case_decide; simpl; eauto.
  - intros t r Hr. rewrite patch_txn_lookup, Hr.
    destruct p as [|id r'|t' tr new u|t' st po ents u]; simpl; eauto; case_decide; subst; simpl; eauto.
    + destruct Hp as [_ [[Hn _] _]]. congruence.
    + destruct Hcom as [[Hst _] _]. eauto.
  - intros t r Hlt Hr. rewrite patch_txn_lookup.
    destruct (txn_touched locks p db s t Hl Hp) as [->|(y & Hy & [Hlk|Hn])]; [done| |congruence].
    destruct Hlt as [Hlt|Ho]; [exfalso; by apply (cp_locks _ _ _ _ _ Hc (LockTransaction t))|].
    destruct p as [|id r'|t' tr new u|t' st po ents u]; simpl; try done.
    + case_decide; subst; [|done]. destruct Hp as [_ [[Hn _] _]]. congruence.
    + case_decide; subst; [|done]. destruct Hcom as [_ Hown].
      exfalso. eapply (cp_owner _ _ _ _ _ Hc t); [|done]. apply Hown, (cp_mode _ _ _ _ _ Hc). eauto.
  - intros t Ho Hn. destruct (transactions (apply_patch p db) !! t) as [r|] eqn:Hr; [|done].
    exfalso. apply (cp_txns _ _ _ _ _ Hc) in Hn as Hn2.
    + rewrite Hn2 in Ho. by destruct Ho.
    + apply own_txn; [done|]. rewrite Hr. eauto.
  - intros key Hlk Hk. apply find_key_None. rewrite find_key_None in Hk. intros t r.
    rewrite patch_txn_lookup. destruct p as [|id r'|t' tr new u|t' st po ents u]; simpl;
      try apply Hk; case_decide; subst; try apply Hk.
    + intros [= <-] Heq. destruct Hp as [_ (_ & _ & _ & Hlk' & _)].
      apply (cp_locks _ _ _ _ _ Hc _ Hlk'). by rewrite Heq.
    + destruct (transactions db !! t) as [r0|] eqn:Hr0; [|done]. simpl.
      intros [= <-]. by apply Hk in Hr0.
Qed.

(** The entries. *)
Lemma patch_txn_entries p db t :
  match p with
  | PPost t' _ new _ => t <> t' /\ (forall k e, new !! k = Some e ->
      entries db !! k = None /\ e_transaction_id e = t')
  | PSettle t' _ _ _ _ => t <> t'
  | _ => True
  end -> txn_entries t (apply_patch p db) = txn_entries t db.
Proof.
  intros Hp. apply map_eq. intros k. apply option_eq. intros e.
  rewrite !txn_entries_lookup, patch_entry_lookup.
  destruct p as [|id r'|t' tr new u|t' st po [] u]; simpl; try done.
  - destruct Hp as [Hne Hnew]. destruct (new !! k) as [e'|] eqn:Hn; [|done].
    destruct (Hnew _ _ Hn) as [Hk Ht']. rewrite Hk. naive_solver.
  - destruct (entries db !! k) as [e'|]; simpl; [|done]. case_decide as Hd; [|done].
    split; intros [Heq Ht]; simplify_eq; done.
Qed.

Lemma strip_settle t t' st po u db :
  strip <$> txn_entries t (apply_patch (PSettle t' st po true u) db) = strip <$> txn_entries t db.
Proof.
  apply map_eq. intros k. apply option_eq. intros y. rewrite !lookup_fmap_Some.
  split; intros (e & <- & He); apply txn_entries_lookup in He as [He Ht].
  - rewrite patch_entry_lookup in He. simpl in He.
    destruct (entries db !! k) as [e0|] eqn:He0; [|done]. simplify_eq/=.
    exists e0. split; [by case_decide|]. apply txn_entries_lookup. split; [done|]. by case_decide.
  - exists (if decide (e_transaction_id e = t') then set_entry_status e st else e).
    split; [by case_decide|]. apply txn_entries_lookup. rewrite patch_entry_lookup, He. simpl.
    split; [done|]. by case_decide.
Qed.

Lemma patch_entries_rely locks p o db s o2 x2 :
  core_ok db s -> patch_held locks p db s -> patch_complete o p ->
  compat o (Some (tx_of locks p db)) o2 x2 db ->
  (forall k, is_Some (entries db !! k) -> is_Some (entries (apply_patch p db) !! k)) /\
  (forall t, is_Some (transactions db !! t) ->
     strip <$> txn_entries t (apply_patch p db) = strip <$> txn_entries t db) /\
  (forall t, LockEntries t ∈ locks_of x2 \/ o2 = Some t -> is_Some (transactions db !! t) ->
     txn_entries t (apply_patch p db) = txn_entries t db) /\
  (forall k, is_Some (entries (own_of x2) !! k) -> entries db !! k = None ->
     entries (apply_patch p db) !! k = None).
Proof.
  intros Hok Hp Hcom Hc.
  assert (forall t tr new u, p = PPost t tr new u -> forall t', is_Some (transactions db !! t') ->
    txn_entries t' (apply_patch p db) = txn_entries t' db) as Hpost.
  { intros t tr new u -> t' Ht'. apply patch_txn_entries.
    destruct Hp as [_ ((Hn & _) & Hne & Htx & _)]. split.
    - intros ->. rewrite Hn in Ht'. by destruct Ht'.
    - intros k e He. split; [by apply (Hne _ _ He)|by eapply Htx]. }
  split_and!.
  - intros k [e He]. rewrite patch_entry_lookup, He.
    destruct p as [|id r'|t' tr new u|t' st po [] u]; simpl; eauto.
    destruct (new !! k); eauto.
  - intros t Ht. destruct p as [|id r'|t' tr new u|t' st po ents u]; try done.
    + by erewrite Hpost.
    + destruct Hcom as [[_ ->] _]. apply strip_settle.
  - intros t Hlt Ht. destruct p as [|id r'|t' tr new u|t' st po ents u]; try done.
    + by eapply Hpost.
    + apply patch_txn_entries. intros ->. destruct Hcom as [[_ ->] Hown].
      destruct Hp as [_ [_ Hle]]. destruct Hlt as [Hlt|Ho].
      * by apply (cp_locks _ _ _ _ _ Hc (LockEntries t')); [apply Hle|].
      * eapply (cp_owner _ _ _ _ _ Hc t'); [|done]. apply Hown, (cp_mode _ _ _ _ _ Hc). eauto.
  - intros k Ho Hn. destruct (entries (apply_patch p db) !! k) as [r|] eqn:Hr; [|done].
    exfalso. apply (cp_entries _ _ _ _ _ Hc) in Hn as Hn2.
    + rewrite Hn2 in Ho. by destruct Ho.
    + apply own_entry; [done|]. rewrite Hr. eauto.
Qed.

Lemma patch_guarantee locks p o x db s :
  core_ok db s -> in_tx locks p x db s -> patch_complete o p ->
  guarantee o x db s (apply_patch p db) s.
Proof.
  intros Hok (-> & Hl & Hp) Hcom o2 x2 Hc.
  destruct (patch_accounts_rely _ _ _ _ _ _ _ Hl Hp Hc) as (A1 & A2 & A3).
  destruct (patch_txns_rely _ _ _ _ _ _ _ Hl Hp Hcom Hc) as (T1 & T2 & T3 & T4 & T5).
  destruct (patch_entries_rely _ _ _ _ _ _ _ Hok Hp Hcom Hc) as (E1 & E2 & E3 & E4).
  by split.
Qed.

(** ** Safe programs *)

(** Rows that are new to a transaction have ids taken in between. *)
Definition own_grows x db s x' s' : Prop :=
  (forall a, accounts db !! a = None -> is_Some (accounts (own_of x') !! a) ->
     is_Some (accounts (own_of x) !! a) \/ accounts_id_seq s <= a < accounts_id_seq s') /\
  (forall t, transactions db !! t = None -> is_Some (transactions (own_of x') !! t) ->
     is_Some (transactions (own_of x) !! t) \/ transactions_id_seq s <= t < transactions_id_seq s') /\
  (forall k, entries db !! k = None -> is_Some (entries (own_of x') !! k) ->
     is_Some (entries (own_of x) !! k) \/ entries_id_seq s <= k < entries_id_seq s').

Definition safe_effect {X} o x db s (e : eff X)
    (K : X -> option txn -> database -> sequences -> Prop) : Prop :=
  forall db1 s1, rely o x db s db1 s1 -> J db1 s1 ->
  forall σ now f, st_db σ = db1 -> st_seqs σ = s1 ->
  let '(r, w) := step e (to_world σ x now f) in
  J (w_db w) (w_seqs w) /\ guarantee o x db1 s1 (w_db w) (w_seqs w) /\
  own_grows x db1 s1 (txn_of w) (w_seqs w) /\ K r (txn_of w) (w_db w) (w_seqs w).

Fixpoint csafe {A} o (p : prog A) x db s (Q : A -> option txn -> database -> sequences -> Prop)
  : Prop :=
  match p with
  | Ret a => Q a x db s
  | Panic => False
  | Vis e k => safe_effect o x db s e (fun r x' db' s' => csafe o (k r) x' db' s' Q)
  end.

Lemma safe_effect_mono {X} o x db s (e : eff X)
    (K K' : X -> option txn -> database -> sequences -> Prop) :
  safe_effect o x db s e K ->
  (forall r x' db' s', J db' s' -> K r x' db' s' -> K' r x' db' s') ->
  safe_effect o x db s e K'.
Proof.
  intros He HK db1 s1 Hr HJ1 σ now f Hdb Hs.
  specialize (He db1 s1 Hr HJ1 σ now f Hdb Hs).
  destruct (step e (to_world σ x now f)) as [r w].
  destruct He as (? & ? & ? & ?). split_and!; auto.
Qed.

Lemma csafe_mono {A} o (p : prog A) x db s (Q Q' : A -> option txn -> database -> sequences -> Prop) :
  J db s -> csafe o p x db s Q ->
  (forall a x' db' s', J db' s' -> Q a x' db' s' -> Q' a x' db' s') -> csafe o p x db s Q'.
Proof.
  intros HJ0 Hp HQ. revert x db s HJ0 Hp. induction p as [a|X e k IH|]; intros x db s HJ0 Hp;
    simpl in *; [by apply HQ| |done].
  eapply safe_effect_mono; [exact Hp|]. simpl. intros r x' db' s' HJ' Hk. by apply IH.
Qed.

Lemma csafe_bind {A B} o (p : prog A) (k : A -> prog B) x db s Q :
  J db s -> csafe o p x db s (fun a x' db' s' => csafe o (k a) x' db' s' Q) ->
  csafe o (prog_bind k p) x db s Q.
Proof.
  intros HJ0 Hp. revert x db s HJ0 Hp. induction p as [a|X e k' IH|]; intros x db s HJ0 Hp;
    simpl in *; [done| |done].
  eapply safe_effect_mono; [exact Hp|]. simpl. intros r x' db' s' HJ' Hk. by apply IH.
Qed.

(** What others do before the next step does not matter. *)
Lemma csafe_rely {A} o (p : prog A) x db s db' s' Q :
  (forall a, Q a x db s -> Q a x db' s') -> rely o x db s db' s' ->
  csafe o p x db s Q -> csafe o p x db' s' Q.
Proof.
  intros HQ Hr. destruct p as [a|X e k|]; simpl; [apply HQ| |done].
  intros Hp db1 s1 Hr1. by eapply Hp, rely_trans.
Qed.

(** ** Rules *)

(** Programs that return early on an error. *)
Definition cs {E A} o (p : io E A) x db s (R : A -> option txn -> database -> sequences -> Prop)
  : Prop :=
  csafe o p x db s (fun r x' db' s' => match r with Ok a => R a x' db' s' | Err _ => True end).

Lemma cs_bind {E A B} o (p : io E A) (k : A -> io E B) x db s R :
  J db s -> cs o p x db s (fun a x' db' s' => J db' s' -> cs o (k a) x' db' s' R) ->
  cs o (y ← p; k y) x db s R.
Proof.
  intros HJ0 Hp. apply csafe_bind; [done|]. eapply csafe_mono; [done|exact Hp|].
  intros [a|e] x' db' s' HJ' Hk; [by apply Hk|done].
Qed.

Lemma cs_mono {E A} o (p : io E A) x db s (R R' : A -> option txn -> database -> sequences -> Prop) :
  J db s -> cs o p x db s R ->
  (forall a x' db' s', J db' s' -> R a x' db' s' -> R' a x' db' s') -> cs o p x db s R'.
Proof.
  intros HJ0 Hp HR. eapply csafe_mono; [done|exact Hp|]. intros [a|e] x' db' s' HJ'; simpl; auto.
Qed.

Lemma cs_map_err {E F A} (g : E -> F) o (p : io E A) x db s R :
  J db s -> cs o p x db s R -> cs o (io_map_err g p) x db s R.
Proof.
  intros HJ0 Hp. apply csafe_bind; [done|]. eapply csafe_mono; [done|exact Hp|].
  by intros [a|e] x' db' s' HJ'.
Qed.

Lemma cs_ret {E A} o (a : A) x db s (R : A -> option txn -> database -> sequences -> Prop) :
  R a x db s -> cs (E := E) o (mret a) x db s R.
Proof. done. Qed.
Lemma cs_throw {E A} o (e : E) x db s (R : A -> option txn -> database -> sequences -> Prop) :
  cs o (throw e) x db s R.
Proof. done. Qed.
Lemma cs_lift {E A} o (r : result E A) x db s (R : A -> option txn -> database -> sequences -> Prop) :
  (forall a, r = Ok a -> R a x db s) -> cs o (lift r) x db s R.
Proof. intros HR. destruct r; simpl; [by apply HR|done]. Qed.
(** [unwrap] is where a request could panic. *)
Lemma cs_unwrap {E A} o (v : option A) a x db s
    (R : A -> option txn -> database -> sequences -> Prop) :
  v = Some a -> R a x db s -> cs (E := E) o (unwrap v) x db s R.
Proof. by intros ->. Qed.

(** Where a request is: outside a transaction, or inside. *)
Definition at_phase (ph : option (list row_lock * patch)) x db s : Prop :=
  match ph with None => x = None | Some (locks, p) => in_tx locks p x db s end.

Lemma at_phase_rely ph o x db s db' s' :
  core_ok db s -> at_phase ph x db s -> rely o x db s db' s' -> at_phase ph x db' s'.
Proof. destruct ph as [[locks p]|]; [|done]. intros Hok Hx Hr. by eapply in_tx_rely. Qed.

Lemma rely_refl o x db s : rely o x db s db s.
Proof. by apply rely_seqs. Qed.

Lemma in_tx_view locks p x db s :
  core_ok db s -> in_tx locks p x db s -> view (tx_of locks p db) db = apply_patch p db.
Proof. intros Hok Hx. eapply (in_tx_rely _ _ None) in Hx as (_ & ? & _); eauto using rely_refl. Qed.

Lemma txn_of_phase ph x db s σ now f :
  core_ok db s -> at_phase ph x db s -> st_db σ = db -> txn_of (to_world σ x now f) = x.
Proof.
  intros Hok Hx Hdb. destruct ph as [[locks p]|]; simpl in Hx; [|by subst].
  pose proof (in_tx_view _ _ _ _ _ Hok Hx) as Hv. destruct Hx as (-> & _).
  unfold txn_of. simpl. by rewrite Hdb, Hv.
Qed.

Lemma own_grows_refl x db s s' : own_grows x db s x s'.
Proof. split_and!; auto. Qed.
Lemma own_grows_none x db s s' : own_grows x db s None s'.
Proof. split_and!; intros k _ [r Hr]; simpl in Hr; by rewrite lookup_empty in Hr. Qed.
Lemma guarantee_seqs o x db s s' : seqs_le s s' -> guarantee o x db s db s'.
Proof. intros Hs o2 x2 _. by apply rely_seqs. Qed.

(** The clock, the cache and the counters. *)
Definition local_eff {X} (e : eff X) : Prop :=
  match e with Now | OnCache _ | Counter _ _ => True | _ => False end.

Lemma local_step {X} (e : eff X) w r w' :
  local_eff e -> step e w = (r, w') ->
  w_db w' = w_db w /\ w_seqs w' = w_seqs w /\ txn_of w' = txn_of w.
Proof.
  destruct e as [| | | | |A op|n ls]; simpl; try done; intros _ Hs; simplify_eq; try done.
  destruct (op (w_cache w)). by simplify_eq.
Qed.

Lemma cs_local {E} {A : Set} (e : eff A) ph o x db s
    (R : A -> option txn -> database -> sequences -> Prop) :
  J db s -> at_phase ph x db s -> local_eff e ->
  (forall a db' s', rely o x db s db' s' -> J db' s' -> at_phase ph x db' s' -> R a x db' s') ->
  cs (E := E) o (perform e) x db s R.
Proof.
  intros HJ0 Hx He HR db1 s1 Hr HJ1 σ now f Hdb Hs.
  pose proof (at_phase_rely _ _ _ _ _ _ _ (inv_core _ _ HJ0) Hx Hr) as Hx1.
  destruct (step e (to_world σ x now f)) as [r w] eqn:Hst.
  apply local_step in Hst as (Hd & Hsq & Htx); [|done]. simpl in Hd, Hsq.
  rewrite (txn_of_phase ph x db1 s1) in Htx by (done || by apply inv_core).
  rewrite Hd, Hsq, Htx, Hdb, Hs. split_and!; [done| |apply own_grows_refl|].
  - by apply guarantee_seqs.
  - by apply HR.
Qed.

(** [BEGIN] *)
Lemma cs_begin {A} (k : io ServiceError A) o db s R :
  J db s ->
  (forall x db' s', rely o None db s db' s' -> J db' s' -> in_tx [] PNone x db' s' ->
     cs o k x db' s' R) ->
  cs o (begin_tx;; k) None db s R.
Proof.
  intros HJ0 Hk. apply cs_bind; [done|]. apply cs_map_err; [done|].
  intros db1 s1 Hr HJ1 σ now f Hdb Hs. simpl. unfold step_begin, next_fault. simpl.
  destruct f as [f|]; simpl.
  - rewrite Hdb, Hs. split_and!; [done|by apply guarantee_seqs|apply own_grows_none|done].
  - rewrite Hdb, Hs. split_and!; [done|by apply guarantee_seqs| |].
    + split_and!; intros i Hn [r Hi]; apply map_lookup_filter_Some in Hi as [Hi _];
        simpl in Hi; congruence.
    + intros HJ2. apply Hk; [done|done|]. unfold txn_of. simpl.
      split; [done|]. split; [split_and!; set_solver|]. split; [set_solver|done].
Qed.

(** Statements take ids from the sequences and add rows under them only. *)
Definition ids_grow (v v' : database) s s' : Prop :=
  (forall a, is_Some (accounts v' !! a) ->
     is_Some (accounts v !! a) \/ accounts_id_seq s <= a < accounts_id_seq s') /\
  (forall t, is_Some (transactions v' !! t) ->
     is_Some (transactions v !! t) \/ transactions_id_seq s <= t < transactions_id_seq s') /\
  (forall k, is_Some (entries v' !! k) ->
     is_Some (entries v !! k) \/ entries_id_seq s <= k < entries_id_seq s').
Definition stmt_ids {A : Set} (q : stmt A) : Prop :=
  forall s v, seqs_le s (stmt_exec q s v).1 /\
    match (stmt_exec q s v).2 with
    | Ok (_, v') => ids_grow v v' s (stmt_exec q s v).1
    | Err _ => True
    end.

Lemma own_grows_ids locks p db s locks' v' s' :
  ids_grow (apply_patch p db) v' s s' ->
  own_grows (Some (tx_of locks p db)) db s (Some (mk_txn (own_rows locks' db v') locks')) s'.
Proof.
  intros (Ha & Ht & He). split_and!; intros i Hn [r Hi];
    apply map_lookup_filter_Some in Hi as [Hi _]; simpl in Hi.
  - destruct (Ha i) as [Hs|?]; [by rewrite Hi| |by right]. left. by apply own_account.
  - destruct (Ht i) as [Hs|?]; [by rewrite Hi| |by right]. left. by apply own_txn.
  - destruct (He i) as [Hs|?]; [by rewrite Hi| |by right]. left. by apply own_entry.
Qed.

(** A statement: it runs on the patched tables, and its effect is a patch again. *)
Lemma cs_query {A : Set} (q : stmt A) locks p o x db s
    (R : A -> option txn -> database -> sequences -> Prop) :
  J db s -> in_tx locks p x db s -> stmt_ids q ->
  (forall db1 s1 s2 a v', rely o x db s db1 s1 -> J db1 s1 -> in_tx locks p x db1 s1 ->
     stmt_exec q s1 (apply_patch p db1) = (s2, Ok (a, v')) ->
     exists p', v' = apply_patch p' db1 /\
       R a (Some (tx_of (locks ++ filter (lock_live v') (stmt_locks q)) p' db1)) db1 s2) ->
  cs o (query q) x db s R.
Proof.
  intros HJ0 Hx Hq HR db1 s1 Hr HJ1 σ now f Hdb Hs.
  pose proof (at_phase_rely (Some (locks, p)) _ _ _ _ _ _ (inv_core _ _ HJ0) Hx Hr) as Hx1.
  pose proof (txn_of_phase (Some (locks, p)) x db1 s1 σ now f (inv_core _ _ HJ1) Hx1 Hdb) as Htx.
  simpl in Hx1. simpl. unfold step_query, next_fault. simpl.
  assert (txn_of (mk_world _ (st_db σ) (st_seqs σ) ((fun y => view y (st_db σ)) <$> x)
    (from_option x_locks [] x) (st_cache σ) (st_counters σ) now []) = x) as Htx' by exact Htx.
  destruct f as [f|]; simpl.
  - rewrite Htx', Hdb, Hs. split_and!; [done|by apply guarantee_seqs|apply own_grows_refl|done].
  - pose proof (in_tx_view _ _ _ _ _ (inv_core _ _ HJ1) Hx1) as Hv.
    destruct Hx1 as (-> & Hl1 & Hp1). simpl. rewrite Hdb, Hs, Hv.
    destruct (Hq s1 (apply_patch p db1)) as [Hle Hids].
    destruct (stmt_exec q s1 (apply_patch p db1)) as [s2 [[a v']|e]] eqn:Hex; simpl in Hle, Hids.
    + destruct (HR db1 s1 s2 a v' Hr HJ1) as (p' & -> & HRa); [by split|done|].
      simpl. unfold txn_of. simpl. rewrite ?Hdb. split_and!.
      * by eapply inv_seqs.
      * by apply guarantee_seqs.
      * by apply own_grows_ids.
      * exact HRa.
    + simpl. rewrite Hdb in *. unfold txn_of in *. simpl in *. rewrite Hv in *.
      split_and!; [by eapply inv_seqs|by apply guarantee_seqs|apply own_grows_refl|done].
Qed.

(** Reading. *)
Lemma stmt_ids_read {A : Set} locks (f : database -> A) : stmt_ids (read_stmt locks f).
Proof. intros s v. simpl. split; [done|]. split_and!; auto. Qed.

Lemma cs_read {A : Set} (f : database -> A) locks p o x db s
    (R : A -> option txn -> database -> sequences -> Prop) :
  J db s -> in_tx locks p x db s ->
  (forall db1 s1, rely o x db s db1 s1 -> J db1 s1 -> in_tx locks p x db1 s1 ->
     R (f (apply_patch p db1)) x db1 s1) ->
  cs o (query (read_stmt [] f)) x db s R.
Proof.
  intros HJ0 Hx HR. eapply cs_query; [done|done|apply stmt_ids_read|].
  intros db1 s1 s2 a v' Hr HJ1 Hx1 Hex. simpl in Hex. simplify_eq.
  exists p. split; [done|]. simpl. rewrite app_nil_r.
  pose proof Hx1 as (<- & _). by apply HR.
Qed.

(** [COMMIT]: the patch becomes part of the tables.  A request that does not learn
    of it ends there. *)
Lemma cs_commit {A} (k : io ServiceError A) locks p o x db s R :
  J db s -> in_tx locks p x db s -> patch_complete o p ->
  (forall db1 s1, rely o x db s db1 s1 -> J db1 s1 -> in_tx locks p x db1 s1 ->
     J (apply_patch p db1) s1 /\
     (J (apply_patch p db1) s1 -> cs o k None (apply_patch p db1) s1 R)) ->
  cs o (commit_tx;; k) x db s R.
Proof.
  intros HJ0 Hx Hcom Hk. apply cs_bind; [done|].
  intros db1 s1 Hr HJ1 σ now f Hdb Hs.
  pose proof (at_phase_rely (Some (locks, p)) _ _ _ _ _ _ (inv_core _ _ HJ0) Hx Hr) as Hx1.
  simpl in Hx1. pose proof (in_tx_view _ _ _ _ _ (inv_core _ _ HJ1) Hx1) as Hv.
  pose proof (patch_guarantee _ _ _ _ _ _ (inv_core _ _ HJ1) Hx1 Hcom) as Hg.
  destruct (Hk db1 s1 Hr HJ1 Hx1) as [HJ2 Hk2].
  destruct Hx1 as (-> & _). simpl. unfold step_commit, next_fault. simpl.
  rewrite Hdb, Hv. destruct f as [[fe []]|]; simpl; rewrite ?Hdb, ?Hs.
  - split_and!; [done|done|apply own_grows_none|done].
  - split_and!; [done|by apply guarantee_seqs|apply own_grows_none|done].
  - split_and!; [done|done|apply own_grows_none|done].
Qed.
End interference.
