(* ===== verification/SafeStatements.v ===== *)
(** * SafeStatements: the statements of a handler in the logic of [Interference.v]

    What each statement of [Postgres.v] does to the patch of an open transaction,
    with the rows that its locks keep fixed, and the lemmas on rows this needs. *)

From S2P Require Import Prelude.
From S2P Require Import Money Accounts Transactions Entries Validation.
From S2P Require Import StorageErrors Schema Cache Effects Triples Postgres.
From S2P Require Import ServiceErrors Ledger Invariant Updates PostgresSpecs LedgerSpecs.
From S2P Require Import Preserve Handlers HandlerSpecs AuthorizeSpec SettleSpec System.
From S2P Require Import Locking Commits Concurrent Isolation Interference.
Local Open Scope Z_scope.

(** ** Lists and maps of rows *)

Lemma updates_of_perm cp cq items items' u :
  items ≡ₚ items' -> updates_of cp cq items u -> updates_of cp cq items' u.
Proof.
  intros Hp [Hnd Hv Hids].
  assert (forall a, delta_of items a = delta_of items' a) as Hd
    by (intros a; unfold delta_of; by rewrite Hp).
  split; [done| |].
  - intros a p q Hin. rewrite <- Hd. by apply Hv.
  - intros a. by rewrite <- Hp.
Qed.

Lemma new_rows_perm `{JsonLib} (db : database) t rows rows' :
  rows ≡ₚ rows' -> new_rows db t rows -> new_rows db t rows'.
Proof.
  intros Hp [H1 H2 H3 H4 H5 H6 H7]. unfold rows_total in *.
  split; unfold rows_total; rewrite <- ?Hp; try done; intros e He; rewrite <- Hp in He; auto.
Qed.

Lemma rows_of_insert k e (new : gmap Z entries_row) :
  new !! k = None -> rows_of (<[k := e]> new) ≡ₚ e :: rows_of new.
Proof. intros Hk. unfold rows_of. by rewrite map_to_list_insert. Qed.

Section rows.
Context `{JsonLib}.
Implicit Types (db : database) (s : sequences).

Lemma entries_of_rows t db : (snd <$> entries_of t db) ≡ₚ rows_of (txn_entries t db).
Proof.
  unfold rows_of. apply fmap_Permutation, NoDup_Permutation.
  - unfold entries_of, select_entries_of_transaction.
    rewrite (merge_sort_Permutation id_le). apply list.NoDup_filter, NoDup_map_to_list.
  - apply NoDup_map_to_list.
  - intros [k e]. by rewrite elem_of_entries_of, elem_of_map_to_list, txn_entries_lookup.
Qed.

Lemma rows_of_strip (m : gmap Z entries_row) : rows_of (strip <$> m) = strip <$> rows_of m.
Proof.
  unfold rows_of. rewrite map_to_list_fmap, <- !list_fmap_compose. done.
Qed.

Lemma item_of_strip (acs : gmap Z accounts_row) e : item_of acs (strip e) = item_of acs e.
Proof. done. Qed.

(** The items of a transaction do not depend on the status of its entries. *)
Lemma items_stripped (acs : gmap Z accounts_row) t db :
  (item_of acs <$> (snd <$> entries_of t db)) ≡ₚ
  (item_of acs <$> rows_of (strip <$> txn_entries t db)).
Proof.
  rewrite entries_of_rows, rows_of_strip, <- list_fmap_compose.
  apply reflexive_eq, list_fmap_ext. by intros i e _.
Qed.

Lemma core_entries_fit db s t r :
  core_ok db s -> transactions db !! t = Some r -> rows_fit (snd <$> entries_of t db).
Proof.
  intros Hok Hr. destruct (ck_transactions _ _ Hok _ _ Hr) as [_ _ Hbal Hfits _].
  split; [|rewrite !rows_total_entries_of; lia].
  intros e He. apply list_elem_of_fmap in He as [[k e'] [-> He]].
  apply elem_of_entries_of in He as [He _].
  destruct (ck_entries _ _ Hok _ _ He) as [[(_ & ? & _) ?] _ _ _]. simpl. lia.
Qed.
End rows.

(** ** Statements and their ids *)

Section ids.
Context `{JsonLib, PgLib}.

Lemma ids_grow_refl v s s' : ids_grow v v s s'.
Proof. split_and!; auto. Qed.

Ltac solve_ids := intros s v; simpl;
  split; [repeat split; simpl; lia|];
  match goal with |- match ?r with _ => _ end =>
    let Hq := fresh "Hq" in let k := fresh "k" in let Hk := fresh "Hk" in
    destruct r as [[? ?]|] eqn:Hq; [|done];
    repeat (split_match_in Hq; simplify_eq/=; try done);
    split_and!; simpl; intros k Hk; auto;
    apply lookup_insert_is_Some in Hk as [<-|[_ Hk]]; [right; lia|by left]
  end.

Lemma ids_create_account ty code sc cr :
  stmt_ids (mk_stmt [] (fun s db =>
    (mk_sequences (accounts_id_seq s + 1) (transactions_id_seq s) (entries_id_seq s),
     insert_account (accounts_id_seq s) ty code sc cr db))).
Proof. unfold insert_account, bigint, varchar, mbind, result_bind, map_err. solve_ids. Qed.
Lemma ids_create_transaction locks key st md cr po :
  stmt_ids (mk_stmt locks (fun s db =>
    (mk_sequences (accounts_id_seq s) (transactions_id_seq s + 1) (entries_id_seq s),
     insert_transaction (transactions_id_seq s) key st md cr po db))).
Proof.
  unfold insert_transaction, bigint, varchar, jsonb, mbind, result_bind, map_err. solve_ids.
Qed.
Lemma ids_create_entry t a ty am st cr :
  stmt_ids (mk_stmt [] (fun s db =>
    (mk_sequences (accounts_id_seq s) (transactions_id_seq s) (entries_id_seq s + 1),
     insert_entry (entries_id_seq s) t a ty am st cr db))).
Proof. unfold insert_entry, bigint, mbind, result_bind. solve_ids. Qed.

Lemma ids_write {A : Set} locks (f : database -> result SqlxError (A * database)) :
  (forall v a v', f v = Ok (a, v') ->
     (forall k, is_Some (accounts v' !! k) -> is_Some (accounts v !! k)) /\
     (forall k, is_Some (transactions v' !! k) -> is_Some (transactions v !! k)) /\
     (forall k, is_Some (entries v' !! k) -> is_Some (entries v !! k))) ->
  stmt_ids (write_stmt locks f).
Proof.
  intros Hf s v. simpl. split; [done|]. destruct (f v) as [[a v']|] eqn:Hv; [|done].
  destruct (Hf _ _ _ Hv) as (Ha & Ht & He). split_and!; auto.
Qed.
Lemma ids_update_balances locks a ver dp dq :
  stmt_ids (write_stmt locks (update_account_balances a ver dp dq)).
Proof.
  apply ids_write. unfold update_account_balances, bigint, integer, mbind, result_bind.
  intros v n v' Hv. repeat (split_match_in Hv; simplify_eq/=; try done).
  split_and!; try done. intros k. rewrite lookup_insert_is_Some. intros [<-|[_ ?]]; eauto.
Qed.
Lemma ids_update_transaction locks t st po :
  stmt_ids (write_stmt locks (update_transaction t st po)).
Proof.
  apply ids_write. unfold update_transaction.
  intros v n v' Hv. repeat (split_match_in Hv; simplify_eq/=; try done).
  split_and!; try done. intros k. rewrite lookup_insert_is_Some. intros [<-|[_ ?]]; eauto.
Qed.
Lemma ids_update_entries locks t st : stmt_ids (write_stmt locks (update_entries t st)).
Proof.
  apply ids_write. unfold update_entries. intros v n v' Hv.
  split_match_in Hv; simplify_eq/=. split_and!; try done.
  intros k. by rewrite lookup_fmap, fmap_is_Some.
Qed.
End ids.
#[export] Hint Resolve ids_create_account ids_create_transaction ids_create_entry
  ids_update_balances ids_update_transaction ids_update_entries stmt_ids_read : fides.

(** ** Facts that the others leave alone *)

Section safe.
Context `{JsonLib, PgLib} (J : database -> sequences -> Prop) (exclusive : bool).
Context {HJ : LedgerInvariant J exclusive}.
Implicit Types (db : database) (s : sequences) (x : option txn) (o : option Z).
Implicit Types (P : database -> Prop) (locks : list row_lock).
Local Abbreviation cs := (cs J exclusive).

(** Under these locks, the commits of other requests keep [P]. *)
Definition stable o locks P : Prop :=
  forall x db s db' s', (forall l, l ∈ locks -> l ∈ locks_of x) -> core_ok db s ->
    rely o x db s db' s' -> P db -> P db'.

Lemma stable_mono o locks locks' P :
  (forall l, l ∈ locks -> l ∈ locks') -> stable o locks P -> stable o locks' P.
Proof. intros Hl HP x db s db' s' Hx. apply HP. auto. Qed.
Lemma stable_and o locks P P' :
  stable o locks P -> stable o locks P' -> stable o locks (fun db => P db /\ P' db).
Proof.
  intros HP HP' x db s db' s' Hx Hok Hr [H1 H2].
  split; [by eapply HP|by eapply HP'].
Qed.

(** Rows of accounts, under the locks of these accounts. *)
Definition accounts_fixed (ids : list Z) (acs : gmap Z accounts_row) db : Prop :=
  forall a, a ∈ ids -> accounts db !! a = acs !! a.
Lemma stable_accounts o locks ids acs :
  (forall a, a ∈ ids -> LockAccount a ∈ locks /\ is_Some (acs !! a)) ->
  stable o locks (accounts_fixed ids acs).
Proof.
  intros Hids x db s db' s' Hx _ Hr HP a Ha. destruct (Hids a Ha) as [Hl [r Hr0]].
  rewrite Hr0. eapply Hr; [by apply Hx|]. rewrite <- Hr0. by apply HP.
Qed.

(** The entries of a transaction, up to their status. *)
Definition txn_fixed (t : Z) (es : gmap Z entries_row) db : Prop :=
  is_Some (transactions db !! t) /\ strip <$> txn_entries t db = es.
Lemma stable_txn o locks t es : stable o locks (txn_fixed t es).
Proof.
  intros x db s db' s' _ _ Hr [Ht He]. split; [by apply Hr|].
  rewrite <- He. by apply Hr.
Qed.

(** The status of the transaction a request has reserved. *)
Definition txn_pending (t : Z) db : Prop :=
  exclusive = true -> exists tr, transactions db !! t = Some tr /\ t_status tr = 1.
Lemma stable_pending o locks t :
  (exclusive = true -> o = Some t) -> stable o locks (txn_pending t).
Proof.
  intros Ho x db s db' s' _ _ Hr HP He. destruct (HP He) as (tr & Htr & Hst).
  exists tr. split; [|done]. eapply Hr; [|done]. right. by apply Ho.
Qed.

(** ** Inside a transaction *)

Definition held_at locks (p : patch) P x db s : Prop := in_tx locks p x db s /\ P db.

Lemma held_rely o locks p P x db s db' s' :
  core_ok db s -> stable o locks P -> held_at locks p P x db s -> rely o x db s db' s' ->
  held_at locks p P x db' s'.
Proof.
  intros Hok HP [Hx Hdb] Hr. split; [by eapply in_tx_rely|].
  eapply HP; [|done..]. by destruct Hx as (-> & _).
Qed.

Lemma cs_hread {A : Set} (f : database -> A) locks p P o x db s
    (R : A -> option txn -> database -> sequences -> Prop) :
  J db s -> stable o locks P -> held_at locks p P x db s ->
  (forall db1 s1, J db1 s1 -> held_at locks p P x db1 s1 -> R (f (apply_patch p db1)) x db1 s1) ->
  cs o (query (read_stmt [] f)) x db s R.
Proof.
  intros HJ0 HP Hx HR. eapply (cs_read J exclusive); [done|apply Hx|]. intros db1 s1 Hr HJ1 Hx1.
  apply HR; [done|]. eapply held_rely; [exact (inv_core _ _ HJ0)|done..].
Qed.

Lemma cs_hlocal {E} {A : Set} (e : eff A) locks p P o x db s
    (R : A -> option txn -> database -> sequences -> Prop) :
  J db s -> stable o locks P -> held_at locks p P x db s -> local_eff e ->
  (forall a db1 s1, J db1 s1 -> held_at locks p P x db1 s1 -> R a x db1 s1) ->
  cs o (perform e : io E A) x db s R.
Proof.
  intros HJ0 HP Hx He HR. eapply (cs_local J exclusive _ (Some (locks, p))); [done|apply Hx|done|].
  intros a db1 s1 Hr HJ1 Hx1. apply HR; [done|]. eapply held_rely; [exact (inv_core _ _ HJ0)|done..].
Qed.

Lemma cs_hquery {A : Set} (q : stmt A) locks p P o x db s
    (R : A -> option txn -> database -> sequences -> Prop) :
  J db s -> stable o locks P -> held_at locks p P x db s -> stmt_ids q ->
  (forall db1 s1 s2 a v', J db1 s1 -> held_at locks p P x db1 s1 ->
     stmt_exec q s1 (apply_patch p db1) = (s2, Ok (a, v')) ->
     exists p', let locks' := locks ++ filter (lock_live v') (stmt_locks q) in
       v' = apply_patch p' db1 /\ locks_in locks' db1 /\ patch_held locks' p' db1 s2 /\
       forall x', held_at locks' p' P x' db1 s2 -> R a x' db1 s2) ->
  cs o (query q) x db s R.
Proof.
  intros HJ0 HP Hx Hq HR. eapply (cs_query J exclusive); [done|apply Hx|done|].
  intros db1 s1 s2 a v' Hr HJ1 Hx1 Hex.
  assert (held_at locks p P x db1 s1) as Hx2
    by (eapply held_rely; [exact (inv_core _ _ HJ0)|done..]).
  destruct (HR _ _ _ _ _ HJ1 Hx2 Hex) as (p' & Hv & Hl & Hp & HRa).
  exists p'. split; [done|]. apply HRa. split; [by split|apply Hx2].
Qed.

(** ** Loops *)

Lemma cs_io_iter {E A} (f : A -> io E unit) l o x db s
    (I : list A -> option txn -> database -> sequences -> Prop) :
  J db s -> I [] x db s ->
  (forall dn a rest x db s, l = dn ++ a :: rest -> J db s -> I dn x db s ->
     cs o (f a) x db s (fun _ => I (dn ++ [a]))) ->
  cs o (io_iter f l) x db s (fun _ => I l).
Proof.
  intros HJ0 HI Hf.
  enough (forall rest dn x db s, l = dn ++ rest -> J db s -> I dn x db s ->
    cs o (io_iter f rest) x db s (fun _ => I l)) as Hall by (by apply (Hall l [])).
  clear x db s HJ0 HI. induction rest as [|a rest IH]; intros dn x db s Hl HJ0 HI; simpl.
  - apply cs_ret. rewrite app_nil_r in Hl. by subst.
  - apply cs_bind; [done|]. eapply cs_mono; [done|by eapply Hf|]. simpl.
    intros _ x' db' s' _ HI' HJ'. apply (IH (dn ++ [a])); [by rewrite <- (assoc_L (++))|done|done].
Qed.

Lemma cs_io_fold {E B A} (f : B -> A -> io E B) b l o x db s
    (I : list A -> B -> option txn -> database -> sequences -> Prop) :
  J db s -> I [] b x db s ->
  (forall dn a rest b x db s, l = dn ++ a :: rest -> J db s -> I dn b x db s ->
     cs o (f b a) x db s (I (dn ++ [a]))) ->
  cs o (io_fold f b l) x db s (I l).
Proof.
  intros HJ0 HI Hf.
  enough (forall rest dn b x db s, l = dn ++ rest -> J db s -> I dn b x db s ->
    cs o (io_fold f b rest) x db s (I l)) as Hall by (by apply (Hall l [])).
  clear b x db s HJ0 HI. induction rest as [|a rest IH]; intros dn b x db s Hl HJ0 HI; simpl.
  - apply cs_ret. rewrite app_nil_r in Hl. by subst.
  - apply cs_bind; [done|]. eapply cs_mono; [done|by eapply Hf|]. simpl.
    intros b' x' db' s' _ HI' HJ'. apply (IH (dn ++ [a])); [by rewrite <- (assoc_L (++))|done|done].
Qed.
End safe.
