(* ===== verification/SafeHandlers.v ===== *)
(** * SafeHandlers: every handler is safe next to others

    The handlers of [Ledger.v] in the logic of [Interference.v]: in every
    interleaving they do not panic, commit only changes that keep the invariant, and
    leave the other open transactions what these rely on. *)

From S2P Require Import Prelude.
From S2P Require Import Money Accounts Transactions Entries Validation.
From S2P Require Import StorageErrors Schema Cache Effects Triples Postgres.
From S2P Require Import ServiceErrors Ledger Invariant Updates PostgresSpecs LedgerSpecs.
From S2P Require Import Preserve Handlers HandlerSpecs AuthorizeSpec SettleSpec System.
From S2P Require Import Safety Locking Commits Concurrent Isolation Interference SafeStatements.
Local Open Scope Z_scope.

(** ** Locks and patches *)

Section patches.
Context `{JsonLib, PgLib}.
Implicit Types (db : database) (s : sequences) (locks : list row_lock).

Lemma locks_in_nil db : locks_in [] db.
Proof. split_and!; set_solver. Qed.
Lemma locks_in_app locks locks' db :
  locks_in locks db -> locks_in locks' db -> locks_in (locks ++ locks') db.
Proof. intros (H1 & H2 & H3) (H1' & H2' & H3'). split_and!; set_solver. Qed.

(** A patch with the balance updates sent so far. *)
Definition with_updates (u : list (Z * Z * Z)) (p : patch) : patch :=
  match p with
  | PPost t tr new _ => PPost t tr new u
  | PSettle t st posted ents _ => PSettle t st posted ents u
  | p => p
  end.
Definition posting (p : patch) : Prop :=
  match p with PPost _ _ _ [] | PSettle _ _ _ _ [] => True | _ => False end.

Lemma apply_with_updates u p db :
  posting p ->
  apply_patch (with_updates u p) db = set_accounts (apply_updates u (accounts db)) (apply_patch p db).
Proof. by destruct p as [| |t tr new [|]|t st po ents [|]]. Qed.
Lemma with_no_updates p : posting p -> with_updates [] p = p.
Proof. by destruct p as [| |t tr new [|]|t st po ents [|]]. Qed.
Lemma with_updates_held locks p u db s :
  posting p -> (forall y, y ∈ u -> LockAccount y.1.1 ∈ locks) ->
  patch_held locks p db s -> patch_held locks (with_updates u p) db s.
Proof. by destruct p as [| |t tr new [|]|t st po ents [|]]; intros Hp Hu [_ Hh]. Qed.
Lemma patch_held_locks locks locks' p db s :
  (forall l, l ∈ locks -> l ∈ locks') -> patch_held locks p db s -> patch_held locks' p db s.
Proof.
  intros Hl [Hu Hp]. split; [auto|].
  destruct p as [| |t tr new u|t st po ents u]; try done.
  - destruct Hp as (? & ? & ? & ? & ?). split_and!; auto; naive_solver.
  - destruct Hp as [? ?]. auto.
Qed.

Lemma update_balances_exec a version dp dq r v n v' :
  accounts v !! a = Some r -> a_version r = version -> in_i32 version ->
  update_account_balances a (as_i32 version) dp dq v = Ok (n, v') ->
  n = 1%nat /\ v' = set_accounts (alter (bump dp dq) a (accounts v)) v /\
  in_i64 (a_posted_balance r + dp) /\ in_i64 (a_pending_balance r + dq) /\ in_i32 (version + 1).
Proof.
  intros Hr Hv Hi. unfold update_account_balances, bigint, integer, mbind, result_bind.
  rewrite Hr, (as_i32_id version), decide_True, Hv by done. intros Hq.
  repeat (case_decide; [|done]). simplify_eq/=. split_and!; try done.
  unfold set_accounts. f_equal. apply map_eq. intros k. destruct (decide (a = k)) as [->|Hne].
  - by rewrite lookup_insert_eq, lookup_alter_eq, Hr.
  - by rewrite lookup_insert_ne, lookup_alter_ne.
Qed.

(** Ids from the sequences are free. *)
Lemma fresh_txn_id db s t : core_ok db s -> transactions_id_seq s <= t -> transactions db !! t = None.
Proof.
  intros Hok Ht. destruct (transactions db !! t) as [r|] eqn:Hr; [|done].
  destruct (ck_transactions _ _ Hok _ _ Hr) as [_ Hid _ _ _]. lia.
Qed.
Lemma fresh_entry_id db s k : core_ok db s -> entries_id_seq s <= k -> entries db !! k = None.
Proof.
  intros Hok Hk. destruct (entries db !! k) as [r|] eqn:Hr; [|done].
  destruct (ck_entries _ _ Hok _ _ Hr) as [_ Hid _ _]. lia.
Qed.

(** The rows of the transaction, with the ids they got. *)
Lemma posted_fresh db s t key md now legs new :
  Forall valid_leg legs -> validate_transaction_balance legs = Ok tt -> key <> "" -> 0 < now ->
  rows_of new ≡ₚ pending_rows t now legs -> Forall entries_check (pending_rows t now legs) ->
  (forall leg, leg ∈ legs -> is_Some (accounts db !! TransferLeg_account_id leg)) ->
  (exists locks u, patch_held locks (PPost t (pending_transaction_row key md now) new u) db s) ->
  fresh_txn db s t (pending_transaction_row key md now) new.
Proof.
  intros Hv Hb Hk Hnow Hrows Hck Hacc (locks & u & _ & (Ht & Hne & _ & _ & Hf)).
  split; try done.
  - eapply new_rows_perm; [symmetry; exact Hrows|]. by apply new_rows_pending.
  - by apply pending_transaction_row_ok.
Qed.

Lemma items_fixed (acs acs' : gmap Z accounts_row) (rows : list entries_row) :
  (forall e, e ∈ rows -> acs !! e_account_id e = acs' !! e_account_id e) ->
  item_of acs <$> rows = item_of acs' <$> rows.
Proof.
  intros Hf. apply list_fmap_ext. intros i e He. unfold item_of.
  by rewrite Hf by (by eapply list_elem_of_lookup_2).
Qed.

Lemma fits_fixed ids acs db (u : list (Z * Z * Z)) :
  accounts_fixed ids acs db -> (forall a, a ∈ (fst <$> (fst <$> u)) -> a ∈ ids) ->
  Forall (update_fits acs) u -> Forall (update_fits (accounts db)) u.
Proof.
  intros Hfix Hids. rewrite !Forall_forall. intros Hf [[a p] q] Hin r Hr. simpl in *.
  apply (Hf _ Hin). simpl. rewrite <- Hfix; [done|]. apply Hids. by eapply update_id_elem.
Qed.

End patches.

Section blocks.
Context `{JsonLib, PgLib} (J : database -> sequences -> Prop) (exclusive : bool).
Context {HJ : LedgerInvariant J exclusive}.
Implicit Types (db : database) (s : sequences) (x : option txn) (o : option Z).
Implicit Types (P : database -> Prop) (locks : list row_lock).
Local Abbreviation cs := (cs J exclusive).

Lemma cs_storage {A} (p : io StorageError A) o x db s R :
  J db s -> cs o p x db s R -> cs o (storage p) x db s R.
Proof. apply cs_map_err. Qed.

(** ** Locking the accounts *)

Lemma cs_lock_account a locks P o x db s
    (R : Account -> option txn -> database -> sequences -> Prop) :
  J db s -> stable o locks P -> held_at locks PNone P x db s ->
  (forall r x' db' s', J db' s' -> account_row_ok r ->
     held_at (locks ++ [LockAccount a]) PNone
       (fun db => P db /\ accounts db !! a = Some r) x' db' s' -> R (account_view a r) x' db' s') ->
  cs o (account ← storage (storage_get_account_for_update a);
        lift (ok_or (ServiceError_AccountNotFound (AccountId_value a)) account)) x db s R.
Proof.
  intros HJ0 HP Hx HR. apply cs_bind; [done|]. apply cs_storage; [done|]. apply cs_bind; [done|].
  eapply (cs_hquery J exclusive); [done..|apply stmt_ids_read|].
  intros db1 s1 s2 row v' HJ1 [Hx1 HP1] [= <- <- <-].
  exists PNone. simpl. unfold AccountId_value, select_account. rewrite live_account.
  destruct Hx1 as (_ & Hl & _).
  destruct (accounts db1 !! a) as [r|] eqn:Hr; simpl.
  - split_and!; [done| |by split; [set_solver|]|].
    + apply locks_in_app; [done|]. split_and!; [|set_solver..].
      intros b Hb. apply list_elem_of_singleton in Hb as [= ->]. eauto.
    + intros x' [Hx' HP'] _. destruct (ck_accounts _ _ (inv_core _ _ HJ1) _ _ Hr) as [Hok _].
      rewrite account_of_row_ok by done. simpl. intros _. apply HR; [done..|]. by split.
  - split_and!; [done|by rewrite app_nil_r|by split; [set_solver|]|].
    intros x' _ _. simpl. done.
Qed.

Lemma stable_lock o locks P a r :
  stable o locks P ->
  stable o (locks ++ [LockAccount a]) (fun db => P db /\ accounts db !! a = Some r).
Proof.
  intros HP. apply stable_and; [eapply stable_mono; [|exact HP]; set_solver|].
  intros x db s db' s' Hx _ Hr Ha. eapply Hr; [apply Hx; set_solver|done].
Qed.

Lemma cs_lock_list l locks P o x db s
    (R : list Account -> option txn -> database -> sequences -> Prop) :
  J db s -> stable o locks P -> held_at locks PNone P x db s ->
  (forall accts locks' x' db' s', J db' s' ->
     (forall k, k ∈ locks' <-> k ∈ locks \/ exists a, a ∈ l /\ k = LockAccount a) ->
     held_at locks' PNone P x' db' s' ->
     Forall2 (fun id y => exists r, accounts db' !! id = Some r /\ y = account_view id r) l accts ->
     R accts x' db' s') ->
  cs o (io_map (fun account_id =>
      account ← storage (storage_get_account_for_update account_id);
      lift (ok_or (ServiceError_AccountNotFound (AccountId_value account_id)) account)) l)
    x db s R.
Proof.
  revert locks P x db s R. induction l as [|a l IH]; intros locks P x db s R HJ0 HP Hx HR.
  - apply cs_ret. eapply HR; [done| |exact Hx|constructor]. set_solver.
  - cbn [io_map]. apply cs_bind; [done|]. eapply cs_lock_account; [done|exact HP|done|].
    intros r x1 db1 s1 HJ1 Hok Hx1 _. apply cs_bind; [done|].
    eapply IH; [done|by apply stable_lock|exact Hx1|].
    intros accts locks' x' db' s' HJ' Hl' (Hx' & HP' & Hr') Hf _. apply cs_ret.
    eapply HR; [done| |by split|].
    + intros k. rewrite Hl'. set_solver.
    + constructor; [by exists r|done].
Qed.

(** The rows of the accounts are now fixed until the transaction ends. *)
Lemma cs_lock_accounts ids P o x db s
    (R : list Account -> option txn -> database -> sequences -> Prop) :
  J db s -> stable o [] P -> held_at [] PNone P x db s ->
  (forall accts acs locks x' db' s', J db' s' ->
     (forall a, a ∈ ids -> LockAccount a ∈ locks /\ locked acs accts a) ->
     held_at locks PNone (fun db => P db /\ accounts_fixed ids acs db) x' db' s' ->
     R accts x' db' s') ->
  cs o (lock_accounts ids) x db s R.
Proof.
  intros HJ0 HP Hx HR. unfold lock_accounts. fold (lock_order ids).
  eapply cs_lock_list; [done|exact HP|exact Hx|].
  intros accts locks x' db' s' HJ' Hl [Hx' HP'] Hf.
  apply (HR accts (accounts db') locks); [done| |].
  - intros a Ha. apply lock_order_elem in Ha. split; [apply Hl; eauto|].
    destruct (head_filter_views _ _ _ a Hf Ha) as (r & Hr & Hh). exists r.
    split_and!; [done| |done]. by apply (ck_accounts _ _ (inv_core _ _ HJ') _ _ Hr).
  - split; [done|]. split; [done|]. by intros a _.
Qed.

(** What holds from here on, with the locks taken so far. *)
Definition locked_phase (ids : list Z) (acs : gmap Z accounts_row) (accts : list Account)
    locks : Prop := forall a, a ∈ ids -> LockAccount a ∈ locks /\ locked acs accts a.

Lemma locked_phase_stable o locks P ids acs accts :
  stable o locks P -> locked_phase ids acs accts locks ->
  stable o locks (fun db => P db /\ accounts_fixed ids acs db).
Proof.
  intros HP Hl. apply stable_and; [done|]. apply stable_accounts. intros a Ha.
  destruct (Hl a Ha) as [? (r & ? & _)]. eauto.
Qed.

Lemma locked_phase_mono ids acs accts locks locks' :
  (forall l, l ∈ locks -> l ∈ locks') -> locked_phase ids acs accts locks ->
  locked_phase ids acs accts locks'.
Proof. intros Hl Hp a Ha. destruct (Hp a Ha). auto. Qed.

Lemma cs_find_account a acs accts o x db s
    (R : Account -> option txn -> database -> sequences -> Prop) :
  locked acs accts a ->
  (forall r, acs !! a = Some r -> account_row_ok r -> R (account_view a r) x db s) ->
  cs o (find_account a accts) x db s R.
Proof. intros (r & Hr & Hok & Hh) HR. eapply cs_unwrap; [exact Hh|auto]. Qed.

(** ** The check of the funds *)

Lemma cs_check_available accts acs legs locks p P o x db s :
  J db s -> stable o locks P -> held_at locks p P x db s ->
  (forall leg, leg ∈ legs -> locked acs accts (TransferLeg_account_id leg)) ->
  cs o (check_available accts legs) x db s (fun _ => held_at locks p P).
Proof.
  intros HJ0 HP Hx Hl.
  apply (cs_io_iter J exclusive _ _ _ _ _ _ (fun _ => held_at locks p P)); [done|done|].
  clear x db s HJ0 Hx. intros dn leg rest x db s Heq HJ0 Hx. apply cs_bind; [done|].
  eapply cs_find_account; [apply Hl; set_solver|]. intros r Hr Hok _.
  destruct (reduces_balance _ _); [|by apply cs_ret].
  apply cs_bind; [done|]. eapply (cs_hlocal J exclusive); [done|exact HP|exact Hx|done|].
  intros b db1 s1 HJ1 Hx1 _. apply cs_bind; [done|]. apply cs_lift. intros b' _ _.
  destruct (AccountBalance_has_available _ _); [by apply cs_ret|].
  apply cs_bind; [done|]. eapply (cs_hlocal J exclusive); [done|exact HP|exact Hx1|done|].
  intros [] db2 s2 HJ2 Hx2 _. apply cs_throw.
Qed.
(** ** Applying the updates *)

Lemma cs_apply_update a dp dq acs accts ids dn p P locks o x db s :
  J db s -> posting p -> stable o locks P -> locked_phase ids acs accts locks -> a ∈ ids ->
  a ∉ (fst <$> (fst <$> dn)) ->
  held_at locks (with_updates dn p) (fun db => P db /\ accounts_fixed ids acs db) x db s ->
  cs o (account ← find_account a accts;
        storage (storage_update_account_balance a (Account_version account) dp dq)) x db s
    (fun _ x' db' s' => update_fits acs (a, dp, dq) /\ exists locks',
       (forall l, l ∈ locks -> l ∈ locks') /\
       held_at locks' (with_updates (dn ++ [(a, dp, dq)]) p)
         (fun db => P db /\ accounts_fixed ids acs db) x' db' s').
Proof.
  intros HJ0 Hpo HP Hl Ha Hn Hx. apply cs_bind; [done|]. destruct (Hl a Ha) as [Hla Hlk].
  eapply cs_find_account; [exact Hlk|]. intros r Hr Hok _.
  apply cs_storage, cs_bind; [done..|].
  eapply (cs_hquery J exclusive); [done|by eapply locked_phase_stable|exact Hx|
    apply ids_update_balances|].
  intros db1 s1 s2 n v' HJ1 [(_ & Hlin & Hph) [HP1 Hfix]] Hex. simpl in Hex.
  injection Hex as <- Hex.
  assert (accounts (apply_patch (with_updates dn p) db1) !! a = Some r) as Hv.
  { rewrite apply_with_updates by done. simpl. by rewrite apply_updates_notin, Hfix. }
  apply (update_balances_exec a (a_version r) dp dq r) in Hex as (-> & -> & Hf);
    [|done|done|apply Hok].
  exists (with_updates (dn ++ [(a, dp, dq)]) p). simpl. rewrite live_account.
  unfold AccountId_value in *. simpl. rewrite lookup_alter_eq, Hv. simpl.
  assert (is_Some (accounts db1 !! a)) as Hsome by (rewrite Hfix, Hr; eauto).
  split_and!.
  - rewrite !apply_with_updates, apply_updates_app by done. done.
  - apply locks_in_app; [done|]. split_and!; [|set_solver..].
    intros b Hb. apply list_elem_of_singleton in Hb as [= ->]. done.
  - apply (patch_held_locks locks); [set_solver|]. destruct p as [| |t tr new [|]|t st po ents [|]];
      try done; destruct Hph as [Hu Hph]; (split; [|done]); simpl in *; set_solver.
  - intros x' Hx' _. simpl. apply cs_ret. split.
    + intros r' Hr'. simpl in Hr'. by simplify_eq.
    + eexists. split; [|exact Hx']. set_solver.
Qed.

Lemma cs_apply_balance_updates accts acs ids u p P locks o x db s :
  J db s -> posting p -> stable o locks P -> locked_phase ids acs accts locks ->
  NoDup (fst <$> (fst <$> u)) -> (forall a, a ∈ (fst <$> (fst <$> u)) -> a ∈ ids) ->
  held_at locks p (fun db => P db /\ accounts_fixed ids acs db) x db s ->
  cs o (apply_balance_updates accts u) x db s
    (fun _ x' db' s' => Forall (update_fits acs) u /\ exists locks',
       (forall l, l ∈ locks -> l ∈ locks') /\
       held_at locks' (with_updates u p) (fun db => P db /\ accounts_fixed ids acs db) x' db' s').
Proof.
  intros HJ0 Hpo HP Hl Hnd Hids Hx.
  apply (cs_io_iter J exclusive _ _ _ _ _ _ (fun dn x' db' s' =>
    Forall (update_fits acs) dn /\ exists locks', (forall l, l ∈ locks -> l ∈ locks') /\
    held_at locks' (with_updates dn p) (fun db => P db /\ accounts_fixed ids acs db) x' db' s'));
    [done|split; [done|]; exists locks; by rewrite with_no_updates|].
  clear x db s HJ0 Hx.
  intros dn [[a dp] dq] rest x db s Hu HJ0 (Hfit & locks' & Hll & Hx).
  eapply cs_mono; [done|eapply (cs_apply_update a dp dq acs accts ids dn p P locks'); try done|].
  - by eapply stable_mono.
  - by eapply locked_phase_mono.
  - apply Hids. rewrite Hu, !fmap_app, !fmap_cons. set_solver.
  - rewrite Hu, !fmap_app, !fmap_cons in Hnd. apply NoDup_app in Hnd as (_ & Hdis & _).
    intros Hin. apply (Hdis a Hin). set_solver.
  - simpl. intros _ x' db' s' HJ' (Hf & locks2 & Hll2 & Hx'). split.
    + apply Forall_app. split; [done|]. by constructor.
    + exists locks2. auto.
Qed.
(** ** The commit and what follows it *)

Definition anything {A} (_ : A) x db s : Prop := True.
(** The answer satisfies [R], and the tables satisfy [F] when it is given. *)
Definition replies {A} (F : database -> Prop) (R : A -> Prop) (a : A) x db s : Prop :=
  F db /\ R a.
(** The rest of a handler, outside its transaction. *)
Definition ends {A} o F (R : A -> Prop) (k : io ServiceError A) : Prop :=
  stable o [] F -> forall db s, J db s -> F db -> cs o k None db s (replies F R).

Lemma ends_ret {A} o F (R : A -> Prop) a : R a -> ends o F R (mret a).
Proof. intros Ha _ db s _ HF. by split. Qed.
Lemma ends_lift {A B} o F (R : B -> Prop) (r : result ServiceError A) (k : A -> io ServiceError B) :
  (forall a, r = Ok a -> ends o F R (k a)) -> ends o F R (y ← lift r; k y).
Proof.
  intros Hk HF db s HJ0 Hdb. apply cs_bind; [done|]. apply cs_lift. intros a Ha _. by apply Hk.
Qed.
Lemma ends_local {A : Set} {B} o F (R : B -> Prop) (e : eff A) (k : A -> io ServiceError B) :
  local_eff e -> (forall a, ends o F R (k a)) -> ends o F R (y ← perform e; k y).
Proof.
  intros He Hk HF db s HJ0 Hdb. apply cs_bind; [done|].
  eapply (cs_local J exclusive _ None); [done..|]. intros a db' s' Hr HJ' _ _. apply Hk; [done..|].
  eapply HF; [|exact (inv_core _ _ HJ0)|exact Hr|done]. set_solver.
Qed.
Lemma ends_counter {B} o F (R : B -> Prop) n ls (k : io ServiceError B) :
  ends o F R k -> ends o F R (counter n ls;; k).
Proof. intros Hk. by apply ends_local. Qed.
Lemma ends_cache_set {B} o F (R : B -> Prop) id p q (k : io ServiceError B) :
  ends o F R k -> ends o F R (cache_set id p q;; k).
Proof. intros Hk. by apply ends_local. Qed.
Lemma ends_update_cache {B} o F (R : B -> Prop) u (k : io ServiceError B) :
  ends o F R k -> ends o F R (update_cache u;; k).
Proof.
  intros Hk HF db s HJ0 Hdb. apply cs_bind; [done|]. eapply cs_mono;
    [done|apply (cs_io_iter J exclusive _ _ _ _ _ _ (fun _ x db _ => x = None /\ F db)); [done..|]|].
  - clear db s HJ0 Hdb. intros dn [[a p] q] rest x db s _ HJ0 [-> Hdb].
    eapply (cs_local J exclusive _ None); [done..|]. intros _ db' s' Hr _ _. split; [done|].
    eapply HF; [|exact (inv_core _ _ HJ0)|exact Hr|done]. set_solver.
  - intros [] x db' s' HJ' [-> Hdb'] _. by apply Hk.
Qed.

Lemma cs_hcommit {A} (k : io ServiceError A) F (R : A -> Prop) locks p P o x db s :
  J db s -> stable o locks P -> held_at locks p P x db s -> patch_complete exclusive o p ->
  (forall x1 db1 s1, J db1 s1 -> held_at locks p P x1 db1 s1 ->
     J (apply_patch p db1) s1 /\ F (apply_patch p db1)) ->
  stable o [] F -> ends o F R k -> cs o (commit_tx;; k) x db s (replies F R).
Proof.
  intros HJ0 HP Hx Hc HJp HF Hk. eapply (cs_commit J exclusive); [done|apply Hx|done|].
  intros db1 s1 Hr HJ1 Hx1. destruct (HJp x db1 s1) as [HJ2 HF2]; [done| |].
  - eapply held_rely; [exact (inv_core _ _ HJ0)|done..].
  - split; [done|]. intros _. by apply Hk.
Qed.
Lemma cs_hcommit_read {A} (k : io ServiceError A) F (R : A -> Prop) locks o x db s :
  J db s -> stable o locks F -> stable o [] F -> held_at locks PNone F x db s -> ends o F R k ->
  cs o (commit_tx;; k) x db s (replies F R).
Proof.
  intros HJ0 HP HF Hx Hk. eapply cs_hcommit; [done|exact HP|exact Hx|done| |done|done].
  intros x1 db1 s1 HJ1 [_ HF1]. done.
Qed.

(** Handlers of which nothing is asked but that they are safe. *)
Lemma cs_anything {A} F (R : A -> Prop) o (p : io ServiceError A) x db s :
  J db s -> cs o p x db s (replies F R) -> cs o p x db s anything.
Proof. intros HJ0 Hp. by eapply cs_mono. Qed.
Lemma cs_hcommit_any {A} (k : io ServiceError A) locks p P o x db s :
  J db s -> stable o locks P -> held_at locks p P x db s -> patch_complete exclusive o p ->
  (forall x1 db1 s1, J db1 s1 -> held_at locks p P x1 db1 s1 -> J (apply_patch p db1) s1) ->
  ends o (fun _ => True) (fun _ => True) k -> cs o (commit_tx;; k) x db s anything.
Proof.
  intros HJ0 HP Hx Hc HJp Hk. apply (cs_anything (fun _ => True) (fun _ => True)); [done|].
  eapply cs_hcommit; [done|exact HP|exact Hx|done| |done|exact Hk].
  intros x1 db1 s1 HJ1 Hx1. split; [by eapply HJp|done].
Qed.
End blocks.
(** The end of a handler, effect by effect. *)
Ltac solve_ends :=
  repeat first [ apply ends_ret; done | apply ends_counter | apply ends_update_cache
               | apply ends_cache_set | apply ends_lift; intros ? ? | apply _ ].

(** ** What an answer says of the tables *)

Section stable_facts.
Context `{JsonLib, PgLib}.

Lemma txn_keyed_rely o x db s db' s' key t :
  rely o x db s db' s' -> txn_keyed key t db -> txn_keyed key t db'.
Proof.
  intros Hr (r & Ht & Hk). destruct (rl_txn_kept _ _ _ _ _ _ Hr _ _ Ht) as (r' & Ht' & Heq & _).
  exists r'. split; [done|]. by rewrite Heq.
Qed.
Lemma txn_settled_rely o x db s db' s' t :
  rely o x db s db' s' -> txn_settled t db -> txn_settled t db'.
Proof.
  intros Hr (r & Ht & Hs). destruct (rl_txn_kept _ _ _ _ _ _ Hr _ _ Ht) as (r' & Ht' & _ & Hs').
  exists r'. auto.
Qed.
Lemma stable_keyed o locks key t : stable o locks (txn_keyed key t).
Proof. intros x db s db' s' _ _. apply txn_keyed_rely. Qed.
Lemma stable_settled o locks t : stable o locks (txn_settled t).
Proof. intros x db s db' s' _ _. apply txn_settled_rely. Qed.
End stable_facts.
#[export] Hint Resolve stable_keyed stable_settled : fides.

Section authorize.
Context `{JsonLib, PgLib, !PgLaws} (J : database -> sequences -> Prop) (exclusive : bool).
Context {HJ : LedgerInvariant J exclusive}.
Implicit Types (db : database) (s : sequences) (x : option txn) (o : option Z).
Implicit Types (P : database -> Prop) (locks : list row_lock).
Local Abbreviation cs := (cs J exclusive).

(** ** The transaction and its entries *)

Lemma cs_create_transaction key md now locks P o x db s
    (R : Z -> option txn -> database -> sequences -> Prop) :
  J db s -> stable o locks P -> held_at locks PNone P x db s -> key <> "" ->
  (forall t key' md' locks' x' db' s',
     (forall l, l ∈ locks -> l ∈ locks') -> key' <> "" -> 0 < now ->
     ((String.length key <= 64)%nat -> key' = key) ->
     held_at locks' (PPost t (pending_transaction_row key' md' now) ∅ []) P x' db' s' ->
     R t x' db' s') ->
  cs o (storage (storage_create_transaction key TransactionStatus_Pending md now None)) x db s R.
Proof.
  intros HJ0 HP Hx Hk HR. apply cs_storage, cs_bind; [done..|].
  eapply (cs_hquery J exclusive); [done|exact HP|exact Hx|apply ids_create_transaction|].
  intros db1 s1 s2 t v' HJ1 [(_ & Hlin & _) HP1]. simpl. intros [= <- Hex].
  unfold insert_transaction, bigint, varchar, jsonb, mbind, result_bind, map_err in Hex.
  unfold key_locks.
  case_decide; [|done].
  destruct (varchar_input 64 key) as [key'|] eqn:Hkey; [|done].
  destruct (jsonb_input md) as [md'|]; [|done].
  case_decide as Hck; [|done]. destruct (find_key key' db1) eqn:Hf; [done|]. simplify_eq/=.
  pose proof (ck_seqs _ _ (inv_core _ _ HJ1)) as (_ & Hs & _).
  eexists (PPost _ (pending_transaction_row key' md' now) ∅ []). split_and!.
  - unfold apply_patch, post_transaction. simpl. by rewrite (left_id_L ∅ (∪)).
  - apply locks_in_app; [done|]. rewrite filter_cons_True by done. split_and!; set_solver.
  - split; [simpl; set_solver|]. simpl. split_and!; [|lia|lia|done|done| |done].
    + eapply fresh_txn_id; [exact (inv_core _ _ HJ1)|lia].
    + rewrite filter_cons_True by done. set_solver.
  - intros x' Hx' _. apply cs_ret. eapply HR; [|..|exact Hx'].
    + set_solver.
    + eapply varchar_nonempty; [|done|done]. lia.
    + apply Hck.
    + by apply varchar_fits.
Qed.

(** The state of the loop after the legs [dn]. *)
Definition legs_posted (t : Z) tr now ids acs locks P (dn : list TransferLeg)
    (acc : list Entry * list (Z * Z * Z)) x db s : Prop :=
  exists new, held_at locks (PPost t tr new []) (fun db => P db /\ accounts_fixed ids acs db) x db s /\
    rows_of new ≡ₚ pending_rows t now dn /\
    updates_of 0 1 (item_of acs <$> pending_rows t now dn) acc.2 /\
    Forall entries_check (pending_rows t now dn).

Lemma cs_authorize_leg t tr now ids acs accts locks P o legs dn leg rest acc x db s :
  J db s -> stable o locks P -> locked_phase ids acs accts locks ->
  rows_fit (pending_rows t now legs) -> legs = dn ++ leg :: rest ->
  TransferLeg_account_id leg ∈ ids -> legs_posted t tr now ids acs locks P dn acc x db s ->
  cs o (authorize_leg t now accts acc leg) x db s
    (legs_posted t tr now ids acs locks P (dn ++ [leg])).
Proof.
  intros HJ0 HP Hl Hfit -> Hleg (new & Hx & Hrows & Hu & Hck). apply cs_bind; [done|].
  destruct (Hl _ Hleg) as [_ Hlk]. eapply cs_find_account; [exact Hlk|]. intros r Hr Hok _.
  apply cs_bind; [done|]. apply cs_storage; [done|]. apply cs_bind; [done|].
  eapply (cs_hquery J exclusive); [done|by eapply locked_phase_stable|exact Hx|
    apply ids_create_entry|].
  intros db1 s1 s2 k v' HJ1 [(_ & Hlin & Hph) HP1]. simpl. intros [= <- Hex].
  unfold insert_entry, bigint, mbind, result_bind in Hex. simpl in Hex.
  case_decide; [|done]. case_decide as Hec; [|done]. case_decide; [|done]. simplify_eq/=.
  pose proof (inv_core _ _ HJ1) as Hcore. pose proof (ck_seqs _ _ Hcore) as (_ & _ & Hs).
  destruct Hph as [_ (Htxn & Hne & Htx & Hkey & Hfk)].
  set (k := entries_id_seq s1) in *. set (row := leg_row t 1 now leg).
  assert (new !! k = None) as Hnk.
  { destruct (new !! k) as [e|] eqn:He; [|done]. destruct (Hne _ _ He) as [_ ?]. lia. }
  exists (PPost t tr (<[k := row]> new) []). rewrite app_nil_r. split_and!.
  - unfold apply_patch, post_transaction. by rewrite <- insert_union_l.
  - done.
  - split; [simpl; set_solver|]. split_and!; [by apply Htxn|by apply Htxn|simpl; lia| | |done|done].
    + intros j e. rewrite lookup_insert_Some. simpl. intros [[<- <-]|[_ He]].
      * split; [eapply fresh_entry_id; [exact Hcore|lia]|lia].
      * destruct (Hne _ _ He). split; [done|lia].
    + intros j e. rewrite lookup_insert_Some. intros [[_ <-]|[_ He]]; [done|by eapply Htx].
  - intros x' Hx' _. apply cs_ret. intros HJ2. apply cs_bind; [done|]. apply cs_lift.
    intros entry _ _. apply cs_ret. exists (<[k := row]> new). unfold pending_rows in *.
    rewrite fmap_app in *. simpl in *. split_and!; [exact Hx'|..].
    + rewrite rows_of_insert, Hrows by done. by rewrite Permutation_cons_append.
    + rewrite account_view_normal by done. rewrite compute_balance_delta_eq by
        (pose proof (proj1 Hfit row ltac:(set_solver)); subst row; simpl in *; lia).
      pose proof (updates_of_row authorize_update 0 1 acs (leg_row t 1 now <$> dn)
        row (leg_row t 1 now <$> rest) acc.2 r authorize_update_step Hfit Hr Hu) as Hu'.
      unfold row_signed in Hu'. simpl in Hu'. by rewrite code_side_entry_type in Hu'.
    + apply Forall_app. split; [done|]. by constructor.
Qed.
(** The answer carries the id of the new transaction. *)
Lemma authorized_id t key status md now posted txn es :
  map_err ServiceError_from_transaction (Transaction_new t key status md now posted) = Ok txn ->
  pt_id (ar_transaction (mkAuthorizeResponse (transaction_to_proto txn) es)) = t.
Proof.
  destruct (Transaction_new t key status md now posted) as [txn'|] eqn:Hn; simpl; [|done].
  intros [= <-]. by apply Transaction_new_Ok in Hn as [-> _].
Qed.

Lemma cs_authorize_new key md legs now o x db s :
  J db s -> key <> "" -> Forall valid_leg legs -> validate_transaction_balance legs = Ok tt ->
  held_at [] PNone (fun _ => True) x db s ->
  cs o (authorize_new key md legs now) x db s
    (fun resp _ db _ => txn_keyed key (pt_id (ar_transaction resp)) db).
Proof.
  intros HJ0 Hk Hv Hbal Hx. set (ids := TransferLeg_account_id <$> legs).
  assert (forall locks, stable o locks (fun _ => True)) as HT by done.
  assert (forall leg, leg ∈ legs -> TransferLeg_account_id leg ∈ ids) as Hids.
  { intros leg Hleg. apply list_elem_of_fmap. eauto. }
  apply cs_bind; [done|]. eapply (cs_lock_accounts J exclusive); [done|by apply HT|exact Hx|].
  clear x db s HJ0 Hx. intros accts acs locks x db s HJ0 Hl Hx _.
  assert (stable o locks (fun db => True /\ accounts_fixed ids acs db)) as HS
    by (by eapply locked_phase_stable).
  apply cs_bind; [done|]. eapply cs_mono; [done|eapply (cs_check_available J exclusive); [done|exact HS|done|]|].
  { intros leg Hleg. by apply Hl, Hids. }
  clear x db s HJ0 Hx. intros [] x db s HJ0 Hx _.
  apply cs_bind; [done|]. eapply cs_create_transaction; [done|exact HS|exact Hx|done|].
  clear x db s HJ0 Hx. intros t key' md' locks2 x db s Hll Hk' Hnow Hkey Hx HJ0.
  apply (locked_phase_mono _ _ _ _ locks2 Hll) in Hl. clear HS.
  apply cs_bind; [done|]. eapply cs_mono; [done|apply (cs_io_fold J exclusive _ _ _ _ _ _ _
    (legs_posted t (pending_transaction_row key' md' now) now ids acs locks2 (fun _ => True)));
    [done| |]|].
  { exists ∅. split_and!; [exact Hx|done|apply updates_of_nil|constructor]. }
  { intros dn leg rest acc x1 db1 s1 -> HJ1 Hacc. eapply cs_authorize_leg; try done.
    - by apply pending_rows_fit.
    - apply Hids. set_solver. }
  clear x db s HJ0 Hx. intros [es u] x db s HJ0 (new & Hx & Hrows & Hu & Hck) _.
  assert (forall a, a ∈ (fst <$> (fst <$> u)) -> a ∈ ids) as Hui.
  { intros a Ha. apply (uo_ids _ _ _ _ Hu) in Ha. subst ids.
    unfold pending_rows in Ha. rewrite <- !list_fmap_compose in Ha. exact Ha. }
  apply cs_bind; [done|]. eapply cs_mono; [done|eapply (cs_apply_balance_updates J exclusive);
    [done|..|exact Hx]; try done; apply Hu|].
  clear x db s HJ0 Hx. intros [] x db s HJ0 (Hfit & locks3 & Hll3 & Hx) _. simpl in Hx.
  apply (locked_phase_mono _ _ _ _ locks3 Hll3) in Hl.
  eapply cs_mono; [done|eapply (cs_hcommit J exclusive _ (txn_keyed key t)
    (fun resp => pt_id (ar_transaction resp) = t)); [done|by eapply locked_phase_stable|exact Hx|
    done| |eauto with fides|]|].
  2: { solve_ends. apply ends_ret. by eapply authorized_id. }
  2: { by intros resp y d s3 _ [Hd ->]. }
  intros x1 db1 s1 HJ1 [(_ & _ & Hph) [_ Hfix]]. split; simpl.
  2: { exists (pending_transaction_row key' md' now). split; [apply lookup_insert_eq|exact Hkey]. }
  eapply inv_post_transaction; [done|eapply posted_fresh; try done| |by eapply fits_fixed].
  - intros leg Hleg. destruct (Hl _ (Hids _ Hleg)) as [_ (r & Hr & _)].
    rewrite Hfix by auto. eauto.
  - by exists locks3, u.
  - eapply updates_of_perm; [|exact Hu]. rewrite Hrows. apply reflexive_eq, items_fixed.
    intros e He. symmetry. apply Hfix. apply list_elem_of_fmap in He as (leg & -> & Hleg).
    by apply Hids.
Qed.

Lemma cs_authorize_existing key existing o x db s :
  J db s -> held_at [] PNone (txn_keyed key (Transaction_id existing)) x db s ->
  cs o (authorize_existing existing) x db s
    (fun resp _ db _ => txn_keyed key (pt_id (ar_transaction resp)) db).
Proof.
  intros HJ0 Hx. pose proof (stable_keyed o [] key (Transaction_id existing)) as HT.
  apply cs_bind; [done|]. apply cs_storage; [done|]. apply cs_bind; [done|].
  eapply (cs_hread J exclusive); [done|exact HT|exact Hx|]. intros db1 s1 HJ1 Hx1 _.
  apply cs_lift. intros es _ _. eapply cs_mono; [done|eapply (cs_hcommit_read J exclusive _ _
    (fun resp => pt_id (ar_transaction resp) = Transaction_id existing));
    [done|exact HT|exact HT|exact Hx1|solve_ends]|].
  by intros resp y d s2 _ [Hd ->].
Qed.

Lemma found_keyed key existing db s :
  J db s -> opt_row transaction_of_row (find_key key (apply_patch PNone db)) = Ok (Some existing) ->
  txn_keyed key (Transaction_id existing) db.
Proof.
  intros HJ0. simpl. unfold opt_row. destruct (find_key key db) as [[t r]|] eqn:Hf; [|done].
  apply find_key_Some in Hf as [Ht Hk].
  destruct (ck_transactions _ _ (inv_core _ _ HJ0) _ _ Ht) as [Hrow _ _ _ _].
  rewrite transaction_of_row_ok by done. intros [= <-]. by exists r.
Qed.

Lemma cs_authorize req o db s :
  J db s -> request_typed req -> cs o (authorize req) None db s
    (fun resp _ db _ => txn_keyed (au_idempotency_key req) (pt_id (ar_transaction resp)) db).
Proof.
  intros HJ0 Htyped. unfold authorize. case_decide as Hk; [done|].
  apply cs_bind; [done|]. apply cs_lift. intros md _ _.
  apply cs_bind; [done|]. apply cs_lift. intros legs Hlegs _.
  apply cs_bind; [done|]. apply cs_lift. intros [] Hbal _.
  destruct (validate_transaction_balance legs) as [[]|] eqn:Hb; [|done].
  apply cs_bind; [done|]. eapply (cs_local J exclusive _ None); [done..|].
  intros now db1 s1 _ HJ1 _ _. apply (cs_begin J exclusive); [done|].
  intros x db2 s2 _ HJ2 Hx2. assert (stable o [] (fun _ => True)) as HT by done.
  apply cs_bind; [done|]. apply cs_storage; [done|]. apply cs_bind; [done|].
  eapply (cs_hread J exclusive); [done|exact HT|by split|]. intros db3 s3 HJ3 Hx3 _.
  apply cs_lift. intros [existing|] Hex _.
  - apply cs_authorize_existing; [done|]. split; [apply Hx3|]. by eapply found_keyed.
  - apply cs_authorize_new; try done. by eapply parse_transfer_legs_valid.
Qed.
End authorize.

Section settle.
Context `{JsonLib, PgLib} (J : database -> sequences -> Prop) (exclusive : bool).
Context {HJ : LedgerInvariant J exclusive}.
Implicit Types (db : database) (s : sequences) (x : option txn) (o : option Z).
Implicit Types (P : database -> Prop) (locks : list row_lock).
Local Abbreviation cs := (cs J exclusive).

(** ** Settling a transaction *)

Lemma cs_settle_updates upd cp cq acs accts rows o x db s :
  J db s ->
  (forall items a d u, updates_of cp cq items u -> small d -> small (delta_of items a) ->
     small (delta_of items a + d) -> updates_of cp cq (items ++ [(a, d)]) (upd a d u)) ->
  rows_fit (snd <$> rows) ->
  (forall r, r ∈ rows -> locked acs accts (e_account_id r.2)) ->
  cs o (settle_updates upd accts (entry_view <$> rows)) x db s
    (fun u x' db' s' => x' = x /\ db' = db /\ s' = s /\
       updates_of cp cq (item_of acs <$> (snd <$> rows)) u).
Proof.
  intros HJ0 Hstep Hfit Hl. eapply cs_mono; [done|apply (cs_io_fold J exclusive _ _ _ _ _ _ _
    (fun dn u x' db' s' => exists rs, rs `prefix_of` rows /\ dn = entry_view <$> rs /\
       x' = x /\ db' = db /\ s' = s /\ updates_of cp cq (item_of acs <$> (snd <$> rs)) u));
    [done| |]|].
  - exists []. split_and!; try done; [apply prefix_nil|apply updates_of_nil].
  - intros dn e' rest u x' db' s' Heq _ (rs & [tl Hrs] & -> & -> & -> & -> & Hu).
    subst rows. rewrite fmap_app in Heq. apply (inj (app (entry_view <$> rs))) in Heq.
    destruct tl as [|e tl]; [done|]. simpl in Heq. simplify_eq.
    apply cs_bind; [done|]. eapply cs_find_account; [apply (Hl e); set_solver|].
    intros r Hr Hok _. apply cs_ret. exists (rs ++ [e]). split_and!; [|by rewrite fmap_app|done..|].
    + exists tl. by rewrite <- (assoc_L (++)).
    + rewrite account_view_normal by done. rewrite (fmap_app snd). simpl.
      rewrite !(fmap_app snd) in Hfit. simpl in Hfit.
      rewrite compute_balance_delta_eq by (pose proof (proj1 Hfit e.2 ltac:(set_solver)); lia).
      by apply (updates_of_row upd cp cq acs (snd <$> rs) e.2 (snd <$> tl) u r).
  - intros u x' db' s' _ (rs & [tl Hrs] & Heq & -> & -> & -> & Hu).
    assert (tl = []) as ->.
    { apply (f_equal length) in Hrs, Heq. rewrite length_app in Hrs.
      rewrite !length_fmap in Heq. destruct tl; [done|]. simpl in *. lia. }
    rewrite app_nil_r in Hrs. by subst.
Qed.

Lemma cs_update_transaction t st posted locks P o x db s
    (R : unit -> option txn -> database -> sequences -> Prop) :
  J db s -> stable o locks P -> held_at locks PNone P x db s ->
  (forall db, P db -> is_Some (transactions db !! t)) ->
  (forall locks' x' db' s', (forall l, l ∈ locks -> l ∈ locks') ->
     match posted with Some p => 0 < p | None => True end ->
     held_at locks' (PSettle t (transaction_status_to_i16 st) posted false []) P x' db' s' ->
     R tt x' db' s') ->
  cs o (storage (storage_update_transaction_status t st posted)) x db s R.
Proof.
  intros HJ0 HP Hx Ht HR. apply cs_storage, cs_bind; [done..|].
  eapply (cs_hquery J exclusive); [done|exact HP|exact Hx|apply ids_update_transaction|].
  intros db1 s1 s2 n v' HJ1 [(_ & Hlin & _) HP1] [= <- Hex].
  unfold update_transaction, TransactionId_value in *. simpl in Hex.
  destruct (Ht db1 HP1) as [r Hr]. rewrite Hr in Hex. case_decide as Hck; [|done]. simplify_eq/=.
  exists (PSettle t (transaction_status_to_i16 st) posted false []).
  rewrite filter_cons_True by (simpl; rewrite lookup_insert_eq; eauto). split_and!.
  - unfold apply_patch. simpl. f_equal. apply map_eq. intros k.
    destruct (decide (t = k)) as [<-|Hne].
    + by rewrite lookup_insert_eq, lookup_alter_eq, Hr.
    + by rewrite lookup_insert_ne, lookup_alter_ne.
  - apply locks_in_app; [done|]. split_and!; [set_solver| |set_solver].
    intros t' Ht'. apply list_elem_of_singleton in Ht' as [= ->]. eauto.
  - split; [simpl; set_solver|]. split; [set_solver|done].
  - intros x' Hx' _. apply cs_ret. eapply HR; [|apply Hck|exact Hx']. set_solver.
Qed.

Lemma cs_update_entries t st posted est locks P o x db s
    (R : nat -> option txn -> database -> sequences -> Prop) :
  J db s -> stable o locks P -> held_at locks (PSettle t st posted false []) P x db s ->
  entry_status_to_i16 est = st ->
  (forall db, P db -> is_Some (transactions db !! t)) ->
  (forall n locks' x' db' s', (forall l, l ∈ locks -> l ∈ locks') ->
     held_at locks' (PSettle t st posted true []) P x' db' s' -> R n x' db' s') ->
  cs o (storage (storage_update_entry_status_by_transaction t est)) x db s R.
Proof.
  intros HJ0 HP Hx Hst Ht HR. apply cs_storage; [done|].
  eapply (cs_hquery J exclusive); [done|exact HP|exact Hx|apply ids_update_entries|].
  intros db1 s1 s2 n v' HJ1 [(_ & Hlin & Hph) HP1] [= <- Hex].
  unfold update_entries, TransactionId_value in *. simpl in Hex. case_decide; [|done].
  simplify_eq/=. exists (PSettle t (entry_status_to_i16 est) posted true []). split_and!.
  - done.
  - apply locks_in_app; [done|]. rewrite filter_cons_True by done. split_and!; [set_solver..|].
    intros t' Ht'. apply list_elem_of_singleton in Ht' as [= ->]. auto.
  - destruct Hph as (_ & Hlt & _). rewrite filter_cons_True by done.
    split; [simpl; set_solver|]. split; [set_solver|]. set_solver.
  - intros x' Hx'. eapply HR; [|exact Hx']. set_solver.
Qed.
(** The rows of the transaction do not change any more, so the updates computed from
    the first read are those of the rows at the commit. *)
Lemma settled_items t db0 db (acs : gmap Z accounts_row) ids :
  strip <$> txn_entries t db = strip <$> txn_entries t db0 -> accounts_fixed ids acs db ->
  (forall r, r ∈ entries_of t db0 -> e_account_id r.2 ∈ ids) ->
  (item_of acs <$> (snd <$> entries_of t db0)) ≡ₚ
  (item_of (accounts db) <$> (snd <$> entries_of t db)).
Proof.
  intros He Hfix Hids. rewrite !items_stripped, He, <- !items_stripped.
  apply reflexive_eq, items_fixed. intros e Hin.
  apply list_elem_of_fmap in Hin as (r & -> & Hr). symmetry. apply Hfix. auto.
Qed.

Lemma settle_patch t st posted u db tr :
  transactions db !! t = Some tr ->
  apply_patch (PSettle t st posted true u) db =
    settle t (set_transaction_status tr st posted) st u db.
Proof.
  intros Htr. unfold settle. simpl. f_equal. apply map_eq. intros k.
  destruct (decide (t = k)) as [<-|Hne].
  - by rewrite lookup_insert_eq, lookup_alter_eq, Htr.
  - by rewrite lookup_insert_ne, lookup_alter_ne.
Qed.

Lemma settled_row_ok st posted tr :
  transaction_row_ok tr -> st = 2 \/ st = 3 ->
  match posted with Some p => 0 < p | None => True end -> (st = 2 <-> is_Some posted) ->
  transaction_row_ok (set_transaction_status tr st posted).
Proof.
  intros [(Hs & Hc & _) Hk _ _] Hst Hp Hpo. split; simpl; [|done|lia|done].
  split_and!; simpl; [lia..|done|by destruct posted].
Qed.

Lemma settle_commits t st posted cp u db0 db s (acs : gmap Z accounts_row) ids :
  J db s -> txn_fixed t (strip <$> txn_entries t db0) db -> txn_pending exclusive t db ->
  accounts_fixed ids acs db -> st = 2 \/ st = 3 -> cp = (if decide (st = 2) then 1 else 0) ->
  (st = 2 <-> is_Some posted) -> match posted with Some p => 0 < p | None => True end ->
  (forall r, r ∈ entries_of t db0 -> e_account_id r.2 ∈ ids) ->
  (forall a, a ∈ (fst <$> (fst <$> u)) -> a ∈ ids) ->
  updates_of cp (-1) (item_of acs <$> (snd <$> entries_of t db0)) u ->
  Forall (update_fits acs) u -> J (apply_patch (PSettle t st posted true u) db) s.
Proof.
  intros HJ0 [[tr Htr] He] Hp Hfix Hst Hcp Hpo Hpos Hids Hui Hu Hfit.
  rewrite (settle_patch t st posted u db tr Htr).
  eapply inv_settle; [done|exact Htr| |done|done| |done|done| |by eapply fits_fixed].
  - intros Hex. destruct (Hp Hex) as (tr' & Htr' & ?). congruence.
  - apply settled_row_ok; try done. by destruct (ck_transactions _ _ (inv_core _ _ HJ0) _ _ Htr).
  - eapply updates_of_perm; [|exact Hu]. by eapply settled_items.
Qed.

(** The statements of a settlement, once the accounts are locked. *)
Lemma cs_settle_writes {A} t status estatus posted u accts acs ids P (k : io ServiceError A)
    locks o x db s :
  let st := transaction_status_to_i16 status in
  J db s -> (forall locks, stable o locks P) -> (forall db, P db -> is_Some (transactions db !! t)) ->
  locked_phase ids acs accts locks -> st <> 1 -> (exclusive = true -> o = Some t) ->
  entry_status_to_i16 estatus = st ->
  NoDup (fst <$> (fst <$> u)) -> (forall a, a ∈ (fst <$> (fst <$> u)) -> a ∈ ids) ->
  held_at locks PNone (fun db => P db /\ accounts_fixed ids acs db) x db s ->
  (forall db s, J db s -> match posted with Some p => 0 < p | None => True end ->
     Forall (update_fits acs) u -> P db -> accounts_fixed ids acs db ->
     J (apply_patch (PSettle t st posted true u) db) s) ->
  ends J exclusive o (txn_settled t) (fun _ => True) k ->
  cs o (storage (storage_update_transaction_status t status posted);;
        storage (storage_update_entry_status_by_transaction t estatus);;
        apply_balance_updates accts u;; commit_tx;; k) x db s
    (replies (txn_settled t) (fun _ => True)).
Proof.
  intros st HJ0 HP HPt Hl Hst1 Ho Hes Hnd Hui Hx HJp Hk.
  apply cs_bind; [done|]. eapply cs_update_transaction; [done|by eapply locked_phase_stable|
    exact Hx|by intros d [? _]; apply HPt|].
  clear x db s HJ0 Hx. intros locks2 x db s Hll Hpos Hx HJ0.
  apply (locked_phase_mono _ _ _ _ locks2 Hll) in Hl.
  apply cs_bind; [done|]. eapply cs_update_entries; [done|by eapply locked_phase_stable|
    exact Hx|done|by intros d [? _]; apply HPt|].
  clear x db s HJ0 Hx. intros n locks3 x db s Hll3 Hx HJ0.
  apply (locked_phase_mono _ _ _ _ locks3 Hll3) in Hl.
  apply cs_bind; [done|]. eapply cs_mono; [done|eapply (cs_apply_balance_updates J exclusive);
    [done|..|exact Hx]; done|].
  clear x db s HJ0 Hx. intros [] x db s HJ0 (Hfit & locks4 & Hll4 & Hx) _. simpl in Hx.
  apply (locked_phase_mono _ _ _ _ locks4 Hll4) in Hl.
  eapply (cs_hcommit J exclusive); [done|by eapply locked_phase_stable|exact Hx|done| |
    eauto with fides|done].
  intros y d s2 HJ2 [_ [HPd Hfix]]. split; [by apply HJp|].
  destruct (HPt _ HPd) as [tr Htr]. eexists. simpl. rewrite lookup_alter_eq, Htr. by split.
Qed.

Lemma cs_settle_branch upd cp t txn status estatus posted posted_at label o x db s :
  let st := transaction_status_to_i16 status in
  (forall items a d u, updates_of cp (-1) items u -> small d -> small (delta_of items a) ->
     small (delta_of items a + d) ->
     updates_of cp (-1) (items ++ [(a, d)]) (upd a d u)) ->
  J db s -> entry_status_to_i16 estatus = st -> st = 2 \/ st = 3 ->
  cp = (if decide (st = 2) then 1 else 0) -> (st = 2 <-> is_Some posted) ->
  (exclusive = true -> o = Some t) ->
  held_at [] PNone (fun db => is_Some (transactions db !! t) /\ txn_pending exclusive t db) x db s ->
  cs o (settle_branch upd t txn status estatus posted posted_at label) x db s
    (replies (txn_settled t) (fun _ => True)).
Proof.
  intros st Hstep HJ0 Hes Hst Hcp Hpo Ho Hx.
  apply cs_bind; [done|]. apply cs_storage; [done|]. apply cs_bind; [done|].
  eapply (cs_hread J exclusive); [done| |exact Hx|].
  { apply stable_and; [|by apply stable_pending]. intros y d1 s1 d2 s2 _ _ Hr Ht. by apply Hr. }
  clear db s HJ0 Hx. intros db0 s HJ0 [Hx [Htr0 Hpend]] _.
  set (P := fun db => txn_fixed t (strip <$> txn_entries t db0) db /\ txn_pending exclusive t db).
  assert (forall locks, stable o locks P) as HP
    by (intros; apply stable_and; [apply stable_txn|by apply stable_pending]).
  assert (forall db, P db -> is_Some (transactions db !! t)) as HPt by (by intros d [[? _] _]).
  assert (held_at [] PNone P x db0 s) as Hx0 by done. clear Hx.
  pose proof (inv_core _ _ HJ0) as Hcore. destruct Htr0 as [tr0 Htr0].
  pose proof (core_entries_fit _ _ _ _ Hcore Htr0) as Hfits.
  apply cs_lift. intros es Hes0. simpl in Hes0. fold (entries_of t db0) in Hes0.
  rewrite try_map_entry_of_row in Hes0 by
    (intros [k e] [He _]%elem_of_entries_of; by destruct (ck_entries _ _ Hcore _ _ He)).
  injection Hes0 as <-. intros _.
  set (ids := Entry_account_id <$> (entry_view <$> entries_of t db0)).
  assert (forall r, r ∈ entries_of t db0 -> e_account_id r.2 ∈ ids) as Hids.
  { intros r Hr. unfold ids. rewrite <- list_fmap_compose. apply list_elem_of_fmap. by exists r. }
  apply cs_bind; [done|]. eapply (cs_lock_accounts J exclusive); [done|apply HP|exact Hx0|].
  clear x Hx0. intros accts acs locks x db1 s1 HJ1 Hl Hx _.
  apply cs_bind; [done|]. eapply cs_mono; [done|apply (cs_settle_updates upd cp (-1) acs);
    [done..|]|].
  { intros r Hr. apply Hl. by apply Hids. }
  intros u x' db' s' _ (-> & -> & -> & Hu) _.
  assert (forall a, a ∈ (fst <$> (fst <$> u)) -> a ∈ ids) as Hui.
  { intros a Ha. apply (uo_ids _ _ _ _ Hu) in Ha. rewrite <- !list_fmap_compose in Ha.
    apply list_elem_of_fmap in Ha as (r & -> & Hr). by apply Hids. }
  eapply (cs_settle_writes t status estatus posted u accts acs ids P); try done;
    [subst st; lia|apply Hu| |solve_ends].
  intros d s2 HJ2 Hpos Hfit [Htr Hp2] Hfix.
  by eapply (settle_commits t st posted cp u db0 d s2 acs ids).
Qed.

(** ** The settlement requests *)

Lemma cs_get_transaction t P o x db s
    (R : option Transaction -> option txn -> database -> sequences -> Prop) :
  J db s -> stable o [] P -> held_at [] PNone P x db s ->
  (forall db' s', J db' s' -> held_at [] PNone P x db' s' ->
     R (transaction_view t <$> transactions db' !! t) x db' s') ->
  cs o (storage (storage_get_transaction t)) x db s R.
Proof.
  intros HJ0 HP Hx HR. apply cs_storage; [done|]. apply cs_bind; [done|].
  eapply (cs_hread J exclusive); [done|exact HP|exact Hx|]. intros db1 s1 HJ1 Hx1 _.
  apply cs_lift. unfold select_transaction, TransactionId_value. simpl.
  destruct (transactions db1 !! t) as [tr|] eqn:Htr; simpl; intros v Hv; simplify_eq.
  - destruct (ck_transactions _ _ (inv_core _ _ HJ1) _ _ Htr) as [Hrow _ _ _ _].
    rewrite transaction_of_row_ok in Hv by done. simplify_eq/=.
    specialize (HR db1 s1 HJ1 Hx1). by rewrite Htr in HR.
  - specialize (HR db1 s1 HJ1 Hx1). by rewrite Htr in HR.
Qed.

(** The settlement is reserved to the request, unless it has been made. *)
Definition reserved o (t : Z) db : Prop := exclusive = true -> o = Some t \/ txn_settled t db.
Lemma stable_reserved o locks t : stable o locks (reserved o t).
Proof.
  intros x db s db' s' _ _ Hr Ho He. destruct (Ho He) as [|Hs]; [by left|right].
  by eapply txn_settled_rely.
Qed.

(** The answer to a settled transaction, the error, or the settlement. *)
Lemma cs_settle_request t done_status upd cp status estatus posted posted_at label name method o db s :
  let st := transaction_status_to_i16 status in
  (forall items a d u, updates_of cp (-1) items u -> small d -> small (delta_of items a) ->
     small (delta_of items a + d) ->
     updates_of cp (-1) (items ++ [(a, d)]) (upd a d u)) ->
  J db s -> entry_status_to_i16 estatus = st -> st = 2 \/ st = 3 ->
  cp = (if decide (st = 2) then 1 else 0) -> (st = 2 <-> is_Some posted) ->
  done_status <> TransactionStatus_Pending -> reserved o t db ->
  cs o (begin_tx;;
    transaction ← storage (storage_get_transaction t);
    transaction ← lift (ok_or (ServiceError_TransactionNotFound (TransactionId_value t)) transaction);
    if decide (Transaction_status transaction = done_status) then
      commit_tx;;
      counter "fides_idempotent_hits_total" [("method", method)];;
      mret (transaction_to_proto transaction)
    else if decide (Transaction_status transaction <> TransactionStatus_Pending) then
      throw (ServiceError_InvalidTransactionState (TransactionId_value t)
               (Transaction_status transaction) name)
    else settle_branch upd t transaction status estatus posted posted_at label) None db s
    (replies (txn_settled t) (fun _ => True)).
Proof.
  intros st Hstep HJ0 Hes Hst Hcp Hpo Hd Ho. apply (cs_begin J exclusive); [done|].
  intros x db1 s1 Hr HJ1 Hx1.
  apply (stable_reserved o [] t None db s db1 s1) in Ho; [|set_solver|exact (inv_core _ _ HJ0)|done].
  apply cs_bind; [done|]. eapply cs_get_transaction; [done|apply stable_reserved|by split|].
  intros db2 s2 HJ2 [Hx2 Ho2] _.
  apply cs_bind; [done|]. apply cs_lift. intros txn Htxn _.
  destruct (transactions db2 !! t) as [tr|] eqn:Htr; simpl in Htxn; [|done]. injection Htxn as <-.
  destruct (ck_transactions _ _ (inv_core _ _ HJ2) _ _ Htr) as [[_ _ Hst' _] _ _ _ _].
  assert (Transaction_status (transaction_view t tr) = TransactionStatus_Pending <-> t_status tr = 1)
    as Hpend by (rewrite transaction_view_status;
      by destruct (code_txn_status_cases _ Hst') as [[? ->]|[[? ->]|[? ->]]]; split; intros; try lia).
  destruct (decide (Transaction_status (transaction_view t tr) = done_status)) as [Hds|_].
  - eapply (cs_hcommit_read J exclusive); [done|eauto with fides..| |solve_ends].
    split; [done|]. exists tr. split; [done|]. rewrite <- Hpend. congruence.
  - destruct (decide (Transaction_status _ <> _)) as [|Hp]; [done|]. apply dec_stable in Hp.
    apply Hpend in Hp. apply (cs_settle_branch upd cp); try done.
    + intros He. destruct (Ho2 He) as [|(tr' & Htr' & ?)]; [done|congruence].
    + split; [done|]. split; [by rewrite Htr|]. intros _. by exists tr.
Qed.

Lemma cs_capture t o db s :
  J db s -> reserved o t db -> cs o (capture t) None db s (replies (txn_settled t) (fun _ => True)).
Proof.
  intros HJ0 Ho. apply cs_bind; [done|]. apply cs_lift. intros t' ->%settle_request_id_Ok _.
  apply cs_bind; [done|]. eapply (cs_local J exclusive _ None); [done..|].
  intros now db1 s1 Hr HJ1 _ _.
  apply (stable_reserved o [] t None db s db1 s1) in Ho; [|set_solver|exact (inv_core _ _ HJ0)|done].
  apply (cs_settle_request t TransactionStatus_Posted capture_update 1 TransactionStatus_Posted
    EntryStatus_Posted (Some now) now "posted" "capture" "capture"); try done.
  - apply capture_update_step.
  - by left.
Qed.

Lemma cs_void t o db s :
  J db s -> reserved o t db -> cs o (void t) None db s (replies (txn_settled t) (fun _ => True)).
Proof.
  intros HJ0 Ho. apply cs_bind; [done|]. apply cs_lift. intros t' ->%settle_request_id_Ok _.
  apply (cs_settle_request t TransactionStatus_Voided void_update 0 TransactionStatus_Voided
    EntryStatus_Voided None 0 "voided" "void" "void"); try done.
  - apply void_update_step.
  - by right.
Qed.
End settle.

Section handle.
Context `{JsonLib, PgLib, !PgLaws} (J : database -> sequences -> Prop) (exclusive : bool).
Context {HJ : LedgerInvariant J exclusive}.
Implicit Types (db : database) (s : sequences) (x : option txn) (o : option Z).
Local Abbreviation cs := (cs J exclusive).

(** ** Accounts and reads *)

Lemma cs_storage_create_account ty code scale now o x db s
    (R : Z -> option txn -> database -> sequences -> Prop) :
  J db s -> held_at [] PNone (fun _ => True) x db s -> code <> "" ->
  (forall id r x' db' s', account_row_ok r -> a_posted_balance r = 0 -> a_pending_balance r = 0 ->
     held_at [] (PAccount id r) (fun _ => True) x' db' s' -> R id x' db' s') ->
  cs o (storage (storage_create_account ty code scale now)) x db s R.
Proof.
  intros HJ0 Hx Hc HR. apply cs_storage; [done|]. apply cs_bind; [done|].
  eapply (cs_hquery J exclusive); [done| |exact Hx|apply ids_create_account|]; [done|].
  intros db1 s1 s2 id v' HJ1 [(_ & Hlin & _) _] [= <- Hex]. simpl in Hex.
  unfold insert_account, bigint, varchar, mbind, result_bind, map_err in Hex.
  case_decide; [|done]. destruct (varchar_input 16 code) as [code'|] eqn:Hcode; [|done].
  case_decide as Hck; [|done]. simplify_eq/=.
  pose proof (inv_core _ _ HJ1) as Hcore. pose proof (ck_seqs _ _ Hcore) as (Hs & _).
  exists (PAccount (accounts_id_seq s1)
    (mk_accounts_row (account_type_to_i16 ty) code' scale 0 0 0 now)). split_and!.
  - done.
  - done.
  - split; [simpl; set_solver|]. simpl. split; [|lia].
    destruct (accounts db1 !! accounts_id_seq s1) as [r|] eqn:Hr; [|done].
    destruct (ck_accounts _ _ Hcore _ _ Hr) as [_ ?]. lia.
  - intros x' Hx' _. apply cs_ret. eapply HR; [..|exact Hx']; try done.
    split; simpl; [done| |int_lia..]. eapply varchar_nonempty; [|done|done]. lia.
Qed.

Lemma cs_create_account req o db s : J db s -> cs o (create_account req) None db s anything.
Proof.
  intros HJ0. apply cs_bind; [done|]. apply cs_lift. intros ty _ _.
  case_decide as Hc; [done|]. case_decide; [done|].
  apply cs_bind; [done|]. eapply (cs_local J exclusive _ None); [done..|].
  intros now db1 s1 _ HJ1 _ _. apply (cs_begin J exclusive); [done|].
  intros x db2 s2 _ HJ2 Hx2. apply cs_bind; [done|].
  apply cs_storage_create_account; [done|by split|done|].
  intros id r x' db' s' Hok Hp Hq Hx' HJ'.
  eapply (cs_hcommit_any J exclusive); [done| |exact Hx'|done| |solve_ends]; [done|].
  intros y d s3 HJ3 [(_ & _ & (_ & Hn & Hid)) _]. by apply inv_add_account.
Qed.

Lemma cs_storage_read {A : Set} {B} (f : database -> A) (g : A -> result StorageError B) o x db s
    (R : B -> option txn -> database -> sequences -> Prop) :
  J db s -> held_at [] PNone (fun _ => True) x db s ->
  (forall b db' s', J db' s' -> held_at [] PNone (fun _ => True) x db' s' -> R b x db' s') ->
  cs o (storage (y ← query (read_stmt [] f); lift (g y))) x db s R.
Proof.
  intros HJ0 Hx HR. apply cs_storage; [done|]. apply cs_bind; [done|].
  eapply (cs_hread J exclusive); [done| |exact Hx|]; [done|]. intros db1 s1 HJ1 Hx1 _.
  apply cs_lift. intros b _. by apply HR.
Qed.

Lemma cs_get_account id o db s : J db s -> cs o (get_account id) None db s anything.
Proof.
  intros HJ0. apply cs_bind; [done|]. apply cs_lift. intros a _ _.
  apply (cs_begin J exclusive); [done|]. intros x db1 s1 _ HJ1 Hx1.
  apply cs_bind; [done|]. apply cs_storage_read; [done|by split|]. intros acct db2 s2 HJ2 Hx2 _.
  apply cs_bind; [done|]. apply cs_lift. intros acct' _ _.
  eapply (cs_hcommit_any J exclusive); [done| |exact Hx2|done| |solve_ends]; [done|].
  by intros.
Qed.

Lemma cs_get_entries id o db s : J db s -> cs o (get_entries id) None db s anything.
Proof.
  intros HJ0. apply cs_bind; [done|]. apply cs_lift. intros a _ _.
  apply (cs_begin J exclusive); [done|]. intros x db1 s1 _ HJ1 Hx1.
  apply cs_bind; [done|]. apply cs_storage_read; [done|by split|]. intros acct db2 s2 HJ2 Hx2 _.
  apply cs_bind; [done|]. apply cs_lift. intros acct' _ _.
  apply cs_bind; [done|]. apply cs_storage_read; [done|done|]. intros es db3 s3 HJ3 Hx3 _.
  eapply (cs_hcommit_any J exclusive); [done| |exact Hx3|done| |solve_ends]; [done|].
  by intros.
Qed.

Lemma cs_get_balance id o db s : J db s -> cs o (get_balance id) None db s anything.
Proof.
  intros HJ0. apply cs_bind; [done|]. apply cs_lift. intros a _ _.
  apply cs_bind; [done|]. eapply (cs_local J exclusive _ None); [done..|].
  intros b db1 s1 _ HJ1 _ _. apply cs_bind; [done|]. by apply cs_lift.
Qed.

(** ** Every request *)

(** What a successful answer says of the committed tables: the transaction of an
    authorization is recorded under its key, that of a settlement is settled. *)
Definition answer_holds (req : request) (resp : response) db : Prop :=
  match req, resp with
  | Authorize a, AuthorizedResponse b =>
      txn_keyed (au_idempotency_key a) (pt_id (ar_transaction b)) db
  | Capture t, _ | Void t, _ => txn_settled t db
  | _, _ => True
  end.
Lemma answer_holds_rely req resp o x db s db' s' :
  rely o x db s db' s' -> answer_holds req resp db -> answer_holds req resp db'.
Proof.
  intros Hr. destruct req, resp; simpl; try done;
    eauto using txn_keyed_rely, txn_settled_rely.
Qed.

(** A request that settles a transaction has it reserved. *)
Definition reserves o (req : request) db : Prop :=
  forall t, settles req = Some t -> reserved exclusive o t db.

Lemma cs_handle req o db s :
  J db s -> request_valid req -> reserves o req db ->
  cs o (handle req) None db s (fun resp _ db _ => answer_holds req resp db).
Proof.
  intros HJ0 Hv Ho. assert (forall A (f : A -> response) (p : io ServiceError A)
      (R : A -> option txn -> database -> sequences -> Prop),
    cs o p None db s R -> (forall a x db s, R a x db s -> answer_holds req (f a) db) ->
    cs o (y ← p; mret (f y)) None db s (fun resp _ db _ => answer_holds req resp db)) as Hret.
  { intros A f p R Hp HR. apply cs_bind; [done|]. eapply cs_mono; [done|exact Hp|].
    intros a x db' s' _ Ha _. apply cs_ret. by eapply HR. }
  destruct req as [req|id|id|req|t|t|id]; eapply Hret.
  - by apply cs_create_account.
  - done.
  - by apply cs_get_account.
  - done.
  - by apply cs_get_balance.
  - done.
  - by apply (cs_authorize J exclusive).
  - done.
  - apply (cs_capture J exclusive); [done|]. by apply Ho.
  - by intros a x d s' [? _].
  - apply (cs_void J exclusive); [done|]. by apply Ho.
  - by intros a x d s' [? _].
  - by apply cs_get_entries.
  - done.
Qed.
End handle.
