(* ===== verification/Soundness.v ===== *)
(** * Soundness: the logic of interference holds of the interleaving semantics

    In every reachable configuration the committed tables satisfy the invariant, the
    rest of every task is safe, and the open transactions are pairwise compatible. *)

From S2P Require Import Prelude.
From S2P Require Import Money Accounts Transactions Entries Validation.
From S2P Require Import StorageErrors Schema Cache Effects Triples Postgres.
From S2P Require Import ServiceErrors Ledger Invariant Updates PostgresSpecs LedgerSpecs.
From S2P Require Import Preserve Handlers HandlerSpecs AuthorizeSpec SettleSpec System.
From S2P Require Import Safety Locking Commits Concurrent Deadlock Isolation Interference.
From S2P Require Import SafeStatements SafeHandlers.
Local Open Scope Z_scope.

Section soundness.
Context `{JsonLib, PgLib, !PgLaws} (J : database -> sequences -> Prop) (exclusive : bool).
Context {HJ : LedgerInvariant J exclusive}.
Implicit Types (db : database) (s : sequences) (c : config) (ss : session).

(** ** The invariant of the configurations *)

(** The settlement that is reserved to a task, until it has ended; [o] is what was
    reserved to it when it arrived. *)
Definition owner (o : option Z) ss : option Z :=
  if finished ss then match ss_txn ss with None => None | Some _ => o end else o.

(** A successful answer holds of the committed tables. *)
Definition answer_post (req : request) (r : result ServiceError response) (x : option txn) db s
  : Prop :=
  match r with Ok resp => answer_holds req resp db | Err _ => True end.
Lemma answer_post_rely req o x db s db' s' y r :
  rely o x db s db' s' -> answer_post req r y db s -> answer_post req r y db' s'.
Proof. intros Hr. destruct r; simpl; [by eapply answer_holds_rely|done]. Qed.

(** Rows that are not committed have ids that the sequences have passed. *)
Definition own_below (x : option txn) db s : Prop :=
  (forall a, accounts db !! a = None -> is_Some (accounts (own_of x) !! a) ->
     a < accounts_id_seq s) /\
  (forall t, transactions db !! t = None -> is_Some (transactions (own_of x) !! t) ->
     t < transactions_id_seq s) /\
  (forall k, entries db !! k = None -> is_Some (entries (own_of x) !! k) ->
     k < entries_id_seq s).

Record session_safe (σ : store) o ss : Prop := {
  sn_safe : csafe J exclusive (owner o ss) (ss_prog ss) (ss_txn ss) (st_db σ) (st_seqs σ)
    (answer_post (ss_req ss));
  sn_below : own_below (ss_txn ss) (st_db σ) (st_seqs σ);
  sn_owner t : o = Some t -> exclusive = true /\ settles (ss_req ss) = Some t
}.

Definition tasks_compat (σ : store) o ss o' ss' : Prop :=
  compat exclusive (owner o ss) (ss_txn ss) (owner o' ss') (ss_txn ss') (st_db σ).

(** [os] are the reservations, in the order of the tasks. *)
Record safe_config (os : list (option Z)) c : Prop := {
  sc_tables : J (st_db (c_store c)) (st_seqs (c_store c));
  sc_length : length os = length (c_sessions c);
  sc_sessions i o ss : os !! i = Some o -> c_sessions c !! i = Some ss ->
    session_safe (c_store c) o ss;
  sc_compat i j o o' ss ss' : i <> j -> os !! i = Some o -> os !! j = Some o' ->
    c_sessions c !! i = Some ss -> c_sessions c !! j = Some ss' ->
    tasks_compat (c_store c) o ss o' ss'
}.

Lemma owner_cases o ss : owner o ss = o \/ owner o ss = None.
Proof. unfold owner. destruct (finished ss), (ss_txn ss); auto. Qed.
Lemma owner_mode σ o ss : session_safe σ o ss -> is_Some (owner o ss) -> exclusive = true.
Proof.
  intros Hs [t Ht]. destruct (owner_cases o ss) as [Ho|Ho]; [|congruence].
  apply (sn_owner _ _ _ Hs t). congruence.
Qed.

(** A task outside a transaction. *)
Lemma compat_idle o o2 x2 db :
  (forall t, o = Some t -> o2 <> Some t) -> (is_Some o2 -> exclusive = true) ->
  compat exclusive o None o2 x2 db.
Proof.
  intros Ho Hm. split; [|done|done|..].
  - intros l Hl. by apply elem_of_nil in Hl.
  - intros k _ [r Hr]. simpl in Hr. by rewrite lookup_empty in Hr.
  - intros k _ [r Hr]. simpl in Hr. by rewrite lookup_empty in Hr.
  - intros k _ [r Hr]. simpl in Hr. by rewrite lookup_empty in Hr.
Qed.
Lemma compat_idle_r o o2 x2 db :
  (forall t, o = Some t -> o2 <> Some t) -> (is_Some o -> exclusive = true) ->
  compat exclusive o2 x2 o None db.
Proof.
  intros Ho Hm. split; [|naive_solver|done|..]; simpl.
  - intros l _ Hl. by apply elem_of_nil in Hl.
  - intros k _ _. apply lookup_empty.
  - intros k _ _. apply lookup_empty.
  - intros k _ _. apply lookup_empty.
Qed.

Lemma compat_none o x db : compat exclusive o x None None db.
Proof. by apply compat_idle_r. Qed.

(** What a step leaves unchanged for a task that does nothing. *)
Lemma guarantee_rows o x db s db' s' :
  guarantee exclusive o x db s db' s' -> seqs_le s s' /\
  (forall a, accounts db' !! a = None -> accounts db !! a = None) /\
  (forall t, transactions db' !! t = None -> transactions db !! t = None) /\
  (forall k, entries db' !! k = None -> entries db !! k = None).
Proof.
  intros Hg. destruct (Hg None None (compat_none o x db)) as [Hs Ha _ Ht _ _ He _ _ _ _ _ _].
  split_and!; [done|..]; intros i Hn; apply eq_None_not_Some; intros Hi.
  - destruct Hi as [r Hr]. destruct (Ha _ _ Hr) as (r' & ? & _). congruence.
  - apply Ht in Hi as [??]. congruence.
  - apply He in Hi as [??]. congruence.
Qed.

Lemma own_below_rows x db s db' s' :
  own_below x db s -> seqs_le s s' ->
  (forall a, accounts db' !! a = None -> accounts db !! a = None) ->
  (forall t, transactions db' !! t = None -> transactions db !! t = None) ->
  (forall k, entries db' !! k = None -> entries db !! k = None) -> own_below x db' s'.
Proof.
  intros (Ha & Ht & He) (? & ? & ?) Ha' Ht' He'. split_and!; intros i Hn Hi.
  - apply Ha in Hi; [lia|auto].
  - apply Ht in Hi; [lia|auto].
  - apply He in Hi; [lia|auto].
Qed.

Lemma own_below_grows x db s x' s' :
  own_below x db s -> own_grows x db s x' s' -> seqs_le s s' -> own_below x' db s'.
Proof.
  intros (Ha & Ht & He) (Ha' & Ht' & He') (? & ? & ?). split_and!; intros i Hn Hi.
  - apply Ha' in Hi as [Hi|]; [|lia|done]. apply Ha in Hi; [lia|done].
  - apply Ht' in Hi as [Hi|]; [|lia|done]. apply Ht in Hi; [lia|done].
  - apply He' in Hi as [Hi|]; [|lia|done]. apply He in Hi; [lia|done].
Qed.

Lemma compat_rows o x o2 x2 db db' :
  compat exclusive o x o2 x2 db ->
  (forall a, accounts db' !! a = None -> accounts db !! a = None) ->
  (forall t, transactions db' !! t = None -> transactions db !! t = None) ->
  (forall k, entries db' !! k = None -> entries db !! k = None) ->
  compat exclusive o x o2 x2 db'.
Proof. intros [????? ?] Ha Ht He. split; auto. Qed.

(** A task that has grown stays compatible with the others: its new rows have ids
    that nobody else has seen. *)
Lemma compat_grows o x o2 x2 o' x' db s s' :
  compat exclusive o x o2 x2 db -> compat exclusive o2 x2 o x db ->
  own_below x2 db s -> own_grows x db s x' s' ->
  (forall l, l ∈ locks_of x' -> l ∉ locks_of x2) -> o' = o \/ o' = None ->
  compat exclusive o' x' o2 x2 db /\ compat exclusive o2 x2 o' x' db.
Proof.
  intros [_ Ho Hm Ha Ht He] [_ Ho2 Hm2 Ha2 Ht2 He2] (Ba & Bt & Be) (Ga & Gt & Ge) Hl Hoo.
  assert (forall a, accounts db !! a = None -> is_Some (accounts (own_of x') !! a) ->
    accounts (own_of x2) !! a = None) as Na.
  { intros a Hn [Hi|Hi]%Ga; [by apply Ha| |done]. apply eq_None_not_Some. intros H2.
    apply Ba in H2; [lia|done]. }
  assert (forall a, transactions db !! a = None -> is_Some (transactions (own_of x') !! a) ->
    transactions (own_of x2) !! a = None) as Nt.
  { intros a Hn [Hi|Hi]%Gt; [by apply Ht| |done]. apply eq_None_not_Some. intros H2.
    apply Bt in H2; [lia|done]. }
  assert (forall a, entries db !! a = None -> is_Some (entries (own_of x') !! a) ->
    entries (own_of x2) !! a = None) as Ne.
  { intros a Hn [Hi|Hi]%Ge; [by apply He| |done]. apply eq_None_not_Some. intros H2.
    apply Be in H2; [lia|done]. }
  split; split; try done.
  - intros t ->. destruct Hoo as [<-|?]; [|done]. by apply Ho.
  - intros l Hl2 Hl'. by apply (Hl l).
  - intros t -> ->. destruct Hoo as [<-|?]; [|done]. by apply (Ho2 t).
  - intros Hs. destruct Hoo as [->| ->]; [auto|by destruct Hs].
  - intros a Hn H2. apply eq_None_not_Some. intros Hx.
    rewrite Na in H2 by done. by destruct H2.
  - intros a Hn H2. apply eq_None_not_Some. intros Hx.
    rewrite Nt in H2 by done. by destruct H2.
  - intros a Hn H2. apply eq_None_not_Some. intros Hx.
    rewrite Ne in H2 by done. by destruct H2.
Qed.

Lemma owner_advance o req p x x' k :
  finished (mk_session req p x) = false ->
  owner o (mk_session req k x') = owner o (mk_session req p x) \/
  owner o (mk_session req k x') = None.
Proof.
  unfold owner. simpl. intros ->. destruct (finished _); [|by left].
  destruct x'; [by left|by right].
Qed.

(** A program that has ended is safe for any owner. *)
Lemma csafe_owner {A} o o' (p : prog A) x db s Q :
  o' = o \/ (forall X (e : eff X) k, p <> Vis e k) ->
  csafe J exclusive o p x db s Q -> csafe J exclusive o' p x db s Q.
Proof.
  intros [->|Hp] Hs; [done|]. destruct p as [a|X e k|]; [done|by destruct (Hp X e k)|done].
Qed.

(** ** Every step keeps it *)

(** The effect of a task. *)
Lemma advance_safe os c i now f o ss σ ss' :
  safe_config os c -> os !! i = Some o -> c_sessions c !! i = Some ss ->
  advance now f (c_store c) ss = Some (σ, ss') ->
  J (st_db σ) (st_seqs σ) /\
  guarantee exclusive (owner o ss) (ss_txn ss) (st_db (c_store c)) (st_seqs (c_store c))
    (st_db σ) (st_seqs σ) /\
  own_grows (ss_txn ss) (st_db (c_store c)) (st_seqs (c_store c)) (ss_txn ss') (st_seqs σ) /\
  csafe J exclusive (owner o ss') (ss_prog ss') (ss_txn ss') (st_db σ) (st_seqs σ)
    (answer_post (ss_req ss')) /\
  (owner o ss' = owner o ss \/ owner o ss' = None) /\ ss_req ss' = ss_req ss.
Proof.
  intros [HJ0 _ Hs _] Ho Hi Ha. destruct (Hs i o ss Ho Hi) as [Hsafe _ _].
  destruct ss as [req p x]. unfold advance in Ha. simpl in *.
  destruct p as [a|X e k|]; [done| |done]. simpl in Hsafe.
  specialize (Hsafe _ _ (rely_refl _ _ _ _) HJ0 (c_store c) now f eq_refl eq_refl).
  destruct (step e (to_world (c_store c) x now f)) as [r w] eqn:Hst. simplify_eq/=.
  destruct Hsafe as (HJ1 & Hg & Hgr & Hk). split_and!; try done.
  - eapply csafe_owner; [|exact Hk]. unfold owner. simpl.
    destruct (k r) as [a|Y e' k'|]; simpl; [by right|by left|by right].
  - by apply owner_advance.
Qed.

Lemma safe_task_run os c i now f ss σ ss' :
  safe_config os c -> c_sessions c !! i = Some ss ->
  advance now f (c_store c) ss = Some (σ, ss') ->
  config_ok (mk_config σ (<[i := ss']> (c_sessions c))) ->
  safe_config os (mk_config σ (<[i := ss']> (c_sessions c))).
Proof.
  intros Hc Hi Ha Hok.
  assert (i < length (c_sessions c))%nat as Hlen by (by eapply lookup_lt_Some).
  destruct (lookup_lt_is_Some_2 os i) as [o Hoi]; [by rewrite (sc_length _ _ Hc)|].
  destruct (advance_safe _ _ _ _ _ _ _ _ _ Hc Hoi Hi Ha) as (HJ1 & Hg & Hgr & Hsafe & Ho & Hreq).
  destruct Hc as [HJ0 Hlo Hs Hcp]. destruct (guarantee_rows _ _ _ _ _ _ Hg) as (Hle & Ra & Rt & Re).
  destruct (Hs i o ss Hoi Hi) as [_ Hbi Hsoi].
  assert (forall j oj sj, j <> i -> os !! j = Some oj -> c_sessions c !! j = Some sj ->
    tasks_compat σ o ss' oj sj /\ tasks_compat σ oj sj o ss') as Hnew.
  { intros j oj sj Hne Hoj Hj. destruct (Hs j oj sj Hoj Hj) as [_ Hbj _].
    destruct (compat_grows _ _ _ _ (owner o ss') (ss_txn ss') _ _ _
      (Hcp i j o oj ss sj ltac:(done) Hoi Hoj Hi Hj)
      (Hcp j i oj o sj ss Hne Hoj Hoi Hj Hi) Hbj Hgr) as [H2 H3]; [|done|].
    - intros l Hl. apply (co_disjoint _ Hok i j ss' sj l); [done|..|done].
      + simpl. by apply list_lookup_insert_eq.
      + simpl. by rewrite list_lookup_insert_ne.
    - split; by eapply compat_rows. }
  split; simpl; [done|by rewrite length_insert|..].
  - intros j oj sj Hoj. rewrite list_lookup_insert_Some. intros [(<- & <- & _)|[Hne Hj]].
    + simplify_eq. split; [done| |by rewrite Hreq].
      eapply own_below_rows; [by eapply own_below_grows| |done..]. done.
    + destruct (Hs j oj sj Hoj Hj) as [Hsj Hbj Hso].
      assert (rely (owner oj sj) (ss_txn sj) (st_db (c_store c)) (st_seqs (c_store c))
        (st_db σ) (st_seqs σ)) as Hr by (apply Hg; by apply (Hcp i j)).
      split; [|by eapply own_below_rows|done].
      eapply csafe_rely; [|exact Hr|exact Hsj]. intros a. by eapply answer_post_rely.
  - intros j k oj ok sj sk Hne Hoj Hok'. rewrite !list_lookup_insert_Some.
    intros [(<- & <- & _)|[Hnj Hj]] [(<- & <- & _)|[Hnk Hk]]; simplify_eq; [by eapply Hnew..|].
    eapply compat_rows; [by apply (Hcp j k)|done..].
Qed.

Lemma safe_task_drop os c i ss :
  safe_config os c -> c_sessions c !! i = Some ss -> finished ss = true ->
  safe_config os (mk_config (c_store c)
    (<[i := mk_session (ss_req ss) (ss_prog ss) None]> (c_sessions c))).
Proof.
  intros [HJ0 Hlo Hs Hcp] Hi Hf. set (ss' := mk_session _ _ None).
  assert (forall o, owner o ss' = None) as Ho
    by (intros; unfold owner, finished in *; simpl; by destruct (ss_prog ss)).
  assert (forall x db s, own_grows x db s None s) as Hgr by (intros; apply own_grows_none).
  assert (forall j o oj sj, j <> i -> os !! i = Some o -> os !! j = Some oj ->
    c_sessions c !! j = Some sj ->
    tasks_compat (c_store c) o ss' oj sj /\ tasks_compat (c_store c) oj sj o ss') as Hnew.
  { intros j o oj sj Hne Hoi Hoj Hj. destruct (Hs j oj sj Hoj Hj) as [_ Hbj _].
    eapply (compat_grows _ _ _ _ _ _ _ _ _ (Hcp i j o oj ss sj ltac:(done) Hoi Hoj Hi Hj)
      (Hcp j i oj o sj ss Hne Hoj Hoi Hj Hi) Hbj (Hgr _ _ _)); [simpl; set_solver|by right]. }
  split; simpl; [done|by rewrite length_insert|..].
  - intros j oj sj Hoj. rewrite list_lookup_insert_Some.
    intros [(<- & <- & _)|[Hne Hj]]; [|by apply (Hs j)].
    destruct (Hs i oj ss Hoj Hi) as [Hsafe Hb Hso]. split; [| |done].
    + subst ss'. unfold finished in Hf. simpl in *. by destruct (ss_prog ss).
    + split_and!; intros k _ [r Hr]; simpl in Hr; by rewrite lookup_empty in Hr.
  - intros j k oj ok sj sk Hne Hoj Hok. rewrite !list_lookup_insert_Some.
    intros [(<- & <- & _)|[Hnj Hj]] [(<- & <- & _)|[Hnk Hk]]; [done|by eapply Hnew..|].
    by apply (Hcp j k).
Qed.

(** The reservation of a request that arrives: its transaction, if no running task has
    it reserved. *)
Lemma arrive_reservation os c req :
  safe_config os c -> (exclusive = true -> no_overlap req c) ->
  exists o, reserves exclusive o req (st_db (c_store c)) /\
    (forall t, o = Some t -> exclusive = true /\ settles req = Some t) /\
    forall j oj sj t, os !! j = Some oj -> c_sessions c !! j = Some sj ->
      o = Some t -> owner oj sj <> Some t.
Proof.
  intros Hc Hno. assert (exclusive <> true \/ exclusive = true) as [He|He] by (destruct exclusive; auto).
  { exists None. split_and!; try done. by intros t _ ?. }
  assert (settles req = None \/ exists t, settles req = Some t) as [Hst|[t Hst]]
    by (destruct (settles req); eauto).
  { exists None. split_and!; try done. intros t. by rewrite Hst. }
  destruct (Hno He t Hst) as [Hs|Hfree].
  - exists None. split_and!; try done. intros t'. rewrite Hst. intros [= <-] _. by right.
  - exists (Some t). split_and!.
    + intros t'. rewrite Hst. intros [= <-] _. by left.
    + intros t' [= <-]. by rewrite Hst.
    + intros j oj sj t' Hoj Hj [= <-] How.
      destruct (owner_cases oj sj) as [Heq|Heq]; [|congruence]. rewrite Heq in How.
      destruct (sn_owner _ _ _ (sc_sessions _ _ Hc _ _ _ Hoj Hj) t How) as [_ Hsj].
      destruct (Hfree sj) as [Hf Hx]; [by eapply list_elem_of_lookup_2|done|].
      unfold owner in Heq. rewrite Hf, Hx in Heq. congruence.
Qed.

Lemma safe_arrive os c req :
  safe_config os c -> request_valid req -> (exclusive = true -> no_overlap req c) ->
  exists o, safe_config (os ++ [o]) (mk_config (c_store c) (c_sessions c ++ [start req])).
Proof.
  intros Hc Hv Hno. destruct (arrive_reservation _ _ _ Hc Hno) as (o & Hres & Hown & Hfree).
  exists o. destruct Hc as [HJ0 Hlo Hs Hcp].
  assert (session_safe (c_store c) o (start req)) as Hnew.
  { split; [|split_and!; intros k _ [r Hr]; simpl in Hr; by rewrite lookup_empty in Hr|done].
    simpl. eapply csafe_owner; [|exact (cs_handle J exclusive req o _ _ HJ0 Hv Hres)].
    unfold owner, start. simpl. destruct (handle req); simpl; [by right|by left|by right]. }
  assert (forall t, owner o (start req) = Some t -> o = Some t) as Hoo
    by (intros t; destruct (owner_cases o (start req)); congruence).
  assert (forall j oj sj, os !! j = Some oj -> c_sessions c !! j = Some sj ->
    tasks_compat (c_store c) o (start req) oj sj /\ tasks_compat (c_store c) oj sj o (start req))
    as Hcn.
  { intros j oj sj Hoj Hj. split; [apply compat_idle|apply compat_idle_r]; eauto using owner_mode. }
  split; simpl; [done|by rewrite !length_app, Hlo|..].
  - intros j oj sj [[Hlt Hoj]|[-> <-]]%lookup_snoc_Some [[Hlt' Hj]|[He <-]]%lookup_snoc_Some;
      [by apply (Hs j)|lia|lia|done].
  - intros j k oj ok sj sk Hne
      [[Hlt Hoj]|[-> <-]]%lookup_snoc_Some [[Hlt2 Hok]|[-> <-]]%lookup_snoc_Some
      [[Hlt3 Hj]|[He <-]]%lookup_snoc_Some [[Hlt4 Hk]|[He2 <-]]%lookup_snoc_Some; try lia;
      [by apply (Hcp j k)|by eapply Hcn..].
Qed.

Lemma conc_reachable_safe c : J empty_database initial_sequences ->
  conc_reachable exclusive c -> exists os, safe_config os c.
Proof.
  intros HJ0 Hr. apply (rtc_ind_r (R := conc_step exclusive)
    (fun c => (exists os, safe_config os c) /\ config_ok c) initial_config);
    [| |exact Hr].
  - split; [|by split; [constructor|]]. exists []. split; [done|done|..]; simpl; intros;
      by rewrite lookup_nil in *.
  - intros c1 c2 Hr1 Hs [[os IH] Hok]. split; [|eapply conc_reachable_ok; by eapply rtc_r].
    destruct Hs as [req c0 Hv Hno|c0 c' Ht|now c0 w' Hw].
    + destruct (safe_arrive _ _ _ IH Hv Hno) as [o Ho]. eauto.
    + pose proof (task_step_ok _ _ _ Hok Ht) as Hok'.
      exists os. destruct Ht as [i now f c0 ss σ ss' Hi _ _ Ha|i c0 ss Hi Hf _].
      * by eapply safe_task_run.
      * by eapply safe_task_drop.
    + apply serve_start_effect in Hw as (Hdb & Hsq & _). simpl in Hdb, Hsq. exists [].
      split; simpl; [by rewrite Hdb, Hsq; apply IH|done|..]; intros; by rewrite lookup_nil in *.
Qed.

(** What a task that has ended well has answered holds of the tables. *)
Lemma answer_safe os c i ss resp :
  safe_config os c -> c_sessions c !! i = Some ss -> ss_prog ss = Ret (Ok resp) ->
  answer_holds (ss_req ss) resp (st_db (c_store c)).
Proof.
  intros Hc Hi Hp. destruct (lookup_lt_is_Some_2 os i) as [o Ho].
  { rewrite (sc_length _ _ Hc). by eapply lookup_lt_Some. }
  pose proof (sn_safe _ _ _ (sc_sessions _ _ Hc _ _ _ Ho Hi)) as Hs. by rewrite Hp in Hs.
Qed.

(** What a step of a task leaves to the outside: rows stay, with their keys, and the
    tasks answer the same requests. *)
Lemma task_rely os c c' :
  safe_config os c -> task_step false c c' ->
  rely None None (st_db (c_store c)) (st_seqs (c_store c)) (st_db (c_store c')) (st_seqs (c_store c')) /\
  ss_req <$> c_sessions c' = ss_req <$> c_sessions c.
Proof.
  intros Hc Ht. destruct Ht as [i now f c ss σ ss' Hi _ _ Ha|i c ss Hi Hf _]; simpl.
  - destruct (lookup_lt_is_Some_2 os i) as [o Ho].
    { rewrite (sc_length _ _ Hc). by eapply lookup_lt_Some. }
    destruct (advance_safe _ _ _ _ _ _ _ _ _ Hc Ho Hi Ha) as (_ & Hg & _ & _ & _ & Hreq).
    split; [by apply Hg, compat_none|].
    rewrite list_fmap_insert, list_insert_id; [done|]. by rewrite list_lookup_fmap, Hi, Hreq.
  - split; [apply rely_refl|].
    rewrite list_fmap_insert, list_insert_id; [done|]. by rewrite list_lookup_fmap, Hi.
Qed.
End soundness.
