(* ===== verification/ConcurrentCorrect.v ===== *)
(** * ConcurrentCorrect: requests that interleave

    What holds in every interleaving of requests, with failures of the database and
    restarts at any point, and the interleavings that break what holds of requests
    one after the other. *)

From S2P Require Import Prelude.
From S2P Require Import Money Accounts Transactions Entries Validation.
From S2P Require Import StorageErrors Schema Cache Effects Triples Postgres.
From S2P Require Import ServiceErrors Ledger Invariant Updates PostgresSpecs LedgerSpecs.
From S2P Require Import Preserve Handlers HandlerSpecs AuthorizeSpec SettleSpec System.
From S2P Require Import Safety Concrete Locking Commits Concurrent Deadlock Isolation Interference.
From S2P Require Import SafeStatements SafeHandlers Soundness.
Local Open Scope Z_scope.

(** ** Schedules *)

Section schedules.
Context `{JsonLib, PgLib}.

(** A request arrives, then the tasks take turns. *)
Definition play (script : list (request * list nat)) (c : config) : config :=
  foldl (fun c '(req, sched) => turns 1000 sched (arrive req c)) c script.

(** No request of the script settles a pending transaction that a running task
    settles. *)
Definition settledb (t : Z) (db : database) : bool :=
  match transactions db !! t with Some r => negb (bool_decide (t_status r = 1)) | None => false end.
Definition no_overlapb (req : request) (c : config) : bool :=
  match settles req with
  | None => true
  | Some t => settledb t (st_db (c_store c)) ||
      forallb (fun s => negb (bool_decide (settles (ss_req s) = Some t)) ||
                        finished s && bool_decide (ss_txn s = None)) (c_sessions c)
  end.
Fixpoint disciplined (script : list (request * list nat)) (c : config) : bool :=
  match script with
  | [] => true
  | (req, sched) :: script =>
      no_overlapb req c && disciplined script (turns 1000 sched (arrive req c))
  end.

Lemma no_overlapb_spec req c : no_overlapb req c = true -> no_overlap req c.
Proof.
  unfold no_overlapb, no_overlap. intros Hb t Ht. rewrite Ht in Hb.
  apply orb_true_iff in Hb as [Hb|Hb]; [left|right].
  - unfold settledb in Hb. destruct (transactions _ !! t) as [r|] eqn:Hr; [|done].
    exists r. split; [done|]. by apply negb_true_iff, bool_decide_eq_false in Hb.
  - intros s Hs Heq. rewrite forallb_forall in Hb. apply list_elem_of_In, Hb in Hs.
    rewrite bool_decide_true in Hs by done.
    apply andb_true_iff in Hs as [Hf Hx]. by apply bool_decide_eq_true in Hx.
Qed.

Lemma play_steps script (exclusive : bool) c :
  Forall request_valid script.*1 -> (exclusive = true -> disciplined script c = true) ->
  rtc (conc_step exclusive) c (play script c).
Proof.
  revert c. induction script as [|[req sched] script IH]; intros c Hv Hd; [done|].
  apply Forall_cons in Hv as [Hr Hv]. simpl in *.
  eapply rtc_l; [apply (conc_arrive _ req); [done|]|].
  - intros He. apply no_overlapb_spec. by apply Hd, andb_true_iff in He as [? _].
  - etrans; [eapply (task_steps_conc true), turns_steps|]. apply IH; [done|].
    intros He. by apply Hd, andb_true_iff in He as [_ ?].
Qed.

(** The requests one after the other, the first of them as task [i]. *)
Fixpoint one_by_one (i : nat) (reqs : list request) : list (request * list nat) :=
  match reqs with
  | [] => []
  | req :: reqs => (req, replicate 60 i) :: one_by_one (S i) reqs
  end.

(** Posted and pending balance of an account, in the tables and in the cache. *)
Definition db_balance (a : Z) (c : config) : option (Z * Z) :=
  (fun r => (a_posted_balance r, a_pending_balance r)) <$> accounts (st_db (c_store c)) !! a.
Definition cache_balance (a : Z) (c : config) : option (Z * Z) :=
  (fun b => (cached_posted b, cached_pending b)) <$> st_cache (c_store c) !! a.

(** The task has answered and dropped its transaction handle. *)
Definition answered (s : session) : Prop :=
  exists r, ss_prog s = Ret r /\ ss_txn s = None.
Definition answeredb (s : session) : bool :=
  match ss_prog s, ss_txn s with Ret _, None => true | _, _ => false end.
Lemma all_answered l : forallb answeredb l = true -> Forall answered l.
Proof.
  rewrite forallb_forall, Forall_forall. intros Hl s Hs. apply list_elem_of_In, Hl in Hs.
  unfold answeredb, answered in *. destruct (ss_prog s) as [r| |]; [|done|done].
  destruct (ss_txn s); [done|]. by exists r.
Qed.
End schedules.

(** ** Every interleaving *)

Section interleavings.
Context `{JsonLib, PgLib, !PgLaws}.
Implicit Types (c : config).

Lemma initial_racing_ok : racing_ok empty_database initial_sequences.
Proof.
  split; [by apply db_ok_parts, initial_db_ok|]. unfold conserved, ledger_total. simpl.
  by rewrite !map_Zsum_empty.
Qed.

Lemma reachable_any exclusive c : conc_reachable exclusive c -> conc_reachable false c.
Proof.
  apply rtc_congruence with (f := id). intros c1 c2 [req c0 Hv _|c0 c0' Ht|now c0 w' Hw];
    [by apply conc_arrive|by apply conc_task|by eapply conc_restart].
Qed.

(** C7.  Requests that interleave: as long as clients do not send two settlements of the
    same pending transaction at the same time, the committed tables satisfy the full ledger
    invariant after every step of every task - balances are the sums of the entries,
    transactions are balanced, rows are valid and refer to existing rows - whatever the
    order of the steps, the failures of the database and the restarts. *)
Theorem concurrent_ledger_invariant c :
  conc_reachable true c -> db_ok (st_db (c_store c)) (st_seqs (c_store c)).
Proof.
  intros Hr. destruct (conc_reachable_safe db_ok true c initial_db_ok Hr) as [os Hc].
  exact (sc_tables _ _ _ _ Hc).
Qed.

(** C8.  Requests that interleave without any restriction, also two settlements of the
    same transaction: no idempotency key is recorded twice, every transaction has
    entries on both sides that add up to the same amount, every entry has the status of
    its transaction and an existing account, and the balances of the debit-normal
    accounts add up to those of the credit-normal accounts, posted and pending. *)
Theorem interleavings_conserve c :
  conc_reachable false c ->
  let db := st_db (c_store c) in
  (forall t1 t2 r1 r2, transactions db !! t1 = Some r1 -> transactions db !! t2 = Some r2 ->
     t_idempotency_key r1 = t_idempotency_key r2 -> t1 = t2) /\
  (forall t r, transactions db !! t = Some r ->
     txn_total EntryType_Debit t (entries db) = txn_total EntryType_Credit t (entries db)) /\
  (forall k e, entries db !! k = Some e -> is_Some (accounts db !! e_account_id e) /\
     exists r, transactions db !! e_transaction_id e = Some r /\ t_status r = e_status e) /\
  ledger_total a_posted_balance (accounts db) = 0 /\
  ledger_total a_pending_balance (accounts db) = 0.
Proof.
  intros Hr db. destruct (conc_reachable_safe racing_ok false c initial_racing_ok Hr) as [os Hc].
  destruct (sc_tables _ _ _ _ Hc) as [[_ Ht He Hk _] [Hp Hq]].
  split_and!; try done.
  - intros t r Htr. by destruct (Ht _ _ Htr).
  - intros k e Hke. by destruct (He _ _ Hke).
Qed.

(** C9.  No deadlock, no panic: from every reachable configuration, whatever the
    interleaving so far, the tasks cannot run forever, and as long as the database
    answers some task can take a step until every request has been answered and every
    database transaction is closed. *)
Theorem concurrent_requests_complete exclusive c :
  conc_reachable exclusive c ->
  Acc (flip (task_step true)) c /\
  forall c', rtc (task_step true) c c' ->
    (exists c'', task_step true c' c'') \/ Forall answered (c_sessions c').
Proof.
  intros Hr. split; [apply tasks_terminate|]. intros c' Hcc.
  assert (conc_reachable false c') as Hr'.
  { unfold conc_reachable. etrans; [by eapply reachable_any|by eapply task_steps_conc]. }
  pose proof (conc_reachable_ok _ _ Hr') as Hok.
  destruct (conc_reachable_safe racing_ok false c' initial_racing_ok Hr') as [os Hsafe].
  destruct (decide (Forall (fun s => finished s = true /\ ss_txn s = None) (c_sessions c')))
    as [Hall|Hn].
  - right. apply Forall_lookup. intros i s Hi. destruct (Forall_lookup_1 _ _ _ _ Hall Hi) as [Hf Hx].
    destruct (lookup_lt_is_Some_2 os i) as [o Ho].
    { rewrite (sc_length _ _ _ _ Hsafe). by eapply lookup_lt_Some. }
    destruct (sc_sessions _ _ _ _ Hsafe i o s Ho Hi) as [Hs _ _]. unfold finished in Hf.
    destruct (ss_prog s) as [r| |] eqn:Hp; [by exists r|done|done].
  - left. apply not_Forall_Exists, Exists_exists in Hn as (s & [i Hi]%list_elem_of_lookup & Hs);
      [|apply _]. by eapply some_can_move.
Qed.

(** C39.  Answers hold in every interleaving, also with settlements that race, failures and
    restarts: a successful authorization names a transaction that is recorded under its
    key, any two successful authorizations with the same key (of at most 64 characters,
    as the column keeps) name the same transaction, and the transaction of a successful
    capture or void is no longer pending. *)
Theorem concurrent_answers_hold c :
  conc_reachable false c ->
  let db := st_db (c_store c) in
  let answered_with i req resp := exists s, c_sessions c !! i = Some s /\ ss_req s = req /\
    ss_prog s = Ret (Ok resp) in
  (forall i a ra, answered_with i (Authorize a) (AuthorizedResponse ra) ->
     txn_keyed (au_idempotency_key a) (pt_id (ar_transaction ra)) db) /\
  (forall i j a b ra rb, answered_with i (Authorize a) (AuthorizedResponse ra) ->
     answered_with j (Authorize b) (AuthorizedResponse rb) ->
     au_idempotency_key a = au_idempotency_key b ->
     (String.length (au_idempotency_key a) <= 64)%nat ->
     pt_id (ar_transaction ra) = pt_id (ar_transaction rb)) /\
  (forall i t resp, answered_with i (Capture t) resp \/ answered_with i (Void t) resp ->
     txn_settled t db).
Proof.
  intros Hr db answered_with.
  destruct (conc_reachable_safe racing_ok false c initial_racing_ok Hr) as [os Hc].
  assert (forall i req resp, answered_with i req resp -> answer_holds req resp db) as Hans.
  { intros i req resp (s & Hi & <- & Hp). by eapply answer_safe. }
  split_and!.
  - intros i a ra Ha. exact (Hans _ _ _ Ha).
  - intros i j a b ra rb Ha Hb Hk Hlen.
    destruct (Hans _ _ _ Ha) as (r1 & Ht1 & Hk1), (Hans _ _ _ Hb) as (r2 & Ht2 & Hk2).
    eapply (ck_keys _ _ (proj1 (sc_tables _ _ _ _ Hc))); [exact Ht1|exact Ht2|].
    rewrite Hk1, Hk2; [done|by rewrite <- Hk|done].
  - intros i t resp [Ha|Ha]; exact (Hans _ _ _ Ha).
Qed.
End interleavings.

(** ** Concrete schedules *)

Import Sample.

(** An asset account that holds 100 and an equity account; a pending transaction
    takes 60 from the asset account. *)
Definition held_script : list (request * list nat) :=
  one_by_one 0 [asset; equity; Authorize (transfer "fund" 2 1 100); Capture 1;
                Authorize (transfer "hold" 1 2 60)].

(** Two transfers that interleave: the second waits for the rows of the first. *)
Definition two_transfers : config :=
  play (one_by_one 0 [asset; equity] ++ [(Authorize (transfer "a" 2 1 100), replicate 7 2%nat);
    (Authorize (transfer "b" 2 1 50), replicate 8 3 ++ replicate 3 2 ++ replicate 2 3)%nat])
    initial_config.

Lemma two_transfers_reachable exclusive : conc_reachable exclusive two_transfers.
Proof. apply play_steps; [by repeat constructor; simpl; int_lia|by vm_compute]. Qed.
(** The first transfer holds its rows, the second waits for one of them. *)
Example two_transfers_interleaved :
  (ss_locks <$> c_sessions two_transfers !! 2%nat) =
    Some [LockAccount 1; LockAccount 2; LockKey "a"; LockAccount 1; LockAccount 2] /\
  (wants <$> c_sessions two_transfers !! 3%nat) = Some [LockAccount 1].
Proof. vm_compute. done. Qed.

Lemma concurrent_ledger_invariant_witness :
  db_ok (st_db (c_store two_transfers)) (st_seqs (c_store two_transfers)).
Proof. exact (concurrent_ledger_invariant two_transfers (two_transfers_reachable true)). Defined.
Lemma interleavings_conserve_witness :
  ledger_total a_posted_balance (accounts (st_db (c_store two_transfers))) = 0.
Proof.
  destruct (interleavings_conserve two_transfers (two_transfers_reachable false))
    as (_ & _ & _ & Hp & _). exact Hp.
Defined.
Lemma concurrent_requests_complete_witness :
  Acc (flip (task_step true)) two_transfers /\
  ((exists c'', task_step true two_transfers c'') \/ Forall answered (c_sessions two_transfers)).
Proof.
  destruct (concurrent_requests_complete true two_transfers (two_transfers_reachable true))
    as [Hacc Hall]. split; [exact Hacc|exact (Hall two_transfers (rtc_refl _ _))].
Defined.

(** An authorization and its retry, which starts before the first has ended. *)
Definition retried : config :=
  play (one_by_one 0 [asset; equity] ++ [(Authorize (transfer "a" 2 1 100), replicate 3 2%nat);
    (Authorize (transfer "a" 2 1 100), replicate 2 3 ++ replicate 60 2 ++ replicate 60 3)%nat])
    initial_config.
Lemma concurrent_answers_hold_witness : exists ra rb,
  answer_of 2 retried = Some (Ok (AuthorizedResponse ra)) /\
  answer_of 3 retried = Some (Ok (AuthorizedResponse rb)) /\
  pt_id (ar_transaction ra) = pt_id (ar_transaction rb).
Proof.
  do 2 eexists. split; [vm_compute; reflexivity|]. split; [vm_compute; reflexivity|].
  assert (conc_reachable false retried) as Hr
    by (apply play_steps; [by repeat constructor; simpl; int_lia|by vm_compute]).
  eapply (proj1 (proj2 (concurrent_answers_hold retried Hr)) 2%nat 3%nat
    (transfer "a" 2 1 100) (transfer "a" 2 1 100)).
  - eexists. split; [vm_compute; reflexivity|]. split; vm_compute; reflexivity.
  - eexists. split; [vm_compute; reflexivity|]. split; vm_compute; reflexivity.
  - reflexivity.
  - simpl. lia.
Defined.

(** ** Races *)

Definition succeeded (i : nat) (c : config) : bool :=
  match answer_of i c with Some (Ok _) => true | _ => false end.

Lemma balance_mismatch c a posted pending ty :
  db_balance a c = Some (posted, pending) ->
  a_account_type <$> accounts (st_db (c_store c)) !! a = Some ty ->
  account_sum 2 a ty (entries (st_db (c_store c))) <> posted ->
  ~ db_ok (st_db (c_store c)) (st_seqs (c_store c)).
Proof.
  unfold db_balance. intros Hb Hty Hne Hok.
  destruct (accounts (st_db (c_store c)) !! a) as [r|] eqn:Hr; [|done]. simplify_eq/=.
  apply db_ok_parts in Hok as [_ Hs]. by destruct (Hs _ _ Hr).
Qed.

(** Both captures read the pending status before either of them locks a row. *)
Definition double_capture : config :=
  play (held_script ++ [(Capture 2, []);
    (Capture 2, replicate 4 5 ++ replicate 4 6 ++ replicate 60 5 ++ replicate 60 6)%nat])
    initial_config.

(** Two concurrent captures of the same transaction can both succeed, and then its
    amounts are moved twice: the status is read without a lock and the update of the
    status does not test it.  The account that held 100, with a pending withdrawal of 60,
    ends with -20 posted and 60 pending, while its entries add up to 40 and 0. *)
Theorem double_capture_race :
  conc_reachable false double_capture /\
  succeeded 5 double_capture = true /\ succeeded 6 double_capture = true /\
  db_balance 1 double_capture = Some (-20, 60) /\
  account_sum 2 1 1 (entries (st_db (c_store double_capture))) = 40 /\
  account_sum 1 1 1 (entries (st_db (c_store double_capture))) = 0 /\
  ~ db_ok (st_db (c_store double_capture)) (st_seqs (c_store double_capture)).
Proof.
  split; [apply play_steps; [by repeat constructor; simpl; int_lia|by vm_compute]|].
  split_and!; try (vm_compute; done).
  apply (balance_mismatch _ 1 (-20) 60 1); vm_compute; done.
Qed.

(** A capture and a void of the same transaction. *)
Definition capture_void : config :=
  play (held_script ++ [(Capture 2, []);
    (Void 2, replicate 4 5 ++ replicate 3 6 ++ replicate 60 5 ++ replicate 60 6)%nat])
    initial_config.

(** A capture and a void of the same transaction can both succeed: the transaction ends
    as voided although the client of the capture was told that it is posted, the posted
    balance keeps the captured amount and the pending amount is removed twice. *)
Theorem capture_void_race :
  conc_reachable false capture_void /\
  succeeded 5 capture_void = true /\ succeeded 6 capture_void = true /\
  (t_status <$> transactions (st_db (c_store capture_void)) !! 2) = Some 3 /\
  db_balance 1 capture_void = Some (40, 60) /\
  account_sum 2 1 1 (entries (st_db (c_store capture_void))) = 100 /\
  ~ db_ok (st_db (c_store capture_void)) (st_seqs (c_store capture_void)).
Proof.
  split; [apply play_steps; [by repeat constructor; simpl; int_lia|by vm_compute]|].
  split_and!; try (vm_compute; done).
  apply (balance_mismatch _ 1 40 60 1); vm_compute; done.
Qed.

(** The transfer runs between the commit of the new account and its entry in the
    cache. *)
Definition late_cache : config :=
  play (one_by_one 0 [asset; equity] ++ [(asset, replicate 4 2%nat);
    (Authorize (transfer "early" 2 3 10), replicate 60 3 ++ replicate 60 2)%nat]) initial_config.

(** A transfer to an account that has just been committed can be lost in the cache: its
    delta finds no entry and is dropped, and the entry is then created with zero
    balances.  No request failed and none is running, yet cache and tables disagree. *)
Theorem new_account_cache_race :
  conc_reachable true late_cache /\ Forall answered (c_sessions late_cache) /\
  succeeded 2 late_cache = true /\ succeeded 3 late_cache = true /\
  db_balance 3 late_cache = Some (0, 10) /\ cache_balance 3 late_cache = Some (0, 0).
Proof.
  split; [apply play_steps; [by repeat constructor; simpl; int_lia|by vm_compute]|].
  split; [apply all_answered; vm_compute; done|vm_compute; done].
Qed.

(** Two asset accounts with 100 each; two transfers of 80 in opposite directions. *)
Definition crossing_script : list (request * list nat) :=
  one_by_one 0 [asset; equity; asset; Authorize (transfer "f1" 2 1 100); Capture 1;
                Authorize (transfer "f2" 2 3 100); Capture 2].
Definition crossing (n : nat) : config :=
  play (crossing_script ++ [(Authorize (transfer "a" 3 1 80), replicate n 7%nat);
    (Authorize (transfer "b" 1 3 80), replicate 60 8 ++ replicate 60 7)%nat]) initial_config.

(** The check of the funds is not serialized: after a commit the locks are gone before the
    cache is updated, so the next transfer is checked against the old balances.  Of two
    crossing transfers, whichever comes second is refused when they run one after the
    other; interleaved, both are accepted. *)
Theorem funds_check_race :
  conc_reachable true (crossing 12) /\
  succeeded 7 (crossing 12) = true /\ succeeded 8 (crossing 12) = true /\
  succeeded 7 (crossing 60) = true /\ succeeded 8 (crossing 60) = false /\
  succeeded 7 (crossing 0) = false /\ succeeded 8 (crossing 0) = true.
Proof.
  split; [apply play_steps; [by repeat constructor; simpl; int_lia|by vm_compute]|]. vm_compute. done.
Qed.
