(* ===== verification/DomainCorrect.v ===== *)
(** * DomainCorrect: properties of the domain types and of the storage encoding *)

From S2P Require Import Prelude.
From S2P Require Import Money Accounts Transactions Entries Validation.
From S2P Require Import StorageErrors Schema Cache Effects Triples Postgres.
From S2P Require Import ServiceErrors Ledger Invariant Updates PostgresSpecs LedgerSpecs.
From S2P Require Import Preserve Handlers HandlerSpecs AuthorizeSpec SettleSpec System Safety.
From S2P Require Import Concrete.
From Stdlib Require Import Ascii.
Local Open Scope Z_scope.

(** ** Rows that hold a domain value *)

Definition row_of_account (posted pending : Z) (a : Account) : accounts_row :=
  mk_accounts_row (account_type_to_i16 (Account_account_type a)) (Account_asset_code a)
    (Account_asset_scale a) (Account_version a) posted pending (Account_created_at a).
Definition row_of_transaction `{JsonLib} (t : Transaction) : transactions_row :=
  mk_transactions_row _ (Transaction_idempotency_key t)
    (transaction_status_to_i16 (Transaction_status t)) (Transaction_metadata t)
    (Transaction_created_at t)
    (if decide (Transaction_posted_at t = 0) then None else Some (Transaction_posted_at t)).
Definition row_of_entry (e : Entry) : entries_row :=
  mk_entries_row (Entry_transaction_id e) (Entry_account_id e)
    (entry_type_to_i16 (Entry_entry_type e)) (Entry_amount e)
    (entry_status_to_i16 (Entry_status e)) (Entry_created_at e).

(** What a constructed entry guarantees. *)
Definition Entry_valid (e : Entry) : Prop :=
  Amount_valid (Entry_amount e) /\ Entry_amount e <> 0 /\ 0 < Entry_created_at e.

(** ** Rows of a consistent database decode to valid values *)

Lemma account_row_typed id r :
  account_row_ok r -> exists a, account_of_row (id, r) = Ok a /\ Account_id a = id /\
    Account_valid a /\ row_of_account (a_posted_balance r) (a_pending_balance r) a = r.
Proof.
  intros Hr. exists (account_view id r). split; [by apply account_of_row_ok|].
  destruct Hr as [(Hty & Hsc & Hv & Hcr) Hcode _ _ _]. split_and!; [done|split; simpl; done || lia|].
  destruct r as [ty code scale v p q cr]. unfold row_of_account, account_view. simpl in *.
  f_equal. by destruct (code_cases_5 _ Hty) as [->|[->|[->|[->| ->]]]].
Qed.

Lemma transaction_row_typed `{JsonLib} id r :
  transaction_row_ok r -> exists t, transaction_of_row (id, r) = Ok t /\ Transaction_id t = id /\
    Transaction_valid t /\ row_of_transaction t = r.
Proof.
  intros Hr. exists (transaction_view id r). split; [by apply transaction_of_row_ok|].
  destruct Hr as [(_ & Hcr & Hpos) Hkey Hst Hp]. destruct r as [key st md cr posted].
  unfold transaction_view, row_of_transaction. simpl in *.
  assert (forall x, posted = Some x -> 0 < x) as Hx by (by intros x ->).
  split_and!; [done| |].
  - split; simpl; [done..|].
    assert (st <> 2 -> posted = None) as Hn by (intros; destruct posted; [naive_solver|done]).
    destruct (code_cases_3 _ Hst) as [->|[->| ->]]; cbn; [by rewrite Hn| |by rewrite Hn].
    destruct (proj1 Hp eq_refl) as [x ->]. by apply Hx.
  - f_equal; [by destruct (code_cases_3 _ Hst) as [->|[->| ->]]|].
    destruct posted as [x|]; simpl; [|done]. rewrite decide_False; [done|].
    specialize (Hx x eq_refl). lia.
Qed.

Lemma entry_row_typed id r :
  entry_row_ok r -> exists e, entry_of_row (id, r) = Ok e /\ Entry_id e = id /\
    Entry_valid e /\ row_of_entry e = r.
Proof.
  intros Hr. exists (entry_view (id, r)). split; [by apply entry_of_row_ok|].
  destruct Hr as [(Hty & Ham & Hst & Hcr) Hmax]. destruct r as [txn acc ty am st cr].
  unfold entry_view, row_of_entry, Entry_valid, Amount_valid. simpl in *.
  split_and!; try done; try lia. f_equal.
  - by destruct (code_cases_2 _ Hty) as [->| ->].
  - by destruct (code_cases_3 _ Hst) as [->|[->| ->]].
Qed.

(** ** Properties *)

(** C24.  Every stored row has its type: in every world the server can reach, each row
    of the three tables decodes to a domain value that satisfies what its constructor
    guarantees, carries the id of the row, and is written back as the same row.  So no
    read of the storage ever reports data corruption. *)
Theorem stored_rows_are_typed `{JsonLib, PgLib} {Hlaws : PgLaws} w :
  reachable w ->
  (forall id r, accounts (w_db w) !! id = Some r ->
     exists a, account_of_row (id, r) = Ok a /\ Account_id a = id /\ Account_valid a /\
       row_of_account (a_posted_balance r) (a_pending_balance r) a = r) /\
  (forall id r, transactions (w_db w) !! id = Some r ->
     exists t, transaction_of_row (id, r) = Ok t /\ Transaction_id t = id /\ Transaction_valid t /\
       row_of_transaction t = r) /\
  (forall id r, entries (w_db w) !! id = Some r ->
     exists e, entry_of_row (id, r) = Ok e /\ Entry_id e = id /\ Entry_valid e /\
       row_of_entry e = r).
Proof.
  intros Hr%reachable_ok. split_and!; intros id r Hl.
  - apply account_row_typed, (ok_accounts _ _ Hr _ _ Hl).
  - apply transaction_row_typed, (ok_transactions _ _ Hr _ _ Hl).
  - apply entry_row_typed, (ok_entries _ _ Hr _ _ Hl).
Qed.

(** C26.  [validate_transaction_balance] computes exact totals: with positive
    64-bit amounts its answer is the one of the reference definition on unbounded
    integers, and an overflow is reported exactly when a total does not fit. *)
Theorem validate_transaction_balance_exact legs :
  Forall valid_leg legs ->
  validate_transaction_balance legs = validate_transaction_balance_ref legs.
Proof. apply validate_transaction_balance_eq. Qed.

(** C27.  [compute_account_balance] computes exact balances: it is the reference
    definition on unbounded integers, and depends neither on the order of the
    entries nor on the voided ones. *)
Theorem compute_account_balance_exact nb es es' :
  Forall valid_entry_amount es -> es' ≡ₚ filter not_voided es ->
  compute_account_balance nb es = compute_account_balance_ref nb es'.
Proof.
  intros Hv ->. rewrite compute_account_balance_eq by done.
  by rewrite compute_account_balance_ref_not_voided.
Qed.

(** C28.  Arithmetic on amounts never wraps: the checked operations return the
    exact result when it is a valid amount and an error otherwise, so that adding
    and then subtracting gives the amount back. *)
Theorem amount_arithmetic_exact a b :
  Amount_valid a -> Amount_valid b ->
  (Amount_checked_add a b = if decide (Amount_valid (a + b)) then Ok (a + b)
                            else Err AmountError_Overflow) /\
  (Amount_checked_sub a b = if decide (Amount_valid (a - b)) then Ok (a - b)
                            else Err AmountError_Underflow) /\
  (forall c, Amount_checked_add a b = Ok c -> Amount_checked_sub c b = Ok a).
Proof.
  intros Ha Hb. rewrite Amount_checked_add_spec, Amount_checked_sub_spec by done.
  unfold Amount_valid in *. split_and!.
  - repeat case_decide; done || lia.
  - repeat case_decide; done || lia.
  - intros c. case_decide; [|done]. intros [= <-].
    rewrite Amount_checked_sub_spec by (unfold Amount_valid; lia).
    rewrite decide_True by lia. f_equal. lia.
Qed.

(** ** Writing and reading back *)

Lemma entry_decodes e :
  0 < Entry_amount e -> 0 < Entry_created_at e -> entry_of_row (Entry_id e, row_of_entry e) = Ok e.
Proof.
  intros Ha Hc. unfold entry_of_row, build_entry. simpl. rewrite entry_type_roundtrip. simpl.
  rewrite entry_status_roundtrip. simpl.
  rewrite (proj2 (Entry_new_Ok _ _ _ _ _ _ _ e)); [done|]. destruct e. simpl in *.
  unfold Amount_from_raw. split_and!; done || lia.
Qed.

Section roundtrip.
Context `{JsonLib, PgLib, !PgLaws}.
Implicit Types (w : world) (db : database).








End roundtrip.

(** A duplicate idempotency key is reported to the client as such: the
    unique violation PostgreSQL raises for a key without a closing parenthesis
    becomes [AlreadyExists], with the key in the message. *)
Theorem duplicate_key_reported key text :
  str_lacks ")"%char key ->
  Status_from (ServiceError_from_storage (StorageError_from (SqlxError_Database
    (mkPgDatabaseError true (Some (unique_detail "idempotency_key" key)) text)))) =
  mkStatus Code_AlreadyExists ("duplicate transaction with key " +:+ key).
Proof.
  intros Hk. cbn -[detail_key unique_detail String.append].
  rewrite detail_key_unique; [done| |done]. vm_compute. repeat split; discriminate.
Qed.

(** A key with a closing parenthesis is cut at the parenthesis in that
    report. *)
Theorem duplicate_key_cut_at_parenthesis :
  StorageError_from (SqlxError_Database (mkPgDatabaseError true
    (Some (unique_detail "idempotency_key" "pay(1)-retry")) "")) =
  StorageError_DuplicateKey "pay(1".
Proof. vm_compute. reflexivity. Qed.

(** ** Concrete cases *)

Definition sample_legs : list TransferLeg :=
  [mkTransferLeg 1 EntryType_Debit i64_max; mkTransferLeg 2 EntryType_Debit 1;
   mkTransferLeg 3 EntryType_Credit 5].
Lemma validate_transaction_balance_exact_witness :
  validate_transaction_balance sample_legs = Err ValidationError_SumOverflow /\
  validate_transaction_balance sample_legs = validate_transaction_balance_ref sample_legs.
Proof.
  split; [vm_compute; reflexivity|].
  apply validate_transaction_balance_exact. repeat constructor; simpl; int_lia.
Defined.

Definition sample_entry (id amount : Z) (ty : EntryType) (st : EntryStatus) : Entry :=
  mkEntry id 1 1 ty amount st 1000.
Lemma compute_account_balance_exact_witness :
  compute_account_balance NormalBalance_Debit
    [sample_entry 1 70 EntryType_Debit EntryStatus_Posted;
     sample_entry 2 9 EntryType_Credit EntryStatus_Voided;
     sample_entry 3 20 EntryType_Credit EntryStatus_Pending] =
  compute_account_balance_ref NormalBalance_Debit
    [sample_entry 3 20 EntryType_Credit EntryStatus_Pending;
     sample_entry 1 70 EntryType_Debit EntryStatus_Posted].
Proof.
  apply compute_account_balance_exact; [repeat constructor; simpl; int_lia|].
  vm_compute. apply perm_swap.
Defined.

Lemma amount_arithmetic_exact_witness :
  Amount_checked_add i64_max 1 = Err AmountError_Overflow /\
  Amount_checked_sub 5 3 = Ok 2 /\ Amount_checked_sub 3 5 = Err AmountError_Underflow.
Proof.
  destruct (amount_arithmetic_exact i64_max 1) as (-> & _); [done..|].
  destruct (amount_arithmetic_exact 5 3) as (_ & -> & _); [done..|].
  destruct (amount_arithmetic_exact 3 5) as (_ & -> & _); [done..|].
  vm_compute. done.
Defined.

Import Sample.


Lemma stored_rows_are_typed_witness :
  exists e, entry_of_row (1, mk_entries_row 1 1 1 100 2 1000) = Ok e /\ row_of_entry e =
    mk_entries_row 1 1 1 100 2 1000.
Proof.
  destruct (stored_rows_are_typed held) as (_ & _ & He); [by apply sample_reachable|].
  destruct (He 1 (mk_entries_row 1 1 1 100 2 1000)) as (e & H1 & _ & _ & H2);
    [vm_compute; reflexivity|]. by exists e.
Defined.

Lemma duplicate_key_reported_witness :
  Status_from (ServiceError_from_storage (StorageError_from (SqlxError_Database
    (mkPgDatabaseError true (Some (unique_detail "idempotency_key" "k-1")) "")))) =
  mkStatus Code_AlreadyExists "duplicate transaction with key k-1".
Proof. apply (duplicate_key_reported "k-1"). apply (bool_decide_unpack _). vm_compute. reflexivity. Defined.
