(* ===== verification/Config.v ===== *)
(** * Configuration: [config.rs]

    The structures, their validation, and the redaction of the database URL.
    Merging defaults, file and environment is the business of the [config] crate,
    which is a parameter of [AppConfig_load]. *)

From S2P Require Import Prelude.
From S2P Require Import StorageErrors.
From Stdlib Require Import Ascii.
Local Open Scope Z_scope.

Record ServerConfig := mkServerConfig {
  grpc_port : Z; http_port : Z; shutdown_timeout_secs : Z
}.
Record DatabaseConfig := mkDatabaseConfig {
  url : string; max_connections : Z; min_connections : Z;
  acquire_timeout_secs : Z; idle_timeout_secs : Z
}.
Record LoggingConfig := mkLoggingConfig { level : string; format : string }.
Record ObservabilityConfig := mkObservabilityConfig { integrity_check_interval_secs : Z }.
Record AppConfig := mkAppConfig {
  server : ServerConfig; db_config : DatabaseConfig; logging : LoggingConfig;
  observability : ObservabilityConfig
}.

Definition DEFAULT_GRPC_PORT : Z := 50051.
Definition DEFAULT_HTTP_PORT : Z := 9090.
Definition DEFAULT_SHUTDOWN_TIMEOUT_SECS : Z := 30.
Definition DEFAULT_MAX_CONNECTIONS : Z := 10.
Definition DEFAULT_MIN_CONNECTIONS : Z := 1.
Definition DEFAULT_ACQUIRE_TIMEOUT_SECS : Z := 5.
Definition DEFAULT_IDLE_TIMEOUT_SECS : Z := 600.
Definition DEFAULT_LOG_LEVEL : string := "info".
Definition DEFAULT_LOG_FORMAT : string := "json".
Definition DEFAULT_INTEGRITY_CHECK_INTERVAL_SECS : Z := 60.

(** [Load] carries the text of the crate's error. *)
Inductive ConfigError :=
| ConfigError_Load (e : string)
| ConfigError_Validation (msg : string).

Definition ConfigError_to_string (self : ConfigError) : string :=
  match self with
  | ConfigError_Load e => "configuration error: " +:+ e
  | ConfigError_Validation msg => "configuration error: " +:+ msg
  end.

(** A value of a default. *)
Inductive config_value := CInt (z : Z) | CText (s : string).

Definition config_defaults : list (string * config_value) :=
  [("server.grpc_port", CInt DEFAULT_GRPC_PORT);
   ("server.http_port", CInt DEFAULT_HTTP_PORT);
   ("server.shutdown_timeout_secs", CInt DEFAULT_SHUTDOWN_TIMEOUT_SECS);
   ("database.url", CText "");
   ("database.max_connections", CInt DEFAULT_MAX_CONNECTIONS);
   ("database.min_connections", CInt DEFAULT_MIN_CONNECTIONS);
   ("database.acquire_timeout_secs", CInt DEFAULT_ACQUIRE_TIMEOUT_SECS);
   ("database.idle_timeout_secs", CInt DEFAULT_IDLE_TIMEOUT_SECS);
   ("logging.level", CText DEFAULT_LOG_LEVEL);
   ("logging.format", CText DEFAULT_LOG_FORMAT);
   ("observability.integrity_check_interval_secs", CInt DEFAULT_INTEGRITY_CHECK_INTERVAL_SECS)].

(** The file source: the given path, required, or [config.toml] if present. *)
Inductive config_file := RequiredFile (path : string) | OptionalToml (name : string).

Definition AppConfig_validate (self : AppConfig) : result ConfigError unit :=
  if decide (url (db_config self) = "")
  then Err (ConfigError_Validation "database.url is required")
  else if decide (grpc_port (server self) = http_port (server self))
  then Err (ConfigError_Validation
    ("grpc_port and http_port must differ, both set to " +:+ pretty (grpc_port (server self))))
  else if decide (max_connections (db_config self) = 0)
  then Err (ConfigError_Validation "database.max_connections must be > 0")
  else if decide (min_connections (db_config self) > max_connections (db_config self))
  then Err (ConfigError_Validation
    ("database.min_connections (" +:+ pretty (min_connections (db_config self))
       +:+ ") exceeds max_connections (" +:+ pretty (max_connections (db_config self)) +:+ ")"))
  else if decide (shutdown_timeout_secs (server self) = 0)
  then Err (ConfigError_Validation "server.shutdown_timeout_secs must be > 0")
  else if decide (integrity_check_interval_secs (observability self) < 10)
  then Err (ConfigError_Validation
    ("observability.integrity_check_interval_secs must be >= 10, got "
       +:+ pretty (integrity_check_interval_secs (observability self))))
  else Ok tt.

(** [build] stands for the builder of the [config] crate applied to the defaults,
    the file, the prefix and separator of the environment and the override of
    [database.url], followed by deserialization. *)
Definition AppConfig_load
    (build : list (string * config_value) -> config_file -> string -> string ->
             option string -> result string AppConfig)
    (config_path database_url : option string) : result ConfigError AppConfig :=
  let file := match config_path with
              | Some path => RequiredFile path
              | None => OptionalToml "config"
              end in
  config ← map_err ConfigError_Load (build config_defaults file "FIDES" "__" database_url);
  AppConfig_validate config;;
  Ok config.

(** The password between the first [:] after the scheme and the first [@]. *)
Definition redact_db_url (u : string) : string :=
  match str_find "://" u with
  | None => u
  | Some scheme_end =>
      let after_scheme := (scheme_end + 3)%nat in
      let rest := str_from after_scheme u in
      match str_find "@" rest with
      | None => u
      | Some at_pos =>
          let credentials := str_to at_pos rest in
          match str_find ":" credentials with
          | None => u
          | Some colon_pos =>
              let user := str_to colon_pos credentials in
              let after_at := str_from at_pos rest in
              str_to scheme_end u +:+ "://" +:+ user +:+ ":***" +:+ after_at
          end
      end
  end.

(** The fields of the line [configuration loaded], with their texts. *)
Definition log_summary (self : AppConfig) : list (string * string) :=
  [("grpc_port", pretty (grpc_port (server self)));
   ("http_port", pretty (http_port (server self)));
   ("shutdown_timeout_secs", pretty (shutdown_timeout_secs (server self)));
   ("database_url", redact_db_url (url (db_config self)));
   ("max_connections", pretty (max_connections (db_config self)));
   ("min_connections", pretty (min_connections (db_config self)));
   ("log_level", level (logging self));
   ("log_format", format (logging self));
   ("integrity_check_interval_secs",
      pretty (integrity_check_interval_secs (observability self)))].

(** What a validated configuration guarantees. *)
Record AppConfig_valid (c : AppConfig) : Prop := {
  cv_url : url (db_config c) <> "";
  cv_ports : grpc_port (server c) <> http_port (server c);
  cv_max : max_connections (db_config c) <> 0;
  cv_min : min_connections (db_config c) <= max_connections (db_config c);
  cv_timeout : shutdown_timeout_secs (server c) <> 0;
  cv_interval : 10 <= integrity_check_interval_secs (observability c)
}.

Lemma AppConfig_validate_Ok c : AppConfig_validate c = Ok tt <-> AppConfig_valid c.
Proof.
  unfold AppConfig_validate. split.
  - repeat (case_decide; [done|]). intros _. split; done || lia.
  - intros []. by repeat (rewrite decide_False by (done || lia)).
Qed.

(** ** Lemmas on the search of separators *)

Lemma str_app_assoc (s t u : string) : (s +:+ t) +:+ u = s +:+ (t +:+ u).
Proof. induction s as [|c s IH]; [done|]. rewrite !string_app_cons. by rewrite IH. Qed.

Lemma str_lacks_app c s t : str_lacks c (s +:+ t) <-> str_lacks c s /\ str_lacks c t.
Proof. induction s as [|d s IH]; simpl; [tauto|]. rewrite IH. tauto. Qed.

Lemma str_find_scheme scheme rest :
  str_lacks ":"%char scheme ->
  str_find "://" (scheme +:+ "://" +:+ rest) = Some (String.length scheme).
Proof.
  induction scheme as [|d s IH]; intros Hs; cbn -[str_find].
  - by destruct rest.
  - destruct Hs as [Hd Hs]. rewrite string_app_cons, str_find_cons_ne by done. by rewrite IH.
Qed.

(** ** Properties *)

(** C35.  Whatever the file and the environment contain, a configuration that is
    loaded has been validated: it names a database, its two ports differ, its pool
    is not empty and its bounds are ordered, and its timeouts are usable; and every
    valid configuration the crate builds is accepted unchanged. *)
Theorem loaded_config_is_valid build path env_url c :
  AppConfig_load build path env_url = Ok c <->
  build config_defaults (match path with Some p => RequiredFile p
                         | None => OptionalToml "config" end) "FIDES" "__" env_url = Ok c /\
  AppConfig_valid c.
Proof.
  unfold AppConfig_load. destruct (build _ _ _ _ _) as [c'|e]; simpl.
  - rewrite <- AppConfig_validate_Ok.
    destruct (AppConfig_validate c') as [[]|e] eqn:Hv; simpl; split.
    + by intros [= <-].
    + by intros [[= <-] _].
    + done.
    + intros [[= <-] Hv']. congruence.
  - split; [done|by intros []].
Qed.

(** The log never shows the password: for a URL with a user and a password
    (neither the user nor the password containing an [@], the user no [:]), the
    redacted text replaces the password, and does not depend on it. *)
Theorem redact_hides_password scheme user password host :
  str_lacks ":"%char scheme -> str_lacks ":"%char user ->
  str_lacks "@"%char user -> str_lacks "@"%char password ->
  redact_db_url (scheme +:+ "://" +:+ user +:+ ":" +:+ password +:+ "@" +:+ host) =
  scheme +:+ "://" +:+ user +:+ ":***@" +:+ host.
Proof.
  intros Hs Hu Hua Hp. unfold redact_db_url. rewrite str_find_scheme by done.
  rewrite str_from_length.
  change (str_from 3 ("://" +:+ ?t)) with t.
  set (creds := user +:+ String ":" password).
  replace (user +:+ ":" +:+ password +:+ "@" +:+ host) with (creds +:+ String "@" host)
    by (unfold creds; by rewrite !str_app_assoc).
  rewrite str_find_lacks by (unfold creds; apply str_lacks_app; by repeat split).
  rewrite str_to_length. unfold creds at 1. rewrite str_find_lacks by done.
  rewrite str_to_length. rewrite <- (Nat.add_0_r (String.length creds)), str_from_length.
  unfold creds. by rewrite str_to_length.
Qed.

(** A password that contains an [@] is redacted only up to it. *)
Theorem redact_leaks_after_at :
  redact_db_url "postgres://fides:p@ss@db/ledger" = "postgres://fides:***@ss@db/ledger".
Proof. vm_compute. reflexivity. Qed.

(** ** Concrete cases *)

Lemma redact_hides_password_witness :
  redact_db_url "postgres://fides:secret@db/ledger" = "postgres://fides:***@db/ledger".
Proof.
  apply (redact_hides_password "postgres" "fides" "secret" "db/ledger");
    apply (bool_decide_unpack _); vm_compute; reflexivity.
Defined.
