(* ===== verification/Recorder.v ===== *)
(** * The metrics recorder: [observability/metrics.rs]

    The global recorder, which is installed once, and the table of the metrics it
    describes. *)

From S2P Require Import Prelude.
Local Open Scope Z_scope.

(** ** The recorder *)

Inductive metric_kind := CounterMetric | GaugeMetric | HistogramMetric.
#[export] Instance metric_kind_eq_dec : EqDecision metric_kind.
Proof. solve_decision. Defined.

(** Each metric with its kind and its help text. *)
Definition describe_metrics : list (metric_kind * string * string) :=
  [(CounterMetric, "fides_grpc_requests_total",
      "total gRPC requests by method and status");
   (HistogramMetric, "fides_grpc_request_duration_seconds",
      "gRPC request duration in seconds by method");
   (CounterMetric, "fides_transactions_total", "total transactions by final status");
   (CounterMetric, "fides_insufficient_funds_total",
      "total authorize requests rejected for insufficient funds");
   (CounterMetric, "fides_idempotent_hits_total",
      "total idempotent duplicate requests by method");
   (GaugeMetric, "fides_db_pool_size", "total database pool connections");
   (GaugeMetric, "fides_db_pool_idle", "idle database pool connections");
   (GaugeMetric, "fides_balance_cache_accounts", "number of accounts in the balance cache");
   (GaugeMetric, "fides_integrity_global_balanced",
      "1.0 if global debits equal credits, 0.0 if violated");
   (GaugeMetric, "fides_integrity_account_mismatches",
      "number of accounts with materialized balance != entry-computed balance");
   (GaugeMetric, "fides_integrity_cache_mismatches",
      "number of accounts with cache balance != database balance");
   (HistogramMetric, "fides_integrity_check_duration_seconds",
      "duration of each integrity check in seconds");
   (GaugeMetric, "fides_integrity_last_check_timestamp",
      "unix timestamp of the last completed integrity check")].

(** The cell of the handle and the descriptions registered so far; [None] is the
    panic of [expect].  [build] is what installing the exporter gives. *)
Record recorder (H : Type) := mk_recorder {
  rc_handle : option H;
  rc_described : list (metric_kind * string * string)
}.
Arguments mk_recorder {H}. Arguments rc_handle {H}. Arguments rc_described {H}.

Definition install_recorder {H} (build : result string H) (r : recorder H)
  : option (H * recorder H) :=
  match rc_handle r with
  | Some h => Some (h, r)
  | None =>
      match build with
      | Ok h => Some (h, mk_recorder (Some h) (rc_described r ++ describe_metrics))
      | Err _ => None
      end
  end.

(** The first call installs the exporter and registers the descriptions; later calls
    return the same handle and register nothing. *)
Lemma install_recorder_once {H'} (build : result string H') r h r' :
  install_recorder build r = Some (h, r') ->
  rc_handle r' = Some h /\
  (rc_handle r = None -> rc_described r' = rc_described r ++ describe_metrics) /\
  forall build', install_recorder build' r' = Some (h, r').
Proof.
  unfold install_recorder. destruct (rc_handle r) as [h0|] eqn:Hh.
  - intros [= <- <-]. by rewrite Hh.
  - destruct build as [h0|]; [|done]. by intros [= <- <-].
Qed.
