(* ===== verification/Server.v ===== *)
(** * The server process: [health.rs], [server.rs], [main.rs]

    Health probes, the start of the server, its life as a transition system (the
    two server tasks, the two background tasks, the handle that drains them), and
    the commands of the binary.  The tasks end as the [tokio] documentation says:
    a server with graceful shutdown ends after the shutdown future resolves, a
    [watch] receiver that waits for a value is woken by the value or by the end of
    the sender, and a timeout can always strike.  Closing the pool is as [sqlx]
    documents it: no connection is given out any more, and the call returns when every
    connection that is out has come back. *)

From S2P Require Import Prelude.
From S2P Require Import Money Accounts Transactions Entries Validation.
From S2P Require Import StorageErrors Schema Cache Effects Triples Postgres.
From S2P Require Import ServiceErrors Ledger Invariant Updates PostgresSpecs LedgerSpecs.
From S2P Require Import Preserve Handlers HandlerSpecs AuthorizeSpec SettleSpec System Safety.
From S2P Require Import Config Recorder Concrete.
Local Open Scope Z_scope.

(** ** Health probes *)

(** The pool is shared with the rest of the process; what the probe sees of it is
    the answer to [SELECT 1]. *)
Record HealthState := mkHealthState { hs_accepting : bool }.
Definition HealthState_new : HealthState := mkHealthState true.
Definition HealthState_set_shutting_down (self : HealthState) : HealthState :=
  mkHealthState false.

Inductive StatusCode := StatusCode_OK | StatusCode_SERVICE_UNAVAILABLE.
#[export] Instance StatusCode_eq_dec : EqDecision StatusCode.
Proof. solve_decision. Defined.

Definition health : StatusCode := StatusCode_OK.
Definition ready (state : HealthState) (select_1 : result SqlxError Z) : StatusCode :=
  if negb (hs_accepting state) then StatusCode_SERVICE_UNAVAILABLE
  else match select_1 with
       | Ok _ => StatusCode_OK
       | Err _ => StatusCode_SERVICE_UNAVAILABLE
       end.

(** The routes of the router and the handler of each. *)
Definition health_router (state : HealthState)
  : list (string * (result SqlxError Z -> StatusCode)) :=
  [("/health", fun _ => health); ("/ready", ready state)].
Definition probe (path : string) (state : HealthState) (select_1 : result SqlxError Z)
  : option StatusCode :=
  (fun '(_, handler) => handler select_1) <$>
    head (filter (fun r => r.1 = path) (health_router state)).

(** ** Tasks and phases *)

(** What joining a task gives: its own result, or the error of a panic. *)
Inductive join_result := Joined (r : result string unit) | JoinError (e : string).
Inductive task_state := NotStarted | Running | Ended (r : join_result).

(** Where [ServerHandle::run] is. *)
Inductive phase :=
| NoHandle                   (* serve has not returned, or has returned an error *)
| Waiting                    (* signal.await *)
| Marked                     (* the health state says shutting down *)
| AwaitHttp | AwaitGrpc      (* the shutdown has been sent *)
| Closing (timed_out : bool) (* pool.close().await *)
| Stopped (timed_out : bool).
#[export] Instance phase_eq_dec : EqDecision phase.
Proof. solve_decision. Defined.

Record process := mk_process {
  pr_health : HealthState;
  pr_channel : option bool;  (* the watch channel, [None] without a sender *)
  pr_http : task_state;
  pr_grpc : task_state;
  pr_gauge : bool;           (* the background tasks loop *)
  pr_integrity : bool;
  pr_gives : bool;           (* the pool gives out connections *)
  pr_out : nat;              (* connections that are out *)
  pr_pool_open : bool;       (* the pool has not been closed entirely *)
  pr_phase : phase
}.

(** [rx.wait_for(|v| *v)] returns: the value is there or the sender is gone. *)
Definition woken (p : process) : bool :=
  match pr_channel p with Some b => b | None => true end.

Definition set_phase (ph : phase) (p : process) : process :=
  mk_process (pr_health p) (pr_channel p) (pr_http p) (pr_grpc p) (pr_gauge p)
    (pr_integrity p) (pr_gives p) (pr_out p) (pr_pool_open p) ph.
Definition set_health (h : HealthState) (p : process) : process :=
  mk_process h (pr_channel p) (pr_http p) (pr_grpc p) (pr_gauge p)
    (pr_integrity p) (pr_gives p) (pr_out p) (pr_pool_open p) (pr_phase p).
Definition set_channel (c : option bool) (p : process) : process :=
  mk_process (pr_health p) c (pr_http p) (pr_grpc p) (pr_gauge p)
    (pr_integrity p) (pr_gives p) (pr_out p) (pr_pool_open p) (pr_phase p).
Definition set_http (t : task_state) (p : process) : process :=
  mk_process (pr_health p) (pr_channel p) t (pr_grpc p) (pr_gauge p)
    (pr_integrity p) (pr_gives p) (pr_out p) (pr_pool_open p) (pr_phase p).
Definition set_grpc (t : task_state) (p : process) : process :=
  mk_process (pr_health p) (pr_channel p) (pr_http p) t (pr_gauge p)
    (pr_integrity p) (pr_gives p) (pr_out p) (pr_pool_open p) (pr_phase p).
Definition set_gauge (b : bool) (p : process) : process :=
  mk_process (pr_health p) (pr_channel p) (pr_http p) (pr_grpc p) b
    (pr_integrity p) (pr_gives p) (pr_out p) (pr_pool_open p) (pr_phase p).
Definition set_integrity (b : bool) (p : process) : process :=
  mk_process (pr_health p) (pr_channel p) (pr_http p) (pr_grpc p) (pr_gauge p)
    b (pr_gives p) (pr_out p) (pr_pool_open p) (pr_phase p).
Definition set_pool (gives : bool) (out : nat) (is_open : bool) (p : process) : process :=
  mk_process (pr_health p) (pr_channel p) (pr_http p) (pr_grpc p) (pr_gauge p)
    (pr_integrity p) gives out is_open (pr_phase p).

(** [ServerHandle::drain], one suspension point after the other. *)
Definition drain_mark (p : process) : process :=
  set_phase Marked (set_health (HealthState_set_shutting_down (pr_health p)) p).
Definition drain_send (p : process) : process :=
  set_phase AwaitHttp (set_channel (Some true) p).
(** [pool.close()] is called: the pool gives out nothing from now on. *)
Definition drain_close (timed_out : bool) (p : process) : process :=
  set_phase (Closing timed_out) (set_pool false (pr_out p) (pr_pool_open p) p).
(** The pool is closed, and the handle is dropped with the sender in it. *)
Definition drain_stop (timed_out : bool) (p : process) : process :=
  set_phase (Stopped timed_out) (set_channel None (set_pool false 0 false p)).

Inductive drain_step : process -> process -> Prop :=
| drain_signal p : pr_phase p = Waiting -> drain_step p (drain_mark p)
| drain_sent p : pr_phase p = Marked -> drain_step p (drain_send p)
| drain_http_joined p r : pr_phase p = AwaitHttp -> pr_http p = Ended r ->
    drain_step p (set_phase AwaitGrpc p)
| drain_grpc_joined p r : pr_phase p = AwaitGrpc -> pr_grpc p = Ended r ->
    drain_step p (drain_close false p)
| drain_timeout p : pr_phase p = AwaitHttp \/ pr_phase p = AwaitGrpc ->
    drain_step p (drain_close true p)
| drain_closed p b : pr_phase p = Closing b -> pr_out p = 0%nat -> drain_step p (drain_stop b p).

Definition failure (r : join_result) : Prop := r <> Joined (Ok tt).

(** A connection comes back. *)
Inductive release_step : process -> process -> Prop :=
| release p n : pr_out p = S n -> release_step p (set_pool (pr_gives p) n (pr_pool_open p) p).

(** The loops of the background tasks: a tick leads to the next round, a wake-up to
    the end. *)
Definition stop_gauge : process -> process := set_gauge false.
Definition stop_integrity : process -> process := set_integrity false.

Inductive proc_step : process -> process -> Prop :=
| proc_drain p p' : drain_step p p' -> proc_step p p'
| proc_http_done p : pr_http p = Running -> woken p = true ->
    proc_step p (set_http (Ended (Joined (Ok tt))) p)
| proc_http_failed p r : pr_http p = Running -> failure r -> proc_step p (set_http (Ended r) p)
| proc_grpc_done p : pr_grpc p = Running -> woken p = true ->
    proc_step p (set_grpc (Ended (Joined (Ok tt))) p)
| proc_grpc_failed p r : pr_grpc p = Running -> failure r -> proc_step p (set_grpc (Ended r) p)
| proc_gauge_tick p : pr_gauge p = true -> proc_step p p
| proc_gauge_stop p : pr_gauge p = true -> woken p = true -> proc_step p (stop_gauge p)
| proc_integrity_tick p : pr_integrity p = true -> proc_step p p
| proc_integrity_stop p : pr_integrity p = true -> woken p = true ->
    proc_step p (stop_integrity p)
| proc_acquire p : pr_gives p = true ->
    proc_step p (set_pool true (S (pr_out p)) (pr_pool_open p) p)
| proc_release p p' : release_step p p' -> proc_step p p'.

(** ** [serve] *)

Record ServerHandle := mkServerHandle { sh_grpc_addr : Z; sh_http_addr : Z; sh_timeout : Z }.

(** The process that calls [serve], with an open pool. *)
Definition boot : process :=
  mk_process (mkHealthState false) None NotStarted NotStarted false false true 0 true NoHandle.

(** The channel and the background tasks. *)
Definition open_channel : process -> process := set_channel (Some false).
Definition spawn_gauge : process -> process := set_gauge true.
Definition spawn_integrity : process -> process := set_integrity true.
Definition spawn_background (p : process) : process :=
  spawn_integrity (spawn_gauge (open_channel p)).
(** The health state, the two server tasks, and the handle. *)
Definition spawn_http : process -> process := set_http Running.
Definition spawn_grpc : process -> process := set_grpc Running.
Definition spawn_servers (p : process) : process :=
  set_phase Waiting (spawn_grpc (spawn_http (set_health HealthState_new p))).
(** A return with an error drops the sender. *)
Definition drop_sender : process -> process := set_channel None.

Section serve.
(** The operating system: binding a port gives a listener, which knows its address;
    [build] is the exporter of the metrics. *)
Context `{JsonLib, PgLib} {listener M : Type}.
Context (bind : Z -> result string listener) (local_addr : listener -> result string Z).

(** [TcpListener::bind(..).await?] and [local_addr()?] *)
Definition listen (port : Z) : result string Z :=
  match bind port with Ok l => local_addr l | Err e => Err e end.

Lemma listen_spec port :
  match listen port with
  | Ok addr => exists l, bind port = Ok l /\ local_addr l = Ok addr
  | Err e => bind port = Err e \/ exists l, bind port = Ok l /\ local_addr l = Err e
  end.
Proof.
  unfold listen. destruct (bind port) as [l|e]; [|by left].
  destruct (local_addr l) as [a|e] eqn:Hl; [by exists l|right; by exists l].
Qed.

(** [None] is a panic. *)
Definition serve (build : result string M) (config : AppConfig) (rc : recorder M) (w : world)
  : option (result string ServerHandle) * process * recorder M * world :=
  let p := boot in
  match install_recorder build rc with
  | None => (None, p, rc, w)
  | Some (_, rc) =>
      let '(r, w) := run_request serve_start w in
      match r with
      | None => (None, p, rc, w)
      | Some (Err e) => (Some (Err (StorageError_to_string e)), p, rc, w)
      | Some (Ok _) =>
          let p := spawn_background p in
          match listen (http_port (server config)) with
          | Err e => (Some (Err e), drop_sender p, rc, w)
          | Ok http_addr =>
              match listen (grpc_port (server config)) with
              | Err e => (Some (Err e), drop_sender p, rc, w)
              | Ok grpc_addr =>
                  (Some (Ok (mkServerHandle grpc_addr http_addr
                     (shutdown_timeout_secs (server config)))), spawn_servers p, rc, w)
              end
          end
      end
  end.
End serve.

(** ** The binary *)

Inductive Command := Command_Migrate | Command_Serve (run_migrations : bool).

Record PgPoolOptions := mkPgPoolOptions {
  po_max : Z; po_min : Z; po_acquire_secs : Z; po_idle_secs : Z
}.
Definition pool_options (config : AppConfig) : PgPoolOptions :=
  mkPgPoolOptions (max_connections (db_config config)) (min_connections (db_config config))
    (acquire_timeout_secs (db_config config)) (idle_timeout_secs (db_config config)).

(** [init_tracing]: the filter and the format of the log; [default_env] is the filter
    of the environment, if it has a valid one. *)
Inductive log_format := LogJson | LogPretty.
Definition init_tracing (default_env : option string) (logging : LoggingConfig)
  : string * log_format :=
  (default (level logging) default_env,
   if decide (format logging = "json") then LogJson else LogPretty).

(** What the binary does to the outside, in order. *)
Inductive action :=
| Eprintln (text : string)
| InitTracing (filter : string) (format : log_format)
| LogSummary (fields : list (string * string))
| LogFatal (error : string)
| Connect (options : PgPoolOptions) (url : string)
| SelectOne
| RunMigrations
| StartServer
| AwaitShutdown
| ClosePool.

(** A program of the binary: the actions taken, and the result. *)
Definition script (A : Type) : Type := list action * result string A.
(** Only these can fail: the logger is set once, [pool.close] returns nothing, and
    [ServerHandle::run] logs the errors of the tasks and returns [Ok]. *)
Definition outcome (world : action -> result string unit) (a : action) : result string unit :=
  match a with
  | Connect _ _ | SelectOne | RunMigrations | StartServer => world a
  | _ => Ok tt
  end.
Definition attempt (world : action -> result string unit) (a : action) : script unit :=
  ([a], outcome world a).
#[export] Instance script_ret : MRet script := fun A a => ([], Ok a).
#[export] Instance script_bind : MBind script := fun A B k p =>
  match p with
  | (l, Ok a) => let '(l', r) := k a in (l ++ l', r)
  | (l, Err e) => (l, Err e)
  end.

Section commands.
Context (world : action -> result string unit).

Definition connect_db (config : AppConfig) : script unit :=
  attempt world (Connect (pool_options config) (url (db_config config)));;
  attempt world SelectOne.
Definition run_migrations : script unit := attempt world RunMigrations.

Definition run_command (command : Command) (config : AppConfig) : script unit :=
  connect_db config;;
  match command with
  | Command_Migrate =>
      run_migrations;;
      attempt world ClosePool
  | Command_Serve with_migrations =>
      (if with_migrations then run_migrations else mret tt);;
      attempt world StartServer;;
      attempt world AwaitShutdown
  end.

(** [main]: the actions and the exit code. *)
Definition main (default_env : option string) (config : result ConfigError AppConfig)
    (command : Command) : list action * Z :=
  match config with
  | Err e => ([Eprintln ("fatal: " +:+ ConfigError_to_string e)], 1)
  | Ok config =>
      let '(filter, format) := init_tracing default_env (logging config) in
      let started := [InitTracing filter format; LogSummary (log_summary config)] in
      match run_command command config with
      | (l, Ok _) => (started ++ l, 0)
      | (l, Err e) => (started ++ l ++ [LogFatal e], 1)
      end
  end.
End commands.

(** ** The life of the process *)

(** From the process that [serve] hands over. *)
Definition serving : process := spawn_servers (spawn_background boot).
Definition proc_reachable (p : process) : Prop := rtc proc_step serving p.

(** The phases in which the shutdown has been sent. *)
Definition sent (ph : phase) : bool :=
  match ph with AwaitHttp | AwaitGrpc | Closing _ | Stopped _ => true | _ => false end.

(** A task that has ended without an error was told to. *)
Definition told (t : task_state) (p : process) : Prop :=
  t = Ended (Joined (Ok tt)) -> sent (pr_phase p) = true.

Record process_ok (p : process) : Prop := {
  po_accepting : hs_accepting (pr_health p) = bool_decide (pr_phase p = Waiting);
  po_channel : pr_channel p = match pr_phase p with
                              | Waiting | Marked => Some false
                              | Stopped _ => None
                              | _ => Some true
                              end;
  po_gives : pr_gives p = match pr_phase p with Closing _ | Stopped _ => false | _ => true end;
  po_pool : pr_pool_open p = match pr_phase p with Stopped _ => false | _ => true end;
  po_phase : pr_phase p <> NoHandle;
  po_http : told (pr_http p) p;
  po_grpc : told (pr_grpc p) p;
  po_http_joined : pr_phase p = AwaitGrpc \/ pr_phase p = Closing false \/ pr_phase p = Stopped false ->
    exists r, pr_http p = Ended r;
  po_grpc_joined : pr_phase p = Closing false \/ pr_phase p = Stopped false ->
    exists r, pr_grpc p = Ended r
}.

Lemma woken_sent p : process_ok p -> woken p = sent (pr_phase p).
Proof.
  intros Hok. unfold woken. rewrite (po_channel _ Hok).
  pose proof (po_phase _ Hok). by destruct (pr_phase p).
Qed.

Lemma drain_step_ok p p' : process_ok p -> drain_step p p' -> process_ok p'.
Proof.
  intros [Ha Hc Hv Hp Hf Hh Hg Hhj Hgj] Hs.
  destruct Hs as [p H|p H|p r H Hr|p r H Hr|p H|p b H _]; unfold told in *;
    try destruct H as [H|H]; rewrite H in *; split; unfold told; simpl; try done; eauto;
    naive_solver.
Qed.

Lemma proc_step_ok p p' : process_ok p -> proc_step p p' -> process_ok p'.
Proof.
  intros Hok Hs. pose proof (woken_sent _ Hok) as Hw.
  destruct Hs as [p p' Hd| | | | | | | | |p Hv|p p' [? n Hn]];
    [by eapply drain_step_ok|..]; destruct Hok as [Ha Hc Hv' Hp Hf Hh Hg Hhj Hgj];
    split; unfold told, failure in *; simpl; try done; try naive_solver.
Qed.

Lemma proc_reachable_ok p : proc_reachable p -> process_ok p.
Proof.
  intros Hr. eapply rtc_ind_r; [| |exact Hr].
  - split; unfold told; simpl; try done; naive_solver.
  - intros p1 p2 _ Hs IH. by eapply proc_step_ok.
Qed.

Lemma ready_shut state q : hs_accepting state = false -> ready state q = StatusCode_SERVICE_UNAVAILABLE.
Proof. unfold ready. by intros ->. Qed.

Lemma accepting_shut p p' :
  rtc proc_step p p' -> hs_accepting (pr_health p) = false -> hs_accepting (pr_health p') = false.
Proof.
  induction 1 as [p|p1 p2 p3 Hs _ IH]; [done|]. intros Ha. apply IH.
  destruct Hs as [p1 p2 Hd| | | | | | | | | |p1 p2 Hd]; try done; by destruct Hd.
Qed.

(** C31.  The shutdown is in order: the readiness probe answers 503 before any task is told
    to stop, and keeps doing so; a server task that ends without an error was told to;
    the pool is closed last, after both servers have ended unless the timeout has
    struck. *)
Theorem shutdown_in_order p :
  proc_reachable p ->
  (woken p = true -> forall p' q, rtc proc_step p p' ->
     probe "/ready" (pr_health p') q = Some StatusCode_SERVICE_UNAVAILABLE) /\
  (pr_http p = Ended (Joined (Ok tt)) \/ pr_grpc p = Ended (Joined (Ok tt)) -> woken p = true) /\
  (pr_pool_open p = false -> exists timed_out, pr_phase p = Stopped timed_out /\
     (timed_out = false -> exists r r', pr_http p = Ended r /\ pr_grpc p = Ended r')).
Proof.
  intros Hr. pose proof (proc_reachable_ok _ Hr) as Hok.
  pose proof (woken_sent _ Hok) as Hw. rewrite Hw. split_and!.
  - intros Hs p' q Hpp. change (probe "/ready" (pr_health p') q) with (Some (ready (pr_health p') q)).
    f_equal. apply ready_shut. eapply accepting_shut; [exact Hpp|].
    rewrite (po_accepting _ Hok), bool_decide_false; [done|]. by intros Heq; rewrite Heq in Hs.
  - intros [Hh|Hg]; [by apply (po_http _ Hok)|by apply (po_grpc _ Hok)].
  - rewrite (po_pool _ Hok). destruct (pr_phase p) as [| | | | | |b] eqn:Hph; try done.
    intros _. exists b. split; [done|]. intros ->.
    destruct (po_http_joined _ Hok) as [r Hrh]; [by rewrite Hph; auto|].
    destruct (po_grpc_joined _ Hok) as [r' Hrg]; [by rewrite Hph; auto|]. eauto.
Qed.

(** *** The end of the drain *)

(** The handle moves, or a connection comes back. *)
Definition drain_or_release (p p' : process) : Prop := drain_step p p' \/ release_step p p'.

Definition drain_rank (ph : phase) : nat :=
  match ph with
  | Waiting => 5 | Marked => 4 | AwaitHttp => 3 | AwaitGrpc => 2 | Closing _ => 1 | _ => 0
  end.

Lemma drain_or_release_rank p p' : drain_or_release p p' ->
  (drain_rank (pr_phase p') + pr_out p' < drain_rank (pr_phase p) + pr_out p)%nat.
Proof.
  intros [[? H|? H|? ? H ?|? ? H ?|? [H|H]|? ? H Ho]|[? n H]]; simpl; rewrite H; simpl; lia.
Qed.

Lemma drain_terminates p : Acc (flip drain_or_release) p.
Proof.
  assert (forall n p, (drain_rank (pr_phase p) + pr_out p < n)%nat ->
    Acc (flip drain_or_release) p) as Hn;
    [|by apply (Hn (S (drain_rank (pr_phase p) + pr_out p))); lia].
  induction n as [|n IH]; intros q Hq; [lia|].
  constructor. intros q' Hs%drain_or_release_rank. apply IH. lia.
Qed.

(** What the handle waits for. *)
Lemma drain_moves p : pr_phase p <> NoHandle ->
  (exists b, pr_phase p = Stopped b) \/ (exists p', drain_step p p') \/
  exists b, pr_phase p = Closing b /\ (0 < pr_out p)%nat.
Proof.
  destruct (pr_phase p) as [| | | | |b|b] eqn:Hph; intros Hn; try done;
    [right; left; eauto using drain_step..| |left; eauto].
  right. destruct (pr_out p) as [|n] eqn:Ho; [left; eauto using drain_step|].
  right. exists b. split; [done|lia].
Qed.

Lemma closing_gives_nothing p b p' :
  process_ok p -> pr_phase p = Closing b -> proc_step p p' -> (pr_out p' <= pr_out p)%nat.
Proof.
  intros Hok Hph Hs. pose proof (po_gives _ Hok) as Hv. rewrite Hph in Hv.
  destruct Hs as [p p' Hd| | | | | | | | |p Hv'|p p' [? n Hn]]; simpl; try lia.
  - destruct Hd; simpl; lia.
  - congruence.
Qed.

(** C32.  The end of the drain.  Once the shutdown has begun, the handle and the connections
    that come back take finitely many steps, and as long as the process has not stopped
    one of these steps is possible, whatever the server tasks do: before the pool is
    closed the handle itself can go on, at worst by its timeout, and while it closes the
    pool it waits for nothing but the connections that are out, to which none is added.
    The background tasks are not awaited; once the shutdown has been sent, each of them
    that still loops can end. *)
Theorem drain_completes p :
  proc_reachable p ->
  Acc (flip drain_or_release) p /\
  ((exists timed_out, pr_phase p = Stopped timed_out) \/ (exists p', drain_step p p') \/
   (exists timed_out, pr_phase p = Closing timed_out /\ (0 < pr_out p)%nat /\
      exists p', release_step p p')) /\
  (forall timed_out p', pr_phase p = Closing timed_out -> proc_step p p' ->
     (pr_out p' <= pr_out p)%nat) /\
  (sent (pr_phase p) = true ->
     (pr_gauge p = true -> exists p', proc_step p p' /\ pr_gauge p' = false) /\
     (pr_integrity p = true -> exists p', proc_step p p' /\ pr_integrity p' = false)).
Proof.
  intros Hr. pose proof (proc_reachable_ok _ Hr) as Hok. split_and!.
  - apply drain_terminates.
  - destruct (drain_moves p (po_phase _ Hok)) as [?|[?|(b & Hb & Ho)]]; [by left|by right; left|].
    right; right. exists b. split_and!; [done|done|].
    destruct (pr_out p) as [|n] eqn:Hn; [lia|]. eexists. by apply (release p n).
  - intros b p' Hb Hs. by eapply closing_gives_nothing.
  - rewrite <- (woken_sent _ Hok). intros Hw. split; intros Hb.
    + exists (stop_gauge p). split; [by apply proc_gauge_stop|done].
    + exists (stop_integrity p). split; [by apply proc_integrity_stop|done].
Qed.

(** [serve_start] leaves the tables, and does not panic. *)
Lemma serve_start_outcome `{JsonLib, PgLib} w r w' :
  run_request serve_start w = (r, w') ->
  w_db w' = w_db w /\ match r with
                      | Some (Ok _) => w_cache w' = mirror (accounts (w_db w))
                      | Some (Err _) => True
                      | None => False
                      end.
Proof.
  destruct r as [[[]|e]|]; intros Hrun.
  - by apply serve_start_effect in Hrun as (Hdb & _ & _ & Hc).
  - split; [|done]. revert Hrun. unfold run_request, serve_start. simpl.
    unfold step_pool, next_fault. simpl.
    destruct (mjoin (head (w_faults w))); simpl; [by intros [= _ <-]|done].
  - revert Hrun. unfold run_request, serve_start. simpl. unfold step_pool, next_fault. simpl.
    by destruct (mjoin (head (w_faults w))).
Qed.

(** C33.  Starting the server.  On success both servers and both background tasks run, the
    shutdown channel is open and silent, the process accepts requests and its pool gives
    out connections, the cache holds the balances of the tables, the recorder is
    installed, and the handle has the addresses of the two listeners and the timeout of
    the configuration.  On an error no server task was started and there is no handle:
    either the balances could not be loaded and nothing was spawned, or a port could not
    be bound or its address not be read, and the background tasks are woken to end.
    [serve] panics only when the recorder cannot be installed, before it touches
    anything. *)
Theorem serve_outcome `{JsonLib, PgLib} {listener M} (bind : Z -> result string listener)
    local_addr (build : result string M) config rc w r p rc' w' :
  serve bind local_addr build config rc w = (r, p, rc', w') ->
  w_db w' = w_db w /\
  match r with
  | Some (Ok h) =>
      pr_http p = Running /\ pr_grpc p = Running /\ pr_gauge p = true /\ pr_integrity p = true /\
      pr_channel p = Some false /\ hs_accepting (pr_health p) = true /\ pr_gives p = true /\
      pr_pool_open p = true /\ pr_phase p = Waiting /\ proc_reachable p /\
      w_cache w' = mirror (accounts (w_db w)) /\ is_Some (rc_handle rc') /\
      (exists l, bind (http_port (server config)) = Ok l /\ local_addr l = Ok (sh_http_addr h)) /\
      (exists l, bind (grpc_port (server config)) = Ok l /\ local_addr l = Ok (sh_grpc_addr h)) /\
      sh_timeout h = shutdown_timeout_secs (server config)
  | Some (Err e) =>
      pr_http p = NotStarted /\ pr_grpc p = NotStarted /\ woken p = true /\ pr_phase p = NoHandle /\
      ((pr_gauge p = false /\ pr_integrity p = false /\ exists e',
          (run_request serve_start w).1 = Some (Err e') /\ e = StorageError_to_string e') \/
       (pr_gauge p = true /\ pr_integrity p = true /\ exists port,
          (port = http_port (server config) \/ port = grpc_port (server config)) /\
          (bind port = Err e \/ exists l, bind port = Ok l /\ local_addr l = Err e)))
  | None => install_recorder build rc = None /\ p = boot /\ rc' = rc /\ w' = w
  end.
Proof.
  unfold serve. destruct (install_recorder build rc) as [[m rc1]|] eqn:Hrec; [|by intros [= <- <- <- <-]].
  apply install_recorder_once in Hrec as [Hm _].
  destruct (run_request serve_start w) as [r0 w0] eqn:Hrun.
  destruct (serve_start_outcome _ _ _ Hrun) as [Hdb Hc].
  destruct r0 as [[[]|e]|]; [|intros [= <- <- <- <-]; split; [done|]; naive_solver|done].
  pose proof (listen_spec bind local_addr (http_port (server config))) as Hh.
  pose proof (listen_spec bind local_addr (grpc_port (server config))) as Hg.
  destruct (listen _ _ (http_port _)) as [ha|e]; [destruct (listen _ _ (grpc_port _)) as [ga|e]|];
    intros [= <- <- <- <-]; (split; [done|]); simpl; split_and!; try done; eauto.
  - apply rtc_refl.
  - right. split_and!; [done|done|]. eauto.
  - right. split_and!; [done|done|]. eauto.
Qed.

(** *** The commands *)

(** What a command does when nothing fails. *)
Definition plan (command : Command) (config : AppConfig) : list action :=
  [Connect (pool_options config) (url (db_config config)); SelectOne] ++
  match command with
  | Command_Migrate => [RunMigrations; ClosePool]
  | Command_Serve true => [RunMigrations; StartServer; AwaitShutdown]
  | Command_Serve false => [StartServer; AwaitShutdown]
  end.
Definition setup_log (default_env : option string) (config : AppConfig) : list action :=
  [InitTracing (default (level (logging config)) default_env)
     (if decide (format (logging config) = "json") then LogJson else LogPretty);
   LogSummary (log_summary config)].

(** Take the actions of a plan until one fails. *)
Fixpoint follow (world : action -> result string unit) (l : list action) : script unit :=
  match l with
  | [] => mret tt
  | a :: l => attempt world a;; follow world l
  end.

Definition succeeds (world : action -> result string unit) (a : action) : Prop :=
  outcome world a = Ok tt.

Lemma attempt_bind world a (k : unit -> script unit) :
  (x ← attempt world a; k x) =
    match outcome world a with Ok _ => (a :: (k tt).1, (k tt).2) | Err e => ([a], Err e) end.
Proof.
  unfold mbind, script_bind, attempt. destruct (outcome world a) as [[]|e]; [|done].
  by destruct (k tt).
Qed.

Lemma run_command_follow world command config :
  run_command world command config = follow world (plan command config).
Proof.
  unfold run_command, connect_db, run_migrations, plan, mbind, script_bind, attempt, mret, script_ret.
  destruct command as [|[]]; simpl; unfold mbind, script_bind, attempt, mret, script_ret; simpl;
    repeat match goal with |- context [world ?a] => destruct (world a) as [[]|]; simpl end; done.
Qed.

Lemma follow_cases world l :
  (Forall (succeeds world) l /\ follow world l = (l, Ok tt)) \/
  (exists taken a rest e, l = taken ++ a :: rest /\ Forall (succeeds world) taken /\
     outcome world a = Err e /\ follow world l = (taken ++ [a], Err e)).
Proof.
  induction l as [|a l IH]; [by left|]. cbn [follow]. rewrite attempt_bind.
  destruct (outcome world a) as [[]|e] eqn:Ha.
  - destruct IH as [[Hl ->]|(taken & b & rest & e & -> & Ht & Hb & ->)]; [left; by auto|].
    right. exists (a :: taken), b, rest, e. by auto.
  - right. by exists [], a, l, e.
Qed.

(** C34.  The binary: with an invalid configuration it reports it, touches nothing and exits
    with 1; otherwise it sets up the log and takes the steps of the command in their
    order.  Either every step succeeds and it exits with 0, having taken all of them, or
    it stops at the first that fails, logs its error and exits with 1.  In particular
    [migrate] never starts the server, and the server is started without migrations
    unless they were asked for. *)
Theorem command_runs_plan world default_env config command :
  match config with
  | Err e => main world default_env config command =
      ([Eprintln ("fatal: " +:+ ConfigError_to_string e)], 1)
  | Ok c =>
      (Forall (succeeds world) (plan command c) /\
       main world default_env config command = (setup_log default_env c ++ plan command c, 0)) \/
      (exists taken a rest e, plan command c = taken ++ a :: rest /\
         Forall (succeeds world) taken /\ outcome world a = Err e /\
         main world default_env config command =
           (setup_log default_env c ++ taken ++ [a; LogFatal e], 1))
  end.
Proof.
  destruct config as [c|e]; [|done]. unfold main, init_tracing. rewrite run_command_follow.
  destruct (follow_cases world (plan command c)) as [[Hl ->]|(taken & a & rest & e & Hp & Ht & Ha & ->)].
  - by left.
  - right. exists taken, a, rest, e. by rewrite <- app_assoc.
Qed.

(** ** Concrete cases *)

(** The shutdown has been sent, the servers still run. *)
Definition stopping : process := drain_send (drain_mark serving).
Lemma stopping_reachable : proc_reachable stopping.
Proof.
  eapply rtc_l; [apply proc_drain, drain_signal; reflexivity|].
  apply rtc_once, proc_drain, drain_sent. reflexivity.
Qed.

Lemma shutdown_in_order_witness :
  woken stopping = true /\
  probe "/ready" (pr_health stopping) (Ok 1) = Some StatusCode_SERVICE_UNAVAILABLE.
Proof.
  split; [reflexivity|].
  exact (proj1 (shutdown_in_order stopping stopping_reachable) eq_refl stopping (Ok 1) (rtc_refl _ _)).
Defined.

(** The timeout has struck while a request has a connection. *)
Definition held_up : process :=
  drain_close true (drain_send (drain_mark (set_pool true 1 true serving))).
Lemma held_up_reachable : proc_reachable held_up.
Proof.
  eapply rtc_l; [apply proc_acquire; reflexivity|].
  eapply rtc_l; [apply proc_drain, drain_signal; reflexivity|].
  eapply rtc_l; [apply proc_drain, drain_sent; reflexivity|].
  apply rtc_once, proc_drain, drain_timeout. left. reflexivity.
Qed.
Lemma drain_completes_witness :
  Acc (flip drain_or_release) held_up /\ exists p', release_step held_up p'.
Proof.
  destruct (drain_completes held_up held_up_reachable) as (Hacc & Hmove & _).
  split; [exact Hacc|]. destruct Hmove as [[b Hb]|[[p' Hp]|(b & _ & _ & Hm)]]; [discriminate Hb| |exact Hm].
  inversion Hp as [? H|? H|? ? H|? ? H|? [H|H]|? ? H Ho]; subst; discriminate.
Defined.
(** The process can stop while the background tasks still loop. *)
Example drain_leaves_background : exists p, proc_reachable p /\ pr_phase p = Stopped true /\
  pr_gauge p = true /\ pr_integrity p = true.
Proof.
  exists (drain_stop true (drain_close true stopping)). split_and!; [|done..].
  eapply rtc_r; [eapply rtc_r; [exact stopping_reachable|]|];
    apply proc_drain; [apply drain_timeout; by left|by apply drain_closed].
Qed.

Import Sample.

Definition sample_config : AppConfig :=
  mkAppConfig (mkServerConfig 50051 9090 30) (mkDatabaseConfig "postgres://db" 10 1 5 600)
    (mkLoggingConfig "info" "json") (mkObservabilityConfig 60).
Lemma serve_outcome_witness :
  exists w', serve (listener := Z) Ok Ok (Ok tt) sample_config (mk_recorder None []) funded =
    (Some (Ok (mkServerHandle 50051 9090 30)), serving, mk_recorder (Some tt) describe_metrics, w') /\
  pr_grpc serving = Running.
Proof.
  eexists. split; [vm_compute; reflexivity|].
  refine (proj1 (proj2 (proj2 (serve_outcome (listener := Z) Ok Ok (Ok tt) sample_config
    (mk_recorder None []) funded (Some (Ok (mkServerHandle 50051 9090 30))) serving
    (mk_recorder (Some tt) describe_metrics) _ _)))).
  vm_compute. reflexivity.
Defined.
