(* ===== verification/LoadGen.v ===== *)
(** * The load generator: [fides-load/src/main.rs]

    The client of the service: setup, the loop of a worker, the counters the workers
    share, and the figures of the report.  A worker is a program over three effects
    (a call, a counter, a latency sample); the workers interleave at every effect, and
    with the steps of the server between a call and its answer.  The server is any
    system that takes requests and answers them later ([LedgerServer]).  Choices of the
    random generator, fresh idempotency keys and measured times are inputs. *)

From S2P Require Import Prelude.
From S2P Require Import Money Accounts Transactions Entries Validation.
From S2P Require Import StorageErrors Schema Cache Effects Triples Postgres.
From S2P Require Import ServiceErrors Ledger Invariant Updates PostgresSpecs LedgerSpecs.
From S2P Require Import Preserve Handlers HandlerSpecs AuthorizeSpec SettleSpec System.
From S2P Require Import Safety Concrete.
From Stdlib Require Import SpecFloat.
Local Open Scope Z_scope.

(** ** Counters *)

Record Stats := mkStats {
  captures : Z; voids : Z; balance_checks : Z; account_lookups : Z; entry_streams : Z;
  insufficient_funds : Z; idempotent_hits : Z; rejected : Z; errors : Z
}.
Definition Stats_new : Stats := mkStats 0 0 0 0 0 0 0 0 0.

(** [AtomicU64] *)
Definition u64_wrap (z : Z) : Z := z mod 2 ^ 64.
Definition Stats_total_ops (self : Stats) : Z :=
  u64_wrap (captures self + voids self + balance_checks self + account_lookups self +
            entry_streams self + insufficient_funds self + idempotent_hits self +
            rejected self + errors self).

(** A field of [Stats], and [fetch_add(1, ..)] on it. *)
Inductive stat :=
| Captures | Voids | BalanceChecks | AccountLookups | EntryStreams
| InsufficientFunds | IdempotentHits | Rejected | Errors.
#[export] Instance stat_eq_dec : EqDecision stat.
Proof. solve_decision. Defined.

Definition Stats_get (f : stat) (s : Stats) : Z :=
  match f with
  | Captures => captures s | Voids => voids s | BalanceChecks => balance_checks s
  | AccountLookups => account_lookups s | EntryStreams => entry_streams s
  | InsufficientFunds => insufficient_funds s | IdempotentHits => idempotent_hits s
  | Rejected => rejected s | Errors => errors s
  end.
Definition fetch_add (f : stat) (s : Stats) : Stats :=
  let bump g x := if decide (f = g) then u64_wrap (x + 1) else x in
  mkStats (bump Captures (captures s)) (bump Voids (voids s))
    (bump BalanceChecks (balance_checks s)) (bump AccountLookups (account_lookups s))
    (bump EntryStreams (entry_streams s)) (bump InsufficientFunds (insufficient_funds s))
    (bump IdempotentHits (idempotent_hits s)) (bump Rejected (rejected s)) (bump Errors (errors s)).

(** ** The choice of the operation *)

Definition OP_CAPTURE : Z := 40.
Definition OP_VOID : Z := 55.
Definition OP_INSUF_FUNDS : Z := 65.
Definition OP_IDEMPOTENT : Z := 70.
Definition OP_GET_BALANCE : Z := 85.
Definition OP_GET_ACCOUNT : Z := 95.

Inductive operation :=
| OpCapture | OpVoid | OpInsufFunds | OpIdempotent | OpGetBalance | OpGetAccount | OpGetEntries.
#[export] Instance operation_eq_dec : EqDecision operation.
Proof. solve_decision. Defined.

Definition choose (roll : Z) : operation :=
  if decide (roll < OP_CAPTURE) then OpCapture
  else if decide (roll < OP_VOID) then OpVoid
  else if decide (roll < OP_INSUF_FUNDS) then OpInsufFunds
  else if decide (roll < OP_IDEMPOTENT) then OpIdempotent
  else if decide (roll < OP_GET_BALANCE) then OpGetBalance
  else if decide (roll < OP_GET_ACCOUNT) then OpGetAccount
  else OpGetEntries.

(** ** Programs of the client *)

(** A call fails with the status of the server, or in the transport. *)
Inductive call_error := FromServer (s : Status) | Transport (msg : string).
Definition classify_error (e : call_error) : stat :=
  match e with
  | FromServer s =>
      match Status_code s with
      | Code_FailedPrecondition | Code_Aborted | Code_AlreadyExists => Rejected
      | _ => Errors
      end
  | Transport _ => Errors
  end.

(** [CPanic] is a failed [unwrap]. *)
Inductive client (A : Type) : Type :=
| CRet (a : A)
| CCall (req : request) (k : result call_error response -> client A)
| CCount (f : stat) (k : client A)
| CLatency (k : client A)
| CPanic.
Arguments CRet {A} a. Arguments CCall {A} req k. Arguments CCount {A} f k.
Arguments CLatency {A} k. Arguments CPanic {A}.

Fixpoint client_bind {A B} (p : client A) (g : A -> client B) : client B :=
  match p with
  | CRet a => g a
  | CCall req k => CCall req (fun r => client_bind (k r) g)
  | CCount f k => CCount f (client_bind k g)
  | CLatency k => CLatency (client_bind k g)
  | CPanic => CPanic
  end.

(** [amount] from [from] (credited) to [to] (debited), as the workers send it. *)
Definition transfer_request (key : string) (from to amount : Z) : request :=
  Authorize (mkAuthorizeRequest key
    [mkProtoTransferLeg from 2 amount; mkProtoTransferLeg to 1 amount] "").

(** [resp.into_inner().transaction.unwrap().id] *)
Definition transaction_id (r : response) : option Z :=
  match r with AuthorizedResponse a => Some (pt_id (ar_transaction a)) | _ => None end.

(** What the accounts of a run are. *)
Record accounts_pool := mk_accounts_pool {
  assets : list Z; equities : list Z; broke_asset : Z; broke_equity : Z
}.

(** The inputs of one round: the roll, the chosen accounts and a fresh key. *)
Record choice := mk_choice { ch_roll : Z; ch_asset : Z; ch_equity : Z; ch_key : string }.

(** The local variables of a worker. *)
Record worker := mk_worker {
  last_idempotency_key : option string;
  last_captured_tx : option Z
}.
Definition worker_new : worker := mk_worker None None.

(** Authorize, then settle with [settle]; [on_ok] is the worker afterwards. *)
Definition authorize_then (key : string) (from to amount : Z) (settle : Z -> request)
    (success : stat) (on_ok : Z -> worker) (w : worker) : client worker :=
  CCall (transfer_request key from to amount) (fun auth =>
    match auth with
    | Ok resp =>
        match transaction_id resp with
        | None => CPanic
        | Some tx_id =>
            CCall (settle tx_id) (fun r =>
              match r with
              | Ok _ => CCount success (CLatency (CRet (on_ok tx_id)))
              | Err e => CCount (classify_error e) (CRet w)
              end)
        end
    | Err e => CCount (classify_error e) (CRet w)
    end).

(** A call whose answer is ignored. *)
Definition call_and_count (req : request) (f : stat) (k : client worker) : client worker :=
  CCall req (fun _ => CCount f k).

(** One round of the loop. *)
Definition round (pool : accounts_pool) (amount : Z) (ch : choice) (w : worker) : client worker :=
  let asset := ch_asset ch in
  let equity := ch_equity ch in
  match choose (ch_roll ch) with
  | OpCapture =>
      authorize_then (ch_key ch) asset equity amount Capture Captures
        (fun tx_id => mk_worker (Some (ch_key ch)) (Some tx_id)) w
  | OpVoid => authorize_then (ch_key ch) asset equity amount Void Voids (fun _ => w) w
  | OpInsufFunds =>
      call_and_count (transfer_request (ch_key ch) (broke_asset pool) (broke_equity pool) 999999)
        InsufficientFunds (CRet w)
  | OpIdempotent =>
      let recapture :=
        match last_captured_tx w with
        | Some tx_id => call_and_count (Capture tx_id) IdempotentHits (CRet w)
        | None => CRet w
        end in
      match last_idempotency_key w with
      | Some key =>
          call_and_count (transfer_request key asset equity amount) IdempotentHits recapture
      | None => recapture
      end
  | OpGetBalance => call_and_count (GetBalance asset) BalanceChecks (CRet w)
  | OpGetAccount => call_and_count (GetAccount asset) AccountLookups (CRet w)
  | OpGetEntries => call_and_count (GetEntries asset) EntryStreams (CRet w)
  end.

(** A worker until it sees the stop flag, after the given rounds. *)
Fixpoint worker_loop (pool : accounts_pool) (amount : Z) (rounds : list choice) (w : worker)
  : client worker :=
  match rounds with
  | [] => CRet w
  | ch :: rounds => client_bind (round pool amount ch w) (worker_loop pool amount rounds)
  end.

(** ** Setup *)

(** [call(..).await?] *)
Definition cio (A : Type) : Type := client (result call_error A).
#[export] Instance cio_ret : MRet cio := fun A a => CRet (Ok a).
#[export] Instance cio_bind : MBind cio := fun A B k p =>
  client_bind p (fun r => match r with Ok a => k a | Err e => CRet (Err e) end).
Definition call (req : request) : cio response := CCall req (fun r => CRet r).
Definition expect {A} (o : option A) : cio A :=
  match o with Some a => CRet (Ok a) | None => CPanic end.

(** [resp.account.unwrap().id] *)
Definition account_id (r : response) : option Z :=
  match r with AccountResponse a => Some (pa_id a) | _ => None end.
Definition create (account_type : Z) : cio Z :=
  resp ← call (CreateAccount (mkCreateAccountRequest account_type "USD" 2));
  expect (account_id resp).
Fixpoint create_many (account_type : Z) (n : nat) : cio (list Z) :=
  match n with
  | O => mret []
  | S n => id ← create account_type; ids ← create_many account_type n; mret (id :: ids)
  end.

Definition fund_amount : Z := 1000000.
(** Fund the assets from index [i] on, each from its paired equity account;
    [uuid i] is the fresh key of round [i]. *)
Fixpoint fund (i : nat) (assets equities : list Z) (uuid : nat -> string) : cio unit :=
  match assets with
  | [] => mret tt
  | asset_id :: assets =>
      equity ← expect (equities !! (i mod length equities)%nat);
      resp ← call (Authorize (mkAuthorizeRequest (uuid i)
        [mkProtoTransferLeg asset_id 1 fund_amount; mkProtoTransferLeg equity 2 fund_amount] ""));
      tx_id ← expect (transaction_id resp);
      call (Capture tx_id);;
      fund (S i) assets equities uuid
  end.

(** [None]: the process exits because it needs at least two accounts. *)
Definition setup (accounts : nat) (uuid : nat -> string) : option (cio accounts_pool) :=
  let half := (accounts / 2)%nat in
  if decide (half = 0)%nat then None
  else Some (
    assets ← create_many 1 half;
    equities ← create_many 3 half;
    broke_asset ← create 1;
    broke_equity ← create 3;
    fund 0 assets equities uuid;;
    mret (mk_accounts_pool assets equities broke_asset broke_equity)).

(** ** The run *)

Abbreviation f64 := spec_float (only parsing).

(** A server: it accepts a request under a ticket, makes steps of its own, and has an
    answer for the ticket at some point. *)
Class LedgerServer (S : Type) := {
  sv_send : request -> S -> nat -> S -> Prop;
  sv_runs : S -> S -> Prop;
  sv_answer : nat -> S -> result call_error response -> Prop
}.

(** A client, and the ticket of the call it waits for. *)
Record runner (A : Type) := mk_runner { rn_prog : client A; rn_call : option nat }.
Arguments mk_runner {A}. Arguments rn_prog {A}. Arguments rn_call {A}.

Section load.
Context {S : Type} {HS : LedgerServer S} {A : Type}.

Record load := mk_load {
  ld_server : S;
  ld_stats : Stats;
  ld_latencies : list f64;
  ld_workers : list (runner A)
}.

(** A call that fails in the transport may have reached the server, which then goes
    on with it. *)
Inductive load_step : load -> load -> Prop :=
| load_server s' l :
    sv_runs (ld_server l) s' ->
    load_step l (mk_load s' (ld_stats l) (ld_latencies l) (ld_workers l))
| load_send i req k j s' l :
    ld_workers l !! i = Some (mk_runner (CCall req k) None) -> sv_send req (ld_server l) j s' ->
    load_step l (mk_load s' (ld_stats l) (ld_latencies l)
                   (<[i := mk_runner (CCall req k) (Some j)]> (ld_workers l)))
| load_receive i req k j r l :
    ld_workers l !! i = Some (mk_runner (CCall req k) (Some j)) -> sv_answer j (ld_server l) r ->
    load_step l (mk_load (ld_server l) (ld_stats l) (ld_latencies l)
                   (<[i := mk_runner (k r) None]> (ld_workers l)))
| load_lost i req k j msg l :
    ld_workers l !! i = Some (mk_runner (CCall req k) j) ->
    load_step l (mk_load (ld_server l) (ld_stats l) (ld_latencies l)
                   (<[i := mk_runner (k (Err (Transport msg))) None]> (ld_workers l)))
| load_count i f k l :
    ld_workers l !! i = Some (mk_runner (CCount f k) None) ->
    load_step l (mk_load (ld_server l) (fetch_add f (ld_stats l)) (ld_latencies l)
                   (<[i := mk_runner k None]> (ld_workers l)))
| load_latency i k x l :
    ld_workers l !! i = Some (mk_runner (CLatency k) None) ->
    load_step l (mk_load (ld_server l) (ld_stats l) (ld_latencies l ++ [x])
                   (<[i := mk_runner k None]> (ld_workers l))).

(** Clients that have not begun. *)
Definition clients_start (ps : list (client A)) (s : S) : load :=
  mk_load s Stats_new [] ((fun p => mk_runner p None) <$> ps).
Definition returned (r : runner A) : Prop := exists a, rn_prog r = CRet a.
End load.
Arguments load : clear implicits.

(** The workers start, each with the rounds it will make. *)
Definition load_start {S : Type} (pool : accounts_pool) (amount : Z)
    (rounds : list (list choice)) (s : S) : load S worker :=
  clients_start ((fun cs => worker_loop pool amount cs worker_new) <$> rounds) s.

(** ** The report *)

(** [n as f64] and [x as usize]: the cast truncates and saturates, and takes a NaN to 0. *)
Definition f64_of_usize (n : Z) : f64 := binary_normalize 53 1024 n 0 false.
Definition usize_max : Z := 2 ^ 64 - 1.
Definition f64_to_usize (x : f64) : Z :=
  match x with
  | S754_finite false m e =>
      Z.min usize_max (if decide (0 <= e) then Z.pos m * 2 ^ e else Z.pos m / 2 ^ (- e))
  | S754_infinity false => usize_max
  | _ => 0
  end.

Definition percentile (sorted : list f64) (pct : f64) : option f64 :=
  match sorted with
  | [] => Some (S754_zero false)
  | _ =>
      let len := Z.of_nat (length sorted) in
      let idx := f64_to_usize (SFmul 53 1024 (SFdiv 53 1024 pct (f64_of_usize 100)) (f64_of_usize len)) in
      let idx := Z.min idx (len - 1) in
      sorted !! Z.to_nat idx
  end.

(** The order of the samples, none of which is a NaN. *)
Definition f64_le (x y : f64) : Prop := SFleb x y = true.
#[export] Instance f64_le_dec : RelDecision f64_le.
Proof. intros x y. unfold f64_le. apply _. Defined.

Record report := mk_report {
  rp_total : Z; rp_throughput : f64;
  rp_p50 : option f64; rp_p95 : option f64; rp_p99 : option f64; rp_max : f64
}.
Definition make_report (stats : Stats) (latencies : list f64) (elapsed_secs : f64) : report :=
  let total := Stats_total_ops stats in
  let lats := merge_sort f64_le latencies in
  mk_report total
    (if SFltb (S754_zero false) elapsed_secs
     then SFdiv 53 1024 (f64_of_usize total) elapsed_secs else S754_zero false)
    (percentile lats (f64_of_usize 50)) (percentile lats (f64_of_usize 95))
    (percentile lats (f64_of_usize 99)) (default (S754_zero false) (last lats)).

(** ** What a program counts *)

(** On every path that returns, the weights of the counters add up to a number
    between [lo] and [hi]. *)
Fixpoint tally (weight : stat -> Z) {A} (lo hi : Z) (p : client A) : Prop :=
  match p with
  | CRet _ => lo <= 0 <= hi
  | CCall _ k => forall r, tally weight lo hi (k r)
  | CCount f k => tally weight (lo - weight f) (hi - weight f) k
  | CLatency k => tally weight lo hi k
  | CPanic => True
  end.

Lemma tally_mono weight {A} lo hi lo' hi' (p : client A) :
  tally weight lo hi p -> lo' <= lo -> hi <= hi' -> tally weight lo' hi' p.
Proof.
  revert lo hi lo' hi'. induction p as [a|req k IH|f k IH|k IH|]; intros lo hi lo' hi' Hp Hl Hh;
    simpl in *; [lia|eauto| |eauto|done]. eapply IH; [exact Hp|lia|lia].
Qed.
Lemma tally_bind weight {A B} lo hi lo' hi' (p : client A) (g : A -> client B) :
  tally weight lo hi p -> (forall a, tally weight lo' hi' (g a)) ->
  tally weight (lo + lo') (hi + hi') (client_bind p g).
Proof.
  revert lo hi. induction p as [a|req k IH|f k IH|k IH|]; intros lo hi Hp Hg; simpl in *; auto.
  - eapply tally_mono; [apply Hg|lia|lia].
  - replace (lo + lo' - weight f) with (lo - weight f + lo') by lia.
    replace (hi + hi' - weight f) with (hi - weight f + hi') by lia. by apply IH.
Qed.

(** The bounds of one round, of a worker and of all. *)
Definition op_bounds (weight : stat -> Z) (op : operation) : Z * Z :=
  match op with
  | OpCapture => (Z.min (weight Captures) (Z.min (weight Rejected) (weight Errors)),
                  Z.max (weight Captures) (Z.max (weight Rejected) (weight Errors)))
  | OpVoid => (Z.min (weight Voids) (Z.min (weight Rejected) (weight Errors)),
               Z.max (weight Voids) (Z.max (weight Rejected) (weight Errors)))
  | OpInsufFunds => (weight InsufficientFunds, weight InsufficientFunds)
  | OpIdempotent => (Z.min 0 (weight IdempotentHits + weight IdempotentHits),
                     Z.max 0 (weight IdempotentHits + weight IdempotentHits))
  | OpGetBalance => (weight BalanceChecks, weight BalanceChecks)
  | OpGetAccount => (weight AccountLookups, weight AccountLookups)
  | OpGetEntries => (weight EntryStreams, weight EntryStreams)
  end.

Lemma classify_cases e : classify_error e = Rejected \/ classify_error e = Errors.
Proof. destruct e as [[[] m]|m]; simpl; auto. Qed.

Lemma authorize_then_tally weight key from to amount settle success on_ok w :
  tally weight (Z.min (weight success) (Z.min (weight Rejected) (weight Errors)))
    (Z.max (weight success) (Z.max (weight Rejected) (weight Errors)))
    (authorize_then key from to amount settle success on_ok w).
Proof.
  intros [resp|e]; simpl; [|destruct (classify_cases e) as [->| ->]; lia].
  destruct (transaction_id resp) as [tx_id|]; [|done].
  intros [r|e]; simpl; [lia|destruct (classify_cases e) as [->| ->]; lia].
Qed.

Lemma round_tally weight pool amount ch w :
  let b := op_bounds weight (choose (ch_roll ch)) in
  tally weight b.1 b.2 (round pool amount ch w).
Proof.
  unfold round. destruct (choose (ch_roll ch));
    [apply authorize_then_tally|apply authorize_then_tally|simpl; lia| |simpl; lia..].
  destruct (last_idempotency_key w), (last_captured_tx w); simpl; lia.
Qed.

Definition loop_bounds (weight : stat -> Z) (rounds : list choice) : Z * Z :=
  (Zsum (fun ch => (op_bounds weight (choose (ch_roll ch))).1) rounds,
   Zsum (fun ch => (op_bounds weight (choose (ch_roll ch))).2) rounds).

Lemma worker_loop_tally weight pool amount rounds w :
  tally weight (loop_bounds weight rounds).1 (loop_bounds weight rounds).2
    (worker_loop pool amount rounds w).
Proof.
  revert w. induction rounds as [|ch rounds IH]; intros w.
  - unfold loop_bounds, Zsum. simpl. lia.
  - unfold loop_bounds. rewrite !Zsum_cons. apply tally_bind; [apply round_tally|]. apply IH.
Qed.

(** ** Counting, whatever the interleaving *)

Definition log_weight (weight : stat -> Z) (log : list stat) : Z := Zsum weight log.
Definition tallies (weight : stat -> Z) (lo hi : Z) (ps : list (client worker)) : Prop :=
  exists rem : list (Z * Z), Forall2 (fun p r => tally weight r.1 r.2 p) ps rem /\
    lo <= Zsum fst rem /\ Zsum snd rem <= hi.

Lemma Zsum_insert {A} (f : A -> Z) (l : list A) i x y :
  l !! i = Some x -> Zsum f (<[i := y]> l) = Zsum f l - f x + f y.
Proof.
  revert i. induction l as [|z l IH]; intros [|i] Hi; simplify_eq/=; rewrite !Zsum_cons; [lia|].
  rewrite IH by done. lia.
Qed.

Lemma tallies_step weight lo hi ps i p p' d :
  tallies weight lo hi ps -> ps !! i = Some p ->
  (forall lo hi, tally weight lo hi p -> tally weight (lo - d) (hi - d) p') ->
  tallies weight (lo - d) (hi - d) (<[i := p']> ps).
Proof.
  intros (rem & Hf & Hlo & Hhi) Hi Hp.
  destruct (Forall2_lookup_l _ _ _ _ _ Hf Hi) as ([lo_i hi_i] & Hr & Ht).
  exists (<[i := (lo_i - d, hi_i - d)]> rem). split_and!.
  - apply Forall2_insert; [done|]. by apply Hp.
  - rewrite (Zsum_insert _ _ _ _ _ Hr). simpl. lia.
  - rewrite (Zsum_insert _ _ _ _ _ Hr). simpl. lia.
Qed.

Section counting.
Context {S : Type} {HS : LedgerServer S}.
Implicit Types (l : load S worker).

(** The counters are those of a log, and the log accounts for the counters that the
    workers have still to make. *)
Definition counted (ps0 : list (client worker)) l : Prop :=
  exists log, ld_stats l = foldr fetch_add Stats_new log /\
    forall weight lo hi, tallies weight lo hi ps0 ->
      tallies weight (lo - log_weight weight log) (hi - log_weight weight log)
        (rn_prog <$> ld_workers l).

(** A step of worker [i] that counts nothing. *)
Lemma counted_same ps0 l i r p s lats :
  counted ps0 l -> ld_workers l !! i = Some r ->
  (forall weight lo hi, tally weight lo hi (rn_prog r) -> tally weight lo hi p) -> forall j,
  counted ps0 (mk_load s (ld_stats l) lats (<[i := mk_runner p j]> (ld_workers l))).
Proof.
  intros (log & Hst & Hw) Hi Hp j. exists log. split; [done|]. intros weight lo hi Ht. simpl.
  rewrite list_fmap_insert. simpl. apply Hw in Ht.
  eapply (tallies_step _ _ _ _ i (rn_prog r) p 0) in Ht.
  - by rewrite !Z.sub_0_r in Ht.
  - by rewrite list_lookup_fmap, Hi.
  - intros lo' hi' Hk. rewrite !Z.sub_0_r. by apply Hp.
Qed.

Lemma counted_step ps0 l l' : counted ps0 l -> load_step l l' -> counted ps0 l'.
Proof.
  intros Hc Hs. destruct Hs as [s' l _|i req k j s' l Hi _|i req k j r l Hi _|i req k j msg l Hi|
    i f k l Hi|i k x l Hi]; [exact Hc|eapply counted_same; [done..|]; simpl; auto..| |
    eapply counted_same; [done..|]; simpl; auto].
  destruct Hc as (log & Hst & Hw). exists (f :: log). simpl. split; [by rewrite Hst|].
  intros weight lo hi Ht. unfold log_weight. rewrite Zsum_cons, list_fmap_insert. apply Hw in Ht.
  eapply (tallies_step _ _ _ _ i (CCount f k) k (weight f)) in Ht;
    [|by rewrite list_lookup_fmap, Hi|done].
  unfold log_weight in Ht. simpl.
  by replace (lo - (weight f + Zsum weight log)) with (lo - Zsum weight log - weight f) by lia;
    replace (hi - (weight f + Zsum weight log)) with (hi - Zsum weight log - weight f) by lia.
Qed.

Lemma counted_start ps0 s l' : rtc load_step (clients_start ps0 s) l' -> counted ps0 l'.
Proof.
  intros Hr. assert (counted ps0 (clients_start ps0 s)) as Hc.
  { exists []. split; [done|]. intros weight lo hi. unfold log_weight, Zsum. simpl.
    rewrite !Z.sub_0_r, <- list_fmap_compose. unfold compose. simpl. by rewrite list_fmap_id. }
  revert Hc. induction Hr as [l|l1 l2 l3 Hs _ IH]; [done|]. eauto using counted_step.
Qed.

Lemma tallies_done weight lo hi (rs : list (runner worker)) :
  tallies weight lo hi (rn_prog <$> rs) -> Forall returned rs -> lo <= 0 <= hi.
Proof.
  intros (rem & Hf & Hlo & Hhi) Hr.
  assert (Zsum fst rem <= 0 <= Zsum snd rem); [|lia]. clear Hlo Hhi.
  apply Forall2_fmap_l in Hf.
  induction Hf as [|p [a b] ps rem Ht _ IH]; [unfold Zsum; simpl; lia|].
  apply Forall_cons in Hr as [[w Hw] Hr]. simpl in Ht. rewrite Hw in Ht. rewrite !Zsum_cons.
  specialize (IH Hr). simpl in *. lia.
Qed.
End counting.

(** Rounds of all workers that chose an operation. *)
Definition rounds_of (op : operation) (rounds : list (list choice)) : Z :=
  Z.of_nat (length (filter (fun ch => choose (ch_roll ch) = op) (concat rounds))).

Lemma rounds_of_sum op rounds :
  rounds_of op rounds =
    Zsum (fun ch => if decide (choose (ch_roll ch) = op) then 1 else 0) (concat rounds).
Proof.
  unfold rounds_of. induction (concat rounds) as [|ch l IH]; [done|].
  rewrite filter_cons, Zsum_cons, <- IH. case_decide; simpl; lia.
Qed.

Lemma tallies_loops weight pool amount rounds :
  tallies weight (Zsum (fun ch => (op_bounds weight (choose (ch_roll ch))).1) (concat rounds))
    (Zsum (fun ch => (op_bounds weight (choose (ch_roll ch))).2) (concat rounds))
    ((fun cs => worker_loop pool amount cs worker_new) <$> rounds).
Proof.
  exists (loop_bounds weight <$> rounds). split_and!.
  - apply Forall2_fmap, Forall_Forall2_diag, Forall_forall. intros cs _. apply worker_loop_tally.
  - apply Z.eq_le_incl. induction rounds as [|cs rounds IH]; [done|].
    simpl. by rewrite Zsum_app, Zsum_cons, IH.
  - apply Z.eq_le_incl. induction rounds as [|cs rounds IH]; [done|].
    simpl. by rewrite Zsum_app, Zsum_cons, <- IH.
Qed.

Definition one (f g : stat) : Z := if decide (f = g) then 1 else 0.

Lemma Stats_get_log f log :
  Stats_get f (foldr fetch_add Stats_new log) = u64_wrap (log_weight (one f) log).
Proof.
  induction log as [|g log IH]; [by destruct f|]. unfold log_weight in *. rewrite Zsum_cons.
  simpl. revert IH. generalize (foldr fetch_add Stats_new log) as s. intros s IH. unfold one at 1.
  assert (forall x y, x = u64_wrap y -> u64_wrap (x + 1) = u64_wrap (1 + y)) as Hw.
  { intros x y ->. unfold u64_wrap. rewrite Z.add_comm. by rewrite Z.add_mod_idemp_r. }
  destruct f, g; simpl in *; auto; by rewrite IH.
Qed.

Lemma log_weight_bound weight log lo hi (rs : list (runner worker)) :
  tallies weight (lo - log_weight weight log) (hi - log_weight weight log) (rn_prog <$> rs) ->
  Forall returned rs -> lo <= log_weight weight log <= hi.
Proof. intros Ht Hr. apply tallies_done in Ht; [lia|done]. Qed.

Lemma log_weight_one_le f log : 0 <= log_weight (one f) log <= log_weight (fun _ => 1) log.
Proof.
  unfold log_weight. induction log as [|g log IH]; [unfold Zsum; simpl; lia|].
  rewrite !Zsum_cons. unfold one at 1 3. case_decide; lia.
Qed.
Lemma log_weight_add f g log :
  log_weight (fun s => f s + g s) log = log_weight f log + log_weight g log.
Proof. unfold log_weight. apply Zsum_add. Qed.
Lemma log_weight_ones log :
  log_weight (fun _ => 1) log =
    log_weight (one Captures) log + log_weight (one Voids) log +
    log_weight (one BalanceChecks) log + log_weight (one AccountLookups) log +
    log_weight (one EntryStreams) log + log_weight (one InsufficientFunds) log +
    log_weight (one IdempotentHits) log + log_weight (one Rejected) log +
    log_weight (one Errors) log.
Proof.
  rewrite <- !log_weight_add. unfold log_weight. apply Zsum_ext. intros f _. by destruct f.
Qed.

(** A sum over the rounds, operation by operation. *)
Lemma rounds_split (g : operation -> Z) rounds :
  Zsum (fun ch => g (choose (ch_roll ch))) (concat rounds) =
    g OpCapture * rounds_of OpCapture rounds + g OpVoid * rounds_of OpVoid rounds +
    g OpInsufFunds * rounds_of OpInsufFunds rounds + g OpIdempotent * rounds_of OpIdempotent rounds +
    g OpGetBalance * rounds_of OpGetBalance rounds + g OpGetAccount * rounds_of OpGetAccount rounds +
    g OpGetEntries * rounds_of OpGetEntries rounds.
Proof.
  rewrite !rounds_of_sum. induction (concat rounds) as [|ch l IH]; [unfold Zsum; simpl; lia|].
  rewrite !Zsum_cons, IH. destruct (choose (ch_roll ch)); simpl; lia.
Qed.

(** The weight of the log, from the rounds. *)
Definition rounds_weight (side : Z * Z -> Z) (weight : stat -> Z) (rounds : list (list choice)) : Z :=
  side (op_bounds weight OpCapture) * rounds_of OpCapture rounds +
  side (op_bounds weight OpVoid) * rounds_of OpVoid rounds +
  side (op_bounds weight OpInsufFunds) * rounds_of OpInsufFunds rounds +
  side (op_bounds weight OpIdempotent) * rounds_of OpIdempotent rounds +
  side (op_bounds weight OpGetBalance) * rounds_of OpGetBalance rounds +
  side (op_bounds weight OpGetAccount) * rounds_of OpGetAccount rounds +
  side (op_bounds weight OpGetEntries) * rounds_of OpGetEntries rounds.

Definition settled (f : stat) : Z := one Captures f + one Voids f + one Rejected f + one Errors f.

Lemma log_weight_settled log :
  log_weight settled log = log_weight (one Captures) log + log_weight (one Voids) log +
    log_weight (one Rejected) log + log_weight (one Errors) log.
Proof. by rewrite <- !log_weight_add. Qed.

Section weights.
Context (rounds : list (list choice)).
Local Ltac eval_bounds := unfold rounds_weight;
  repeat match goal with |- context [op_bounds ?w ?o] =>
    let v := eval vm_compute in (op_bounds w o) in change (op_bounds w o) with v end.
Local Ltac weigh := eval_bounds; cbn [fst snd]; lia.
Lemma rounds_settled : rounds_weight fst settled rounds = rounds_of OpCapture rounds + rounds_of OpVoid rounds.
Proof. weigh. Qed.
Lemma rounds_settled' : rounds_weight snd settled rounds = rounds_of OpCapture rounds + rounds_of OpVoid rounds.
Proof. weigh. Qed.
Lemma rounds_captures : rounds_weight snd (one Captures) rounds = rounds_of OpCapture rounds.
Proof. weigh. Qed.
Lemma rounds_voids : rounds_weight snd (one Voids) rounds = rounds_of OpVoid rounds.
Proof. weigh. Qed.
Lemma rounds_idempotent :
  rounds_weight snd (one IdempotentHits) rounds = 2 * rounds_of OpIdempotent rounds.
Proof. weigh. Qed.

(** Operations that are counted once, under one counter. *)
Context (side : Z * Z -> Z) (Hside : forall z, side (z, z) = z).
Local Ltac weigh_one := eval_bounds; rewrite !Hside; lia.
Lemma rounds_insufficient :
  rounds_weight side (one InsufficientFunds) rounds = rounds_of OpInsufFunds rounds.
Proof. weigh_one. Qed.
Lemma rounds_balances : rounds_weight side (one BalanceChecks) rounds = rounds_of OpGetBalance rounds.
Proof. weigh_one. Qed.
Lemma rounds_accounts : rounds_weight side (one AccountLookups) rounds = rounds_of OpGetAccount rounds.
Proof. weigh_one. Qed.
Lemma rounds_entries : rounds_weight side (one EntryStreams) rounds = rounds_of OpGetEntries rounds.
Proof. weigh_one. Qed.
End weights.

Section report.
Context {S : Type} {HS : LedgerServer S}.

Lemma load_log pool amount rounds (s : S) l :
  rtc load_step (load_start pool amount rounds s) l -> Forall returned (ld_workers l) ->
  exists log, ld_stats l = foldr fetch_add Stats_new log /\
    forall weight, rounds_weight fst weight rounds <= log_weight weight log <=
                   rounds_weight snd weight rounds.
Proof.
  intros Hr Hret.
  destruct (counted_start _ _ _ Hr) as (log & Hst & Hw). exists log. split; [done|]. intros weight.
  unfold rounds_weight.
  rewrite <- (rounds_split (fun op => (op_bounds weight op).1)).
  rewrite <- (rounds_split (fun op => (op_bounds weight op).2)).
  eapply log_weight_bound; [apply Hw, tallies_loops|done].
Qed.

Lemma rounds_nonneg op rounds : 0 <= rounds_of op rounds.
Proof. unfold rounds_of. lia. Qed.

Lemma rounds_total rounds :
  Z.of_nat (length (concat rounds)) =
    rounds_of OpCapture rounds + rounds_of OpVoid rounds + rounds_of OpInsufFunds rounds +
    rounds_of OpIdempotent rounds + rounds_of OpGetBalance rounds + rounds_of OpGetAccount rounds +
    rounds_of OpGetEntries rounds.
Proof.
  pose proof (rounds_split (fun _ => 1) rounds) as H. simpl in H. rewrite <- Zsum_one, H. lia.
Qed.

Lemma load_stats pool amount rounds (s : S) l :
  rtc load_step (load_start pool amount rounds s) l -> Forall returned (ld_workers l) ->
  2 * Z.of_nat (length (concat rounds)) < 2 ^ 64 ->
  exists log, (forall f, Stats_get f (ld_stats l) = log_weight (one f) log) /\
    0 <= log_weight (fun _ => 1) log < 2 ^ 64 /\
    forall weight, rounds_weight fst weight rounds <= log_weight weight log <=
                   rounds_weight snd weight rounds.
Proof.
  intros Hr Hret Hn. destruct (load_log pool amount rounds s l Hr Hret) as (log & Hst & Hb).
  exists log. assert (0 <= log_weight (fun _ => 1) log < 2 ^ 64) as Hlog.
  { pose proof (log_weight_one_le Captures log). pose proof (Hb (fun _ => 1)) as H1.
    rewrite rounds_total in Hn. unfold rounds_weight in H1. simpl in H1.
    pose proof (fun op => rounds_nonneg op rounds) as H0.
    pose proof (H0 OpCapture); pose proof (H0 OpVoid); pose proof (H0 OpInsufFunds);
    pose proof (H0 OpGetBalance); pose proof (H0 OpGetAccount); pose proof (H0 OpGetEntries). lia. }
  split_and!; try done; [|apply Hlog|apply Hlog]. intros f. rewrite Hst, Stats_get_log.
  unfold u64_wrap. apply Z.mod_small. pose proof (log_weight_one_le f log). lia.
Qed.

(** C38.  The counters of a run: however the workers interleave and whatever the server answers,
    when the workers have ended every authorize-and-settle round is in exactly one of
    captures, voids, rejected and errors, the other rounds are counted under their
    operation, and the total is the number of rounds, where an idempotent retry counts
    for the up to two calls it makes. *)
Theorem load_counts pool amount rounds (s : S) l :
  rtc load_step (load_start pool amount rounds s) l -> Forall returned (ld_workers l) ->
  2 * Z.of_nat (length (concat rounds)) < 2 ^ 64 ->
  let n op := rounds_of op rounds in
  let st := ld_stats l in
  captures st + voids st + rejected st + errors st = n OpCapture + n OpVoid /\
  captures st <= n OpCapture /\ voids st <= n OpVoid /\
  insufficient_funds st = n OpInsufFunds /\ balance_checks st = n OpGetBalance /\
  account_lookups st = n OpGetAccount /\ entry_streams st = n OpGetEntries /\
  idempotent_hits st <= 2 * n OpIdempotent /\
  Stats_total_ops st = n OpCapture + n OpVoid + n OpInsufFunds + n OpGetBalance +
    n OpGetAccount + n OpGetEntries + idempotent_hits st.
Proof.
  intros Hr Hret Hn n st. subst st.
  destruct (load_stats pool amount rounds s l Hr Hret Hn) as (log & Hget & Hlog & Hb).
  pose proof (log_weight_ones log) as Hones.
  pose proof (Hb settled) as Hs.
  rewrite log_weight_settled, rounds_settled, rounds_settled' in Hs.
  pose proof (Hb (one Captures)) as [_ B1]. rewrite rounds_captures in B1.
  pose proof (Hb (one Voids)) as [_ B2]. rewrite rounds_voids in B2.
  pose proof (Hb (one IdempotentHits)) as [_ B9]. rewrite rounds_idempotent in B9.
  pose proof (Hb (one InsufficientFunds)) as B5. rewrite !rounds_insufficient in B5 by done.
  pose proof (Hb (one BalanceChecks)) as B6. rewrite !rounds_balances in B6 by done.
  pose proof (Hb (one AccountLookups)) as B7. rewrite !rounds_accounts in B7 by done.
  pose proof (Hb (one EntryStreams)) as B8. rewrite !rounds_entries in B8 by done. clear Hb.
  pose proof (Hget Captures) as G1; pose proof (Hget Voids) as G2; pose proof (Hget Rejected) as G3;
  pose proof (Hget Errors) as G4; pose proof (Hget InsufficientFunds) as G5;
  pose proof (Hget BalanceChecks) as G6; pose proof (Hget AccountLookups) as G7;
  pose proof (Hget EntryStreams) as G8; pose proof (Hget IdempotentHits) as G9. clear Hget.
  cbn [Stats_get] in *. subst n. cbv beta.
  unfold Stats_total_ops, u64_wrap. rewrite G1, G2, G3, G4, G5, G6, G7, G8, G9.
  rewrite Z.mod_small by lia. split_and!; lia.
Qed.
End report.

(** The weights of the operations, in percent. *)
Example operation_weights :
  (fun op => length (filter (fun roll => choose roll = op) (seqZ 0 100))) <$>
    [OpCapture; OpVoid; OpInsufFunds; OpIdempotent; OpGetBalance; OpGetAccount; OpGetEntries] =
  [40; 15; 10; 5; 15; 10; 5]%nat.
Proof. vm_compute. reflexivity. Qed.

(** ** The figures of the report *)

Lemma f64_to_usize_nonneg x : 0 <= f64_to_usize x.
Proof.
  assert (0 <= usize_max) by (unfold usize_max; lia).
  destruct x as [s|[]| |[] m e]; simpl; try lia.
  apply Z.min_glb; [done|]. case_decide.
  - apply Z.mul_nonneg_nonneg; [lia|]. by apply Z.pow_nonneg.
  - apply Z.div_pos; [lia|]. apply Z.pow_pos_nonneg; lia.
Qed.

Lemma percentile_elem sorted pct :
  sorted <> [] -> exists x, percentile sorted pct = Some x /\ x ∈ sorted.
Proof.
  intros Hne. destruct sorted as [|y l]; [done|]. unfold percentile.
  set (idx := Z.min _ _).
  assert (Z.to_nat idx < length (y :: l))%nat as Hlt.
  { pose proof (f64_to_usize_nonneg (SFmul 53 1024 (SFdiv 53 1024 pct (f64_of_usize 100))
      (f64_of_usize (Z.of_nat (length (y :: l)))))). subst idx. simpl length in *. lia. }
  apply lookup_lt_is_Some in Hlt as [x Hx]. exists x. split; [done|].
  by eapply list_elem_of_lookup_2.
Qed.

(** The figures of a run without samples are zero, the others are samples. *)
Definition figure (latencies : list f64) (x : option f64) : Prop :=
  match latencies with [] => x = Some (S754_zero false) | _ => exists y, x = Some y /\ y ∈ latencies end.

Lemma percentile_figure latencies pct :
  figure latencies (percentile (merge_sort f64_le latencies) pct).
Proof.
  destruct latencies as [|y l] eqn:Hl; [done|]. rewrite <- Hl.
  destruct (percentile_elem (merge_sort f64_le latencies) pct) as (x & Hx & Hin).
  - intros Hnil. pose proof (merge_sort_Permutation f64_le latencies) as Hp.
    rewrite Hnil in Hp. apply Permutation_nil in Hp. by subst.
  - rewrite Hl in *. exists x. split; [done|].
    by rewrite (merge_sort_Permutation f64_le (y :: l)) in Hin.
Qed.

(** The report never indexes out of bounds: every percentile and the maximum are
    latencies that were measured, or zero when there are none, whatever the rounding
    of the floating-point index. *)
Theorem report_figures stats latencies elapsed :
  let r := make_report stats latencies elapsed in
  figure latencies (rp_p50 r) /\ figure latencies (rp_p95 r) /\ figure latencies (rp_p99 r) /\
  figure latencies (Some (rp_max r)).
Proof.
  split_and!; try apply percentile_figure. simpl.
  destruct latencies as [|y l] eqn:Hl; [done|]. rewrite <- Hl.
  pose proof (merge_sort_Permutation f64_le latencies) as Hp.
  destruct (last (merge_sort f64_le latencies)) as [x|] eqn:Hx.
  - apply last_Some_elem_of in Hx. rewrite Hp in Hx. rewrite Hl in *. simpl. eauto.
  - apply last_None in Hx. rewrite Hx in Hp. apply Permutation_nil in Hp. by subst.
Qed.

(** ** Concrete cases *)

(** A server that answers anything. *)
#[local] Instance any_server : LedgerServer unit :=
  {| sv_send _ _ _ _ := True; sv_runs _ _ := True; sv_answer _ _ _ := True |}.
Lemma load_counts_witness :
  exists l : load unit worker, rtc load_step
      (load_start (mk_accounts_pool [1] [2] 3 4) 100 [[mk_choice 80 1 2 "c"]] tt) l /\
    balance_checks (ld_stats l) = 1 /\ Stats_total_ops (ld_stats l) = 1.
Proof.
  set (l0 := load_start (mk_accounts_pool [1] [2] 3 4) 100 [[mk_choice 80 1 2 "c"]] tt).
  set (k := fun _ : result call_error response => CCount BalanceChecks (CRet worker_new)).
  set (l1 := mk_load tt Stats_new [] [mk_runner (CCall (GetBalance 1) k) (Some 7%nat)]).
  set (l2 := mk_load tt Stats_new [] [mk_runner (CCount BalanceChecks (CRet worker_new)) None]).
  set (l3 := mk_load tt (fetch_add BalanceChecks Stats_new) [] [mk_runner (CRet worker_new) None]).
  assert (rtc load_step l0 l3) as Hl.
  { apply (rtc_l _ _ l1); [exact (load_send 0 (GetBalance 1) k 7 tt l0 eq_refl I)|].
    apply (rtc_l _ _ l2); [exact (load_receive 0 (GetBalance 1) k 7 (Err (Transport "")) l1 eq_refl I)|].
    exact (rtc_once _ _ (load_count 0 BalanceChecks (CRet worker_new) l2 eq_refl)). }
  exists l3. split; [exact Hl|].
  destruct (load_counts (mk_accounts_pool [1] [2] 3 4) 100 [[mk_choice 80 1 2 "c"]] tt l3 Hl)
    as (_ & _ & _ & _ & Hb & _ & _ & _ & Ht).
  - repeat constructor. by exists worker_new.
  - simpl. lia.
  - split; [exact Hb|]. rewrite Ht. reflexivity.
Defined.
