(* ===== verification/LoadSafe.v ===== *)
(** * LoadSafe: the load generator against the interleaving server

    The server of [Concurrent.v] as the server of the load generator: a call arrives as
    a task, the tasks interleave, and the answer of a task that has ended can be received
    or lost.  Nothing is assumed of the generator: it is shown to follow the discipline
    under which interleaved requests keep the ledger invariant, because every transaction
    it settles comes from the answer to an authorization under a key of its own, is
    settled once, and is captured again only after the first capture has succeeded. *)

From S2P Require Import Prelude.
From S2P Require Import Money Accounts Transactions Entries Validation.
From S2P Require Import StorageErrors Schema Cache Effects Triples Postgres.
From S2P Require Import ServiceErrors Ledger Invariant Updates PostgresSpecs LedgerSpecs.
From S2P Require Import Preserve Handlers HandlerSpecs AuthorizeSpec SettleSpec System.
From S2P Require Import Safety Concrete Locking Commits Concurrent Deadlock Isolation.
From S2P Require Import Interference SafeStatements SafeHandlers Soundness.
From S2P Require Import LoadGen.
From Stdlib Require Import SpecFloat.
Local Open Scope Z_scope.

(** ** The server *)

Section server.
Context `{JsonLib, PgLib}.

(** What the client sees of an answer. *)
Definition client_answer (r : result ServiceError response) : result call_error response :=
  map_err (fun e => FromServer (Status_from e)) r.

#[export] Instance concurrent_server : LedgerServer config := {|
  sv_send req c j c' := j = length (c_sessions c) /\
    c' = mk_config (c_store c) (c_sessions c ++ [start req]);
  sv_runs := task_step false;
  sv_answer j c r := exists s r0, c_sessions c !! j = Some s /\ ss_prog s = Ret r0 /\
    r = client_answer r0
|}.
End server.

(** ** Clients that settle only what is theirs *)

(** The transaction an answer tells the client. *)
Definition learns (r : result call_error response) : gset Z :=
  match r with
  | Ok resp => match transaction_id resp with Some t => {[t]} | None => ∅ end
  | Err _ => ∅
  end.

Section tidy.
Context (allowed : request -> Prop).

(** [own]: transactions of the client that it has not tried to settle; [finished]:
    transactions that were settled when it got its answer; [keys]: keys that only this
    client uses and has not used.  [Q] holds of what it ends with.  Every request is
    [allowed]. *)
Fixpoint tidy {A} (own finished : gset Z) (keys : gset string) (p : client A)
    (Q : A -> gset Z -> gset Z -> gset string -> Prop) : Prop :=
  match p with
  | CRet a => Q a own finished keys
  | CPanic => True
  | CCount _ k | CLatency k => tidy own finished keys k Q
  | CCall req k => (request_valid req /\ allowed req) /\
      match req with
      | Authorize a =>
          (au_idempotency_key a ∈ keys /\ (String.length (au_idempotency_key a) <= 64)%nat /\
           forall r, tidy (learns r ∪ own) finished (keys ∖ {[au_idempotency_key a]}) (k r) Q) \/
          (forall r, tidy own finished keys (k r) Q)
      | Capture t | Void t =>
          (t ∈ finished /\ forall r, tidy own finished keys (k r) Q) \/
          (t ∈ own /\ forall r, tidy (own ∖ {[t]}) (if is_ok r then {[t]} ∪ finished else finished)
             keys (k r) Q)
      | _ => forall r, tidy own finished keys (k r) Q
      end
  end.

Lemma tidy_mono {A} own fin keys (p : client A) Q Q' :
  tidy own fin keys p Q ->
  (forall a own fin keys, Q a own fin keys -> Q' a own fin keys) -> tidy own fin keys p Q'.
Proof.
  intros Hp HQ. revert own fin keys Hp. induction p as [a|req k IH|f k IH|k IH|]; intros own fin keys;
    simpl; [auto| |auto..].
  intros [Hv Hk]. split; [done|].
  destruct req; try (intros r; by apply IH); (destruct Hk as [Hk|Hk]; [left|right]);
    try (destruct Hk as (? & ? & Hk)); try (destruct Hk as [? Hk]); repeat split; auto.
Qed.
Lemma tidy_bind {A B} own fin keys (p : client A) (g : A -> client B) Q :
  tidy own fin keys p (fun a own fin keys => tidy own fin keys (g a) Q) ->
  tidy own fin keys (client_bind p g) Q.
Proof.
  revert own fin keys. induction p as [a|req k IH|f k IH|k IH|]; intros own fin keys;
    simpl; [auto| |auto..].
  intros [Hv Hk]. split; [done|].
  destruct req; try (intros r; by apply IH); (destruct Hk as [Hk|Hk]; [left|right]);
    try (destruct Hk as (? & ? & Hk)); try (destruct Hk as [? Hk]); repeat split; auto.
Qed.

(** ** The programs of the generator are tidy *)

Implicit Types (own fin : gset Z) (keys : gset string).

(** The rest of a program of [?]: what follows a success, and nothing after an error. *)
Lemma tidy_cio {A B} own fin keys (p : cio A) (g : A -> cio B) Q :
  tidy own fin keys p (fun r own fin keys =>
    match r with Ok a => tidy own fin keys (g a) Q | Err e => Q (Err e) own fin keys end) ->
  tidy own fin keys (x ← p; g x) Q.
Proof.
  intros Hp. apply tidy_bind. eapply tidy_mono; [exact Hp|]. by intros [a|e] own' fin' keys'.
Qed.
Lemma tidy_expect {A} own fin keys (o : option A) Q :
  (forall a, o = Some a -> Q (Ok a) own fin keys) -> tidy own fin keys (expect o) Q.
Proof. destruct o; simpl; auto. Qed.

Definition any_end {A} (_ : A) own fin keys : Prop := True.

End tidy.

(** The requests of the setup. *)
Definition setup_request (req : request) : Prop :=
  match req with
  | CreateAccount a => exists ty, (ty = 1 \/ ty = 3) /\ a = mkCreateAccountRequest ty "USD" 2
  | Authorize a => exists asset equity, au_legs a =
      [mkProtoTransferLeg asset 1 fund_amount; mkProtoTransferLeg equity 2 fund_amount]
  | Capture _ => True
  | _ => False
  end.
(** The requests of a worker: transfers of [amount] between accounts it has chosen, a
    transfer between the accounts without funds, settlements, and reads of the chosen
    asset account. *)
Definition worker_request (pool : accounts_pool) (amount : Z) (rounds : list choice)
    (req : request) : Prop :=
  match req with
  | Authorize a =>
      (exists ch, ch ∈ rounds /\ au_legs a = [mkProtoTransferLeg (ch_asset ch) 2 amount;
         mkProtoTransferLeg (ch_equity ch) 1 amount]) \/
      au_legs a = [mkProtoTransferLeg (broke_asset pool) 2 999999;
        mkProtoTransferLeg (broke_equity pool) 1 999999]
  | Capture _ | Void _ => True
  | GetBalance a | GetAccount a | GetEntries a => exists ch, ch ∈ rounds /\ a = ch_asset ch
  | CreateAccount _ => False
  end.

Section programs.
Implicit Types (own fin : gset Z) (keys : gset string).

Lemma tidy_create own fin keys account_type Q :
  account_type = 1 \/ account_type = 3 -> (forall r, Q r own fin keys) ->
  tidy setup_request own fin keys (create account_type) Q.
Proof.
  intros Hty HQ. apply tidy_cio. split; [split; [done|simpl; eauto]|].
  intros [resp|e]; simpl; [|done]. by apply tidy_expect.
Qed.
Lemma tidy_create_many own fin keys account_type n Q :
  account_type = 1 \/ account_type = 3 ->
  (forall ids, length ids = n -> Q (Ok ids) own fin keys) -> (forall e, Q (Err e) own fin keys) ->
  tidy setup_request own fin keys (create_many account_type n) Q.
Proof.
  intros Hty. revert Q. induction n as [|n IH]; intros Q HQ He; [by apply HQ|].
  apply tidy_cio, tidy_create; [done|]. intros [id|e]; [|done].
  apply tidy_cio, IH; [|done]. intros ids Hids. apply HQ. simpl. by rewrite Hids.
Qed.

(** The keys of the funding from index [i] on. *)
Definition fund_keys (i n : nat) (uuid : nat -> string) : list string := uuid <$> seq i n.

Lemma tidy_fund own fin keys i assets equities uuid :
  NoDup (fund_keys i (length assets) uuid) ->
  (forall key, key ∈ fund_keys i (length assets) uuid -> key ∈ keys /\ (String.length key <= 64)%nat) ->
  tidy setup_request own fin keys (fund i assets equities uuid) any_end.
Proof.
  revert own fin keys i. induction assets as [|a assets IH]; intros own fin keys i Hnd Hk; [done|].
  apply NoDup_cons in Hnd as [Hni Hnd]. apply tidy_cio, tidy_expect. intros equity _.
  apply tidy_cio.
  split; [split; [repeat constructor; simpl; unfold fund_amount; int_lia|simpl; eauto]|]. left.
  destruct (Hk (uuid i)) as [Hin Hlen]; [left|]. split_and!; [done|done|].
  intros [resp|e]; simpl; [|done]. apply tidy_cio, tidy_expect. intros tx Htx. simpl in Htx.
  apply tidy_cio. split; [done|]. right. rewrite Htx. split; [set_solver|].
  intros [resp'|e]; simpl; [|done]. apply IH; [done|].
  intros key Hkey. destruct (Hk key) as [Hin' Hlen']; [by right|]. split; [|done].
  apply elem_of_difference. split; [done|]. intros ->%elem_of_singleton. by apply Hni.
Qed.

Lemma tidy_setup own fin keys n uuid p :
  setup n uuid = Some p -> NoDup (fund_keys 0 (n / 2) uuid) ->
  (forall key, key ∈ fund_keys 0 (n / 2) uuid -> key ∈ keys /\ (String.length key <= 64)%nat) ->
  tidy setup_request own fin keys p any_end.
Proof.
  unfold setup. case_decide; [done|]. intros [= <-] Hnd Hk.
  apply tidy_cio, tidy_create_many; [by left| |done]. intros assets Ha.
  apply tidy_cio, tidy_create_many; [by right| |done]. intros equities _.
  apply tidy_cio, tidy_create; [by left|]. intros [broke_asset|e]; [|done].
  apply tidy_cio, tidy_create; [by right|]. intros [broke_equity|e]; [|done].
  apply tidy_cio. eapply tidy_mono; [apply tidy_fund; by rewrite Ha|]. by intros [].
Qed.

(** A worker remembers transactions that have been captured. *)
Definition worker_ok (w : worker) fin : Prop :=
  forall t, last_captured_tx w = Some t -> t ∈ fin.

Section worker.
Context (pool : accounts_pool) (amount : Z) (all : list choice) (Hamount : in_i64 amount).
Local Abbreviation wtidy := (tidy (worker_request pool amount all)).

Lemma transfer_valid key from to x : in_i64 x -> request_valid (transfer_request key from to x).
Proof. intros Hx. simpl. unfold request_typed. simpl. by repeat (apply Forall_cons; split). Qed.
Lemma transfer_sendable key ch :
  ch ∈ all -> request_valid (transfer_request key (ch_asset ch) (ch_equity ch) amount) /\
    worker_request pool amount all (transfer_request key (ch_asset ch) (ch_equity ch) amount).
Proof. intros Hch. split; [by apply transfer_valid|]. left. eauto. Qed.

(** Authorize under a fresh key, then settle the transaction of the answer. *)
Lemma tidy_authorize_then own fin keys key ch settle success on_ok w Q :
  ch ∈ all -> key ∈ keys -> (String.length key <= 64)%nat ->
  (settle = Capture \/ settle = Void) ->
  (forall own' fin' t, fin ⊆ fin' -> t ∈ fin' -> Q (on_ok t) own' fin' (keys ∖ {[key]})) ->
  (forall own', Q w own' fin (keys ∖ {[key]})) ->
  wtidy own fin keys
    (authorize_then key (ch_asset ch) (ch_equity ch) amount settle success on_ok w) Q.
Proof.
  intros Hch Hk Hlen Hs Hok Herr. split; [by apply transfer_sendable|]. left.
  split_and!; [done|done|]. intros [resp|e]; [|apply Herr]. simpl.
  destruct (transaction_id resp) as [t|] eqn:Ht; [|done].
  destruct Hs as [-> | ->]; (split; [done|]; right; split; [set_solver|]);
    (intros [r|e]; [apply Hok; set_solver|apply Herr]).
Qed.

Lemma tidy_round own fin keys ch w (rest : gset string) Q :
  ch ∈ all -> worker_ok w fin -> ch_key ch ∈ keys -> (String.length (ch_key ch) <= 64)%nat ->
  rest ⊆ keys ∖ {[ch_key ch]} ->
  (forall w' own' fin' keys', worker_ok w' fin' -> rest ⊆ keys' -> Q w' own' fin' keys') ->
  wtidy own fin keys (round pool amount ch w) Q.
Proof.
  intros Hch Hw Hk Hlen Hrest HQ.
  assert (rest ⊆ keys) as Hsub by set_solver.
  unfold round. destruct (choose (ch_roll ch)).
  - apply tidy_authorize_then; auto.
    intros own' fin' t Hf Ht. apply HQ; [|done]. intros t' [= <-]. done.
  - apply tidy_authorize_then; auto.
    intros own' fin' t Hf _. apply HQ; [|done]. intros t' Ht'. by apply Hf, Hw.
  - split; [split; [apply transfer_valid; int_lia|by right]|]. right. intros r. by apply HQ.
  - assert (wtidy own fin keys match last_captured_tx w with
      | Some tx_id => call_and_count (Capture tx_id) IdempotentHits (CRet w)
      | None => CRet w end Q) as Hre.
    { destruct (last_captured_tx w) as [t|] eqn:Ht; [|by apply HQ].
      split; [done|]. left. split; [by apply Hw|]. intros r. by apply HQ. }
    destruct (last_idempotency_key w); [|done].
    split; [by apply transfer_sendable|]. right. intros r. exact Hre.
  - split; [split; [done|by exists ch]|]. intros r. by apply HQ.
  - split; [split; [done|by exists ch]|]. intros r. by apply HQ.
  - split; [split; [done|by exists ch]|]. intros r. by apply HQ.
Qed.

Lemma tidy_worker_loop own fin keys rounds w :
  rounds ⊆ all -> worker_ok w fin -> NoDup (ch_key <$> rounds) ->
  Forall (fun ch => (String.length (ch_key ch) <= 64)%nat) rounds ->
  list_to_set (ch_key <$> rounds) ⊆ keys ->
  wtidy own fin keys (worker_loop pool amount rounds w) any_end.
Proof.
  revert own fin keys w. induction rounds as [|ch rounds IH];
    intros own fin keys w Hall Hw Hnd Hlen Hk; [done|].
  apply NoDup_cons in Hnd as [Hni Hnd]. apply Forall_cons in Hlen as [Hl Hlen].
  rewrite fmap_cons, list_to_set_cons in Hk. apply tidy_bind.
  eapply (tidy_round _ _ _ _ _ (list_to_set (ch_key <$> rounds)));
    [apply Hall; left|done|set_solver|done| |].
  - intros key Hkey. apply elem_of_difference. split; [set_solver|].
    intros ->%elem_of_singleton. apply Hni. by apply elem_of_list_to_set in Hkey.
  - intros w' own' fin' keys' Hw' Hk'. apply IH; try done. intros x Hx. apply Hall. by right.
Qed.
End worker.
End programs.

(** ** The invariant of a run *)

(** What a client has, beside its program; [g_pend] is the fresh key of the
    authorization it waits for. *)
Record ghost := mk_ghost {
  g_own : gset Z; g_fin : gset Z; g_keys : gset string; g_pend : option string
}.
Definition g_reserve (g : ghost) : gset string :=
  from_option singleton ∅ (g_pend g) ∪ g_keys g.

Section invariant.
Context `{JsonLib, PgLib, !PgLaws} {A : Type}.
(** [later]: keys that clients will use after this run; [base]: the requests that have
    arrived before it. *)
Context (later : gset string) (base : list request) (allowed : request -> Prop).
Implicit Types (l : load config A) (c : config) (g : ghost) (gs : list ghost).

(** The requests that have arrived. *)
Definition requests c : list request := ss_req <$> c_sessions c.

Definition ends_tidy own fin keys (p : client A) : Prop := tidy allowed own fin keys p any_end.

(** A client that waits for the answer to [req]. *)
Definition waits g (req : request) (k : result call_error response -> client A) : Prop :=
  match req with
  | Authorize a =>
      (g_pend g = Some (au_idempotency_key a) /\ (au_idempotency_key a ∉ g_keys g) /\
       (String.length (au_idempotency_key a) <= 64)%nat /\
       forall r, ends_tidy (learns r ∪ g_own g) (g_fin g) (g_keys g) (k r)) \/
      (g_pend g = None /\ forall r, ends_tidy (g_own g) (g_fin g) (g_keys g) (k r))
  | Capture t | Void t => g_pend g = None /\ forall r,
      ends_tidy (g_own g) (if is_ok r then {[t]} ∪ g_fin g else g_fin g) (g_keys g) (k r)
  | _ => g_pend g = None /\ forall r, ends_tidy (g_own g) (g_fin g) (g_keys g) (k r)
  end.
Definition runner_ok c g (r : runner A) : Prop :=
  match rn_call r with
  | None => g_pend g = None /\ ends_tidy (g_own g) (g_fin g) (g_keys g) (rn_prog r)
  | Some j => exists req k, rn_prog r = CCall req k /\ requests c !! j = Some req /\ waits g req k
  end.

(** The transaction is recorded under a key that no client will use any more. *)
Definition spent gs (t : Z) (db : database) : Prop :=
  exists r, transactions db !! t = Some r /\ (t_idempotency_key r ∉ later) /\
    forall i g, gs !! i = Some g -> t_idempotency_key r ∉ g_reserve g.
Definition unsettled c (t : Z) : Prop := forall req, req ∈ requests c -> settles req <> Some t.
Definition claimed gs c (t : Z) : Prop :=
  (exists i g, gs !! i = Some g /\ (t ∈ g_own g \/ t ∈ g_fin g)) \/ ~ unsettled c t.

Record tidy_load gs l : Prop := {
  tl_reach : conc_reachable true (ld_server l);
  tl_sent : exists sent, requests (ld_server l) = base ++ sent /\ Forall allowed sent;
  tl_length : length gs = length (ld_workers l);
  tl_runner i g r : gs !! i = Some g -> ld_workers l !! i = Some r -> runner_ok (ld_server l) g r;
  tl_keys i j g g' : i <> j -> gs !! i = Some g -> gs !! j = Some g' -> g_reserve g ## g_reserve g';
  tl_later i g : gs !! i = Some g -> g_reserve g ## later;
  tl_own i j g g' : i <> j -> gs !! i = Some g -> gs !! j = Some g' -> g_own g ## g_own g';
  tl_fresh i g t : gs !! i = Some g -> t ∈ g_own g -> unsettled (ld_server l) t;
  tl_fin i g t : gs !! i = Some g -> t ∈ g_fin g ->
    txn_settled t (st_db (c_store (ld_server l))) /\ ~ unsettled (ld_server l) t;
  tl_spent t : claimed gs (ld_server l) t -> spent gs t (st_db (c_store (ld_server l)))
}.

Lemma spent_update gs i g g' t db :
  gs !! i = Some g -> g_reserve g' ⊆ g_reserve g -> spent gs t db -> spent (<[i := g']> gs) t db.
Proof.
  intros Hg Hsub (r & Hr & Hl & Hk). exists r. split_and!; [done|done|].
  intros j g0. rewrite list_lookup_insert_Some. intros [(<- & <- & _)|[_ Hj]]; [|by eapply Hk].
  intros Hin. by apply (Hk i g Hg), Hsub.
Qed.
Lemma spent_rely gs t o x db s db' s' :
  rely o x db s db' s' -> spent gs t db -> spent gs t db'.
Proof.
  intros Hrl (r & Hr & Hk). destruct (rl_txn_kept _ _ _ _ _ _ Hrl _ _ Hr) as (r' & Hr' & Heq & _).
  exists r'. by rewrite Heq.
Qed.
Lemma runner_ok_requests c c' g r :
  requests c `prefix_of` requests c' -> runner_ok c g r -> runner_ok c' g r.
Proof.
  intros Hp. unfold runner_ok. destruct (rn_call r); [|done].
  intros (req & k & ? & Hj & ?). exists req, k. split_and!; [done| |done]. by eapply prefix_lookup_Some.
Qed.

(** The server takes at most one request, from a client that had [g] and then has [g']:
    a settlement of a transaction that is settled, or that the client gives away. *)
Definition takes c c' g g' : Prop :=
  requests c' = requests c \/ exists req, requests c' = (requests c ++ [req]) /\ allowed req /\
    forall t, settles req = Some t -> t ∈ g_fin g \/ t ∈ g_own g /\ t ∉ g_own g'.

Lemma takes_prefix c c' g g' : takes c c' g g' -> requests c `prefix_of` requests c'.
Proof. intros [->|(? & -> & _)]; [done|by eexists]. Qed.
Lemma takes_unsettled c c' g g' t : takes c c' g g' -> unsettled c' t -> unsettled c t.
Proof.
  intros [sent Hp]%takes_prefix Hu req Hin. apply Hu. rewrite Hp. apply elem_of_app. by left.
Qed.
Lemma takes_settles c c' g g' req t :
  takes c c' g g' -> req ∈ requests c' -> settles req = Some t ->
  req ∈ requests c \/ t ∈ g_fin g \/ t ∈ g_own g /\ t ∉ g_own g'.
Proof.
  intros [->|(req' & -> & _ & Hq)] Hin Heq; [by left|].
  apply elem_of_app in Hin as [?|Hin%list_elem_of_singleton]; [by left|]. subst req'. right. by apply Hq.
Qed.
Lemma takes_claimed gs c c' i g g' t :
  takes c c' g g' -> gs !! i = Some g -> ~ unsettled c' t -> claimed gs c t.
Proof.
  intros Ht Hg Hn. destruct (decide (t ∈ g_own g \/ t ∈ g_fin g)) as [Hi|Hi]; [left; eauto|].
  right. intros Hu. apply Hn. intros req Hin Heq.
  destruct (takes_settles _ _ _ _ _ _ Ht Hin Heq) as [Hq|[?|[? _]]]; [by apply (Hu req)|auto..].
Qed.
Lemma takes_fresh gs l c' i g g' j gj t :
  tidy_load gs l -> takes (ld_server l) c' g g' -> gs !! i = Some g -> gs !! j = Some gj ->
  (j = i -> t ∈ g_own g') -> t ∈ g_own gj -> unsettled c' t.
Proof.
  intros Hl Ht Hg Hj Hij Hi req Hin Heq.
  destruct (takes_settles _ _ _ _ _ _ Ht Hin Heq) as [Hq|[Hf|[Hf Hnf]]].
  - by apply (tl_fresh _ _ Hl _ _ _ Hj Hi req).
  - apply (tl_fin _ _ Hl _ _ _ Hg Hf). by eapply (tl_fresh _ _ Hl).
  - destruct (decide (j = i)) as [->|Hne]; [by apply Hnf, Hij|].
    by apply (tl_own _ _ Hl _ _ _ _ Hne Hj Hg t).
Qed.

(** One client moves and the server may take one request. *)
Lemma tidy_move gs l c' i g g' r r' st lats :
  tidy_load gs l -> gs !! i = Some g -> ld_workers l !! i = Some r ->
  conc_reachable true c' -> c_store c' = c_store (ld_server l) -> takes (ld_server l) c' g g' ->
  g_reserve g' ⊆ g_reserve g ->
  (forall t, t ∈ g_own g' -> t ∈ g_own g \/
     ~ claimed gs c' t /\ spent (<[i := g']> gs) t (st_db (c_store c'))) ->
  (forall t, t ∈ g_fin g' -> t ∈ g_fin g \/ txn_settled t (st_db (c_store c')) /\ ~ unsettled c' t) ->
  runner_ok c' g' r' ->
  tidy_load (<[i := g']> gs) (mk_load c' st lats (<[i := r']> (ld_workers l))).
Proof.
  intros Hl Hg Hr Hreach Hst Hreq Hres Hown Hfin Hok.
  assert (forall t, claimed gs (ld_server l) t -> spent (<[i := g']> gs) t (st_db (c_store c'))) as Hsp.
  { intros t Ht. rewrite Hst. eapply spent_update; [done..|]. by apply Hl. }
  split; simpl.
  - done.
  - destruct (tl_sent _ _ Hl) as (sent & Hs & Hall).
    destruct Hreq as [->|(req & -> & Ha & _)]; [by exists sent|].
    exists (sent ++ [req]). rewrite Hs, app_assoc. split; [done|].
    apply Forall_app. split; [done|by constructor].
  - by rewrite !length_insert, (tl_length _ _ Hl).
  - intros j g0 r0. rewrite !list_lookup_insert_Some.
    intros [(<- & <- & _)|[Hne Hj]] [(? & <- & _)|[? Hrj]]; [done..|].
    eapply runner_ok_requests; [by eapply takes_prefix|by eapply Hl].
  - intros j k gj gk Hne. rewrite !list_lookup_insert_Some.
    intros [(<- & <- & _)|[Hnj Hj]] [(<- & <- & _)|[Hnk Hk]]; [done|..|by eapply (tl_keys _ _ Hl j k)].
    + pose proof (tl_keys _ _ Hl _ _ _ _ Hne Hg Hk). set_solver.
    + pose proof (tl_keys _ _ Hl _ _ _ _ Hne Hj Hg). set_solver.
  - intros j gj. rewrite list_lookup_insert_Some.
    intros [(<- & <- & _)|[Hnj Hj]]; [|by eapply (tl_later _ _ Hl)].
    pose proof (tl_later _ _ Hl _ _ Hg). set_solver.
  - intros j k gj gk Hne. rewrite !list_lookup_insert_Some.
    intros [(<- & <- & _)|[Hnj Hj]] [(<- & <- & _)|[Hnk Hk]]; [done|..|by eapply (tl_own _ _ Hl j k)];
      intros t Hi1 Hi2.
    + apply Hown in Hi1 as [Hi1|[Hi1 _]]; [by apply (tl_own _ _ Hl _ _ _ _ Hne Hg Hk t)|].
      apply Hi1. left. eauto.
    + apply Hown in Hi2 as [Hi2|[Hi2 _]]; [by apply (tl_own _ _ Hl _ _ _ _ Hne Hj Hg t)|].
      apply Hi2. left. eauto.
  - intros j gj t. rewrite list_lookup_insert_Some.
    intros [(<- & <- & _)|[Hnj Hj]] Ht;
      [|by eapply (takes_fresh gs l c' i g g' j gj)].
    destruct (Hown t Ht) as [Ho|[Hn _]]; [by eapply (takes_fresh gs l c' i g g' i g)|].
    intros req Hin Heq. apply Hn. right. intros Hu. by apply (Hu req).
  - intros j gj t. rewrite list_lookup_insert_Some, Hst.
    intros [(<- & <- & _)|[Hnj Hj]] Ht.
    + apply Hfin in Ht as [Ht|[? ?]]; [|by rewrite <- Hst].
      destruct (tl_fin _ _ Hl _ _ _ Hg Ht). eauto using takes_unsettled.
    + destruct (tl_fin _ _ Hl _ _ _ Hj Ht). eauto using takes_unsettled.
  - intros t [(j & gj & Hj & Ht)|Ht]; [|by eapply Hsp, takes_claimed].
    rewrite list_lookup_insert_Some in Hj. destruct Hj as [(<- & <- & _)|[Hnj Hj]].
    + destruct Ht as [Ht|Ht].
      * apply Hown in Ht as [Ht|[_ ?]]; [|done]. apply Hsp. left. eauto.
      * apply Hfin in Ht as [Ht|[_ Ht]]; [apply Hsp; left; eauto|by eapply Hsp, takes_claimed].
    + apply Hsp. left. eauto.
Qed.

(** A step of a task. *)
Lemma tidy_server gs l c' :
  tidy_load gs l -> task_step false (ld_server l) c' ->
  tidy_load gs (mk_load c' (ld_stats l) (ld_latencies l) (ld_workers l)).
Proof.
  intros Hl Ht. destruct (conc_reachable_safe db_ok true _ initial_db_ok (tl_reach _ _ Hl)) as [os Hsafe].
  destruct (task_rely _ _ _ _ _ Hsafe Ht) as [Hrl Hreq].
  assert (requests c' = requests (ld_server l)) as Hq by done.
  assert (forall t, unsettled c' t <-> unsettled (ld_server l) t) as Hu
    by (intros t; unfold unsettled; by rewrite Hq).
  destruct Hl as [Hreach Hsent Hlen Hrun Hkeys Hlater Hown Hfresh Hfin Hsp]. split; simpl; try done.
  - eapply rtc_r; [exact Hreach|by apply conc_task].
  - by rewrite Hq.
  - intros i g r Hg Hr. eapply runner_ok_requests; [|by eapply Hrun]. by rewrite Hq.
  - intros i g t Hg Hin. rewrite Hu. by eapply Hfresh.
  - intros i g t Hg Hin. rewrite Hu. destruct (Hfin _ _ _ Hg Hin). split; [|done].
    by eapply txn_settled_rely.
  - intros t Hc. eapply spent_rely; [exact Hrl|]. apply Hsp.
    destruct Hc as [Hc|Hc]; [by left|right]. by rewrite <- Hu.
Qed.

(** A client that sends what its program says next. *)
Lemma tidy_sends g req k :
  g_pend g = None -> ends_tidy (g_own g) (g_fin g) (g_keys g) (CCall req k) ->
  request_valid req /\ allowed req /\ exists g', waits g' req k /\ g_reserve g' ⊆ g_reserve g /\
    g_own g' ⊆ g_own g /\ g_fin g' = g_fin g /\
    forall t, settles req = Some t -> t ∈ g_fin g \/ t ∈ g_own g /\ t ∉ g_own g'.
Proof.
  intros Hp [[Hv Ha] Hk]. split_and!; [done|done|].
  assert (forall t, req = Capture t \/ req = Void t ->
    exists g', waits g' req k /\ g_reserve g' ⊆ g_reserve g /\ g_own g' ⊆ g_own g /\
      g_fin g' = g_fin g /\ (t ∈ g_fin g \/ t ∈ g_own g /\ t ∉ g_own g')) as Hset.
  { intros t Hreq.
    assert ((t ∈ g_fin g /\ forall r, ends_tidy (g_own g) (g_fin g) (g_keys g) (k r)) \/
      (t ∈ g_own g /\ forall r, ends_tidy (g_own g ∖ {[t]})
         (if is_ok r then {[t]} ∪ g_fin g else g_fin g) (g_keys g) (k r)))
      as [[Hin Hk']|[Hin Hk']] by (destruct Hreq as [-> | ->]; exact Hk).
    - exists g. split_and!; [|done..|by left]. destruct Hreq as [-> | ->]; (split; [done|]); intros r;
        (rewrite subseteq_union_1_L by set_solver; destruct (is_ok r); apply Hk').
    - exists (mk_ghost (g_own g ∖ {[t]}) (g_fin g) (g_keys g) None).
      split_and!; [by destruct Hreq as [-> | ->]|unfold g_reserve; simpl; set_solver|simpl; set_solver
        |done|right; simpl; set_solver]. }
  destruct req as [| | |a|t|t|]; try (exists g; by split_and!).
  - destruct Hk as [(Hin & Hlen & Hk)|Hk]; [|exists g; split_and!; [by right|done..]].
    exists (mk_ghost (g_own g) (g_fin g) (g_keys g ∖ {[au_idempotency_key a]})
      (Some (au_idempotency_key a))).
    split_and!; [left; split_and!; [done|simpl; set_solver|done|done]|unfold g_reserve; simpl; set_solver|done..].
  - destruct (Hset t) as (g' & ? & ? & ? & ? & ?); [by left|]. exists g'. split_and!; try done.
    by intros t' [= <-].
  - destruct (Hset t) as (g' & ? & ? & ? & ? & ?); [by right|]. exists g'. split_and!; try done.
    by intros t' [= <-].
Qed.

Lemma tidy_send gs l i req k :
  tidy_load gs l -> ld_workers l !! i = Some (mk_runner (CCall req k) None) ->
  exists gs', tidy_load gs' (mk_load
    (mk_config (c_store (ld_server l)) (c_sessions (ld_server l) ++ [start req]))
    (ld_stats l) (ld_latencies l)
    (<[i := mk_runner (CCall req k) (Some (length (c_sessions (ld_server l))))]> (ld_workers l))).
Proof.
  intros Hl Hr. destruct (lookup_lt_is_Some_2 gs i) as [g Hg].
  { rewrite (tl_length _ _ Hl). by eapply lookup_lt_Some. }
  destruct (tl_runner _ _ Hl _ _ _ Hg Hr) as [Hp Ht].
  destruct (tidy_sends g req k Hp Ht) as (Hv & Ha & g' & Hw & Hres & Hown & Hfin & Hset).
  exists (<[i := g']> gs). eapply tidy_move; [exact Hl|exact Hg|exact Hr| |done| |exact Hres|..]; simpl.
  - eapply rtc_r; [apply (tl_reach _ _ Hl)|]. apply conc_arrive; [done|]. intros _ t Ht'.
    destruct (Hset t Ht') as [Hi|[Hi _]]; [left; by eapply (tl_fin _ _ Hl)|right].
    intros s Hs Heq. destruct (tl_fresh _ _ Hl _ _ _ Hg Hi (ss_req s)); [|done].
    by apply list_elem_of_fmap_2.
  - right. exists req. unfold requests. simpl. by rewrite fmap_app.
  - intros t Hi. left. set_solver.
  - intros t Hi. left. congruence.
  - exists req, k. split_and!; [done| |done]. unfold requests. simpl.
    rewrite fmap_app, lookup_app_r; rewrite length_fmap; [|done]. by rewrite Nat.sub_diag.
Qed.

(** A client that goes on with the result of its call. *)
Lemma waits_result g req k r :
  waits g req k -> exists g', g_pend g' = None /\ ends_tidy (g_own g') (g_fin g') (g_keys g') (k r) /\
    g_keys g' = g_keys g /\
    (forall t, t ∈ g_own g' -> t ∈ g_own g \/ t ∈ learns r /\ exists a, req = Authorize a /\
       g_pend g = Some (au_idempotency_key a) /\ (au_idempotency_key a ∉ g_keys g) /\
       (String.length (au_idempotency_key a) <= 64)%nat) /\
    (forall t, t ∈ g_fin g' -> t ∈ g_fin g \/ is_ok r = true /\ settles req = Some t).
Proof.
  intros Hw.
  assert (forall t, waits g (Capture t) k -> settles req = Some t -> exists g', g_pend g' = None /\
    ends_tidy (g_own g') (g_fin g') (g_keys g') (k r) /\ g_keys g' = g_keys g /\
    (forall t, t ∈ g_own g' -> t ∈ g_own g) /\
    (forall t, t ∈ g_fin g' -> t ∈ g_fin g \/ is_ok r = true /\ settles req = Some t)) as Hset.
  { intros t [_ Hk] Ht.
    exists (mk_ghost (g_own g) (if is_ok r then {[t]} ∪ g_fin g else g_fin g) (g_keys g) None).
    split_and!; [done|apply Hk|done|done|]. intros t'. simpl. destruct (is_ok r); [|by left].
    intros [->%elem_of_singleton|?]%elem_of_union; [by right|by left]. }
  destruct req as [| | |a|t|t|];
    try (destruct (Hset t) as (g' & ? & ? & ? & ? & ?); [done|done|]; exists g'; split_and!; try done; auto);
    try (destruct Hw as [Hp Hk]; exists g; split_and!; try done; auto).
  destruct Hw as [(Hp & Hn & Hlen & Hk)|[Hp Hk]]; [|exists g; split_and!; try done; auto].
  exists (mk_ghost (learns r ∪ g_own g) (g_fin g) (g_keys g) None). simpl. split_and!; try done; auto.
  intros t [Ht|Ht]%elem_of_union; [|by left]. right. split; [done|]. by exists a.
Qed.

Lemma tidy_receive gs l i req k j r :
  tidy_load gs l -> ld_workers l !! i = Some (mk_runner (CCall req k) (Some j)) ->
  sv_answer j (ld_server l) r ->
  exists gs', tidy_load gs' (mk_load (ld_server l) (ld_stats l) (ld_latencies l)
    (<[i := mk_runner (k r) None]> (ld_workers l))).
Proof.
  intros Hl Hr (s & r0 & Hj & Hprog & ->). destruct (lookup_lt_is_Some_2 gs i) as [g Hg].
  { rewrite (tl_length _ _ Hl). by eapply lookup_lt_Some. }
  destruct (tl_runner _ _ Hl _ _ _ Hg Hr) as (req' & k' & Heq & Hreq & Hw).
  simpl in Heq. injection Heq as <- <-.
  assert (ss_req s = req) as Hsr.
  { unfold requests in Hreq. rewrite list_lookup_fmap, Hj in Hreq. by injection Hreq. }
  destruct (conc_reachable_safe db_ok true _ initial_db_ok (tl_reach _ _ Hl)) as [os Hsafe].
  assert (forall resp, r0 = Ok resp ->
    answer_holds req resp (st_db (c_store (ld_server l)))) as Hans.
  { intros resp ->. rewrite <- Hsr. by eapply answer_safe. }
  destruct (waits_result g req k (client_answer r0) Hw) as (g' & Hp & Ht & Hks & Hown & Hfin).
  assert (g_reserve g' ⊆ g_reserve g) as Hres
    by (unfold g_reserve; rewrite Hp, Hks; simpl; set_solver).
  exists (<[i := g']> gs). eapply tidy_move; [exact Hl|exact Hg|exact Hr|apply Hl|done|by left|done|..|by split].
  - intros t Hi. destruct (Hown t Hi) as [?|(Hlearn & a & -> & Hpend & Hfree & Hlen)]; [by left|right].
    destruct r0 as [resp|e]; simpl in Hlearn; [|by apply elem_of_empty in Hlearn]. specialize (Hans resp eq_refl).
    destruct resp as [| |b| |]; simpl in Hlearn; try by apply elem_of_empty in Hlearn.
    apply elem_of_singleton in Hlearn as ->. destruct Hans as (row & Hrow & Hkey).
    specialize (Hkey Hlen).
    assert (t_idempotency_key row ∈ g_reserve g) as Hin
      by (rewrite Hkey; unfold g_reserve; rewrite Hpend; simpl; set_solver).
    split.
    + intros Hc%Hl. destruct Hc as (row' & Hrow' & _ & Hc). simplify_eq. by apply (Hc i g).
    + exists row. split_and!; [done|intros Hx; by apply (tl_later _ _ Hl _ _ Hg _ Hin)|].
      intros j' g0. rewrite list_lookup_insert_Some. intros [(<- & <- & _)|[Hne Hj']].
      * unfold g_reserve. rewrite Hp, Hks, Hkey. simpl. set_solver.
      * intros Hx. by apply (tl_keys _ _ Hl _ _ _ _ Hne Hg Hj' _ Hin).
  - intros t Hi. destruct (Hfin t Hi) as [?|[Hok Hset]]; [by left|right].
    destruct r0 as [resp|e]; [|done]. specialize (Hans resp eq_refl). split.
    + destruct req; simplify_eq/=; exact Hans.
    + intros Hu. apply (Hu req); [|done]. by eapply list_elem_of_lookup_2.
Qed.

Lemma tidy_lost gs l i req k j msg :
  tidy_load gs l -> ld_workers l !! i = Some (mk_runner (CCall req k) j) ->
  exists gs', tidy_load gs' (mk_load (ld_server l) (ld_stats l) (ld_latencies l)
    (<[i := mk_runner (k (Err (Transport msg))) None]> (ld_workers l))).
Proof.
  intros Hl Hr. destruct (lookup_lt_is_Some_2 gs i) as [g Hg].
  { rewrite (tl_length _ _ Hl). by eapply lookup_lt_Some. }
  assert (exists g', waits g' req k /\ g_reserve g' ⊆ g_reserve g /\ g_own g' ⊆ g_own g /\
    g_fin g' = g_fin g) as (g1 & Hw & Hr1 & Ho1 & Hf1).
  { pose proof (tl_runner _ _ Hl _ _ _ Hg Hr) as Hok. destruct j as [j|].
    - destruct Hok as (req' & k' & Heq & _ & Hw). simpl in Heq. injection Heq as <- <-. by exists g.
    - destruct Hok as [Hp Ht]. destruct (tidy_sends g req k Hp Ht) as (_ & _ & g1 & ? & ? & ? & ? & _).
      by exists g1. }
  destruct (waits_result g1 req k (Err (Transport msg)) Hw) as (g' & Hp & Ht & Hks & Hown & Hfin).
  exists (<[i := g']> gs). eapply tidy_move; [exact Hl|exact Hg|exact Hr|apply Hl|done|by left|..|by split].
  - etrans; [|exact Hr1]. unfold g_reserve. rewrite Hp, Hks. simpl. set_solver.
  - intros t Hi. left. destruct (Hown t Hi) as [?|[Hlearn _]]; [by apply Ho1|].
    simpl in Hlearn. by apply elem_of_empty in Hlearn.
  - intros t Hi. left. destruct (Hfin t Hi) as [?|[? _]]; [congruence|done].
Qed.

Lemma tidy_local gs l i p p' st lats :
  tidy_load gs l -> ld_workers l !! i = Some (mk_runner p None) ->
  (forall own fin keys, ends_tidy own fin keys p -> ends_tidy own fin keys p') ->
  tidy_load gs (mk_load (ld_server l) st lats (<[i := mk_runner p' None]> (ld_workers l))).
Proof.
  intros Hl Hr Hpp. destruct (lookup_lt_is_Some_2 gs i) as [g Hg].
  { rewrite (tl_length _ _ Hl). by eapply lookup_lt_Some. }
  destruct (tl_runner _ _ Hl _ _ _ Hg Hr) as [Hp Ht].
  rewrite <- (list_insert_id gs i g Hg).
  eapply tidy_move; [exact Hl|exact Hg|exact Hr|apply Hl|done|by left|done|by left|by left|].
  split; [done|]. by apply Hpp.
Qed.

(** Every step of a run keeps the discipline. *)
Lemma tidy_steps gs l l' :
  tidy_load gs l -> rtc load_step l l' -> exists gs', tidy_load gs' l'.
Proof.
  intros Hl Hs. revert gs Hl. induction Hs as [l|l l1 l2 Hs _ IH]; intros gs Hl; [eauto|].
  destruct Hs as [c' l Hs|i req k j s' l Hr [-> ->]|i req k j r l Hr Ha|i req k j msg l Hr
    |i f k l Hr|i k x l Hr].
  - eapply IH. by apply tidy_server.
  - destruct (tidy_send _ _ _ _ _ Hl Hr) as [gs' Hl']. by eapply IH.
  - destruct (tidy_receive _ _ _ _ _ _ _ Hl Hr Ha) as [gs' Hl']. by eapply IH.
  - destruct (tidy_lost _ _ _ _ _ _ msg Hl Hr) as [gs' Hl']. by eapply IH.
  - eapply IH. eapply tidy_local; [done|exact Hr|done].
  - eapply IH. eapply tidy_local; [done|exact Hr|done].
Qed.

(** Clients with keys of their own that have not begun. *)
Lemma tidy_start c (ps : list (client A)) (kss : list (gset string)) :
  conc_reachable true c -> requests c = base -> Forall2 (ends_tidy ∅ ∅) kss ps ->
  (forall i j ks ks', i <> j -> kss !! i = Some ks -> kss !! j = Some ks' -> ks ## ks') ->
  (forall i ks, kss !! i = Some ks -> ks ## later) ->
  (forall t, ~ unsettled c t -> exists r, transactions (st_db (c_store c)) !! t = Some r /\
     (t_idempotency_key r ∉ later) /\ forall i ks, kss !! i = Some ks -> t_idempotency_key r ∉ ks) ->
  tidy_load ((fun ks => mk_ghost ∅ ∅ ks None) <$> kss) (clients_start ps c).
Proof.
  intros Hreach Hb Hps Hd Hl Hold.
  assert (forall ks, g_reserve (mk_ghost ∅ ∅ ks None) = ks) as Hres
    by (intros ks; unfold g_reserve; simpl; set_solver).
  split; simpl.
  - done.
  - exists []. by rewrite app_nil_r.
  - rewrite !length_fmap. by eapply Forall2_length.
  - intros i g r. rewrite !list_lookup_fmap, !fmap_Some. intros (ks & Hks & ->) (p & Hp & ->).
    split; [done|]. by eapply Forall2_lookup_lr in Hps.
  - intros i j g g' Hne. rewrite !list_lookup_fmap, !fmap_Some. intros (ks & Hks & ->) (ks' & Hks' & ->).
    rewrite !Hres. by eapply Hd.
  - intros i g. rewrite list_lookup_fmap, fmap_Some. intros (ks & Hks & ->). rewrite Hres. by eapply Hl.
  - intros i j g g' _. rewrite !list_lookup_fmap, !fmap_Some. intros (? & _ & ->) (? & _ & ->). done.
  - intros i g t. rewrite list_lookup_fmap, fmap_Some. intros (? & _ & ->) Ht. by apply elem_of_empty in Ht.
  - intros i g t. rewrite list_lookup_fmap, fmap_Some. intros (? & _ & ->) Ht. by apply elem_of_empty in Ht.
  - intros t [(i & g & Hi & Ht)|Ht].
    + rewrite list_lookup_fmap, fmap_Some in Hi. destruct Hi as (ks & _ & ->).
      by destruct Ht as [Ht|Ht]; apply elem_of_empty in Ht.
    + destruct (Hold t Ht) as (r & Hr & Hlater & Hk). exists r. split_and!; [done|done|].
      intros i g. rewrite list_lookup_fmap, fmap_Some. intros (ks & Hi & ->). rewrite Hres. by eapply Hk.
Qed.
End invariant.

(** ** The whole run *)

Section run.
Context `{JsonLib, PgLib, !PgLaws}.

Lemma concat_disjoint {X} (ls : list (list X)) i j a b :
  NoDup (concat ls) -> i <> j -> ls !! i = Some a -> ls !! j = Some b -> a ## b.
Proof.
  revert i j. induction ls as [|l ls IH]; intros i j Hnd Hne Ha Hb; [done|].
  simpl in Hnd. apply NoDup_app in Hnd as (_ & Hn & Hnd).
  assert (forall k c, ls !! k = Some c -> l ## c) as Hl.
  { intros k c Hc x Hx Hx'. apply (Hn x Hx). apply list_elem_of_In, in_concat.
    exists c. split; apply list_elem_of_In; [by eapply list_elem_of_lookup_2|done]. }
  destruct i as [|i], j as [|j]; simplify_eq/=; [by eapply Hl| |].
  { intros x Hx Hx'. by apply (Hl _ _ Ha x). }
  eapply (IH i j); auto.
Qed.
Lemma concat_NoDup {X} (ls : list (list X)) i a :
  NoDup (concat ls) -> ls !! i = Some a -> NoDup a.
Proof.
  revert i. induction ls as [|l ls IH]; intros i Hnd Ha; [done|].
  simpl in Hnd. apply NoDup_app in Hnd as (Hl & _ & Hnd). destruct i; simplify_eq/=; eauto.
Qed.

(** The keys of the workers. *)
Definition round_keys (rounds : list (list choice)) : list string := ch_key <$> concat rounds.
Definition worker_keys (rs : list choice) : gset string := list_to_set (ch_key <$> rs).

Lemma round_keys_concat rounds : round_keys rounds = concat ((fun rs : list choice => ch_key <$> rs) <$> rounds).
Proof.
  unfold round_keys. induction rounds as [|r rounds IH]; [done|]. simpl. by rewrite fmap_app, IH.
Qed.

Lemma tidy_workers (pool : accounts_pool) amount rounds :
  in_i64 amount -> NoDup (round_keys rounds) ->
  (forall key, key ∈ round_keys rounds -> (String.length key <= 64)%nat) ->
  Forall2 (ends_tidy (worker_request pool amount (concat rounds)) ∅ ∅) (worker_keys <$> rounds)
    ((fun cs => worker_loop pool amount cs worker_new) <$> rounds).
Proof.
  intros Ha Hnd Hlen. rewrite round_keys_concat in Hnd.
  apply Forall2_fmap, Forall_Forall2_diag, Forall_lookup. intros i rs Hi.
  assert (rs ⊆ concat rounds) as Hsub.
  { intros ch Hch. apply list_elem_of_In, in_concat. exists rs.
    split; apply list_elem_of_In; [by eapply list_elem_of_lookup_2|done]. }
  apply tidy_worker_loop; [done|done|done| | |done].
  - eapply concat_NoDup; [exact Hnd|]. by rewrite list_lookup_fmap, Hi.
  - apply Forall_forall. intros ch Hch. apply Hlen. apply list_elem_of_fmap_2. auto.
Qed.

(** The setup, from a server that has just started. *)
Lemma setup_tidy n uuid p rounds c l1 :
  conc_reachable true c -> c_sessions c = [] -> setup n uuid = Some p ->
  NoDup (fund_keys 0 (n / 2) uuid ++ round_keys rounds) ->
  (forall key, key ∈ fund_keys 0 (n / 2) uuid -> (String.length key <= 64)%nat) ->
  rtc load_step (clients_start [p] c) l1 ->
  exists gs, tidy_load (list_to_set (round_keys rounds)) [] setup_request gs l1.
Proof.
  intros Hreach Hidle Hsetup (Hnd & Hdis & _)%NoDup_app Hlen Hs.
  assert (requests c = []) as Hr0 by (unfold requests; by rewrite Hidle).
  eapply tidy_steps; [|exact Hs].
  apply (tidy_start _ _ _ _ _ [list_to_set (fund_keys 0 (n / 2) uuid)]); [done|done|..].
  - repeat constructor. eapply tidy_setup; [exact Hsetup|done|]. intros key Hk.
    split; [by apply elem_of_list_to_set|by apply Hlen].
  - intros i j ks ks' Hne [-> _]%list_lookup_singleton_Some [-> _]%list_lookup_singleton_Some. done.
  - intros i ks [_ <-]%list_lookup_singleton_Some key Hk Hk'.
    apply elem_of_list_to_set in Hk, Hk'. by apply (Hdis key).
  - intros t Ht. destruct Ht. intros req Hin. rewrite Hr0 in Hin. by apply elem_of_nil in Hin.
Qed.

(** The workers, from a server that has done the setup. *)
Lemma workers_tidy {B} gs base allowed (l1 : load config B) pool amount rounds l2 :
  tidy_load (list_to_set (round_keys rounds)) base allowed gs l1 -> in_i64 amount ->
  NoDup (round_keys rounds) ->
  (forall key, key ∈ round_keys rounds -> (String.length key <= 64)%nat) ->
  rtc load_step (load_start pool amount rounds (ld_server l1)) l2 ->
  exists gs', tidy_load ∅ (requests (ld_server l1)) (worker_request pool amount (concat rounds)) gs' l2.
Proof.
  intros Hl1 Ha Hnd Hlen Hs. eapply tidy_steps; [|exact Hs].
  apply (tidy_start _ _ _ _ _ (worker_keys <$> rounds)); [apply Hl1|done|..].
  - by apply tidy_workers.
  - intros i j ks ks' Hne. rewrite !list_lookup_fmap, !fmap_Some.
    intros (a & Hi & ->) (b & Hj & ->) key Hk Hk'. apply elem_of_list_to_set in Hk, Hk'.
    rewrite round_keys_concat in Hnd.
    eapply (concat_disjoint _ i j (ch_key <$> a) (ch_key <$> b) Hnd Hne); [..|exact Hk|exact Hk'];
      by rewrite list_lookup_fmap, ?Hi, ?Hj.
  - intros i ks _ key _ Hk. by apply elem_of_empty in Hk.
  - intros t Ht. destruct (tl_spent _ _ _ _ _ Hl1 t) as (r & Hr & Hlater & _); [by right|].
    exists r. split_and!; [done|apply not_elem_of_empty|]. intros i ks.
    rewrite list_lookup_fmap, fmap_Some. intros (rs & Hi & ->) Hk. apply Hlater.
    apply elem_of_list_to_set in Hk. rewrite round_keys_concat. apply elem_of_list_to_set.
    apply list_elem_of_In, in_concat. exists (ch_key <$> rs). split; apply list_elem_of_In; [|done].
    apply list_elem_of_fmap_2. by eapply list_elem_of_lookup_2.
Qed.

(** C37.  The load generator against the interleaving server: it sets up its accounts and
    then its workers run concurrently, over every interleaving of workers and server
    tasks, with calls that fail, answers that get lost and any choices of the workers.
    When the fresh keys are all different (and have at most 64 characters), the generator
    never has two settlements of a pending transaction under way, so the committed tables
    satisfy the full ledger invariant at every point of the run; and it sends nothing
    but the account creations and fundings of the setup, followed by transfers of
    [amount] between accounts a worker has chosen, transfers between the two accounts
    without funds, settlements, and reads of a chosen asset account. *)
Theorem load_keeps_ledger n uuid p pool amount rounds c l1 l2 :
  conc_reachable true c -> c_sessions c = [] ->
  setup n uuid = Some p -> in_i64 amount ->
  NoDup (fund_keys 0 (n / 2) uuid ++ round_keys rounds) ->
  (forall key, key ∈ fund_keys 0 (n / 2) uuid ++ round_keys rounds -> (String.length key <= 64)%nat) ->
  rtc load_step (clients_start [p] c) l1 -> ld_workers l1 = [mk_runner (CRet (Ok pool)) None] ->
  rtc load_step (load_start pool amount rounds (ld_server l1)) l2 ->
  conc_reachable true (ld_server l2) /\
  db_ok (st_db (c_store (ld_server l2))) (st_seqs (c_store (ld_server l2))) /\
  exists sent sent', requests (ld_server l2) = sent ++ sent' /\ Forall setup_request sent /\
    Forall (worker_request pool amount (concat rounds)) sent'.
Proof.
  intros Hreach Hidle Hsetup Ha Hnd Hlen Hs1 Hw1 Hs2. setoid_rewrite elem_of_app in Hlen.
  destruct (setup_tidy n uuid p rounds c l1) as [gs1 Hl1]; auto.
  apply NoDup_app in Hnd as (_ & _ & Hnd).
  destruct (workers_tidy gs1 [] setup_request l1 pool amount rounds l2) as [gs2 Hl2]; auto.
  destruct (tl_sent _ _ _ _ _ Hl1) as (sent & Hsent & Hall).
  destruct (tl_sent _ _ _ _ _ Hl2) as (sent' & Hsent' & Hall').
  destruct (conc_reachable_safe db_ok true _ initial_db_ok (tl_reach _ _ _ _ _ Hl2)) as [os Hsafe].
  split_and!; [apply Hl2|apply Hsafe|]. exists sent, sent'. by rewrite Hsent', Hsent.
Qed.
End run.

(** ** A run that can be evaluated *)

Section drive.
Context `{JsonLib, PgLib} (now : Z) (steps : nat).

(** One client alone: every call is answered before the client goes on, within the
    given number of steps. *)
Fixpoint drive {A} (p : client A) (c : config) : option (A * config) :=
  match p with
  | CRet a => Some (a, c)
  | CCall req k =>
      let j := length (c_sessions c) in
      let c := turns now (replicate steps j) (arrive req c) in
      match answer_of j c with Some r => drive (k (client_answer r)) c | None => None end
  | CCount _ k | CLatency k => drive k c
  | CPanic => None
  end.

Lemma load_server_steps {A} c c' st lats (ws : list (runner A)) :
  rtc (task_step true) c c' -> rtc load_step (mk_load c st lats ws) (mk_load c' st lats ws).
Proof.
  intros Hs. apply (rtc_congruence (fun c => mk_load c st lats ws) (R := task_step true)); [|done].
  intros c1 c2 Ht. apply (load_server c2 (mk_load c1 st lats ws)). by eapply task_step_any.
Qed.

(** A call that is answered. *)
Lemma call_steps {A} req k c c1 r i st lats (ws : list (runner A)) :
  rtc (task_step true) (arrive req c) c1 -> answer_of (length (c_sessions c)) c1 = Some r ->
  ws !! i = Some (mk_runner (CCall req k) None) ->
  rtc load_step (mk_load c st lats ws)
    (mk_load c1 st lats (<[i := mk_runner (k (client_answer r)) None]> ws)).
Proof.
  intros Ht Hr Hi. set (j := length (c_sessions c)) in *.
  eapply rtc_l; [apply (load_send i req k j (arrive req c) (mk_load c st lats ws));
    [exact Hi|split; reflexivity]|].
  etrans; [by apply load_server_steps|]. cbn [ld_stats ld_latencies ld_workers].
  rewrite <- (list_insert_insert_eq ws i (mk_runner (k (client_answer r)) None)
    (mk_runner (CCall req k) (Some j))).
  apply rtc_once. eapply (load_receive i req k j (client_answer r) (mk_load c1 st lats _)).
  - apply list_lookup_insert_eq. by eapply lookup_lt_Some.
  - unfold answer_of in Hr. cbn [ld_server]. destruct (c_sessions c1 !! j) as [s|] eqn:Hs1; [|done].
    destruct (ss_prog s) as [r0| |] eqn:Hp; simplify_eq. by exists s, r.
Qed.

Lemma drive_steps {A} (p : client A) i c st lats (ws : list (runner A)) a c' :
  drive p c = Some (a, c') -> ws !! i = Some (mk_runner p None) ->
  exists st' lats', rtc load_step (mk_load c st lats ws)
    (mk_load c' st' lats' (<[i := mk_runner (CRet a) None]> ws)).
Proof.
  revert c st lats ws.
  induction p as [a0|req k IH|f k IH|k IH|]; intros c st lats ws Hd Hi; cbn [drive] in Hd.
  - simplify_eq. exists st, lats. by rewrite list_insert_id.
  - pose proof (turns_steps now (replicate steps (length (c_sessions c))) (arrive req c)) as Ht.
    revert Hd Ht. generalize (turns now (replicate steps (length (c_sessions c))) (arrive req c)).
    intros c1 Hd Ht. destruct (answer_of (length (c_sessions c)) c1) as [r|] eqn:Hr; [|done].
    destruct (IH (client_answer r) c1 st lats (<[i := mk_runner (k (client_answer r)) None]> ws) Hd)
      as (st' & lats' & Hs); [apply list_lookup_insert_eq; by eapply lookup_lt_Some|].
    exists st', lats'. rewrite list_insert_insert_eq in Hs. etrans; [by eapply call_steps|exact Hs].
  - destruct (IH c (fetch_add f st) lats (<[i := mk_runner k None]> ws) Hd) as (st' & lats' & Hs).
    { apply list_lookup_insert_eq. by eapply lookup_lt_Some. }
    exists st', lats'. rewrite list_insert_insert_eq in Hs.
    eapply rtc_l; [|exact Hs]. by apply (load_count i f k (mk_load c st lats ws)).
  - destruct (IH c st (lats ++ [S754_zero false]) (<[i := mk_runner k None]> ws) Hd) as (st' & lats' & Hs).
    { apply list_lookup_insert_eq. by eapply lookup_lt_Some. }
    exists st', lats'. rewrite list_insert_insert_eq in Hs.
    eapply rtc_l; [|exact Hs]. by apply (load_latency i k _ (mk_load c st lats ws)).
  - done.
Qed.

(** A setup and two workers, one after the other. *)
Lemma drive_load (p : cio accounts_pool) pool amount rs1 rs2 c c1 c2 c3 w1 w2 :
  drive p c = Some (Ok pool, c1) ->
  drive (worker_loop pool amount rs1 worker_new) c1 = Some (w1, c2) ->
  drive (worker_loop pool amount rs2 worker_new) c2 = Some (w2, c3) ->
  exists l1 l2, rtc load_step (clients_start [p] c) l1 /\
    ld_workers l1 = [mk_runner (CRet (Ok pool)) None] /\
    rtc load_step (load_start pool amount [rs1; rs2] (ld_server l1)) l2 /\ ld_server l2 = c3.
Proof.
  intros Hd1 Hd2 Hd3.
  destruct (drive_steps _ 0 c Stats_new [] [mk_runner p None] _ _ Hd1 eq_refl) as (st1 & la1 & Hs1).
  destruct (drive_steps _ 0 c1 Stats_new [] (ld_workers (load_start pool amount [rs1; rs2] c1)) _ _
    Hd2 eq_refl) as (st2 & la2 & Hs2).
  destruct (drive_steps _ 1 c2 st2 la2 (<[0%nat := mk_runner (CRet w1) None]>
    (ld_workers (load_start pool amount [rs1; rs2] c1))) _ _ Hd3) as (st3 & la3 & Hs3);
    [by rewrite list_lookup_insert_ne|].
  do 2 eexists. split_and!; [exact Hs1|done|etrans; [exact Hs2|exact Hs3]|done].
Qed.
End drive.

Import Sample.

(** A setup with one pair of accounts, then two workers: one captures a transfer and
    retries it, the other voids one. *)
Definition demo_prog : cio accounts_pool := default CPanic (setup 2 (fun _ => "fund")).
Definition demo_pool : accounts_pool := mk_accounts_pool [1] [2] 3 4.
Definition demo_first_rounds : list choice := [mk_choice 0 1 2 "a"; mk_choice 66 1 2 "b"].
Definition demo_second_rounds : list choice := [mk_choice 50 1 2 "c"].
Local Abbreviation demo_worker rs := (drive 1000 60 (worker_loop demo_pool 500 rs worker_new)).
Definition demo_funded : config := from_option snd initial_config (drive 1000 60 demo_prog initial_config).
Definition demo_middle : config :=
  from_option snd initial_config (demo_worker demo_first_rounds demo_funded).
Definition demo_end : config :=
  from_option snd initial_config (demo_worker demo_second_rounds demo_middle).

(** Posted and pending balance of an account. *)
Definition balances_of (a : Z) (c : config) : option (Z * Z) :=
  (fun r => (a_posted_balance r, a_pending_balance r)) <$> accounts (st_db (c_store c)) !! a.

Example setup_funds_assets :
  drive 1000 60 demo_prog initial_config = Some (Ok demo_pool, demo_funded) /\
  balances_of 1 demo_funded = Some (1000000, 0).
Proof. vm_compute. done. Qed.
Example workers_against_server :
  demo_worker demo_first_rounds demo_funded =
    Some (mk_worker (Some "a") (Some 2), demo_middle) /\
  demo_worker demo_second_rounds demo_middle = Some (worker_new, demo_end) /\
  balances_of 1 demo_end = Some (999500, 0) /\
  length (c_sessions demo_end) = 12%nat.
Proof. vm_compute. done. Qed.

Lemma demo_run : exists l1 l2, rtc load_step (clients_start [demo_prog] initial_config) l1 /\
  ld_workers l1 = [mk_runner (CRet (Ok demo_pool)) None] /\
  rtc load_step (load_start demo_pool 500 [demo_first_rounds; demo_second_rounds] (ld_server l1)) l2 /\
  ld_server l2 = demo_end.
Proof.
  destruct setup_funds_assets as [Hd1 _]. destruct workers_against_server as (Hd2 & Hd3 & _).
  exact (drive_load 1000 60 demo_prog demo_pool 500 demo_first_rounds demo_second_rounds
    initial_config demo_funded demo_middle demo_end _ _ Hd1 Hd2 Hd3).
Qed.

Lemma load_keeps_ledger_witness :
  db_ok (st_db (c_store demo_end)) (st_seqs (c_store demo_end)) /\
  balances_of 1 demo_end = Some (999500, 0).
Proof.
  split; [|apply workers_against_server]. destruct demo_run as (l1 & l2 & Hs1 & Hw & Hs2 & Hend).
  destruct (load_keeps_ledger 2 (fun _ => "fund") demo_prog demo_pool 500
    [demo_first_rounds; demo_second_rounds] initial_config l1 l2) as (_ & Hok & _);
    [..|rewrite Hend in Hok; exact Hok].
  - apply rtc_refl.
  - reflexivity.
  - reflexivity.
  - int_lia.
  - refine (bool_decide_eq_true_1 (NoDup _) _). vm_compute. reflexivity.
  - intros key Hkey. vm_compute in Hkey. repeat (apply elem_of_cons in Hkey as [->|Hkey]; [simpl; lia|]).
    destruct (not_elem_of_nil _ Hkey).
  - exact Hs1.
  - exact Hw.
  - exact Hs2.
Defined.
