(* ===== verification/GrpcMetrics.v ===== *)
(** * gRPC metrics: [observability/grpc_metrics.rs]

    The layer around the service: it calls the inner service and counts the call
    under a method label and a status label.  A response is known to the layer by
    its [grpc-status] header; bytes are kept as strings. *)

From S2P Require Import Prelude.
From S2P Require Import Transactions StorageErrors Schema Cache Effects Triples Concrete.
From Stdlib Require Import Ascii.
Local Open Scope Z_scope.

(** [path.rsplit('/').next()]: what follows the last slash. *)
Fixpoint after_last (c : ascii) (acc s : string) : string :=
  match s with
  | EmptyString => acc
  | String d s => if decide (d = c) then after_last c s s else after_last c acc s
  end.
Definition last_segment (path : string) : string := after_last "/" path path.

Definition extract_method_name (path : string) : string :=
  let method := last_segment path in
  if decide (method = "CreateAccount") then "CreateAccount"
  else if decide (method = "GetAccount") then "GetAccount"
  else if decide (method = "GetBalance") then "GetBalance"
  else if decide (method = "Authorize") then "Authorize"
  else if decide (method = "Capture") then "Capture"
  else if decide (method = "Void") then "Void"
  else if decide (method = "GetEntries") then "GetEntries"
  else "unknown".

Definition code_labels : list (string * string) :=
  [("0", "ok"); ("1", "cancelled"); ("2", "unknown"); ("3", "invalid_argument");
   ("4", "deadline_exceeded"); ("5", "not_found"); ("6", "already_exists");
   ("7", "permission_denied"); ("8", "resource_exhausted"); ("9", "failed_precondition");
   ("10", "aborted"); ("11", "out_of_range"); ("12", "unimplemented"); ("13", "internal");
   ("14", "unavailable"); ("15", "data_loss"); ("16", "unauthenticated")].
Definition grpc_code_to_label (code : string) : string :=
  match head (filter (fun x => x.1 = code) code_labels) with
  | Some (_, label) => label
  | None => "unknown"
  end.

Definition grpc_status_from_response (grpc_status : option string) : string :=
  match grpc_status with
  | None => "ok"
  | Some value => grpc_code_to_label value
  end.

(** [GrpcMetricsService::call]: [header] reads the [grpc-status] header of a
    response of the inner service. *)
Definition grpc_call `{JsonLib} {E R} (header : R -> option string) (path : string)
    (inner : prog (result E R)) : prog (result E R) :=
  let method := extract_method_name path in
  prog_bind (fun result =>
    let status := match result with
                  | Ok response => grpc_status_from_response (header response)
                  | Err _ => "error"
                  end in
    Vis (Counter "fides_grpc_requests_total" [("method", method); ("status", status)])
      (fun _ => Ret result)) inner.

(** The labels the metrics can have. *)
Definition method_labels : list string :=
  ["CreateAccount"; "GetAccount"; "GetBalance"; "Authorize"; "Capture"; "Void"; "GetEntries";
   "unknown"].
Definition status_labels : list string := "error" :: (snd <$> code_labels).

Lemma extract_method_name_bounded path : extract_method_name path ∈ method_labels.
Proof.
  unfold extract_method_name, method_labels. repeat case_decide; set_solver.
Qed.

Lemma grpc_code_to_label_bounded code : grpc_code_to_label code ∈ status_labels.
Proof.
  unfold grpc_code_to_label. destruct (head _) as [[c l]|] eqn:Hh.
  - apply head_Some_elem_of, list_elem_of_filter in Hh as [_ Hin].
    apply elem_of_cons. right. apply list_elem_of_fmap. by exists (c, l).
  - unfold status_labels, code_labels. set_solver.
Qed.

Lemma after_last_lacks c s t acc :
  str_lacks c t -> after_last c acc (s +:+ String c t) = t.
Proof.
  intros Ht. assert (forall acc, after_last c acc t = acc) as Hno.
  { clear -Ht. induction t as [|d t IH]; intros acc; [done|]. destruct Ht as [Hd Ht].
    simpl. rewrite decide_False by done. by apply IH. }
  revert acc. induction s as [|d s IH]; intros acc.
  - simpl. rewrite decide_True by done. apply Hno.
  - rewrite string_app_cons. cbn [after_last]. case_decide; apply IH.
Qed.

Lemma after_last_split c s acc :
  (after_last c acc s = acc /\ str_lacks c s) \/
  exists pre, s = pre +:+ String c (after_last c acc s) /\ str_lacks c (after_last c acc s).
Proof.
  revert acc. induction s as [|d s IH]; intros acc; [by left|]. simpl. case_decide as Hd.
  - right. destruct (IH s) as [[-> Hl]|(pre & Hs & Hl)].
    + exists "". by subst.
    + exists (String d pre). split; [|done]. rewrite string_app_cons. by f_equal.
  - destruct (IH acc) as [[-> Hl]|(pre & Hs & Hl)]; [by left|right].
    exists (String d pre). split; [|done]. rewrite string_app_cons. by f_equal.
Qed.

Lemma str_lacks_split c pre t : ~ str_lacks c (pre +:+ String c t).
Proof. induction pre as [|d pre IH]; [by intros [? _]|]. rewrite string_app_cons. by intros [_ ?]. Qed.

(** ** What a call is counted under *)

(** The path names the method: it is all of it, or what follows a slash. *)
Definition names (path method : string) : Prop :=
  path = method \/ exists service, path = service +:+ "/" +:+ method.
Definition rpc_methods : list string :=
  ["CreateAccount"; "GetAccount"; "GetBalance"; "Authorize"; "Capture"; "Void"; "GetEntries"].
Inductive counted_method (path : string) : string -> Prop :=
| counted_known m : m ∈ rpc_methods -> names path m -> counted_method path m
| counted_other : (forall m, m ∈ rpc_methods -> ~ names path m) -> counted_method path "unknown".

(** The status of an answer: an error of the service itself, no status header, a code
    of the table, or another code. *)
Inductive counted_status {E R} (header : R -> option string) : result E R -> string -> Prop :=
| counted_error e : counted_status header (Err e) "error"
| counted_ok x : header x = None -> counted_status header (Ok x) "ok"
| counted_code x code label : header x = Some code -> (code, label) ∈ code_labels ->
    counted_status header (Ok x) label
| counted_no_code x code : header x = Some code -> code ∉ code_labels.*1 ->
    counted_status header (Ok x) "unknown".

Lemma rpc_methods_lack m : m ∈ rpc_methods -> str_lacks "/" m.
Proof.
  intros Hm. unfold rpc_methods in Hm. repeat (apply elem_of_cons in Hm as [->|Hm];
    [apply (bool_decide_unpack _); vm_compute; reflexivity|]). by apply elem_of_nil in Hm.
Qed.
Lemma names_last_segment path m : str_lacks "/" m -> names path m <-> last_segment path = m.
Proof.
  intros Hm. unfold last_segment. split.
  - intros [->|[service ->]].
    + destruct (after_last_split "/" m m) as [[-> _]|(pre & Hs & _)]; [done|].
      rewrite Hs in Hm. by apply str_lacks_split in Hm.
    + change (service +:+ "/" +:+ m) with (service +:+ String "/" m). by apply after_last_lacks.
  - intros <-. destruct (after_last_split "/" path path) as [[-> _]|(pre & Hs & _)]; [by left|].
    right. by exists pre.
Qed.
Lemma counted_segment path m : m ∈ rpc_methods -> last_segment path = m -> counted_method path m.
Proof. intros Hm Hl. apply counted_known; [done|]. apply names_last_segment; [by apply rpc_methods_lack|done]. Qed.
Lemma extract_method_name_counted path : counted_method path (extract_method_name path).
Proof.
  unfold extract_method_name.
  repeat (case_decide; [apply counted_segment; [unfold rpc_methods; set_solver|done]|]).
  apply counted_other. intros m Hm Hn.
  apply (names_last_segment path m (rpc_methods_lack _ Hm)) in Hn. subst m.
  unfold rpc_methods in Hm. set_solver.
Qed.
Lemma grpc_status_counted {E R} (header : R -> option string) (x : R) :
  counted_status (E := E) header (Ok x) (grpc_status_from_response (header x)).
Proof.
  unfold grpc_status_from_response. destruct (header x) as [code|] eqn:Hx; [|by constructor].
  unfold grpc_code_to_label. destruct (head _) as [[c l]|] eqn:Hh.
  - apply head_Some_elem_of, list_elem_of_filter in Hh as [Hc Hin]. simpl in Hc. subst c.
    by eapply counted_code.
  - apply (counted_no_code _ _ code); [done|].
    intros [[c l] [-> Hin]]%list_elem_of_fmap. apply head_None in Hh. simpl in Hh.
    assert ((c, l) ∈ filter (fun x => x.1 = c) code_labels) as Hf by (by apply list_elem_of_filter).
    rewrite Hh in Hf. by apply elem_of_nil in Hf.
Qed.

(** ** Properties *)

(** C36.  The metrics layer: it answers what the inner service answers, panics included, and
    does nothing else than to count each answer once.  The method label is the method
    of the service that the path ends with, alone or after a slash, and "unknown" for
    every other path; the status label is "error" when the service itself fails, "ok"
    without a status header, the name of the code in the header, and "unknown" for a
    code that is none.  So there are eight method labels and eighteen status labels,
    whatever is sent. *)
Theorem metrics_layer_transparent `{JsonLib} {E R} (header : R -> option string) path
    (inner : prog (result E R)) w :
  (run (grpc_call header path inner) w).1 = (run inner w).1 /\
  match (run inner w).1 with
  | None => (run (grpc_call header path inner) w).2 = (run inner w).2
  | Some r => exists method status,
      counted_method path method /\ method ∈ method_labels /\
      counted_status header r status /\ status ∈ status_labels /\
      (run (grpc_call header path inner) w).2 =
        add_counter "fides_grpc_requests_total" [("method", method); ("status", status)]
          (run inner w).2
  end.
Proof.
  unfold grpc_call. rewrite run_bind. destruct (run inner w) as [[r|] w']; [|done]. split; [done|].
  exists (extract_method_name path).
  eexists. split_and!; [apply extract_method_name_counted|apply extract_method_name_bounded|..|reflexivity].
  - destruct r; [apply grpc_status_counted|constructor].
  - destruct r as [x|e]; [|unfold status_labels; set_solver].
    unfold grpc_status_from_response. destruct (header x); [apply grpc_code_to_label_bounded|].
    unfold status_labels, code_labels. set_solver.
Qed.
