(* ===== verification/Metrics.v ===== *)
(** * Prometheus metrics: [observability/metrics.rs]

    The routes of the HTTP server, the gauges that the background tasks set, and that
    everything the server counts is described in the table of [Recorder.v]. *)

From S2P Require Import Prelude.
From S2P Require Import Money Accounts Transactions Entries Validation.
From S2P Require Import StorageErrors Schema Cache Effects Triples Postgres.
From S2P Require Import ServiceErrors Ledger Invariant Updates PostgresSpecs LedgerSpecs.
From S2P Require Import Preserve Handlers HandlerSpecs AuthorizeSpec SettleSpec System.
From S2P Require Import Safety Integrity Config Recorder Server GrpcMetrics Concrete.
Local Open Scope Z_scope.

(** ** Routes *)

(** The routes of the HTTP server: the health probes merged with [/metrics], which
    renders the recorder. *)
Inductive http_response := ProbeResponse (status : StatusCode) | TextResponse (body : string).
Definition metrics_router {H} (render : H -> string) (handle : H)
  : list (string * (result SqlxError Z -> http_response)) :=
  [("/metrics", fun _ => TextResponse (render handle))].
Definition http_router {H} (render : H -> string) (state : HealthState) (handle : H)
  : list (string * (result SqlxError Z -> http_response)) :=
  (prod_map id (compose ProbeResponse) <$> health_router state) ++ metrics_router render handle.

(** Merging routers with a common path would panic. *)
Lemma http_router_disjoint {H} (render : H -> string) state handle :
  NoDup (http_router render state handle).*1.
Proof. apply (bool_decide_unpack _). vm_compute. exact I. Qed.

(** ** Gauges of the background tasks *)

(** One tick of the gauge poll. *)
Definition gauge_poll (pool_size num_idle : Z) (cache : BalanceCache) : list (string * Z) :=
  [("fides_db_pool_size", pool_size); ("fides_db_pool_idle", num_idle);
   ("fides_balance_cache_accounts", Z.of_nat (BalanceCache_len cache))].

(** One round of the integrity checker: a check whose query fails sets no gauge. *)
Definition integrity_gauges (now : Z) (r : option bool * option nat * option nat)
  : list (string * Z) :=
  let '(balanced, account_mismatches, cache_mismatches) := r in
  match balanced with
  | Some b => [("fides_integrity_global_balanced", if b then 1 else 0)]
  | None => []
  end ++
  match account_mismatches with
  | Some n => [("fides_integrity_account_mismatches", Z.of_nat n)]
  | None => []
  end ++
  match cache_mismatches with
  | Some n => [("fides_integrity_cache_mismatches", Z.of_nat n)]
  | None => []
  end ++
  [("fides_integrity_last_check_timestamp", now)].

(** ** What a program counts *)

Section emits.
Context `{JsonLib, PgLib} (ok : string -> Prop).

Fixpoint emits {A} (p : prog A) : Prop :=
  match p with
  | Ret _ | Panic => True
  | Vis e k => match e with Counter n _ => ok n | _ => True end /\ forall x, emits (k x)
  end.

Lemma emits_prog_bind {A B} (p : prog A) (k : A -> prog B) :
  emits p -> (forall a, emits (k a)) -> emits (prog_bind k p).
Proof.
  intros Hp Hk. induction p as [a|X e k' IH|]; simpl in *; [auto| |done].
  destruct Hp as [He Hp]. split; [done|]. auto.
Qed.
Lemma emits_bind {E A B} (p : io E A) (k : A -> io E B) :
  emits p -> (forall a, emits (k a)) -> emits (x ← p; k x).
Proof. intros Hp Hk. apply emits_prog_bind; [done|]. by intros []. Qed.
Lemma emits_map_err {E F A} (g : E -> F) (p : io E A) : emits p -> emits (io_map_err g p).
Proof. intros Hp. by apply emits_prog_bind. Qed.
Lemma emits_perform_err {E} {A : Set} (e : eff (result SqlxError A)) (g : SqlxError -> E) :
  match e with Counter _ _ => False | _ => True end -> emits (perform_err e g).
Proof. intros He. simpl. split; [|done]. by destruct e. Qed.
Lemma emits_io_map {E A B} (f : A -> io E B) l : (forall a, emits (f a)) -> emits (io_map f l).
Proof.
  intros Hf. induction l as [|a l IH]; [done|].
  apply emits_bind; [done|]. intros b. by apply emits_bind.
Qed.
Lemma emits_io_iter {E A} (f : A -> io E unit) l : (forall a, emits (f a)) -> emits (io_iter f l).
Proof. intros Hf. induction l as [|a l IH]; [done|]. by apply emits_bind. Qed.
Lemma emits_io_fold {E B A} (f : B -> A -> io E B) b l :
  (forall b a, emits (f b a)) -> emits (io_fold f b l).
Proof.
  intros Hf. revert b. induction l as [|a l IH]; intros b; [done|]. by apply emits_bind.
Qed.
Lemma emits_unwrap {E A} (o : option A) : emits (unwrap (E := E) o).
Proof. by destruct o. Qed.

Lemma run_emits {A} (p : prog A) w r w' :
  emits p -> run p w = (r, w') ->
  forall c, c ∈ w_counters w' -> c ∈ w_counters w \/ ok c.1.
Proof.
  revert w. induction p as [a|X e k IH|]; intros w Hp Hr c Hc; simpl in *; try by simplify_eq; left.
  destruct (step e w) as [x w1] eqn:Hs. destruct Hp as [He Hk].
  destruct (IH x w1 (Hk x) Hr c Hc) as [Hc1|?]; [|by right].
  destruct e as [| |B q| |B q|B op|n ls]; simpl in Hs.
  - simplify_eq. by left.
  - unfold step_begin, next_fault in Hs. destruct (mjoin _); simplify_eq; by left.
  - unfold step_query, next_fault in Hs. simpl in Hs. left.
    destruct (mjoin _), (w_tx w) as [v|]; simplify_eq/=; try done.
    destruct (stmt_exec q (w_seqs w) v) as [s' [[a v']|]]; by simplify_eq.
  - unfold step_commit, next_fault in Hs. simpl in Hs. left.
    destruct (mjoin _) as [f|], (w_tx w); simplify_eq/=; try done; by destruct (fault_applied f).
  - unfold step_pool, next_fault in Hs. simpl in Hs. left.
    destruct (mjoin _); simplify_eq/=; [done|].
    destruct (stmt_exec q (w_seqs w) (w_db w)) as [s' [[a v']|]]; by simplify_eq.
  - destruct (op (w_cache w)). simplify_eq. by left.
  - simplify_eq. simpl in Hc1. apply elem_of_cons in Hc1 as [->|?]; [by right|by left].
Qed.
End emits.

(** Following the program: only the counters are left. *)
Ltac emits_rules := repeat first
  [ progress intros | apply emits_bind | apply emits_map_err | apply emits_unwrap
  | apply emits_io_map | apply emits_io_iter | apply emits_io_fold
  | (apply emits_perform_err; exact I)
  | match goal with
    | |- emits _ (match ?x with _ => _ end) => destruct x
    | |- emits _ (if ?x then _ else _) => destruct x
    end ].

Section described.
Context `{JsonLib, PgLib}.

Definition described (kind : metric_kind) (name : string) : Prop :=
  (kind, name) ∈ describe_metrics.*1.
#[export] Instance described_dec kind name : Decision (described kind name).
Proof. unfold described. apply _. Defined.

Lemma emits_counter name ls : described CounterMetric name ->
  emits (described CounterMetric) (counter name ls).
Proof. by split. Qed.

Ltac described_counters :=
  emits_rules; try done; try (apply emits_counter; apply (bool_decide_unpack _); vm_compute; done).

Lemma emits_lock_accounts ids : emits (described CounterMetric) (lock_accounts ids).
Proof. unfold lock_accounts, storage, storage_get_account_for_update, query. described_counters. Qed.
Lemma emits_apply_balance_updates accts u :
  emits (described CounterMetric) (apply_balance_updates accts u).
Proof.
  unfold apply_balance_updates, find_account, storage, storage_update_account_balance,
    version_error, query. described_counters.
Qed.
Lemma emits_check_available accts legs :
  emits (described CounterMetric) (check_available accts legs).
Proof. unfold check_available, find_account, cache_get. described_counters. Qed.
Lemma emits_settle_updates upd accts es :
  emits (described CounterMetric) (settle_updates upd accts es).
Proof. unfold settle_updates, find_account. described_counters. Qed.
Lemma emits_update_cache u : emits (described CounterMetric) (update_cache u).
Proof. unfold update_cache, cache_apply_delta. described_counters. Qed.

Ltac handler_counters :=
  repeat first [ apply emits_bind; [|intros ?] | apply emits_lock_accounts
               | apply emits_apply_balance_updates | apply emits_check_available
               | apply emits_settle_updates | apply emits_update_cache ];
  described_counters.

Lemma emits_handle req : emits (described CounterMetric) (handle req).
Proof.
  destruct req; unfold handle, create_account, get_account, get_balance, authorize,
    authorize_existing, authorize_new, authorize_leg, find_account, capture, void, get_entries,
    begin_tx, commit_tx,
    now_millis, cache_get, cache_set, storage, storage_begin, storage_create_account,
    storage_get_account, storage_find_transaction_by_key, storage_get_entries_for_transaction,
    storage_create_transaction, storage_create_entry, storage_get_transaction,
    storage_update_transaction_status, storage_update_entry_status_by_transaction,
    storage_get_entries_for_account, query; handler_counters.
Qed.

(** Everything the server reports is described: whatever a request does, in whatever state
    and however it ends, the counters it increments behind the metrics layer are
    registered as counters, and the gauges of the poll and of the integrity checks are
    registered as gauges. *)
Theorem metrics_described req (header : response -> option string) path w :
  (forall c, c ∈ w_counters (run (grpc_call header path (grpc (handle req))) w).2 ->
     c ∈ w_counters w \/ described CounterMetric c.1) /\
  (forall size idle cache x, x ∈ gauge_poll size idle cache -> described GaugeMetric x.1) /\
  (forall now checks x, x ∈ integrity_gauges now checks -> described GaugeMetric x.1).
Proof.
  split_and!.
  - intros c Hc. destruct (run _ w) as [r w'] eqn:Hr. eapply run_emits; [|exact Hr|exact Hc].
    apply emits_prog_bind.
    + apply emits_map_err, emits_handle.
    + intros a. split; [|done]. apply (bool_decide_unpack _). vm_compute. done.
  - intros size idle cache x Hx. unfold gauge_poll, described, describe_metrics in *. simpl. set_solver.
  - intros now [[[b|] [n|]] [m|]] x Hx;
      unfold integrity_gauges, described, describe_metrics in *; simpl; set_solver.
Qed.
End described.

(** ** Concrete case *)

Import Concrete.Sample.

Definition posted_count : string * list (string * string) :=
  ("fides_transactions_total", [("status", "posted")]).
Lemma metrics_described_witness :
  posted_count ∈ w_counters (run (grpc_call (fun _ : response => Some "0")
    "/fides.LedgerService/Capture" (grpc (handle (Capture 2)))) (at_time 1000 [] held)).2 /\
  (posted_count ∈ w_counters (at_time 1000 [] held) \/ described CounterMetric posted_count.1).
Proof.
  assert (posted_count ∈ w_counters (run (grpc_call (fun _ : response => Some "0")
    "/fides.LedgerService/Capture" (grpc (handle (Capture 2)))) (at_time 1000 [] held)).2) as Hin
    by (apply (bool_decide_unpack _); vm_compute; exact I).
  split; [exact Hin|]. revert Hin.
  exact (proj1 (metrics_described (Capture 2) (fun _ => Some "0") "/fides.LedgerService/Capture"
    (at_time 1000 [] held)) posted_count).
Defined.
