(* ===== verification/IntegrityCorrect.v ===== *)
(** * IntegrityCorrect: the checks of a reachable ledger pass, and what they detect *)

From S2P Require Import Prelude.
From S2P Require Import Money Accounts Transactions Entries Validation.
From S2P Require Import StorageErrors Schema Cache Effects Triples Postgres.
From S2P Require Import ServiceErrors Ledger Invariant Updates PostgresSpecs LedgerSpecs.
From S2P Require Import Preserve Integrity.
From S2P Require Import Handlers HandlerSpecs AuthorizeSpec SettleSpec System Safety.
From S2P Require Import Concrete.
Local Open Scope Z_scope.

(** ** Sums by transaction *)

Lemma map_Zsum_by_txn (g : entries_row -> Z) (es : gmap Z entries_row) (ts : list Z) :
  NoDup ts -> (forall k e, es !! k = Some e -> e_transaction_id e ∈ ts) ->
  map_Zsum g es =
    Zsum (fun t => map_Zsum (fun e => if decide (e_transaction_id e = t) then g e else 0) es) ts.
Proof.
  intros Hnd Hin. induction es as [|k e es Hk IH] using map_ind.
  - rewrite map_Zsum_empty. symmetry. apply Zsum_zero. intros t _. apply map_Zsum_empty.
  - rewrite map_Zsum_insert by done. rewrite IH.
    + rewrite <- (Zsum_indicator ts (e_transaction_id e) (g e)) at 1; [|done|].
      * rewrite <- Zsum_add. apply Zsum_ext. intros t _. by rewrite map_Zsum_insert.
      * apply (Hin k e). apply lookup_insert_eq.
    + intros k' e' He'. apply (Hin k' e'). rewrite lookup_insert_ne by congruence. done.
Qed.

Section integrity.
Context `{JsonLib, PgLib} {Hlaws : PgLaws}.
Implicit Types (db : database) (s : sequences) (w : world).

Definition global_total (et : Z) db : Z :=
  sum_case (fun e => bool_decide (e_status e <> 3 /\ e_entry_type e = et)) (entries db).

(** Each transaction contributes as many debits as credits. *)
Lemma txn_difference db s t tr :
  db_ok db s -> transactions db !! t = Some tr ->
  map_Zsum (fun e => if decide (e_transaction_id e = t) then
      (if bool_decide (e_status e <> 3 /\ e_entry_type e = 1) then e_amount e else 0) -
      (if bool_decide (e_status e <> 3 /\ e_entry_type e = 2) then e_amount e else 0)
    else 0) (entries db) = 0.
Proof.
  intros Hok Ht. destruct (ok_transactions _ _ Hok _ _ Ht) as [_ _ Hbal _ _].
  set (z := if decide (t_status tr = 3) then 0 else 1).
  transitivity (z * (txn_total EntryType_Debit t (entries db) -
                     txn_total EntryType_Credit t (entries db))); [|lia].
  assert (forall k e, entries db !! k = Some e -> entry_row_ok e /\
            (e_transaction_id e = t -> e_status e = t_status tr)) as Hes.
  { intros k e He. destruct (ok_entries _ _ Hok _ _ He) as [Hrow _ _ (tr' & Ht' & Hs)].
    split; [done|]. intros <-. congruence. }
  clear Hok Ht Hbal. unfold txn_total. rewrite !map_Zsum_to_list.
  assert (forall x, x ∈ map_to_list (entries db) -> entry_row_ok x.2 /\
            (e_transaction_id x.2 = t -> e_status x.2 = t_status tr)) as Hx.
  { intros [k e] ?%elem_of_map_to_list. eauto. }
  clear Hes. induction (map_to_list (entries db)) as [|[k e] l IH].
  - unfold Zsum. simpl. lia.
  - rewrite !Zsum_cons. rewrite IH by set_solver.
    destruct (Hx (k, e) ltac:(set_solver)) as [[(Hty & _) _] Hs]. simpl in *.
    case_decide as Het; [|lia]. rewrite (Hs Het).
    unfold on_side, code_side. apply code_cases_2 in Hty as [Hty|Hty]; rewrite !Hty;
      unfold z; simpl; repeat case_bool_decide; repeat case_decide; destruct_and?;
      simplify_eq; try lia; try tauto.
Qed.

Lemma global_balanced db s : db_ok db s -> global_total 1 db = global_total 2 db.
Proof.
  intros Hok. cut (global_total 1 db - global_total 2 db = 0); [lia|].
  unfold global_total, sum_case.
  set (g := fun e => (if bool_decide (e_status e <> 3 /\ e_entry_type e = 1) then e_amount e else 0)
    - (if bool_decide (e_status e <> 3 /\ e_entry_type e = 2) then e_amount e else 0)).
  transitivity (map_Zsum g (entries db)).
  { subst g. rewrite !map_Zsum_to_list. induction (map_to_list (entries db)) as [|x l IH];
      [done|]. rewrite !Zsum_cons, <- IH. lia. }
  rewrite (map_Zsum_by_txn g _ (map_to_list (transactions db)).*1).
  - apply Zsum_zero. intros t Ht. apply list_elem_of_fmap in Ht as ([t' tr] & -> & Ht).
    apply elem_of_map_to_list in Ht. by apply (txn_difference db s t' tr).
  - apply NoDup_fst_map_to_list.
  - intros k e He. destruct (eo_transaction _ _ _ _ (ok_entries _ _ Hok _ _ He)) as (tr & Ht & _).
    apply list_elem_of_fmap. exists (e_transaction_id e, tr). split; [done|].
    by apply elem_of_map_to_list.
Qed.

(** A query of the pool when the database does not fail. *)
Lemma run_pool {A B} (q : stmt A) r (k : result SqlxError A -> prog B) w :
  w_faults w = [] ->
  stmt_exec q (w_seqs w) (w_db w) = (w_seqs w, a ← r; Ok (a, w_db w)) ->
  exists w', w_db w' = w_db w /\ w_cache w' = w_cache w /\ w_faults w' = [] /\
    run (Vis (PoolQuery q) k) w = run (k r) w'.
Proof.
  intros Hf Hq. simpl. unfold step_pool, next_fault. rewrite Hf. simpl. rewrite Hq.
  destruct r as [a|e]; simpl;
    eexists; (split; [|split; [|split; [|reflexivity]]]); reflexivity.
Qed.

(** ** Check 1 *)

Lemma global_total_nonneg et db s : db_ok db s -> 0 <= global_total et db.
Proof.
  intros Hok. apply sum_case_nonneg. intros k e He.
  destruct (db_ok_entry_row _ _ Hok _ _ He) as [(_ & ? & _) _]. lia.
Qed.

Lemma run_check_global w :
  w_faults w = [] ->
  exists w', w_db w' = w_db w /\ w_cache w' = w_cache w /\ w_faults w' = [] /\
    run check_global_balance w =
      (Some match select_global (w_db w) with
            | Ok (d, c) => Some (bool_decide (d = c)) | Err _ => None end, w').
Proof.
  intros Hf. destruct (run_pool (pool_result select_global) (select_global (w_db w))
    (fun result => match result with
      | Ok (d, c) => Ret (Some (bool_decide (d = c))) | Err _ => Ret None end) w Hf eq_refl)
    as (w' & ? & ? & ? & Hrun).
  exists w'. split_and!; [done..|]. unfold check_global_balance. rewrite Hrun.
  by destruct (select_global (w_db w)) as [[d c]|e].
Qed.

Lemma select_global_Ok db d c :
  select_global db = Ok (d, c) <->
  d = global_total 1 db /\ c = global_total 2 db /\ in_i64 d /\ in_i64 c.
Proof.
  unfold select_global, bigint. fold (global_total 1 db) (global_total 2 db).
  destruct (decide (in_i64 (global_total 1 db))) as [H1|H1]; simpl.
  - destruct (decide (in_i64 (global_total 2 db))) as [H2|H2]; simpl; naive_solver.
  - naive_solver.
Qed.

(** ** Check 2 *)

Definition column (id st et : Z) db : Z :=
  sum_case (fun e => bool_decide (e_account_id e = id /\ e_status e <> 3 /\
                       e_status e = st /\ e_entry_type e = et)) (entries db).

(** A column of the join is at most the global total of its side. *)
Lemma column_le id st et db :
  (forall k e, entries db !! k = Some e -> entry_row_ok e) ->
  0 <= column id st et db <= global_total et db.
Proof.
  intros Hok. split.
  - apply sum_case_nonneg. intros k e He. destruct (Hok k e He) as [(_ & ? & _) _]. lia.
  - unfold column, global_total, sum_case. rewrite !map_Zsum_to_list. apply Zsum_le.
    intros [k e] He%elem_of_map_to_list. destruct (Hok k e He) as [(_ & ? & _) _].
    simpl. repeat case_bool_decide; lia || tauto.
Qed.

Definition sums_row db (x : Z * accounts_row) : account_sums :=
  mk_account_sums x.1 (a_account_type x.2) (a_posted_balance x.2) (a_pending_balance x.2)
    (column x.1 2 1 db) (column x.1 2 2 db) (column x.1 1 1 db) (column x.1 1 2 db).

Lemma select_account_sums_fit db :
  (forall id st et, et = 1 \/ et = 2 -> in_i64 (column id st et db)) ->
  select_account_sums db = Ok (sums_row db <$> map_to_list (accounts db)).
Proof.
  intros Hfit. apply try_map_Ok_Forall2. apply Forall2_fmap_r, Forall_Forall2_diag.
  apply Forall_forall. intros [id r] _. unfold joined_sum, bigint.
  fold (column id 2 1 db) (column id 2 2 db) (column id 1 1 db) (column id 1 2 db).
  by do 4 (rewrite decide_True by auto; simpl).
Qed.

(** A row of the join is a mismatch exactly when a materialized balance is not the
    signed sum of the entries. *)
Lemma account_mismatch_false db id r :
  (forall k e, entries db !! k = Some e -> entry_row_ok e) -> 1 <= a_account_type r <= 5 ->
  (forall st et, et = 1 \/ et = 2 -> in_i64 (column id st et db)) ->
  account_mismatch (sums_row db (id, r)) = false <->
  a_posted_balance r = account_sum 2 id (a_account_type r) (entries db) /\
  a_pending_balance r = account_sum 1 id (a_account_type r) (entries db).
Proof.
  intros Hok Hty Hfit. rewrite !account_sum_columns by (done || lia).
  fold (column id 2 1 db) (column id 2 2 db) (column id 1 1 db) (column id 1 2 db).
  assert (forall st et st' et', et = 1 \/ et = 2 -> et' = 1 \/ et' = 2 ->
    i64_wrap (column id st et db - column id st' et' db) = column id st et db - column id st' et' db)
    as Hw.
  { intros st et st' et' Het Het'. apply i64_wrap_id.
    pose proof (Hfit st et Het). pose proof (Hfit st' et' Het').
    pose proof (column_le id st et db Hok). pose proof (column_le id st' et' db Hok). int_lia. }
  unfold account_mismatch. simpl. rewrite is_debit_normal_normal by done.
  rewrite !Hw by auto. destruct (code_normal (a_account_type r)); simpl;
    rewrite orb_false_iff, !negb_false_iff, !Z.eqb_eq; done.
Qed.

Lemma run_check_accounts w :
  w_faults w = [] ->
  exists w', w_db w' = w_db w /\ w_cache w' = w_cache w /\ w_faults w' = [] /\
    run check_account_balances w =
      (Some match select_account_sums (w_db w) with
            | Ok rows => Some (length (List.filter account_mismatch rows)) | Err _ => None end, w').
Proof.
  intros Hf. destruct (run_pool (pool_result select_account_sums) (select_account_sums (w_db w))
    (fun result => match result with
      | Ok rows => Ret (Some (length (List.filter account_mismatch rows)))
      | Err _ => Ret None end) w Hf eq_refl) as (w' & ? & ? & ? & Hrun).
  exists w'. split_and!; [done..|]. unfold check_account_balances. rewrite Hrun.
  by destruct (select_account_sums (w_db w)) as [rows|e].
Qed.

(** ** Check 3 *)

Lemma collect_cache_iter (c : BalanceCache) :
  collect_cache (BalanceCache_iter c) = (fun b => (cached_posted b, cached_pending b)) <$> c.
Proof.
  rewrite <- (foldl_insert_map_to_list (_ <$> c)), map_to_list_fmap.
  unfold collect_cache, BalanceCache_iter. generalize (∅ : gmap Z (Z * Z)).
  induction (map_to_list c) as [|[id b] l IH]; intros m; [done|]. simpl. apply IH.
Qed.

(** The number of mismatches the third check counts. *)
Definition cache_mismatches (rows : list (Z * Z * Z)) (c : BalanceCache) : nat :=
  (length (List.filter (cache_row_mismatch (collect_cache (BalanceCache_iter c))) rows) +
   length (List.filter (fun x => negb (bool_decide (x.1.1 ∈ (fst <$> (fst <$> rows)))))
             (BalanceCache_iter c)))%nat.

Lemma run_check_cache w :
  w_faults w = [] ->
  exists w', w_db w' = w_db w /\ w_cache w' = w_cache w /\ w_faults w' = [] /\
    run check_cache_consistency w =
      (Some (Some (cache_mismatches (select_balances (w_db w)) (w_cache w))), w').
Proof.
  intros Hf. unfold check_cache_consistency.
  match goal with |- context [Vis (PoolQuery ?q) ?k] =>
    destruct (run_pool q (Ok (select_balances (w_db w))) k w Hf eq_refl)
      as (w' & Hdb & Hc & Hf' & ->) end.
  simpl. rewrite Hc. unfold cache_mismatches.
  eexists. split; [|split; [|split; [|reflexivity]]]; simpl; done.
Qed.

Lemma select_balances_elem db id p q :
  (id, p, q) ∈ select_balances db <->
  exists r, accounts db !! id = Some r /\ p = a_posted_balance r /\ q = a_pending_balance r.
Proof.
  unfold select_balances. rewrite list_elem_of_fmap. split.
  - intros ([id' r] & [= -> -> ->] & Hr%elem_of_map_to_list). eauto.
  - intros (r & Hr & -> & ->). exists (id, r). split; [done|]. by apply elem_of_map_to_list.
Qed.

Lemma select_balances_ids db id :
  id ∈ (fst <$> (fst <$> select_balances db)) <-> is_Some (accounts db !! id).
Proof.
  rewrite list_elem_of_fmap. split.
  - intros ([id' p] & -> & Hin). apply list_elem_of_fmap in Hin as ([[id'' p'] q] & [= -> ->] & Hin).
    apply select_balances_elem in Hin as (r & Hr & _). by exists r.
  - intros [r Hr]. exists (id, a_posted_balance r). split; [done|]. apply list_elem_of_fmap.
    exists (id, a_posted_balance r, a_pending_balance r). split; [done|].
    apply select_balances_elem. eauto.
Qed.

(** The third check counts nothing exactly when the cache mirrors the table. *)
Lemma cache_mismatches_zero db (c : BalanceCache) :
  cache_mismatches (select_balances db) c = 0%nat <-> c = mirror (accounts db).
Proof.
  unfold cache_mismatches. rewrite Nat.eq_add_0, !length_filter_zero, collect_cache_iter. split.
  - intros [Hrows Hcache]. apply map_eq. intros id. unfold mirror. rewrite lookup_fmap.
    destruct (accounts db !! id) as [r|] eqn:Hr; simpl.
    + specialize (Hrows (id, a_posted_balance r, a_pending_balance r)
        ltac:(apply select_balances_elem; eauto)).
      unfold cache_row_mismatch in Hrows. rewrite lookup_fmap in Hrows.
      destruct (c !! id) as [[p q]|]; [|done]. simpl in Hrows.
      rewrite orb_false_iff, !negb_false_iff, !Z.eqb_eq in Hrows. by destruct Hrows as [-> ->].
    + destruct (c !! id) as [b|] eqn:Hb; [|done].
      specialize (Hcache (id, cached_posted b, cached_pending b)).
      rewrite negb_false_iff, bool_decide_eq_true, select_balances_ids in Hcache. simpl in Hcache.
      rewrite Hr in Hcache. destruct Hcache as [x Hx]; [|done].
      apply list_elem_of_fmap. exists (id, b). split; [done|]. by apply elem_of_map_to_list.
  - intros ->. split.
    + intros [[id p] q] (r & Hr & -> & ->)%select_balances_elem.
      unfold cache_row_mismatch, mirror. rewrite !lookup_fmap, Hr. simpl.
      by rewrite !Z.eqb_refl.
    + intros [[id p] q] Hin. rewrite negb_false_iff, bool_decide_eq_true, select_balances_ids.
      apply list_elem_of_fmap in Hin as ([id' b] & [= -> -> ->] & Hb%elem_of_map_to_list).
      simpl. unfold mirror in Hb. rewrite lookup_fmap in Hb.
      destruct (accounts db !! id') as [r|]; [by exists r|done].
Qed.

(** The three gauges. *)
Lemma run_checks w :
  w_faults w = [] ->
  exists w', run run_all_checks w =
    (Some (match select_global (w_db w) with
           | Ok (d, c) => Some (bool_decide (d = c)) | Err _ => None end,
           match select_account_sums (w_db w) with
           | Ok rows => Some (length (List.filter account_mismatch rows)) | Err _ => None end,
           Some (cache_mismatches (select_balances (w_db w)) (w_cache w))), w').
Proof.
  intros Hf. destruct (run_check_global w Hf) as (w1 & Hdb1 & Hc1 & Hf1 & Hr1).
  destruct (run_check_accounts w1 Hf1) as (w2 & Hdb2 & Hc2 & Hf2 & Hr2).
  destruct (run_check_cache w2 Hf2) as (w3 & Hdb3 & Hc3 & Hf3 & Hr3).
  exists w3. unfold run_all_checks. rewrite run_bind, Hr1, run_bind, Hr2, run_bind, Hr3. simpl.
  by rewrite Hdb2, Hc2, Hdb1, Hc1.
Qed.

(** ** Properties *)

(** C20.  The books balance: in every reachable world the debits of all entries
    that are not voided equal their credits, and as long as that total fits 64
    bits the integrity checks of an otherwise idle server report a balanced ledger
    and no account mismatch.  They report no cache mismatch either, unless a commit
    was applied behind a reported failure. *)
Theorem integrity_checks_pass w now :
  reachable w -> global_total 1 (w_db w) <= i64_max ->
  global_total 1 (w_db w) = global_total 2 (w_db w) /\
  exists n, (run run_all_checks (at_time now [] w)).1 = Some (Some true, Some 0%nat, Some n) /\
    (reachable_in no_lost_commit w -> n = 0%nat).
Proof.
  intros Hr Hle. pose proof (reachable_ok _ _ Hr) as Hok.
  pose proof (global_balanced _ _ Hok) as Hg. split; [done|].
  pose proof (global_total_nonneg 1 _ _ Hok). pose proof (db_ok_entry_row _ _ Hok) as Hrow.
  assert (forall id st et, et = 1 \/ et = 2 -> in_i64 (column id st et (w_db w))) as Hfit.
  { intros id st et Het. pose proof (column_le id st et _ Hrow). destruct Het as [-> | ->]; int_lia. }
  destruct (run_checks (at_time now [] w) eq_refl) as [w' ->]. simpl.
  assert (select_global (w_db w) = Ok (global_total 1 (w_db w), global_total 2 (w_db w))) as ->
    by (apply select_global_Ok; split_and!; done || int_lia). rewrite bool_decide_true by done.
  assert (select_account_sums (w_db w) = Ok (sums_row (w_db w) <$> map_to_list (accounts (w_db w))))
    as -> by (by apply select_account_sums_fit).
  eexists. split.
  - do 4 f_equal. apply length_filter_zero. intros x Hx. apply list_elem_of_fmap in Hx as ([id r] & -> & Hx).
    apply elem_of_map_to_list in Hx. destruct (ok_accounts _ _ Hok _ _ Hx) as [Hra _ Hp Hq].
    apply account_mismatch_false; [done|apply Hra|auto|done].
  - intros Hn. apply cache_mismatches_zero. by apply reachable_mirror.
Qed.

(** C21.  The checks detect every divergence: on any tables whose rows satisfy
    the column constraints and whose totals fit 64 bits, reachable or not, the
    checks report a balanced ledger without mismatches only if debits equal
    credits, every materialized balance is the signed sum of the account's entries
    and the cache holds exactly the materialized balances. *)
Theorem integrity_checks_detect w now :
  (forall k e, entries (w_db w) !! k = Some e -> entry_row_ok e) ->
  (forall a r, accounts (w_db w) !! a = Some r -> 1 <= a_account_type r <= 5) ->
  global_total 1 (w_db w) <= i64_max -> global_total 2 (w_db w) <= i64_max ->
  (run run_all_checks (at_time now [] w)).1 = Some (Some true, Some 0%nat, Some 0%nat) <->
  global_total 1 (w_db w) = global_total 2 (w_db w) /\
  (forall a r, accounts (w_db w) !! a = Some r ->
     a_posted_balance r = account_sum 2 a (a_account_type r) (entries (w_db w)) /\
     a_pending_balance r = account_sum 1 a (a_account_type r) (entries (w_db w))) /\
  w_cache w = mirror (accounts (w_db w)).
Proof.
  intros Hrow Hty H1 H2.
  assert (forall id st et, et = 1 \/ et = 2 -> in_i64 (column id st et (w_db w))) as Hfit.
  { intros id st et Het. pose proof (column_le id st et _ Hrow). destruct Het as [-> | ->]; int_lia. }
  pose proof (column_le 0 0 1 _ Hrow). pose proof (column_le 0 0 2 _ Hrow).
  destruct (run_checks (at_time now [] w) eq_refl) as [w' ->]. simpl.
  assert (select_global (w_db w) = Ok (global_total 1 (w_db w), global_total 2 (w_db w))) as ->
    by (apply select_global_Ok; split_and!; done || int_lia).
  assert (select_account_sums (w_db w) = Ok (sums_row (w_db w) <$> map_to_list (accounts (w_db w))))
    as -> by (by apply select_account_sums_fit).
  rewrite <- (cache_mismatches_zero (w_db w)). 
  assert ((length (List.filter account_mismatch (sums_row (w_db w) <$>
    map_to_list (accounts (w_db w)))) = 0%nat) <-> forall a r, accounts (w_db w) !! a = Some r ->
     a_posted_balance r = account_sum 2 a (a_account_type r) (entries (w_db w)) /\
     a_pending_balance r = account_sum 1 a (a_account_type r) (entries (w_db w))) as <-.
  { rewrite length_filter_zero. split.
    - intros Hall a r Hr. apply account_mismatch_false; [done|by eapply Hty|auto|].
      apply Hall. apply list_elem_of_fmap. exists (a, r). split; [done|].
      by apply elem_of_map_to_list.
    - intros Hall x Hx. apply list_elem_of_fmap in Hx as ([a r] & -> & Hx).
      apply elem_of_map_to_list in Hx. apply account_mismatch_false; eauto. }
  split.
  - intros [= Hb ? ?]. by apply bool_decide_eq_true in Hb.
  - intros (Hb & -> & ->). by rewrite bool_decide_true.
Qed.
End integrity.

(** ** Concrete cases *)

Import Sample.

Lemma integrity_checks_pass_witness :
  (run run_all_checks (at_time 5000 [] held)).1 = Some (Some true, Some 0%nat, Some 0%nat).
Proof.
  destruct (integrity_checks_pass held 5000) as (_ & n & Hr & Hn).
  - apply sample_reachable. constructor.
  - vm_compute. discriminate.
  - rewrite Hn in Hr; [exact Hr|]. apply sample_reachable. constructor.
Defined.

(** A world whose cache was lost: the third check reports it. *)
Lemma held_ok : db_ok (w_db held) (w_seqs held).
Proof. by apply (reachable_ok any_faults), sample_reachable. Qed.
Lemma set_cache_db c w : w_db (set_cache c w) = w_db w.
Proof. done. Qed.
Lemma set_cache_cache c w : w_cache (set_cache c w) = c.
Proof. done. Qed.

Lemma integrity_checks_detect_witness :
  (run run_all_checks (at_time 5000 [] (set_cache ∅ held))).1
    <> Some (Some true, Some 0%nat, Some 0%nat).
Proof.
  intros Hc. apply (integrity_checks_detect (set_cache ∅ held) 5000) in Hc as (_ & _ & Hm);
    rewrite ?set_cache_db.
  - rewrite set_cache_db, set_cache_cache in Hm.
    apply (f_equal (fun c => bool_decide (c = ∅))) in Hm. vm_compute in Hm. discriminate.
  - apply (db_ok_entry_row _ _ held_ok).
  - intros a r Hr. apply (db_ok_account_row _ _ held_ok a r Hr).
  - vm_compute. discriminate.
  - vm_compute. discriminate.
Defined.
