(* ===== verification/Refinement.v ===== *)
(** * Refinement: the service implements an abstract ledger

    The abstract ledger knows accounts and transactions only: a transaction has a
    key, a phase and its legs, it is held when it is created and later captured or
    released, once.  There are no entries, ids of entries, versions, caches,
    locks or database transactions.  [abstract] reads the tables as such a ledger;
    every step of the server is a step of the abstract ledger or leaves it as it
    is, and the materialized balances are those the abstract ledger derives. *)

From S2P Require Import Prelude.
From S2P Require Import Money Accounts Transactions Entries Validation.
From S2P Require Import StorageErrors Schema Cache Effects Triples Postgres.
From S2P Require Import ServiceErrors Ledger Invariant Updates PostgresSpecs LedgerSpecs.
From S2P Require Import Preserve Handlers HandlerSpecs AuthorizeSpec SettleSpec System Safety.
From S2P Require Import Concrete IntegrityCorrect.
Local Open Scope Z_scope.

(** ** The abstract ledger *)

Inductive phase := Held | Captured | Released.
#[export] Instance phase_eq_dec : EqDecision phase.
Proof. solve_decision. Defined.

Record spec_leg := mk_spec_leg { sl_account : Z; sl_side : EntryType; sl_amount : Z }.
Record spec_txn := mk_spec_txn { st_key : string; st_phase : phase; st_legs : list spec_leg }.
Record spec := mk_spec { sp_accounts : gmap Z NormalBalance; sp_txns : gmap Z spec_txn }.

Definition spec_total (side : EntryType) (legs : list spec_leg) : Z :=
  Zsum (fun l => on_side side (sl_side l) (sl_amount l)) legs.
Definition set_phase (p : phase) (x : spec_txn) : spec_txn :=
  mk_spec_txn (st_key x) p (st_legs x).

Inductive spec_step : spec -> spec -> Prop :=
| spec_open a nb sp :
    sp_accounts sp !! a = None ->
    spec_step sp (mk_spec (<[a := nb]> (sp_accounts sp)) (sp_txns sp))
| spec_hold t key legs sp :
    sp_txns sp !! t = None ->
    (forall t' x, sp_txns sp !! t' = Some x -> st_key x <> key) ->
    (2 <= length legs)%nat ->
    (forall l, l ∈ legs -> 0 < sl_amount l /\ is_Some (sp_accounts sp !! sl_account l)) ->
    spec_total EntryType_Debit legs = spec_total EntryType_Credit legs ->
    spec_step sp (mk_spec (sp_accounts sp) (<[t := mk_spec_txn key Held legs]> (sp_txns sp)))
| spec_settle t x p sp :
    sp_txns sp !! t = Some x -> st_phase x = Held -> p <> Held ->
    spec_step sp (mk_spec (sp_accounts sp) (<[t := set_phase p x]> (sp_txns sp))).

(** The balance of an account in a phase. *)
Definition spec_balance (p : phase) (a : Z) (nb : NormalBalance) (sp : spec) : Z :=
  map_Zsum (fun x => if decide (st_phase x = p)
    then Zsum (fun l => if decide (sl_account l = a)
                        then entry_sign nb (sl_side l) * sl_amount l else 0) (st_legs x)
    else 0) (sp_txns sp).

(** ** The tables as an abstract ledger *)

Definition phase_of (status : Z) : phase :=
  match status with 1 => Held | 2 => Captured | _ => Released end.
Definition leg_of (x : Z * entries_row) : spec_leg :=
  mk_spec_leg (e_account_id x.2) (code_side (e_entry_type x.2)) (e_amount x.2).

Section abstract.
Context `{JsonLib}.
Implicit Types (db : database) (s : sequences).

Definition abstract_txn db (t : Z) (tr : transactions_row) : spec_txn :=
  mk_spec_txn (t_idempotency_key tr) (phase_of (t_status tr)) (leg_of <$> entries_of t db).
Definition abstract db : spec :=
  mk_spec ((fun r => code_normal (a_account_type r)) <$> accounts db)
    (map_imap (fun t tr => Some (abstract_txn db t tr)) (transactions db)).

Lemma abstract_lookup db t :
  sp_txns (abstract db) !! t = abstract_txn db t <$> transactions db !! t.
Proof. simpl. rewrite map_lookup_imap. by destruct (transactions db !! t). Qed.

(** ** The entries of a transaction, in order *)

Lemma entries_of_sorted t db : StronglySorted id_le (entries_of t db).
Proof.
  apply Sorted_StronglySorted; [intros x y z; unfold id_le; lia|].
  apply (Sorted_merge_sort id_le).
Qed.

Lemma number_rows_elem id rows k e :
  (k, e) ∈ number_rows id rows -> id <= k /\ e ∈ rows.
Proof.
  revert id. induction rows as [|r rows IH]; intros id Hin; simpl in *; [set_solver|].
  apply elem_of_cons in Hin as [Hin|Hin].
  - simplify_eq. split; [lia|set_solver].
  - apply IH in Hin as [? ?]. split; [lia|set_solver].
Qed.

Lemma number_rows_sorted id rows : StronglySorted id_le (number_rows id rows).
Proof.
  revert id. induction rows as [|r rows IH]; intros id; simpl; constructor; [apply IH|].
  apply Forall_forall. intros [k e] [Hk _]%number_rows_elem. unfold id_le. simpl. lia.
Qed.

Lemma map_to_list_append id rows (es : gmap Z entries_row) :
  fresh_from id es ->
  map_to_list (append_rows id rows es) ≡ₚ map_to_list es ++ number_rows id rows.
Proof.
  revert id es. induction rows as [|r rows IH]; intros id es Hf; simpl.
  - by rewrite app_nil_r.
  - rewrite IH.
    + rewrite map_to_list_insert; [simpl; apply Permutation_middle|].
      destruct (es !! id) as [x|] eqn:Hx; [|done]. apply Hf in Hx. lia.
    + intros k x. destruct (decide (id = k)) as [->|]; [lia|].
      rewrite lookup_insert_ne by done. intros Hx. apply Hf in Hx. lia.
Qed.

Lemma number_rows_snd id rows : snd <$> number_rows id rows = rows.
Proof.
  revert id. induction rows as [|r rows IH]; intros id; [done|]. simpl. by rewrite IH.
Qed.
Lemma length_number_rows id rows : length (number_rows id rows) = length rows.
Proof. rewrite <- (number_rows_snd id rows) at 2. by rewrite length_fmap. Qed.

Lemma spec_total_rows side (rows : list (Z * entries_row)) :
  spec_total side (leg_of <$> rows) = rows_total side (snd <$> rows).
Proof. unfold spec_total, rows_total. by rewrite !Zsum_fmap. Qed.

Lemma Zsum_entries_of_pairs (f : entries_row -> Z) t db :
  Zsum (fun x => f x.2) (entries_of t db) =
    map_Zsum (fun e => if decide (e_transaction_id e = t) then f e else 0) (entries db).
Proof. rewrite <- Zsum_entries_of. by rewrite Zsum_fmap. Qed.

Lemma map_Zsum_imap {B} (f : B -> Z) (g : Z -> transactions_row -> B)
    (m : gmap Z transactions_row) :
  map_Zsum f (map_imap (fun k x => Some (g k x)) m) =
    Zsum (fun kx => f (g kx.1 kx.2)) (map_to_list m).
Proof.
  induction m as [|k x m Hk IH] using map_ind.
  - by rewrite map_imap_empty, map_Zsum_empty, map_to_list_empty.
  - rewrite (map_imap_insert_Some _ _ _ _ (g k x)) by done.
    rewrite map_Zsum_insert by (by rewrite map_lookup_imap, Hk).
    by rewrite map_to_list_insert, Zsum_cons, IH.
Qed.

(** Two lists of rows of one table, sorted by id, with the same elements are equal. *)
Lemma sorted_rows_unique (m : gmap Z entries_row) l1 l2 :
  StronglySorted id_le l1 -> StronglySorted id_le l2 -> l1 ≡ₚ l2 ->
  (forall k e, (k, e) ∈ l1 -> m !! k = Some e) -> l1 = l2.
Proof.
  intros H1 H2 Hp Hin. apply (StronglySorted_unique_strong id_le); [|done..].
  intros [k1 e1] [k2 e2] Hx1 Hx2 Hle1 Hle2. unfold id_le in *. simpl in *.
  assert (k1 = k2) as -> by lia. rewrite <- Hp in Hx2.
  apply Hin in Hx1, Hx2. congruence.
Qed.

(** Appended rows of transaction [t] follow its entries; other transactions keep
    theirs. *)
Lemma entries_of_append db acs ts id rows t t' :
  fresh_from id (entries db) -> (forall e, e ∈ rows -> e_transaction_id e = t) ->
  entries_of t' (mk_database _ acs ts (append_rows id rows (entries db))) =
    entries_of t' db ++ if decide (t = t') then number_rows id rows else [].
Proof.
  intros Hf Ht. apply (sorted_rows_unique (append_rows id rows (entries db))).
  - apply entries_of_sorted.
  - case_decide as Heq; [|rewrite app_nil_r; apply entries_of_sorted].
    apply StronglySorted_app_2; [|apply entries_of_sorted|apply number_rows_sorted].
    intros [k e] [k' e'] He [Hk' _]%number_rows_elem.
    apply elem_of_entries_of in He as [He _]. apply Hf in He. unfold id_le. simpl. lia.
  - unfold entries_of, select_entries_of_transaction. simpl.
    rewrite !(merge_sort_Permutation id_le), map_to_list_append, filter_app by done.
    f_equiv. case_decide as Heq.
    + rewrite list_filter_all; [done|]. intros [k e] [_ He]%number_rows_elem. subst. auto.
    + rewrite list_filter_none; [done|]. intros [k e] [_ He]%number_rows_elem.
      rewrite (Ht e He). done.
  - intros k e He. by apply elem_of_entries_of in He as [He _].
Qed.

(** Settling keeps the entries, but for their status. *)
Lemma entries_of_settle db acs ts t st t' :
  leg_of <$> entries_of t' (mk_database _ acs ts (settle_entries t st (entries db))) =
  leg_of <$> entries_of t' db.
Proof.
  set (g := fun e => if decide (e_transaction_id e = t) then set_entry_status e st else e).
  assert (forall e, e_transaction_id (g e) = e_transaction_id e) as Hg.
  { intros e. unfold g. by case_decide. }
  transitivity (leg_of <$> (prod_map id g <$> entries_of t' db)).
  - f_equal. apply (sorted_rows_unique (settle_entries t st (entries db))).
    + apply entries_of_sorted.
    + pose proof (entries_of_sorted t' db) as Hs. induction Hs as [|x l Hs IH Hx]; simpl;
        constructor; [done|]. apply Forall_fmap. eapply Forall_impl; [exact Hx|]. done.
    + unfold entries_of, select_entries_of_transaction. simpl.
      rewrite !(merge_sort_Permutation id_le). unfold settle_entries. fold g.
      rewrite map_to_list_fmap. induction (map_to_list (entries db)) as [|[k e] l IH]; [done|].
      rewrite fmap_cons. rewrite !filter_cons. simpl. rewrite Hg.
      case_decide; [rewrite fmap_cons; by f_equiv|done].
    + intros k e He. by apply elem_of_entries_of in He as [He _].
  - rewrite <- list_fmap_compose. apply list_fmap_ext. intros _ [k e] _.
    unfold leg_of. simpl. unfold g. by case_decide.
Qed.
End abstract.

Section refinement.
Context `{JsonLib, PgLib} {Hlaws : PgLaws}.
Implicit Types (db : database) (s : sequences) (w : world).

Lemma abstract_accounts_updates cp cq its u (acs : gmap Z accounts_row) :
  updates_of cp cq its u ->
  (fun r => code_normal (a_account_type r)) <$> apply_updates u acs =
  (fun r => code_normal (a_account_type r)) <$> acs.
Proof.
  intros Hu. apply map_eq. intros a. rewrite !lookup_fmap.
  rewrite (apply_updates_lookup cp cq its) by done.
  destruct (acs !! a) as [r|]; [|done]. simpl. by rewrite touch_account_type.
Qed.

Lemma spec_ext sp1 sp2 :
  sp_accounts sp1 = sp_accounts sp2 -> (forall t, sp_txns sp1 !! t = sp_txns sp2 !! t) ->
  sp1 = sp2.
Proof. destruct sp1, sp2. simpl. intros -> Ht. f_equal. by apply map_eq. Qed.

(** *** The three changes *)

Lemma abstract_add_account db s r :
  db_ok db s -> spec_step (abstract db) (abstract (add_account (accounts_id_seq s) r db)).
Proof.
  intros Hok. assert (abstract (add_account (accounts_id_seq s) r db) =
    mk_spec (<[accounts_id_seq s := code_normal (a_account_type r)]> (sp_accounts (abstract db)))
      (sp_txns (abstract db))) as ->.
  { apply spec_ext; [|done]. simpl. by rewrite fmap_insert. }
  apply spec_open. simpl. rewrite lookup_fmap, (db_ok_fresh_account _ _ Hok). done.
Qed.

Lemma abstract_add_transaction db s tr rows u :
  db_ok db s -> new_rows db (transactions_id_seq s) rows -> t_status tr = 1 ->
  find_key (t_idempotency_key tr) db = None ->
  updates_of 0 1 (items db rows) u ->
  spec_step (abstract db)
    (abstract (add_transaction (transactions_id_seq s) tr (entries_id_seq s) rows u db)).
Proof.
  intros Hok Hnr Hst Hkey Hu. set (t := transactions_id_seq s) in *.
  set (legs := leg_of <$> number_rows (entries_id_seq s) rows).
  pose proof (db_ok_fresh_entries _ _ Hok) as Hf.
  pose proof (db_ok_fresh_transaction _ _ Hok) as Hft. fold t in Hft.
  assert (entries_of t db = []) as Hnone.
  { destruct (entries_of t db) as [|[k e] l] eqn:He; [done|].
    assert ((k, e) ∈ entries_of t db) as [Hk Het]%elem_of_entries_of by (rewrite He; set_solver).
    destruct (eo_transaction _ _ _ _ (ok_entries _ _ Hok _ _ Hk)) as (tr' & Ht' & _). congruence. }
  assert (abstract (add_transaction t tr (entries_id_seq s) rows u db) =
    mk_spec (sp_accounts (abstract db))
      (<[t := mk_spec_txn (t_idempotency_key tr) Held legs]> (sp_txns (abstract db)))) as ->.
  { apply spec_ext; [by eapply abstract_accounts_updates|]. intros t'.
    rewrite abstract_lookup. cbn [sp_txns]. unfold abstract_txn, add_transaction.
    rewrite (entries_of_append _ _ _ _ _ t) by (done || apply Hnr). simpl.
    destruct (decide (t = t')) as [<-|Hne].
    - rewrite !lookup_insert_eq. simpl. by rewrite Hst, Hnone.
    - rewrite !lookup_insert_ne, app_nil_r by done.
      rewrite map_lookup_imap. by destruct (transactions db !! t'). }
  assert (forall l, l ∈ legs -> exists e, e ∈ rows /\ sl_amount l = e_amount e /\
            sl_account l = e_account_id e) as Hlegs.
  { intros l Hl. apply list_elem_of_fmap in Hl as ([k e] & -> & [_ He]%number_rows_elem). eauto. }
  apply spec_hold.
  - rewrite abstract_lookup, Hft. done.
  - intros t' x. rewrite abstract_lookup. intros (tr' & Ht' & ->)%fmap_Some.
    rewrite find_key_None in Hkey. simpl. by apply Hkey in Ht'.
  - unfold legs. rewrite length_fmap, length_number_rows.
    pose proof (nr_count _ _ _ Hnr). lia.
  - intros l (e & He & -> & ->)%Hlegs. destruct Hnr as [Hrows _ _ Hacc _ _ _].
    rewrite Forall_forall in Hrows. destruct (Hrows e He) as [(_ & Ha & _) _].
    split; [done|]. simpl. rewrite lookup_fmap. by apply fmap_is_Some, Hacc.
  - unfold legs. rewrite !spec_total_rows, number_rows_snd. apply Hnr.
Qed.

Lemma abstract_settle db s t tr tr' u cp its :
  db_ok db s -> transactions db !! t = Some tr -> t_status tr = 1 ->
  t_idempotency_key tr' = t_idempotency_key tr -> phase_of (t_status tr') <> Held ->
  updates_of cp (-1) its u ->
  spec_step (abstract db) (abstract (settle t tr' (t_status tr') u db)).
Proof.
  intros Hok Ht Hst Hk Hp Hu.
  assert (abstract (settle t tr' (t_status tr') u db) =
    mk_spec (sp_accounts (abstract db))
      (<[t := set_phase (phase_of (t_status tr')) (abstract_txn db t tr)]>
         (sp_txns (abstract db)))) as ->.
  { apply spec_ext; [by eapply abstract_accounts_updates|]. intros t'.
    rewrite abstract_lookup. cbn [sp_txns]. unfold abstract_txn, settle. simpl.
    rewrite entries_of_settle. destruct (decide (t = t')) as [<-|Hne].
    - rewrite !lookup_insert_eq. simpl. unfold set_phase. simpl. by rewrite Hk.
    - rewrite !lookup_insert_ne by done.
      rewrite map_lookup_imap. by destruct (transactions db !! t'). }
  apply spec_settle; [by rewrite abstract_lookup, Ht|simpl; by rewrite Hst|done].
Qed.

(** Every committed change is a step of the abstract ledger, or none. *)
Lemma request_post_abstract req w r db' c' s' :
  db_ok (w_db w) (w_seqs w) -> request_post req w r db' c' s' ->
  abstract db' = abstract (w_db w) \/ spec_step (abstract (w_db w)) (abstract db').
Proof.
  intros Hok. destruct req as [req| | |req|t|t|]; simpl; try (by intros (-> & _); left).
  - intros (x & _ & ty & code' & _ & _ & _ & _ & _ & -> & _). right.
    by apply abstract_add_account.
  - intros (x & _ & md & legs & _ & Hp). destruct (find_key _ _) as [[t tr]|].
    + destruct Hp as (-> & _). by left.
    + destruct Hp as (key' & md' & u & _ & _ & Hf & _ & Hnr & _ & Hu & _ & -> & _).
      right. by apply abstract_add_transaction.
  - intros (x & _ & tr & Ht & [(_ & -> & _)|(Hp & u & _ & Hu & _ & -> & _)]); [by left|].
    right. by eapply abstract_settle.
  - intros (x & _ & tr & Ht & [(_ & -> & _)|(Hp & u & _ & Hu & _ & -> & _)]); [by left|].
    right. by eapply abstract_settle.
Qed.

(** ** Properties *)

(** C10.  The service refines the abstract ledger: whatever a request or a
    restart does, under any database failures, is one step of the abstract ledger
    (an account is opened, a balanced transaction is held under a new key, a held
    transaction is captured or released) or leaves the abstract ledger as it
    is. *)
Theorem service_refines_ledger w w' :
  reachable w -> sys_step any_faults w w' ->
  abstract (w_db w') = abstract (w_db w) \/ spec_step (abstract (w_db w)) (abstract (w_db w')).
Proof.
  intros Hr Hstep. pose proof (reachable_ok _ _ Hr) as Hok.
  destruct Hstep as [req now faults w Hv He|now faults w w' He Hst].
  - destruct (request_returns req (at_time now faults w)) as (r & w' & -> & _ & _ & _ & Ho);
      [done..|]. simpl. destruct r as [a|e].
    + by apply (request_post_abstract req (at_time now faults w)) in Ho.
    + destruct Ho as [_ [[Hdb _]|[_ (a & c' & Hp)]]]; [left; by rewrite Hdb|].
      by apply (request_post_abstract req (at_time now faults w)) in Hp.
  - apply serve_start_effect in Hst as (Hdb & _). left. by rewrite Hdb.
Qed.

Lemma spec_balance_sum p st a ty db s :
  db_ok db s -> (forall z, 1 <= z <= 3 -> phase_of z = p <-> z = st) ->
  account_sum st a ty (entries db) = spec_balance p a (code_normal ty) (abstract db).
Proof.
  intros Hok Hp. unfold account_sum.
  rewrite (map_Zsum_by_txn _ _ (map_to_list (transactions db)).*1).
  - unfold spec_balance. simpl. rewrite map_Zsum_imap, Zsum_fmap.
    apply Zsum_ext. intros [t tr] Ht%elem_of_map_to_list. simpl.
    pose proof (tr_status _ (db_ok_transaction_row _ _ Hok _ _ Ht)) as Hst.
    rewrite Zsum_fmap.
    change (Zsum _ (entries_of t db)) with (Zsum (fun x : Z * entries_row =>
      (fun e => if decide (e_account_id e = a) then row_signed ty e else 0) x.2)
      (entries_of t db)). rewrite Zsum_entries_of_pairs.
    case_decide as Hph.
    + apply Hp in Hph; [|done]. apply map_Zsum_ext. intros k e He.
      case_decide as Het; [|done].
      destruct (eo_transaction _ _ _ _ (ok_entries _ _ Hok _ _ He)) as (tr' & Ht' & Hes).
      rewrite Het in Ht'. simplify_eq. repeat case_decide; done || naive_solver.
    + apply map_Zsum_zero. intros k e He. case_decide as Het; [|done].
      destruct (eo_transaction _ _ _ _ (ok_entries _ _ Hok _ _ He)) as (tr' & Ht' & Hes).
      rewrite Het in Ht'. simplify_eq. rewrite decide_False; [done|]. intros [_ Hes'].
      apply Hph, Hp; [done|congruence].
  - apply NoDup_fst_map_to_list.
  - intros k e He. destruct (eo_transaction _ _ _ _ (ok_entries _ _ Hok _ _ He)) as (tr & Ht & _).
    apply list_elem_of_fmap. exists (e_transaction_id e, tr). split; [done|].
    by apply elem_of_map_to_list.
Qed.

(** C11.  The materialized balances are those of the abstract ledger: in every
    reachable world the posted balance of an account is the signed sum of its legs
    in captured transactions, and its pending balance the signed sum of its legs
    in held ones. *)
Theorem balances_refine_ledger w a r :
  reachable w -> accounts (w_db w) !! a = Some r ->
  let nb := code_normal (a_account_type r) in
  a_posted_balance r = spec_balance Captured a nb (abstract (w_db w)) /\
  a_pending_balance r = spec_balance Held a nb (abstract (w_db w)).
Proof.
  intros Hr Ha. pose proof (reachable_ok _ _ Hr) as Hok.
  destruct (ok_accounts _ _ Hok _ _ Ha) as [_ _ Hp Hq].
  split; [rewrite Hp|rewrite Hq]; apply (spec_balance_sum _ _ _ _ _ _ Hok);
    intros z [->|[->| ->]]%code_cases_3; done.
Qed.
End refinement.

(** ** Concrete cases *)

Import Sample.

Lemma service_refines_ledger_witness :
  abstract (w_db held) = abstract (w_db funded) \/
  spec_step (abstract (w_db funded)) (abstract (w_db held)).
Proof.
  apply service_refines_ledger; [by apply funded_reachable|].
  unfold held. rewrite after_one. apply sys_request; [|done].
  repeat constructor; simpl; int_lia.
Defined.

Lemma balances_refine_ledger_witness :
  -60 = spec_balance Held 1 NormalBalance_Debit (abstract (w_db held)).
Proof.
  apply (balances_refine_ledger held 1 (mk_accounts_row 1 "USD" 2 3 100 (-60) 1000)).
  - by apply sample_reachable.
  - vm_compute. reflexivity.
Defined.
